(* ===== verification/_CoqProject ===== *)
-Q . S2P
Prelude.v
Bytes.v
External.v
Thor.v
Block.v
BlockCorrect.v
Tx.v
TxCorrect.v
Receipts.v
StackedMap.v
ChainRepo.v
ChainRepoInv.v
ChainDemo.v
ChainRepoCorrect.v
Scheduler.v
SchedulerCorrect.v
Chain.v
Authority.v
Stakes.v
GlobalStats.v
Aggregation.v
Validation.v
Delegation.v
Storage.v
LinkedList.v
RenewalList.v
Repository.v
ValidationService.v
Staker.v
StakerInv.v
StakerOps.v
DelegationOps.v
Housekeep.v
HousekeepInv.v
TransitionInv.v
StakerNative.v
StakerWorld.v
StakerChain.v
Scenario.v
StakerCorrect.v
StakerRequests.v
Bft.v
BftVotes.v
BftCaches.v
BftFinality.v
Node.v
NodeCorrect.v
BftWeights.v
BftCorrect.v
Trie.v
TrieTree.v
TrieRep.v
TrieInsert.v
TrieDelete.v
TrieCodec.v
TrieCommit.v
TrieCorrect.v
TrieBinding.v
TxRoot.v
TrieTheorems.v
AccountState.v
StateSpec.v
StateCorrect.v
StateStage.v
StateReopen.v
StateTheorems.v
Consensus.v
EnergyToken.v
EnergySupply.v
EnergyTheorems.v
Runtime.v
RuntimeCorrect.v
Packer.v
PackerSched.v
PackerStake.v
PackerExec.v
PackerCorrect.v
PackerDemo.v
PackerTheorems.v
ConsensusCaches.v
