(* ===== verification/Prelude.v ===== *)
(** * VeChainThor: a verification development

    The program is the VeChainThor node, a Go implementation of a blockchain.
    This library models the parts of it that decide what the chain is: blocks
    and transactions, the repository of blocks, the Merkle trie, the account state
    with the energy token and the execution of transactions, the proposer
    schedules, the staking contract with its epoch transitions, the validation and
    packing of blocks, the finality engine, and the part of the node that takes
    blocks in.  Definitions are translated
    from the sources and keep their names; where two packages use one name, the
    definition carries the receiver or the package in front ([v2_Schedule],
    [trie_Get], [service_Add]).

    ** Conventions

    - Machine integers are [Z] with the wrap-around written out ([+u64],
      [wrap32]); [big.Int] is [Z]; addresses and hashes are [Z] below their
      bound, byte strings are lists of [Z].
    - [result A] is [Ok] or [Err]; an [error] is a revert ([ErrRevert] and the
      like), an internal error, a panic ([ErrPanic]) or fuel that ran out
      ([ErrFuel]).  [M S A] is [S -> result (A * S)]: a failed call leaves no
      state.  Where the state after a failure matters (the engine, the node, the
      validator's caches) the monad is [K S A], [S -> S * result A].
    - Recursion that is not structural takes fuel; every theorem that an
      operation returns proves that the fuel given by the definition is enough:
      [keyFuel] of the trie is two calls for each nibble and two more, a decoder
      gets one call for each byte, the linked lists get their size plus one, the
      schedulers one round of slots, a transaction one step for each clause.
    - Code that is not in the repository is a parameter: a class of operations,
      and a class of the documented laws ([External.v]: RLP, hashing, signatures
      and VRF, checked arithmetic; [Drlp] in [Trie.v]; [StateEnv] in
      [AccountState.v]; [Evm] in [Runtime.v]; the runtime of [Consensus.v]).
      Concrete instances ([demo_*]) show that the laws can hold, and the witnesses of the theorems
      use them.

    ** Blocks and transactions

    [Block.v] models src/block (header, extension, signatures, gas limit) and
    the base fee of src/consensus/upgrade/galactica; [Tx.v] models src/tx
    (both transaction types, clauses, the reserved field, signing, work and
    intrinsic gas), and [Receipts.v] its receipts.  [BlockCorrect.v] and
    [TxCorrect.v] show that both codecs round-trip, that the base fee moves by at most an eighth and stays above its
    floor, that the gas limit the packer picks is one the validators accept, and
    who is recovered as the signer.

    ** The repository

    [ChainRepo.v] models src/chain: the stores of block summaries, transactions
    and receipts, the index from numbers to ancestors, branches.
    [ChainRepoInv.v] is the invariant of a repository built by [AddBlock];
    [ChainRepoCorrect.v] shows that the chain of every block is found by number,
    that [Exclude] is the branch between two heads, that transactions are found
    exactly when they are on the chain, and that the search by time is right.
    [ChainDemo.v] is a small concrete repository.

    ** The trie

    [Trie.v] models src/trie: key encodings, the node codec, lookup, insertion,
    deletion, hashing, storing with the ageing of cached nodes, and
    [DeriveRoot].  [TrieTree.v] has the canonical trees that nodes stand for;
    [TrieRep.v] relates nodes, in memory or in the database, to trees;
    [TrieInsert.v], [TrieDelete.v], [TrieCodec.v] and [TrieCommit.v] follow the
    operations.  [TrieCorrect.v] lifts them to tries that hold a finite map and
    has the abstract machine of a map with committed snapshots, [TrieBinding.v]
    shows that encodings determine values, and [TxRoot.v] models
    [Transactions.RootHash].  [TrieTheorems.v] shows that every run of the trie
    refines the abstract machine, and that roots identify contents up to an
    explicit collision of the hash function.

    ** Accounts, energy and transactions

    [StackedMap.v] models src/stackedmap and [AccountState.v] src/state over it:
    accounts, code and storage with caches, checkpoints, staging and commits.
    [StateSpec.v] has the stack of worlds that a state stands for;
    [StateCorrect.v], [StateStage.v] and [StateReopen.v] show that the operations
    implement it, and [StateTheorems.v] that runs of a state refine it and that a
    committed state is found again.  [EnergyToken.v] models src/builtin/energy,
    src/builtin/params and the transfers of src/runtime; [EnergySupply.v] and
    [EnergyTheorems.v] show that no accounts ever have more energy than the
    token's supply less what was burned.  [Runtime.v] models the execution of a
    transaction (src/runtime/runtime.go, resolved_tx.go) with the credits and
    sponsors of src/builtin/prototype; the EVM that runs one clause is a
    parameter.  [RuntimeCorrect.v] shows that a transaction pays for the gas it
    used, that a failed clause leaves nothing else behind, and that the books of
    the token stay right.

    ** Schedules

    [Scheduler.v] models src/scheduler (both PoA schedulers, PoS, the seed);
    [SchedulerCorrect.v] shows that a listed proposer always finds a slot, that
    a slot has exactly one proposer, and what [Updates] reports.

    ** The staker and the authority

    [Chain.v] has the lemmas on linked lists in a key-value store;
    [Authority.v] models src/builtin/authority.  [Stakes.v], [GlobalStats.v],
    [Aggregation.v], [Validation.v], [Delegation.v], [Storage.v],
    [LinkedList.v], [RenewalList.v], [Repository.v], [ValidationService.v],
    [Staker.v] and [Housekeep.v] model src/builtin/staker, one package or file
    each; [StakerNative.v] models src/builtin/staker_native.go and staker.sol,
    with calls that re-enter the contract.  [StakerInv.v] is the invariant;
    [StakerOps.v], [DelegationOps.v], [HousekeepInv.v], [TransitionInv.v],
    [StakerWorld.v] and [StakerChain.v] show that calls, blocks and governance
    keep it.  [StakerCorrect.v] collects what follows (no call panics, a block
    fails at most by an eviction without a free exit slot, and only with more than
    101 active validators, the contract is solvent, weights add up, exits are
    executed),
    [StakerRequests.v] the exact condition and effect of every request, and
    [Scenario.v] is a concrete run.  The configuration is [Thor.v].

    ** Validating and packing blocks

    [Consensus.v] models src/consensus with the candidates of src/scheduler, and
    [Packer.v] src/packer with the block builder.  Both execute transactions by
    the operations of a runtime that is a parameter, with the staker, the
    authority list and the rest of the accounts as their state.
    [PackerSched.v], [PackerStake.v] and [PackerExec.v] relate what the two
    sides see of the schedulers, the staker and the transactions;
    [PackerCorrect.v] and [PackerTheorems.v] show that a packed block is accepted
    with the same state and receipts, where at most 101 validators are active and
    the limit is at most 101 ([seats_ok]), with [PackerDemo.v] as the concrete
    run.  [ConsensusCaches.v] shows that what a validator has cached changes no
    verdict.

    ** Finality and the node

    [Bft.v] models src/bft: justifier, engine and casts.  [BftVotes.v] shows
    that the running totals are the tally of the votes and that two quorums
    intersect.  [BftCaches.v] and [BftCorrect.v] show that the caches change
    nothing, which checkpoint a committed round finalizes and when its commit
    fails, and that a vote never conflicts with the node's earlier ones, as long
    as the votes of a signer carry one weight in a round; [BftWeights.v] has a
    chain where a renewal changes a weight within a round and the caches matter.
    [Node.v] models the processing and the proposing of blocks in
    src/cmd/thor/node; a failed operation keeps what it did before the error.
    [BftFinality.v] and [NodeCorrect.v] show that finality never reverts along any
    run with failures and restarts.  Two assumptions are part of the step
    relation: a proposed block is new and extends the finalized checkpoint
    ([extends_final]), which the code does not check, and after a failed commit of
    a new highest block the next one of that number waits for a restart
    ([counted]).

    ** Not modelled

    - The EVM (src/vm), its StateDB beyond balances, and the natives other than
      the staker, the authority, energy, parameters and prototype.  The runtime
      under [Consensus.v] and [Packer.v] and the execution of a block under
      [Node.v] are parameters there, not instances of [Runtime.v].
    - The trie iterator and src/muxdb: the trie's database is a map from path
      and version to bytes, as the interfaces of src/trie state it.
    - src/txpool, src/comm, src/p2p, src/p2psrv: concurrency and networking.
    - src/api, src/thorclient, src/logdb, src/cmd, src/metrics, src/log: I/O
      around the modelled components.
    - Caches in front of stores return what the store has and are left out,
      except those of the finality engine, of the account state and of the
      validator.
    - Concurrency: every component is used under the locks of its callers, and
      the model is sequential. *)

From stdpp Require Export base gmap strings list numbers fin_maps.

Declare Scope thor_scope.
Delimit Scope thor_scope with thor.
#[global] Open Scope thor_scope.
#[global] Open Scope Z_scope.

(** ** Errors and results

    Go functions return [(value, error)].  [ErrRevert] is the staker's
    [*ErrRevert] (the transaction reverts); [ErrInternal] any other error
    value (the native wrapper panics on it); [ErrMaxTryReached] the sentinel
    compared with [errors.Is]; [ErrPanic] a Go run-time panic (division by
    zero, index out of range); [ErrFuel] marks a loop whose fuel ran out, and
    is never a result of the Go code. *)
Inductive error :=
  | ErrRevert (msg : string)
  | ErrInternal (msg : string)
  | ErrMaxTryReached
  | ErrPanic (msg : string)
  | ErrFuel.

Inductive result (A : Type) :=
  | Ok (a : A)
  | Err (e : error).
Arguments Ok {A} a.
Arguments Err {A} e.

#[export] Instance result_ret : MRet result := @Ok.
#[export] Instance result_bind : MBind result := λ A B f r,
  match r with Ok a => f a | Err e => Err e end.

(** ** The state-and-error monad

    Stateful code threads its state; a failed call keeps no state, because the
    callers drop the partial writes of a failed call (the EVM snapshot of the
    calling transaction, or the block being processed). *)
Definition M (S A : Type) : Type := S → result (A * S).

#[export] Instance M_ret {S} : MRet (M S) := λ A a s, Ok (a, s).
#[export] Instance M_bind {S} : MBind (M S) := λ A B f m s,
  match m s with Ok (a, s') => f a s' | Err e => Err e end.

Definition fail {S A} (e : error) : M S A := λ _, Err e.
Definition gets {S A} (f : S → A) : M S A := λ s, Ok (f s, s).
Definition modify {S} (f : S → S) : M S unit := λ s, Ok (tt, f s).
Definition lift {S A} (r : result A) : M S A := λ s,
  match r with Ok a => Ok (a, s) | Err e => Err e end.

(** [if cond { return err }] *)
Definition reject {S} (b : bool) (e : error) : M S unit :=
  if b then fail e else mret tt.

(** [if p == nil { return err }], returning the pointed-to value otherwise. *)
Definition need {S A} (o : option A) (e : error) : M S A :=
  match o with Some a => mret a | None => fail e end.

(** [if cond { body }] *)
Definition when {S} (b : bool) (m : M S unit) : M S unit :=
  if b then m else mret tt.

(** [if err := m; errors.Is(err, e) ...]: map the error of [m]. *)
Definition map_err {S A} (f : error → error) (m : M S A) : M S A := λ s,
  match m s with Ok r => Ok r | Err e => Err (f e) end.

(** [for _, x := range l { body }] with an accumulator. *)
Fixpoint foldM {S A B} (f : B → A → M S B) (b : B) (l : list A) : M S B :=
  match l with
  | [] => mret b
  | a :: l' => b' ← f b a; foldM f b' l'
  end.

(** [for range n { body }] *)
Fixpoint repeatM {S} (n : nat) (m : M S unit) : M S unit :=
  match n with
  | O => mret tt
  | S n' => m ;; repeatM n' m
  end.

(** A computation that keeps its state when it fails, for code whose callers go
    on with what was done before the error. *)
Definition K (S A : Type) : Type := S → S * result A.
#[export] Instance K_ret {S} : MRet (K S) := λ A a s, (s, Ok a).
#[export] Instance K_bind {S} : MBind (K S) := λ A B f m s,
  match m s with (s', Ok a) => f a s' | (s', Err e) => (s', Err e) end.

(** A step that fails without effect. *)
Definition keep {S A} (m : M S A) : K S A := λ s,
  match m s with Ok (a, s') => (s', Ok a) | Err e => (s, Err e) end.
Definition kwhen {S} (b : bool) (m : K S unit) : K S unit := if b then m else mret tt.

(** ** Record update

    [x <| f := v |>] is [x] with field [f] set to [v], for any record with an
    [Eta] instance. *)
Class Eta (R : Type) := eta_rec : R → R.
Class Setter {R T : Type} (p : R → T) := set_field : (T → T) → R → R.

Ltac solve_setter :=
  lazymatch goal with
  | |- @Setter ?R ?T ?p =>
      let inst := constr:(_ : Eta R) in
      let e := eval hnf in inst in
      lazymatch (eval pattern p in e) with
      | ?F p =>
          let t := eval cbv beta in
            (fun (f : T → T) (r : R) => F (fun x => f (p x)) r) in
          exact t
      end
  end.
#[export] Hint Extern 1 (Setter _) => solve_setter : typeclass_instances.

Notation "x <| p := v |>" := (set_field (p := p) (λ _, v) x)
  (at level 1, left associativity, p at level 10, v at level 200) : thor_scope.

(** Run a computation on one field of a larger state. *)
Definition zoom {S T A} (p : S → T) `{!Setter p} (m : M T A) : M S A := λ s,
  match m (p s) with
  | Ok (a, t) => Ok (a, set_field (λ _, t) s)
  | Err e => Err e
  end.

(** ** Machine integers

    [uint8], [uint32] and [uint64] values are integers in range; the
    operations wrap around as Go's do. *)
Definition max64 : Z := 2 ^ 64.
Definition max32 : Z := 2 ^ 32.
Definition wrap64 (z : Z) : Z := z mod max64.
Definition wrap32 (z : Z) : Z := z mod max32.
Definition is64 (z : Z) : Prop := 0 ≤ z < max64.
Definition is32 (z : Z) : Prop := 0 ≤ z < max32.

Notation "x +u64 y" := (wrap64 (x + y)) (at level 50, left associativity) : thor_scope.
Notation "x -u64 y" := (wrap64 (x - y)) (at level 50, left associativity) : thor_scope.
Notation "x *u64 y" := (wrap64 (x * y)) (at level 40, left associativity) : thor_scope.
Notation "x +u32 y" := (wrap32 (x + y)) (at level 50, left associativity) : thor_scope.
Notation "x -u32 y" := (wrap32 (x - y)) (at level 50, left associativity) : thor_scope.
Notation "x *u32 y" := (wrap32 (x * y)) (at level 40, left associativity) : thor_scope.

(** A [thor.Address] is its 160-bit big-endian number, zero the zero address. *)
Abbreviation Address := Z (only parsing).
Definition IsZero (a : Address) : bool := a =? 0.

(** Mappings whose value type is not a pointer: a missing slot reads as the
    zero value, and writing the zero value clears the slot. *)
Definition vget (m : gmap Z Z) (k : Z) : Z := default 0 (m !! k).
Definition vset (k v : Z) (m : gmap Z Z) : gmap Z Z :=
  if v =? 0 then delete k m else <[k := v]> m.

(** Package [github.com/ethereum/go-ethereum/common/math] is not part of the
    repository; its checked additions are parameters, with their documented
    behaviour as laws. *)
Class SafeMath := {
  SafeAdd : Z → Z → Z * bool;
  SafeSub : Z → Z → Z * bool;
}.
Class SafeMathSpec `{SM : SafeMath} : Prop := {
  SafeAdd_spec : ∀ x y, is64 x → is64 y →
    SafeAdd x y = (x +u64 y, bool_decide (max64 ≤ x + y));
  SafeSub_spec : ∀ x y, is64 x → is64 y →
    SafeSub x y = (x -u64 y, bool_decide (x < y));
}.

(** ** Sums over finite maps *)
Definition msum {K V} `{Countable K} (f : K → V → Z) (m : gmap K V) : Z :=
  map_fold (λ k v acc, f k v + acc) 0 m.

(** ** Weakest preconditions

    [wp m Q R s]: run from [s], [m] either returns with [Q] or fails with an
    error satisfying [R]. *)
Definition wp {S A} (m : M S A) (Q : A → S → Prop) (R : error → Prop) (s : S) : Prop :=
  match m s with Ok (a, s') => Q a s' | Err e => R e end.

(** [kp m Q s]: run from [s], [m] ends with a result and a state satisfying [Q]. *)
Definition kp {S A} (m : K S A) (Q : result A → S → Prop) (s : S) : Prop :=
  let '(s', r) := m s in Q r s'.

(** The user-visible failures: a native call panics on any other error. *)
Definition reverts (e : error) : Prop := ∃ msg, e = ErrRevert msg.
Definition never (e : error) : Prop := False.

(** The error of a refused request: a revert, because [G] does not hold. *)
Definition refuses (G : Prop) (e : error) : Prop := reverts e ∧ ¬ G.

Create HintDb thor.

Section wp_rules.
Context {S : Type}.
Implicit Types (s : S) (R : error → Prop).

Lemma wp_bind {A B} (m : M S A) (f : A → M S B) Q R s :
  wp m (λ a, wp (f a) Q R) R s → wp (m ≫= f) Q R s.
Proof. unfold wp, mbind, M_bind. by destruct (m s) as [[a s']|e]. Qed.

Lemma bind_Ok {A B} (m : M S A) (f : A → M S B) s r : (x ← m; f x) s = Ok r →
  ∃ a s', m s = Ok (a, s') ∧ f a s' = Ok r.
Proof. unfold mbind, M_bind. destruct (m s) as [[a s']|]; [|done]. by exists a, s'. Qed.

Lemma wp_bind_inv {A B} (m : M S A) (f : A → M S B) Q R s :
  wp (m ≫= f) Q R s → wp m (λ a, wp (f a) Q R) R s.
Proof. unfold wp, mbind, M_bind. by destruct (m s) as [[a s']|e]. Qed.

Lemma wp_bind_assoc {A B C} (m : M S A) (f : A → M S B) (k : M S C) Q R s :
  wp (m ≫= f) (λ _, wp k Q R) R s → wp (m ≫= λ a, f a ≫= λ _, k) Q R s.
Proof.
  unfold wp, mbind, M_bind. destruct (m s) as [[a s']|e]; [|done].
  by destruct (f a s') as [[b s'']|e].
Qed.

Lemma wp_ret {A} (a : A) Q R s : Q a s → wp (mret a) Q R s.
Proof. done. Qed.

Lemma wp_fail {A} e (Q : A → S → Prop) R s : R e → wp (fail e) Q R s.
Proof. done. Qed.

Lemma wp_gets {A} (f : S → A) Q R s : Q (f s) s → wp (gets f) Q R s.
Proof. done. Qed.

Lemma wp_modify (f : S → S) Q R s : Q tt (f s) → wp (modify f) Q R s.
Proof. done. Qed.

Lemma wp_lift {A} (r : result A) Q R s :
  match r with Ok a => Q a s | Err e => R e end → wp (lift r) Q R s.
Proof. unfold wp, lift. by destruct r. Qed.

Lemma wp_reject b e Q R s :
  (b = true → R e) → (b = false → Q tt s) → wp (reject b e) Q R s.
Proof. destruct b; simpl; unfold wp; simpl; auto. Qed.

Lemma wp_need {A} (o : option A) e Q R s :
  (o = None → R e) → (∀ a, o = Some a → Q a s) → wp (need o e) Q R s.
Proof. destruct o; unfold wp; simpl; auto. Qed.

Lemma wp_when b (m : M S unit) Q R s :
  (b = true → wp m Q R s) → (b = false → Q tt s) → wp (when b m) Q R s.
Proof. destruct b; simpl; intros; [|apply wp_ret]; auto. Qed.

Lemma wp_map_err {A} f (m : M S A) Q R s :
  wp m Q (λ e, R (f e)) s → wp (map_err f m) Q R s.
Proof. unfold wp, map_err. by destruct (m s) as [[a s']|e]. Qed.

Lemma wp_zoom {T A} (p : S → T) `{!Setter p} (m : M T A) Q R s :
  wp m (λ a t, Q a (set_field (p := p) (λ _, t) s)) R (p s) → wp (zoom p m) Q R s.
Proof. unfold wp, zoom. by destruct (m (p s)) as [[a s']|e]. Qed.

Lemma wp_mono {A} (m : M S A) (Q Q' : A → S → Prop) (R R' : error → Prop) s :
  wp m Q R s → (∀ a s', Q a s' → Q' a s') → (∀ e, R e → R' e) → wp m Q' R' s.
Proof. unfold wp. destruct (m s) as [[a s']|e]; auto. Qed.

Lemma wp_and {A} (m : M S A) (Q Q' : A → S → Prop) R R' s :
  wp m Q R s → wp m Q' R' s → wp m (λ a s', Q a s' ∧ Q' a s') R s.
Proof. unfold wp. by destruct (m s) as [[a s']|e]. Qed.

Lemma wp_Ok {A} (m : M S A) Q R s a s' : wp m Q R s → m s = Ok (a, s') → Q a s'.
Proof. unfold wp. intros H E. by rewrite E in H. Qed.

Lemma wp_never {A} (m : M S A) Q s :
  wp m Q never s → ∃ a s', m s = Ok (a, s') ∧ Q a s'.
Proof. unfold wp, never. destruct (m s) as [[a s']|e]; naive_solver. Qed.

Lemma wp_sure {A} (m : M S A) Q R s : wp m Q never s → wp m Q R s.
Proof. unfold wp, never. by destruct (m s) as [[a s']|e]. Qed.

Lemma wp_foldM {A B} (I : B → list A → S → Prop) (f : B → A → M S B) R l b s :
  I b l s →
  (∀ b a l' s', I b (a :: l') s' → wp (f b a) (λ b' s'', I b' l' s'') R s') →
  wp (foldM f b l) (λ b' s', I b' [] s') R s.
Proof.
  intros HI Hstep. revert b s HI.
  induction l as [|a l IH]; intros b s HI; simpl; [by apply wp_ret|].
  apply wp_bind. eapply wp_mono; [by apply Hstep| |done].
  intros b' s' HI'. by apply IH.
Qed.

Lemma wp_repeatM (I : nat → S → Prop) (m : M S unit) R n s :
  I n s →
  (∀ k s', I (Datatypes.S k) s' → wp m (λ _ s'', I k s'') R s') →
  wp (repeatM n m) (λ _ s', I O s') R s.
Proof.
  intros HI Hstep. revert s HI.
  induction n as [|n IH]; intros s HI; simpl; [by apply wp_ret|].
  apply wp_bind. eapply wp_mono; [by apply Hstep| |done].
  intros [] s' HI'. by apply IH.
Qed.
End wp_rules.

Section kp_rules.
Context {S : Type}.
Implicit Types (s : S).

Lemma kp_bind {A B} (m : K S A) (k : A → K S B) (Q : result B → S → Prop) s :
  kp m (λ r s', match r with Ok a => kp (k a) Q s' | Err e => Q (Err e) s' end) s →
  kp (m ≫= k) Q s.
Proof. unfold kp, mbind, K_bind. by destruct (m s) as [s' [a|e]]. Qed.

Lemma kp_ret {A} (a : A) (Q : result A → S → Prop) s : Q (Ok a) s → kp (mret a) Q s.
Proof. done. Qed.

Lemma kp_keep {A} (m : M S A) (Q : result A → S → Prop) s :
  wp m (λ a s', Q (Ok a) s') (λ e, Q (Err e) s) s → kp (keep m) Q s.
Proof. unfold kp, keep, wp. by destruct (m s) as [[a s']|e]. Qed.

Lemma kp_when b (m : K S unit) (Q : result unit → S → Prop) s :
  (b = true → kp m Q s) → (b = false → Q (Ok tt) s) → kp (kwhen b m) Q s.
Proof. intros Ht Hf. destruct b; [by apply Ht|by apply Hf]. Qed.

Lemma kp_mono {A} (m : K S A) (Q Q' : result A → S → Prop) s :
  kp m Q s → (∀ r s', Q r s' → Q' r s') → kp m Q' s.
Proof. unfold kp. destruct (m s) as [s' r]. auto. Qed.
End kp_rules.

(** One step of a [wp] goal along the structure of the program. *)
Ltac wp_step :=
  lazymatch goal with
  | |- wp (mbind _ _) _ _ _ => apply wp_bind
  | |- wp (mret _) _ _ _ => apply wp_ret
  | |- wp (fail _) _ _ _ => apply wp_fail
  | |- wp (gets _) _ _ _ => apply wp_gets
  | |- wp (modify _) _ _ _ => apply wp_modify
  | |- wp (lift _) _ _ _ => apply wp_lift
  | |- wp (reject _ _) _ _ _ => apply wp_reject; [intros ?|intros ?]
  | |- wp (need _ _) _ _ _ => apply wp_need; [intros ?|intros ? ?]
  | |- wp (map_err _ _) _ _ _ => apply wp_map_err
  | |- wp (zoom _ _) _ _ _ => apply wp_zoom
  end.

Section msum_lemmas.
Context {K V : Type} `{Countable K}.
Implicit Types (f g : K → V → Z) (m : gmap K V).

Lemma msum_empty f : msum f ∅ = 0.
Proof. apply map_fold_empty. Qed.

Lemma msum_insert_None f m k v :
  m !! k = None → msum f (<[k := v]> m) = f k v + msum f m.
Proof.
  intros Hk. unfold msum. rewrite map_fold_insert_L; [done| |done].
  intros; lia.
Qed.

Lemma msum_lookup f m k v :
  m !! k = Some v → msum f m = f k v + msum f (delete k m).
Proof.
  intros Hk. rewrite <- (insert_delete_id m k v Hk) at 1.
  by rewrite msum_insert_None by apply lookup_delete_eq.
Qed.

Lemma msum_insert_Some f m k v w :
  m !! k = Some v → msum f (<[k := w]> m) = msum f m - f k v + f k w.
Proof.
  intros Hk. rewrite (msum_lookup f m k v Hk).
  rewrite <- insert_delete_eq, msum_insert_None by apply lookup_delete_eq. lia.
Qed.

Lemma msum_ext f g m :
  (∀ k v, m !! k = Some v → f k v = g k v) → msum f m = msum g m.
Proof.
  induction m as [|k v m Hk IH] using map_ind; intros Hfg; [by rewrite !msum_empty|].
  rewrite !msum_insert_None by done. rewrite (Hfg k v) by apply lookup_insert_eq.
  f_equal. apply IH. intros k' v' Hk'. apply Hfg.
  rewrite lookup_insert_ne; [done|]. by intros ->; rewrite Hk in Hk'.
Qed.

Lemma msum_le f g m :
  (∀ k v, m !! k = Some v → f k v ≤ g k v) → msum f m ≤ msum g m.
Proof.
  induction m as [|k v m Hk IH] using map_ind; intros Hfg; [by rewrite !msum_empty|].
  rewrite !msum_insert_None by done.
  assert (f k v ≤ g k v) by (apply Hfg, lookup_insert_eq).
  assert (msum f m ≤ msum g m); [|lia].
  apply IH. intros k' v' Hk'. apply Hfg.
  rewrite lookup_insert_ne; [done|]. by intros ->; rewrite Hk in Hk'.
Qed.

Lemma msum_add f g m : msum (λ k v, f k v + g k v) m = msum f m + msum g m.
Proof.
  induction m as [|k v m Hk IH] using map_ind; [by rewrite !msum_empty|].
  rewrite !msum_insert_None by done. lia.
Qed.

Lemma msum_sub f g m : msum (λ k v, f k v - g k v) m = msum f m - msum g m.
Proof.
  induction m as [|k v m Hk IH] using map_ind; [by rewrite !msum_empty|].
  rewrite !msum_insert_None by done. lia.
Qed.

Lemma msum_zero m : msum (λ _ _, 0) m = 0.
Proof.
  induction m as [|k v m Hk IH] using map_ind; [by rewrite msum_empty|].
  rewrite msum_insert_None by done. lia.
Qed.

Lemma msum_nonneg f m : (∀ k v, m !! k = Some v → 0 ≤ f k v) → 0 ≤ msum f m.
Proof. intros Hf. rewrite <- (msum_zero m). by apply msum_le. Qed.

Lemma msum_ge f m k v :
  (∀ k v, m !! k = Some v → 0 ≤ f k v) → m !! k = Some v → f k v ≤ msum f m.
Proof.
  intros Hf Hk. rewrite (msum_lookup f m k v Hk).
  assert (0 ≤ msum f (delete k m)); [|lia].
  apply msum_nonneg. intros k' v' [? ?]%lookup_delete_Some. by apply Hf.
Qed.

(** A sum dominates any selection of distinct keys. *)
Lemma msum_ge_list f m (l : list K) c :
  (∀ k v, m !! k = Some v → 0 ≤ f k v) → NoDup l →
  (∀ k, k ∈ l → ∃ v, m !! k = Some v ∧ c ≤ f k v) →
  c * Z.of_nat (length l) ≤ msum f m.
Proof.
  revert m. induction l as [|k l IH]; intros m Hf Hnd Hl; simpl.
  { rewrite Z.mul_0_r. by apply msum_nonneg. }
  apply NoDup_cons in Hnd as [Hk Hnd]. destruct (Hl k) as (v & Hv & Hc); [set_solver|].
  rewrite (msum_lookup _ _ _ _ Hv).
  assert (c * Z.of_nat (length l) ≤ msum f (delete k m)); [|lia].
  apply IH; [intros k' v' [? ?]%lookup_delete_Some; eauto|done|].
  intros k' Hk'. destruct (Hl k') as (v' & Hv' & ?); [set_solver|].
  exists v'. rewrite lookup_delete_ne; [done|]. by intros ->.
Qed.

Lemma msum_indicator f m k :
  msum (λ k' v, if decide (k' = k) then f k' v else 0) m = from_option (f k) 0 (m !! k).
Proof.
  destruct (m !! k) as [v|] eqn:Hk; simpl.
  - rewrite (msum_lookup _ _ _ _ Hk), decide_True by done.
    erewrite msum_ext, msum_zero; [lia|]. intros k' v' [? ?]%lookup_delete_Some.
    simpl. by rewrite decide_False by congruence.
  - erewrite msum_ext, msum_zero; [done|]. intros k' v' Hk'. simpl.
    rewrite decide_False; [done|congruence].
Qed.

(** A sum of which only the keys of [l] contribute. *)
Lemma msum_list f m (l : list K) :
  NoDup l → (∀ k v, m !! k = Some v → k ∉ l → f k v = 0) →
  msum f m = foldr (λ k acc, from_option (f k) 0 (m !! k) + acc) 0 l.
Proof.
  revert m. induction l as [|k l IH]; intros m Hnd Hz; simpl.
  - rewrite <- (msum_zero m). apply msum_ext. intros k v Hk. apply (Hz k v Hk). set_solver.
  - apply NoDup_cons in Hnd as [Hkl Hnd].
    assert (msum f (delete k m) =
      foldr (λ k acc, from_option (f k) 0 (m !! k) + acc) 0 l) as E.
    { rewrite IH; [|done|].
      - clear -Hkl. induction l as [|j l IH]; [done|]. simpl.
        rewrite IH by set_solver. rewrite lookup_delete_ne by set_solver. done.
      - intros j v [Hne Hj]%lookup_delete_Some Hjl. apply (Hz j v Hj). set_solver. }
    destruct (m !! k) as [v|] eqn:Hk; simpl.
    + by rewrite (msum_lookup _ _ _ _ Hk), E.
    + by rewrite <- E, delete_id.
Qed.
End msum_lemmas.

Lemma msum_fmap {K V W} `{Countable K} (f : K → W → Z) (g : V → W) (m : gmap K V) :
  msum f (g <$> m) = msum (λ k v, f k (g v)) m.
Proof.
  induction m as [|k v m Hk IH] using map_ind; [by rewrite fmap_empty, !msum_empty|].
  rewrite fmap_insert, !msum_insert_None, IH; [done|done|]. by rewrite lookup_fmap, Hk.
Qed.

(** Summing a relation by its sources or by its targets: every [w] of [n] is
    attributed to the key [tgt w] of [m]. *)
Lemma msum_exchange {K V L W} `{Countable K, Countable L} (tgt : W → K)
    (h : K → V → W → Z) (m : gmap K V) (n : gmap L W) :
  msum (λ k v, msum (λ _ w, if decide (k = tgt w) then h k v w else 0) n) m =
  msum (λ _ w, from_option (λ v, h (tgt w) v w) 0 (m !! tgt w)) n.
Proof.
  induction n as [|l w n Hl IH] using map_ind.
  - rewrite msum_empty. erewrite msum_ext, msum_zero; [done|]. intros. apply msum_empty.
  - rewrite msum_insert_None, <- IH by done.
    rewrite <- (msum_indicator (λ k v, h k v w)), <- msum_add.
    apply msum_ext. intros k v _. by rewrite msum_insert_None.
Qed.

(** ** Machine arithmetic *)
Lemma wrap64_id z : is64 z → wrap64 z = z.
Proof. unfold is64, wrap64, max64. intros. by apply Z.mod_small. Qed.

Lemma wrap32_id z : is32 z → wrap32 z = z.
Proof. unfold is32, wrap32, max32. intros. by apply Z.mod_small. Qed.

Lemma wrap64_range z : is64 (wrap64 z).
Proof. unfold is64, wrap64, max64. apply Z.mod_pos_bound. lia. Qed.

Lemma wrap32_range z : is32 (wrap32 z).
Proof. unfold is32, wrap32, max32. apply Z.mod_pos_bound. lia. Qed.

#[export] Hint Resolve wrap64_range wrap32_range : thor.

Ltac unfold_int := unfold is64, is32, max64, max32 in *.
(** Arithmetic goals on machine integers. *)
Ltac ulia := unfold_int; lia.

(** Remove wrap-arounds that do not happen. *)
Ltac unwrap :=
  repeat match goal with
  | |- context [wrap64 ?z] => rewrite (wrap64_id z) by ulia
  | |- context [wrap32 ?z] => rewrite (wrap32_id z) by ulia
  end.

(** Split on the first integer comparison of the goal. *)
Ltac zcase :=
  match goal with
  | |- context [?a <? ?b] => destruct (Z.ltb_spec a b)
  | |- context [?a <=? ?b] => destruct (Z.leb_spec a b)
  | |- context [?a =? ?b] => destruct (Z.eqb_spec a b)
  end.

Section safe_math.
Context `{SMS : SafeMathSpec}.

(** The two outcomes of a checked addition. *)
Lemma SafeAdd_cases x y : is64 x → is64 y →
  (x + y < max64 ∧ SafeAdd x y = (x + y, false)) ∨
  (max64 ≤ x + y ∧ ∃ z, SafeAdd x y = (z, true)).
Proof.
  intros Hx Hy. rewrite SafeAdd_spec by done. case_bool_decide.
  - right. eauto.
  - left. split; [lia|]. by rewrite wrap64_id by ulia.
Qed.

Lemma SafeSub_cases x y : is64 x → is64 y →
  (y ≤ x ∧ SafeSub x y = (x - y, false)) ∨
  (x < y ∧ ∃ z, SafeSub x y = (z, true)).
Proof.
  intros Hx Hy. rewrite SafeSub_spec by done. case_bool_decide.
  - right. eauto.
  - left. split; [lia|]. by rewrite wrap64_id by ulia.
Qed.
End safe_math.

(** ** Value mappings *)
Lemma vget_vset k v m k' : vget (vset k v m) k' = if decide (k = k') then v else vget m k'.
Proof.
  unfold vget, vset. destruct (Z.eqb_spec v 0) as [->|Hv].
  - rewrite lookup_delete. by case_decide.
  - rewrite lookup_insert. by case_decide.
Qed.

(** ** Removing an element from a list *)
Lemma filter_ne_id (l : list Address) a : a ∉ l → filter (.≠ a) l = l.
Proof.
  induction l as [|x l IH]; [done|]. intros [? ?]%not_elem_of_cons.
  rewrite filter_cons_True by congruence. f_equal. auto.
Qed.

Lemma filter_ne_split (l1 l2 : list Address) a :
  a ∉ l1 → a ∉ l2 → filter (.≠ a) (l1 ++ a :: l2) = l1 ++ l2.
Proof.
  intros H1 H2. rewrite filter_app, filter_cons_False by auto. by rewrite !filter_ne_id.
Qed.

Lemma filter_ne_mid (l1 l2 : list Address) a :
  NoDup (l1 ++ a :: l2) → filter (.≠ a) (l1 ++ a :: l2) = l1 ++ l2.
Proof.
  intros (H1 & Hd & [H2 _]%NoDup_cons)%NoDup_app. apply filter_ne_split; [|done].
  intros H. apply (Hd a H). set_solver.
Qed.

Lemma filter_none {A} (P : A → Prop) `{∀ x, Decision (P x)} (l : list A) :
  (∀ x, x ∈ l → ¬ P x) → filter P l = [].
Proof.
  induction l as [|x l IH]; intros HP; [done|].
  rewrite filter_cons_False by (apply HP; left). apply IH. intros y Hy. apply HP. by right.
Qed.

(** ** Sums over lists *)
Definition lsum {A} (f : A → Z) (l : list A) : Z := foldr (λ x acc, f x + acc) 0 l.

Section lsum_lemmas.
Context {A : Type}.
Implicit Types (f : A → Z) (l : list A).

Lemma lsum_perm f l l' : l ≡ₚ l' → lsum f l = lsum f l'.
Proof. induction 1; simpl; lia. Qed.

Lemma lsum_nonneg f l : (∀ x, x ∈ l → 0 ≤ f x) → 0 ≤ lsum f l.
Proof.
  induction l as [|x l IH]; intros H; simpl; [lia|].
  pose proof (H x ltac:(by left)). assert (0 ≤ lsum f l) by (apply IH; intros; apply H; by right). lia.
Qed.

Lemma lsum_elem f l x : (∀ y, y ∈ l → 0 ≤ f y) → x ∈ l → f x ≤ lsum f l.
Proof.
  induction l as [|y l IH]; intros H Hx; [by apply not_elem_of_nil in Hx|]. simpl.
  assert (0 ≤ lsum f l) by (apply lsum_nonneg; intros; apply H; by right).
  pose proof (H y ltac:(by left)). apply elem_of_cons in Hx as [->|Hx]; [lia|].
  assert (f x ≤ lsum f l) by (apply IH; [intros; apply H; by right|done]). lia.
Qed.

Lemma lsum_filter f l (P : A → Prop) `{!∀ x, Decision (P x)} :
  lsum f l = lsum f (filter P l) + lsum f (filter (λ x, ¬ P x) l).
Proof.
  induction l as [|x l IH]; [done|]. rewrite !filter_cons.
  destruct (decide (P x)), (decide (¬ P x)); simpl; try tauto; lia.
Qed.

Lemma lsum_app f l l' : lsum f (l ++ l') = lsum f l + lsum f l'.
Proof. induction l; simpl; lia. Qed.
End lsum_lemmas.

Lemma lsum_fmap {A B} (f : B → Z) (g : A → B) l : lsum f (g <$> l) = lsum (λ x, f (g x)) l.
Proof. induction l as [|x l IH]; [done|]. cbn. f_equal. exact IH. Qed.
