(* ===== verification/Bytes.v ===== *)
(** * Bytes: fixed-width and variable-length integer encodings

    A byte string is a list of integers below 256.  [be n z] is the [n]-byte
    big-endian encoding that [binary.BigEndian.PutUint32], [PutUint64] and the
    byte form of [thor.Address] and [thor.Bytes32] use, [from_be] reads it back;
    [uvarint] is [binary.AppendUvarint] and [read_uvarint] is [binary.Uvarint].
    [search] is [sort.Search], the binary search the chain index and the
    finality engine use.  These are functions of Go's standard library. *)

From S2P Require Import Prelude.

Abbreviation bytes := (list Z) (only parsing).
Definition is_byte (b : Z) : Prop := 0 ≤ b < 256.

(** ** Big-endian integers *)
Fixpoint be (n : nat) (z : Z) : bytes :=
  match n with
  | O => []
  | S n' => (z / 256 ^ Z.of_nat n') mod 256 :: be n' z
  end.

Definition from_be (l : bytes) : Z := foldl (λ acc b, acc * 256 + b) 0 l.

(** ** Variable-length integers *)
Fixpoint uvarint_fuel (fuel : nat) (x : Z) : bytes :=
  match fuel with
  | O => []
  | S fuel => if x <? 128 then [x] else (x mod 128 + 128) :: uvarint_fuel fuel (x / 128)
  end.

(** Ten groups of seven bits hold 64 bits. *)
Definition uvarint (x : Z) : bytes := uvarint_fuel 10 x.

(** The value and what follows it; [None] when the buffer ends early. *)
Fixpoint read_uvarint (l : bytes) : option (Z * bytes) :=
  match l with
  | [] => None
  | b :: l' =>
      if b <? 128 then Some (b, l') else
      '(v, rest) ← read_uvarint l'; Some (b - 128 + 128 * v, rest)
  end.

(** ** [sort.Search]

    The smallest index of [[0, n)] at which a monotone predicate holds, or [n].
    The loop halves the interval, so [n] iterations are more than enough. *)
Fixpoint search_loop (fuel : nat) (f : Z → result bool) (i j : Z) : result Z :=
  if i <? j then
    match fuel with
    | O => Err ErrFuel
    | S fuel =>
        let h := (i + j) / 2 in
        b ← f h;
        if b : bool then search_loop fuel f i h else search_loop fuel f (h + 1) j
    end
  else Ok i.

Definition search (n : Z) (f : Z → result bool) : result Z :=
  search_loop (Z.to_nat n) f 0 n.

(** ** Lemmas *)
Lemma be_length n z : length (be n z) = n.
Proof. induction n as [|n IH]; simpl; auto. Qed.

Lemma be_bytes n z : Forall is_byte (be n z).
Proof.
  induction n as [|n IH]; simpl; constructor; [|done].
  unfold is_byte. apply Z.mod_pos_bound. lia.
Qed.

Lemma from_be_snoc l b : from_be (l ++ [b]) = from_be l * 256 + b.
Proof. unfold from_be. by rewrite foldl_app. Qed.

Lemma from_be_cons b l : from_be (b :: l) = b * 256 ^ Z.of_nat (length l) + from_be l.
Proof.
  induction l as [|c l IH] using rev_ind; [unfold from_be; simpl; lia|].
  rewrite app_comm_cons, !from_be_snoc, IH, length_app. simpl.
  replace (Z.of_nat (length l + 1)) with (Z.of_nat (length l) + 1) by lia.
  rewrite Z.pow_add_r by lia. ring.
Qed.

Lemma from_be_be n z : from_be (be n z) = z mod 256 ^ Z.of_nat n.
Proof.
  induction n as [|n IH]; [simpl; unfold from_be; simpl; by rewrite Z.mod_1_r|].
  simpl be. rewrite from_be_cons, be_length, IH.
  replace (Z.of_nat (S n)) with (Z.of_nat n + 1) by lia.
  rewrite Z.pow_add_r, Z.pow_1_r by lia.
  pose proof (Z.pow_pos_nonneg 256 (Z.of_nat n)).
  rewrite Z.rem_mul_r by lia. ring.
Qed.

Lemma from_be_range l :
  Forall is_byte l → 0 ≤ from_be l < 256 ^ Z.of_nat (length l).
Proof.
  induction 1 as [|b l Hb Hl IH]; [unfold from_be; simpl; lia|].
  rewrite from_be_cons. simpl length.
  replace (Z.of_nat (S (length l))) with (Z.of_nat (length l) + 1) by lia.
  rewrite Z.pow_add_r by lia. unfold is_byte in Hb. nia.
Qed.

Lemma be_mod n z : be n (z mod 256 ^ Z.of_nat n) = be n z.
Proof.
  assert (∀ m k, (m ≤ k)%nat → be m (z mod 256 ^ Z.of_nat k) = be m z) as H; [|by apply H].
  intros m. induction m as [|m IH]; intros k Hk; [done|]. simpl. f_equal; [|apply IH; lia].
  pose proof (Z.pow_pos_nonneg 256 (Z.of_nat m)).
  replace (Z.of_nat k) with (Z.of_nat m + (1 + Z.of_nat (k - m - 1))) by lia.
  rewrite Z.pow_add_r by lia. pose proof (Z.pow_pos_nonneg 256 (1 + Z.of_nat (k - m - 1))).
  rewrite Z.rem_mul_r by lia.
  rewrite (Z.add_comm (z mod _)), Z.mul_comm, Z.div_add_l by lia.
  rewrite (Z.div_small (z mod _)) by (apply Z.mod_pos_bound; lia). rewrite Z.add_0_r.
  rewrite Z.pow_add_r by lia. rewrite Z.rem_mul_r by lia.
  rewrite Z.mul_comm, Z.mod_add by lia. by rewrite Z.mod_mod by lia.
Qed.

Lemma be_from_be l : Forall is_byte l → be (length l) (from_be l) = l.
Proof.
  induction 1 as [|b l Hb Hl IH]; [done|].
  simpl. pose proof (from_be_range l Hl). rewrite from_be_cons.
  pose proof (Z.pow_pos_nonneg 256 (Z.of_nat (length l))).
  f_equal.
  - rewrite Z.div_add_l, Z.div_small, Z.add_0_r by lia. apply Z.mod_small. apply Hb.
  - rewrite <- be_mod, Z.add_comm, Z.mod_add, be_mod by lia. exact IH.
Qed.

Lemma be_inj n x y :
  0 ≤ x < 256 ^ Z.of_nat n → 0 ≤ y < 256 ^ Z.of_nat n → be n x = be n y → x = y.
Proof.
  intros Hx Hy E. apply (f_equal from_be) in E. rewrite !from_be_be in E.
  by rewrite !Z.mod_small in E.
Qed.

(** Reading a number back gives it, whatever follows it in the buffer. *)
Lemma read_uvarint_fuel fuel x rest :
  (0 < fuel)%nat → 0 ≤ x < 128 ^ Z.of_nat fuel →
  read_uvarint (uvarint_fuel fuel x ++ rest) = Some (x, rest).
Proof.
  intros Hf. revert x. induction fuel as [|fuel IH]; intros x Hx; [lia|].
  simpl. destruct (Z.ltb_spec x 128) as [Hlt|Hge]; simpl.
  - by destruct (Z.ltb_spec x 128); [|lia].
  - pose proof (Z.mod_pos_bound x 128).
    destruct (Z.ltb_spec (x mod 128 + 128) 128); [lia|].
    destruct (decide (fuel = 0%nat)) as [->|Hf']; [simpl in Hx; lia|].
    rewrite IH; simpl; [|lia|].
    + do 2 f_equal. pose proof (Z.div_mod x 128). lia.
    + replace (Z.of_nat (S fuel)) with (1 + Z.of_nat fuel) in Hx by lia.
      rewrite Z.pow_add_r in Hx by lia. split; [apply Z.div_pos; lia|].
      apply Z.div_lt_upper_bound; lia.
Qed.

Lemma read_uvarint_uvarint x rest :
  is64 x → read_uvarint (uvarint x ++ rest) = Some (x, rest).
Proof. intros Hx. apply read_uvarint_fuel; [lia|]. simpl. ulia. Qed.

Lemma uvarint_app_inj x y r1 r2 :
  is64 x → is64 y → uvarint x ++ r1 = uvarint y ++ r2 → x = y ∧ r1 = r2.
Proof.
  intros Hx Hy E. apply (f_equal read_uvarint) in E.
  rewrite !read_uvarint_uvarint in E by done. by simplify_eq.
Qed.

(** Binary search finds the boundary of a monotone predicate. *)
Lemma search_loop_spec fuel f (P : Z → Prop) i j :
  (∀ k, i ≤ k < j → ∃ b, f k = Ok b ∧ (b = true ↔ P k)) →
  (∀ k k', i ≤ k ≤ k' → k' < j → P k → P k') →
  0 ≤ i ≤ j → j - i ≤ Z.of_nat fuel →
  ∃ r, search_loop fuel f i j = Ok r ∧ i ≤ r ≤ j ∧
    (∀ k, i ≤ k < r → ¬ P k) ∧ (∀ k, r ≤ k < j → P k).
Proof.
  revert i j. induction fuel as [|fuel IH]; intros i j Hf Hmono Hij Hfuel.
  - simpl. destruct (Z.ltb_spec i j); [lia|]. exists i. split_and!; try done; lia.
  - simpl. destruct (Z.ltb_spec i j) as [Hlt|Hge];
      [|exists i; split_and!; try done; lia].
    set (h := (i + j) / 2).
    assert (i ≤ h < j) as Hh.
    { unfold h. split; [apply Z.div_le_lower_bound; lia|apply Z.div_lt_upper_bound; lia]. }
    destruct (Hf h) as (b & -> & Hb); [lia|]. simpl. destruct b.
    + destruct (IH i h) as (r & Hr & ? & Hlo & Hhi); [intros; apply Hf; lia| |lia|lia|].
      { intros k k' ? ?. apply Hmono; lia. }
      exists r. split_and!; [done|lia|lia|done|]. intros k Hk.
      destruct (decide (k < h)); [apply Hhi; lia|]. apply (Hmono h k); [lia|lia|by apply Hb].
    + destruct (IH (h + 1) j) as (r & Hr & ? & Hlo & Hhi);
        [intros; apply Hf; lia| |lia|lia|].
      { intros k k' ? ?. apply Hmono; lia. }
      exists r. split_and!; [done|lia|lia| |done]. intros k Hk.
      destruct (decide (h < k)); [apply Hlo; lia|]. intros HP.
      assert (false = true) as [=]. apply Hb. apply (Hmono k h); [lia|lia|done].
Qed.

Lemma search_spec n f (P : Z → Prop) :
  0 ≤ n →
  (∀ k, 0 ≤ k < n → ∃ b, f k = Ok b ∧ (b = true ↔ P k)) →
  (∀ k k', 0 ≤ k ≤ k' → k' < n → P k → P k') →
  ∃ r, search n f = Ok r ∧ 0 ≤ r ≤ n ∧
    (∀ k, 0 ≤ k < r → ¬ P k) ∧ (∀ k, r ≤ k < n → P k).
Proof. intros. apply search_loop_spec; auto; lia. Qed.

(** On any predicate, the result is an edge: true there, false just before. *)
Lemma search_loop_edge fuel (p : Z → bool) i j : i ≤ j → j - i ≤ Z.of_nat fuel →
  ∃ k, search_loop fuel (λ i, Ok (p i)) i j = Ok k ∧ i ≤ k ≤ j ∧
    (k < j → p k = true) ∧ (i < k → p (k - 1) = false).
Proof.
  revert i j. induction fuel as [|fuel IH]; intros i j Hij Hf; cbn [search_loop].
  { destruct (Z.ltb_spec i j); [lia|]. exists i. split_and!; try done; lia. }
  destruct (Z.ltb_spec i j); [|exists i; split_and!; try done; lia].
  assert (i ≤ (i + j) / 2 < j).
  { split; [apply Z.div_le_lower_bound; lia|apply Z.div_lt_upper_bound; lia]. }
  cbn [mbind result_bind]. destruct (p ((i + j) / 2)) eqn:Ep.
  - destruct (IH i ((i + j) / 2)) as (k & E & Hk & H1 & H2); [lia|lia|]. exists k.
    split_and!; try done; try lia. intros _. destruct (decide (k = (i + j) / 2)) as [->|]; [done|apply H1; lia].
  - destruct (IH ((i + j) / 2 + 1) j) as (k & E & Hk & H1 & H2); [lia|lia|]. exists k.
    split_and!; try done; try lia. intros _. destruct (decide (k = (i + j) / 2 + 1)) as [->|]; [|apply H2; lia].
    by replace ((i + j) / 2 + 1 - 1) with ((i + j) / 2) by lia.
Qed.

#[global] Arguments be _ _ : simpl never.
