(* ===== verification/External.v ===== *)
(** * External: the third-party code the node calls

    Hash functions, signatures, the VRF and the RLP codec come from packages
    outside the repository.  They are parameters, one class each, with the
    documented behaviour the code relies on as the laws of a second class.
    [demo_*] are concrete instances, which show that the laws can hold. *)

From S2P Require Import Prelude Bytes.

Abbreviation Bytes32 := Z (only parsing).
Definition is256 (z : Z) : Prop := 0 ≤ z < 2 ^ 256.

(** ** RLP (github.com/ethereum/go-ethereum/rlp)

    An [item] is one raw RLP value, a string or a list of values.  Integers are
    strings of big-endian bytes without leading zeros, so zero is the empty
    string; booleans are the integers 0 and 1. *)
Class Rlp := {
  item : Type;
  item_eq_dec :: EqDecision item;
  rlp_str : bytes → item;
  rlp_list : list item → item;
  rlp_num : Z → item;
  str_of : item → option bytes;
  list_of : item → option (list item);
  num_of : item → option Z;
  (** encoding to bytes, and decoding of a whole buffer *)
  rlp_bytes : item → bytes;
  rlp_parse : bytes → option item;
}.

Class RlpSpec `{Rlp} : Prop := {
  str_of_str : ∀ b, str_of (rlp_str b) = Some b;
  str_of_inv : ∀ i b, str_of i = Some b → i = rlp_str b;
  list_of_list : ∀ l, list_of (rlp_list l) = Some l;
  list_of_inv : ∀ i l, list_of i = Some l → i = rlp_list l;
  num_of_num : ∀ z, 0 ≤ z → num_of (rlp_num z) = Some z;
  num_of_inv : ∀ i z, num_of i = Some z → 0 ≤ z ∧ i = rlp_num z;
  rlp_num_zero : rlp_num 0 = rlp_str [];
  rlp_num_str : ∀ z, ∃ b, rlp_num z = rlp_str b;
  rlp_list_str : ∀ l b, rlp_list l ≠ rlp_str b;
  rlp_parse_bytes : ∀ i, rlp_parse (rlp_bytes i) = Some i;
  (** the first byte of an encoded list is at least 0xc0 *)
  rlp_list_byte : ∀ l, ∃ b r, rlp_bytes (rlp_list l) = b :: r ∧ 192 ≤ b < 256;
}.

(** ** Hashing and signatures

    [sigToPub] is [crypto.SigToPub] of go-ethereum, a public key being a
    number; [sign] is [crypto.Sign]; [vrf_prove] and [vrf_verify] are package
    vrf over go-ecvrf. *)
Class Crypto := {
  blake2b : bytes → Bytes32;
  pubOf : Z → Z;
  pubkeyToAddress : Z → Address;
  sign : Z → Bytes32 → bytes;
  sigToPub : Bytes32 → bytes → option Z;
  vrf_prove : Z → bytes → bytes * bytes;
  vrf_verify : Z → bytes → bytes → option bytes;
}.

Class CryptoSpec `{Crypto} : Prop := {
  blake2b_range : ∀ b, is256 (blake2b b);
  sign_length : ∀ k h, length (sign k h) = 65%nat;
  sigToPub_sign : ∀ k h, sigToPub h (sign k h) = Some (pubOf k);
  vrf_proof_length : ∀ k a, length (vrf_prove k a).2 = 81%nat;
  vrf_verify_prove : ∀ k a, vrf_verify (pubOf k) a (vrf_prove k a).2 = Some (vrf_prove k a).1;
}.

(** ** Checked multiplication (go-ethereum common/math) *)
Class SafeMulOp := { SafeMul : Z → Z → Z * bool }.
Class SafeMulSpec `{SafeMulOp} : Prop := {
  SafeMul_spec : ∀ x y, is64 x → is64 y →
    SafeMul x y = (x *u64 y, bool_decide (max64 ≤ x * y));
}.

(** ** Instances of the parameters *)
(** The checked arithmetic of go-ethereum, as its documentation has it. *)
Definition go_SafeMath : SafeMath := {|
  SafeAdd := λ x y, (x +u64 y, max64 <=? x + y);
  SafeSub := λ x y, (x -u64 y, x <? y);
|}.

Lemma go_SafeMathSpec : SafeMathSpec (SM := go_SafeMath).
Proof.
  split; intros x y _ _; simpl; f_equal; case_bool_decide; lia.
Qed.

Definition demo_SafeMul : SafeMulOp := {| SafeMul x y := (x *u64 y, max64 <=? x * y) |}.
Lemma demo_SafeMulSpec : @SafeMulSpec demo_SafeMul.
Proof. split. intros x y _ _. simpl. f_equal. case_bool_decide; lia. Qed.

(** Items as trees: strings are leaves, lists are nodes.  A tree is written as
    its post-order sequence of tokens. *)
Definition demo_tree : Type := gen_tree bytes.

Fixpoint put_tokens (l : list (nat * nat + bytes)) : bytes :=
  match l with
  | [] => []
  | inr b :: l => 0 :: Z.of_nat (length b) :: b ++ put_tokens l
  | inl (m, n) :: l => 1 :: Z.of_nat m :: Z.of_nat n :: put_tokens l
  end.

Fixpoint get_tokens (fuel : nat) (b : bytes) : option (list (nat * nat + bytes)) :=
  match fuel, b with
  | _, [] => Some []
  | S fuel, 0 :: n :: b =>
      cons (inr (take (Z.to_nat n) b)) <$> get_tokens fuel (drop (Z.to_nat n) b)
  | S fuel, _ :: m :: n :: b =>
      cons (inl (Z.to_nat m, Z.to_nat n)) <$> get_tokens fuel b
  | _, _ => None
  end.

Lemma get_put_tokens l fuel : (length (put_tokens l) ≤ fuel)%nat →
  get_tokens fuel (put_tokens l) = Some l.
Proof.
  revert fuel. induction l as [|[[m n]|b] l IH]; intros fuel Hf; [by destruct fuel|..].
  - destruct fuel; simpl in *; [lia|]. rewrite IH by lia. simpl. by rewrite !Nat2Z.id.
  - destruct fuel; simpl in *; [lia|]. rewrite length_app in Hf.
    rewrite Nat2Z.id, drop_app_length, take_app_length, IH by lia. done.
Qed.

Fixpoint pos_bits (p : positive) : bytes :=
  match p with
  | xH => []
  | xO p => 0 :: pos_bits p
  | xI p => 1 :: pos_bits p
  end.

Fixpoint bits_pos (l : bytes) : positive :=
  match l with
  | [] => xH
  | b :: l => if b =? 0 then xO (bits_pos l) else xI (bits_pos l)
  end.

Lemma bits_pos_bits p : bits_pos (pos_bits p) = p.
Proof. induction p as [p IH|p IH|]; simpl; by rewrite ?IH. Qed.

Definition demo_num (z : Z) : bytes :=
  match z with Z0 => [] | Zpos p => 1 :: pos_bits p | Zneg p => 2 :: pos_bits p end.

Definition demo_num_of (b : bytes) : option Z :=
  match b with
  | [] => Some 0
  | c :: l => if bool_decide (demo_num (Zpos (bits_pos l)) = c :: l)
              then Some (Zpos (bits_pos l)) else None
  end.

Definition demo_Rlp : Rlp := {|
  item := demo_tree;
  rlp_str := GenLeaf;
  rlp_list := GenNode 0;
  rlp_num z := GenLeaf (demo_num z);
  str_of i := match i with GenLeaf b => Some b | _ => None end;
  list_of i := match i with GenNode 0 l => Some l | _ => None end;
  num_of i := match i with GenLeaf b => demo_num_of b | _ => None end;
  rlp_bytes i := match i with GenLeaf _ => 128 | GenNode _ _ => 192 end ::
                 put_tokens (gen_tree_to_list i);
  rlp_parse b := match b with
                 | [] => None
                 | _ :: l => get_tokens (length l) l ≫= gen_tree_of_list []
                 end;
|}.

Lemma demo_RlpSpec : @RlpSpec demo_Rlp.
Proof.
  split; simpl.
  - done.
  - by intros [b'|[] l'] b; intros; simplify_eq.
  - done.
  - by intros [b'|[] l'] l; intros; simplify_eq.
  - intros [|p|p] Hz; [done| |lia]. simpl. by rewrite bits_pos_bits, bool_decide_eq_true_2.
  - intros [[|c b]|n l] z Hz; simpl in Hz; simplify_eq; [done|].
    case_bool_decide as E; [|done]. injection Hz as <-. split; [lia|]. by f_equal.
  - done.
  - eauto.
  - done.
  - intros i. rewrite get_put_tokens by done. simpl.
    by rewrite <- (app_nil_r (gen_tree_to_list i)), gen_tree_of_to_list.
  - intros l. eexists _, _. split; [done|lia].
Qed.

Definition demo_Crypto : Crypto := {|
  blake2b b := foldl (λ acc c, Z.land (acc * 257 + c + 1) (Z.ones 61)) 7 b;
  pubOf k := k;
  pubkeyToAddress p := p;
  sign k _ := k :: replicate 64 0;
  sigToPub _ s := list.head s;
  vrf_prove _ a := (a, replicate 81 0);
  vrf_verify _ a _ := Some a;
|}.

Lemma demo_CryptoSpec : @CryptoSpec demo_Crypto.
Proof.
  split; simpl; try done. intros b. unfold is256.
  assert (∀ l acc, 0 ≤ acc < 2 ^ 61 →
    0 ≤ foldl (λ acc c, Z.land (acc * 257 + c + 1) (Z.ones 61)) acc l < 2 ^ 61) as Hl.
  { induction l as [|c l IH]; intros acc Hacc; [done|]. simpl. apply IH.
    rewrite Z.land_ones by lia. apply Z.mod_pos_bound. lia. }
  specialize (Hl b 7). lia.
Qed.
