(* ===== verification/Thor.v ===== *)
(** * Package thor: protocol configuration and parameters

    [src/thor/config.go] keeps the tunable periods in package variables that
    are set once, before the node starts, and then locked; the model passes
    them as a type class, so the code reads [EpochLength] as the source reads
    [thor.EpochLength()].  [src/thor/params.go] holds the constants. *)

From S2P Require Import Prelude.

(** The package variables of config.go. *)
Class Config := MkConfig {
  BlockInterval : Z;
  EpochLength : Z;
  SeederInterval : Z;
  ValidatorEvictionThreshold : Z;
  EvictionCheckInterval : Z;
  LowStakingPeriod : Z;
  MediumStakingPeriod : Z;
  HighStakingPeriod : Z;
  CooldownPeriod : Z;
  HayabusaTP : Z;
}.

(** Their initial values. *)
Definition default_config : Config :=
  MkConfig 10 180 8640 (7 * 8640) (8640 * 3)
    (8640 * 7) (8640 * 15) (8640 * 30) 8640 (8640 * 7).

(** The argument of [SetConfig]: a zero field (a nil [HayabusaTP]) keeps the
    current value. *)
Record ConfigArg := MkConfigArg {
  arg_BlockInterval : Z;
  arg_EpochLength : Z;
  arg_SeederInterval : Z;
  arg_ValidatorEvictionThreshold : Z;
  arg_EvictionCheckInterval : Z;
  arg_LowStakingPeriod : Z;
  arg_MediumStakingPeriod : Z;
  arg_HighStakingPeriod : Z;
  arg_CooldownPeriod : Z;
  arg_HayabusaTP : option Z;
}.

Definition override (new cur : Z) : Z := if new =? 0 then cur else new.

Definition SetConfig (locked : bool) (cfg : ConfigArg) (cur : Config) : result Config :=
  if locked then Err (ErrPanic "config is locked, cannot be set") else
  Ok {|
    BlockInterval := override (arg_BlockInterval cfg) BlockInterval;
    EpochLength := override (arg_EpochLength cfg) EpochLength;
    SeederInterval := override (arg_SeederInterval cfg) SeederInterval;
    ValidatorEvictionThreshold :=
      override (arg_ValidatorEvictionThreshold cfg) ValidatorEvictionThreshold;
    LowStakingPeriod := override (arg_LowStakingPeriod cfg) LowStakingPeriod;
    MediumStakingPeriod := override (arg_MediumStakingPeriod cfg) MediumStakingPeriod;
    HighStakingPeriod := override (arg_HighStakingPeriod cfg) HighStakingPeriod;
    CooldownPeriod := override (arg_CooldownPeriod cfg) CooldownPeriod;
    HayabusaTP := default HayabusaTP (arg_HayabusaTP cfg);
    EvictionCheckInterval := override (arg_EvictionCheckInterval cfg) EvictionCheckInterval;
  |}.

Definition InitialMaxBlockProposers : Z := 101.
Definition MaxPosScore : Z := 10000.

(** Gas and fee constants; [params.TxGas] and [params.TxGasContractCreation] of
    go-ethereum are 21000 and 53000. *)
Definition TxGas : Z := 5000.
Definition ClauseGas : Z := 21000 - TxGas.
Definition ClauseGasContractCreation : Z := 53000 - TxGas.
Definition MinGasLimit : Z := 1000 * 1000.
Definition InitialGasLimit : Z := 10 * 1000 * 1000.
Definition GasLimitBoundDivisor : Z := 1024.
Definition MaxTxWorkDelay : Z := 30.
Definition GasTargetPercentage : Z := 75.
Definition InitialBaseFee : Z := 10000000000000.
Definition BaseFeeChangeDenominator : Z := 8.
Definition EnergyGrowthRate : Z := 5000000000.
Definition NumberOfBlocksPerYear : Z := 8640 * 365.

(** Block numbers of the forks. *)
Record ForkConfig := MkForkConfig {
  VIP191 : Z;
  ETH_CONST : Z;
  BLOCKLIST : Z;
  ETH_IST : Z;
  VIP214 : Z;
  FINALITY : Z;
  HAYABUSA : Z;
  GALACTICA : Z;
}.
Definition NoFork : ForkConfig :=
  let never := max32 - 1 in MkForkConfig never never never never never never never never.
Definition SoloFork : ForkConfig := MkForkConfig 0 0 0 0 0 0 0 0.

(** [mbp] is the governance parameter [KeyMaxBlockProposers]. *)
Definition GetMaxBlockProposers (mbp : Z) (capToInitial : bool) : Z :=
  let maxBlockProposers :=
    if (mbp <? 0) || (max64 <=? mbp) then max64 - 1 else mbp in
  if (maxBlockProposers =? 0) ||
     (capToInitial && (InitialMaxBlockProposers <? maxBlockProposers))
  then InitialMaxBlockProposers
  else maxBlockProposers.

(** What the staking code relies on: positive periods, staking periods and
    the check interval made of whole epochs, everything small against the
    32-bit block number. *)
Record config_ok (cfg : Config) : Prop := {
  ok_epoch : 0 < EpochLength < 2 ^ 16;
  ok_low : 0 < LowStakingPeriod < 2 ^ 24;
  ok_medium : 0 < MediumStakingPeriod < 2 ^ 24;
  ok_high : 0 < HighStakingPeriod < 2 ^ 24;
  ok_low_epochs : (EpochLength | LowStakingPeriod);
  ok_medium_epochs : (EpochLength | MediumStakingPeriod);
  ok_high_epochs : (EpochLength | HighStakingPeriod);
  ok_cooldown : 0 ≤ CooldownPeriod < 2 ^ 24;
  ok_threshold : 0 ≤ ValidatorEvictionThreshold < 2 ^ 24;
  ok_check : 0 < EvictionCheckInterval < 2 ^ 24;
  ok_tp : 0 ≤ HayabusaTP < 2 ^ 24;
}.

Lemma default_config_ok : config_ok default_config.
Proof.
  split; simpl; try lia.
  - by exists 336.
  - by exists 720.
  - by exists 1440.
Qed.

(** The proposer limit is never zero, and under the PoA cap never above 101. *)
Lemma GetMaxBlockProposers_bounds mbp cap :
  1 ≤ GetMaxBlockProposers mbp cap < max64 ∧
  (cap = true → GetMaxBlockProposers mbp cap ≤ InitialMaxBlockProposers).
Proof.
  unfold GetMaxBlockProposers, InitialMaxBlockProposers.
  destruct cap; simpl;
    repeat (case_match; try discriminate); unfold_int; split; try done; lia.
Qed.
