(* ===== verification/Block.v ===== *)
(** * Package block: headers, gas limits and the base fee

    [src/block/header.go], [extension.go], [txs_root_features.go],
    [complex_signature.go], [gas_limit.go] and the base fee of
    [src/consensus/upgrade/galactica/galactica.go].  A header is a record of its
    fields; the values the Go code caches in it (signing hash, id, public key,
    beta) are recomputed, which is what the caches return. *)

From S2P Require Import Prelude Bytes External Thor.

Record extension := MkExtension {
  Alpha : bytes;
  COM : bool;
  BaseFee : option Z;
}.
#[export] Instance eta_extension : Eta extension := λ e,
  MkExtension (Alpha e) (COM e) (BaseFee e).

Record txsRootFeatures := MkTxsRootFeatures { Root : Bytes32; trfFeatures : Z }.

Record Header := MkHeader {
  ParentID : Bytes32;
  Timestamp : Z;
  GasLimit : Z;
  hBeneficiary : Address;
  GasUsed : Z;
  TotalScore : Z;
  TxsRootFeatures : txsRootFeatures;
  StateRoot : Bytes32;
  ReceiptsRoot : Bytes32;
  Signature : bytes;
  Extension : extension;
}.
#[export] Instance eta_Header : Eta Header := λ h,
  MkHeader (ParentID h) (Timestamp h) (GasLimit h) (hBeneficiary h) (GasUsed h) (TotalScore h)
    (TxsRootFeatures h) (StateRoot h) (ReceiptsRoot h) (Signature h) (Extension h).

(** The block number is the first four bytes of a block id. *)
Definition Number (blockID : Bytes32) : Z := blockID / 2 ^ 224.

(** [binary.BigEndian.PutUint32(id[:], num)] *)
Definition putNumber (num : Z) (id : Bytes32) : Bytes32 := num * 2 ^ 224 + id mod 2 ^ 224.

Definition Header_Number (h : Header) : Z := Number (ParentID h) +u32 1.
Definition TxsFeatures (h : Header) : Z := trfFeatures (TxsRootFeatures h).
Definition TxsRoot (h : Header) : Bytes32 := Root (TxsRootFeatures h).

(** ** Signatures *)
Definition ComplexSigSize : nat := 81 + 65.

Definition NewComplexSignature (signature proof : bytes) : result bytes :=
  if negb (length signature =? 65)%nat
  then Err (ErrInternal "invalid signature length, 65 bytes required") else
  if negb (length proof =? 81)%nat
  then Err (ErrInternal "invalid proof length, 81 bytes required") else
  Ok (signature ++ proof).
Definition ecdsaPart (ms : bytes) : bytes := take 65 ms.
Definition proofPart (ms : bytes) : bytes := drop 65 ms.

Definition withSignature (sig : bytes) (h : Header) : Header := h <| Signature := sig |>.

(** ** RLP

    [EncodeRLP] of the extension trims its default tail, down to nothing;
    [DecodeRLP] gets [None] when the enclosing list has ended. *)
Section rlp.
Context `{Rlp}.

Definition rlp_fixed (n : nat) (z : Z) : item := rlp_str (be n z).
Definition fixed_of (n : nat) (i : item) : option Z :=
  b ← str_of i; if (length b =? n)%nat then Some (from_be b) else None.
Definition rlp_bool (b : bool) : item := rlp_num (if b then 1 else 0).
Definition bool_of (i : item) : option bool :=
  z ← num_of i; if z =? 0 then Some false else if z =? 1 then Some true else None.
(** an unsigned integer of the given width *)
Definition uint_of (bits : Z) (i : item) : option Z :=
  z ← num_of i; if z <? 2 ^ bits then Some z else None.

Definition extension_EncodeRLP (ex : extension) : option item :=
  match BaseFee ex with
  | Some baseFee => Some (rlp_list [rlp_str (Alpha ex); rlp_bool (COM ex); rlp_num baseFee])
  | None =>
      if COM ex then Some (rlp_list [rlp_str (Alpha ex); rlp_bool (COM ex)]) else
      if negb (length (Alpha ex) =? 0)%nat then Some (rlp_list [rlp_str (Alpha ex)]) else
      None
  end.

Definition extension_DecodeRLP (i : option item) : option extension :=
  match i with
  | None => Some (MkExtension [] false None)
  | Some i =>
      raws ← list_of i;
      match raws with
      | [raw0] =>
          alpha ← str_of raw0;
          if (length alpha =? 0)%nat then None else Some (MkExtension alpha false None)
      | [raw0; raw1] =>
          alpha ← str_of raw0; com ← bool_of raw1;
          if negb com then None else Some (MkExtension alpha com None)
      | [raw0; raw1; raw2] =>
          alpha ← str_of raw0; com ← bool_of raw1; baseFee ← num_of raw2;
          Some (MkExtension alpha com (Some baseFee))
      | _ => None
      end
  end.

Definition txsRootFeatures_EncodeRLP (trf : txsRootFeatures) : item :=
  if trfFeatures trf =? 0 then rlp_fixed 32 (Root trf)
  else rlp_list [rlp_fixed 32 (Root trf); rlp_num (trfFeatures trf)].

Definition txsRootFeatures_DecodeRLP (i : item) : option txsRootFeatures :=
  match list_of i with
  | Some [raw0; raw1] =>
      root ← fixed_of 32 raw0; features ← uint_of 32 raw1;
      Some (MkTxsRootFeatures root features)
  | Some _ => None
  | None => root ← fixed_of 32 i; Some (MkTxsRootFeatures root 0)
  end.

Definition Header_EncodeRLP (h : Header) : item :=
  rlp_list ([
    rlp_fixed 32 (ParentID h); rlp_num (Timestamp h); rlp_num (GasLimit h);
    rlp_fixed 20 (hBeneficiary h); rlp_num (GasUsed h); rlp_num (TotalScore h);
    txsRootFeatures_EncodeRLP (TxsRootFeatures h); rlp_fixed 32 (StateRoot h);
    rlp_fixed 32 (ReceiptsRoot h); rlp_str (Signature h)] ++
    option_list (extension_EncodeRLP (Extension h))).

(** The fixed fields, then the extension, which must be the last field. *)
Definition Header_DecodeRLP (i : item) : option Header :=
  fields ← list_of i;
  match fields with
  | r0 :: r1 :: r2 :: r3 :: r4 :: r5 :: r6 :: r7 :: r8 :: r9 :: tail =>
      parentID ← fixed_of 32 r0; timestamp ← uint_of 64 r1; gasLimit ← uint_of 64 r2;
      beneficiary ← fixed_of 20 r3; gasUsed ← uint_of 64 r4; totalScore ← uint_of 64 r5;
      trf ← txsRootFeatures_DecodeRLP r6; stateRoot ← fixed_of 32 r7;
      receiptsRoot ← fixed_of 32 r8; signature ← str_of r9;
      ext ← match tail with
            | [] => extension_DecodeRLP None
            | [raw] => extension_DecodeRLP (Some raw)
            | _ => None
            end;
      Some (MkHeader parentID timestamp gasLimit beneficiary gasUsed totalScore trf
              stateRoot receiptsRoot signature ext)
  | _ => None
  end.

(** The signed fields: the extension is among them only with a base fee. *)
Definition Header_signingFields (h : Header) : list item :=
  [rlp_fixed 32 (ParentID h); rlp_num (Timestamp h); rlp_num (GasLimit h);
   rlp_fixed 20 (hBeneficiary h); rlp_num (GasUsed h); rlp_num (TotalScore h);
   txsRootFeatures_EncodeRLP (TxsRootFeatures h); rlp_fixed 32 (StateRoot h);
   rlp_fixed 32 (ReceiptsRoot h)] ++
  (if BaseFee (Extension h) is Some _ then option_list (extension_EncodeRLP (Extension h)) else []).

Section hashing.
Context `{Crypto}.

Definition Header_SigningHash (h : Header) : Bytes32 :=
  blake2b (rlp_bytes (rlp_list (Header_signingFields h))).

Definition Header_pubkey (h : Header) : result Z :=
  if (length (Signature h) <? 65)%nat then Err (ErrInternal "invalid signature length") else
  match sigToPub (Header_SigningHash h) (ecdsaPart (Signature h)) with
  | Some pub => Ok pub
  | None => Err (ErrInternal "recovery failed")
  end.

(** The genesis block has no signer. *)
Definition Header_Signer (h : Header) : result Address :=
  if Header_Number h =? 0 then Ok 0 else
  pub ← Header_pubkey h;
  Ok (pubkeyToAddress pub).

(** [blockNumber + hash(signingHash, signer)[4:]]; a header without a signer has
    the zero hash. *)
Definition ID (h : Header) : Bytes32 :=
  putNumber (Header_Number h)
    match Header_Signer h with
    | Ok signer => blake2b (be 32 (Header_SigningHash h) ++ be 20 signer)
    | Err _ => 0
    end.

Definition Beta (h : Header) : result bytes :=
  if (Header_Number h =? 0) || (length (Signature h) =? 65)%nat then Ok [] else
  if negb (length (Signature h) =? ComplexSigSize)%nat
  then Err (ErrInternal "invalid signature length") else
  pub ← Header_pubkey h;
  match vrf_verify pub (Alpha (Extension h)) (proofPart (Signature h)) with
  | Some beta => Ok beta
  | None => Err (ErrInternal "invalid VRF proof")
  end.

(** The higher score wins, then the smaller id. *)
Definition BetterThan (h other : Header) : bool :=
  let s1 := TotalScore h in
  let s2 := TotalScore other in
  if s2 <? s1 then true else
  if s1 <? s2 then false else
  ID h <? ID other.
End hashing.
End rlp.

(** ** Gas limits ([gas_limit.go]) *)

(** Conversion of a [uint64] to [int64] and back. *)
Definition toInt64 (z : Z) : Z := if z <? 2 ^ 63 then z else z - max64.
Definition toUint64 (z : Z) : Z := wrap64 z.

Definition min64 (a b : Z) : Z := if b <? a then b else a.

Definition GasLimit_IsValid (gasLimit parentGasLimit : Z) : bool :=
  if gasLimit <? MinGasLimit then false else
  let diff := if parentGasLimit <? gasLimit then gasLimit -u64 parentGasLimit
              else parentGasLimit -u64 gasLimit in
  diff <=? parentGasLimit / GasLimitBoundDivisor.

Definition GasLimit_Adjust (gasLimit delta : Z) : Z :=
  let maxDiff := gasLimit / GasLimitBoundDivisor in
  if 0 <? delta then
    let diff := min64 (toUint64 delta) maxDiff in
    if (max64 - 1) -u64 diff <? gasLimit then max64 - 1 else gasLimit +u64 diff
  else
    let diff := min64 (toUint64 (- delta)) maxDiff in
    if gasLimit <? MinGasLimit +u64 diff then MinGasLimit else gasLimit -u64 diff.

Definition GasLimit_Qualify (gasLimit parentGasLimit : Z) : Z :=
  let maxDiff := parentGasLimit / GasLimitBoundDivisor in
  if parentGasLimit <? gasLimit then
    let diff := min64 (gasLimit -u64 parentGasLimit) maxDiff in
    GasLimit_Adjust parentGasLimit (toInt64 diff)
  else
    let diff := min64 (parentGasLimit -u64 gasLimit) maxDiff in
    GasLimit_Adjust parentGasLimit (- toInt64 diff).

(** ** The base fee ([galactica.go])

    [None] is Go's nil; a division by zero and a nil base fee panic. *)
Definition GasTarget (gasLimit : Z) : Z := gasLimit *u64 GasTargetPercentage / 100.

Definition CalcBaseFee (parent : Header) (forkConfig : ForkConfig) : result (option Z) :=
  if Header_Number parent +u32 1 <? GALACTICA forkConfig then Ok None else
  if Header_Number parent +u32 1 =? GALACTICA forkConfig then Ok (Some InitialBaseFee) else
  let parentGasTarget := GasTarget (GasLimit parent) in
  let parentGasUsed := GasUsed parent in
  match BaseFee (Extension parent) with
  | None => Err (ErrPanic "nil base fee")
  | Some parentBaseFee =>
      if parentGasUsed =? parentGasTarget then Ok (Some parentBaseFee) else
      if parentGasTarget =? 0 then Err (ErrPanic "division by zero") else
      if parentGasTarget <? parentGasUsed then
        let gasUsedDelta := parentGasUsed -u64 parentGasTarget in
        let y := parentBaseFee * gasUsedDelta / parentGasTarget in
        let baseFeeDelta := Z.max (y / BaseFeeChangeDenominator) 1 in
        Ok (Some (parentBaseFee + baseFeeDelta))
      else
        let gasUsedDelta := parentGasTarget -u64 parentGasUsed in
        let y := parentBaseFee * gasUsedDelta / parentGasTarget in
        let baseFeeDelta := y / BaseFeeChangeDenominator in
        Ok (Some (Z.max (parentBaseFee - baseFeeDelta) InitialBaseFee))
  end.

(** ** Block numbers *)
Lemma Number_putNumber num id : Number (putNumber num id) = num.
Proof.
  unfold Number, putNumber. pose proof (Z.mod_pos_bound id (2 ^ 224)).
  rewrite Z.div_add_l, (Z.div_small (id mod _)) by lia. lia.
Qed.

Lemma Number_range id : is256 id → is32 (Number id).
Proof.
  unfold is256, Number. intros Hid. unfold_int. split; [apply Z.div_pos; lia|].
  apply Z.div_lt_upper_bound; lia.
Qed.

Lemma putNumber_range num id : is32 num → is256 (putNumber num id).
Proof.
  unfold putNumber, is256. intros Hn. unfold_int.
  pose proof (Z.mod_pos_bound id (2 ^ 224)). lia.
Qed.

Section ids.
Context `{Rlp} `{Crypto}.

Lemma Number_ID h : Number (ID h) = Header_Number h.
Proof. apply Number_putNumber. Qed.

Lemma Header_Number_range h : is32 (Header_Number h).
Proof. apply wrap32_range. Qed.

Lemma ID_range h : is256 (ID h).
Proof. apply putNumber_range, Header_Number_range. Qed.
End ids.
