(* ===== verification/BlockCorrect.v ===== *)
(** * Correctness of package block

    The gas limit a packer picks is one the validators accept; the base fee
    stays within an eighth of its parent's and above its floor; encoding a
    header and decoding it gives it back, and only trimmed extensions decode. *)

From S2P Require Import Prelude Bytes External Thor Block.

(** ** Gas limits *)
Lemma min64_min a b : min64 a b = Z.min a b.
Proof. unfold min64. zcase; lia. Qed.

Lemma toInt64_small z : 0 ≤ z < 2 ^ 63 → toInt64 z = z.
Proof. unfold toInt64. zcase; lia. Qed.

(** The limit that adjusting by a small enough amount gives. *)
Lemma Adjust_up g d : MinGasLimit ≤ g → is64 g → 0 < d ≤ g / GasLimitBoundDivisor →
  GasLimit_Adjust g d = Z.min (g + d) (max64 - 1).
Proof.
  unfold GasLimit_Adjust, toUint64, GasLimitBoundDivisor, MinGasLimit. intros Hm Hg Hd.
  assert (g / 1024 ≤ g) by (apply Z.div_le_upper_bound; lia).
  destruct (Z.ltb_spec 0 d); [|lia]. rewrite min64_min, (wrap64_id d) by ulia.
  rewrite Z.min_l by lia. rewrite (wrap64_id (max64 - 1 - d)) by ulia.
  zcase; [ulia|]. rewrite wrap64_id by ulia. ulia.
Qed.

Lemma Adjust_down g d : MinGasLimit ≤ g → is64 g → 0 ≤ d ≤ g / GasLimitBoundDivisor →
  GasLimit_Adjust g (- d) = Z.max (g - d) MinGasLimit.
Proof.
  unfold GasLimit_Adjust, toUint64, GasLimitBoundDivisor, MinGasLimit. intros Hm Hg Hd.
  assert (1024 * (g / 1024) ≤ g) by (apply Z.mul_div_le; lia).
  destruct (Z.ltb_spec 0 (- d)); [lia|]. rewrite min64_min, Z.opp_involutive.
  rewrite (wrap64_id d) by ulia. rewrite Z.min_l by lia.
  rewrite (wrap64_id (_ + d)) by ulia.
  zcase; [lia|]. rewrite wrap64_id by ulia. lia.
Qed.

Lemma Qualify_eq target parent : MinGasLimit ≤ parent → is64 parent → is64 target →
  let step := parent / GasLimitBoundDivisor in
  GasLimit_Qualify target parent =
    Z.max MinGasLimit (Z.max (parent - step) (Z.min target (parent + step))).
Proof.
  intros Hm Hp Ht step. subst step. unfold GasLimit_Qualify.
  assert (1024 * (parent / GasLimitBoundDivisor) ≤ parent) by (apply Z.mul_div_le; done).
  assert (0 ≤ parent / GasLimitBoundDivisor) by (apply Z.div_pos; [ulia|done]).
  unfold MinGasLimit in *.
  destruct (Z.ltb_spec parent target) as [Hlt|Hge]; rewrite min64_min; unwrap.
  - rewrite toInt64_small by ulia.
    assert (0 < parent / GasLimitBoundDivisor)
      by (apply Z.div_str_pos; unfold GasLimitBoundDivisor; lia).
    rewrite Adjust_up by (unfold MinGasLimit; ulia). ulia.
  - rewrite toInt64_small by ulia. rewrite Adjust_down by (unfold MinGasLimit; ulia).
    unfold MinGasLimit. lia.
Qed.

Lemma Qualify_valid target parent : MinGasLimit ≤ parent → is64 parent → is64 target →
  GasLimit_IsValid (GasLimit_Qualify target parent) parent = true.
Proof.
  intros Hm Hp Ht. rewrite Qualify_eq by done. unfold GasLimit_IsValid.
  assert (1024 * (parent / GasLimitBoundDivisor) ≤ parent) by (apply Z.mul_div_le; done).
  assert (0 ≤ parent / GasLimitBoundDivisor) by (apply Z.div_pos; [ulia|done]).
  unfold MinGasLimit in *.
  set (g := Z.max _ _). assert (is64 g) by (unfold g; ulia).
  destruct (Z.ltb_spec g (1000 * 1000)); [unfold g in *; lia|].
  apply Z.leb_le. zcase; rewrite wrap64_id by ulia; unfold g in *; lia.
Qed.

(** [GasLimit.Qualify] moves the parent's gas limit towards the target by
    at most one part in 1024, reaches the target when it is that close and not
    below the minimum, and always returns a limit that [IsValid] accepts, so a
    block packed with it passes the validators' check. *)
Theorem qualified_gas_limit_valid (target parent : Z) :
  MinGasLimit ≤ parent → is64 parent → is64 target →
  let g := GasLimit_Qualify target parent in
  GasLimit_IsValid g parent = true ∧
  g = Z.max MinGasLimit
        (Z.max (parent - parent / GasLimitBoundDivisor)
           (Z.min target (parent + parent / GasLimitBoundDivisor))).
Proof.
  intros Hm Hp Ht g. subst g. split; [by apply Qualify_valid|by apply Qualify_eq].
Qed.

Lemma qualified_gas_limit_valid_witness :
  GasLimit_IsValid (GasLimit_Qualify 40000000 30000000) 30000000 = true.
Proof.
  apply (qualified_gas_limit_valid 40000000 30000000); unfold MinGasLimit; ulia.
Defined.

(** ** The base fee *)

(** The gas target of a valid block. *)
Lemma GasTarget_bounds g : MinGasLimit ≤ g → g < 2 ^ 56 →
  3 * g ≤ 4 * GasTarget g + 3 ∧ 4 * GasTarget g ≤ 3 * g ∧ 0 < GasTarget g.
Proof.
  unfold GasTarget, GasTargetPercentage, MinGasLimit. intros. unwrap.
  pose proof (Z.mul_div_le (g * 75) 100). pose proof (Z.mul_succ_div_gt (g * 75) 100). lia.
Qed.

(** A change of the fee is at most an eighth of it. *)
Lemma fee_delta_bound fee d t : 0 ≤ fee → 0 ≤ d ≤ t → 0 < t →
  0 ≤ fee * d / t / BaseFeeChangeDenominator ∧
  8 * (fee * d / t / BaseFeeChangeDenominator) ≤ fee.
Proof.
  intros Hf Hd Ht. unfold BaseFeeChangeDenominator.
  assert (fee * d / t ≤ fee) by (apply Z.div_le_upper_bound; nia).
  assert (0 ≤ fee * d / t) by (apply Z.div_pos; nia).
  split; [apply Z.div_pos; lia|]. pose proof (Z.mul_div_le (fee * d / t) 8). lia.
Qed.

(** C23: after the Galactica fork, the base fee of a block whose parent is
    valid is computed without a panic, never falls below [InitialBaseFee], never
    changes by more than an eighth, is unchanged when the parent used exactly
    its gas target, grows when it used more and does not grow when it used
    less. *)
Theorem base_fee_bounded (parent : Header) (forkConfig : ForkConfig) (fee : Z) :
  GALACTICA forkConfig < Header_Number parent + 1 < max32 →
  MinGasLimit ≤ GasLimit parent < 2 ^ 56 →
  0 ≤ GasUsed parent ≤ GasLimit parent →
  BaseFee (Extension parent) = Some fee → InitialBaseFee ≤ fee →
  ∃ fee', CalcBaseFee parent forkConfig = Ok (Some fee') ∧
    InitialBaseFee ≤ fee' ∧ 8 * Z.abs (fee' - fee) ≤ fee ∧
    match Z.compare (GasUsed parent) (GasTarget (GasLimit parent)) with
    | Eq => fee' = fee
    | Gt => fee < fee'
    | Lt => fee' ≤ fee
    end.
Proof.
  intros Hnum Hgl Hgu Hfee Hmin. unfold CalcBaseFee.
  pose proof (Header_Number_range parent) as Hr.
  destruct (GasTarget_bounds (GasLimit parent)) as (Ht1 & Ht2 & Ht3); [lia|lia|].
  rewrite (wrap32_id (_ + 1)) by ulia.
  destruct (Z.ltb_spec (Header_Number parent + 1) (GALACTICA forkConfig)); [lia|].
  destruct (Z.eqb_spec (Header_Number parent + 1) (GALACTICA forkConfig)); [lia|].
  rewrite Hfee. set (t := GasTarget (GasLimit parent)) in *. set (u := GasUsed parent) in *.
  assert (MinGasLimit = 1000000 ∧ InitialBaseFee = 10000000000000) as [Em Ei] by done.
  destruct (Z.eqb_spec u t) as [->|Hne].
  { exists fee. rewrite Z.compare_refl. split_and!; try done; lia. }
  destruct (Z.eqb_spec t 0); [lia|].
  destruct (Z.ltb_spec t u) as [Hgt|Hle].
  - rewrite wrap64_id by ulia. pose proof (fee_delta_bound fee (u - t) t) as Hd.
    rewrite (proj2 (Z.compare_gt_iff u t)) by lia. eexists. split; [done|]. lia.
  - rewrite wrap64_id by ulia. pose proof (fee_delta_bound fee (t - u) t) as Hd.
    rewrite (proj2 (Z.compare_lt_iff u t)) by lia. eexists. split; [done|]. lia.
Qed.

Definition demo_header : Header :=
  MkHeader (25000000 * 2 ^ 224) 1700000000 40000000 7 38000000 12345
    (MkTxsRootFeatures 3 1) 4 5 [1] (MkExtension [1; 2; 3] true (Some (2 * InitialBaseFee))).
Definition demo_forks : ForkConfig := MkForkConfig 1 2 3 4 5 6 8 7.

Lemma base_fee_bounded_witness :
  ∃ fee', CalcBaseFee demo_header demo_forks = Ok (Some fee') ∧ 2 * InitialBaseFee < fee'.
Proof.
  destruct (base_fee_bounded demo_header demo_forks (2 * InitialBaseFee))
    as (fee' & E & _ & _ & H).
  - vm_compute. done.
  - vm_compute. done.
  - vm_compute. done.
  - reflexivity.
  - vm_compute. done.
  - exists fee'. split; [exact E|exact H].
Defined.

(** ** Encodings *)
Record header_wf (h : Header) : Prop := {
  wf_ParentID : is256 (ParentID h);
  wf_Timestamp : is64 (Timestamp h);
  wf_GasLimit : is64 (GasLimit h);
  wf_Beneficiary : 0 ≤ hBeneficiary h < 2 ^ 160;
  wf_GasUsed : is64 (GasUsed h);
  wf_TotalScore : is64 (TotalScore h);
  wf_TxsRoot : is256 (TxsRoot h);
  wf_Features : is32 (TxsFeatures h);
  wf_StateRoot : is256 (StateRoot h);
  wf_ReceiptsRoot : is256 (ReceiptsRoot h);
  wf_BaseFee : ∀ fee, BaseFee (Extension h) = Some fee → 0 ≤ fee;
}.

Section codec.
Context `{RS : RlpSpec}.

Lemma fixed_of_fixed n z : 0 ≤ z < 256 ^ Z.of_nat n → fixed_of n (rlp_fixed n z) = Some z.
Proof.
  intros Hz. unfold fixed_of, rlp_fixed. rewrite str_of_str. simpl.
  rewrite be_length, Nat.eqb_refl, from_be_be. by rewrite Z.mod_small.
Qed.

Lemma uint_of_num bits z : 0 ≤ z < 2 ^ bits → uint_of bits (rlp_num z) = Some z.
Proof.
  intros Hz. unfold uint_of. rewrite num_of_num by lia. simpl.
  destruct (Z.ltb_spec z (2 ^ bits)); [done|lia].
Qed.

Lemma bool_of_bool b : bool_of (rlp_bool b) = Some b.
Proof. unfold bool_of, rlp_bool. rewrite num_of_num by (destruct b; lia). by destruct b. Qed.

Lemma bool_of_inv i b : bool_of i = Some b → i = rlp_bool b.
Proof.
  unfold bool_of, rlp_bool. destruct (num_of i) as [z|] eqn:E; [|done]. simpl.
  apply num_of_inv in E as [_ ->]. repeat zcase; intros; simplify_eq; done.
Qed.

Lemma extension_roundtrip ex :
  (∀ fee, BaseFee ex = Some fee → 0 ≤ fee) →
  extension_DecodeRLP (extension_EncodeRLP ex) = Some ex.
Proof.
  destruct ex as [alpha com [fee|]]; unfold extension_EncodeRLP; simpl; intros Hfee.
  - rewrite list_of_list. simpl.
    by rewrite str_of_str, bool_of_bool, num_of_num by auto.
  - destruct com; simpl.
    + rewrite list_of_list. simpl. by rewrite str_of_str, bool_of_bool.
    + destruct alpha as [|b alpha]; simpl; [done|].
      rewrite list_of_list. simpl. by rewrite str_of_str.
Qed.

(** Only the trimmed encoding of an extension decodes. *)
Lemma extension_canonical i ex :
  extension_DecodeRLP i = Some ex → extension_EncodeRLP ex = i.
Proof.
  destruct i as [i|]; simpl; [|intros; by simplify_eq].
  destruct (list_of i) as [raws|] eqn:E; simpl; [|done].
  apply list_of_inv in E as ->.
  destruct raws as [|raw0 [|raw1 [|raw2 [|? ?]]]]; try done.
  all: destruct (str_of raw0) as [alpha|] eqn:E0; simpl; [|done];
    apply str_of_inv in E0 as ->.
  - destruct alpha as [|b alpha]; simpl; [done|]. intros. by simplify_eq.
  - destruct (bool_of raw1) as [com|] eqn:E1; simpl; [|done].
    apply bool_of_inv in E1 as ->. destruct com; simpl; [|done]. intros. by simplify_eq.
  - destruct (bool_of raw1) as [com|] eqn:E1; simpl; [|done].
    apply bool_of_inv in E1 as ->.
    destruct (num_of raw2) as [fee|] eqn:E2; simpl; [|done].
    apply num_of_inv in E2 as [_ ->]. intros. by simplify_eq.
Qed.

Lemma list_of_fixed n z : list_of (rlp_fixed n z) = None.
Proof.
  unfold rlp_fixed. destruct (list_of _) as [l|] eqn:E; [|done].
  apply list_of_inv in E. by apply eq_sym, rlp_list_str in E.
Qed.

Lemma txsRootFeatures_roundtrip trf :
  is256 (Root trf) → is32 (trfFeatures trf) →
  txsRootFeatures_DecodeRLP (txsRootFeatures_EncodeRLP trf) = Some trf.
Proof.
  destruct trf as [root f]. unfold is256, txsRootFeatures_EncodeRLP, txsRootFeatures_DecodeRLP.
  simpl. intros Hr Hf. destruct (Z.eqb_spec f 0) as [->|Hne].
  - rewrite list_of_fixed. by rewrite fixed_of_fixed by (simpl; lia).
  - rewrite list_of_list, fixed_of_fixed by (simpl; lia). simpl.
    by rewrite uint_of_num by ulia.
Qed.

(** C22: decoding an encoded header gives the header back, for every header
    whose fields are in range and whatever parts of its extension are set; and
    an extension decodes only from its trimmed encoding, so that no two
    encodings of a block differ in it. *)
Theorem header_roundtrip (h : Header) :
  header_wf h →
  Header_DecodeRLP (Header_EncodeRLP h) = Some h ∧
  (∀ i, extension_DecodeRLP i = Some (Extension h) → i = extension_EncodeRLP (Extension h)).
Proof.
  intros []. unfold is256 in *. split; [|intros i Hi; symmetry; by apply extension_canonical].
  unfold Header_DecodeRLP, Header_EncodeRLP. rewrite list_of_list. simpl.
  rewrite !fixed_of_fixed by (simpl; lia). simpl.
  rewrite !uint_of_num by ulia. simpl.
  rewrite txsRootFeatures_roundtrip by done. simpl.
  rewrite str_of_str. simpl.
  replace (match _ with [] => _ | [raw] => _ | _ => None end)
    with (extension_DecodeRLP (extension_EncodeRLP (Extension h)))
    by (by destruct (extension_EncodeRLP (Extension h))).
  rewrite extension_roundtrip by done. by destruct h.
Qed.

(** Before the Galactica fork a header has no base fee, and then its
    finality vote and VRF input are not covered by the signing hash: changing
    them changes neither the hash, nor the recovered signer, nor the block
    id. *)
Theorem unsigned_extension `{CR : Crypto} (h : Header) (alpha : bytes) (com : bool) :
  BaseFee (Extension h) = None →
  let h' := h <| Extension := MkExtension alpha com None |> in
  Header_SigningHash h' = Header_SigningHash h ∧
  Header_Signer h' = Header_Signer h ∧ ID h' = ID h.
Proof.
  intros Hfee h'.
  assert (Header_SigningHash h' = Header_SigningHash h) as E.
  { unfold Header_SigningHash, Header_signingFields. simpl. by rewrite Hfee. }
  assert (Header_Signer h' = Header_Signer h) as E'.
  { unfold Header_Signer, Header_pubkey. by rewrite E. }
  split_and!; [done|done|]. unfold ID. by rewrite E, E'.
Qed.
End codec.

Lemma demo_header_wf : header_wf demo_header.
Proof. split; try (vm_compute; done). intros fee [= <-]. vm_compute. done. Qed.

Lemma header_roundtrip_witness :
  @Header_DecodeRLP demo_Rlp (@Header_EncodeRLP demo_Rlp demo_header) = Some demo_header.
Proof.
  exact (proj1 (@header_roundtrip demo_Rlp demo_RlpSpec demo_header demo_header_wf)).
Defined.

Lemma unsigned_extension_witness :
  let h := demo_header <| Extension := MkExtension [1] true None |> in
  @ID demo_Rlp demo_Crypto (h <| Extension := MkExtension [1] false None |>) =
  @ID demo_Rlp demo_Crypto h.
Proof.
  apply (@unsigned_extension demo_Rlp demo_Crypto
    (demo_header <| Extension := MkExtension [1] true None |>) [1] false).
  reflexivity.
Defined.
