(* ===== verification/Tx.v ===== *)
(** * Package tx: transactions

    [src/tx/transaction.go], [tx_legacy.go], [tx_dynamic_fee.go], [clause.go],
    [reserved.go], [block_ref.go], [features.go], [work_eval.go] and [signer.go].
    The two transaction types are two records; the methods of the [txData]
    interface dispatch on them.  The values cached in a [Transaction] are
    recomputed, which is what the caches return. *)

From S2P Require Import Prelude Bytes External Thor Block.

Definition TypeLegacy : Z := 0.
Definition TypeDynamicFee : Z := 81.

(** ** Features *)
Definition DelegationFeature : Z := 1.
Definition IsDelegated (f : Z) : bool := Z.land f DelegationFeature =? DelegationFeature.
Definition SetDelegated (flag : bool) (f : Z) : Z :=
  if flag then Z.lor f DelegationFeature else Z.land f (Z.lxor (max32 - 1) DelegationFeature).

(** ** Block references: the first eight bytes of a block id *)
Definition BlockRef_Number (br : bytes) : Z := from_be (take 4 br).
Definition NewBlockRef (blockNum : Z) : bytes := be 4 blockNum ++ [0; 0; 0; 0].
Definition NewBlockRefFromID (blockID : Bytes32) : bytes := take 8 (be 32 blockID).

Record Clause := MkClause {
  To : option Address;
  Value : Z;
  Data : bytes;
}.
Definition IsCreatingContract (c : Clause) : bool := bool_decide (To c = None).

(** ** Receipts ([receipt.go], [event.go], [transfer.go]) *)
Record Event := MkEvent { evAddress : Address; evTopics : list Bytes32; evData : bytes }.
Record Transfer := MkTransfer { trSender : Address; trRecipient : Address; trAmount : Z }.
Record Output := MkOutput { outEvents : list Event; outTransfers : list Transfer }.
Record Receipt := MkReceipt {
  rcType : Z;
  rcGasUsed : Z;
  rcGasPayer : Address;
  rcPaid : Z;
  rcReward : Z;
  rcReverted : bool;
  rcOutputs : list Output;
}.

Section tx.
Context `{Rlp}.

(** The raw values a decoder keeps are RLP items. *)
Record reserved := MkReserved { Features : Z; Unused : list item }.

Record legacyTransaction := MkLegacy {
  lChainTag : Z;
  lBlockRef : Z;
  lExpiration : Z;
  lClauses : list Clause;
  lGasPriceCoef : Z;
  lGas : Z;
  lDependsOn : option Bytes32;
  lNonce : Z;
  lReserved : reserved;
  lSignature : bytes;
}.

Record dynamicFeeTransaction := MkDynamicFee {
  dChainTag : Z;
  dBlockRef : Z;
  dExpiration : Z;
  dClauses : list Clause;
  dMaxPriorityFeePerGas : Z;
  dMaxFeePerGas : Z;
  dGas : Z;
  dDependsOn : option Bytes32;
  dNonce : Z;
  dReserved : reserved;
  dSignature : bytes;
}.

Inductive Transaction :=
  | Legacy (t : legacyTransaction)
  | DynamicFee (t : dynamicFeeTransaction).

(** ** Accessors *)
Definition Tx_Type (t : Transaction) : Z :=
  match t with Legacy _ => TypeLegacy | DynamicFee _ => TypeDynamicFee end.
Definition Tx_ChainTag (t : Transaction) : Z :=
  match t with Legacy t => lChainTag t | DynamicFee t => dChainTag t end.
Definition Tx_blockRef (t : Transaction) : Z :=
  match t with Legacy t => lBlockRef t | DynamicFee t => dBlockRef t end.
Definition Tx_Expiration (t : Transaction) : Z :=
  match t with Legacy t => lExpiration t | DynamicFee t => dExpiration t end.
Definition Tx_Clauses (t : Transaction) : list Clause :=
  match t with Legacy t => lClauses t | DynamicFee t => dClauses t end.
Definition Tx_Gas (t : Transaction) : Z :=
  match t with Legacy t => lGas t | DynamicFee t => dGas t end.
Definition Tx_DependsOn (t : Transaction) : option Bytes32 :=
  match t with Legacy t => lDependsOn t | DynamicFee t => dDependsOn t end.
Definition Tx_Nonce (t : Transaction) : Z :=
  match t with Legacy t => lNonce t | DynamicFee t => dNonce t end.
Definition Tx_reserved (t : Transaction) : reserved :=
  match t with Legacy t => lReserved t | DynamicFee t => dReserved t end.
Definition Tx_Signature (t : Transaction) : bytes :=
  match t with Legacy t => lSignature t | DynamicFee t => dSignature t end.
Definition Tx_MaxFeePerGas (t : Transaction) : Z :=
  match t with Legacy _ => 0 | DynamicFee t => dMaxFeePerGas t end.
Definition Tx_MaxPriorityFeePerGas (t : Transaction) : Z :=
  match t with Legacy _ => 0 | DynamicFee t => dMaxPriorityFeePerGas t end.
Definition Tx_Features (t : Transaction) : Z := Features (Tx_reserved t).

Definition Tx_BlockRef (t : Transaction) : bytes := be 8 (Tx_blockRef t).

Definition IsExpired (t : Transaction) (blockNum : Z) : bool :=
  BlockRef_Number (Tx_BlockRef t) +u64 Tx_Expiration t <? blockNum.

Definition TestFeatures (t : Transaction) (supported : Z) : result unit :=
  let r := Tx_reserved t in
  if negb (Z.land (Features r) supported =? Features r)
  then Err (ErrInternal "unsupported features") else
  if (0 <? length (Unused r))%nat then Err (ErrInternal "unused reserved slot") else
  Ok tt.

Definition WithSignature (sig : bytes) (t : Transaction) : Transaction :=
  match t with
  | Legacy t => Legacy (MkLegacy (lChainTag t) (lBlockRef t) (lExpiration t) (lClauses t)
      (lGasPriceCoef t) (lGas t) (lDependsOn t) (lNonce t) (lReserved t) sig)
  | DynamicFee t => DynamicFee (MkDynamicFee (dChainTag t) (dBlockRef t) (dExpiration t)
      (dClauses t) (dMaxPriorityFeePerGas t) (dMaxFeePerGas t) (dGas t) (dDependsOn t)
      (dNonce t) (dReserved t) sig)
  end.

(** ** Intrinsic gas *)
Definition TxDataZeroGas : Z := 4.
Definition TxDataNonZeroGas : Z := 68.
Definition errIntrinsicGasOverflow : error := ErrInternal "intrinsic gas overflow".

Section gas.
Context `{SafeMath} `{SafeMulOp}.

Definition dataGas (data : bytes) : result Z :=
  if (length data =? 0)%nat then Ok 0 else
  let z := Z.of_nat (length (filter (λ b, b = 0) data)) in
  let nz := Z.of_nat (length (filter (λ b, b ≠ 0) data)) in
  let '(zgas, overflow) := SafeMul TxDataZeroGas z in
  if overflow : bool then Err errIntrinsicGasOverflow else
  let '(nzgas, overflow) := SafeMul TxDataNonZeroGas nz in
  if overflow : bool then Err errIntrinsicGasOverflow else
  let '(gas, overflow) := SafeAdd zgas nzgas in
  if overflow : bool then Err errIntrinsicGasOverflow else
  Ok gas.

(** The loop over the clauses, from the running total. *)
Fixpoint clausesGas (total : Z) (clauses : list Clause) : result Z :=
  match clauses with
  | [] => Ok total
  | c :: clauses =>
      gas ← dataGas (Data c);
      let '(total, overflow) := SafeAdd total gas in
      if overflow : bool then Err errIntrinsicGasOverflow else
      let cgas := if IsCreatingContract c then ClauseGasContractCreation else ClauseGas in
      let '(total, overflow) := SafeAdd total cgas in
      if overflow : bool then Err errIntrinsicGasOverflow else
      clausesGas total clauses
  end.

Definition IntrinsicGas (clauses : list Clause) : result Z :=
  if (length clauses =? 0)%nat then Ok (TxGas + ClauseGas) else
  clausesGas TxGas clauses.
End gas.

(** ** Prices *)
Definition legacy_gasPrice (t : legacyTransaction) (baseGasPrice : Z) : Z :=
  lGasPriceCoef t * baseGasPrice / 255 + baseGasPrice.

(** [baseFee] is nil before Galactica, where every transaction is legacy. *)
Definition EffectiveGasPrice (t : Transaction) (baseFee : option Z) (legacyTxBaseGasPrice : Z)
    : result Z :=
  match t with
  | Legacy t => Ok (legacy_gasPrice t legacyTxBaseGasPrice)
  | DynamicFee t =>
      match baseFee with
      | None => Err (ErrPanic "nil base fee")
      | Some baseFee => Ok (Z.min (dMaxFeePerGas t) (dMaxPriorityFeePerGas t + baseFee))
      end
  end.

Definition workPerGas : Z := 1000.

Section work.
Context `{CFG : Config}.

Definition workToGas (work blockNum : Z) : Z :=
  let gas := work / workPerGas in
  if gas =? 0 then 0 else
  let months := (blockNum *u64 BlockInterval) / 3600 / 24 / 30 in
  let gas := if negb (months =? 0) then gas * 100 ^ months / 104 ^ months else gas in
  if max64 <=? gas then max64 - 1 else gas.

Definition OverallGasPrice (t : Transaction) (legacyTxBaseGasPrice provedWork : Z) : result Z :=
  match t with
  | DynamicFee t => Ok (dMaxFeePerGas t)
  | Legacy l =>
      let gasPrice := legacy_gasPrice l legacyTxBaseGasPrice in
      if provedWork =? 0 then Ok gasPrice else
      let wgas := workToGas provedWork (BlockRef_Number (Tx_BlockRef t)) in
      if wgas =? 0 then Ok gasPrice else
      let wgas := if lGas l <? wgas then lGas l else wgas in
      if lGas l =? 0 then Err (ErrPanic "division by zero") else
      Ok (wgas * legacyTxBaseGasPrice / lGas l + gasPrice)
  end.

Definition EffectivePriorityFeePerGas (t : Transaction)
    (baseFee legacyTxBaseGasPrice provedWork : Z) : result Z :=
  '(maxPriorityFeePerGas, maxFeePerGas) ←
    match t with
    | Legacy _ =>
        overallGasPrice ← OverallGasPrice t legacyTxBaseGasPrice provedWork;
        Ok (overallGasPrice, overallGasPrice)
    | DynamicFee t => Ok (dMaxPriorityFeePerGas t, dMaxFeePerGas t)
    end;
  Ok (Z.min (maxFeePerGas - baseFee) maxPriorityFeePerGas).
End work.

(** ** Encoding *)
Definition rlp_opt (n : nat) (o : option Z) : item :=
  match o with None => rlp_str [] | Some z => rlp_fixed n z end.
(** An empty string or an empty list is a nil pointer. *)
Definition opt_of (n : nat) (i : item) : option (option Z) :=
  if bool_decide (i = rlp_str []) then Some None else
  match fixed_of n i with
  | Some z => Some (Some z)
  | None => if bool_decide (i = rlp_list []) then Some None else None
  end.

Definition isEmptyRLPRaw (i : item) : bool :=
  bool_decide (i = rlp_list []) || bool_decide (i = rlp_str []).

(** Popping the last values while they are empty. *)
Fixpoint trimEmpty (raws : list item) : list item :=
  match raws with
  | [] => []
  | i :: raws =>
      match trimEmpty raws with
      | [] => if isEmptyRLPRaw i then [] else [i]
      | raws' => i :: raws'
      end
  end.

Definition reserved_EncodeRLP (r : reserved) : item :=
  rlp_list (trimEmpty (rlp_num (Features r) :: Unused r)).

Definition reserved_DecodeRLP (i : item) : option reserved :=
  raws ← list_of i;
  match raws with
  | [] => Some (MkReserved 0 [])
  | raw0 :: rest =>
      if isEmptyRLPRaw (List.last raws raw0) then None else
      feat ← uint_of 32 raw0;
      Some (MkReserved feat rest)
  end.

Definition Clause_EncodeRLP (c : Clause) : item :=
  rlp_list [rlp_opt 20 (To c); rlp_num (Value c); rlp_str (Data c)].

Definition Clause_DecodeRLP (i : item) : option Clause :=
  fields ← list_of i;
  match fields with
  | [r0; r1; r2] =>
      to ← opt_of 20 r0; value ← num_of r1; data ← str_of r2;
      Some (MkClause to value data)
  | _ => None
  end.

Definition clauses_of (i : item) : option (list Clause) :=
  l ← list_of i; mapM Clause_DecodeRLP l.

Definition legacy_signingFields (t : legacyTransaction) : list item :=
  [rlp_num (lChainTag t); rlp_num (lBlockRef t); rlp_num (lExpiration t);
   rlp_list (Clause_EncodeRLP <$> lClauses t); rlp_num (lGasPriceCoef t); rlp_num (lGas t);
   rlp_opt 32 (lDependsOn t); rlp_num (lNonce t); reserved_EncodeRLP (lReserved t)].

Definition legacy_encode (t : legacyTransaction) : item :=
  rlp_list (legacy_signingFields t ++ [rlp_str (lSignature t)]).

Definition legacy_decode (i : item) : option legacyTransaction :=
  fields ← list_of i;
  match fields with
  | [r0; r1; r2; r3; r4; r5; r6; r7; r8; r9] =>
      chainTag ← uint_of 8 r0; blockRef ← uint_of 64 r1; expiration ← uint_of 32 r2;
      clauses ← clauses_of r3; coef ← uint_of 8 r4; gas ← uint_of 64 r5;
      dependsOn ← opt_of 32 r6; nonce ← uint_of 64 r7; res ← reserved_DecodeRLP r8;
      sig ← str_of r9;
      Some (MkLegacy chainTag blockRef expiration clauses coef gas dependsOn nonce res sig)
  | _ => None
  end.

Definition dynamicFee_signingFields (t : dynamicFeeTransaction) : list item :=
  [rlp_num (dChainTag t); rlp_num (dBlockRef t); rlp_num (dExpiration t);
   rlp_list (Clause_EncodeRLP <$> dClauses t); rlp_num (dMaxPriorityFeePerGas t);
   rlp_num (dMaxFeePerGas t); rlp_num (dGas t); rlp_opt 32 (dDependsOn t);
   rlp_num (dNonce t); reserved_EncodeRLP (dReserved t)].

Definition dynamicFee_encode (t : dynamicFeeTransaction) : bytes :=
  rlp_bytes (rlp_list (dynamicFee_signingFields t ++ [rlp_str (dSignature t)])).

Definition dynamicFee_decode (input : bytes) : option dynamicFeeTransaction :=
  i ← rlp_parse input; fields ← list_of i;
  match fields with
  | [r0; r1; r2; r3; r4; r5; r6; r7; r8; r9; r10] =>
      chainTag ← uint_of 8 r0; blockRef ← uint_of 64 r1; expiration ← uint_of 32 r2;
      clauses ← clauses_of r3; prio ← num_of r4; fee ← num_of r5; gas ← uint_of 64 r6;
      dependsOn ← opt_of 32 r7; nonce ← uint_of 64 r8; res ← reserved_DecodeRLP r9;
      sig ← str_of r10;
      Some (MkDynamicFee chainTag blockRef expiration clauses prio fee gas dependsOn nonce
              res sig)
  | _ => None
  end.

Definition encodeTyped (t : dynamicFeeTransaction) : bytes :=
  TypeDynamicFee :: dynamicFee_encode t.

Definition decodeTyped (b : bytes) : result Transaction :=
  match b with
  | [] | [_] => Err (ErrInternal "typed transaction too short")
  | ty :: rest =>
      if ty =? TypeDynamicFee then
        match dynamicFee_decode rest with
        | Some body => Ok (DynamicFee body)
        | None => Err (ErrInternal "rlp")
        end
      else Err (ErrInternal "transaction type not supported")
  end.

Definition MarshalBinary (t : Transaction) : bytes :=
  match t with
  | Legacy t => rlp_bytes (legacy_encode t)
  | DynamicFee t => encodeTyped t
  end.

Definition UnmarshalBinary (b : bytes) : result Transaction :=
  match b with
  | b0 :: _ =>
      if 127 <? b0 then
        match rlp_parse b ≫= legacy_decode with
        | Some data => Ok (Legacy data)
        | None => Err (ErrInternal "rlp")
        end
      else decodeTyped b
  | [] => decodeTyped b
  end.

Definition Tx_EncodeRLP (t : Transaction) : item :=
  match t with
  | Legacy t => legacy_encode t
  | DynamicFee t => rlp_str (encodeTyped t)
  end.

(** A list is a legacy transaction; a string is a typed envelope. *)
Definition Tx_DecodeRLP (i : item) : result Transaction :=
  match list_of i with
  | Some _ =>
      match legacy_decode i with
      | Some body => Ok (Legacy body)
      | None => Err (ErrInternal "rlp")
      end
  | None =>
      match str_of i with
      | Some b => decodeTyped b
      | None => Err (ErrInternal "rlp")
      end
  end.

(** ** Hashes and signers *)
Section signing.
Context `{Crypto}.

Definition rlpHash (fields : list item) : Bytes32 := blake2b (rlp_bytes (rlp_list fields)).
Definition prefixedRlpHash (prefix : Z) (fields : list item) : Bytes32 :=
  blake2b (prefix :: rlp_bytes (rlp_list fields)).

Definition Tx_SigningHash (t : Transaction) : Bytes32 :=
  match t with
  | Legacy t => rlpHash (legacy_signingFields t)
  | DynamicFee t => prefixedRlpHash TypeDynamicFee (dynamicFee_signingFields t)
  end.

Definition validateSignatureLength (t : Transaction) : bool :=
  (length (Tx_Signature t) =? (if IsDelegated (Tx_Features t) then 130 else 65))%nat.

Definition errInvalidSignatureLen : error := ErrInternal "invalid signature length".

Definition Tx_Origin (t : Transaction) : result Address :=
  if negb (validateSignatureLength t) then Err errInvalidSignatureLen else
  match sigToPub (Tx_SigningHash t) (take 65 (Tx_Signature t)) with
  | Some pub => Ok (pubkeyToAddress pub)
  | None => Err (ErrInternal "recovery failed")
  end.

Definition DelegatorSigningHash (t : Transaction) (origin : Address) : Bytes32 :=
  blake2b (be 32 (Tx_SigningHash t) ++ be 20 origin).

(** The transaction id; the zero hash when the origin is not available. *)
Definition Tx_ID (t : Transaction) : Bytes32 :=
  match Tx_Origin t with
  | Ok origin => blake2b (be 32 (Tx_SigningHash t) ++ be 20 origin)
  | Err _ => 0
  end.

Definition Tx_Delegator (t : Transaction) : result (option Address) :=
  if negb (validateSignatureLength t) then Err errInvalidSignatureLen else
  if negb (IsDelegated (Tx_Features t)) then Ok None else
  origin ← Tx_Origin t;
  match sigToPub (DelegatorSigningHash t origin) (drop 65 (Tx_Signature t)) with
  | Some pub => Ok (Some (pubkeyToAddress pub))
  | None => Err (ErrInternal "recovery failed")
  end.

Definition Sign (pk : Z) (t : Transaction) : Transaction :=
  WithSignature (sign pk (Tx_SigningHash t)) t.

Definition SignDelegated (originPK delegatorPK : Z) (t : Transaction) : result Transaction :=
  if negb (IsDelegated (Tx_Features t))
  then Err (ErrInternal "transaction delegated feature is not enabled") else
  let originSig := sign originPK (Tx_SigningHash t) in
  let origin := pubkeyToAddress (pubOf originPK) in
  let dSig := sign delegatorPK (DelegatorSigningHash t origin) in
  Ok (WithSignature (originSig ++ dSig) t).

(** ** Proved work *)
Definition hashWithoutNonce (t : legacyTransaction) (origin : Address) : Bytes32 :=
  rlpHash [rlp_num (lChainTag t); rlp_num (lBlockRef t); rlp_num (lExpiration t);
    rlp_list (Clause_EncodeRLP <$> lClauses t); rlp_num (lGasPriceCoef t);
    rlp_num (lGas t); rlp_opt 32 (lDependsOn t); reserved_EncodeRLP (lReserved t);
    rlp_fixed 20 origin].

(** A hash of zero would divide by zero. *)
Definition evaluateWork (t : legacyTransaction) (origin : Address) (nonce : Z) : result Z :=
  let r := blake2b (be 32 (hashWithoutNonce t origin) ++ be 8 nonce) in
  if r =? 0 then Err (ErrPanic "division by zero") else Ok ((2 ^ 256 - 1) / r).

Definition UnprovedWork (t : Transaction) : result Z :=
  match t with
  | DynamicFee _ => Ok 0
  | Legacy l =>
      match Tx_Origin t with
      | Err _ => Ok 0
      | Ok origin => evaluateWork l origin (lNonce l)
      end
  end.

Definition ProvedWork (t : Transaction) (headBlockNum : Z) (getBlockID : Z → result Bytes32)
    : result Z :=
  match t with
  | DynamicFee _ => Ok 0
  | Legacy _ =>
      let ref := Tx_BlockRef t in
      let refNum := BlockRef_Number ref in
      if headBlockNum <=? refNum then Ok 0 else
      let delay := headBlockNum -u32 refNum in
      if MaxTxWorkDelay <? delay then Ok 0 else
      id ← getBlockID refNum;
      if bool_decide (take 8 (be 32 id) = ref) then UnprovedWork t else Ok 0
  end.
End signing.
End tx.
