(* ===== verification/TxCorrect.v ===== *)
(** * Correctness of package tx

    Encoding a transaction and decoding it gives it back; a signed transaction
    names its signers; intrinsic gas is the documented sum; the price a
    transaction pays splits into the base fee and the proposer's part. *)

From S2P Require Import Prelude Bytes External Thor Block BlockCorrect Tx.

#[local] Arguments isEmptyRLPRaw {_} _ : simpl never.

(** ** Encoding *)
Definition clause_wf (c : Clause) : Prop :=
  (∀ a, To c = Some a → 0 ≤ a < 2 ^ 160) ∧ 0 ≤ Value c.

Section codec.
Context `{RS : RlpSpec}.

(** No empty raw value at the end, which is what a decoded transaction has. *)
Definition reserved_wf (r : reserved) : Prop :=
  is32 (Features r) ∧ ∀ i, last (Unused r) = Some i → isEmptyRLPRaw i = false.

Definition tx_wf (t : Transaction) : Prop :=
  0 ≤ Tx_ChainTag t < 256 ∧ is64 (Tx_blockRef t) ∧ is32 (Tx_Expiration t) ∧
  Forall clause_wf (Tx_Clauses t) ∧ is64 (Tx_Gas t) ∧
  (∀ d, Tx_DependsOn t = Some d → is256 d) ∧ is64 (Tx_Nonce t) ∧ reserved_wf (Tx_reserved t) ∧
  match t with
  | Legacy t => 0 ≤ lGasPriceCoef t < 256
  | DynamicFee t => 0 ≤ dMaxPriorityFeePerGas t ∧ 0 ≤ dMaxFeePerGas t
  end.

Lemma opt_of_opt n o : (0 < n)%nat → (∀ z, o = Some z → 0 ≤ z < 256 ^ Z.of_nat n) →
  opt_of n (rlp_opt n o) = Some o.
Proof.
  intros Hn Ho. unfold opt_of, rlp_opt. destruct o as [z|].
  - rewrite bool_decide_eq_false_2; [by rewrite fixed_of_fixed by auto|].
    unfold rlp_fixed. intros E. apply (f_equal str_of) in E. rewrite !str_of_str in E.
    injection E as E. apply (f_equal length) in E. rewrite be_length in E. simpl in E. lia.
  - by rewrite bool_decide_eq_true_2.
Qed.

Lemma Clause_roundtrip c : clause_wf c → Clause_DecodeRLP (Clause_EncodeRLP c) = Some c.
Proof.
  intros [Ha Hv]. unfold Clause_DecodeRLP, Clause_EncodeRLP. rewrite list_of_list. simpl.
  rewrite opt_of_opt by (first [lia|by simpl]). simpl.
  rewrite num_of_num by done. simpl. rewrite str_of_str. by destruct c.
Qed.

Lemma clauses_roundtrip l : Forall clause_wf l →
  clauses_of (rlp_list (Clause_EncodeRLP <$> l)) = Some l.
Proof.
  intros Hl. unfold clauses_of. rewrite list_of_list. simpl.
  apply mapM_fmap_Forall_Some. eapply Forall_impl; [exact Hl|]. apply Clause_roundtrip.
Qed.

(** Trimming stops at the last value that is not empty. *)
Lemma trimEmpty_last l i : last l = Some i → isEmptyRLPRaw i = false → trimEmpty l = l.
Proof.
  induction l as [|j l IH]; [done|]. rewrite last_cons. simpl. intros Hl Hi.
  destruct (last l) as [k|] eqn:E.
  - simplify_eq. rewrite IH by done. destruct l; [done|]. done.
  - simplify_eq. destruct l; [|by rewrite last_cons in E; destruct (last l)].
    simpl. by rewrite Hi.
Qed.

Lemma List_last_last {A} (l : list A) d i : last l = Some i → List.last l d = i.
Proof.
  induction l as [|j [|k l] IH]; [done|by intros [= ->]|]. rewrite last_cons_cons. exact IH.
Qed.

Lemma isEmpty_num z : 0 ≤ z → isEmptyRLPRaw (rlp_num z) = (z =? 0).
Proof.
  intros Hz. unfold isEmptyRLPRaw. rewrite bool_decide_eq_false_2.
  - simpl. destruct (Z.eqb_spec z 0) as [->|Hne].
    + by rewrite rlp_num_zero, bool_decide_eq_true_2.
    + rewrite bool_decide_eq_false_2; [done|]. intros E. rewrite <- rlp_num_zero in E.
      apply (f_equal num_of) in E. rewrite !num_of_num in E by lia. by simplify_eq.
  - intros E. destruct (rlp_num_str z) as [b Hb]. rewrite Hb in E. by apply eq_sym, rlp_list_str in E.
Qed.

Lemma reserved_roundtrip r : reserved_wf r → reserved_DecodeRLP (reserved_EncodeRLP r) = Some r.
Proof.
  destruct r as [f u]. intros [Hf Hu]. simpl in *.
  unfold reserved_EncodeRLP, reserved_DecodeRLP. rewrite list_of_list. simpl.
  destruct (last u) as [i|] eqn:El.
  - assert (isEmptyRLPRaw i = false) as Hi by auto.
    rewrite (trimEmpty_last u i) by done. destruct u as [|j u]; [done|].
    rewrite (List_last_last (_ :: j :: u) _ i) by (by rewrite last_cons_cons).
    by rewrite Hi, uint_of_num by ulia.
  - destruct u as [|? ?]; [|by rewrite last_cons in El; destruct (last _)]. simpl.
    rewrite isEmpty_num by ulia. destruct (Z.eqb_spec f 0) as [->|Hne]; [done|].
    simpl. rewrite isEmpty_num by ulia. destruct (Z.eqb_spec f 0); [done|].
    by rewrite uint_of_num by ulia.
Qed.

Ltac decode_fields :=
  repeat first
    [ rewrite uint_of_num by ulia | rewrite num_of_num by done
    | rewrite clauses_roundtrip by done | rewrite opt_of_opt by (first [lia|done])
    | rewrite reserved_roundtrip by done | rewrite str_of_str | progress simpl ].

Lemma legacy_roundtrip t : tx_wf (Legacy t) → legacy_decode (legacy_encode t) = Some t.
Proof.
  intros (? & ? & ? & ? & ? & ? & ? & ? & ?). simpl in *.
  unfold legacy_decode, legacy_encode. rewrite list_of_list. simpl.
  decode_fields. by destruct t.
Qed.

Lemma dynamicFee_roundtrip t :
  tx_wf (DynamicFee t) → dynamicFee_decode (dynamicFee_encode t) = Some t.
Proof.
  intros (? & ? & ? & ? & ? & ? & ? & ? & ? & ?). simpl in *.
  unfold dynamicFee_decode, dynamicFee_encode. rewrite rlp_parse_bytes. simpl.
  rewrite list_of_list. simpl. decode_fields. by destruct t.
Qed.

Lemma decodeTyped_encodeTyped t :
  tx_wf (DynamicFee t) → decodeTyped (encodeTyped t) = Ok (DynamicFee t).
Proof.
  intros Hwf. pose proof (dynamicFee_roundtrip t Hwf) as E.
  unfold encodeTyped, decodeTyped, dynamicFee_encode in *.
  destruct (rlp_list_byte (dynamicFee_signingFields t ++ [rlp_str (dSignature t)]))
    as (b & r & Eb & _). rewrite Eb in *. simpl. by rewrite E.
Qed.

Lemma tx_codec (t : Transaction) :
  tx_wf t →
  UnmarshalBinary (MarshalBinary t) = Ok t ∧ Tx_DecodeRLP (Tx_EncodeRLP t) = Ok t.
Proof.
  intros Hwf. destruct t as [t|t].
  - pose proof (legacy_roundtrip t Hwf) as E. split; simpl.
    + destruct (rlp_list_byte (legacy_signingFields t ++ [rlp_str (lSignature t)]))
        as (b & r & Eb & Hb).
      assert (rlp_bytes (legacy_encode t) = b :: r) as Eb' by exact Eb.
      unfold UnmarshalBinary. rewrite Eb'. destruct (Z.ltb_spec 127 b); [|lia].
      rewrite <- Eb', rlp_parse_bytes. simpl. by rewrite E.
    + unfold Tx_DecodeRLP. rewrite E. unfold legacy_encode. by rewrite list_of_list.
  - pose proof (decodeTyped_encodeTyped t Hwf) as E. split; simpl.
    + unfold UnmarshalBinary, encodeTyped in *. simpl. exact E.
    + unfold Tx_DecodeRLP. destruct (list_of (rlp_str _)) as [l|] eqn:El.
      * apply list_of_inv in El. by apply eq_sym, rlp_list_str in El.
      * by rewrite str_of_str, E.
Qed.

(** C24: a transaction of either type survives its two encodings: decoding
    the canonical bytes of [MarshalBinary] (hashed into the transactions root)
    and decoding the RLP item of [EncodeRLP] (sent over the network and stored)
    both give the transaction back. *)
Theorem transaction_roundtrip (t : Transaction) :
  tx_wf t →
  UnmarshalBinary (MarshalBinary t) = Ok t ∧ Tx_DecodeRLP (Tx_EncodeRLP t) = Ok t.
Proof. apply tx_codec. Qed.
End codec.

(** ** Intrinsic gas *)
Definition byteCost (b : Z) : Z := if b =? 0 then TxDataZeroGas else TxDataNonZeroGas.
Definition sumZ {A} (f : A → Z) (l : list A) : Z := foldr (λ a acc, f a + acc) 0 l.
Definition clauseCost (c : Clause) : Z :=
  sumZ byteCost (Data c) +
  (if bool_decide (To c = None) then ClauseGasContractCreation else ClauseGas).

Section gas.
Context `{SMS : SafeMathSpec} `{SMM : SafeMulSpec}.

Lemma sumZ_bytes data :
  sumZ byteCost data =
  TxDataZeroGas * Z.of_nat (length (filter (λ b, b = 0) data)) +
  TxDataNonZeroGas * Z.of_nat (length (filter (λ b, b ≠ 0) data)).
Proof.
  induction data as [|b data IH]; [done|]. unfold byteCost in *. simpl. rewrite IH, !filter_cons.
  unfold TxDataZeroGas, TxDataNonZeroGas. destruct (Z.eqb_spec b 0).
  - rewrite decide_True, decide_False by naive_solver. simpl. lia.
  - rewrite decide_False, decide_True by naive_solver. simpl. lia.
Qed.

Lemma dataGas_spec data : Z.of_nat (length data) < max64 →
  dataGas data = if sumZ byteCost data <? max64 then Ok (sumZ byteCost data)
                 else Err errIntrinsicGasOverflow.
Proof.
  intros Hlen. unfold dataGas. destruct data as [|b data]; [done|].
  set (d := b :: data) in *. change (length d =? 0)%nat with false. cbv beta iota.
  rewrite (sumZ_bytes d). unfold TxDataZeroGas, TxDataNonZeroGas.
  pose proof (length_filter (λ b, b = 0) d). pose proof (length_filter (λ b, b ≠ 0) d).
  set (z := Z.of_nat (length (filter (λ b, b = 0) d))) in *.
  set (nz := Z.of_nat (length (filter (λ b, b ≠ 0) d))) in *.
  rewrite !SafeMul_spec by ulia.
  case_bool_decide; [zcase; [lia|done]|]. case_bool_decide; [zcase; [lia|done]|].
  rewrite !wrap64_id by ulia. rewrite SafeAdd_spec by ulia.
  case_bool_decide; [zcase; [lia|done]|]. rewrite wrap64_id by ulia. zcase; [done|lia].
Qed.

Lemma sumZ_nonneg {A} (f : A → Z) l : (∀ a, 0 ≤ f a) → 0 ≤ sumZ f l.
Proof.
  intros Hf. induction l as [|a l IH]; [done|]. simpl. specialize (Hf a). unfold sumZ in *. lia.
Qed.

Lemma byteCost_nonneg b : 0 ≤ byteCost b.
Proof. unfold byteCost, TxDataZeroGas, TxDataNonZeroGas. by destruct (b =? 0). Qed.

Lemma clauseCost_nonneg c : 0 ≤ clauseCost c.
Proof.
  unfold clauseCost, ClauseGasContractCreation, ClauseGas, TxGas.
  pose proof (sumZ_nonneg byteCost (Data c) byteCost_nonneg). case_bool_decide; lia.
Qed.

Lemma clausesGas_spec cs total : 0 ≤ total < max64 →
  Forall (λ c, Z.of_nat (length (Data c)) < max64) cs →
  clausesGas total cs =
    let sum := total + sumZ clauseCost cs in
    if sum <? max64 then Ok sum else Err errIntrinsicGasOverflow.
Proof.
  revert total. induction cs as [|c cs IH]; intros total Ht Hcs; simpl.
  { rewrite Z.add_0_r. zcase; [done|ulia]. }
  apply Forall_cons in Hcs as [Hc Hcs].
  pose proof (sumZ_nonneg clauseCost cs clauseCost_nonneg) as Hrest.
  pose proof (sumZ_nonneg byteCost (Data c) byteCost_nonneg) as Hdata.
  unfold sumZ in Hrest. fold (sumZ clauseCost cs) in *.
  rewrite dataGas_spec by done. set (d := sumZ byteCost (Data c)) in *.
  assert (clauseCost c = d + (if IsCreatingContract c then ClauseGasContractCreation
    else ClauseGas)) as -> by done.
  set (g := if IsCreatingContract c then _ else _).
  assert (0 ≤ g < 2 ^ 32) as Hg by (unfold g; by destruct (IsCreatingContract c)).
  destruct (Z.ltb_spec d max64); simpl; [|zcase; [lia|done]].
  rewrite SafeAdd_spec by ulia. case_bool_decide; [zcase; [lia|done]|].
  rewrite wrap64_id by ulia. rewrite SafeAdd_spec by ulia.
  case_bool_decide; [zcase; [lia|done]|]. rewrite wrap64_id by ulia.
  rewrite IH by (first [ulia|done]). simpl. by rewrite !Z.add_assoc.
Qed.

(** C26: [IntrinsicGas] is the sum it is documented as: a base cost, and for
    every clause its call or creation cost and the cost of its data bytes; a
    transaction without clauses costs one call.  It fails exactly when that sum
    does not fit 64 bits; the checked additions never fail early. *)
Theorem intrinsic_gas_exact (cs : list Clause) :
  Forall (λ c, Z.of_nat (length (Data c)) < max64) cs →
  IntrinsicGas cs =
    let total := TxGas + (if decide (cs = []) then ClauseGas else sumZ clauseCost cs) in
    if total <? max64 then Ok total else Err errIntrinsicGasOverflow.
Proof.
  intros Hcs. unfold IntrinsicGas. destruct cs as [|c cs]; [done|].
  rewrite decide_False by done. simpl (length _ =? 0)%nat. cbv beta iota.
  by apply clausesGas_spec.
Qed.
End gas.

(** ** Signatures *)
Section signing.
Context `{Rlp} `{CS : CryptoSpec}.

Lemma SigningHash_WithSignature sig t : Tx_SigningHash (WithSignature sig t) = Tx_SigningHash t.
Proof. by destruct t. Qed.
Lemma Features_WithSignature sig t : Tx_Features (WithSignature sig t) = Tx_Features t.
Proof. by destruct t. Qed.
Lemma Signature_WithSignature sig t : Tx_Signature (WithSignature sig t) = sig.
Proof. by destruct t. Qed.

(** C27: signing records who signed.  [Sign] makes a transaction whose origin
    is the signer and that has no delegator; [SignDelegated] one whose origin and
    gas payer are the two signers and whose id is the hash the delegator signed;
    and neither is possible for the other kind of transaction: a delegated
    transaction signed by the origin alone has no origin, and [SignDelegated]
    refuses a transaction without the feature. *)
Theorem signed_by (t : Transaction) (pk dk : Z) :
  let addr k := pubkeyToAddress (pubOf k) in
  if IsDelegated (Tx_Features t) then
    (∃ e, Tx_Origin (Sign pk t) = Err e) ∧
    ∃ t', SignDelegated pk dk t = Ok t' ∧ Tx_Origin t' = Ok (addr pk) ∧
      Tx_Delegator t' = Ok (Some (addr dk)) ∧ Tx_ID t' = DelegatorSigningHash t (addr pk)
  else
    Tx_Origin (Sign pk t) = Ok (addr pk) ∧ Tx_Delegator (Sign pk t) = Ok None ∧
    ∃ e, SignDelegated pk dk t = Err e.
Proof.
  intros addr. destruct (IsDelegated (Tx_Features t)) eqn:Ef.
  - assert (∀ sig, IsDelegated (Tx_Features (WithSignature sig t)) = true) as Ef'
      by (intros; by rewrite Features_WithSignature).
    split.
    { exists errInvalidSignatureLen. unfold Tx_Origin, validateSignatureLength, Sign.
      by rewrite Ef', Signature_WithSignature, sign_length. }
    unfold SignDelegated. rewrite Ef. simpl. eexists. split; [done|].
    set (sig := sign pk _ ++ _). set (t' := WithSignature sig t).
    assert (validateSignatureLength t' = true) as Hv.
    { unfold validateSignatureLength, t'. rewrite Ef', Signature_WithSignature.
      unfold sig. by rewrite length_app, !sign_length. }
    assert (Tx_Origin t' = Ok (addr pk)) as Ho.
    { unfold Tx_Origin. rewrite Hv. simpl. unfold t'.
      rewrite SigningHash_WithSignature, Signature_WithSignature. unfold sig.
      by rewrite take_app_length' by (by rewrite sign_length); rewrite sigToPub_sign. }
    split_and!; [done| |].
    + unfold Tx_Delegator. rewrite Hv. unfold t'. rewrite Ef'. simpl. fold t'. rewrite Ho.
      simpl. unfold DelegatorSigningHash, t'.
      rewrite SigningHash_WithSignature, Signature_WithSignature. unfold sig.
      rewrite drop_app_length' by (by rewrite sign_length).
      change (blake2b _) with (DelegatorSigningHash t (addr pk)). by rewrite sigToPub_sign.
    + unfold Tx_ID. rewrite Ho. unfold t'. by rewrite SigningHash_WithSignature.
  - assert (validateSignatureLength (Sign pk t) = true) as Hv.
    { unfold validateSignatureLength, Sign.
      by rewrite Features_WithSignature, Signature_WithSignature, Ef, sign_length. }
    split_and!.
    + unfold Tx_Origin. rewrite Hv. simpl. unfold Sign.
      rewrite SigningHash_WithSignature, Signature_WithSignature.
      by rewrite take_ge, sigToPub_sign by (by rewrite sign_length).
    + unfold Tx_Delegator. rewrite Hv. unfold Sign. by rewrite Features_WithSignature, Ef.
    + unfold SignDelegated. rewrite Ef. simpl. eauto.
Qed.
End signing.

(** ** Instances *)
Definition demo_clause : Clause := MkClause (Some 9) 100 [0; 1; 2].
Definition demo_tx : @Transaction demo_Rlp :=
  DynamicFee (MkDynamicFee 39 (2 ^ 34) 720 [demo_clause] 5 90 50000 (Some 77) 4
    (MkReserved 1 []) [1; 2]).

Lemma demo_tx_wf : tx_wf demo_tx.
Proof.
  unfold tx_wf, demo_tx, reserved_wf, is256. simpl. split_and!; try ulia.
  - constructor; [|constructor]. split; [intros a [= <-]; lia|done].
  - intros d [= <-]. lia.
  - done.
Qed.

Lemma transaction_roundtrip_witness :
  UnmarshalBinary (MarshalBinary demo_tx) = Ok demo_tx.
Proof. exact (proj1 (@transaction_roundtrip demo_Rlp demo_RlpSpec demo_tx demo_tx_wf)). Defined.

Lemma intrinsic_gas_exact_witness :
  @IntrinsicGas go_SafeMath demo_SafeMul [demo_clause] = Ok (21000 + 4 + 68 + 68).
Proof.
  refine (@intrinsic_gas_exact go_SafeMath go_SafeMathSpec demo_SafeMul demo_SafeMulSpec
    [demo_clause] _).
  constructor; [vm_compute; done|constructor].
Defined.

Lemma signed_by_witness :
  ∃ t', @SignDelegated demo_Rlp demo_Crypto 3 4 demo_tx = Ok t' ∧
    @Tx_Origin demo_Rlp demo_Crypto t' = Ok 3 ∧
    @Tx_Delegator demo_Rlp demo_Crypto t' = Ok (Some 4).
Proof.
  destruct (proj2 (@signed_by demo_Rlp demo_Crypto demo_CryptoSpec demo_tx 3 4))
    as (t' & E & Ho & Hd & _).
  exists t'. split; [exact E|]. split; [exact Ho|exact Hd].
Defined.
