(* ===== verification/Receipts.v ===== *)
(** * Receipts

    [src/tx/receipt.go], [event.go] and [transfer.go]: the encodings of a receipt,
    plain for a legacy transaction and behind its type byte otherwise, and their
    round trips. *)

From S2P Require Import Prelude Bytes External Thor Block BlockCorrect Tx TxCorrect.

Section receipts.
Context `{Rlp}.

Definition Event_item (e : Event) : item :=
  rlp_list [rlp_fixed 20 (evAddress e); rlp_list (map (rlp_fixed 32) (evTopics e)); rlp_str (evData e)].
Definition Transfer_item (t : Transfer) : item :=
  rlp_list [rlp_fixed 20 (trSender t); rlp_fixed 20 (trRecipient t); rlp_num (trAmount t)].
Definition Output_item (o : Output) : item :=
  rlp_list [rlp_list (map Event_item (outEvents o)); rlp_list (map Transfer_item (outTransfers o))].

(** [receiptRLP]: everything but the type. *)
Definition receiptRLP (r : Receipt) : item :=
  rlp_list [rlp_num (rcGasUsed r); rlp_fixed 20 (rcGasPayer r); rlp_num (rcPaid r); rlp_num (rcReward r);
            rlp_bool (rcReverted r); rlp_list (map Output_item (rcOutputs r))].

Definition Event_of (i : item) : option Event :=
  fields ← list_of i;
  match fields with
  | [r0; r1; r2] =>
      address ← fixed_of 20 r0; l ← list_of r1; topics ← mapM (fixed_of 32) l; data ← str_of r2;
      Some (MkEvent address topics data)
  | _ => None
  end.
Definition Transfer_of (i : item) : option Transfer :=
  fields ← list_of i;
  match fields with
  | [r0; r1; r2] =>
      sender ← fixed_of 20 r0; recipient ← fixed_of 20 r1; amount ← num_of r2;
      Some (MkTransfer sender recipient amount)
  | _ => None
  end.
Definition Output_of (i : item) : option Output :=
  fields ← list_of i;
  match fields with
  | [r0; r1] =>
      evs ← list_of r0; events ← mapM Event_of evs; trs ← list_of r1; transfers ← mapM Transfer_of trs;
      Some (MkOutput events transfers)
  | _ => None
  end.

(** Decoding [receiptRLP] and [setFromRLP]. *)
Definition setFromRLP (ty : Z) (i : item) : option Receipt :=
  fields ← list_of i;
  match fields with
  | [r0; r1; r2; r3; r4; r5] =>
      gasUsed ← uint_of 64 r0; gasPayer ← fixed_of 20 r1; paid ← num_of r2; reward ← num_of r3;
      reverted ← bool_of r4; outs ← list_of r5; outputs ← mapM Output_of outs;
      Some (MkReceipt ty gasUsed gasPayer paid reward reverted outputs)
  | _ => None
  end.

Definition fromRLP (ty : Z) (i : option item) : result Receipt :=
  match i ≫= setFromRLP ty with Some r => Ok r | None => Err (ErrInternal "rlp") end.

Definition errShortTypedReceipt : error := ErrInternal "typed receipt too short".
Definition errTypeNotSupported : error := ErrInternal "transaction type not supported".

Definition Receipt_encodeTyped (r : Receipt) : bytes := rcType r :: rlp_bytes (receiptRLP r).

Definition Receipt_MarshalBinary (r : Receipt) : bytes :=
  if rcType r =? TypeLegacy then rlp_bytes (receiptRLP r) else Receipt_encodeTyped r.

Definition Receipt_decodeTyped (b : bytes) : result Receipt :=
  match b with
  | [] | [_] => Err errShortTypedReceipt
  | ty :: rest =>
      if ty =? TypeDynamicFee then fromRLP ty (rlp_parse rest) else Err errTypeNotSupported
  end.

Definition Receipt_UnmarshalBinary (b : bytes) : result Receipt :=
  match b with
  | b0 :: _ => if 127 <? b0 then fromRLP TypeLegacy (rlp_parse b) else Receipt_decodeTyped b
  | [] => Receipt_decodeTyped b
  end.

Definition Receipt_EncodeRLP (r : Receipt) : item :=
  if rcType r =? TypeLegacy then receiptRLP r else rlp_str (Receipt_encodeTyped r).

(** A byte below 0x80 that stands for itself is not a receipt. *)
Definition Receipt_DecodeRLP (i : item) : result Receipt :=
  match list_of i with
  | Some _ => fromRLP TypeLegacy (Some i)
  | None =>
      match str_of i with
      | None => Err (ErrInternal "rlp")
      | Some [] => Err errShortTypedReceipt
      | Some (ty :: rest) =>
          if (length rest =? 0)%nat && (ty <? 128) then Err errShortTypedReceipt else
          if ty =? TypeDynamicFee then fromRLP ty (rlp_parse rest) else Err errTypeNotSupported
      end
  end.
End receipts.

(** ** Round trips *)
Section codec.
Context `{RS : RlpSpec}.

Definition event_wf (e : Event) : Prop := 0 ≤ evAddress e < 2 ^ 160 ∧ Forall is256 (evTopics e).
Definition transfer_wf (t : Transfer) : Prop :=
  0 ≤ trSender t < 2 ^ 160 ∧ 0 ≤ trRecipient t < 2 ^ 160 ∧ 0 ≤ trAmount t.
Definition output_wf (o : Output) : Prop := Forall event_wf (outEvents o) ∧ Forall transfer_wf (outTransfers o).

Definition receipt_wf (r : Receipt) : Prop :=
  (rcType r = TypeLegacy ∨ rcType r = TypeDynamicFee) ∧ is64 (rcGasUsed r) ∧ 0 ≤ rcGasPayer r < 2 ^ 160 ∧
  0 ≤ rcPaid r ∧ 0 ≤ rcReward r ∧ Forall output_wf (rcOutputs r).

Lemma mapM_map {A B} (f : A → B) (g : B → option A) (P : A → Prop) l :
  (∀ x, P x → g (f x) = Some x) → Forall P l → mapM g (map f l) = Some l.
Proof.
  intros Hg Hl. apply (mapM_fmap_Forall_Some g f). eapply Forall_impl; [exact Hl|]. exact Hg.
Qed.

Lemma Event_roundtrip e : event_wf e → Event_of (Event_item e) = Some e.
Proof.
  intros [Ha Ht]. unfold Event_of, Event_item. rewrite list_of_list. cbn [mbind option_bind].
  rewrite fixed_of_fixed by (simpl; lia). cbn [mbind option_bind]. rewrite list_of_list. cbn [mbind option_bind].
  rewrite (mapM_map _ _ is256) by (try done; intros; apply fixed_of_fixed; unfold is256 in *; simpl; lia).
  cbn [mbind option_bind]. rewrite str_of_str. by destruct e.
Qed.

Lemma Transfer_roundtrip t : transfer_wf t → Transfer_of (Transfer_item t) = Some t.
Proof.
  intros (Hs & Hr & Ha). unfold Transfer_of, Transfer_item. rewrite list_of_list. cbn [mbind option_bind].
  rewrite !fixed_of_fixed by (simpl; lia). cbn [mbind option_bind].
  rewrite num_of_num by done. by destruct t.
Qed.

Lemma Output_roundtrip o : output_wf o → Output_of (Output_item o) = Some o.
Proof.
  intros [He Ht]. unfold Output_of, Output_item. rewrite !list_of_list. cbn [mbind option_bind].
  rewrite !list_of_list. cbn [mbind option_bind].
  rewrite (mapM_map _ _ event_wf) by (try done; apply Event_roundtrip). cbn [mbind option_bind].
  rewrite (mapM_map _ _ transfer_wf) by (try done; apply Transfer_roundtrip). by destruct o.
Qed.

Lemma receiptRLP_roundtrip r : receipt_wf r → fromRLP (rcType r) (Some (receiptRLP r)) = Ok r.
Proof.
  intros (_ & Hg & Hp & Hpaid & Hrew & Ho). unfold fromRLP, receiptRLP. cbn [mbind option_bind]. unfold setFromRLP.
  rewrite list_of_list. cbn [mbind option_bind]. rewrite uint_of_num by ulia. cbn [mbind option_bind].
  rewrite fixed_of_fixed by (simpl; lia). cbn [mbind option_bind].
  rewrite !num_of_num by done. cbn [mbind option_bind]. rewrite bool_of_bool. cbn [mbind option_bind].
  rewrite list_of_list. cbn [mbind option_bind]. rewrite (mapM_map _ _ output_wf) by (try done; apply Output_roundtrip). by destruct r.
Qed.

(** C25: Receipts of both transaction types survive encoding and decoding, in
    the binary form that is hashed into the receipts root and in the form stored
    inside a list. *)
Theorem receipt_roundtrip (r : Receipt) : receipt_wf r →
  Receipt_UnmarshalBinary (Receipt_MarshalBinary r) = Ok r ∧ Receipt_DecodeRLP (Receipt_EncodeRLP r) = Ok r.
Proof.
  intros Hwf. pose proof (receiptRLP_roundtrip r Hwf) as E.
  destruct (rlp_list_byte [rlp_num (rcGasUsed r); rlp_fixed 20 (rcGasPayer r); rlp_num (rcPaid r);
    rlp_num (rcReward r); rlp_bool (rcReverted r); rlp_list (map Output_item (rcOutputs r))]) as (b & rest & Eb & Hb).
  change (rlp_bytes (receiptRLP r) = b :: rest) in Eb.
  unfold Receipt_MarshalBinary, Receipt_EncodeRLP. destruct (proj1 Hwf) as [Et|Et]; rewrite Et in *.
  - rewrite Z.eqb_refl. split.
    + unfold Receipt_UnmarshalBinary. rewrite Eb. destruct (Z.ltb_spec 127 b); [|lia].
      by rewrite <- Eb, rlp_parse_bytes.
    + unfold Receipt_DecodeRLP. unfold receiptRLP at 1. by rewrite list_of_list.
  - change (TypeDynamicFee =? TypeLegacy) with false. unfold Receipt_encodeTyped. rewrite Et. split.
    + unfold Receipt_UnmarshalBinary. change (127 <? TypeDynamicFee) with false. unfold Receipt_decodeTyped.
      rewrite Eb, Z.eqb_refl. by rewrite <- Eb, rlp_parse_bytes.
    + unfold Receipt_DecodeRLP. destruct (list_of (rlp_str _)) as [l|] eqn:El;
        [apply list_of_inv in El; by apply eq_sym, rlp_list_str in El|].
      rewrite str_of_str, Z.eqb_refl, rlp_parse_bytes. rewrite Eb. simpl. exact E.
Qed.
End codec.

#[local] Existing Instances demo_Rlp demo_RlpSpec.
Definition demo_typed_receipt : Receipt :=
  MkReceipt TypeDynamicFee 21000 7 100 30 false
    [MkOutput [MkEvent 9 [1; 2] [3; 4]] [MkTransfer 7 9 1000]].

Lemma receipt_roundtrip_witness :
  Receipt_UnmarshalBinary (Receipt_MarshalBinary demo_typed_receipt) = Ok demo_typed_receipt.
Proof.
  refine (proj1 (receipt_roundtrip demo_typed_receipt _)).
  split; [by right|]. do 4 (split; [vm_compute; repeat split; discriminate|]).
  repeat constructor; vm_compute; try reflexivity; discriminate.
Defined.
