(* ===== verification/StackedMap.v ===== *)
(** * Package stackedmap: a map with revisions

    [src/stackedmap/stackedmap.go]: maps in a stack, each with a journal of what
    was put into it, and for every key the revisions that hold it.  The
    specification is a stack of journals: a key has the last value put in the
    topmost journal, a checkpoint copies the journal and reverting drops it. *)

From S2P Require Import Prelude.

Section model.
Context {K V : Type} `{Countable K}.

Record level := MkLevel { kvs : gmap K V; journal : list (K * V) }.
Definition newLevel : level := MkLevel ∅ [].

(** The top of a stack is its last element. *)
Record StackedMap := MkStackedMap { mapStack : list level; keyRevisionMap : gmap K (list nat) }.

Definition stack_pop {A} (s : list A) : result (list A) :=
  match s with [] => Err (ErrPanic "slice bounds out of range") | _ => Ok (removelast s) end.
Definition stack_top {A} (s : list A) : result A :=
  match last s with None => Err (ErrPanic "index out of range") | Some a => Ok a end.

Definition sm_New : StackedMap := MkStackedMap [newLevel] ∅.
Definition Depth (sm : StackedMap) : nat := length (mapStack sm).

Definition Push (sm : StackedMap) : nat * StackedMap :=
  (length (mapStack sm), MkStackedMap (mapStack sm ++ [newLevel]) (keyRevisionMap sm)).

(** The keys of a map are visited in an arbitrary order. *)
Fixpoint dropRevisions (keys : list K) (m : gmap K (list nat)) : result (gmap K (list nat)) :=
  match keys with
  | [] => Ok m
  | key :: keys =>
      match m !! key with
      | None => Err (ErrPanic "nil pointer dereference")
      | Some revs =>
          revs ← stack_pop revs;
          dropRevisions keys (if (length revs =? 0)%nat then delete key m else <[key := revs]> m)
      end
  end.

Definition Pop (sm : StackedMap) : result StackedMap :=
  top ← stack_top (mapStack sm);
  revs ← dropRevisions (map_to_list (kvs top)).*1 (keyRevisionMap sm);
  s ← stack_pop (mapStack sm);
  Ok (MkStackedMap s revs).

Fixpoint popTo (fuel : nat) (depth : nat) (sm : StackedMap) : result StackedMap :=
  if (depth <? length (mapStack sm))%nat then
    match fuel with
    | O => Err ErrFuel
    | S fuel => sm ← Pop sm; popTo fuel depth sm
    end
  else Ok sm.
Definition PopTo (depth : nat) (sm : StackedMap) : result StackedMap :=
  popTo (length (mapStack sm)) depth sm.

(** [None] where the source of the map is asked. *)
Definition sm_Get (key : K) (sm : StackedMap) : result (option V) :=
  match keyRevisionMap sm !! key with
  | None => Ok None
  | Some revs =>
      rev ← stack_top revs;
      match mapStack sm !! rev with
      | None => Err (ErrPanic "index out of range")
      | Some lvl => Ok (kvs lvl !! key)
      end
  end.

Definition Put (key : K) (value : V) (sm : StackedMap) : result StackedMap :=
  top ← stack_top (mapStack sm);
  s ← stack_pop (mapStack sm);
  let rev := (length (mapStack sm) - 1)%nat in
  revs ← match keyRevisionMap sm !! key with
         | None => Ok [rev]
         | Some revs => r ← stack_top revs; Ok (if (r =? rev)%nat then revs else revs ++ [rev])
         end;
  Ok (MkStackedMap (s ++ [MkLevel (<[key := value]> (kvs top)) (journal top ++ [(key, value)])])
        (<[key := revs]> (keyRevisionMap sm))).

(** The entries that [Journal] hands to its callback, in order. *)
Definition Journal (sm : StackedMap) : list (K * V) := mapStack sm ≫= journal.
End model.
Arguments level K V {_ _}.
Arguments StackedMap K V {_ _}.

(** ** The specification *)
Section spec.
Context {K V : Type} `{Countable K}.
Implicit Types (J : list (K * V)) (l : list (level K V)) (sm : StackedMap K V).

(** The map a journal leads to. *)
Definition replay J : gmap K V := foldl (λ m kv, <[kv.1 := kv.2]> m) ∅ J.

Lemma replay_snoc J k v : replay (J ++ [(k, v)]) = <[k := v]> (replay J).
Proof. unfold replay. by rewrite foldl_app. Qed.

Lemma replay_app J1 J2 : replay (J1 ++ J2) = replay J2 ∪ replay J1.
Proof.
  induction J2 as [|[k v] J2 IH] using rev_ind; [rewrite app_nil_r; change (replay []) with (∅ : gmap K V); by rewrite (left_id_L ∅ (∪))|].
  rewrite app_assoc, !replay_snoc, IH. by rewrite insert_union_l.
Qed.

(** The journals up to each level, the topmost first. *)
Fixpoint snapshots (acc : list (K * V)) l : list (list (K * V)) :=
  match l with
  | [] => []
  | lv :: l => snapshots (acc ++ journal lv) l ++ [acc ++ journal lv]
  end.

Lemma snapshots_snoc acc l lv :
  snapshots acc (l ++ [lv]) = (acc ++ (l ≫= journal) ++ journal lv) :: snapshots acc l.
Proof.
  revert acc. induction l as [|lv0 l IH]; intros acc; simpl; [done|].
  rewrite IH. simpl. by rewrite <- !app_assoc.
Qed.

Lemma snapshots_length acc l : length (snapshots acc l) = length l.
Proof. revert acc. induction l as [|lv l IH]; intros acc; simpl; [done|]. rewrite length_app, IH. simpl. lia. Qed.

(** The levels that hold a key, from the one numbered [i] on. *)
Fixpoint revisions (key : K) (i : nat) l : list nat :=
  match l with
  | [] => []
  | lv :: l => (if kvs lv !! key is Some _ then [i] else []) ++ revisions key (S i) l
  end.

Lemma revisions_app key i l1 l2 :
  revisions key i (l1 ++ l2) = revisions key i l1 ++ revisions key (i + length l1) l2.
Proof.
  revert i. induction l1 as [|lv l1 IH]; intros i; simpl; [by rewrite Nat.add_0_r|].
  rewrite IH, <- app_assoc. do 2 f_equal. f_equal. lia.
Qed.

Lemma revisions_bound key i l r : r ∈ revisions key i l → (i ≤ r < i + length l)%nat.
Proof.
  revert i. induction l as [|lv l IH]; intros i; simpl; [by intros ?%not_elem_of_nil|].
  intros [Hr|Hr]%elem_of_app.
  - destruct (kvs lv !! key); [apply list_elem_of_singleton in Hr as ->; lia|by apply not_elem_of_nil in Hr].
  - apply IH in Hr. lia.
Qed.

Definition nonempty (r : list nat) : option (list nat) := match r with [] => None | _ => Some r end.

Lemma nonempty_snoc r n : nonempty (r ++ [n]) = Some (r ++ [n]).
Proof. by destruct r. Qed.

(** What the fields say about each other. *)
Record sm_ok sm : Prop := {
  ok_revisions : ∀ key, keyRevisionMap sm !! key = nonempty (revisions key 0 (mapStack sm));
  ok_journals : ∀ lv, lv ∈ mapStack sm → kvs lv = replay (journal lv);
}.

(** [sm] implements the stack of journals [s]. *)
Definition implements sm (s : list (list (K * V))) : Prop := sm_ok sm ∧ s = snapshots [] (mapStack sm).

(** The topmost journal, and the revisions of a key below the top. *)
Lemma implements_top sm J s : implements sm (J :: s) →
  ∃ l lv, mapStack sm = l ++ [lv] ∧ J = (l ≫= journal) ++ journal lv ∧ s = snapshots [] l.
Proof.
  intros [_ E]. destruct (mapStack sm) as [|lv l _] using rev_ind; [done|]. rewrite snapshots_snoc in E.
  injection E as -> ->. by exists l, lv.
Qed.

Lemma replay_levels l key : (∀ lv, lv ∈ l → kvs lv = replay (journal lv)) →
  replay (l ≫= journal) !! key =
  match last (revisions key 0 l) with
  | None => None
  | Some r => l !! r ≫= λ lv, kvs lv !! key
  end.
Proof.
  induction l as [|lv l IH] using rev_ind; intros Hl; [done|].
  rewrite bind_app, revisions_app, replay_app. cbn [mbind list_bind]. rewrite app_nil_r.
  rewrite <- (Hl lv) by set_solver. simpl. rewrite app_nil_r.
  destruct (kvs lv !! key) as [v|] eqn:E.
  - rewrite last_snoc, list_lookup_middle by done. simpl. rewrite E. apply lookup_union_Some_l. by rewrite E.
  - rewrite app_nil_r, lookup_union_r by done. rewrite IH by set_solver.
    destruct (last (revisions key 0 l)) as [r|] eqn:Er; [|done].
    assert (r ∈ revisions key 0 l) as Hr by (apply last_Some in Er as [? ->]; set_solver).
    apply revisions_bound in Hr. by rewrite lookup_app_l by lia.
Qed.

(** ** The operations *)
Lemma stack_top_snoc {A} (l : list A) a : stack_top (l ++ [a]) = Ok a.
Proof. unfold stack_top. by rewrite last_snoc. Qed.
Lemma stack_pop_snoc {A} (l : list A) a : stack_pop (l ++ [a]) = Ok l.
Proof. unfold stack_pop. destruct (l ++ [a]) eqn:E; [by destruct l|]. by rewrite <- E, removelast_last. Qed.

Lemma Journal_ok sm J s : implements sm (J :: s) → Journal sm = J.
Proof.
  intros Hi. destruct (implements_top _ _ _ Hi) as (l & lv & E & -> & _). unfold Journal.
  rewrite E, bind_app. simpl. by rewrite app_nil_r.
Qed.

Lemma Depth_ok sm s : implements sm s → Depth sm = length s.
Proof. intros [_ ->]. by rewrite snapshots_length. Qed.

Lemma Get_ok sm J s key : implements sm (J :: s) → sm_Get key sm = Ok (replay J !! key).
Proof.
  intros Hi. rewrite <- (Journal_ok _ _ _ Hi). destruct Hi as [[Hr Hj] _]. unfold Journal, sm_Get.
  rewrite replay_levels by done. rewrite Hr.
  destruct (revisions key 0 (mapStack sm)) as [|r rs _] eqn:E using rev_ind; [done|].
  rewrite nonempty_snoc, last_snoc, stack_top_snoc. cbn [mbind result_bind].
  assert (r ∈ revisions key 0 (mapStack sm)) as Hin by (rewrite E; set_solver).
  apply revisions_bound in Hin. by destruct (lookup_lt_is_Some_2 (mapStack sm) r) as [lv ->]; [lia|].
Qed.

Lemma Push_ok sm J s : implements sm (J :: s) →
  (Push sm).1 = length (J :: s) ∧ implements (Push sm).2 (J :: J :: s).
Proof.
  intros Hi. pose proof (Depth_ok _ _ Hi) as Hd. pose proof (Journal_ok _ _ _ Hi) as HJ. destruct Hi as [[Hr Hj] E].
  split; [exact Hd|]. unfold Push. cbn [snd]. split; [split; simpl|].
  - intros key. rewrite Hr, revisions_app. simpl. by rewrite lookup_empty, !app_nil_r.
  - intros lv [Hlv|Hlv]%elem_of_app; [by apply Hj|]. by apply list_elem_of_singleton in Hlv as ->.
  - cbn [mapStack]. rewrite snapshots_snoc, <- E. simpl. by rewrite app_nil_r, <- HJ.
Qed.

Lemma Put_ok sm J s key value : implements sm (J :: s) →
  ∃ sm', Put key value sm = Ok sm' ∧ implements sm' ((J ++ [(key, value)]) :: s).
Proof.
  intros Hi. destruct (implements_top _ _ _ Hi) as (l & lv & E & EJ & Es). destruct Hi as [[Hr Hj] _].
  unfold Put. rewrite E, stack_top_snoc, stack_pop_snoc. cbn [mbind result_bind].
  assert ((length (l ++ [lv]) - 1)%nat = length l) as -> by (rewrite length_app; simpl; lia).
  assert (match keyRevisionMap sm !! key with
          | None => Ok [length l]
          | Some revs => r ← stack_top revs; Ok (if (r =? length l)%nat then revs else revs ++ [length l])
          end = Ok (revisions key 0 l ++ [length l])) as ->.
  { rewrite Hr, E, revisions_app. simpl. rewrite app_nil_r. destruct (kvs lv !! key) as [v|].
    - rewrite nonempty_snoc, stack_top_snoc. cbn [mbind result_bind]. by rewrite Nat.eqb_refl.
    - rewrite app_nil_r. destruct (revisions key 0 l) as [|r rs _] eqn:E1 using rev_ind; [done|].
      rewrite nonempty_snoc, stack_top_snoc. cbn [mbind result_bind].
      destruct (Nat.eqb_spec r (length l)) as [->|]; [|done].
      assert (length l ∈ revisions key 0 l) as Hin by (rewrite E1; set_solver). apply revisions_bound in Hin. lia. }
  cbn [mbind result_bind]. eexists. split; [done|]. split; [split; simpl|].
  - intros key'. rewrite revisions_app. simpl. rewrite app_nil_r. destruct (decide (key = key')) as [<-|Hne].
    + rewrite !lookup_insert_eq. by rewrite nonempty_snoc.
    + rewrite !lookup_insert_ne by done. rewrite Hr, E, revisions_app. simpl. by rewrite app_nil_r.
  - intros lv' [Hlv|Hlv]%elem_of_app; [apply Hj; rewrite E; set_solver|].
    apply list_elem_of_singleton in Hlv as ->. simpl. rewrite replay_snoc. f_equal. apply Hj. rewrite E. set_solver.
  - cbn [mapStack]. rewrite snapshots_snoc, EJ, Es. simpl. by rewrite <- app_assoc.
Qed.

(** Popping the last revision of some keys. *)
Lemma dropRevisions_ok keys m n (R : K → list nat) : NoDup keys → (∀ k, k ∈ keys → m !! k = Some (R k ++ [n])) →
  ∃ m', dropRevisions keys m = Ok m' ∧
    ∀ k, m' !! k = if decide (k ∈ keys) then nonempty (R k) else m !! k.
Proof.
  revert m. induction keys as [|key keys IH]; intros m Hnd Hm; cbn [dropRevisions].
  { exists m. split; [done|]. intros k. by rewrite decide_False by set_solver. }
  apply NoDup_cons in Hnd as [Hk Hnd]. rewrite (Hm key) by set_solver. rewrite stack_pop_snoc. cbn [mbind result_bind].
  set (m1 := if (length (R key) =? 0)%nat then delete key m else <[key := R key]> m).
  assert (∀ k, m1 !! k = if decide (k = key) then nonempty (R key) else m !! k) as Hm1.
  { intros k. unfold m1. destruct (R key) as [|r rs]; simpl.
    - destruct (decide (k = key)) as [->|]; [by rewrite lookup_delete_eq|by rewrite lookup_delete_ne].
    - destruct (decide (k = key)) as [->|]; [by rewrite lookup_insert_eq|by rewrite lookup_insert_ne]. }
  destruct (IH m1 Hnd) as (m' & -> & Hm').
  { intros k Hin. rewrite Hm1, decide_False by set_solver. apply Hm. set_solver. }
  exists m'. split; [done|]. intros k. rewrite Hm', Hm1.
  destruct (decide (k ∈ keys)) as [Hin|Hin]; [by rewrite decide_True by set_solver|].
  destruct (decide (k = key)) as [->|]; [by rewrite decide_True by set_solver|by rewrite decide_False by set_solver].
Qed.

Lemma Pop_ok sm J s : implements sm (J :: s) → ∃ sm', Pop sm = Ok sm' ∧ implements sm' s.
Proof.
  intros Hi. destruct (implements_top _ _ _ Hi) as (l & lv & E & _ & Es). destruct Hi as [[Hr Hj] _].
  unfold Pop. rewrite E, stack_top_snoc, stack_pop_snoc. cbn [mbind result_bind].
  assert (∀ k, k ∈ (map_to_list (kvs lv)).*1 ↔ is_Some (kvs lv !! k)) as Hkeys.
  { intros k. rewrite list_elem_of_fmap. split.
    - intros ([k' v] & -> & Hkv%elem_of_map_to_list). by exists v.
    - intros [v Hv]. exists (k, v). by rewrite elem_of_map_to_list. }
  destruct (dropRevisions_ok (map_to_list (kvs lv)).*1 (keyRevisionMap sm) (length l) (λ k, revisions k 0 l))
    as (m' & -> & Hm').
  { apply NoDup_fst_map_to_list. }
  { intros k [v Hv]%Hkeys. rewrite Hr, E, revisions_app. simpl. rewrite Hv.
    by rewrite app_nil_r, nonempty_snoc. }
  cbn [mbind result_bind]. eexists. split; [done|]. split; [split; simpl|done].
  - intros key. rewrite Hm'. case_decide as Hd; [done|]. rewrite Hr, E, revisions_app. simpl.
    rewrite Hkeys in Hd. destruct (kvs lv !! key) as [v|]; [by destruct Hd; eauto|]. by rewrite !app_nil_r.
  - intros lv' Hlv. apply Hj. rewrite E. set_solver.
Qed.

Lemma PopTo_ok sm s depth : implements sm s →
  ∃ sm', PopTo depth sm = Ok sm' ∧ implements sm' (drop (length s - depth) s).
Proof.
  unfold PopTo. intros Hi. rewrite (Depth_ok _ _ Hi : length (mapStack sm) = length s).
  revert sm Hi. induction s as [|J s IH]; intros sm Hi; cbn [popTo length];
    pose proof (Depth_ok _ _ Hi) as Hd; unfold Depth in Hd; rewrite Hd; simpl.
  - exists sm. split; [|done]. by destruct depth.
  - destruct (Nat.ltb_spec depth (S (length s))) as [Hlt|Hge].
    + destruct (Pop_ok _ _ _ Hi) as (sm1 & -> & Hi1). cbn [mbind result_bind].
      destruct (IH sm1 Hi1) as (sm2 & E2 & Hi2). exists sm2. split; [done|].
      replace (S (length s) - depth)%nat with (S (length s - depth)) by lia. done.
    + exists sm. split; [done|]. by replace (S (length s) - depth)%nat with 0%nat by lia.
Qed.

Lemma New_ok : implements (@sm_New K V _ _) [[]].
Proof.
  split; [split; simpl|done]; [intros key; by rewrite !lookup_empty|].
  intros lv Hlv. by apply list_elem_of_singleton in Hlv as ->.
Qed.

(** ** Sequences of operations *)
Inductive sm_op := OPut (key : K) (value : V) | OPush | OPopTo (depth : nat).

Definition sm_perform (o : sm_op) sm : result (StackedMap K V) :=
  match o with
  | OPut key value => Put key value sm
  | OPush => Ok (Push sm).2
  | OPopTo depth => PopTo depth sm
  end.

Fixpoint sm_run (ops : list sm_op) sm : result (StackedMap K V) :=
  match ops with [] => Ok sm | o :: ops => sm ← sm_perform o sm; sm_run ops sm end.

(** The same on a stack of journals. *)
Definition spec_perform (o : sm_op) (s : list (list (K * V))) : list (list (K * V)) :=
  match o, s with
  | OPut key value, J :: s => (J ++ [(key, value)]) :: s
  | OPush, J :: s => J :: J :: s
  | OPopTo depth, s => drop (length s - depth) s
  | _, [] => []
  end.

Definition spec_run (ops : list sm_op) (s : list (list (K * V))) : list (list (K * V)) :=
  foldl (λ s o, spec_perform o s) s ops.

(** The bottom level is never popped. *)
Definition keeps_bottom (o : sm_op) : Prop := match o with OPopTo depth => (1 ≤ depth)%nat | _ => True end.

Lemma perform_ok o sm J s : keeps_bottom o → implements sm (J :: s) →
  ∃ sm' J' s', sm_perform o sm = Ok sm' ∧ spec_perform o (J :: s) = J' :: s' ∧ implements sm' (J' :: s').
Proof.
  intros Ho Hi. destruct o as [key value| |depth]; simpl in *.
  - destruct (Put_ok _ _ _ key value Hi) as (sm' & -> & Hi'). by exists sm', (J ++ [(key, value)]), s.
  - destruct (Push_ok _ _ _ Hi) as [_ Hi']. by exists (Push sm).2, J, (J :: s).
  - destruct (PopTo_ok _ _ depth Hi) as (sm' & -> & Hi'). simpl in Hi'.
    destruct (drop (S (length s) - depth) (J :: s)) as [|J' s'] eqn:E; [|by exists sm', J', s'].
    apply (f_equal length) in E. rewrite length_drop in E. simpl in E. lia.
Qed.

(** C16: Along any sequence of puts, checkpoints and reverts that keeps the
    bottom level, the stacked map never panics and behaves as a stack of
    journals: a key has the last value put since the journal that was last
    reverted to, the journal lists exactly the puts that were not reverted, and
    the depth is that of the stack. *)
Theorem stacked_map_refines (ops : list sm_op) : Forall keeps_bottom ops →
  ∃ sm J s, sm_run ops sm_New = Ok sm ∧ spec_run ops [[]] = J :: s ∧
    Depth sm = length (J :: s) ∧ Journal sm = J ∧ ∀ key, sm_Get key sm = Ok (replay J !! key).
Proof.
  intros Hops. assert (∀ ops sm J s, Forall keeps_bottom ops → implements sm (J :: s) →
    ∃ sm' J' s', sm_run ops sm = Ok sm' ∧ spec_run ops (J :: s) = J' :: s' ∧ implements sm' (J' :: s')) as Hrun.
  { clear. induction ops as [|o ops IH]; intros sm J s Hops Hi; [by exists sm, J, s|].
    apply Forall_cons in Hops as [Ho Hops]. cbn [sm_run spec_run foldl].
    destruct (perform_ok o sm J s Ho Hi) as (sm1 & J1 & s1 & -> & -> & Hi1). cbn [mbind result_bind]. by apply IH. }
  destruct (Hrun ops sm_New [] [] Hops New_ok) as (sm & J & s & E & Es & Hi). exists sm, J, s.
  split; [done|]. split; [done|]. split; [by apply Depth_ok|]. split; [by eapply Journal_ok|].
  intros key. by eapply Get_ok.
Qed.
End spec.

Lemma stacked_map_refines_witness :
  ∃ sm, sm_run [OPut 1 10; OPush; OPut 1 20; OPut 2 30; OPopTo 1; OPut 3 40] (@sm_New Z Z _ _) = Ok sm ∧
    sm_Get 1 sm = Ok (Some 10) ∧ sm_Get 2 sm = Ok None.
Proof.
  destruct (stacked_map_refines [OPut 1 10; OPush; OPut 1 20; OPut 2 30; OPopTo 1; OPut 3 40])
    as (sm & J & s & E & Es & _ & _ & Hget).
  - repeat constructor.
  - exists sm. split; [exact E|]. injection Es as <- <-. split; rewrite Hget; vm_compute; reflexivity.
Defined.
