(* ===== verification/ChainRepo.v ===== *)
(** * Package chain: the block repository

    [src/chain/repository.go], [chain.go] and [persist.go].  The stores of the
    key-value database are finite maps under the byte keys the code composes;
    a block summary is stored under its id.  The index trie of a block, which
    maps block numbers to the ids of the block's ancestors, is stored under the
    version (number, conflicts) of the block, as [muxdb] commits it; [muxdb]
    itself is trusted to return the content committed under a version.  The
    caches return what is stored and are left out. *)

From stdpp Require Import sorting.
From S2P Require Import Prelude Bytes External Thor Block Tx.

#[export] Instance error_eq_dec : EqDecision error.
Proof. solve_decision. Defined.

Definition errNotFound : error := ErrInternal "not found".
Definition IsNotFound (e : error) : bool := bool_decide (e = errNotFound).

Record storageTxMeta := MkStorageTxMeta { smIndex : Z; smReverted : bool }.

Record TxMeta := MkTxMeta {
  tmBlockNum : Z;
  tmBlockConflicts : Z;
  tmIndex : Z;
  tmReverted : bool;
}.

Record BlockSummary := MkBlockSummary {
  sumHeader : Header;
  sumTxs : list Bytes32;
  sumSize : Z;
  sumConflicts : Z;
}.

(** ** Keys *)
Definition txFlag : Z := 0.
Definition receiptFlag : Z := 1.
Definition txFilterKeyLen : nat := 8.

Definition appendTxKey (blockNum blockConflicts index flag : Z) : bytes :=
  be 4 blockNum ++ uvarint blockConflicts ++ [flag] ++ uvarint index.

Definition txFilterKey (txid : Bytes32) : bytes := take txFilterKeyLen (be 32 txid).
Definition txMetaKey (txid : Bytes32) (blockNum conflicts : Z) : bytes :=
  be 32 txid ++ uvarint blockNum ++ uvarint conflicts.

(** The version part of a metadata key. *)
Definition readVersion (ver : bytes) : option (Z * Z) :=
  '(blockNum, rest) ← read_uvarint ver;
  '(conflicts, _) ← read_uvarint rest;
  Some (blockNum, conflicts).

(** The version under which a block's tries are committed. *)
Definition version (s : BlockSummary) : Z * Z := (Header_Number (sumHeader s), sumConflicts s).

Section repo.
Context `{Rlp} `{Crypto}.

Record block := MkBlock { blkHeader : Header; blkTxs : list Transaction }.

(** [bodyStore] holds the transactions and the receipts. *)
Record ChainRepo := MkChainRepo {
  hdrStore : gmap Bytes32 BlockSummary;
  bodyStore : gmap bytes (Transaction + Receipt);
  headStore : gset Bytes32;
  txIndexer : gmap bytes (option storageTxMeta);
  indexTries : gmap (Z * Z) (gmap Z Bytes32);
  bestSummary : BlockSummary;
  genesisID : Bytes32;
}.
#[export] Instance eta_ChainRepo : Eta ChainRepo := λ r,
  MkChainRepo (hdrStore r) (bodyStore r) (headStore r) (txIndexer r) (indexTries r)
    (bestSummary r) (genesisID r).

Definition ChainTag (r : ChainRepo) : Z := genesisID r mod 256.

Definition GetBlockSummary (r : ChainRepo) (id : Bytes32) : result BlockSummary :=
  match hdrStore r !! id with Some s => Ok s | None => Err errNotFound end.

(** [parent] is the version of the parent's index trie, none for the genesis block. *)
Definition indexBlock (parent : option (Z * Z)) (newBlockID : Bytes32) (newConflicts : Z)
    : M ChainRepo unit :=
  t ← gets (λ r, match parent with
                 | Some v => default ∅ (indexTries r !! v)
                 | None => ∅
                 end);
  let t := <[Number newBlockID := newBlockID]> t in
  modify (λ r, r <| indexTries := <[(Number newBlockID, newConflicts) := t]> (indexTries r) |>).

Definition indexChainHead (h : Header) : M ChainRepo unit :=
  modify (λ r, r <| headStore := {[ID h]} ∪ (headStore r ∖ {[ParentID h]}) |>).

(** One transaction of the block, at index [i]. *)
Definition saveTx (num conflicts : Z) (i : nat) (tx : Transaction) (reverted : bool)
    : M ChainRepo unit :=
  let txid := Tx_ID tx in
  modify (λ r, r <| txIndexer := <[txFilterKey txid := None]> (txIndexer r) |>) ;;
  modify (λ r, r <| txIndexer :=
    <[txMetaKey txid num conflicts := Some (MkStorageTxMeta (Z.of_nat i) reverted)]>
      (txIndexer r) |>) ;;
  modify (λ r, r <| bodyStore :=
    <[appendTxKey num conflicts (Z.of_nat i) txFlag := inl tx]> (bodyStore r) |>).

(** The loop over the transactions; [receipts[i]] panics when it is missing. *)
Fixpoint saveTxs (num conflicts : Z) (i : nat) (txs : list Transaction) (receipts : list Receipt)
    : M ChainRepo unit :=
  match txs with
  | [] => mret tt
  | tx :: txs =>
      receipt ← need (receipts !! i) (ErrPanic "index out of range");
      saveTx num conflicts i tx (rcReverted receipt) ;;
      saveTxs num conflicts (S i) txs receipts
  end.

Fixpoint saveReceipts (num conflicts : Z) (i : nat) (receipts : list Receipt) : M ChainRepo unit :=
  match receipts with
  | [] => mret tt
  | receipt :: receipts =>
      modify (λ r, r <| bodyStore :=
        <[appendTxKey num conflicts (Z.of_nat i) receiptFlag := inr receipt]> (bodyStore r) |>) ;;
      saveReceipts num conflicts (S i) receipts
  end.

Definition saveBlock (size : Z) (b : block) (receipts : list Receipt) (conflicts : Z)
    (asBest : bool) : M ChainRepo BlockSummary :=
  let header := blkHeader b in
  let id := ID header in
  let num := Header_Number header in
  let txs := blkTxs b in
  when (0 <? length txs)%nat (
    saveTxs num conflicts 0 txs receipts ;;
    saveReceipts num conflicts 0 receipts) ;;
  indexChainHead header ;;
  let summary := MkBlockSummary header (Tx_ID <$> txs) size conflicts in
  modify (λ r, r <| hdrStore := <[id := summary]> (hdrStore r) |>) ;;
  when asBest (modify (λ r, r <| bestSummary := summary |>)) ;;
  mret summary.

(** [size] is the length of the block's encoding. *)
Definition AddBlock (size : Z) (newBlock : block) (receipts : list Receipt) (conflicts : Z)
    (asBest : bool) : M ChainRepo unit :=
  parentSummary ← (λ r,
    match GetBlockSummary r (ParentID (blkHeader newBlock)) with
    | Ok s => Ok (s, r)
    | Err e => if IsNotFound e then Err (ErrInternal "parent missing") else Err e
    end);
  indexBlock (Some (version parentSummary)) (ID (blkHeader newBlock)) conflicts ;;
  saveBlock size newBlock receipts conflicts asBest ;;
  mret tt.

(** A repository over an empty database. *)
Definition NewRepository (size : Z) (genesis : block) : result ChainRepo :=
  if negb (Header_Number (blkHeader genesis) =? 0)
  then Err (ErrInternal "genesis number != 0") else
  if negb (length (blkTxs genesis) =? 0)%nat
  then Err (ErrInternal "genesis block should not have transactions") else
  let id := ID (blkHeader genesis) in
  let summary0 := MkBlockSummary (blkHeader genesis) [] size 0 in
  let empty := MkChainRepo ∅ ∅ ∅ ∅ ∅ summary0 id in
  '(_, r) ← (indexBlock None id 0 ;; saveBlock size genesis [] 0 true) empty;
  Ok r.

(** ** Scans; the ids of one number share their first four bytes. *)
Definition idsWithNumber (r : ChainRepo) (blockNum : Z) : gset Bytes32 :=
  filter (λ id, Number id = blockNum) (dom (hdrStore r)).

Definition ScanConflicts (r : ChainRepo) (blockNum : Z) : Z :=
  Z.of_nat (size (idsWithNumber r blockNum)).

Definition GetConflicts (r : ChainRepo) (blockNum : Z) : list Bytes32 :=
  merge_sort Z.le (elements (idsWithNumber r blockNum)).

(** Descending order. *)
Definition ScanHeads (r : ChainRepo) (from : Z) : list Bytes32 :=
  merge_sort Z.ge (elements (filter (λ id, from ≤ Number id) (headStore r))).

Definition GetMaxBlockNum (r : ChainRepo) : Z :=
  foldr (λ id acc, Z.max (Number id) acc) 0 (elements (dom (hdrStore r))).

(** ** Transactions and receipts of a block *)
Definition getTransaction (r : ChainRepo) (key : bytes) : result Transaction :=
  match bodyStore r !! key with Some (inl tx) => Ok tx | _ => Err errNotFound end.
Definition getReceipt (r : ChainRepo) (key : bytes) : result Receipt :=
  match bodyStore r !! key with Some (inr rc) => Ok rc | _ => Err errNotFound end.

Definition GetBlockTransactions (r : ChainRepo) (id : Bytes32) : result (list Transaction) :=
  summary ← GetBlockSummary r id;
  foldr (λ i acc,
    tx ← getTransaction r
      (appendTxKey (Header_Number (sumHeader summary)) (sumConflicts summary) (Z.of_nat i) txFlag);
    txs ← acc; Ok (tx :: txs)) (Ok []) (seq 0 (length (sumTxs summary))).

Definition GetBlockReceipts (r : ChainRepo) (id : Bytes32) : result (list Receipt) :=
  summary ← GetBlockSummary r id;
  foldr (λ i acc,
    rc ← getReceipt r
      (appendTxKey (Header_Number (sumHeader summary)) (sumConflicts summary) (Z.of_nat i)
         receiptFlag);
    rcs ← acc; Ok (rc :: rcs)) (Ok []) (seq 0 (length (sumTxs summary))).

Definition GetBlock (r : ChainRepo) (id : Bytes32) : result block :=
  summary ← GetBlockSummary r id;
  txs ← GetBlockTransactions r id;
  Ok (MkBlock (sumHeader summary) txs).

(** ** The chain ending at a head block *)
(** The error of an unknown head is not a not-found error. *)
Definition GetBlockID (r : ChainRepo) (headID : Bytes32) (num : Z) : result Bytes32 :=
  summary ← match GetBlockSummary r headID with
            | Ok summary => Ok summary
            | Err _ => Err (ErrInternal "lazy init chain")
            end;
  let trie := default ∅ (indexTries r !! version summary) in
  match trie !! num with Some id => Ok id | None => Err errNotFound end.

Definition chain_GetBlockSummary (r : ChainRepo) (headID : Bytes32) (num : Z)
    : result BlockSummary :=
  id ← GetBlockID r headID num;
  GetBlockSummary r id.

Definition GetBlockHeader (r : ChainRepo) (headID : Bytes32) (num : Z) : result Header :=
  summary ← chain_GetBlockSummary r headID num;
  Ok (sumHeader summary).

Definition HasBlock (r : ChainRepo) (headID id : Bytes32) : result bool :=
  match GetBlockID r headID (Number id) with
  | Ok foundID => Ok (id =? foundID)
  | Err e => if IsNotFound e then Ok false else Err e
  end.

(** Keys with the given prefix, with their values; the code takes the first
    match, and at most one matches. *)
Definition withPrefix (r : ChainRepo) (prefix : bytes) : list (bytes * option storageTxMeta) :=
  filter (λ kv, take (length prefix) kv.1 = prefix) (map_to_list (txIndexer r)).

(** The loop over the metadata of a transaction: the one whose block is on the chain. *)
Fixpoint findMeta (r : ChainRepo) (headID : Bytes32) (l : list (bytes * option storageTxMeta))
    : result (option (Z * Z * option storageTxMeta)) :=
  match l with
  | [] => Ok None
  | (key, value) :: l =>
      match readVersion (drop 32 key) with
      | None => findMeta r headID l
      | Some (blockNum, conflicts) =>
          if Number headID <? blockNum then findMeta r headID l else
          match chain_GetBlockSummary r headID blockNum with
          | Err _ => Err (ErrInternal "block missing")
          | Ok s =>
              if sumConflicts s =? conflicts then Ok (Some (blockNum, conflicts, value))
              else findMeta r headID l
          end
      end
  end.

Definition GetTransactionMeta (r : ChainRepo) (headID id : Bytes32) : result TxMeta :=
  found ← findMeta r headID (withPrefix r (be 32 id));
  match found with
  | None => Err errNotFound
  | Some (blockNum, conflicts, Some sMeta) =>
      Ok (MkTxMeta blockNum conflicts (smIndex sMeta) (smReverted sMeta))
  | Some (_, _, None) => Err (ErrInternal "rlp")
  end.

(** Walking down from the head while the number is at least [txBlockRef]. *)
Fixpoint scanRecent (fuel : nat) (r : ChainRepo) (txid : Bytes32) (txBlockRef : Z)
    (nextID : Bytes32) : result bool :=
  if (txBlockRef <=? Number nextID) && negb (Number nextID =? max32 - 1) then
    match fuel with
    | O => Err ErrFuel
    | S fuel =>
        s ← GetBlockSummary r nextID;
        if bool_decide (txid ∈ sumTxs s) then Ok true else
        scanRecent fuel r txid txBlockRef (ParentID (sumHeader s))
    end
  else Ok false.

(** At most a hundred blocks are walked. *)
Definition HasTransaction (r : ChainRepo) (headID txid : Bytes32) (txBlockRef : Z) : result bool :=
  let headNum := Number headID in
  if headNum <? txBlockRef then Ok false else
  if headNum -u32 txBlockRef <? 100 then scanRecent 101 r txid txBlockRef headID else
  if bool_decide (txIndexer r !! txFilterKey txid = None) then Ok false else
  found ← findMeta r headID (withPrefix r (be 32 txid));
  Ok (bool_decide (found ≠ None)).

(** The loop of [Exclude], collecting ids from the head downwards. *)
Fixpoint excludeFrom (fuel : nat) (r : ChainRepo) (headID oHeadID id : Bytes32)
    : result (list Bytes32) :=
  let n := Number id in
  if n =? 0 then Ok [] else
  match fuel with
  | O => Err ErrFuel
  | S fuel =>
      has ← (if Number oHeadID <? n then Ok false else
             if n =? Number oHeadID then Ok (id =? oHeadID) else HasBlock r oHeadID id);
      if has : bool then Ok [] else
      parent ← GetBlockID r headID (n -u32 1);
      ids ← excludeFrom fuel r headID oHeadID parent;
      Ok (id :: ids)
  end.

(** Ascending order; the block number bounds the number of iterations. *)
Definition Exclude (r : ChainRepo) (headID oHeadID : Bytes32) : result (list Bytes32) :=
  ids ← excludeFrom (Z.to_nat (Number headID)) r headID oHeadID headID;
  Ok (reverse ids).

(** [flag]: 0 exact, positive the lowest block at or after [ts], negative the
    highest at or before. *)
Definition FindBlockHeaderByTimestamp (r : ChainRepo) (headID : Bytes32) (ts flag : Z)
    : result Header :=
  let headNum := Number headID in
  if 0 <=? flag then
    n ← search headNum (λ i, h ← GetBlockHeader r headID i; Ok (ts <=? Timestamp h));
    header ← GetBlockHeader r headID n;
    if (flag =? 0) && negb (Timestamp header =? ts) then Err errNotFound else Ok header
  else
    k ← search headNum (λ i, h ← GetBlockHeader r headID (headNum - i); Ok (Timestamp h <=? ts));
    GetBlockHeader r headID (headNum - k).
End repo.
