(* ===== verification/ChainRepoInv.v ===== *)
(** * The invariant of the block repository

    The stored blocks form a tree rooted at the genesis block.  [path r id l]
    says that [l] is the chain from the genesis block to [id]; the invariant
    says that the index trie of every block lists its path, that a version
    (number, conflicts) names one block, and that the transactions, receipts and
    transaction metadata of every block are stored under its keys. *)

From S2P Require Import Prelude Bytes External Thor Block Tx ChainRepo.

Section keys.
Lemma appendTxKey_inj n1 c1 i1 f1 n2 c2 i2 f2 :
  is32 n1 → is32 n2 → is64 c1 → is64 c2 → is64 i1 → is64 i2 →
  appendTxKey n1 c1 i1 f1 = appendTxKey n2 c2 i2 f2 → n1 = n2 ∧ c1 = c2 ∧ i1 = i2 ∧ f1 = f2.
Proof.
  intros Hn1 Hn2 Hc1 Hc2 Hi1 Hi2 E. unfold appendTxKey in E.
  apply app_inj_1 in E as [En E]; [|by rewrite !be_length].
  apply be_inj in En; [|simpl; ulia..].
  apply uvarint_app_inj in E as [Ec E]; [|done..]. simplify_list_eq.
  destruct (uvarint_app_inj i1 i2 [] []) as [-> _]; [done..|by rewrite !app_nil_r|done].
Qed.

Lemma txMetaKey_inj t1 n1 c1 t2 n2 c2 :
  is256 t1 → is256 t2 → is64 n1 → is64 n2 → is64 c1 → is64 c2 →
  txMetaKey t1 n1 c1 = txMetaKey t2 n2 c2 → t1 = t2 ∧ n1 = n2 ∧ c1 = c2.
Proof.
  unfold is256. intros Ht1 Ht2 Hn1 Hn2 Hc1 Hc2 E. unfold txMetaKey in E.
  apply app_inj_1 in E as [Et E]; [|by rewrite !be_length].
  apply be_inj in Et; [|simpl; lia..].
  apply uvarint_app_inj in E as [En E]; [|done..].
  destruct (uvarint_app_inj c1 c2 [] []) as [-> _]; [done..|by rewrite !app_nil_r|done].
Qed.

Lemma readVersion_key txid n c : is64 n → is64 c →
  readVersion (drop 32 (txMetaKey txid n c)) = Some (n, c).
Proof.
  intros Hn Hc. unfold readVersion, txMetaKey.
  rewrite drop_app_length' by (by rewrite be_length).
  rewrite read_uvarint_uvarint by done. simpl.
  rewrite <- (app_nil_r (uvarint c)), read_uvarint_uvarint by done. done.
Qed.

Lemma txMetaKey_prefix txid n c : take 32 (txMetaKey txid n c) = be 32 txid.
Proof. unfold txMetaKey. by rewrite take_app_length' by (by rewrite be_length). Qed.

Lemma txMetaKey_length txid n c : (32 ≤ length (txMetaKey txid n c))%nat.
Proof. unfold txMetaKey. rewrite length_app, be_length. lia. Qed.

Lemma txFilterKey_length txid : length (txFilterKey txid) = 8%nat.
Proof. unfold txFilterKey. by rewrite length_take, be_length. Qed.
End keys.

Section inv.
Context `{Rlp} `{CS : CryptoSpec}.
Implicit Types (r : ChainRepo) (s : BlockSummary) (l : list Bytes32).

Lemma Tx_ID_range tx : is256 (Tx_ID tx).
Proof.
  unfold Tx_ID. destruct (Tx_Origin tx); [apply blake2b_range|]. unfold is256. lia.
Qed.

Inductive path r : Bytes32 → list Bytes32 → Prop :=
  | path_genesis : path r (genesisID r) [genesisID r]
  | path_step id s l :
      hdrStore r !! id = Some s → id ≠ genesisID r →
      path r (ParentID (sumHeader s)) l → path r id (l ++ [id]).

(** The index of a chain, as a map. *)
Definition indexes (m : gmap Z Bytes32) l : Prop :=
  ∀ n, m !! n = if n <? 0 then None else l !! Z.to_nat n.

(** What is stored for a block with transactions [txs] and receipts [rcs]. *)
Record stored r s (txs : list Transaction) (rcs : list Receipt) : Prop := {
  st_ids : sumTxs s = Tx_ID <$> txs;
  st_length : length rcs = length txs;
  st_small : Z.of_nat (length txs) < max64;
  st_tx : ∀ i tx, txs !! i = Some tx →
    bodyStore r !! appendTxKey (version s).1 (version s).2 (Z.of_nat i) txFlag = Some (inl tx);
  st_receipt : ∀ i rc, rcs !! i = Some rc →
    bodyStore r !! appendTxKey (version s).1 (version s).2 (Z.of_nat i) receiptFlag =
      Some (inr rc);
  st_meta : ∀ i tx rc, txs !! i = Some tx → rcs !! i = Some rc →
    txIndexer r !! txMetaKey (Tx_ID tx) (version s).1 (version s).2 =
      Some (Some (MkStorageTxMeta (Z.of_nat i) (rcReverted rc)));
  st_filter : ∀ tx, tx ∈ txs → txIndexer r !! txFilterKey (Tx_ID tx) ≠ None;
}.

Record repo_inv r : Prop := {
  ri_id : ∀ id s, hdrStore r !! id = Some s → ID (sumHeader s) = id;
  ri_genesis : ∃ s, hdrStore r !! genesisID r = Some s ∧
    Number (ParentID (sumHeader s)) = max32 - 1;
  ri_genesis_num : Number (genesisID r) = 0;
  ri_parent : ∀ id s, hdrStore r !! id = Some s → id ≠ genesisID r →
    is_Some (hdrStore r !! ParentID (sumHeader s)) ∧
    Number id = Number (ParentID (sumHeader s)) + 1 ∧ Number id < max32 - 1;
  ri_version : ∀ id1 id2 s1 s2, hdrStore r !! id1 = Some s1 → hdrStore r !! id2 = Some s2 →
    version s1 = version s2 → id1 = id2;
  ri_conflicts : ∀ id s, hdrStore r !! id = Some s →
    0 ≤ sumConflicts s < ScanConflicts r (Number id) ∧ sumConflicts s < max32;
  ri_index : ∀ id s, hdrStore r !! id = Some s →
    ∃ l m, path r id l ∧ indexTries r !! version s = Some m ∧ indexes m l;
  ri_body : ∀ id s, hdrStore r !! id = Some s → ∃ txs rcs, stored r s txs rcs;
  ri_keys : ∀ k v, txIndexer r !! k = Some v → length k = 8%nat ∨
    ∃ id s txid, hdrStore r !! id = Some s ∧ txid ∈ sumTxs s ∧
      k = txMetaKey txid (version s).1 (version s).2;
}.

(** ** Paths *)
Section paths.
Context r (HI : repo_inv r).

Lemma header_number id s : hdrStore r !! id = Some s → Header_Number (sumHeader s) = Number id.
Proof. intros Hs. by rewrite <- (ri_id _ HI id s Hs), Number_ID. Qed.

Lemma version_number id s : hdrStore r !! id = Some s → version s = (Number id, sumConflicts s).
Proof. intros Hs. unfold version. by rewrite (header_number id s). Qed.

Lemma path_stored id l : path r id l → ∃ s, hdrStore r !! id = Some s.
Proof. destruct 1; [|eauto]. destruct (ri_genesis _ HI) as (s & ? & _). eauto. Qed.

Lemma path_last id l : path r id l → last l = Some id.
Proof. destruct 1; [done|]. by rewrite last_snoc. Qed.

Lemma Number_nonneg id s : hdrStore r !! id = Some s → 0 ≤ Number id.
Proof.
  intros Hs. rewrite <- (header_number id s Hs). pose proof (Header_Number_range (sumHeader s)).
  ulia.
Qed.

Lemma path_length id l : path r id l → Z.of_nat (length l) = Number id + 1.
Proof.
  induction 1 as [|id s l Hs Hne Hp IH]; [by rewrite (ri_genesis_num _ HI)|].
  destruct (ri_parent _ HI id s Hs Hne) as (_ & En & _). rewrite length_app. simpl. lia.
Qed.

Lemma path_unique id l l' : path r id l → path r id l' → l = l'.
Proof.
  intros Hp. revert l'. induction Hp as [|id s l Hs Hne Hp IH]; intros l' Hp'.
  - inversion Hp' as [|id' s' l'' Hs' Hne' Hp'']; [done|done].
  - inversion Hp' as [|id' s' l'' Hs' Hne' Hp'']; subst; [done|].
    simplify_eq. f_equal. by apply IH.
Qed.

(** A prefix of a path is the path of its last block. *)
Lemma path_prefix id l n b : path r id l → l !! n = Some b → path r b (take (S n) l).
Proof.
  induction 1 as [|id s l Hs Hne Hp IH]; intros Hn.
  - destruct n; [|done]. simplify_eq/=. apply path_genesis.
  - destruct (decide (n < length l)%nat) as [Hlt|Hge].
    + rewrite lookup_app_l in Hn by done. rewrite take_app_le by lia. by apply IH.
    + assert (n = length l) as ->.
      { apply lookup_lt_Some in Hn. rewrite length_app in Hn. simpl in Hn. lia. }
      rewrite lookup_app_r, Nat.sub_diag in Hn by done. simplify_eq/=.
      rewrite take_ge by (rewrite length_app; simpl; lia). by eapply path_step.
Qed.

Lemma path_number id l n b : path r id l → l !! n = Some b → Number b = Z.of_nat n.
Proof.
  intros Hp Hn. pose proof (path_length _ _ (path_prefix _ _ _ _ Hp Hn)) as E.
  apply lookup_lt_Some in Hn. rewrite length_take in E. lia.
Qed.

Lemma path_exists id s : hdrStore r !! id = Some s → ∃ l, path r id l.
Proof. intros Hs. destruct (ri_index _ HI id s Hs) as (l & _ & Hp & _). eauto. Qed.

(** The chain index answers from the path. *)
Lemma GetBlockID_path id l n : path r id l → 0 ≤ n →
  GetBlockID r id n =
    match l !! Z.to_nat n with Some b => Ok b | None => Err errNotFound end.
Proof.
  intros Hp Hn. destruct (path_stored _ _ Hp) as [s Hs]. unfold GetBlockID, GetBlockSummary.
  rewrite Hs. simpl. destruct (ri_index _ HI id s Hs) as (l' & m & Hp' & -> & Hm). simpl.
  rewrite (path_unique _ _ _ Hp Hp'), Hm. by destruct (Z.ltb_spec n 0); [lia|].
Qed.

Lemma path_elem_stored id l b : path r id l → b ∈ l → ∃ s, hdrStore r !! b = Some s.
Proof.
  intros Hp [n Hn]%list_elem_of_lookup. eapply path_stored. by eapply path_prefix.
Qed.

Lemma HasBlock_path id l b : path r id l → 0 ≤ Number b →
  HasBlock r id b = Ok (bool_decide (b ∈ l)).
Proof.
  intros Hp Hb. unfold HasBlock. rewrite (GetBlockID_path id l) by done.
  destruct (l !! Z.to_nat (Number b)) as [b'|] eqn:E.
  - f_equal. destruct (Z.eqb_spec b b') as [<-|Hne]; symmetry.
    + apply bool_decide_eq_true. by eapply list_elem_of_lookup_2.
    + apply bool_decide_eq_false. intros [n Hn]%list_elem_of_lookup.
      pose proof (path_number _ _ _ _ Hp Hn) as En. rewrite En, Nat2Z.id, Hn in E. congruence.
  - unfold IsNotFound. rewrite bool_decide_eq_true_2 by done. f_equal. symmetry.
    apply bool_decide_eq_false. intros [n Hn]%list_elem_of_lookup.
    pose proof (path_number _ _ _ _ Hp Hn) as En. by rewrite En, Nat2Z.id, Hn in E.
Qed.
End paths.

(** ** Writing a block *)

(** The parts of a repository that saving the body leaves alone. *)
Definition same_tree r r' : Prop :=
  hdrStore r' = hdrStore r ∧ headStore r' = headStore r ∧ indexTries r' = indexTries r ∧
  bestSummary r' = bestSummary r ∧ genesisID r' = genesisID r.

Lemma same_tree_trans r1 r2 r3 : same_tree r1 r2 → same_tree r2 r3 → same_tree r1 r3.
Proof. unfold same_tree. naive_solver congruence. Qed.

Record saved num conf (i : nat) (txs : list Transaction) (rcs : list Receipt) r r' : Prop := {
  sv_tree : same_tree r r';
  sv_meta : ∀ j tx rc, txs !! j = Some tx → rcs !! (i + j)%nat = Some rc →
    txIndexer r' !! txMetaKey (Tx_ID tx) num conf =
      Some (Some (MkStorageTxMeta (Z.of_nat (i + j)) (rcReverted rc)));
  sv_filter : ∀ tx, tx ∈ txs → txIndexer r' !! txFilterKey (Tx_ID tx) ≠ None;
  sv_other : ∀ k, (∀ tx, tx ∈ txs → k ≠ txMetaKey (Tx_ID tx) num conf) →
    length k ≠ 8%nat → txIndexer r' !! k = txIndexer r !! k;
  sv_keep : ∀ k, txIndexer r !! k ≠ None → txIndexer r' !! k ≠ None;
  sv_body : ∀ j tx, txs !! j = Some tx →
    bodyStore r' !! appendTxKey num conf (Z.of_nat (i + j)) txFlag = Some (inl tx);
  sv_body_other : ∀ k,
    (∀ j, (i ≤ j < i + length txs)%nat → k ≠ appendTxKey num conf (Z.of_nat j) txFlag) →
    bodyStore r' !! k = bodyStore r !! k;
}.

Lemma key_ne_filter txid txid' n c : txMetaKey txid n c ≠ txFilterKey txid'.
Proof.
  intros E. apply (f_equal length) in E. pose proof (txMetaKey_length txid n c).
  rewrite txFilterKey_length in E. lia.
Qed.

Lemma saveTxs_saved num conf i txs rcs r :
  is32 num → is64 conf → NoDup (Tx_ID <$> txs) → length rcs = (i + length txs)%nat →
  Z.of_nat (length rcs) < max64 →
  ∃ r', saveTxs num conf i txs rcs r = Ok (tt, r') ∧ saved num conf i txs rcs r r'.
Proof.
  intros Hn Hc. revert i r. induction txs as [|tx txs IH]; intros i r Hnd Hlen Hmax.
  { exists r. split; [done|]. split; try done; set_solver. }
  simpl in Hlen. rewrite fmap_cons, NoDup_cons in Hnd. destruct Hnd as [Hnew Hnd].
  destruct (lookup_lt_is_Some_2 rcs i) as [rc Hrc]; [lia|].
  set (r1 := r <| txIndexer := <[txMetaKey (Tx_ID tx) num conf :=
    Some (MkStorageTxMeta (Z.of_nat i) (rcReverted rc))]>
    (<[txFilterKey (Tx_ID tx) := None]> (txIndexer r)) |>
    <| bodyStore := <[appendTxKey num conf (Z.of_nat i) txFlag := inl tx]> (bodyStore r) |>).
  destruct (IH (S i) r1) as (r' & E & [Htree Hmeta Hfil Hoth Hkeep Hbody Hbo]); [done|lia|lia|].
  exists r'. split.
  { simpl. unfold mbind at 1, M_bind. unfold need. by rewrite Hrc. }
  assert (∀ tx', tx' ∈ txs → txMetaKey (Tx_ID tx) num conf ≠ txMetaKey (Tx_ID tx') num conf)
    as Hne.
  { intros tx' Htx' Ek. apply txMetaKey_inj in Ek as [Ei _]; try ulia; try apply Tx_ID_range.
    apply Hnew. rewrite Ei. by apply list_elem_of_fmap_2. }
  split.
  - exact Htree.
  - intros [|j] tx' rc' Htx Hrc'; simplify_eq/=.
    + rewrite Nat.add_0_r in Hrc' |- *. simplify_eq.
      rewrite Hoth; [by rewrite lookup_insert_eq|done|].
      pose proof (txMetaKey_length (Tx_ID tx') num conf). lia.
    + replace (i + S j)%nat with (S i + j)%nat in * by lia. by apply Hmeta.
  - intros tx' [->|Htx']%elem_of_cons; [|auto]. apply Hkeep. simpl.
    rewrite lookup_insert_ne by apply key_ne_filter. by rewrite lookup_insert_eq.
  - intros k Hk H8. rewrite Hoth; [|set_solver|done]. simpl.
    rewrite lookup_insert_ne by (intros <-; by apply (Hk tx); [left|]).
    rewrite lookup_insert_ne; [done|]. intros <-. by rewrite txFilterKey_length in H8.
  - intros k Hk. apply Hkeep. simpl. rewrite lookup_insert. case_decide; [done|].
    rewrite lookup_insert. by case_decide.
  - intros [|j] tx' Htx; simplify_eq/=.
    + rewrite Nat.add_0_r, Hbo; [by rewrite lookup_insert_eq|].
      intros j Hj Ek. apply appendTxKey_inj in Ek as (_ & _ & Ei & _); ulia.
    + replace (i + S j)%nat with (S i + j)%nat by lia. by apply Hbody.
  - intros k Hk. rewrite Hbo; [|intros j Hj; apply Hk; simpl; lia]. simpl.
    rewrite lookup_insert_ne; [done|]. intros <-. by apply (Hk i); [simpl; lia|].
Qed.

Lemma saveReceipts_saved num conf i rcs r :
  is32 num → is64 conf → Z.of_nat (i + length rcs) < max64 →
  ∃ r', saveReceipts num conf i rcs r = Ok (tt, r') ∧ same_tree r r' ∧
    txIndexer r' = txIndexer r ∧
    (∀ j rc, rcs !! j = Some rc →
      bodyStore r' !! appendTxKey num conf (Z.of_nat (i + j)) receiptFlag = Some (inr rc)) ∧
    (∀ k, (∀ j, (i ≤ j < i + length rcs)%nat → k ≠ appendTxKey num conf (Z.of_nat j) receiptFlag) →
      bodyStore r' !! k = bodyStore r !! k).
Proof.
  intros Hn Hc. revert i r. induction rcs as [|rc rcs IH]; intros i r Hmax.
  { exists r. split_and!; done. }
  simpl in Hmax.
  set (r1 := r <| bodyStore :=
    <[appendTxKey num conf (Z.of_nat i) receiptFlag := inr rc]> (bodyStore r) |>).
  destruct (IH (S i) r1) as (r' & E & Htree & Hidx & Hbody & Hbo); [lia|].
  exists r'. split_and!.
  - done.
  - exact Htree.
  - by rewrite Hidx.
  - intros [|j] rc' Hrc; simplify_eq/=.
    + rewrite Nat.add_0_r, Hbo; [by rewrite lookup_insert_eq|].
      intros j Hj Ek. apply appendTxKey_inj in Ek as (_ & _ & Ei & _); ulia.
    + replace (i + S j)%nat with (S i + j)%nat by lia. by apply Hbody.
  - intros k Hk. rewrite Hbo; [|intros j Hj; apply Hk; simpl; lia]. simpl.
    rewrite lookup_insert_ne; [done|]. intros <-. by apply (Hk i); [simpl; lia|].
Qed.

(** The body of a block in the stores. *)
Record body_added num conf (txs : list Transaction) (rcs : list Receipt) r r' : Prop := {
  ba_meta : ∀ j tx rc, txs !! j = Some tx → rcs !! j = Some rc →
    txIndexer r' !! txMetaKey (Tx_ID tx) num conf =
      Some (Some (MkStorageTxMeta (Z.of_nat j) (rcReverted rc)));
  ba_filter : ∀ tx, tx ∈ txs → txIndexer r' !! txFilterKey (Tx_ID tx) ≠ None;
  ba_other : ∀ k, (∀ tx, tx ∈ txs → k ≠ txMetaKey (Tx_ID tx) num conf) →
    length k ≠ 8%nat → txIndexer r' !! k = txIndexer r !! k;
  ba_keep : ∀ k, txIndexer r !! k ≠ None → txIndexer r' !! k ≠ None;
  ba_tx : ∀ j tx, txs !! j = Some tx →
    bodyStore r' !! appendTxKey num conf (Z.of_nat j) txFlag = Some (inl tx);
  ba_receipt : ∀ j rc, rcs !! j = Some rc →
    bodyStore r' !! appendTxKey num conf (Z.of_nat j) receiptFlag = Some (inr rc);
  ba_body : ∀ k, (∀ j f, Z.of_nat j < max64 → k ≠ appendTxKey num conf (Z.of_nat j) f) →
    bodyStore r' !! k = bodyStore r !! k;
}.

Lemma save_body num conf txs rcs r :
  is32 num → is64 conf → NoDup (Tx_ID <$> txs) → length rcs = length txs →
  Z.of_nat (length txs) < max64 →
  ∃ r', when (0 <? length txs)%nat
      (saveTxs num conf 0 txs rcs ;; saveReceipts num conf 0 rcs) r = Ok (tt, r') ∧
    same_tree r r' ∧ body_added num conf txs rcs r r'.
Proof.
  intros Hn Hc Hnd Hlen Hmax. destruct txs as [|tx txs].
  { destruct rcs; [|done]. exists r. split_and!; try done. split; try done; set_solver. }
  set (txs' := tx :: txs) in *. change (0 <? length txs')%nat with true. unfold when.
  destruct (saveTxs_saved num conf 0 txs' rcs r) as (r1 & E1 & [T1 Hm Hf Ho Hk Hb Hbo]);
    [done..|by rewrite Hlen|].
  destruct (saveReceipts_saved num conf 0 rcs r1) as (r2 & E2 & T2 & Ei & Hrb & Hrbo);
    [done|done|by rewrite Hlen|].
  exists r2. split_and!.
  - unfold mbind, M_bind. by rewrite E1, E2.
  - by eapply same_tree_trans.
  - assert (∀ i j, (i < length rcs)%nat → (j < length rcs)%nat →
      appendTxKey num conf (Z.of_nat i) txFlag ≠ appendTxKey num conf (Z.of_nat j) receiptFlag)
      as Hne.
    { intros i j Hi Hj Ek. by apply appendTxKey_inj in Ek as (_ & _ & _ & ?); [..|ulia|ulia]. }
    split; rewrite ?Ei; try done.
    + intros j tx' Hj. rewrite Hrbo; [by apply Hb|]. intros i Hi. apply Hne; [|lia].
      rewrite Hlen. by eapply lookup_lt_Some.
    + intros k Hk'. rewrite Hrbo by (intros j Hj; apply Hk'; ulia).
      apply Hbo. intros j Hj. apply Hk'. ulia.
Qed.

(** ** Adding a block *)

(** What the node ensures: the block is new, its transactions are distinct and
    have receipts, and [conflicts] counts the blocks with its number. *)
Record addable r (b : block) (rcs : list Receipt) (conf : Z) : Prop := {
  ad_fresh : hdrStore r !! ID (blkHeader b) = None;
  ad_number : Number (ParentID (blkHeader b)) < max32 - 2;
  ad_distinct : NoDup (Tx_ID <$> blkTxs b);
  ad_receipts : length rcs = length (blkTxs b);
  ad_small : Z.of_nat (length (blkTxs b)) < max64;
  ad_conf : conf = ScanConflicts r (Header_Number (blkHeader b));
  ad_conf_small : conf < max32;
}.

Record added r (sz : Z) (b : block) (rcs : list Receipt) conf (best : bool) (ps : BlockSummary)
    r' : Prop := {
  add_hdr : hdrStore r' = <[ID (blkHeader b) :=
    MkBlockSummary (blkHeader b) (Tx_ID <$> blkTxs b) sz conf]> (hdrStore r);
  add_genesis : genesisID r' = genesisID r;
  add_best : bestSummary r' = if best
    then MkBlockSummary (blkHeader b) (Tx_ID <$> blkTxs b) sz conf else bestSummary r;
  add_heads : headStore r' =
    {[ID (blkHeader b)]} ∪ (headStore r ∖ {[ParentID (blkHeader b)]});
  add_index : indexTries r' = <[(Number (ID (blkHeader b)), conf) :=
    <[Number (ID (blkHeader b)) := ID (blkHeader b)]> (default ∅ (indexTries r !! version ps))]>
    (indexTries r);
  add_body : body_added (Header_Number (blkHeader b)) conf (blkTxs b) rcs r r';
}.

Lemma body_added_frame num conf txs rcs r r' r1 r1' :
  bodyStore r1 = bodyStore r → txIndexer r1 = txIndexer r →
  bodyStore r1' = bodyStore r' → txIndexer r1' = txIndexer r' →
  body_added num conf txs rcs r r' → body_added num conf txs rcs r1 r1'.
Proof. intros E1 E2 E3 E4 []. split; intros; rewrite ?E1, ?E2, ?E3, ?E4 in *; eauto. Qed.

Lemma AddBlock_added r sz b rcs conf best :
  addable r b rcs conf →
  match hdrStore r !! ParentID (blkHeader b) with
  | None => AddBlock sz b rcs conf best r = Err (ErrInternal "parent missing")
  | Some ps => ∃ r', AddBlock sz b rcs conf best r = Ok (tt, r') ∧
      added r sz b rcs conf best ps r'
  end.
Proof.
  intros []. unfold AddBlock, GetBlockSummary, mbind, M_bind.
  destruct (hdrStore r !! ParentID (blkHeader b)) as [ps|] eqn:Hps; [|done].
  simpl. set (r0 := set_field _ r).
  destruct (save_body (Header_Number (blkHeader b)) conf (blkTxs b) rcs r0)
    as (r1 & E1 & (T1 & T2 & T3 & T4 & T5) & Hb); try done; [apply Header_Number_range|..].
  { rewrite ad_conf0 in *. unfold ScanConflicts in *. ulia. }
  unfold saveBlock, mbind, M_bind. unfold mbind, M_bind in E1. rewrite E1. simpl.
  destruct best; simpl; (eexists; split; [reflexivity|]);
    split; simpl; rewrite ?T1, ?T2, ?T3, ?T4, ?T5; try done;
    by eapply body_added_frame; [..|exact Hb].
Qed.

Lemma path_mono r r' id l :
  genesisID r' = genesisID r → hdrStore r ⊆ hdrStore r' → path r id l → path r' id l.
Proof.
  intros Eg Hsub. induction 1 as [|id s l Hs Hne Hp IH].
  - rewrite <- Eg. apply path_genesis.
  - eapply path_step; [by eapply lookup_weaken|by rewrite Eg|done].
Qed.

Section preserve.
Context r sz b rcs conf best ps r' (HI : repo_inv r) (Had : addable r b rcs conf)
  (Hps : hdrStore r !! ParentID (blkHeader b) = Some ps)
  (Hr : added r sz b rcs conf best ps r').
Let h := blkHeader b.
Let id := ID h.
Let sum := MkBlockSummary h (Tx_ID <$> blkTxs b) sz conf.

Lemma new_number : Number id = Number (ParentID h) + 1 ∧ Number id < max32 - 1.
Proof.
  unfold id. rewrite Number_ID. unfold Header_Number.
  pose proof (Number_nonneg r HI _ _ Hps) as Hp. destruct Had as [_ Hn _ _ _ _ _].
  fold h in Hn, Hp. rewrite wrap32_id by ulia. lia.
Qed.

Lemma sub_hdr : hdrStore r ⊆ hdrStore r'.
Proof. rewrite (add_hdr _ _ _ _ _ _ _ _ Hr). apply insert_subseteq, (ad_fresh _ _ _ _ Had). Qed.

Lemma stored_cases i s : hdrStore r' !! i = Some s →
  (i = id ∧ s = sum) ∨ (i ≠ id ∧ hdrStore r !! i = Some s).
Proof.
  rewrite (add_hdr _ _ _ _ _ _ _ _ Hr). fold h. fold id. fold sum.
  rewrite lookup_insert_Some. naive_solver.
Qed.

Lemma scan_after n : ScanConflicts r' n = ScanConflicts r n + (if decide (n = Number id) then 1 else 0).
Proof.
  unfold ScanConflicts, idsWithNumber. rewrite (add_hdr _ _ _ _ _ _ _ _ Hr), dom_insert_L.
  fold h. fold id. assert (id ∉ dom (hdrStore r)) as Hid
    by apply not_elem_of_dom, (ad_fresh _ _ _ _ Had).
  case_decide as E.
  - replace (filter _ ({[id]} ∪ _)) with
      ({[id]} ∪ filter (λ i, Number i = n) (dom (hdrStore r))) by (apply set_eq; set_solver).
    rewrite size_union, size_singleton by set_solver. lia.
  - replace (filter _ ({[id]} ∪ _)) with (filter (λ i, Number i = n) (dom (hdrStore r)))
      by (apply set_eq; set_solver). lia.
Qed.

Lemma new_version i s : hdrStore r !! i = Some s → version s ≠ (Number id, conf).
Proof.
  intros Hs E. rewrite (version_number r HI i s Hs) in E. injection E as En Ec.
  destruct (ri_conflicts _ HI i s Hs) as [Hc _].
  rewrite Ec, En, (ad_conf _ _ _ _ Had) in Hc. unfold id in Hc. rewrite Number_ID in Hc.
  fold h in Hc. lia.
Qed.

Lemma version_sum : version sum = (Number id, conf).
Proof. unfold version, sum, id. simpl. by rewrite Number_ID. Qed.

Lemma index_old i s : hdrStore r !! i = Some s → indexTries r' !! version s = indexTries r !! version s.
Proof.
  intros Hs. rewrite (add_index _ _ _ _ _ _ _ _ Hr). fold h. fold id.
  apply lookup_insert_ne. intros E. by apply (new_version i s Hs).
Qed.

Lemma parent_ne : ParentID h ≠ id.
Proof. intros E. destruct new_number as [Hn _]. rewrite E in Hn. lia. Qed.

Lemma id_not_genesis : id ≠ genesisID r.
Proof.
  intros E. destruct (ri_genesis _ HI) as (s & Hs & _). rewrite <- E in Hs.
  pose proof (ad_fresh _ _ _ _ Had). unfold id, h in Hs. congruence.
Qed.

Lemma old_path i l : path r i l → path r' i l.
Proof. apply path_mono; [apply (add_genesis _ _ _ _ _ _ _ _ Hr)|apply sub_hdr]. Qed.

(** The index of the new block. *)
Lemma index_new :
  ∃ l m, path r' id l ∧ indexTries r' !! version sum = Some m ∧ indexes m l.
Proof.
  destruct (ri_index _ HI _ _ Hps) as (l & m & Hp & Em & Hm).
  exists (l ++ [id]), (<[Number id := id]> m). split_and!.
  - eapply path_step; [|rewrite (add_genesis _ _ _ _ _ _ _ _ Hr); apply id_not_genesis|].
    + by rewrite (add_hdr _ _ _ _ _ _ _ _ Hr), lookup_insert_eq.
    + by apply old_path.
  - rewrite version_sum, (add_index _ _ _ _ _ _ _ _ Hr). fold h. fold id.
    by rewrite lookup_insert_eq, Em.
  - pose proof (path_length r HI _ _ Hp) as Hlen. destruct new_number as [Hn _]. fold h in Hlen.
    intros n. rewrite lookup_insert, Hm. destruct (Z.ltb_spec n 0).
    + by rewrite decide_False by (unfold h in *; lia).
    + case_decide as E.
      * rewrite lookup_app_r by (unfold h in *; lia).
        by replace (Z.to_nat n - length l)%nat with O by (unfold h in *; lia).
      * destruct (decide (Z.to_nat n < length l)%nat) as [Hlt|Hge].
        -- by rewrite lookup_app_l.
        -- rewrite (lookup_ge_None_2 l), lookup_ge_None_2; [done|..|lia].
           rewrite length_app. simpl. unfold h in *. lia.
Qed.

Lemma version_ranges i s : hdrStore r !! i = Some s → is32 (version s).1 ∧ is64 (version s).2.
Proof.
  intros Hs. rewrite (version_number r HI i s Hs). simpl.
  destruct (ri_conflicts _ HI i s Hs) as [? ?].
  rewrite <- (header_number r HI i s Hs). split; [apply Header_Number_range|ulia].
Qed.

Lemma conf_range : is64 conf.
Proof.
  pose proof (ad_conf_small _ _ _ _ Had) as H1. rewrite (ad_conf _ _ _ _ Had) in *.
  unfold ScanConflicts in *. ulia.
Qed.

Lemma stored_old i s txs rcs' : hdrStore r !! i = Some s → stored r s txs rcs' → stored r' s txs rcs'.
Proof.
  intros Hs [H1 H2 H3 H4 H5 H6 H7]. destruct (add_body _ _ _ _ _ _ _ _ Hr) as [_ _ Hoth Hkeep _ _ Hbo].
  destruct (version_ranges i s Hs) as [Hv1 Hv2]. pose proof conf_range.
  assert (∀ f j, Z.of_nat j < max64 → ∀ j' f', Z.of_nat j' < max64 →
    appendTxKey (version s).1 (version s).2 (Z.of_nat j) f ≠
    appendTxKey (Header_Number h) conf (Z.of_nat j') f') as Hne.
  { intros f j Hj j' f' Hj' E. apply appendTxKey_inj in E as (E1 & E2 & _); try ulia;
      [|apply Header_Number_range]. apply (new_version i s Hs).
    rewrite (surjective_pairing (version s)), E1, E2. unfold id. by rewrite Number_ID. }
  split; try done.
  - intros j tx Hj. rewrite Hbo; [by apply H4|]. intros; apply Hne; [|done].
    apply lookup_lt_Some in Hj. ulia.
  - intros j rc Hj. rewrite Hbo; [by apply H5|]. intros; apply Hne; [|done].
    apply lookup_lt_Some in Hj. rewrite H2 in Hj. ulia.
  - intros j tx rc Hj Hj'. rewrite Hoth; [by eapply H6| |].
    + intros tx' _ E. apply txMetaKey_inj in E as (_ & E1 & E2); try apply Tx_ID_range; try ulia;
        [|pose proof (Header_Number_range h); unfold h in *; ulia].
      apply (new_version i s Hs).
      rewrite (surjective_pairing (version s)), E1, E2. unfold id. by rewrite Number_ID.
    + pose proof (txMetaKey_length (Tx_ID tx) (version s).1 (version s).2). lia.
  - intros tx Htx. apply Hkeep. by apply H7.
Qed.

Lemma stored_new : stored r' sum (blkTxs b) rcs.
Proof.
  destruct (add_body _ _ _ _ _ _ _ _ Hr) as [Hm Hf _ _ Ht Hrc _]. destruct Had.
  split; rewrite ?version_sum; unfold id; rewrite ?Number_ID; simpl; done.
Qed.

Lemma keys_after k v : txIndexer r' !! k = Some v → length k = 8%nat ∨
  ∃ i s txid, hdrStore r' !! i = Some s ∧ txid ∈ sumTxs s ∧
    k = txMetaKey txid (version s).1 (version s).2.
Proof.
  intros Hk. destruct (decide (length k = 8%nat)) as [|H8]; [by left|]. right.
  destruct (decide (Exists (λ tx, k = txMetaKey (Tx_ID tx) (Header_Number h) conf) (blkTxs b)))
    as [(tx & Htx & ->)%Exists_exists|Hno].
  - exists id, sum, (Tx_ID tx). split_and!.
    + by rewrite (add_hdr _ _ _ _ _ _ _ _ Hr), lookup_insert_eq.
    + simpl. by apply list_elem_of_fmap_2.
    + rewrite version_sum. unfold id. by rewrite Number_ID.
  - destruct (add_body _ _ _ _ _ _ _ _ Hr) as [_ _ Hoth _ _ _ _].
    rewrite Hoth in Hk; [|intros tx Htx E; apply Hno, Exists_exists; eauto|done].
    destruct (ri_keys _ HI k v Hk) as [|(i & s & txid & Hs & Htx & ->)]; [done|].
    exists i, s, txid. split_and!; [by eapply lookup_weaken, sub_hdr|done|done].
Qed.

Lemma repo_inv_added : repo_inv r'.
Proof.
  pose proof (add_genesis _ _ _ _ _ _ _ _ Hr) as Eg.
  assert (hdrStore r' !! id = Some sum) as Hnew
    by (by rewrite (add_hdr _ _ _ _ _ _ _ _ Hr), lookup_insert_eq).
  split; rewrite ?Eg.
  - intros i s [[-> ->]|[_ Hs]]%stored_cases; [done|]. by apply (ri_id _ HI).
  - destruct (ri_genesis _ HI) as (s & Hs & E). exists s. split; [|done].
    by eapply lookup_weaken, sub_hdr.
  - apply (ri_genesis_num _ HI).
  - intros i s [[-> ->]|[_ Hs]]%stored_cases Hne.
    + split; [eapply lookup_weaken_is_Some, sub_hdr; eauto|]. apply new_number.
    + destruct (ri_parent _ HI i s Hs Hne) as [? ?]. split; [|done].
      by eapply lookup_weaken_is_Some, sub_hdr.
  - intros i1 i2 s1 s2 [[-> ->]|[_ H1]]%stored_cases [[-> ->]|[_ H2]]%stored_cases E; try done.
    + rewrite version_sum in E. by destruct (new_version i2 s2 H2).
    + rewrite version_sum in E. by destruct (new_version i1 s1 H1).
    + by eapply (ri_version _ HI).
  - intros i s [[-> ->]|[_ Hs]]%stored_cases; rewrite scan_after.
    + rewrite decide_True by done. simpl. unfold id. rewrite Number_ID.
      pose proof (ad_conf _ _ _ _ Had). pose proof (ad_conf_small _ _ _ _ Had).
      pose proof conf_range. unfold h. ulia.
    + destruct (ri_conflicts _ HI i s Hs). case_decide; lia.
  - intros i s [[-> ->]|[_ Hs]]%stored_cases; [apply index_new|].
    destruct (ri_index _ HI i s Hs) as (l & m & Hp & Em & Hm). exists l, m.
    split_and!; [by apply old_path|by rewrite (index_old i)|done].
  - intros i s [[-> ->]|[_ Hs]]%stored_cases; [eauto using stored_new|].
    destruct (ri_body _ HI i s Hs) as (txs & rcs' & Hst). eauto using stored_old.
  - apply keys_after.
Qed.
End preserve.

(** ** Reachable repositories *)
Inductive grows : ChainRepo → Prop :=
  | grow_new sz g r : is256 (ParentID (blkHeader g)) → NewRepository sz g = Ok r → grows r
  | grow_add r sz b rcs conf best r' :
      grows r → addable r b rcs conf → AddBlock sz b rcs conf best r = Ok (tt, r') → grows r'.

Lemma NewRepository_inv sz g r :
  is256 (ParentID (blkHeader g)) → NewRepository sz g = Ok r → repo_inv r.
Proof.
  intros Hpar.
  unfold NewRepository. destruct (Z.eqb_spec (Header_Number (blkHeader g)) 0) as [H0g|]; [|done].
  destruct g as [hd [|]]; [|done]. simpl in *. intros [= <-]. pose proof (Number_ID hd) as Hid.
  rewrite H0g in Hid.
  set (sum := MkBlockSummary hd [] sz 0).
  assert (∀ i s, ({[ID hd := sum]} : gmap Bytes32 BlockSummary) !! i = Some s → i = ID hd ∧ s = sum)
    as Honly by (intros i s; rewrite lookup_singleton_Some; naive_solver).
  split; simpl.
  - intros i s [-> ->]%Honly. done.
  - exists sum. rewrite lookup_insert_eq. split; [done|]. simpl.
    apply Number_range in Hpar. unfold Header_Number, wrap32 in H0g.
    apply Z.mod_divide in H0g as [q Hq]; [|done]. unfold_int. lia.
  - done.
  - intros i s [-> ->]%Honly Hne. done.
  - intros i1 i2 s1 s2 [-> _]%Honly [-> _]%Honly. done.
  - intros i s [-> ->]%Honly. unfold ScanConflicts, idsWithNumber. simpl.
    rewrite dom_insert_L, dom_empty_L, union_empty_r_L.
    replace (filter _ {[ID hd]}) with ({[ID hd]} : gset Bytes32) by (apply set_eq; set_solver).
    rewrite size_singleton. ulia.
  - intros i s [-> ->]%Honly. exists [ID hd], {[0 := ID hd]}. split_and!.
    + apply (path_genesis (MkChainRepo _ _ _ _ _ _ (ID hd))).
    + unfold version. simpl. rewrite H0g, Hid. by rewrite lookup_insert_eq.
    + intros n. destruct (Z.ltb_spec n 0); [by rewrite lookup_singleton_ne by lia|].
      destruct (decide (n = 0)) as [->|]; [by rewrite lookup_singleton_eq|].
      rewrite lookup_singleton_ne by lia. by destruct (Z.to_nat n) eqn:E; [lia|].
  - intros i s [-> ->]%Honly. exists [], []. split; simpl; try done. set_solver.
  - done.
Qed.

Lemma grows_inv r : grows r → repo_inv r.
Proof.
  induction 1 as [sz g r Hp E|r sz b rcs conf best r' Hg IH Had E];
    [by eapply NewRepository_inv|].
  pose proof (AddBlock_added r sz b rcs conf best Had) as Ha.
  destruct (hdrStore r !! ParentID (blkHeader b)) as [ps|] eqn:Hps; [|congruence].
  destruct Ha as (r'' & E' & Ha). rewrite E in E'. injection E' as <-.
  by eapply repo_inv_added.
Qed.
End inv.
