(* ===== verification/ChainDemo.v ===== *)
(** * A small repository

    A genesis block, a chain of two blocks with one transaction, and a competing
    first block, built by running the repository's own code with the concrete
    parameters of [External].  Other components use it as a concrete input. *)

From S2P Require Import Prelude Bytes External Thor Block Tx ChainRepo ChainRepoInv.

#[local] Existing Instances demo_Rlp demo_Crypto.

Definition demo_block (parent : Bytes32) (time score : Z) (signer : Z) (com : bool)
    (txs : list Transaction) : block :=
  MkBlock (MkHeader parent time 20000000 signer 0 score (MkTxsRootFeatures 0 0) signer 0
    (signer :: replicate 64 0) (MkExtension [] com None)) txs.

(** Adding a block, when the node's conditions hold. *)
Definition try_add (r : ChainRepo) (b : block) (rcs : list Receipt) (best : bool)
    : option ChainRepo :=
  let conf := ScanConflicts r (Header_Number (blkHeader b)) in
  if bool_decide (hdrStore r !! ID (blkHeader b) = None) &&
     (Number (ParentID (blkHeader b)) <? max32 - 2) &&
     bool_decide (NoDup (Tx_ID <$> blkTxs b)) &&
     (length rcs =? length (blkTxs b))%nat &&
     (Z.of_nat (length (blkTxs b)) <? max64) && (conf <? max32)
  then match AddBlock 0 b rcs conf best r with Ok (_, r') => Some r' | Err _ => None end
  else None.

Lemma try_add_grows r b rcs best r' : try_add r b rcs best = Some r' → grows r → grows r'.
Proof.
  unfold try_add. intros E Hg.
  destruct (_ && _) eqn:Hb; [|done].
  repeat (apply andb_true_iff in Hb as [Hb ?]).
  destruct (AddBlock _ _ _ _ _ r) as [[[] r'']|] eqn:Ea; [|done]. simplify_eq.
  eapply grow_add; [exact Hg| |exact Ea].
  split; [by apply bool_decide_eq_true in Hb|lia|by eapply bool_decide_eq_true|
    by apply Nat.eqb_eq|lia|done|lia].
Qed.

Definition demo_genesis : block := demo_block ((max32 - 1) * 2 ^ 224) 0 0 0 false [].
Definition demo_repo_tx : Transaction :=
  Legacy (MkLegacy 39 0 720 [] 0 21000 None 1 (MkReserved 0 []) (7 :: replicate 64 0)).
Definition demo_receipt : Receipt := MkReceipt 0 21000 7 0 0 true [].

Definition demo_b1 : block := demo_block (ID (blkHeader demo_genesis)) 10 1 5 false [demo_repo_tx].
Definition demo_b1' : block := demo_block (ID (blkHeader demo_genesis)) 20 1 6 false [].
Definition demo_b2 : block := demo_block (ID (blkHeader demo_b1)) 20 2 6 false [].

Definition demo_run : option ChainRepo :=
  match NewRepository 0 demo_genesis with
  | Err _ => None
  | Ok r =>
      r ← try_add r demo_b1 [demo_receipt] true;
      r ← try_add r demo_b1' [] false;
      try_add r demo_b2 [] true
  end.

Definition demo_repo : ChainRepo :=
  default (MkChainRepo ∅ ∅ ∅ ∅ ∅ (MkBlockSummary (blkHeader demo_genesis) [] 0 0) 0) demo_run.

Lemma demo_run_ok : bool_decide (demo_run = None) = false.
Proof. vm_compute. reflexivity. Qed.

Lemma demo_run_grows r : demo_run = Some r → grows r.
Proof.
  unfold demo_run. intros E. destruct (NewRepository 0 demo_genesis) as [r0|] eqn:E0;
    [|discriminate E].
  apply bind_Some in E as (r1 & E1 & E). apply bind_Some in E as (r2 & E2 & E3).
  eapply try_add_grows; [exact E3|]. eapply try_add_grows; [exact E2|].
  eapply try_add_grows; [exact E1|]. eapply grow_new; [|exact E0].
  unfold is256, demo_genesis, demo_block, max32. cbn [blkHeader ParentID]. lia.
Qed.

Lemma demo_repo_grows : grows demo_repo.
Proof.
  pose proof demo_run_ok as Hok. apply bool_decide_eq_false in Hok.
  pose proof demo_run_grows as Hg. unfold demo_repo. revert Hok Hg.
  generalize demo_run. intros [r|] Hok Hg; [by apply Hg|by destruct Hok].
Qed.

Definition demo_head : Bytes32 := ID (blkHeader demo_b2).
Definition demo_side : Bytes32 := ID (blkHeader demo_b1').
Definition demo_chain : list Bytes32 :=
  [ID (blkHeader demo_genesis); ID (blkHeader demo_b1); demo_head].
Definition demo_branch : list Bytes32 := [ID (blkHeader demo_genesis); demo_side].

(** The parent links, by computation. *)
Definition demo_links : list (Bytes32 * Bytes32) :=
  [(demo_head, ID (blkHeader demo_b1)); (ID (blkHeader demo_b1), ID (blkHeader demo_genesis));
   (demo_side, ID (blkHeader demo_genesis))].

Definition link_ok (l : Bytes32 * Bytes32) : bool :=
  match hdrStore demo_repo !! l.1 with
  | Some s => (ParentID (sumHeader s) =? l.2) && negb (l.1 =? genesisID demo_repo)
  | None => false
  end.

Lemma demo_links_ok :
  forallb link_ok demo_links && (genesisID demo_repo =? ID (blkHeader demo_genesis)) = true.
Proof. vm_compute. reflexivity. Qed.

Lemma demo_genesis_id : genesisID demo_repo = ID (blkHeader demo_genesis).
Proof. apply Z.eqb_eq. pose proof demo_links_ok as E. by apply andb_true_iff in E as [_ E]. Qed.

Lemma demo_link id p l : (id, p) ∈ demo_links → path demo_repo p l → path demo_repo id (l ++ [id]).
Proof.
  pose proof demo_links_ok as E. apply andb_true_iff in E as [E _].
  rewrite forallb_forall in E. intros Hin Hp.
  assert (link_ok (id, p) = true) as Hl by (apply E, list_elem_of_In, Hin).
  unfold link_ok in Hl. cbn [fst snd] in Hl.
  destruct (hdrStore demo_repo !! id) as [s|] eqn:Hs; [|discriminate Hl].
  apply andb_true_iff in Hl as [Hpar Hne]. apply Z.eqb_eq in Hpar.
  apply negb_true_iff, Z.eqb_neq in Hne.
  eapply path_step; [exact Hs|exact Hne|rewrite Hpar; exact Hp].
Qed.

Lemma demo_root_path : path demo_repo (ID (blkHeader demo_genesis)) [ID (blkHeader demo_genesis)].
Proof. rewrite <- demo_genesis_id. apply path_genesis. Qed.

Lemma demo_chain_path : path demo_repo demo_head demo_chain.
Proof.
  apply (demo_link demo_head (ID (blkHeader demo_b1)) [_; _]); [by left|].
  apply (demo_link _ (ID (blkHeader demo_genesis)) [_]); [by right; left|]. apply demo_root_path.
Qed.

Lemma demo_branch_path : path demo_repo demo_side demo_branch.
Proof.
  apply (demo_link demo_side (ID (blkHeader demo_genesis)) [_]); [by right; right; left|].
  apply demo_root_path.
Qed.

(** The timestamps along the chain, by computation. *)
Definition demo_time (id : Bytes32) : option Z :=
  (λ s, Timestamp (sumHeader s)) <$> hdrStore demo_repo !! id.

Lemma demo_times : demo_time <$> demo_chain = [Some 0; Some 10; Some 20].
Proof. vm_compute. reflexivity. Qed.
