(* ===== verification/ChainRepoCorrect.v ===== *)
(** * Correctness of the block repository

    Whatever blocks have been added, and on whatever branches: the chain of any
    stored block is found by number and by id; [Exclude] computes the branch
    between two heads; transactions are found exactly when they are on the
    chain, by both search strategies of [HasTransaction]; the search by
    timestamp finds the boundary block. *)

From S2P Require Import Prelude Bytes External Thor Block Tx ChainRepo ChainRepoInv ChainDemo.

Section correct.
Context `{Rlp} `{CS : CryptoSpec}.
Implicit Types (r : ChainRepo) (l : list Bytes32).

(** ** Branches *)
Section branches.
Context r (HI : repo_inv r).

Lemma common_prefix a b la lb n id :
  path r a la → path r b lb → la !! n = Some id → id ∈ lb →
  ∀ x, x ∈ take (S n) la → x ∈ lb.
Proof.
  intros Ha Hb Hn [m Hm]%list_elem_of_lookup x Hx.
  pose proof (path_prefix r _ _ _ _ Ha Hn) as P1.
  pose proof (path_prefix r _ _ _ _ Hb Hm) as P2.
  rewrite (path_unique r _ _ _ P1 P2) in Hx. by apply elem_of_take in Hx as (i & ? & _);
    eapply list_elem_of_lookup_2.
Qed.

(** The membership test of the loop. *)
Lemma exclude_test a b la lb n id :
  path r a la → path r b lb → la !! n = Some id →
  (if Number b <? Number id then Ok false else
   if Number id =? Number b then Ok (id =? b) else HasBlock r b id) =
  Ok (bool_decide (id ∈ lb)).
Proof.
  intros Ha Hb Hn. pose proof (path_number r HI _ _ _ _ Ha Hn) as En.
  pose proof (path_length r HI _ _ Hb) as Lb.
  destruct (Z.ltb_spec (Number b) (Number id)) as [Hlt|Hle].
  - f_equal. symmetry. apply bool_decide_eq_false. intros [m Hm]%list_elem_of_lookup.
    pose proof (path_number r HI _ _ _ _ Hb Hm). apply lookup_lt_Some in Hm. lia.
  - destruct (Z.eqb_spec (Number id) (Number b)) as [E|Hne];
      [|apply (HasBlock_path r HI); [done|lia]].
    f_equal. pose proof (path_last r _ _ Hb) as Hlast. rewrite last_lookup in Hlast.
    destruct (Z.eqb_spec id b) as [->|Hib]; symmetry.
    + apply bool_decide_eq_true. by eapply list_elem_of_lookup_2.
    + apply bool_decide_eq_false. intros [m Hm]%list_elem_of_lookup.
      pose proof (path_number r HI _ _ _ _ Hb Hm) as Em. apply Hib.
      replace m with (pred (length lb)) in Hm by lia. congruence.
Qed.

Lemma path_genesis_in a la : path r a la → la !! 0%nat = Some (genesisID r).
Proof.
  induction 1 as [|id s l Hs Hne Hp IH]; [done|].
  rewrite lookup_app_l; [done|]. by apply lookup_lt_Some in IH.
Qed.

Lemma excludeFrom_spec a b la lb n fuel id :
  path r a la → path r b lb → la !! n = Some id → (n ≤ fuel)%nat →
  excludeFrom fuel r a b id = Ok (reverse (filter (.∉ lb) (take (S n) la))).
Proof.
  intros Ha Hb. revert fuel id. induction n as [|n IH]; intros fuel id Hn Hf;
    pose proof (path_number r HI _ _ _ _ Ha Hn) as En.
  - assert (excludeFrom fuel r a b id = Ok []) as ->
      by (destruct fuel; simpl; by rewrite En).
    rewrite (path_genesis_in _ _ Ha) in Hn. injection Hn as <-.
    pose proof (path_genesis_in _ _ Ha) as Hga. destruct la as [|g la]; [done|].
    simplify_eq/=. rewrite filter_cons_False; [done|]. intros Hno. apply Hno.
    eapply list_elem_of_lookup_2, (path_genesis_in _ _ Hb).
  - destruct fuel as [|fuel]; [lia|]. simpl. destruct (Z.eqb_spec (Number id) 0); [lia|].
    rewrite (exclude_test a b la lb (S n) id) by done. simpl.
    case_bool_decide as Hin.
    + rewrite filter_none; [done|]. intros x Hx Hno. apply Hno.
      by eapply (common_prefix a b la lb (S n) id).
    + destruct (lookup_lt_is_Some_2 la n) as [p Hp];
        [apply lookup_lt_Some in Hn; lia|].
      rewrite wrap32_id, (GetBlockID_path r HI a la) by (first [done|lia|
        pose proof (Number_range id); unfold_int; destruct (path_stored r HI _ _
          (path_prefix r _ _ _ _ Ha Hn)) as [s Hs]; pose proof (header_number r HI id s Hs);
        pose proof (Header_Number_range (sumHeader s)); unfold_int; lia]).
      replace (Z.to_nat (Number id - 1)) with n by lia. rewrite Hp. simpl.
      rewrite IH by (first [done|lia]). simpl. f_equal.
      rewrite (take_S_r la (S n) id Hn), filter_app, filter_cons_True by done.
      by rewrite reverse_app.
Qed.
End branches.

(** ** Transactions *)
Definition contains r (b txid : Bytes32) : Prop :=
  ∃ s, hdrStore r !! b = Some s ∧ txid ∈ sumTxs s.

Section transactions.
Context r (HI : repo_inv r).

Lemma path_parent id l s :
  path r id l → hdrStore r !! id = Some s → id ≠ genesisID r →
  ∃ l', l = l' ++ [id] ∧ path r (ParentID (sumHeader s)) l'.
Proof. destruct 1 as [|id s' l Hs' _ Hp]; intros Hs Hne; [done|]. simplify_eq. eauto. Qed.

Lemma scanRecent_spec a la n id txid ref fuel :
  path r a la → la !! n = Some id → 0 ≤ ref → Z.of_nat n + 1 - ref ≤ Z.of_nat fuel →
  ∃ res, scanRecent fuel r txid ref id = Ok res ∧
    (res = true ↔ ∃ m b, (m ≤ n)%nat ∧ ref ≤ Z.of_nat m ∧ la !! m = Some b ∧ contains r b txid).
Proof.
  intros Ha Hn Href. revert id n Hn. induction fuel as [|fuel IH]; intros id n Hn Hf;
    pose proof (path_number r HI _ _ _ _ Ha Hn) as En;
    destruct (path_stored r HI _ _ (path_prefix r _ _ _ _ Ha Hn)) as [s Hs];
    pose proof (Number_nonneg r HI id s Hs) as Hnn.
  { exists false. simpl. destruct (Z.leb_spec ref (Number id)); [lia|]. simpl.
    split; [done|]. split; [done|]. intros (m & b & ? & ? & _). lia. }
  simpl. destruct (Z.leb_spec ref (Number id)) as [Hle|Hgt]; simpl.
  2: { exists false. split; [done|]. split; [done|]. intros (m & b & ? & ? & _). lia. }
  assert (Number id < max32 - 1) as Hmax.
  { destruct (decide (id = genesisID r)) as [->|Hne].
    - rewrite (ri_genesis_num _ HI). ulia.
    - apply (ri_parent _ HI id s Hs Hne). }
  destruct (Z.eqb_spec (Number id) (max32 - 1)); [lia|]. simpl.
  unfold GetBlockSummary at 1. rewrite Hs. simpl. case_bool_decide as Hin.
  { exists true. split; [done|]. split; [|done]. intros _. exists n, id.
    split_and!; [lia|lia|done|by exists s]. }
  destruct (decide (id = genesisID r)) as [->|Hne].
  { destruct (ri_genesis _ HI) as (s' & Hs' & Hpar). simplify_eq.
    rewrite (ri_genesis_num _ HI) in En. exists false. split.
    { destruct fuel; simpl; rewrite Hpar; rewrite Z.eqb_refl; by rewrite andb_false_r. }
    split; [done|]. intros (m & b & Hm & _ & Hb & (s'' & Hs'' & Hin')).
    replace m with n in Hb by lia. simplify_eq. }
  destruct (ri_parent _ HI id s Hs Hne) as ([ps Hps] & Ep & _).
  pose proof (Number_nonneg r HI _ _ Hps). destruct n as [|n]; [lia|].
  assert (la !! n = Some (ParentID (sumHeader s))) as Hpn.
  { pose proof (path_prefix r _ _ _ _ Ha Hn) as P1.
    destruct (path_parent id _ s P1 Hs Hne) as (l' & El & Hp').
    rewrite <- (lookup_take_lt la (S (S n))) by lia. rewrite El.
    pose proof (path_last r _ _ Hp') as Hl. pose proof (path_length r HI _ _ Hp').
    rewrite last_lookup in Hl.
    rewrite lookup_app_l by (apply lookup_lt_Some in Hl; lia).
    by replace n with (pred (length l')) by lia. }
  destruct (IH _ _ Hpn) as (res & E & Hres); [lia|]. exists res. split; [done|]. rewrite Hres.
  split; intros (m & b & Hm & Hr & Hb & Hc); exists m, b; split_and!; try done; try lia.
  destruct (decide (m = S n)) as [->|]; [|lia]. exfalso. simplify_eq.
  destruct Hc as (s' & Hs' & ?). simplify_eq.
Qed.

(** The entries of the metadata index that concern a transaction. *)
Definition meta_of (txid : Bytes32) (kv : bytes * option storageTxMeta) : Prop :=
  ∃ i s, hdrStore r !! i = Some s ∧ txid ∈ sumTxs s ∧
    txIndexer r !! kv.1 = Some kv.2 ∧ kv.1 = txMetaKey txid (version s).1 (version s).2.

Lemma sumTxs_range i s txid : hdrStore r !! i = Some s → txid ∈ sumTxs s → is256 txid.
Proof.
  intros Hs Hin. destruct (ri_body _ HI i s Hs) as (txs & rcs & [Eids _ _ _ _ _ _]).
  rewrite Eids in Hin. apply list_elem_of_fmap in Hin as (tx & -> & _). apply Tx_ID_range.
Qed.

Lemma withPrefix_meta txid kv : is256 txid → kv ∈ withPrefix r (be 32 txid) → meta_of txid kv.
Proof.
  intros Hid. unfold withPrefix. rewrite list_elem_of_filter, be_length.
  destruct kv as [k v]. simpl. intros [Hpre Hk%elem_of_map_to_list].
  destruct (ri_keys _ HI k v Hk) as [H8|(i & s & txid' & Hs & Hin & ->)].
  - apply (f_equal length) in Hpre. rewrite length_take, be_length, H8 in Hpre. lia.
  - rewrite txMetaKey_prefix in Hpre. apply be_inj in Hpre as ->.
    + by exists i, s.
    + simpl. by apply (sumTxs_range i s).
    + done.
Qed.

Lemma in_withPrefix txid i s : hdrStore r !! i = Some s → txid ∈ sumTxs s →
  ∃ v, (txMetaKey txid (version s).1 (version s).2, v) ∈ withPrefix r (be 32 txid).
Proof.
  intros Hs Hin. destruct (ri_body _ HI i s Hs) as (txs & rcs & [Eids El _ _ _ Hm _]).
  rewrite Eids in Hin. apply list_elem_of_fmap in Hin as (tx & -> & [j Hj]%list_elem_of_lookup).
  destruct (lookup_lt_is_Some_2 rcs j) as [rc Hrc];
    [rewrite El; by eapply lookup_lt_Some|].
  eexists. unfold withPrefix. rewrite list_elem_of_filter, be_length. simpl.
  split; [apply txMetaKey_prefix|]. apply elem_of_map_to_list. by eapply Hm.
Qed.

(** On a chain, the block with a stored block's number and conflicts is that block. *)
Lemma chain_version a la i s : path r a la → hdrStore r !! i = Some s → Number i ≤ Number a →
  ∃ s', chain_GetBlockSummary r a (Number i) = Ok s' ∧
    (sumConflicts s' =? sumConflicts s) = bool_decide (i ∈ la).
Proof.
  intros Ha Hs Hle. pose proof (Number_nonneg r HI i s Hs). pose proof (path_length r HI _ _ Ha).
  destruct (lookup_lt_is_Some_2 la (Z.to_nat (Number i))) as [b Hb]; [lia|].
  pose proof (path_number r HI _ _ _ _ Ha Hb) as Eb.
  destruct (path_stored r HI _ _ (path_prefix r _ _ _ _ Ha Hb)) as [s' Hs'].
  exists s'. unfold chain_GetBlockSummary. rewrite (GetBlockID_path r HI a la) by done.
  rewrite Hb. simpl. unfold GetBlockSummary. rewrite Hs'. split; [done|].
  destruct (Z.eqb_spec (sumConflicts s') (sumConflicts s)) as [Ec|Hne]; symmetry.
  - apply bool_decide_eq_true.
    assert (b = i) as <-; [|by eapply list_elem_of_lookup_2].
    eapply (ri_version _ HI); [done..|].
    rewrite (version_number r HI b s'), (version_number r HI i s) by done. f_equal; lia.
  - apply bool_decide_eq_false. intros [m Hm]%list_elem_of_lookup.
    pose proof (path_number r HI _ _ _ _ Ha Hm) as Em. rewrite Em, Nat2Z.id in Hb. congruence.
Qed.

Lemma version_ranges64 i s : hdrStore r !! i = Some s → is64 (version s).1 ∧ is64 (version s).2.
Proof.
  intros Hs. destruct (ri_conflicts _ HI i s Hs). unfold version. simpl.
  pose proof (Header_Number_range (sumHeader s)). split; ulia.
Qed.

(** A metadata key names one block. *)
Lemma meta_unique txid i s j t :
  hdrStore r !! i = Some s → hdrStore r !! j = Some t → txid ∈ sumTxs s →
  txMetaKey txid (version s).1 (version s).2 = txMetaKey txid (version t).1 (version t).2 → j = i.
Proof.
  intros Hs Ht Hin E. destruct (version_ranges64 i s Hs), (version_ranges64 j t Ht).
  apply txMetaKey_inj in E as (_ & E1 & E2); [|by apply (sumTxs_range i s)|by apply (sumTxs_range i s)|done..].
  eapply (ri_version _ HI); [done..|].
  by rewrite (surjective_pairing (version s)), (surjective_pairing (version t)), E1, E2.
Qed.

(** What the loop over the metadata returns. *)
Definition meta_found (la : list Bytes32) txid (L : list (bytes * option storageTxMeta))
    (res : option (Z * Z * option storageTxMeta)) : Prop :=
  match res with
  | None => ∀ kv i s, kv ∈ L → hdrStore r !! i = Some s → txid ∈ sumTxs s →
      kv.1 = txMetaKey txid (version s).1 (version s).2 → i ∉ la
  | Some (n, c, v) => ∃ i s, hdrStore r !! i = Some s ∧ txid ∈ sumTxs s ∧ i ∈ la ∧
      version s = (n, c) ∧ txIndexer r !! txMetaKey txid n c = Some v
  end.

Lemma meta_skip la txid L res i s v :
  hdrStore r !! i = Some s → txid ∈ sumTxs s → i ∉ la → meta_found la txid L res →
  meta_found la txid ((txMetaKey txid (version s).1 (version s).2, v) :: L) res.
Proof.
  intros Hs Hin Hni. destruct res as [[[]]|]; [done|]. simpl.
  intros Hres kv j t [->|Hkv]%elem_of_cons Ht Hint Ek; [|by eapply Hres].
  by rewrite (meta_unique txid i s j t).
Qed.

Lemma findMeta_spec a la txid L : path r a la → Forall (meta_of txid) L →
  ∃ res, findMeta r a L = Ok res ∧ meta_found la txid L res.
Proof.
  intros Ha. induction 1 as [|[k v] L (i & s & Hs & Hin & Hk & Ek) HL IH].
  { exists None. split; [done|]. simpl. set_solver. }
  simpl in Ek, Hk. subst k. destruct IH as (res & E & Hres).
  destruct (version_ranges64 i s Hs). cbn [findMeta]. rewrite readVersion_key by done.
  pose proof (header_number r HI i s Hs) as Ev. rewrite Ev.
  destruct (Z.ltb_spec (Number a) (Number i)) as [Hlt|Hle].
  - exists res. split; [done|]. rewrite <- Ev. apply (meta_skip la txid L res i); try done.
    intros [m Hm]%list_elem_of_lookup. pose proof (path_number r HI _ _ _ _ Ha Hm).
    pose proof (path_length r HI _ _ Ha). apply lookup_lt_Some in Hm. lia.
  - destruct (chain_version a la i s Ha Hs Hle) as (s' & -> & ->). case_bool_decide as Hin'.
    + eexists. split; [done|]. rewrite <- Ev. by exists i, s.
    + exists res. split; [done|]. rewrite <- Ev. by apply (meta_skip la txid L res i).
Qed.

(** ** Bodies *)
Lemma collect {A} (f : nat → result A) k (l : list A) :
  (∀ i a, l !! i = Some a → f (k + i)%nat = Ok a) →
  foldr (λ i acc, a ← f i; rest ← acc; Ok (a :: rest)) (Ok []) (seq k (length l)) = Ok l.
Proof.
  revert k. induction l as [|a l IH]; intros k Hf; [done|]. simpl.
  rewrite <- (Nat.add_0_r k) at 1. rewrite (Hf O a) by done. simpl.
  rewrite IH; [done|]. intros i b Hi. rewrite <- (Hf (S i) b Hi). f_equal. lia.
Qed.

Lemma body_stored id s : hdrStore r !! id = Some s →
  ∃ txs rcs, stored r s txs rcs ∧ GetBlockTransactions r id = Ok txs ∧
    GetBlockReceipts r id = Ok rcs ∧ GetBlock r id = Ok (MkBlock (sumHeader s) txs).
Proof.
  intros Hs. destruct (ri_body _ HI id s Hs) as (txs & rcs & Hst). exists txs, rcs.
  assert (length (sumTxs s) = length txs) as El by (by rewrite (st_ids _ _ _ _ Hst), length_fmap).
  assert (GetBlockTransactions r id = Ok txs) as Et.
  { unfold GetBlockTransactions, GetBlockSummary. rewrite Hs. simpl. rewrite El. apply collect.
    intros i tx Hi. pose proof (st_tx _ _ _ _ Hst i tx Hi) as E. simpl in E.
    unfold getTransaction. simpl. by rewrite E. }
  split_and!; [done|done| |].
  - unfold GetBlockReceipts, GetBlockSummary. rewrite Hs. simpl.
    rewrite El, <- (st_length _ _ _ _ Hst). apply collect.
    intros i rc Hi. pose proof (st_receipt _ _ _ _ Hst i rc Hi) as E. simpl in E.
    unfold getReceipt. simpl. by rewrite E.
  - unfold GetBlock. unfold GetBlockSummary at 1. rewrite Hs. simpl. by rewrite Et.
Qed.

Lemma not_in_prefix_chain a la txid :
  path r a la → meta_found la txid (withPrefix r (be 32 txid)) None →
  ∀ b, b ∈ la → ¬ contains r b txid.
Proof.
  intros Ha Hnone b Hb (s & Hs & Hin). destruct (in_withPrefix txid b s Hs Hin) as [v Hv].
  by apply (Hnone _ b s Hv Hs Hin).
Qed.

Lemma contains_filter b txid : contains r b txid → txIndexer r !! txFilterKey txid ≠ None.
Proof.
  intros (s & Hs & Hin). destruct (ri_body _ HI b s Hs) as (txs & rcs & [Eids _ _ _ _ _ Hf]).
  rewrite Eids in Hin. apply list_elem_of_fmap in Hin as (tx & -> & Htx). by apply Hf.
Qed.

Lemma HasTransaction_spec a la txid ref :
  path r a la → is256 txid → is32 ref →
  (∀ b, b ∈ la → contains r b txid → ref ≤ Number b) →
  ∃ res, HasTransaction r a txid ref = Ok res ∧ (res = true ↔ ∃ b, b ∈ la ∧ contains r b txid).
Proof.
  intros Ha Hid Href Hrule. unfold HasTransaction.
  pose proof (path_length r HI _ _ Ha) as Hlen. pose proof (path_last r _ _ Ha) as Hlast.
  destruct (path_stored r HI _ _ Ha) as [s Hs]. pose proof (Number_nonneg r HI a s Hs).
  pose proof (header_number r HI a s Hs). pose proof (Header_Number_range (sumHeader s)).
  destruct (Z.ltb_spec (Number a) ref) as [Hlt|Hle].
  { exists false. split; [done|]. split; [done|]. intros (b & Hb & Hc).
    specialize (Hrule b Hb Hc). apply list_elem_of_lookup in Hb as [m Hm].
    pose proof (path_number r HI _ _ _ _ Ha Hm). apply lookup_lt_Some in Hm. lia. }
  rewrite wrap32_id by ulia. destruct (Z.ltb_spec (Number a - ref) 100) as [Hrec|Hold].
  - rewrite last_lookup in Hlast.
    destruct (scanRecent_spec a la (pred (length la)) a txid ref 101) as (res & E & Hres);
      [done|done|ulia|lia|].
    exists res. split; [done|]. rewrite Hres. split.
    + intros (m & b & _ & _ & Hb & Hc). exists b. split; [by eapply list_elem_of_lookup_2|done].
    + intros (b & Hb & Hc). pose proof (Hrule b Hb Hc) as Hr.
      apply list_elem_of_lookup in Hb as [m Hm]. pose proof (path_number r HI _ _ _ _ Ha Hm).
      exists m, b. split_and!; try done; [|lia]. apply lookup_lt_Some in Hm. lia.
  - case_bool_decide as Hf.
    { exists false. split; [done|]. split; [done|]. intros (b & _ & Hc).
      by destruct (contains_filter b txid Hc). }
    destruct (findMeta_spec a la txid (withPrefix r (be 32 txid)) Ha) as (res & -> & Hres).
    { apply Forall_forall. intros kv Hkv. by apply withPrefix_meta. }
    simpl. eexists. split; [done|]. rewrite bool_decide_eq_true.
    destruct res as [[[n c] v]|].
    + split; [|done]. intros _. destruct Hres as (i & s' & Hs' & Hin & Hi & _).
      exists i. split; [done|]. by exists s'.
    + split; [done|]. intros (b & Hb & Hc). by destruct (not_in_prefix_chain a la txid Ha Hres b Hb).
Qed.

Lemma GetTransactionMeta_spec a la txid :
  path r a la → is256 txid →
  match GetTransactionMeta r a txid with
  | Ok m => ∃ b i tx rc txs rcs, b ∈ la ∧ Number b = tmBlockNum m ∧ tmIndex m = Z.of_nat i ∧
      GetBlockTransactions r b = Ok txs ∧ txs !! i = Some tx ∧ Tx_ID tx = txid ∧
      GetBlockReceipts r b = Ok rcs ∧ rcs !! i = Some rc ∧ rcReverted rc = tmReverted m
  | Err e => e = errNotFound ∧ ∀ b, b ∈ la → ¬ contains r b txid
  end.
Proof.
  intros Ha Hid. unfold GetTransactionMeta.
  destruct (findMeta_spec a la txid (withPrefix r (be 32 txid)) Ha) as (res & -> & Hres).
  { apply Forall_forall. intros kv Hkv. by apply withPrefix_meta. }
  simpl. destruct res as [[[n c] v]|].
  - destruct Hres as (b & s & Hs & Hin & Hb & Ev & Hm).
    destruct (body_stored b s Hs) as (txs & rcs & Hst & Et & Er & _).
    rewrite (st_ids _ _ _ _ Hst) in Hin.
    apply list_elem_of_fmap in Hin as (tx & -> & [i Hi]%list_elem_of_lookup).
    destruct (lookup_lt_is_Some_2 rcs i) as [rc Hrc];
      [rewrite (st_length _ _ _ _ Hst); by eapply lookup_lt_Some|].
    pose proof (st_meta _ _ _ _ Hst i tx rc Hi Hrc) as Hm'. rewrite Ev in Hm'. simpl in Hm'.
    rewrite Hm in Hm'. injection Hm' as ->.
    exists b, i, tx, rc, txs, rcs. split_and!; try done.
    rewrite (version_number r HI b s Hs) in Ev. by simplify_eq.
  - split; [done|]. by apply (not_in_prefix_chain a la txid).
Qed.
End transactions.

(** ** Timestamps *)

(** The header at an index of the chain. *)
Definition headerAt r l (n : nat) (h : Header) : Prop :=
  ∃ b s, l !! n = Some b ∧ hdrStore r !! b = Some s ∧ h = sumHeader s.

Definition increasing r l : Prop :=
  ∀ n m hn hm, (n < m)%nat → headerAt r l n hn → headerAt r l m hm → Timestamp hn < Timestamp hm.

Section timestamps.
Context r (HI : repo_inv r) a la (Ha : path r a la) (Hinc : increasing r la).

Lemma headerAt_exists n : (n < length la)%nat → ∃ h, headerAt r la n h ∧
  GetBlockHeader r a (Z.of_nat n) = Ok h.
Proof.
  intros Hn. destruct (lookup_lt_is_Some_2 la n Hn) as [b Hb].
  destruct (path_stored r HI _ _ (path_prefix r _ _ _ _ Ha Hb)) as [s Hs].
  exists (sumHeader s). split; [by exists b, s|].
  unfold GetBlockHeader, chain_GetBlockSummary. rewrite (GetBlockID_path r HI a la) by (done || lia).
  rewrite Nat2Z.id, Hb. simpl. unfold GetBlockSummary. by rewrite Hs.
Qed.

Lemma headerAt_fun n h h' : headerAt r la n h → headerAt r la n h' → h = h'.
Proof. intros (b & s & Hb & Hs & ->) (b' & s' & Hb' & Hs' & ->). congruence. Qed.

Lemma head_nonneg : 0 ≤ Number a.
Proof. destruct (path_stored r HI _ _ Ha) as [s Hs]. by eapply Number_nonneg. Qed.

(** Forward search: the first block at or after [ts], or the head. *)
Lemma search_up ts :
  ∃ n h, search (Number a) (λ i, h ← GetBlockHeader r a i; Ok (ts <=? Timestamp h)) = Ok (Z.of_nat n) ∧
    headerAt r la n h ∧ GetBlockHeader r a (Z.of_nat n) = Ok h ∧
    (∀ m hm, (m < n)%nat → headerAt r la m hm → Timestamp hm < ts) ∧
    (ts ≤ Timestamp h ∨ Z.of_nat n = Number a).
Proof.
  pose proof (path_length r HI _ _ Ha) as Hlen. pose proof head_nonneg.
  destruct (search_spec (Number a) (λ i, h ← GetBlockHeader r a i; Ok (ts <=? Timestamp h))
    (λ i, ∃ h, headerAt r la (Z.to_nat i) h ∧ ts ≤ Timestamp h)) as (k & E & Hk & Hlo & Hhi).
  - done.
  - intros i Hi. destruct (headerAt_exists (Z.to_nat i)) as (h & Hh & Eh); [lia|].
    rewrite Z2Nat.id in Eh by lia. rewrite Eh. simpl. eexists. split; [done|].
    rewrite Z.leb_le. split; [eauto|]. intros (h' & Hh' & ?). by rewrite (headerAt_fun _ _ _ Hh Hh').
  - intros i j Hij Hj (h & Hh & Hts).
    destruct (headerAt_exists (Z.to_nat j)) as (h' & Hh' & _); [lia|]. exists h'. split; [done|].
    destruct (decide (i = j)) as [->|]; [by rewrite (headerAt_fun _ _ _ Hh' Hh)|].
    assert (Timestamp h < Timestamp h'); [|lia].
    apply (Hinc (Z.to_nat i) (Z.to_nat j)); try done; lia.
  - destruct (headerAt_exists (Z.to_nat k)) as (h & Hh & Eh); [lia|].
    exists (Z.to_nat k), h. rewrite Z2Nat.id in * by lia. split_and!; try done.
    + intros m hm Hm Hhm. destruct (decide (ts ≤ Timestamp hm)); [|lia].
      exfalso. apply (Hlo (Z.of_nat m)); [lia|]. rewrite Nat2Z.id. eauto.
    + destruct (decide (k = Number a)) as [->|]; [by right|]. left.
      destruct (Hhi k) as (h' & Hh' & ?); [lia|]. by rewrite (headerAt_fun _ _ _ Hh Hh').
Qed.

(** Backward search: the last block at or before [ts], or the genesis block. *)
Lemma search_down ts :
  ∃ k n h, search (Number a)
      (λ i, h ← GetBlockHeader r a (Number a - i); Ok (Timestamp h <=? ts)) = Ok k ∧
    Number a - k = Z.of_nat n ∧ headerAt r la n h ∧ GetBlockHeader r a (Z.of_nat n) = Ok h ∧
    (∀ m hm, (n < m)%nat → headerAt r la m hm → ts < Timestamp hm) ∧
    (Timestamp h ≤ ts ∨ n = O).
Proof.
  pose proof (path_length r HI _ _ Ha) as Hlen. pose proof head_nonneg.
  destruct (search_spec (Number a)
    (λ i, h ← GetBlockHeader r a (Number a - i); Ok (Timestamp h <=? ts))
    (λ i, ∃ h, headerAt r la (Z.to_nat (Number a - i)) h ∧ Timestamp h ≤ ts))
    as (k & E & Hk & Hlo & Hhi).
  - done.
  - intros i Hi. destruct (headerAt_exists (Z.to_nat (Number a - i))) as (h & Hh & Eh); [lia|].
    rewrite Z2Nat.id in Eh by lia. rewrite Eh. simpl. eexists. split; [done|].
    rewrite Z.leb_le. split; [eauto|]. intros (h' & Hh' & ?). by rewrite (headerAt_fun _ _ _ Hh Hh').
  - intros i j Hij Hj (h & Hh & Hts).
    destruct (headerAt_exists (Z.to_nat (Number a - j))) as (h' & Hh' & _); [lia|].
    exists h'. split; [done|].
    destruct (decide (i = j)) as [->|]; [by rewrite (headerAt_fun _ _ _ Hh' Hh)|].
    assert (Timestamp h' < Timestamp h); [|lia].
    apply (Hinc (Z.to_nat (Number a - j)) (Z.to_nat (Number a - i))); try done; lia.
  - destruct (headerAt_exists (Z.to_nat (Number a - k))) as (h & Hh & Eh); [lia|].
    exists k, (Z.to_nat (Number a - k)), h. split_and!; try done; [lia|..].
    + intros m hm Hm Hhm. destruct (decide (Timestamp hm ≤ ts)); [|lia].
      assert (m < length la)%nat
        by (destruct Hhm as (? & ? & ?%lookup_lt_Some & _); lia).
      exfalso. apply (Hlo (Number a - Z.of_nat m)); [lia|].
      replace (Number a - (Number a - Z.of_nat m)) with (Z.of_nat m) by lia.
      rewrite Nat2Z.id. eauto.
    + destruct (decide (k = Number a)) as [->|]; [right; lia|]. left.
      destruct (Hhi k) as (h' & Hh' & ?); [lia|]. by rewrite (headerAt_fun _ _ _ Hh Hh').
Qed.
End timestamps.

(** ** Theorems *)

(** C29: in a repository built by adding blocks, on any branches and in any
    order that has parents first, every stored block has exactly one chain back
    to the genesis block; [GetBlockID] answers with the chain's block of each
    number and with not-found beyond the head, [HasBlock] decides membership,
    and [GetBlock] returns the header with the stored transactions, whose ids
    are those of the summary. *)
Theorem chain_of_every_block r (head : Bytes32) (s : BlockSummary) :
  grows r → hdrStore r !! head = Some s →
  ∃ l, path r head l ∧ (∀ l', path r head l' → l' = l) ∧
    Z.of_nat (length l) = Number head + 1 ∧
    (∀ n, 0 ≤ n → GetBlockID r head n =
      match l !! Z.to_nat n with Some b => Ok b | None => Err errNotFound end) ∧
    (∀ b, 0 ≤ Number b → HasBlock r head b = Ok (bool_decide (b ∈ l))) ∧
    (∃ txs, GetBlock r head = Ok (MkBlock (sumHeader s) txs) ∧ sumTxs s = Tx_ID <$> txs).
Proof.
  intros HI%grows_inv Hs. destruct (path_exists r HI head s Hs) as [l Hl]. exists l.
  split_and!; [done| | | | |].
  - intros l' Hl'. by eapply path_unique.
  - by apply (path_length r HI).
  - intros n Hn. by apply GetBlockID_path.
  - intros b Hb. by apply HasBlock_path.
  - destruct (body_stored r HI head s Hs) as (txs & rcs & Hst & _ & _ & E).
    exists txs. split; [done|]. apply Hst.
Qed.

(** C30: [Exclude] returns the blocks of one chain that are not on the other,
    in ascending order, whatever the two heads; it always returns. *)
Theorem exclude_is_branch r (a b : Bytes32) (la lb : list Bytes32) :
  grows r → path r a la → path r b lb → Exclude r a b = Ok (filter (.∉ lb) la).
Proof.
  intros HI%grows_inv Ha Hb. unfold Exclude. pose proof (path_length r HI _ _ Ha) as Hlen.
  pose proof (path_last r _ _ Ha) as Hl. rewrite last_lookup in Hl.
  rewrite (excludeFrom_spec r HI a b la lb (pred (length la))) by (first [done|lia]).
  simpl. rewrite reverse_involutive, take_ge by lia. done.
Qed.

(** C31: [HasTransaction] answers whether the transaction is on the chain, by
    walking the recent blocks or by the metadata index, and the two ways agree;
    its caller's rule that a transaction is never older than its block
    reference is what makes the recent walk enough.  [GetTransactionMeta] finds
    the block on the chain that holds the transaction, its position and whether
    it reverted, and reports not-found exactly when no block of the chain has
    it; transactions on other branches are ignored. *)
Theorem transactions_on_chain r (a txid : Bytes32) (la : list Bytes32) (ref : Z) :
  grows r → path r a la → is256 txid → is32 ref →
  (∀ b, b ∈ la → contains r b txid → ref ≤ Number b) →
  (∃ res, HasTransaction r a txid ref = Ok res ∧
    (res = true ↔ ∃ b, b ∈ la ∧ contains r b txid)) ∧
  match GetTransactionMeta r a txid with
  | Ok m => ∃ b i tx rc txs rcs, b ∈ la ∧ Number b = tmBlockNum m ∧ tmIndex m = Z.of_nat i ∧
      GetBlockTransactions r b = Ok txs ∧ txs !! i = Some tx ∧ Tx_ID tx = txid ∧
      GetBlockReceipts r b = Ok rcs ∧ rcs !! i = Some rc ∧ rcReverted rc = tmReverted m
  | Err e => e = errNotFound ∧ ∀ b, b ∈ la → ¬ contains r b txid
  end.
Proof.
  intros HI%grows_inv Ha Hid Href Hrule. split.
  - by apply HasTransaction_spec.
  - by apply GetTransactionMeta_spec.
Qed.

(** C32: on a chain with increasing timestamps the binary search of
    [FindBlockHeaderByTimestamp] finds, for a positive flag, the first block at
    or after the time, or the head when there is none; for a negative flag the
    last block at or before it, or the genesis block when there is none; for
    flag zero the block with exactly that time, or not-found.  The documentation
    promises only blocks that match. *)
Theorem block_by_timestamp r (a : Bytes32) (la : list Bytes32) (ts flag : Z) :
  grows r → path r a la → increasing r la →
  match FindBlockHeaderByTimestamp r a ts flag with
  | Ok h => ∃ n, headerAt r la n h ∧
      (flag = 0 → Timestamp h = ts) ∧
      (0 < flag → (∀ m hm, (m < n)%nat → headerAt r la m hm → Timestamp hm < ts) ∧
        (ts ≤ Timestamp h ∨ S n = length la)) ∧
      (flag < 0 → (∀ m hm, (n < m)%nat → headerAt r la m hm → ts < Timestamp hm) ∧
        (Timestamp h ≤ ts ∨ n = O))
  | Err e => e = errNotFound ∧ flag = 0 ∧ ∀ n h, headerAt r la n h → Timestamp h ≠ ts
  end.
Proof.
  intros HI%grows_inv Ha Hinc. unfold FindBlockHeaderByTimestamp.
  pose proof (path_length r HI _ _ Ha) as Hlen.
  destruct (Z.leb_spec 0 flag).
  - destruct (search_up r HI a la Ha Hinc ts) as (n & h & -> & Hh & Eh & Hlo & Hhi). simpl.
    rewrite Eh. simpl. destruct (Z.eqb_spec flag 0) as [->|]; simpl.
    + destruct (Z.eqb_spec (Timestamp h) ts) as [Ets|Hts]; simpl.
      * exists n. split; [done|]. split_and!; [done|lia|lia].
      * split_and!; try done. intros m hm Hm Em.
        destruct (decide (m < n)%nat) as [Hlt|]; [specialize (Hlo m hm Hlt Hm); lia|].
        destruct (decide (m = n)) as [->|]; [by rewrite (headerAt_fun r la n hm h) in Em|].
        assert (Timestamp h < Timestamp hm) by (eapply (Hinc n m); [lia|done|done]).
        destruct Hhi as [|Hhi]; [lia|]. destruct Hm as (? & ? & ?%lookup_lt_Some & _). lia.
    + exists n. split_and!; [done|lia| |lia]. intros _. split; [done|].
      destruct Hhi; [by left|]. right. lia.
  - destruct (search_down r HI a la Ha Hinc ts) as (k & n & h & -> & En & Hh & Eh & Hlo & Hhi).
    simpl. rewrite En, Eh. exists n. by split_and!; [done|lia|lia|].
Qed.
End correct.

(** ** Instances *)
Section witnesses.
#[local] Existing Instances demo_Rlp demo_Crypto demo_CryptoSpec.

Lemma demo_increasing : increasing demo_repo demo_chain.
Proof.
  assert (∀ n h, headerAt demo_repo demo_chain n h →
    [Some 0; Some 10; Some 20] !! n = Some (Some (Timestamp h))) as Htime.
  { intros n h (b & s & Hb & Hs & ->). rewrite <- demo_times, list_lookup_fmap, Hb.
    cbn [fmap option_fmap option_map]. unfold demo_time. rewrite Hs. reflexivity. }
  intros n m hn hm Hnm Hn%Htime Hm%Htime.
  destruct n as [|[|[|n]]]; destruct m as [|[|[|m]]]; try lia; simpl in *; try discriminate;
    injection Hn; injection Hm; lia.
Qed.

Lemma chain_of_every_block_witness :
  ∃ l, path demo_repo demo_head l ∧ Z.of_nat (length l) = Number demo_head + 1.
Proof.
  destruct (path_stored demo_repo (grows_inv _ demo_repo_grows) _ _ demo_chain_path) as [s Hs].
  destruct (chain_of_every_block demo_repo demo_head s demo_repo_grows Hs)
    as (l & Hp & _ & Hlen & _).
  exists l. split; [exact Hp|exact Hlen].
Defined.

Lemma exclude_is_branch_witness :
  Exclude demo_repo demo_head demo_side = Ok (filter (.∉ demo_branch) demo_chain).
Proof.
  exact (exclude_is_branch demo_repo demo_head demo_side demo_chain demo_branch
    demo_repo_grows demo_chain_path demo_branch_path).
Defined.

Lemma transactions_on_chain_witness :
  ∃ res, HasTransaction demo_repo demo_head (Tx_ID demo_repo_tx) 0 = Ok res ∧
    (res = true ↔ ∃ b, b ∈ demo_chain ∧ contains demo_repo b (Tx_ID demo_repo_tx)).
Proof.
  assert (is32 0) as Href by (unfold is32, max32; lia).
  assert (∀ b, b ∈ demo_chain → contains demo_repo b (Tx_ID demo_repo_tx) → 0 ≤ Number b) as Hrule.
  { intros b Hb _.
    destruct (path_elem_stored demo_repo (grows_inv _ demo_repo_grows) _ _ b demo_chain_path Hb)
      as [s Hs].
    exact (Number_nonneg demo_repo (grows_inv _ demo_repo_grows) b s Hs). }
  destruct (transactions_on_chain demo_repo demo_head (Tx_ID demo_repo_tx) demo_chain 0
    demo_repo_grows demo_chain_path (Tx_ID_range demo_repo_tx) Href Hrule) as [Hres _].
  exact Hres.
Defined.

Lemma block_by_timestamp_witness :
  match FindBlockHeaderByTimestamp demo_repo demo_head 10 0 with
  | Ok h => Timestamp h = 10
  | Err e => e = errNotFound
  end.
Proof.
  pose proof (block_by_timestamp demo_repo demo_head demo_chain 10 0 demo_repo_grows
    demo_chain_path demo_increasing) as E.
  revert E. generalize (FindBlockHeaderByTimestamp demo_repo demo_head 10 0).
  intros [h|e]; [intros (n & _ & E & _); exact (E eq_refl)|intros [E _]; exact E].
Defined.
End witnesses.
