(* ===== verification/Scheduler.v ===== *)
(** * Package scheduler: who proposes a block, and when

    [src/scheduler/poa_v1.go], [poa_v2.go], [pos.go], [proposer.go] and
    [seed.go].  Times are 64-bit numbers and the arithmetic on them wraps.  The
    order of a Go map iteration, in which [Updates] of the first scheduler lists
    the proposers to deactivate, is the order of [map_to_list]; the callers
    apply the updates to distinct addresses, so it does not matter. *)

From stdpp Require Import sorting.
From S2P Require Import Prelude Bytes External Thor Block Tx ChainRepo.

Record Proposer := MkProposer {
  pAddress : Address;
  pActive : bool;
  pWeight : Z;
}.
#[export] Instance eta_Proposer : Eta Proposer := λ p,
  MkProposer (pAddress p) (pActive p) (pWeight p).

(** [math/rand/v2]'s ChaCha8 generator and the floating-point operations on the
    priority of a validator, in the order of a run: [draw seed i] is the [i]-th
    [Float64()] of the generator with that seed, [tiny] the constant [1e-10],
    [priority r w] the quotient [-math.Log(r) / float64(w)]. *)
Class Sampling := {
  score : Type;
  score_ltb : score → score → bool;
  random : Type;
  draw : Bytes32 → nat → random;
  is_zero : random → bool;
  tiny : random;
  priority : random → Z → score;
}.

Section schedulers.
Context `{CFG : Config}.
Abbreviation T := BlockInterval.

(** The first slot at or after [nowTime], aligned to the parent's time. *)
Definition firstSlot (parentBlockTime nowTime : Z) : Z :=
  let newBlockTime := parentBlockTime +u64 T in
  if newBlockTime <? nowTime
  then newBlockTime +u64 ((nowTime -u64 newBlockTime +u64 T -u64 1) / T *u64 T)
  else newBlockTime.

(** ** PoA, first version *)
Record PoASchedulerV1 := MkPoAV1 {
  v1_proposer : Proposer;
  v1_actives : list Proposer;
  v1_parentBlockNumber : Z;
  v1_parentBlockTime : Z;
}.

(** The last listed proposer with the address, as the constructors' loops leave it. *)
Definition listedProposer (addr : Address) (proposers : list Proposer) : option Proposer :=
  last (filter (λ p, pAddress p = addr) proposers).

(** Who takes part: the active proposers, and the one being scheduled. *)
Definition participants (addr : Address) (proposers : list Proposer) : list Proposer :=
  filter (λ p, Is_true (pActive p || (pAddress p =? addr))) proposers.

Definition NewPoASchedulerV1 (addr : Address) (proposers : list Proposer)
    (parentBlockNumber parentBlockTime : Z) : result PoASchedulerV1 :=
  match listedProposer addr proposers with
  | None => Err (ErrInternal "unauthorized block proposer")
  | Some proposer =>
      Ok (MkPoAV1 proposer (participants addr proposers) parentBlockNumber parentBlockTime)
  end.

Section v1.
Context `{Crypto}.

(** The first eight bytes of the hash. *)
Definition dprp (blockNumber time : Z) : Z :=
  from_be (take 8 (be 32 (blake2b (be 4 blockNumber ++ be 8 time)))).

Definition v1_whoseTurn (s : PoASchedulerV1) (t : Z) : result Proposer :=
  let n := Z.of_nat (length (v1_actives s)) in
  if n =? 0 then Err (ErrPanic "division by zero") else
  match v1_actives s !! Z.to_nat (dprp (v1_parentBlockNumber s) t mod n) with
  | Some p => Ok p
  | None => Err (ErrPanic "index out of range")
  end.

(** Trying slot after slot; the hash decides, so no number of tries is
    certain to be enough. *)
Fixpoint v1_tryFrom (fuel : nat) (s : PoASchedulerV1) (newBlockTime : Z) : result Z :=
  match fuel with
  | O => Err ErrFuel
  | S fuel =>
      p ← v1_whoseTurn s newBlockTime;
      if pAddress p =? pAddress (v1_proposer s) then Ok newBlockTime else
      v1_tryFrom fuel s (newBlockTime +u64 T)
  end.

Definition v1_Schedule (fuel : nat) (s : PoASchedulerV1) (nowTime : Z) : result Z :=
  v1_tryFrom fuel s (firstSlot (v1_parentBlockTime s) nowTime).

Definition v1_IsTheTime (s : PoASchedulerV1) (newBlockTime : Z) : result bool :=
  if newBlockTime <=? v1_parentBlockTime s then Ok false else
  if negb ((newBlockTime -u64 v1_parentBlockTime s) mod T =? 0) then Ok false else
  p ← v1_whoseTurn s newBlockTime;
  Ok (pAddress p =? pAddress (v1_proposer s)).

(** The missed slots before [t], at most [fuel] of them. *)
Fixpoint v1_missed (fuel : nat) (s : PoASchedulerV1) (t : Z) (toDeactivate : gmap Address Proposer)
    : result (gmap Address Proposer) :=
  match fuel with
  | O => Ok toDeactivate
  | S fuel =>
      if v1_parentBlockTime s <? t then
        p ← v1_whoseTurn s t;
        let toDeactivate :=
          if negb (pAddress p =? pAddress (v1_proposer s))
          then <[pAddress p := p]> toDeactivate else toDeactivate in
        v1_missed fuel s (t -u64 T) toDeactivate
      else Ok toDeactivate
  end.

Definition v1_Updates (s : PoASchedulerV1) (newBlockTime : Z) : result (list Proposer * Z) :=
  toDeactivate ← v1_missed (Z.to_nat InitialMaxBlockProposers) s (newBlockTime -u64 T) ∅;
  let updates := (λ kp, kp.2 <| pActive := false |>) <$> map_to_list toDeactivate in
  let updates :=
    if negb (pActive (v1_proposer s))
    then updates ++ [(v1_proposer s) <| pActive := true |>] else updates in
  Ok (updates, Z.of_nat (length (v1_actives s)) -u64 Z.of_nat (size toDeactivate)).

(** ** PoA, second version *)
Record PoASchedulerV2 := MkPoAV2 {
  v2_proposer : Proposer;
  v2_parentBlockTime : Z;
  v2_shuffled : list Address;
}.

(** Hashes of 32 bytes compare as the numbers they are.  [sort.Slice] leaves
    the order of equal hashes open; equal hashes of distinct addresses would be
    a collision. *)
Definition v2_hash (seed : bytes) (parentBlockNumber : Z) (addr : Address) : Bytes32 :=
  blake2b (seed ++ be 4 parentBlockNumber ++ be 20 addr).

Definition v2_order (p q : Address * Bytes32) : Prop := p.2 ≤ q.2.
#[export] Instance v2_order_dec p q : Decision (v2_order p q) := decide (p.2 ≤ q.2).

Definition NewPoASchedulerV2 (addr : Address) (proposers : list Proposer)
    (parentBlockNumber parentBlockTime : Z) (seed : bytes) : result PoASchedulerV2 :=
  match listedProposer addr proposers with
  | None => Err (ErrInternal "unauthorized block proposer")
  | Some proposer =>
      let list := (λ p, (pAddress p, v2_hash seed parentBlockNumber (pAddress p))) <$>
                  participants addr proposers in
      Ok (MkPoAV2 proposer parentBlockTime (fst <$> merge_sort v2_order list))
  end.

(** [for i := 0; i < n; i++], from [i], looking for the address. *)
Fixpoint findTurn (fuel : nat) (order : list Address) (addr : Address) (offset newBlockTime i : Z)
    : result Z :=
  let n := Z.of_nat (length order) in
  match fuel with
  | O => Err (ErrPanic "something wrong with proposers list")
  | S fuel =>
      let index := (i +u64 offset) mod n in
      match order !! Z.to_nat index with
      | None => Err (ErrPanic "index out of range")
      | Some a =>
          if a =? addr then Ok (newBlockTime +u64 i *u64 T)
          else findTurn fuel order addr offset newBlockTime (i + 1)
      end
  end.

(** The scheduling by position that the second PoA and the PoS scheduler share. *)
Definition scheduleIn (order : list Address) (addr : Address) (parentBlockTime nowTime : Z)
    : result Z :=
  let newBlockTime := firstSlot parentBlockTime nowTime in
  let offset := (newBlockTime -u64 parentBlockTime) / T -u64 1 in
  findTurn (length order) order addr offset newBlockTime 0.

Definition isScheduledIn (order : list Address) (parentBlockTime blockTime : Z) (addr : Address)
    : result bool :=
  if blockTime <=? parentBlockTime then Ok false else
  if negb ((blockTime -u64 parentBlockTime) mod T =? 0) then Ok false else
  let n := Z.of_nat (length order) in
  if n =? 0 then Err (ErrPanic "division by zero") else
  let index := (blockTime -u64 parentBlockTime -u64 T) / T mod n in
  match order !! Z.to_nat index with
  | None => Err (ErrPanic "index out of range")
  | Some a => Ok (a =? addr)
  end.

(** The positions whose slot is before [newBlockTime]: [for i, if slot(i) >= newBlockTime break]. *)
Fixpoint missedIn {A} (parentBlockTime newBlockTime i : Z) (order : list A) : list A :=
  match order with
  | [] => []
  | a :: order =>
      if newBlockTime <=? parentBlockTime +u64 T +u64 i *u64 T then [] else
      a :: missedIn parentBlockTime newBlockTime (i + 1) order
  end.

Definition v2_Schedule (s : PoASchedulerV2) (nowTime : Z) : result Z :=
  scheduleIn (v2_shuffled s) (pAddress (v2_proposer s)) (v2_parentBlockTime s) nowTime.
Definition v2_IsScheduled (s : PoASchedulerV2) (blockTime : Z) (proposer : Address) : result bool :=
  isScheduledIn (v2_shuffled s) (v2_parentBlockTime s) blockTime proposer.
Definition v2_IsTheTime (s : PoASchedulerV2) (newBlockTime : Z) : result bool :=
  v2_IsScheduled s newBlockTime (pAddress (v2_proposer s)).

Definition v2_Updates (s : PoASchedulerV2) (newBlockTime : Z) : list Proposer * Z :=
  let updates := (λ a, MkProposer a false 0) <$>
    filter (λ a, a ≠ pAddress (v2_proposer s))
      (missedIn (v2_parentBlockTime s) newBlockTime 0 (v2_shuffled s)) in
  let sc := wrap64 (Z.of_nat (length (v2_shuffled s)) - Z.of_nat (length updates)) in
  let updates :=
    if negb (pActive (v2_proposer s))
    then updates ++ [(v2_proposer s) <| pActive := true |>] else updates in
  (updates, sc).
End v1.

(** ** PoS *)
Section pos.
Context `{Crypto} `{SP : Sampling}.

Record posEntry := MkPosEntry {
  peAddress : Address;
  peWeight : Z;
  peActive : bool;
  peScore : score;
}.

Record PoSScheduler := MkPoS {
  pos_proposer : Proposer;
  pos_parentBlockTime : Z;
  pos_sequence : list posEntry;
  pos_totalWeight : Z;
}.

(** Every proposer consumes one random number, whether it takes part or not. *)
Fixpoint posEntries (hashedSeed : Bytes32) (addr : Address) (i : nat) (proposers : list Proposer)
    : list posEntry :=
  match proposers with
  | [] => []
  | p :: proposers =>
      let r := draw hashedSeed i in
      let r := if is_zero r then tiny else r in
      let rest := posEntries hashedSeed addr (S i) proposers in
      if pActive p || (pAddress p =? addr)
      then MkPosEntry (pAddress p) (pWeight p) (pActive p) (priority r (pWeight p)) :: rest
      else rest
  end.

(** [slices.SortStableFunc] by ascending score: from the last entry on, each
    one is put before the first that is not smaller. *)
Fixpoint insertByScore (e : posEntry) (l : list posEntry) : list posEntry :=
  match l with
  | [] => [e]
  | e' :: l' => if score_ltb (peScore e') (peScore e) then e' :: insertByScore e l' else e :: l
  end.
Definition sortByScore (l : list posEntry) : list posEntry := foldr insertByScore [] l.

Definition NewPoSScheduler (addr : Address) (proposers : list Proposer)
    (parentBlockNumber parentBlockTime : Z) (seed : bytes) (totalWeight : Z)
    : result PoSScheduler :=
  let hashedSeed := blake2b (seed ++ be 4 parentBlockNumber) in
  let shuffled := posEntries hashedSeed addr 0 proposers in
  match listedProposer addr proposers with
  | None => Err (ErrInternal "unauthorized block proposer")
  | Some proposer => Ok (MkPoS proposer parentBlockTime (sortByScore shuffled) totalWeight)
  end.

Definition pos_Schedule (s : PoSScheduler) (nowTime : Z) : result Z :=
  scheduleIn (peAddress <$> pos_sequence s) (pAddress (pos_proposer s)) (pos_parentBlockTime s)
    nowTime.
Definition pos_IsScheduled (s : PoSScheduler) (blockTime : Z) (proposer : Address) : result bool :=
  isScheduledIn (peAddress <$> pos_sequence s) (pos_parentBlockTime s) blockTime proposer.
Definition pos_IsTheTime (s : PoSScheduler) (newBlockTime : Z) : result bool :=
  pos_IsScheduled s newBlockTime (pAddress (pos_proposer s)).

Definition pos_Updates (s : PoSScheduler) (newBlockTime : Z) : list Proposer * Z :=
  let onlineWeight := foldl (λ acc e, acc +u64 peWeight e) 0 (pos_sequence s) in
  let missed := filter (λ e, peAddress e ≠ pAddress (pos_proposer s))
    (missedIn (pos_parentBlockTime s) newBlockTime 0 (pos_sequence s)) in
  let updates := (λ e, MkProposer (peAddress e) false 0) <$> missed in
  let activeWeight := foldl (λ acc e, acc -u64 peWeight e) onlineWeight missed in
  let updates :=
    if negb (pActive (pos_proposer s))
    then updates ++ [MkProposer (pAddress (pos_proposer s)) true 0] else updates in
  if 0 <? pos_totalWeight s
  then (updates, activeWeight *u64 MaxPosScore / pos_totalWeight s)
  else (updates, 0).
End pos.

(** ** Seeds *)
Section seeder.
Context `{Rlp} `{Crypto}.

(** The cache of the seeder is its state; the repository is read only. *)
Definition Generate (r : ChainRepo) (parentID : Bytes32) : M (gmap Bytes32 bytes) bytes :=
  let blockNum := Number parentID +u32 1 in
  let epoch := blockNum / SeederInterval in
  if epoch <=? 1 then mret [] else
  let seedNum := (epoch -u32 1) *u32 SeederInterval in
  seedID ← lift (GetBlockID r parentID seedNum);
  cached ← gets (lookup seedID);
  match cached with
  | Some v => mret v
  | None =>
      summary ← lift (GetBlockSummary r seedID);
      seed ← lift (Beta (sumHeader summary));
      modify <[seedID := seed]> ;;
      mret seed
  end.
End seeder.
End schedulers.
