(* ===== verification/SchedulerCorrect.v ===== *)
(** * Correctness of the schedulers

    The second PoA scheduler and the PoS scheduler always find a slot for a
    listed proposer: the first one at or after the given time that the
    validators accept for it, less than a full round later.  At every slot
    exactly one of the active proposers is entitled to build.  [Updates] names
    exactly the proposers that missed their slot, and the score is the part of
    the weight that did not. *)

From Stdlib Require Import Permutation.
From stdpp Require Import sorting.
From S2P Require Import Prelude Bytes External Thor Block Tx ChainRepo Scheduler.

(** ** Slots *)
Section slots.
Context `{CFG : Config} (HT : 0 < BlockInterval < 2 ^ 32).
Abbreviation T := BlockInterval.

(** The times of a round after [now] are representable. *)
Definition times_fit (parent now : Z) (n : nat) : Prop :=
  0 ≤ parent ∧ 0 ≤ now ∧ Z.max now (parent + T) + (Z.of_nat n + 1) * T < max64.

Lemma firstSlot_spec p now n : times_fit p now n →
  ∃ k, 1 ≤ k ∧ firstSlot p now = p + k * T ∧ now ≤ p + k * T ∧
    p + k * T < Z.max now (p + T) + T ∧ (∀ j, 1 ≤ j → now ≤ p + j * T → k ≤ j).
Proof.
  intros (Hp & Hn & Hfit). unfold firstSlot. rewrite (wrap64_id (p + T)) by ulia.
  destruct (Z.ltb_spec (p + T) now) as [Hlt|Hge].
  - rewrite (wrap64_id (now - (p + T))) by ulia.
    rewrite (wrap64_id (now - (p + T) + T)) by ulia.
    rewrite (wrap64_id (_ - 1)) by ulia.
    set (q := (now - (p + T) + T - 1) / T).
    assert (T * q ≤ now - (p + T) + T - 1 < T * q + T) as Hq.
    { unfold q. pose proof (Z.mul_div_le (now - (p + T) + T - 1) T).
      pose proof (Z.mul_succ_div_gt (now - (p + T) + T - 1) T). lia. }
    rewrite (wrap64_id (q * T)) by ulia. rewrite wrap64_id by ulia.
    exists (q + 1). split_and!; [nia|lia|lia|lia|]. intros j Hj Hnow.
    destruct (decide (q + 1 ≤ j)); [done|]. nia.
  - exists 1. split_and!; lia.
Qed.

(** The proposer entitled to the [j]-th slot after the parent. *)
Definition turn (order : list Address) (j : Z) : option Address :=
  order !! Z.to_nat ((j - 1) mod Z.of_nat (length order)).

Lemma isScheduledIn_slot order p j a :
  order ≠ [] → 0 ≤ p → 1 ≤ j → p + j * T < max64 →
  isScheduledIn order p (p + j * T) a = Ok (bool_decide (turn order j = Some a)).
Proof.
  intros Hne Hp Hj Hmax. unfold isScheduledIn. destruct (Z.leb_spec (p + j * T) p); [nia|].
  rewrite (wrap64_id (p + j * T - p)) by ulia. replace (p + j * T - p) with (j * T) by lia.
  rewrite Z.mod_mul by lia. simpl. destruct order as [|b order]; [done|]. set (o := b :: order) in *.
  destruct (Z.eqb_spec (Z.of_nat (length o)) 0); [simpl in *; lia|].
  rewrite wrap64_id by (unfold_int; nia).
  replace (j * T - T) with ((j - 1) * T) by lia. rewrite Z.div_mul by lia. fold (turn o j).
  destruct (turn o j) as [c|] eqn:E.
  - f_equal. destruct (Z.eqb_spec c a) as [->|]; symmetry;
      [by apply bool_decide_eq_true|apply bool_decide_eq_false; congruence].
  - apply lookup_ge_None in E. pose proof (Z.mod_pos_bound (j - 1) (Z.of_nat (length o))).
    simpl in *. lia.
Qed.

Lemma isScheduledIn_other order p t a : order ≠ [] → 0 ≤ p → t < max64 →
  (∀ j, 1 ≤ j → t ≠ p + j * T) → isScheduledIn order p t a = Ok false.
Proof.
  intros Hne Hp Ht Hno. unfold isScheduledIn. destruct (Z.leb_spec t p); [done|].
  rewrite (wrap64_id (t - p)) by ulia.
  destruct (Z.eqb_spec ((t - p) mod T) 0) as [E|]; [|done]. exfalso.
  apply Z.mod_divide in E as [j Hj]; [|lia]. apply (Hno j); nia.
Qed.

Lemma slot_or_not p t : 0 ≤ p →
  (∃ j, 1 ≤ j ∧ t = p + j * T) ∨ (∀ j, 1 ≤ j → t ≠ p + j * T).
Proof.
  intros Hp. destruct (decide (p < t ∧ (t - p) mod T = 0)) as [[Hlt E]|Hno].
  - left. apply Z.mod_divide in E as [j Hj]; [|lia]. exists j. nia.
  - right. intros j Hj ->. apply Hno. split; [nia|].
    replace (p + j * T - p) with (j * T) by lia. apply Z.mod_mul. lia.
Qed.

(** Every proposer has its turn within a round. *)
Lemma turn_exists order a k : a ∈ order → ∃ j, k ≤ j < k + Z.of_nat (length order) ∧
  turn order j = Some a.
Proof.
  intros [q Hq]%list_elem_of_lookup. pose proof (lookup_lt_Some _ _ _ Hq) as Hlt.
  set (n := Z.of_nat (length order)). assert (0 < n) by lia.
  exists (k + (Z.of_nat q - (k - 1)) mod n).
  pose proof (Z.mod_pos_bound (Z.of_nat q - (k - 1)) n). split; [lia|].
  unfold turn. fold n. replace (k + (Z.of_nat q - (k - 1)) mod n - 1)
    with ((k - 1) + (Z.of_nat q - (k - 1)) mod n) by lia.
  rewrite Z.add_mod_idemp_r by lia. replace (k - 1 + (Z.of_nat q - (k - 1))) with (Z.of_nat q) by lia.
  rewrite Z.mod_small by lia. by rewrite Nat2Z.id.
Qed.

(** The search loop finds the first turn from slot [k + i] on. *)
Lemma findTurn_spec order a k nb fuel i :
  order ≠ [] → 1 ≤ k → 0 ≤ i → 0 ≤ nb →
  k + i + Z.of_nat fuel < max64 → nb + (i + Z.of_nat fuel) * T < max64 →
  (∃ j, k + i ≤ j < k + i + Z.of_nat fuel ∧ turn order j = Some a) →
  ∃ j, findTurn fuel order a (k - 1) nb i = Ok (nb + (j - k) * T) ∧
    k + i ≤ j < k + i + Z.of_nat fuel ∧ turn order j = Some a ∧
    ∀ j', k + i ≤ j' < j → turn order j' ≠ Some a.
Proof.
  intros Hne Hk. revert i. induction fuel as [|fuel IH]; intros i Hi Hnb Hk64 Ht64 (j0 & Hj0 & Et0);
    [lia|].
  simpl. rewrite (wrap64_id (i + (k - 1))) by ulia.
  replace (i + (k - 1)) with (k + i - 1) by lia. fold (turn order (k + i)).
  destruct (turn order (k + i)) as [c|] eqn:E.
  2: { apply lookup_ge_None in E. destruct order as [|b order]; [done|].
       pose proof (Z.mod_pos_bound (k + i - 1) (Z.of_nat (length (b :: order)))). simpl in *. lia. }
  destruct (Z.eqb_spec c a) as [->|Hca].
  - exists (k + i). rewrite (wrap64_id (i * T)) by (unfold_int; nia).
    rewrite wrap64_id by (unfold_int; nia). split_and!; [f_equal; lia|lia|lia|done|lia].
  - destruct (IH (i + 1)) as (j & -> & Hj & Et & Hmin); [lia|lia|lia|lia| |].
    { exists j0. split; [|done]. destruct (decide (j0 = k + i)) as [->|]; [congruence|lia]. }
    exists j. split_and!; [done|lia|lia|done|]. intros j' Hj'.
    destruct (decide (j' = k + i)) as [->|]; [congruence|]. apply Hmin. lia.
Qed.

Lemma scheduleIn_spec order a p now :
  a ∈ order → times_fit p now (length order) →
  ∃ t, scheduleIn order a p now = Ok t ∧ now ≤ t ∧ p < t ∧
    t < Z.max now (p + T) + Z.of_nat (length order) * T ∧
    isScheduledIn order p t a = Ok true ∧
    (∀ t', now ≤ t' < t → isScheduledIn order p t' a = Ok false).
Proof.
  intros Ha Hfit. assert (order ≠ []) as Hne by (by intros ->; apply not_elem_of_nil in Ha).
  destruct (firstSlot_spec p now _ Hfit) as (k & Hk & Es & Hnow & Hlt & Hmin).
  destruct Hfit as (Hp & Hn & Hfit). set (n := length order) in *.
  unfold scheduleIn. fold n. rewrite Es. rewrite (wrap64_id (p + k * T - p)) by (unfold_int; nia).
  replace (p + k * T - p) with (k * T) by lia. rewrite Z.div_mul by lia.
  rewrite (wrap64_id (k - 1)) by (unfold_int; nia).
  destruct (findTurn_spec order a k (p + k * T) n 0) as (j & E & Hj & Et & Hfirst);
    [done|done|done|nia|fold n; nia|fold n; nia| |].
  { destruct (turn_exists order a k Ha) as (j & Hj & Et). exists j. fold n in Hj. split; [lia|done]. }
  exists (p + j * T). fold n in E, Hj. split_and!; [rewrite E; f_equal; lia|nia|nia|nia| |].
  - rewrite isScheduledIn_slot by (first [done|nia]). by rewrite bool_decide_eq_true_2.
  - intros t' Ht'. destruct (slot_or_not p t') as [(j' & Hj1 & ->)|Hno]; [done| |].
    + rewrite isScheduledIn_slot by (first [done|nia]). f_equal. apply bool_decide_eq_false.
      apply Hfirst. specialize (Hmin j' Hj1). split; [lia|nia].
    + apply isScheduledIn_other; [done|done|nia|done].
Qed.
End slots.

(** ** Who takes part *)
Section parts.
Implicit Types (ps : list Proposer) (a b : Address).

Lemma listedProposer_Some a ps : a ∈ pAddress <$> ps →
  ∃ p, listedProposer a ps = Some p ∧ p ∈ ps ∧ pAddress p = a.
Proof.
  intros (p & -> & Hp)%list_elem_of_fmap. unfold listedProposer.
  destruct (last (filter (λ q, pAddress q = pAddress p) ps)) as [q|] eqn:E.
  - exists q. split; [done|]. apply last_Some_elem_of, list_elem_of_filter in E as [? ?]. done.
  - apply last_None in E. exfalso. assert (p ∈ filter (λ q, pAddress q = pAddress p) ps)
      by (by apply list_elem_of_filter). rewrite E in H. by apply not_elem_of_nil in H.
Qed.

Lemma participants_in a ps : a ∈ pAddress <$> ps → a ∈ pAddress <$> participants a ps.
Proof.
  intros (p & -> & Hp)%list_elem_of_fmap. apply list_elem_of_fmap. exists p. split; [done|].
  apply list_elem_of_filter. split; [|done]. rewrite Z.eqb_refl, orb_true_r. done.
Qed.

(** The participants as an active proposer sees them are the active ones. *)
Lemma participants_active p ps : NoDup (pAddress <$> ps) → p ∈ ps → pActive p = true →
  ∀ q, q ∈ ps → (pActive q || (pAddress q =? pAddress p)) = pActive q.
Proof.
  intros Hnd Hp Ha q Hq. destruct (pActive q) eqn:Eq; [done|]. simpl.
  apply Z.eqb_neq. intros E. apply list_elem_of_lookup in Hp as [i Hi].
  apply list_elem_of_lookup in Hq as [j Hj].
  assert (i = j) as ->; [|congruence].
  eapply (NoDup_lookup (pAddress <$> ps)); [done|..]; rewrite list_lookup_fmap;
    [by rewrite Hi|by rewrite Hj; simpl; rewrite E].
Qed.

Lemma participants_same p ps : NoDup (pAddress <$> ps) → p ∈ ps → pActive p = true →
  participants (pAddress p) ps = filter (λ q, Is_true (pActive q)) ps.
Proof.
  intros Hnd Hp Ha. pose proof (participants_active p ps Hnd Hp Ha) as H. clear Hnd Hp.
  unfold participants. induction ps as [|q ps IH]; [done|].
  rewrite !filter_cons, (H q) by (by left).
  destruct (decide (Is_true (pActive q))); rewrite IH; try done;
    intros q' Hq'; apply H; by right.
Qed.

Section pos_entries.
Context `{SP : Sampling} `{Crypto}.

Lemma posEntries_fmap seed a i ps :
  (λ e, (peAddress e, peWeight e)) <$> posEntries seed a i ps =
  (λ p, (pAddress p, pWeight p)) <$> participants a ps.
Proof.
  revert i. induction ps as [|p ps IH]; intros i; [done|]. unfold participants in *. simpl.
  rewrite filter_cons. destruct (pActive p || (pAddress p =? a)); simpl; by rewrite IH.
Qed.

Lemma posEntries_same p ps seed i : NoDup (pAddress <$> ps) → p ∈ ps → pActive p = true →
  ∀ q, q ∈ ps → pActive q = true →
  posEntries seed (pAddress p) i ps = posEntries seed (pAddress q) i ps.
Proof.
  intros Hnd Hp Ha q Hq Hqa.
  assert (∀ l i, (∀ x, x ∈ l → x ∈ ps) →
    posEntries seed (pAddress p) i l = posEntries seed (pAddress q) i l) as Hl.
  { induction l as [|x l IH]; intros k Hsub; [done|]. simpl.
    rewrite (participants_active p ps), (participants_active q ps) by (done || (apply Hsub; by left)).
    rewrite IH by (intros y Hy; apply Hsub; by right). done. }
  by apply Hl.
Qed.

Lemma insertByScore_perm e l : insertByScore e l ≡ₚ e :: l.
Proof.
  induction l as [|e' l IH]; simpl; [done|]. destruct (score_ltb _ _); [|done].
  rewrite IH. apply Permutation_swap.
Qed.

Lemma sortByScore_perm l : sortByScore l ≡ₚ l.
Proof.
  induction l as [|e l IH]; [done|]. simpl. by rewrite insertByScore_perm, IH.
Qed.

Lemma pos_addresses a ps num pt seed tw s : NewPoSScheduler a ps num pt seed tw = Ok s →
  peAddress <$> pos_sequence s ≡ₚ pAddress <$> participants a ps.
Proof.
  unfold NewPoSScheduler. destruct (listedProposer a ps); [|done]. intros [= <-]. simpl.
  rewrite sortByScore_perm. pose proof (posEntries_fmap (blake2b (seed ++ be 4 num)) a 0 ps) as E.
  apply (f_equal (fmap fst)) in E. rewrite <- !list_fmap_compose in E.
  change (peAddress <$> posEntries (blake2b (seed ++ be 4 num)) a 0 ps =
    pAddress <$> participants a ps) in E. by rewrite E.
Qed.
End pos_entries.

Section v2_entries.
Context `{Crypto}.

#[local] Instance v2_total : Total v2_order.
Proof. intros [? x] [? y]. unfold v2_order. simpl. lia. Qed.

Lemma v2_addresses a ps num pt seed s : NewPoASchedulerV2 a ps num pt seed = Ok s →
  v2_shuffled s ≡ₚ pAddress <$> participants a ps.
Proof.
  unfold NewPoASchedulerV2. destruct (listedProposer a ps); [|done]. intros [= <-]. simpl.
  rewrite merge_sort_Permutation. by rewrite <- list_fmap_compose.
Qed.
End v2_entries.
End parts.

Section theorems.
Context `{CFG : Config} (HT : 0 < BlockInterval < 2 ^ 32) `{CR : Crypto} `{SP : Sampling}.
Abbreviation T := BlockInterval.
Implicit Types (ps : list Proposer).

(** What scheduling promises to a proposer whose checks are [isTime]. *)
Definition gets_slot (n : nat) (parent now : Z) (scheduled : result Z) (isTime : Z → result bool)
    : Prop :=
  ∃ t, scheduled = Ok t ∧ now ≤ t ∧ parent < t ∧ t < Z.max now (parent + T) + Z.of_nat n * T ∧
    isTime t = Ok true ∧ (∀ t', now ≤ t' < t → isTime t' = Ok false).

Lemma participants_length a ps : (length (participants a ps) ≤ length ps)%nat.
Proof. apply length_filter. Qed.

Lemma times_fit_le p now n m : (m ≤ n)%nat → times_fit p now n → times_fit p now m.
Proof. intros Hm (? & ? & ?). split_and!; try done. nia. Qed.

Lemma scheduled_order order a ps p now :
  order ≡ₚ pAddress <$> participants a ps → a ∈ pAddress <$> ps →
  times_fit p now (length ps) →
  gets_slot (length ps) p now (scheduleIn order a p now) (λ t, isScheduledIn order p t a).
Proof.
  intros Hperm Ha Hfit. assert (length order ≤ length ps)%nat as Hlen.
  { rewrite Hperm, length_fmap. apply participants_length. }
  destruct (scheduleIn_spec HT order a p now) as (t & E & ? & ? & Hb & ? & ?).
  - rewrite Hperm. by apply participants_in.
  - by eapply times_fit_le.
  - exists t. split_and!; try done. nia.
Qed.

(** C33: a listed proposer always gets a slot.  For every listed address the
    second PoA scheduler and the PoS scheduler are created, and [Schedule]
    returns, without panicking, the first time at or after the given one that
    [IsTheTime] accepts, later than the parent and less than one round of the
    proposers away. *)
Theorem listed_proposer_scheduled (ps : list Proposer) (a : Address)
    (num parent now totalWeight : Z) (seed : bytes) :
  a ∈ pAddress <$> ps → times_fit parent now (length ps) →
  (∃ s, NewPoASchedulerV2 a ps num parent seed = Ok s ∧
    gets_slot (length ps) parent now (v2_Schedule s now) (v2_IsTheTime s)) ∧
  (∃ s, NewPoSScheduler a ps num parent seed totalWeight = Ok s ∧
    gets_slot (length ps) parent now (pos_Schedule s now) (pos_IsTheTime s)).
Proof.
  intros Ha Hfit. destruct (listedProposer_Some a ps Ha) as (p & Ep & _ & Epa). split.
  - destruct (NewPoASchedulerV2 a ps num parent seed) as [s|] eqn:E;
      [|unfold NewPoASchedulerV2 in E; by rewrite Ep in E].
    exists s. split; [done|]. pose proof (v2_addresses _ _ _ _ _ _ E) as Hperm.
    unfold NewPoASchedulerV2 in E. rewrite Ep in E. injection E as <-.
    unfold v2_Schedule, v2_IsTheTime, v2_IsScheduled. simpl in *. rewrite Epa.
    by apply scheduled_order.
  - destruct (NewPoSScheduler a ps num parent seed totalWeight) as [s|] eqn:E;
      [|unfold NewPoSScheduler in E; by rewrite Ep in E].
    exists s. split; [done|]. pose proof (pos_addresses _ _ _ _ _ _ _ E) as Hperm.
    unfold NewPoSScheduler in E. rewrite Ep in E. injection E as <-.
    unfold pos_Schedule, pos_IsTheTime, pos_IsScheduled. simpl in *. rewrite Epa.
    by apply scheduled_order.
Qed.

(** ** One proposer per slot *)

(** The active proposers for which [isTime] holds. *)
Definition entitled (ps : list Proposer) (isTime : Address → result bool) (a : Address) : Prop :=
  ∃ p, p ∈ ps ∧ pActive p = true ∧ pAddress p = a ∧ isTime a = Ok true.

Lemma entitled_unique ps isTime w p0 :
  p0 ∈ ps → pActive p0 = true → pAddress p0 = w →
  (∀ p, p ∈ ps → pActive p = true → isTime (pAddress p) = Ok (bool_decide (w = pAddress p))) →
  exists! a, entitled ps isTime a.
Proof.
  intros H0 Ha0 <- Hall. exists (pAddress p0). split.
  - exists p0. rewrite Hall by done. by rewrite bool_decide_eq_true_2.
  - intros a (p & Hp & Ha & <- & E). rewrite Hall in E by done. injection E as E.
    by apply bool_decide_eq_true in E.
Qed.

Definition actives ps : list Proposer := filter (λ q, Is_true (pActive q)) ps.

Lemma actives_elem ps p : p ∈ actives ps ↔ p ∈ ps ∧ pActive p = true.
Proof. unfold actives. rewrite list_elem_of_filter. rewrite Is_true_true. tauto. Qed.

Lemma turn_Some order j : order ≠ [] → ∃ a, turn order j = Some a ∧ a ∈ order.
Proof.
  intros Hne. unfold turn. destruct (order !! _) as [a|] eqn:E.
  - exists a. split; [done|]. by eapply list_elem_of_lookup_2.
  - apply lookup_ge_None in E. destruct order as [|b order]; [done|].
    pose proof (Z.mod_pos_bound (j - 1) (Z.of_nat (length (b :: order)))). simpl in *. lia.
Qed.

(** The schedulers by position: all active proposers see the same order. *)
Lemma entitled_order ps order parent j (isTime : Address → result bool) :
  order ≡ₚ pAddress <$> actives ps → actives ps ≠ [] →
  0 ≤ parent → 1 ≤ j → parent + j * T < max64 →
  (∀ p, p ∈ ps → pActive p = true →
    isTime (pAddress p) = isScheduledIn order parent (parent + j * T) (pAddress p)) →
  exists! a, entitled ps isTime a.
Proof.
  intros Hperm Hne Hp Hj Hmax Hall. assert (order ≠ []) as Hone.
  { intros ->. apply Permutation_nil, fmap_nil_inv in Hperm. done. }
  destruct (turn_Some order j Hone) as (w & Ew & Hin).
  rewrite Hperm in Hin. apply list_elem_of_fmap in Hin as (p0 & -> & Hp0).
  apply actives_elem in Hp0 as [H0 Ha0].
  apply (entitled_unique ps isTime (pAddress p0) p0); try done.
  intros p Hp' Ha. rewrite Hall by done. rewrite (isScheduledIn_slot HT) by done. f_equal.
  apply bool_decide_ext. rewrite Ew. split; [by intros [= ->]|by intros ->].
Qed.

Lemma new_v2 p ps num parent seed : NoDup (pAddress <$> ps) → p ∈ ps → pActive p = true →
  ∃ q, pAddress q = pAddress p ∧ NewPoASchedulerV2 (pAddress p) ps num parent seed =
    Ok (MkPoAV2 q parent (fst <$> merge_sort v2_order
      ((λ p, (pAddress p, v2_hash seed num (pAddress p))) <$> actives ps))).
Proof.
  intros Hnd Hp Ha. destruct (listedProposer_Some (pAddress p) ps) as (q & Eq & _ & Ea).
  { apply list_elem_of_fmap. eauto. }
  exists q. split; [done|]. unfold NewPoASchedulerV2. rewrite Eq.
  by rewrite (participants_same p ps) by done.
Qed.

Lemma new_pos p0 p ps num parent seed tw : NoDup (pAddress <$> ps) →
  p0 ∈ ps → pActive p0 = true → p ∈ ps → pActive p = true →
  ∃ q, pAddress q = pAddress p ∧ NewPoSScheduler (pAddress p) ps num parent seed tw =
    Ok (MkPoS q parent
      (sortByScore (posEntries (blake2b (seed ++ be 4 num)) (pAddress p0) 0 ps)) tw).
Proof.
  intros Hnd Hp0 Ha0 Hp Ha. destruct (listedProposer_Some (pAddress p) ps) as (q & Eq & _ & Ea).
  { apply list_elem_of_fmap. eauto. }
  exists q. split; [done|]. unfold NewPoSScheduler. rewrite Eq.
  by rewrite (posEntries_same p ps _ _ Hnd Hp Ha p0).
Qed.

Lemma new_v1 p ps num parent : NoDup (pAddress <$> ps) → p ∈ ps → pActive p = true →
  ∃ q, pAddress q = pAddress p ∧ NewPoASchedulerV1 (pAddress p) ps num parent =
    Ok (MkPoAV1 q (actives ps) num parent).
Proof.
  intros Hnd Hp Ha. destruct (listedProposer_Some (pAddress p) ps) as (q & Eq & _ & Ea).
  { apply list_elem_of_fmap. eauto. }
  exists q. split; [done|]. unfold NewPoASchedulerV1. rewrite Eq.
  by rewrite (participants_same p ps) by done.
Qed.

Lemma v1_whoseTurn_Some s t : v1_actives s ≠ [] →
  ∃ w, v1_whoseTurn s t = Ok w ∧ v1_actives s !! Z.to_nat
    (dprp (v1_parentBlockNumber s) t mod Z.of_nat (length (v1_actives s))) = Some w ∧
    w ∈ v1_actives s.
Proof.
  intros Hne. unfold v1_whoseTurn. destruct (v1_actives s) as [|b l] eqn:E; [done|].
  rewrite <- E in *. destruct (Z.eqb_spec (Z.of_nat (length (v1_actives s))) 0) as [E0|E0].
  { rewrite E in E0. simpl in E0. lia. }
  destruct (v1_actives s !! _) as [w|] eqn:Ew.
  - exists w. split_and!; try done. by eapply list_elem_of_lookup_2.
  - apply lookup_ge_None in Ew.
    pose proof (Z.mod_pos_bound (dprp (v1_parentBlockNumber s) t)
      (Z.of_nat (length (v1_actives s)))). lia.
Qed.

Lemma v1_IsTheTime_slot s j : v1_actives s ≠ [] → 0 ≤ v1_parentBlockTime s → 1 ≤ j →
  v1_parentBlockTime s + j * T < max64 →
  v1_IsTheTime s (v1_parentBlockTime s + j * T) =
    (p ← v1_whoseTurn s (v1_parentBlockTime s + j * T);
     Ok (pAddress p =? pAddress (v1_proposer s))).
Proof.
  intros Hne Hp Hj Hmax. unfold v1_IsTheTime. destruct (Z.leb_spec (v1_parentBlockTime s + j * T)
    (v1_parentBlockTime s)); [nia|].
  rewrite wrap64_id by ulia. replace (_ + j * T - _) with (j * T) by lia.
  by rewrite Z.mod_mul by lia.
Qed.

Lemma one_v1 ps num parent j : NoDup (pAddress <$> ps) → actives ps ≠ [] →
  0 ≤ parent → 1 ≤ j → parent + j * T < max64 →
  exists! a, entitled ps (λ a, s ← NewPoASchedulerV1 a ps num parent;
                               v1_IsTheTime s (parent + j * T)) a.
Proof.
  intros Hnd Hne Hp Hj Hmax.
  destruct (v1_whoseTurn_Some (MkPoAV1 (MkProposer 0 true 0) (actives ps) num parent)
    (parent + j * T) Hne) as (w & _ & Ew & Hw).
  apply actives_elem in Hw as [Hw Haw].
  apply (entitled_unique _ _ (pAddress w) w); try done.
  intros p Hp' Ha. destruct (new_v1 p ps num parent) as (q & Eq & ->); try done. simpl.
  set (s := MkPoAV1 q (actives ps) num parent).
  pose proof (v1_IsTheTime_slot s j Hne Hp Hj Hmax) as Et. simpl in Et. rewrite Et.
  destruct (v1_whoseTurn_Some s (parent + j * T) Hne) as (w' & -> & Ew' & _).
  simpl in Ew, Ew'. rewrite Ew in Ew'. injection Ew' as <-. simpl. rewrite Eq. f_equal.
  symmetry. destruct (Z.eqb_spec (pAddress w) (pAddress p));
    [by apply bool_decide_eq_true|by apply bool_decide_eq_false].
Qed.

Lemma one_v2 ps num parent seed j : NoDup (pAddress <$> ps) → actives ps ≠ [] →
  0 ≤ parent → 1 ≤ j → parent + j * T < max64 →
  exists! a, entitled ps (λ a, s ← NewPoASchedulerV2 a ps num parent seed;
                               v2_IsTheTime s (parent + j * T)) a.
Proof.
  intros Hnd Hne Hp Hj Hmax. eapply entitled_order; [|exact Hne|exact Hp|exact Hj|exact Hmax|].
  2: { intros p Hp' Ha. destruct (new_v2 p ps num parent seed) as (q & Eq & ->); try done. simpl.
       unfold v2_IsTheTime, v2_IsScheduled. simpl. rewrite Eq. reflexivity. }
  rewrite merge_sort_Permutation. by rewrite <- list_fmap_compose.
Qed.

Lemma one_pos ps num parent seed tw j : NoDup (pAddress <$> ps) → actives ps ≠ [] →
  0 ≤ parent → 1 ≤ j → parent + j * T < max64 →
  exists! a, entitled ps (λ a, s ← NewPoSScheduler a ps num parent seed tw;
                               pos_IsTheTime s (parent + j * T)) a.
Proof.
  intros Hnd Hne Hp Hj Hmax. destruct (actives ps) as [|p0 l] eqn:E; [done|].
  assert (p0 ∈ actives ps) as [Hp0 Ha0]%actives_elem by (rewrite E; by left).
  rewrite <- E in Hne. eapply entitled_order; [|exact Hne|exact Hp|exact Hj|exact Hmax|].
  2: { intros p Hp' Ha. destruct (new_pos p0 p ps num parent seed tw) as (q & Eq & ->); try done.
       simpl. unfold pos_IsTheTime, pos_IsScheduled. simpl. rewrite Eq. reflexivity. }
  rewrite sortByScore_perm. pose proof (posEntries_fmap (blake2b (seed ++ be 4 num))
    (pAddress p0) 0 ps) as F.
  apply (f_equal (fmap fst)) in F. rewrite <- !list_fmap_compose in F.
  rewrite (participants_same p0 ps) in F by done. change (peAddress <$>
    posEntries (blake2b (seed ++ be 4 num)) (pAddress p0) 0 ps = pAddress <$> actives ps) in F.
  by rewrite F.
Qed.

(** C34: exactly one proposer per slot.  At every time that is a whole number of
    block intervals after the parent, each of the three schedulers accepts
    exactly one of the active proposers: no two of them may build a block for
    the same slot, and no slot is left without a proposer. *)
Theorem one_proposer_per_slot ps (num parent totalWeight j : Z) (seed : bytes) :
  NoDup (pAddress <$> ps) → actives ps ≠ [] →
  0 ≤ parent → 1 ≤ j → parent + j * BlockInterval < max64 →
  let t := parent + j * BlockInterval in
  (exists! a, entitled ps (λ a, s ← NewPoASchedulerV1 a ps num parent; v1_IsTheTime s t) a) ∧
  (exists! a, entitled ps (λ a, s ← NewPoASchedulerV2 a ps num parent seed; v2_IsTheTime s t) a) ∧
  (exists! a, entitled ps
     (λ a, s ← NewPoSScheduler a ps num parent seed totalWeight; pos_IsTheTime s t) a).
Proof.
  intros Hnd Hne Hp Hj Hmax t. split_and!; [by apply one_v1|by apply one_v2|by apply one_pos].
Qed.

(** ** Updates *)

Lemma missedIn_take {A} (order : list A) p j i : 0 ≤ p → 0 ≤ i ≤ j - 1 → p + j * T < max64 →
  missedIn p (p + j * T) i order = take (Z.to_nat (j - 1 - i)) order.
Proof.
  intros Hp. revert i. induction order as [|a order IH]; intros i Hi Hmax; [by rewrite take_nil|].
  cbn [missedIn]. rewrite (wrap64_id (p + T)) by (unfold_int; nia).
  rewrite (wrap64_id (i * T)) by (unfold_int; nia).
  rewrite (wrap64_id (p + T + i * T)) by (unfold_int; nia).
  destruct (Z.leb_spec (p + j * T) (p + T + i * T)).
  - assert (i = j - 1) as -> by nia. by rewrite Z.sub_diag.
  - assert (i < j - 1) by nia. rewrite IH by lia.
    by replace (Z.to_nat (j - 1 - i)) with (S (Z.to_nat (j - 1 - (i + 1)))) by lia.
Qed.

Lemma missed_turns order j x : 1 ≤ j →
  x ∈ take (Z.to_nat (j - 1)) order ↔ ∃ i, 1 ≤ i < j ∧ turn order i = Some x.
Proof.
  intros Hj. unfold turn. rewrite list_elem_of_lookup. split.
  - intros [k [Hk Hlt]%lookup_take_Some]. exists (Z.of_nat k + 1). split; [lia|].
    pose proof (lookup_lt_Some _ _ _ Hk). rewrite Z.mod_small by lia.
    by replace (Z.to_nat (Z.of_nat k + 1 - 1)) with k by lia.
  - intros (i & Hi & E). pose proof (lookup_lt_Some _ _ _ E).
    exists (Z.to_nat ((i - 1) mod Z.of_nat (length order))).
    apply lookup_take_Some. split; [done|].
    pose proof (Z.mod_le (i - 1) (Z.of_nat (length order))).
    pose proof (Z.mod_pos_bound (i - 1) (Z.of_nat (length order))). lia.
Qed.

(** [x] had a slot between the parent and time [t]. *)
Definition had_slot (isScheduled : Z → Address → result bool) (parent t : Z) (x : Address) : Prop :=
  ∃ t', parent < t' < t ∧ isScheduled t' x = Ok true.

Lemma had_slot_turn order p j x : order ≠ [] → 0 ≤ p → 1 ≤ j → p + j * T < max64 →
  had_slot (isScheduledIn order p) p (p + j * T) x ↔ ∃ i, 1 ≤ i < j ∧ turn order i = Some x.
Proof.
  intros Hne Hp Hj Hmax. split.
  - intros (t' & Ht & E). destruct (slot_or_not HT p t' Hp) as [(i & Hi & ->)|Hno].
    + rewrite (isScheduledIn_slot HT) in E by (done || nia). injection E as E.
      apply bool_decide_eq_true in E. exists i. split; [nia|done].
    + by rewrite (isScheduledIn_other HT) in E by (done || lia).
  - intros (i & Hi & E). exists (p + i * T). split; [nia|].
    rewrite (isScheduledIn_slot HT) by (done || nia). by rewrite bool_decide_eq_true_2.
Qed.

(** What a list of updates says: who is deactivated, and who activated. *)
Definition deactivated (updates : list Proposer) : list Address :=
  pAddress <$> filter (λ u, pActive u = false) updates.
Definition activated (updates : list Proposer) : list Address :=
  pAddress <$> filter (λ u, pActive u = true) updates.

Lemma updates_shape (missed : list Address) (me : Proposer) (self : Proposer) (w : Address → Z) :
  pActive self = true →
  let updates := (λ a, MkProposer a false (w a)) <$> missed in
  let updates := if negb (pActive me) then updates ++ [self] else updates in
  deactivated updates = missed ∧
  activated updates = if pActive me then [] else [pAddress self].
Proof.
  intros Hs updates. assert (filter (λ u, pActive u = false) updates = updates) as E1.
  { subst updates. induction missed as [|a l IH]; [done|]. rewrite fmap_cons, filter_cons_True by done.
    by rewrite IH. }
  assert (filter (λ u, pActive u = true) updates = []) as E2.
  { apply filter_none. intros u (a & -> & _)%list_elem_of_fmap. done. }
  assert (pAddress <$> updates = missed) as E3.
  { subst updates. rewrite <- list_fmap_compose. apply list_fmap_id. }
  unfold deactivated, activated. destruct (pActive me); cbn zeta; simpl negb; cbn iota.
  - by rewrite E1, E2, E3.
  - rewrite !filter_app, E1, E2. rewrite filter_cons_False by (by rewrite Hs).
    rewrite filter_cons_True by done. rewrite !filter_nil, app_nil_r. done.
Qed.

(** The entries that are not deactivated carry the rest of the sum. *)
Lemma kept_sum {A} (key : A → Address) (f : A → Z) (order : list A) a k :
  NoDup (key <$> order) →
  let missed := filter (λ e, key e ≠ a) (take k order) in
  lsum f order = lsum f missed + lsum f (filter (λ e, key e ∉ key <$> missed) order).
Proof.
  intros Hnd missed. rewrite (lsum_filter f order (λ e, key e ∈ key <$> missed)). f_equal.
  apply lsum_perm. pose proof (NoDup_fmap_1 _ _ Hnd) as Hnd'.
  assert (∀ e, e ∈ missed → e ∈ order) as Hsub.
  { intros e [_ He]%list_elem_of_filter. apply elem_of_take in He as (i & Hi & _).
    by eapply list_elem_of_lookup_2. }
  apply NoDup_Permutation.
  - by apply NoDup_filter.
  - apply NoDup_filter. eapply sublist_NoDup; [done|apply sublist_take].
  - intros e. rewrite list_elem_of_filter, list_elem_of_fmap. split.
    + intros [(e' & Ek & He') He]. assert (e = e') as ->; [|done].
      apply Hsub in He'. apply list_elem_of_lookup in He as [i Hi], He' as [i' Hi'].
      assert (i = i') as ->; [|congruence].
      eapply (NoDup_lookup (key <$> order)); [done|..]; rewrite list_lookup_fmap;
        [by rewrite Hi|by rewrite Hi'; simpl; rewrite Ek].
    + intros He. split; [by exists e|by apply Hsub].
Qed.

Lemma foldl_add_wrap {A} (f : A → Z) l acc : (∀ x, x ∈ l → 0 ≤ f x) → 0 ≤ acc →
  acc + lsum f l < max64 → foldl (λ acc x, acc +u64 f x) acc l = acc + lsum f l.
Proof.
  revert acc. induction l as [|x l IH]; intros acc Hf Hacc Hmax; simpl in *; [lia|].
  pose proof (Hf x ltac:(by left)).
  assert (0 ≤ lsum f l) by (apply lsum_nonneg; intros; apply Hf; by right).
  rewrite wrap64_id by ulia. rewrite IH; [lia| |lia|lia]. intros; apply Hf; by right.
Qed.

Lemma foldl_sub_wrap {A} (f : A → Z) l acc : (∀ x, x ∈ l → 0 ≤ f x) → acc < max64 →
  lsum f l ≤ acc → foldl (λ acc x, acc -u64 f x) acc l = acc - lsum f l.
Proof.
  revert acc. induction l as [|x l IH]; intros acc Hf Hacc Hmax; simpl in *; [lia|].
  pose proof (Hf x ltac:(by left)).
  assert (0 ≤ lsum f l) by (apply lsum_nonneg; intros; apply Hf; by right).
  rewrite wrap64_id by ulia. rewrite IH; [lia| |lia|lia]. intros; apply Hf; by right.
Qed.

(** The updates name exactly the proposers with an earlier slot as inactive,
    and the builder as active if it was not. *)
Definition updates_ok (me : Proposer) (isScheduled : Z → Address → result bool) (parent t : Z)
    (updates : list Proposer) : Prop :=
  (∀ x, x ∈ deactivated updates ↔ x ≠ pAddress me ∧ had_slot isScheduled parent t x) ∧
  activated updates = if pActive me then [] else [pAddress me].

Lemma missed_ok {A} (key : A → Address) (order : list A) (me self : Proposer) (w : Address → Z) p j :
  order ≠ [] → 0 ≤ p → 1 ≤ j → p + j * T < max64 →
  pActive self = true → pAddress self = pAddress me →
  let missed := filter (λ e, key e ≠ pAddress me) (missedIn p (p + j * T) 0 order) in
  let updates := (λ a, MkProposer a false (w a)) <$> (key <$> missed) in
  let updates := if negb (pActive me) then updates ++ [self] else updates in
  deactivated updates = key <$> missed ∧
  updates_ok me (isScheduledIn (key <$> order) p) p (p + j * T) updates.
Proof.
  intros Hne Hp Hj Hmax Hs Ea missed. cbn zeta.
  destruct (updates_shape (key <$> missed) me self w Hs) as [E1 E2]. cbn zeta in E1, E2.
  unfold updates_ok. rewrite E1, E2, Ea. split_and!; [done| |done]. intros x.
  rewrite had_slot_turn; [|by intros ?%fmap_nil_inv|done..]. rewrite <- missed_turns by done.
  unfold missed. rewrite missedIn_take by lia. rewrite Z.sub_0_r, <- fmap_take, !list_elem_of_fmap.
  split.
  - intros (e & -> & [Hk He]%list_elem_of_filter). split; [done|]. eauto.
  - intros [Hk (e & -> & He)]. exists e. split; [done|]. by apply list_elem_of_filter.
Qed.

Lemma participants_sub a ps p : p ∈ participants a ps → p ∈ ps.
Proof. by intros [_ ?]%list_elem_of_filter. Qed.

Lemma participants_NoDup a ps : NoDup (pAddress <$> ps) → NoDup (pAddress <$> participants a ps).
Proof.
  unfold participants. induction ps as [|p ps IH]; [done|].
  rewrite fmap_cons, NoDup_cons, filter_cons. intros [Hp Hnd].
  destruct (decide _); [|by apply IH]. rewrite fmap_cons. apply NoDup_cons. split; [|by apply IH].
  intros (q & Eq & [_ Hq]%list_elem_of_filter)%list_elem_of_fmap. apply Hp.
  rewrite Eq. apply list_elem_of_fmap. by exists q.
Qed.

Lemma lsum_filter_fmap {A B} (g : A → B) (f : B → Z) (P : B → Prop) `{!∀ x, Decision (P x)} l :
  lsum (λ x, f (g x)) (filter (λ x, P (g x)) l) = lsum f (filter P (g <$> l)).
Proof.
  induction l as [|x l IH]; [done|]. rewrite fmap_cons, !filter_cons.
  destruct (decide (P (g x))); cbn; [f_equal|]; exact IH.
Qed.

(** The entries of the sequence are the participants, with their weights. *)
Lemma pos_entries a ps num pt seed tw s : NewPoSScheduler a ps num pt seed tw = Ok s →
  (λ e, (peAddress e, peWeight e)) <$> pos_sequence s ≡ₚ
  (λ p, (pAddress p, pWeight p)) <$> participants a ps.
Proof.
  unfold NewPoSScheduler. destruct (listedProposer a ps); [|done]. intros [= <-]. simpl.
  rewrite sortByScore_perm. by rewrite posEntries_fmap.
Qed.

Lemma kept_weight a ps num pt seed tw s (D : list Address) :
  NewPoSScheduler a ps num pt seed tw = Ok s →
  lsum peWeight (filter (λ e, peAddress e ∉ D) (pos_sequence s)) =
  lsum pWeight (filter (λ p, pAddress p ∉ D) (participants a ps)).
Proof.
  intros Es%pos_entries.
  etransitivity; [exact (lsum_filter_fmap (λ e, (peAddress e, peWeight e)) snd
    (λ xw, xw.1 ∉ D) _)|].
  rewrite (lsum_perm _ _ _ (filter_Permutation _ _ _ Es)). symmetry.
  exact (lsum_filter_fmap (λ p, (pAddress p, pWeight p)) snd (λ xw, xw.1 ∉ D) _).
Qed.

Lemma total_weight a ps num pt seed tw s : NewPoSScheduler a ps num pt seed tw = Ok s →
  lsum peWeight (pos_sequence s) = lsum pWeight (participants a ps).
Proof.
  intros Es%pos_entries%(lsum_perm snd). by rewrite !lsum_fmap in Es.
Qed.

Lemma entry_weight a ps num pt seed tw s e : NewPoSScheduler a ps num pt seed tw = Ok s →
  (∀ p, p ∈ ps → 0 ≤ pWeight p) → e ∈ pos_sequence s → 0 ≤ peWeight e.
Proof.
  intros Es%pos_entries Hw He.
  assert ((peAddress e, peWeight e) ∈ (λ e, (peAddress e, peWeight e)) <$> pos_sequence s) as Hin
    by (apply list_elem_of_fmap; by exists e).
  rewrite Es in Hin. apply list_elem_of_fmap in Hin as (p & [= _ ->] & Hp).
  by apply Hw, (participants_sub a).
Qed.

Lemma listedProposer_in a ps p : listedProposer a ps = Some p →
  p ∈ participants a ps ∧ pAddress p = a.
Proof.
  intros [E ?]%last_Some_elem_of%list_elem_of_filter. split; [|done].
  apply list_elem_of_filter. by rewrite E, Z.eqb_refl, orb_true_r.
Qed.

Lemma updates_v2 ps a num parent seed j s :
  NoDup (pAddress <$> ps) → Z.of_nat (length ps) < max64 →
  0 ≤ parent → 1 ≤ j → parent + j * T < max64 →
  NewPoASchedulerV2 a ps num parent seed = Ok s →
  let t := parent + j * T in
  updates_ok (v2_proposer s) (v2_IsScheduled s) parent t (v2_Updates s t).1 ∧
  (v2_Updates s t).2 = Z.of_nat (length
    (filter (λ x, x ∉ deactivated (v2_Updates s t).1) (v2_shuffled s))).
Proof.
  intros Hnd Hlen Hp Hj Hmax Es t. pose proof (v2_addresses _ _ _ _ _ _ Es) as Hperm.
  assert (NoDup (id <$> v2_shuffled s)) as Hnds.
  { rewrite list_fmap_id, Hperm. by apply participants_NoDup. }
  assert (length (v2_shuffled s) ≤ length ps)%nat as Hle.
  { rewrite Hperm, length_fmap. apply participants_length. }
  assert (v2_parentBlockTime s = parent ∧ v2_shuffled s ≠ []) as [Ept Hne].
  { unfold NewPoASchedulerV2 in Es. destruct (listedProposer a ps) as [p|] eqn:El; [|done].
    injection Es as <-. split; [done|]. apply listedProposer_in in El. intros E.
    rewrite E in Hperm. apply Permutation_nil, fmap_nil_inv in Hperm. rewrite Hperm in El.
    by destruct El as [El%not_elem_of_nil _]. }
  pose proof (kept_sum id (λ _, 1) (v2_shuffled s) (pAddress (v2_proposer s))
    (Z.to_nat (j - 1)) Hnds) as Hsum. cbn zeta in Hsum.
  destruct (missed_ok id (v2_shuffled s) (v2_proposer s) ((v2_proposer s) <| pActive := true |>)
    (λ _, 0) parent j) as [Ed Hok]; try done.
  cbn zeta in Ed, Hok. rewrite !list_fmap_id in Ed.
  rewrite (list_fmap_id (v2_shuffled s)), (list_fmap_id (filter _ _)) in Hok.
  subst parent. unfold v2_Updates. cbn zeta. cbn [fst snd]. split; [exact Hok|].
  unfold t. unfold id in Ed. rewrite Ed. rewrite missedIn_take in * by lia. rewrite Z.sub_0_r in *.
  rewrite list_fmap_id in Hsum. unfold id in Hsum.
  assert (∀ l : list Address, lsum (λ _, 1) l = Z.of_nat (length l)) as Hones.
  { induction l as [|? l IH]; [done|]. cbn [lsum foldr] in *. simpl length. unfold lsum in IH. lia. }
  rewrite !Hones in Hsum. rewrite length_fmap. rewrite wrap64_id by ulia. lia.
Qed.

Lemma updates_pos ps a num parent seed tw j s :
  NoDup (pAddress <$> ps) → (∀ p, p ∈ ps → 0 ≤ pWeight p) →
  lsum pWeight (participants a ps) * MaxPosScore < max64 → 0 < tw →
  0 ≤ parent → 1 ≤ j → parent + j * T < max64 →
  NewPoSScheduler a ps num parent seed tw = Ok s →
  let t := parent + j * T in
  updates_ok (pos_proposer s) (pos_IsScheduled s) parent t (pos_Updates s t).1 ∧
  (pos_Updates s t).2 = lsum pWeight
    (filter (λ p, pAddress p ∉ deactivated (pos_Updates s t).1) (participants a ps))
    * MaxPosScore / tw.
Proof.
  intros Hnd Hw Hsumw Htw Hp Hj Hmax Es t. pose proof (pos_addresses _ _ _ _ _ _ _ Es) as Hperm.
  assert (NoDup (peAddress <$> pos_sequence s)) as Hnds.
  { rewrite Hperm. by apply participants_NoDup. }
  pose proof (total_weight _ _ _ _ _ _ _ Es) as Etot.
  pose proof (λ D, kept_weight _ _ _ _ _ _ _ D Es) as Hkept.
  pose proof (λ e, entry_weight _ _ _ _ _ _ _ e Es Hw) as Hew.
  assert (pos_parentBlockTime s = parent ∧ pos_totalWeight s = tw ∧ pos_sequence s ≠ [])
    as (<- & <- & Hne).
  { unfold NewPoSScheduler in Es. destruct (listedProposer a ps) as [p|] eqn:El; [|done].
    injection Es as <-. split_and!; [done..|]. apply listedProposer_in in El. intros E.
    rewrite E in Hperm. apply Permutation_nil, fmap_nil_inv in Hperm. rewrite Hperm in El.
    by destruct El as [El%not_elem_of_nil _]. }
  pose proof (kept_sum peAddress peWeight (pos_sequence s) (pAddress (pos_proposer s))
    (Z.to_nat (j - 1)) Hnds) as Hsum. cbn zeta in Hsum.
  destruct (missed_ok peAddress (pos_sequence s) (pos_proposer s)
    (MkProposer (pAddress (pos_proposer s)) true 0) (λ _, 0) (pos_parentBlockTime s) j)
    as [Ed Hok]; try done.
  cbn zeta in Ed, Hok. fold t in Ed, Hok. rewrite <- list_fmap_compose in Ed, Hok.
  unfold pos_Updates. destruct (Z.ltb_spec 0 (pos_totalWeight s)); [|lia]. cbn zeta. cbn [fst snd].
  split; [exact Hok|]. match type of Ed with _ = ?d =>
    match goal with |- context [deactivated ?u] =>
      replace (deactivated u) with d by (symmetry; exact Ed) end end.
  rewrite <- Hkept. unfold t. rewrite missedIn_take by lia. rewrite Z.sub_0_r.
  set (missed := filter _ (take _ (pos_sequence s))) in *.
  assert (∀ e, e ∈ missed → 0 ≤ peWeight e) as Hm.
  { intros e [_ (k & Hk & _)%elem_of_take]%list_elem_of_filter. apply Hew. by eapply list_elem_of_lookup_2. }
  assert (0 ≤ lsum peWeight missed) by (by apply lsum_nonneg).
  assert (0 ≤ lsum peWeight (filter (λ e, peAddress e ∉ peAddress <$> missed) (pos_sequence s))).
  { apply lsum_nonneg. intros e [_ He]%list_elem_of_filter. by apply Hew. }
  change MaxPosScore with 10000 in *.
  rewrite foldl_add_wrap by (done || ulia). rewrite foldl_sub_wrap by (done || ulia).
  rewrite wrap64_id by (unfold_int; nia). f_equal. lia.
Qed.

(** C35: the updates punish exactly the missed slots.  For a block at a slot of
    [a], the second PoA scheduler and the PoS scheduler deactivate exactly the
    other participants that had a slot between the parent and the block, and
    activate [a] exactly if it was inactive.  The PoA score is the number of the
    participants left, so it is positive; the PoS score is their share of the
    total weight, in units of one over [MaxPosScore]. *)
Theorem missed_slots_exact ps (a : Address) (num parent totalWeight j : Z) (seed : bytes)
    (s2 : PoASchedulerV2) (s : PoSScheduler) :
  NoDup (pAddress <$> ps) → (∀ p, p ∈ ps → 0 ≤ pWeight p) → Z.of_nat (length ps) < max64 →
  lsum pWeight (participants a ps) * MaxPosScore < max64 → 0 < totalWeight →
  0 ≤ parent → 1 ≤ j → parent + j * BlockInterval < max64 →
  NewPoASchedulerV2 a ps num parent seed = Ok s2 →
  NewPoSScheduler a ps num parent seed totalWeight = Ok s →
  let t := parent + j * BlockInterval in
  let left updates := filter (λ p, pAddress p ∉ deactivated updates) (participants a ps) in
  updates_ok (v2_proposer s2) (v2_IsScheduled s2) parent t (v2_Updates s2 t).1 ∧
  (v2_Updates s2 t).2 = Z.of_nat (length (left (v2_Updates s2 t).1)) ∧ 0 < (v2_Updates s2 t).2 ∧
  updates_ok (pos_proposer s) (pos_IsScheduled s) parent t (pos_Updates s t).1 ∧
  (pos_Updates s t).2 = lsum pWeight (left (pos_Updates s t).1) * MaxPosScore / totalWeight.
Proof.
  intros Hnd Hw Hlen Hsum Htw Hp Hj Hmax E2 Es t left.
  destruct (updates_v2 _ _ _ _ _ _ _ Hnd Hlen Hp Hj Hmax E2) as [Hok2 Hs2].
  destruct (updates_pos _ _ _ _ _ _ _ _ Hnd Hw Hsum Htw Hp Hj Hmax Es) as [Hok Hs].
  fold t in Hok2, Hs2, Hok, Hs. split_and!; try done.
  - rewrite Hs2. f_equal. unfold left. rewrite (v2_addresses _ _ _ _ _ _ E2).
    generalize (deactivated (v2_Updates s2 t).1) as D. intros D. clear.
    induction (participants a ps) as [|p l IH]; [done|].
    rewrite fmap_cons, !filter_cons. destruct (decide (pAddress p ∉ D)); simpl; by rewrite IH.
  - rewrite Hs2. unfold NewPoASchedulerV2 in E2.
    destruct (listedProposer a ps) as [p|] eqn:El; [|done].
    destruct Hok2 as [Hd _].
    assert (a ∈ filter (λ x, x ∉ deactivated (v2_Updates s2 t).1) (v2_shuffled s2)) as Hin.
    { apply list_elem_of_filter. pose proof (listedProposer_in _ _ _ El) as [Hp' Ea]. split.
      - rewrite Hd. injection E2 as <-. simpl. rewrite Ea. tauto.
      - injection E2 as <-. simpl. rewrite merge_sort_Permutation, <- list_fmap_compose.
        apply list_elem_of_fmap. by exists p. }
    destruct (filter _ (v2_shuffled s2)); [by apply not_elem_of_nil in Hin|simpl; lia].
Qed.
End theorems.

(** ** Witnesses *)

(** A generator and a priority to run the schedulers with. *)
Definition demo_Sampling : Sampling := {|
  score := Z;
  score_ltb := Z.ltb;
  random := Z;
  draw seed i := (seed + 7 * Z.of_nat i) mod 11;
  is_zero := Z.eqb 0;
  tiny := 1;
  priority r w := 1000 * r / w;
|}.

Definition demo_proposers : list Proposer :=
  [MkProposer 1 true 30; MkProposer 2 true 50; MkProposer 3 false 20; MkProposer 4 true 10].

Section witnesses.
#[local] Existing Instances default_config demo_Crypto demo_Sampling.

Lemma demo_interval : 0 < BlockInterval < 2 ^ 32.
Proof. vm_compute. split; reflexivity. Qed.

Lemma demo_NoDup : NoDup (pAddress <$> demo_proposers).
Proof. apply (bool_decide_eq_true_1 _). vm_compute. reflexivity. Qed.

Lemma listed_proposer_scheduled_witness :
  (∃ s, NewPoASchedulerV2 3 demo_proposers 7 1000 [1] = Ok s ∧
    gets_slot (length demo_proposers) 1000 1234 (v2_Schedule s 1234) (v2_IsTheTime s)) ∧
  (∃ s, NewPoSScheduler 3 demo_proposers 7 1000 [1] 110 = Ok s ∧
    gets_slot (length demo_proposers) 1000 1234 (pos_Schedule s 1234) (pos_IsTheTime s)).
Proof.
  apply (listed_proposer_scheduled demo_interval demo_proposers 3 7 1000 1234 110 [1]).
  - simpl. right. right. left.
  - vm_compute. split_and!; [discriminate|discriminate|reflexivity].
Defined.

Lemma one_proposer_per_slot_witness :
  (exists! a, entitled demo_proposers
     (λ a, s ← NewPoASchedulerV1 a demo_proposers 7 1000; v1_IsTheTime s (1000 + 5 * BlockInterval)) a) ∧
  (exists! a, entitled demo_proposers
     (λ a, s ← NewPoASchedulerV2 a demo_proposers 7 1000 [1]; v2_IsTheTime s (1000 + 5 * BlockInterval)) a) ∧
  (exists! a, entitled demo_proposers
     (λ a, s ← NewPoSScheduler a demo_proposers 7 1000 [1] 110; pos_IsTheTime s (1000 + 5 * BlockInterval)) a).
Proof.
  apply (one_proposer_per_slot demo_interval demo_proposers 7 1000 110 5 [1]).
  - exact demo_NoDup.
  - discriminate.
  - lia.
  - lia.
  - vm_compute. reflexivity.
Defined.

(** The schedulers of proposer 3, on the parent at time 1000. *)
Definition demo_v2 : PoASchedulerV2 :=
  match NewPoASchedulerV2 3 demo_proposers 7 1000 [1] with Ok s => s | Err _ => MkPoAV2 (MkProposer 0 false 0) 0 [] end.
Definition demo_pos : PoSScheduler :=
  match NewPoSScheduler 3 demo_proposers 7 1000 [1] 110 with Ok s => s | Err _ => MkPoS (MkProposer 0 false 0) 0 [] 0 end.

Lemma missed_slots_exact_witness :
  updates_ok (v2_proposer demo_v2) (v2_IsScheduled demo_v2) 1000 (1000 + 4 * BlockInterval)
    (v2_Updates demo_v2 (1000 + 4 * BlockInterval)).1 ∧
  (v2_Updates demo_v2 (1000 + 4 * BlockInterval)).2 = Z.of_nat (length (filter
    (λ p, pAddress p ∉ deactivated (v2_Updates demo_v2 (1000 + 4 * BlockInterval)).1) (participants 3 demo_proposers))) ∧
  0 < (v2_Updates demo_v2 (1000 + 4 * BlockInterval)).2 ∧
  updates_ok (pos_proposer demo_pos) (pos_IsScheduled demo_pos) 1000 (1000 + 4 * BlockInterval)
    (pos_Updates demo_pos (1000 + 4 * BlockInterval)).1 ∧
  (pos_Updates demo_pos (1000 + 4 * BlockInterval)).2 = lsum pWeight (filter
    (λ p, pAddress p ∉ deactivated (pos_Updates demo_pos (1000 + 4 * BlockInterval)).1) (participants 3 demo_proposers))
    * MaxPosScore / 110.
Proof.
  apply (missed_slots_exact demo_interval demo_proposers 3 7 1000 110 4 [1]
    demo_v2 demo_pos).
  - exact demo_NoDup.
  - intros p Hp. repeat (apply elem_of_cons in Hp as [->|Hp]; [simpl; lia|]).
    by apply not_elem_of_nil in Hp.
  - vm_compute. reflexivity.
  - vm_compute. reflexivity.
  - lia.
  - lia.
  - lia.
  - vm_compute. reflexivity.
  - vm_compute. reflexivity.
  - vm_compute. reflexivity.
Defined.
End witnesses.
