(* ===== verification/Chain.v ===== *)
(** * Doubly linked chains in a key-value store

    Two contracts thread a doubly linked list through their records: the
    validations of the staker ([validation/linked_list.go]) and the candidates of
    the authority ([authority.go]).  The record type is abstract here; [Links]
    says where its two pointers are.  [seg m p l n] states that the records of
    [l] are chained in order in [m]; the lemmas say what redirecting a pointer
    at either end, inserting at the end and bypassing an element do to it. *)

From S2P Require Import Prelude.

Class Links (E : Type) := MkLinks {
  lprev : E → option Address;
  lnext : E → option Address;
  set_lprev : option Address → E → E;
  set_lnext : option Address → E → E;
}.
Class LinksLaws (E : Type) `{Links E} : Prop := {
  lprev_set_lprev : ∀ p e, lprev (set_lprev p e) = p;
  lnext_set_lprev : ∀ p e, lnext (set_lprev p e) = lnext e;
  lprev_set_lnext : ∀ n e, lprev (set_lnext n e) = lprev e;
  lnext_set_lnext : ∀ n e, lnext (set_lnext n e) = n;
}.

Section chain.
Context {E : Type} `{LinksLaws E}.
Implicit Types (m : gmap Address E) (l : list Address).

Definition linksTo m (p : option Address) (a : Address) (n : option Address) : Prop :=
  ∃ v, m !! a = Some v ∧ lprev v = p ∧ lnext v = n.

(** [seg m p l n]: the records of [l] are chained in order, the first one's
    previous pointer is [p] and the last one's next pointer is [n]. *)
Fixpoint seg m (p : option Address) l (n : option Address) : Prop :=
  match l with
  | [] => True
  | a :: l' => linksTo m p a (from_option Some n (list.head l')) ∧ seg m (Some a) l' n
  end.

(** What follows the prefix of a segment, and what precedes its suffix. *)
Definition hdOr l (n : option Address) : option Address := from_option Some n (list.head l).
Definition lastOr (p : option Address) l : option Address := from_option Some p (last l).

(** Redirecting the neighbours of an element closes the gap around it. *)
Definition bypass_prev (n : option Address) l m : gmap Address E :=
  match last l with
  | None => m
  | Some p => match m !! p with None => m | Some pv => <[p := set_lnext n pv]> m end
  end.
Definition bypass_next (p : option Address) l m : gmap Address E :=
  match list.head l with
  | None => m
  | Some n => match m !! n with None => m | Some nv => <[n := set_lprev p nv]> m end
  end.

Lemma lastOr_cons p a l : lastOr p (a :: l) = lastOr (Some a) l.
Proof. unfold lastOr. rewrite last_cons. by destruct (last l). Qed.

Lemma hdOr_app l1 l2 n : hdOr (l1 ++ l2) n = hdOr l1 (hdOr l2 n).
Proof. by destruct l1. Qed.

Lemma hdOr_None l : hdOr l None = list.head l.
Proof. by destruct l. Qed.

Lemma lastOr_None l : lastOr None l = last l.
Proof. unfold lastOr. by destruct (last l). Qed.

Lemma seg_cons m p a l n :
  seg m p (a :: l) n ↔ linksTo m p a (hdOr l n) ∧ seg m (Some a) l n.
Proof. done. Qed.

Lemma seg_app m p l1 l2 n :
  seg m p (l1 ++ l2) n ↔ seg m p l1 (hdOr l2 n) ∧ seg m (lastOr p l1) l2 n.
Proof.
  revert p. induction l1 as [|a l1 IH]; intros p; simpl.
  - unfold lastOr. simpl. tauto.
  - rewrite IH, lastOr_cons. fold (hdOr (l1 ++ l2) n). rewrite hdOr_app.
    fold (hdOr l1 (hdOr l2 n)). tauto.
Qed.

Lemma seg_ext m m' p l n :
  (∀ a, a ∈ l → m' !! a = m !! a) → seg m p l n → seg m' p l n.
Proof.
  revert p. induction l as [|a l IH]; intros p Hm; simpl; [done|].
  intros [(v & Hv & ?) Hl]. split.
  - exists v. rewrite Hm; [done|set_solver].
  - apply IH; [|done]. intros b Hb. apply Hm. set_solver.
Qed.

Lemma seg_frame m p l n b v : b ∉ l → seg m p l n → seg (<[b := v]> m) p l n.
Proof.
  intros Hb. apply seg_ext. intros a Ha. apply lookup_insert_ne. intros ->. done.
Qed.

Lemma seg_lookup m p l n a : seg m p l n → a ∈ l → is_Some (m !! a).
Proof.
  revert p. induction l as [|b l IH]; intros p; simpl; [by intros _ ?%elem_of_nil|].
  intros [(v & Hv & _) Hl] [->|Ha]%elem_of_cons; [eauto|]. by eapply IH.
Qed.

(** Overwriting a record without touching its pointers. *)
Lemma seg_same_links m p l n a v v' :
  m !! a = Some v → lprev v' = lprev v → lnext v' = lnext v →
  seg m p l n → seg (<[a := v']> m) p l n.
Proof.
  intros Ha Hp Hn. revert p. induction l as [|b l IH]; intros p; simpl; [done|].
  intros [(w & Hw & ? & ?) HL]. split; [|by apply IH].
  destruct (decide (a = b)) as [->|Hne].
  - exists v'. rewrite lookup_insert_eq. simplify_eq. by rewrite Hp, Hn.
  - exists w. by rewrite lookup_insert_ne.
Qed.

(** Redirect the last element of a segment. *)
Lemma seg_set_next m p l n n' q v :
  NoDup (l ++ [q]) → m !! q = Some v → seg m p (l ++ [q]) n →
  seg (<[q := set_lnext n' v]> m) p (l ++ [q]) n'.
Proof.
  intros Hnd Hv. rewrite !seg_app. simpl. intros [Hl [(w & Hw & Hp & Hn) _]].
  apply NoDup_app in Hnd as (_ & Hq & _). split; [|split; [|done]].
  - apply seg_frame; [|done]. intros Hin. apply (Hq q Hin). set_solver.
  - exists (set_lnext n' v). rewrite lookup_insert_eq. simplify_eq.
    by rewrite lprev_set_lnext, lnext_set_lnext.
Qed.

(** Redirect the first element of a segment. *)
Lemma seg_set_prev m p p' l n q v :
  NoDup (q :: l) → m !! q = Some v → seg m p (q :: l) n →
  seg (<[q := set_lprev p' v]> m) p' (q :: l) n.
Proof.
  intros [Hq Hnd]%NoDup_cons Hv. rewrite !seg_cons. intros [(w & Hw & Hp & Hn) Hl].
  split; [|by apply seg_frame].
  exists (set_lprev p' v). rewrite lookup_insert_eq. simplify_eq.
  by rewrite lprev_set_lprev, lnext_set_lprev.
Qed.

Lemma seg_split m l1 a l2 v :
  seg m None (l1 ++ a :: l2) None → m !! a = Some v →
  lprev v = last l1 ∧ lnext v = list.head l2 ∧
  seg m None l1 (Some a) ∧ seg m (Some a) l2 None.
Proof.
  rewrite seg_app, seg_cons. intros (H1 & (w & Hw & Hp & Hn) & H2) Hv. simplify_eq.
  by rewrite Hp, Hn, lastOr_None, hdOr_None.
Qed.

Lemma bypass_prev_spec m l1 n n' :
  NoDup l1 → seg m None l1 n →
  seg (bypass_prev n' l1 m) None l1 n' ∧
  (∀ b, b ∉ l1 → bypass_prev n' l1 m !! b = m !! b).
Proof.
  intros Hnd Hs. unfold bypass_prev. destruct (last l1) as [q|] eqn:Hl.
  - apply last_Some in Hl as [l0 ->].
    destruct (seg_lookup _ _ _ _ q Hs) as [qv Hq]; [set_solver|]. rewrite Hq.
    split; [by eapply seg_set_next|].
    intros b Hb. rewrite lookup_insert_ne; [done|set_solver].
  - by apply last_None in Hl as ->.
Qed.

Lemma bypass_next_spec m l2 p p' :
  NoDup l2 → seg m p l2 None →
  seg (bypass_next p' l2 m) p' l2 None ∧
  (∀ b, b ∉ l2 → bypass_next p' l2 m !! b = m !! b).
Proof.
  intros Hnd Hs. unfold bypass_next. destruct l2 as [|q l0]; simpl; [done|].
  destruct (seg_lookup _ _ _ _ q Hs) as [qv Hq]; [set_solver|]. rewrite Hq.
  split; [by eapply seg_set_prev|].
  intros b Hb. rewrite lookup_insert_ne; [done|set_solver].
Qed.

(** Closing the gap around [a] yields the chain without it. *)
Lemma seg_bypass m l1 a l2 v :
  NoDup (l1 ++ a :: l2) → seg m None (l1 ++ a :: l2) None → m !! a = Some v →
  let m' := bypass_next (lprev v) l2 (bypass_prev (lnext v) l1 m) in
  seg m' None (l1 ++ l2) None ∧ (∀ b, b ∉ l1 → b ∉ l2 → m' !! b = m !! b).
Proof.
  intros Hnd Hseg Ha. destruct (seg_split _ _ _ _ _ Hseg Ha) as (Hpv & Hnv & Hs1 & Hs2).
  apply NoDup_app in Hnd as (Hnd1 & Hdisj & [Ha2 Hnd2]%NoDup_cons).
  assert (∀ b, b ∈ l1 → b ∉ l2) as Hd12 by (intros b Hb ?; apply (Hdisj b Hb); set_solver).
  destruct (bypass_prev_spec m l1 (Some a) (lnext v) Hnd1 Hs1) as (Hm1 & Hoth1).
  assert (seg (bypass_prev (lnext v) l1 m) (Some a) l2 None) as Hs2'.
  { eapply seg_ext; [|exact Hs2]. intros b Hb. apply Hoth1. intros Hb'. by apply (Hd12 b). }
  destruct (bypass_next_spec _ l2 (Some a) (lprev v) Hnd2 Hs2') as (Hm2 & Hoth2).
  split.
  - apply seg_app. rewrite hdOr_None, lastOr_None, <- Hnv, <- Hpv. split; [|done].
    eapply seg_ext; [|exact Hm1]. auto.
  - intros b Hb1 Hb2. by rewrite Hoth2, Hoth1.
Qed.

(** Appending a record. *)
Lemma seg_snoc m p l a v :
  seg m p l (Some a) → a ∉ l → lprev v = lastOr p l → lnext v = None →
  seg (<[a := v]> m) p (l ++ [a]) None.
Proof.
  intros Hs Ha Hp Hn. apply seg_app. split; [by apply seg_frame|].
  simpl. split; [|done]. exists v. by rewrite lookup_insert_eq.
Qed.
End chain.
