(* ===== verification/Authority.v ===== *)
(** * Package authority: the PoA candidates

    [src/builtin/authority/authority.go] and [types.go].  The candidates form a
    doubly linked list threaded through the entries; the storage is the map of
    entries and the two pointers under the keys "head" and "tail".  Reading a
    missing entry gives the zero entry, and storing an empty entry deletes it.
    A revoked entry stays in the storage, unlisted and inactive. *)

From S2P Require Import Prelude Chain.

Record entry := MkEntry {
  Endorsor : Address;
  Identity : Z;
  Active : bool;
  ePrev : option Address;
  eNext : option Address;
}.
#[export] Instance eta_entry : Eta entry := λ e,
  MkEntry (Endorsor e) (Identity e) (Active e) (ePrev e) (eNext e).

Record Candidate := MkCandidate {
  NodeMaster : Address;
  cEndorsor : Address;
  cIdentity : Z;
  cActive : bool;
}.

Definition entry0 : entry := MkEntry 0 0 false None None.

Definition entry_IsEmpty (e : entry) : bool :=
  IsZero (Endorsor e) && (Identity e =? 0) && negb (Active e) &&
  bool_decide (ePrev e = None) && bool_decide (eNext e = None).

Definition entry_IsLinked (e : entry) : bool :=
  bool_decide (ePrev e ≠ None) || bool_decide (eNext e ≠ None).

Record Authority := MkAuthority {
  entries : gmap Address entry;
  headPtr : option Address;
  tailPtr : option Address;
}.
#[export] Instance eta_Authority : Eta Authority := λ a,
  MkAuthority (entries a) (headPtr a) (tailPtr a).

Definition getEntry (nodeMaster : Address) : M Authority entry :=
  gets (λ a, default entry0 (entries a !! nodeMaster)).

Definition setEntry (nodeMaster : Address) (e : entry) : M Authority unit :=
  modify (λ a, a <| entries :=
    if entry_IsEmpty e then delete nodeMaster (entries a)
    else <[nodeMaster := e]> (entries a) |>).

Definition setHeadPtr (p : option Address) : M Authority unit := modify (λ a, a <| headPtr := p |>).
Definition setTailPtr (p : option Address) : M Authority unit := modify (λ a, a <| tailPtr := p |>).

(** Returns listed, endorsor, identity, active. *)
Definition Authority_Get (nodeMaster : Address) : M Authority (bool * Address * Z * bool) :=
  e ← getEntry nodeMaster;
  if entry_IsLinked e then mret (true, Endorsor e, Identity e, Active e) else
  ptr ← gets headPtr;
  let listed := bool_decide (ptr = Some nodeMaster) in
  mret (listed, Endorsor e, Identity e, Active e).

Definition Authority_Add (nodeMaster endorsor : Address) (identity : Z) : M Authority bool :=
  e ← getEntry nodeMaster;
  if negb (entry_IsEmpty e) then mret false else
  let e := e <| Endorsor := endorsor |> <| Identity := identity |> <| Active := true |> in
  t ← gets tailPtr;
  let e := e <| ePrev := t |> in
  setTailPtr (Some nodeMaster) ;;
  match t with
  | None => setHeadPtr (Some nodeMaster)
  | Some t =>
      tailEntry ← getEntry t;
      setEntry t (tailEntry <| eNext := Some nodeMaster |>)
  end ;;
  setEntry nodeMaster e ;;
  mret true.

Definition Authority_Revoke (nodeMaster : Address) : M Authority bool :=
  e ← getEntry nodeMaster;
  if negb (entry_IsLinked e) then mret false else
  match ePrev e with
  | None => setHeadPtr (eNext e)
  | Some p =>
      prevEntry ← getEntry p;
      setEntry p (prevEntry <| eNext := eNext e |>)
  end ;;
  match eNext e with
  | None => setTailPtr (ePrev e)
  | Some n =>
      nextEntry ← getEntry n;
      setEntry n (nextEntry <| ePrev := ePrev e |>)
  end ;;
  let e := e <| eNext := None |> <| ePrev := None |> <| Active := false |> in
  setEntry nodeMaster e ;;
  mret true.

Definition Authority_Update (nodeMaster : Address) (active : bool) : M Authority bool :=
  e ← getEntry nodeMaster;
  if negb (entry_IsLinked e) then mret false else
  setEntry nodeMaster (e <| Active := active |>) ;;
  mret true.

Definition toCandidate (a : Address) (e : entry) : Candidate :=
  MkCandidate a (Endorsor e) (Identity e) (Active e).

(** The loop of [Candidates]; [checker] reads the state outside this contract. *)
Fixpoint candidatesFrom (fuel : nat) (checker : Address → Address → result bool) (limit : Z)
    (ptr : option Address) (acc : list Candidate) : M Authority (list Candidate) :=
  match ptr with
  | None => mret acc
  | Some a =>
      if limit <=? Z.of_nat (length acc) then mret acc else
      match fuel with
      | O => fail ErrFuel
      | S fuel =>
          e ← getEntry a;
          ok ← lift (checker a (Endorsor e));
          candidatesFrom fuel checker limit (eNext e)
            (if ok : bool then acc ++ [toCandidate a e] else acc)
      end
  end.

Definition Candidates (checker : Address → Address → result bool) (limit : Z)
    : M Authority (list Candidate) :=
  ptr ← gets headPtr;
  fuel ← gets (λ a, size (entries a));
  candidatesFrom fuel checker limit ptr [].

Fixpoint allCandidatesFrom (fuel : nat) (ptr : option Address) (acc : list Candidate)
    : M Authority (list Candidate) :=
  match ptr, fuel with
  | None, _ => mret acc
  | Some _, O => fail ErrFuel
  | Some a, S fuel =>
      e ← getEntry a;
      allCandidatesFrom fuel (eNext e) (acc ++ [toCandidate a e])
  end.

Definition AllCandidates : M Authority (list Candidate) :=
  ptr ← gets headPtr;
  fuel ← gets (λ a, size (entries a));
  allCandidatesFrom fuel ptr [].

Definition Authority_First : M Authority (option Address) := gets headPtr.

Definition Authority_Next (nodeMaster : Address) : M Authority (option Address) :=
  e ← getEntry nodeMaster;
  mret (eNext e).

(** ** The abstract list of candidates *)

#[export] Instance entry_Links : Links entry :=
  MkLinks _ ePrev eNext (λ p e, e <| ePrev := p |>) (λ n e, e <| eNext := n |>).
#[export] Instance entry_LinksLaws : LinksLaws entry.
Proof. by split. Qed.

(** [A] lists the candidates [l]; authority.sol admits no zero endorsor. *)
Record auth_list (A : Authority) (l : list Address) : Prop := {
  al_head : headPtr A = list.head l;
  al_tail : tailPtr A = last l;
  al_nodup : NoDup l;
  al_seg : seg (entries A) None l None;
  al_endorsed : ∀ a e, entries A !! a = Some e → Endorsor e ≠ 0;
  al_unlinked : ∀ a e, a ∉ l → entries A !! a = Some e → ePrev e = None ∧ eNext e = None;
}.

Definition entryOf (A : Authority) (a : Address) : entry := default entry0 (entries A !! a).
Definition candidateOf (A : Authority) (a : Address) : Candidate := toCandidate a (entryOf A a).

(** The candidates of [l] the checker accepts, up to the limit. *)
Fixpoint pick (checker : Address → Address → result bool) (limit : Z) (A : Authority)
    (acc : list Candidate) (l : list Address) : result (list Candidate) :=
  match l with
  | [] => Ok acc
  | a :: l' =>
      if limit <=? Z.of_nat (length acc) then Ok acc else
      ok ← checker a (cEndorsor (candidateOf A a));
      pick checker limit A (if ok : bool then acc ++ [candidateOf A a] else acc) l'
  end.

Section authority.
Implicit Types (A : Authority) (l : list Address).

Lemma wp_getEntry a Q R A : Q (entryOf A a) A → wp (getEntry a) Q R A.
Proof. intros HQ. unfold getEntry. by wp_step. Qed.

Lemma wp_setEntry a e (Q : unit → Authority → Prop) R A : Endorsor e ≠ 0 →
  Q tt (A <| entries := <[a := e]> (entries A) |>) → wp (setEntry a e) Q R A.
Proof.
  intros He HQ. unfold setEntry. wp_step. unfold entry_IsEmpty, IsZero.
  by rewrite (proj2 (Z.eqb_neq _ _) He).
Qed.

Lemma member_lookup A l a : auth_list A l → a ∈ l →
  ∃ e, entries A !! a = Some e ∧ entryOf A a = e ∧ Endorsor e ≠ 0.
Proof.
  intros HA Ha. destruct (seg_lookup _ _ _ _ a (al_seg _ _ HA) Ha) as [e He].
  exists e. unfold entryOf. rewrite He. split; [done|]. split; [done|]. by eapply al_endorsed.
Qed.

Lemma linked_cases A l a : auth_list A l →
  if decide (a ∈ l ∧ length l ≠ 1%nat) then entry_IsLinked (entryOf A a) = true
  else entry_IsLinked (entryOf A a) = false.
Proof.
  intros HA. unfold entry_IsLinked. destruct (decide (a ∈ l)) as [Hin|Hin].
  - destruct (member_lookup A l a HA Hin) as (e & He & -> & _).
    pose proof (al_seg _ _ HA) as Hs.
    apply list_elem_of_split in Hin as Hsp. destruct Hsp as (l1 & l2 & ->).
    destruct (seg_split _ _ _ _ _ Hs He) as (Hp & Hn & _).
    change (lprev e) with (ePrev e) in Hp. change (lnext e) with (eNext e) in Hn.
    rewrite Hp, Hn. rewrite length_app. simpl.
    destruct l1 as [|x l1 _] using rev_ind.
    + destruct l2; simpl; case_decide; naive_solver.
    + rewrite last_snoc, length_app. simpl. case_decide as Hd; [done|].
      destruct Hd. split; [set_solver|lia].
  - rewrite decide_False by tauto. unfold entryOf. destruct (entries A !! a) as [e|] eqn:He; [|done].
    simpl. destruct (al_unlinked _ _ HA a e Hin He) as [-> ->]. done.
Qed.

(** [Get] always returns and changes nothing. *)
Lemma Authority_Get_reads a A :
  ∃ listed en id act, Authority_Get a A = Ok ((listed, en, id, act), A).
Proof.
  unfold Authority_Get, mbind, M_bind, getEntry, gets. simpl.
  destruct (entry_IsLinked _); by do 4 eexists.
Qed.

(** [Get] reports exactly the members of the list as listed. *)
Lemma wp_Authority_Get a l (Q : bool * Address * Z * bool → Authority → Prop) R A :
  auth_list A l →
  Q (bool_decide (a ∈ l), Endorsor (entryOf A a), Identity (entryOf A a), Active (entryOf A a)) A →
  wp (Authority_Get a) Q R A.
Proof.
  intros HA HQ. unfold Authority_Get. wp_step. apply wp_getEntry.
  pose proof (linked_cases A l a HA) as Hlk. case_decide as Hd; rewrite Hlk.
  - wp_step. destruct Hd. by rewrite bool_decide_eq_true_2 in HQ.
  - do 2 wp_step. rewrite (al_head _ _ HA). wp_step.
    assert (bool_decide (list.head l = Some a) = bool_decide (a ∈ l)) as ->; [|done].
    apply bool_decide_ext. split.
    + destruct l; simpl; [done|]. intros [= ->]. set_solver.
    + intros Hin. destruct l as [|b [|c l]]; [set_solver|set_solver|].
      exfalso. apply Hd. split; [done|simpl; lia].
Qed.

Lemma empty_entry A l a : auth_list A l → entry_IsEmpty (entryOf A a) = bool_decide (entries A !! a = None).
Proof.
  intros HA. unfold entryOf. destruct (entries A !! a) as [e|] eqn:He; simpl; [|done].
  pose proof (al_endorsed _ _ HA a e He) as H0. unfold entry_IsEmpty, IsZero.
  by rewrite (proj2 (Z.eqb_neq _ _) H0).
Qed.

(** What an operation may change about candidates other than [a]. *)
Definition others_same (a : Address) A A' : Prop :=
  ∀ b, b ≠ a → candidateOf A' b = candidateOf A b.

(** [Add] appends a candidate that has no entry yet, and refuses any other. *)
Lemma wp_Authority_Add a en id l (Q : bool → Authority → Prop) R A :
  auth_list A l → en ≠ 0 →
  (is_Some (entries A !! a) → Q false A) →
  (entries A !! a = None → ∀ A', auth_list A' (l ++ [a]) →
    candidateOf A' a = MkCandidate a en id true → others_same a A A' → Q true A') →
  wp (Authority_Add a en id) Q R A.
Proof.
  intros HA Hen Hf Ht. unfold Authority_Add. wp_step. apply wp_getEntry.
  rewrite (empty_entry A l a HA). case_bool_decide as Hno; simpl.
  2: { wp_step. apply Hf. by apply not_eq_None_Some. }
  assert (a ∉ l) as Hal.
  { intros Hin. destruct (member_lookup A l a HA Hin) as (e & He & _). congruence. }
  specialize (Ht Hno). destruct HA as [Hh Htl Hnd Hs Hen0 Hun]. destruct A as [m h t].
  simpl in *. unfold entryOf. simpl. rewrite Hno. simpl. subst h t.
  do 2 wp_step. unfold setTailPtr. do 3 wp_step. simpl.
  assert (NoDup (l ++ [a])) as Hnd'.
  { apply NoDup_app. split; [done|]. split; [set_solver|apply NoDup_singleton]. }
  destruct (last l) as [q|] eqn:Hq; simpl.
  - apply last_Some in Hq as [l0 ->].
    destruct (seg_lookup _ _ _ _ q Hs) as [qe Hqe]; [set_solver|].
    wp_step. apply wp_getEntry. unfold entryOf. simpl. rewrite Hqe. simpl.
    apply wp_setEntry; [exact (Hen0 q qe Hqe)|]. wp_step. apply wp_setEntry; [done|]. wp_step. simpl.
    assert (q ≠ a) as Hqa by set_solver.
    apply Ht.
    + split; simpl.
      * destruct l0; done.
      * by rewrite last_snoc.
      * done.
      * apply seg_snoc; [|done|by rewrite lastOr_None, last_snoc|done].
        exact (seg_set_next m None l0 None (Some a) q qe Hnd Hqe Hs).
      * intros b e. rewrite !lookup_insert. repeat case_decide; naive_solver.
      * intros b e Hb. rewrite !lookup_insert_ne by set_solver. apply Hun. set_solver.
    + unfold candidateOf, entryOf. simpl. by rewrite lookup_insert_eq.
    + intros b Hb. unfold candidateOf, entryOf. simpl. rewrite lookup_insert_ne by done.
      destruct (decide (b = q)) as [->|Hbq]; [by rewrite lookup_insert_eq, Hqe|].
      by rewrite lookup_insert_ne.
  - apply last_None in Hq as ->. unfold setHeadPtr. do 2 wp_step. apply wp_setEntry; [done|].
    wp_step. simpl. apply Ht.
    + split; simpl; try done.
      * apply (seg_snoc _ None []); [done|set_solver|done|done].
      * intros b e. rewrite lookup_insert. case_decide; naive_solver.
      * intros b e Hb. rewrite lookup_insert_ne by set_solver. apply Hun. set_solver.
    + unfold candidateOf, entryOf. simpl. by rewrite lookup_insert_eq.
    + intros b Hb. unfold candidateOf, entryOf. simpl. by rewrite lookup_insert_ne.
Qed.

(** Writing back the neighbours of a removed candidate. *)
Lemma wp_relink_prev A m h t e l1 n (Q : unit → Authority → Prop) R :
  (∀ b e, m !! b = Some e → Endorsor e ≠ 0) → ePrev e = last l1 → seg m None l1 n →
  A = MkAuthority m h t →
  Q tt (MkAuthority (bypass_prev (eNext e) l1 m) (match l1 with [] => eNext e | _ => h end) t) →
  wp (match ePrev e with
      | None => setHeadPtr (eNext e)
      | Some p => prevEntry ← getEntry p; setEntry p (prevEntry <| eNext := eNext e |>)
      end) Q R A.
Proof.
  intros Hen Hp Hs -> HQ. rewrite Hp. unfold bypass_prev in HQ.
  destruct (last l1) as [p|] eqn:El1.
  - apply last_Some in El1 as [l0 ->].
    destruct (seg_lookup _ _ _ _ p Hs) as [pv Hpv]; [set_solver|]. rewrite Hpv in HQ.
    wp_step. apply wp_getEntry. unfold entryOf. simpl. rewrite Hpv. simpl.
    apply wp_setEntry; [exact (Hen p pv Hpv)|]. by destruct l0.
  - apply last_None in El1 as ->. unfold setHeadPtr. by wp_step.
Qed.

Lemma wp_relink_next A m h t e l2 p (Q : unit → Authority → Prop) R :
  (∀ b e, m !! b = Some e → Endorsor e ≠ 0) → eNext e = list.head l2 → seg m p l2 None →
  A = MkAuthority m h t →
  Q tt (MkAuthority (bypass_next (ePrev e) l2 m) h (match l2 with [] => ePrev e | _ => t end)) →
  wp (match eNext e with
      | None => setTailPtr (ePrev e)
      | Some n => nextEntry ← getEntry n; setEntry n (nextEntry <| ePrev := ePrev e |>)
      end) Q R A.
Proof.
  intros Hen Hn Hs -> HQ. rewrite Hn. unfold bypass_next in HQ.
  destruct l2 as [|q l2]; simpl in *; [unfold setTailPtr; by wp_step|].
  destruct Hs as [(qv & Hqv & _) _]. rewrite Hqv in HQ.
  wp_step. apply wp_getEntry. unfold entryOf. simpl. rewrite Hqv. simpl.
  apply wp_setEntry; [exact (Hen q qv Hqv)|]. done.
Qed.

(** Bypassing keeps everything but the pointers. *)
Lemma bypass_data p n l1 l2 m b :
  (λ e, (Endorsor e, Identity e, Active e)) <$>
    (bypass_next p l2 (bypass_prev n l1 m) !! b) =
  (λ e, (Endorsor e, Identity e, Active e)) <$> (m !! b).
Proof.
  assert (∀ m' : gmap Address entry, (λ e, (Endorsor e, Identity e, Active e)) <$>
    (bypass_next p l2 m' !! b) = (λ e, (Endorsor e, Identity e, Active e)) <$> (m' !! b)) as ->.
  { intros m'. unfold bypass_next. destruct (list.head l2) as [q|]; [|done].
    destruct (m' !! q) eqn:Hq; [|done]. rewrite lookup_insert. case_decide; [|done].
    subst. by rewrite Hq. }
  unfold bypass_prev. destruct (last l1) as [q|]; [|done].
  destruct (m !! q) eqn:Hq; [|done]. rewrite lookup_insert. case_decide; [|done].
  subst. by rewrite Hq.
Qed.

Lemma data_endorsed (m m' : gmap Address entry) :
  (∀ b, (λ e, (Endorsor e, Identity e, Active e)) <$> (m' !! b) =
        (λ e, (Endorsor e, Identity e, Active e)) <$> (m !! b)) →
  (∀ b e, m !! b = Some e → Endorsor e ≠ 0) → ∀ b e, m' !! b = Some e → Endorsor e ≠ 0.
Proof.
  intros Hd Hen b e He. specialize (Hd b). rewrite He in Hd. simpl in Hd.
  destruct (m !! b) as [e'|] eqn:Hm; simplify_eq/=. specialize (Hen b e' Hm). congruence.
Qed.

(** [Revoke] removes a member, except the last remaining one. *)
Lemma wp_Authority_Revoke a l (Q : bool → Authority → Prop) R A :
  auth_list A l →
  (¬ (a ∈ l ∧ length l ≠ 1%nat) → Q false A) →
  (a ∈ l → length l ≠ 1%nat → ∀ A', auth_list A' (filter (.≠ a) l) →
    candidateOf A' a = MkCandidate a (Endorsor (entryOf A a)) (Identity (entryOf A a)) false →
    others_same a A A' → Q true A') →
  wp (Authority_Revoke a) Q R A.
Proof.
  intros HA Hf Ht. unfold Authority_Revoke. wp_step. apply wp_getEntry.
  pose proof (linked_cases A l a HA) as Hlk. case_decide as Hd; rewrite Hlk; simpl;
    [|wp_step; by apply Hf].
  destruct Hd as [Hin Hlen]. destruct (member_lookup A l a HA Hin) as (e & He & -> & He0).
  specialize (Ht Hin Hlen). destruct HA as [Hh Htl Hnd Hs Hen Hun]. destruct A as [m h t]. simpl in *.
  apply list_elem_of_split in Hin as (l1 & l2 & ->). subst h t.
  rewrite filter_ne_mid in Ht by done.
  destruct (seg_split _ _ _ _ _ Hs He) as (Hp & Hn & Hs1 & Hs2).
  destruct (seg_bypass _ _ _ _ _ Hnd Hs He) as [Hs' Hoth].
  change (lprev e) with (ePrev e) in *. change (lnext e) with (eNext e) in *.
  pose proof Hnd as (Hnd1 & Hdisj & [Ha2 Hnd2]%NoDup_cons)%NoDup_app.
  assert (a ∉ l1) as Ha1 by (intros H; apply (Hdisj a H); set_solver).
  assert (seg (bypass_prev (eNext e) l1 m) (Some a) l2 None) as Hs2'.
  { eapply seg_ext; [|exact Hs2]. intros b Hb.
    apply (bypass_prev_spec m l1 (Some a) (eNext e) Hnd1 Hs1). intros H.
    apply (Hdisj b H). set_solver. }
  pose proof (bypass_data (ePrev e) (eNext e) l1 l2 m) as Hdata.
  pose proof (bypass_data (ePrev e) (eNext e) l1 [] m) as Hdata1.
  wp_step. eapply (wp_relink_prev _ m _ _ e l1); [done..|].
  wp_step. eapply (wp_relink_next _ _ _ _ e l2); [by apply (data_endorsed m)|done|exact Hs2'|done|].
  wp_step. apply wp_setEntry; [done|]. wp_step. simpl. apply Ht.
  - split; simpl.
    + rewrite Hn. by destruct l1.
    + rewrite Hp. destruct l2; [by rewrite app_nil_r|]. by rewrite !last_app, last_cons_cons.
    + apply NoDup_app. split; [done|]. split; [|done]. intros b Hb ?. apply (Hdisj b Hb). set_solver.
    + apply seg_frame; [set_solver|done].
    + intros b e'. rewrite lookup_insert. case_decide; [naive_solver|].
      by apply (data_endorsed m).
    + intros b e' Hb. rewrite lookup_insert. case_decide as Hba; [naive_solver|].
      rewrite Hoth by set_solver. apply Hun. set_solver.
  - unfold candidateOf, entryOf. simpl. by rewrite lookup_insert_eq, He.
  - intros b Hb. unfold candidateOf, entryOf, toCandidate. simpl. rewrite lookup_insert_ne by done.
    specialize (Hdata b). destruct (bypass_next _ _ _ !! b), (m !! b); simplify_eq/=; congruence.
Qed.

(** [Update] sets the status of a member, except the last remaining one. *)
Lemma wp_Authority_Update a act l (Q : bool → Authority → Prop) R A :
  auth_list A l →
  (¬ (a ∈ l ∧ length l ≠ 1%nat) → Q false A) →
  (a ∈ l → length l ≠ 1%nat → ∀ A', auth_list A' l →
    candidateOf A' a = MkCandidate a (Endorsor (entryOf A a)) (Identity (entryOf A a)) act →
    others_same a A A' → Q true A') →
  wp (Authority_Update a act) Q R A.
Proof.
  intros HA Hf Ht. unfold Authority_Update. wp_step. apply wp_getEntry.
  pose proof (linked_cases A l a HA) as Hlk. case_decide as Hd; rewrite Hlk; simpl;
    [|wp_step; by apply Hf].
  destruct Hd as [Hin Hlen]. destruct (member_lookup A l a HA Hin) as (e & He & -> & He0).
  destruct HA as [Hh Htl Hnd Hs Hen Hun]. wp_step. apply wp_setEntry; [done|]. wp_step.
  apply Ht; [done|done|..].
  - split; simpl; try done.
    + by apply (seg_same_links _ _ _ _ a e).
    + intros b e'. rewrite lookup_insert. case_decide; naive_solver.
    + intros b e' Hb. rewrite lookup_insert. case_decide; naive_solver.
  - unfold candidateOf, entryOf. simpl. by rewrite lookup_insert_eq, He.
  - intros b Hb. unfold candidateOf, entryOf. simpl. by rewrite lookup_insert_ne.
Qed.

Lemma auth_length A l : auth_list A l → (length l ≤ size (entries A))%nat.
Proof.
  intros HA. rewrite <- size_dom, <- (size_list_to_set (C := gset Z)) by apply HA.
  apply subseteq_size. intros a Ha. rewrite elem_of_list_to_set in Ha.
  apply elem_of_dom. by apply (seg_lookup _ _ _ _ a (al_seg _ _ HA)).
Qed.

Lemma candidatesFrom_spec fuel checker limit p l acc A :
  seg (entries A) p l None → (length l ≤ fuel)%nat →
  candidatesFrom fuel checker limit (list.head l) acc A = lift (pick checker limit A acc l) A.
Proof.
  revert fuel p acc. induction l as [|a l IH]; intros fuel p acc Hs Hf; simpl in *.
  { by destruct fuel. }
  destruct fuel as [|fuel]; [lia|]. simpl. case_match; [done|].
  destruct Hs as [(e & He & _ & Hn) Hs]. change (lnext e) with (eNext e) in Hn.
  unfold mbind, M_bind, getEntry, gets, candidateOf, entryOf. simpl. rewrite He. simpl.
  unfold lift at 1. destruct (checker a (Endorsor e)) as [ok|]; [|done]. simpl. rewrite Hn.
  replace (from_option Some None (list.head l)) with (list.head l) by (by destruct l).
  by rewrite (IH fuel (Some a)); [|done|lia].
Qed.

(** [Candidates] walks the list in order and stops at the limit. *)
Lemma Candidates_spec checker limit l A : auth_list A l →
  Candidates checker limit A = lift (pick checker limit A [] l) A.
Proof.
  intros HA. unfold Candidates, mbind, M_bind, gets. rewrite (al_head _ _ HA).
  eapply candidatesFrom_spec; [apply HA|by apply auth_length].
Qed.

Lemma allCandidatesFrom_spec fuel p l acc A :
  seg (entries A) p l None → (length l ≤ fuel)%nat →
  allCandidatesFrom fuel (list.head l) acc A = Ok (acc ++ (candidateOf A <$> l), A).
Proof.
  revert fuel p acc. induction l as [|a l IH]; intros fuel p acc Hs Hf; simpl in *.
  { rewrite app_nil_r. by destruct fuel. }
  destruct fuel as [|fuel]; [lia|]. simpl.
  destruct Hs as [(e & He & _ & Hn) Hs]. change (lnext e) with (eNext e) in Hn.
  unfold mbind, M_bind, getEntry, gets. rewrite He. simpl. rewrite Hn.
  replace (from_option Some None (list.head l)) with (list.head l) by (by destruct l).
  rewrite (IH fuel (Some a)); [|done|lia].
  rewrite <- app_assoc. simpl. unfold candidateOf, entryOf. by rewrite He.
Qed.

Lemma AllCandidates_spec l A : auth_list A l → AllCandidates A = Ok (candidateOf A <$> l, A).
Proof.
  intros HA. unfold AllCandidates, mbind, M_bind, gets. rewrite (al_head _ _ HA).
  eapply allCandidatesFrom_spec; [apply HA|by apply auth_length].
Qed.
End authority.
