(* ===== verification/Stakes.v ===== *)
(** * Package stakes: VET amounts with their weight

    [src/builtin/staker/stakes/stakes.go].  A [*WeightedStake] that is mutated
    in place by [Add] and [Sub] becomes a value returned by them. *)

From S2P Require Import Prelude.

Record WeightedStake := MkWS {
  VET : Z;     (* uint64, in VET *)
  Weight : Z;  (* uint64 *)
}.
#[export] Instance eta_WeightedStake : Eta WeightedStake := λ s, MkWS (VET s) (Weight s).
#[export] Instance WeightedStake_eq_dec : EqDecision WeightedStake.
Proof. solve_decision. Defined.

Definition WS0 : WeightedStake := MkWS 0 0.

Definition calcWeight (vet multiplier : Z) : Z := (vet *u64 multiplier) / 100.

Definition NewWeightedStakeWithMultiplier (vet multiplier : Z) : WeightedStake :=
  MkWS vet (calcWeight vet multiplier).

Definition NewWeightedStake (stake weight : Z) : WeightedStake := MkWS stake weight.

Section ops.
Context `{SM : SafeMath}.

Definition WeightedStake_Add (s new : WeightedStake) : result WeightedStake :=
  let '(vet, overflow) := SafeAdd (VET s) (VET new) in
  if overflow : bool then Err (ErrInternal "VET add overflow occurred") else
  let '(weight, overflow) := SafeAdd (Weight s) (Weight new) in
  if overflow : bool then Err (ErrInternal "weight add overflow occurred") else
  Ok (MkWS vet weight).

Definition WeightedStake_Sub (s new : WeightedStake) : result WeightedStake :=
  let '(vet, underflow) := SafeSub (VET s) (VET new) in
  if underflow : bool then Err (ErrInternal "VET subtract underflow occurred") else
  let '(weight, underflow) := SafeSub (Weight s) (Weight new) in
  if underflow : bool then Err (ErrInternal "weight subtract underflow occurred") else
  Ok (MkWS vet weight).
End ops.

Definition WeightedStake_Clone (s : WeightedStake) : WeightedStake := MkWS (VET s) (Weight s).

(** ** Mathematical addition and subtraction, for specifications *)
Definition ws_ok (s : WeightedStake) : Prop := is64 (VET s) ∧ is64 (Weight s).
Definition ws_add (s t : WeightedStake) : WeightedStake :=
  MkWS (VET s + VET t) (Weight s + Weight t).
Definition ws_sub (s t : WeightedStake) : WeightedStake :=
  MkWS (VET s - VET t) (Weight s - Weight t).
Definition ws_le (s t : WeightedStake) : Prop := VET s ≤ VET t ∧ Weight s ≤ Weight t.

Lemma ws_eq s t : VET s = VET t → Weight s = Weight t → s = t.
Proof. destruct s, t; simpl; congruence. Qed.

Lemma WeightedStake_Clone_id s : WeightedStake_Clone s = s.
Proof. by destruct s. Qed.

Section lemmas.
Context `{SMS : SafeMathSpec}.

(** Addition is exact or fails; it fails exactly when a component overflows. *)
Lemma WeightedStake_Add_cases s t : ws_ok s → ws_ok t →
  (ws_ok (ws_add s t) ∧ WeightedStake_Add s t = Ok (ws_add s t)) ∨
  (¬ ws_ok (ws_add s t) ∧ ∃ msg, WeightedStake_Add s t = Err (ErrInternal msg)).
Proof.
  intros [Hs1 Hs2] [Ht1 Ht2]. unfold WeightedStake_Add, ws_ok, ws_add; simpl.
  destruct (SafeAdd_cases (VET s) (VET t)) as [[? ->]|[? [z ->]]]; [done|done| |].
  - destruct (SafeAdd_cases (Weight s) (Weight t)) as [[? ->]|[? [z ->]]]; [done|done| |].
    + left. split; [split; ulia|done].
    + right. split; [ulia|eauto].
  - right. split; [ulia|eauto].
Qed.

Lemma WeightedStake_Sub_cases s t : ws_ok s → ws_ok t →
  (ws_le t s ∧ WeightedStake_Sub s t = Ok (ws_sub s t)) ∨
  (¬ ws_le t s ∧ ∃ msg, WeightedStake_Sub s t = Err (ErrInternal msg)).
Proof.
  intros [Hs1 Hs2] [Ht1 Ht2]. unfold WeightedStake_Sub, ws_le, ws_sub.
  destruct (SafeSub_cases (VET s) (VET t)) as [[? ->]|[? [z ->]]]; [done|done| |].
  - destruct (SafeSub_cases (Weight s) (Weight t)) as [[? ->]|[? [z ->]]]; [done|done| |].
    + left. done.
    + right. split; [lia|eauto].
  - right. split; [lia|eauto].
Qed.

Lemma WeightedStake_Add_ok s t : ws_ok s → ws_ok t → ws_ok (ws_add s t) →
  WeightedStake_Add s t = Ok (ws_add s t).
Proof. intros. by destruct (WeightedStake_Add_cases s t) as [[? ?]|[? ?]]. Qed.

Lemma WeightedStake_Sub_ok s t : ws_ok s → ws_ok t → ws_le t s →
  WeightedStake_Sub s t = Ok (ws_sub s t).
Proof. intros. by destruct (WeightedStake_Sub_cases s t) as [[? ?]|[? ?]]. Qed.
End lemmas.

(** The multiplication of [calcWeight] does not wrap for the amounts the
    staker admits: any 8-bit multiplier and up to 2^56 VET. *)
Lemma calcWeight_exact vet multiplier :
  0 ≤ vet < 2 ^ 56 → 0 ≤ multiplier < 256 →
  calcWeight vet multiplier = vet * multiplier / 100.
Proof. intros. unfold calcWeight. rewrite wrap64_id; [done|]. unfold_int. nia. Qed.

Lemma calcWeight_bounds vet multiplier :
  0 ≤ vet < 2 ^ 56 → 0 ≤ multiplier < 256 → 0 ≤ calcWeight vet multiplier ≤ 3 * vet.
Proof.
  intros. rewrite calcWeight_exact by done. split.
  - apply Z.div_pos; nia.
  - apply Z.div_le_upper_bound; nia.
Qed.

Lemma calcWeight_100 vet : 0 ≤ vet < 2 ^ 56 → calcWeight vet 100 = vet.
Proof. intros. rewrite calcWeight_exact by lia. by rewrite Z.div_mul. Qed.

Lemma calcWeight_200 vet : 0 ≤ vet < 2 ^ 56 → calcWeight vet 200 = 2 * vet.
Proof.
  intros. rewrite calcWeight_exact by lia.
  replace (vet * 200) with (2 * vet * 100) by lia. by rewrite Z.div_mul.
Qed.
