(* ===== verification/GlobalStats.v ===== *)
(** * Package globalstats: contract-wide staking totals

    [src/builtin/staker/globalstats/delta.go] and [service.go].  The four
    storage slots of the service are the four fields of [GlobalStats]; an
    unset [locked] slot is [None]. *)

From S2P Require Import Prelude Stakes.

Record Renewal := MkRenewal {
  LockedIncrease : WeightedStake;
  LockedDecrease : WeightedStake;
  Renewal_QueuedDecrease : Z;
}.

Record Exit := MkExit {
  ExitedTVL : WeightedStake;
  Exit_QueuedDecrease : Z;
}.

Definition NewRenewal : Renewal := MkRenewal WS0 WS0 0.

Record GlobalStats := MkGlobalStats {
  locked : option WeightedStake;
  queued : Z;
  withdrawable : Z;
  cooldown : Z;
}.
#[export] Instance eta_GlobalStats : Eta GlobalStats := λ s,
  MkGlobalStats (locked s) (queued s) (withdrawable s) (cooldown s).

Section ops.
Context `{SM : SafeMath}.

(** [other] is nil-able in the source. *)
Definition Renewal_Add (r : Renewal) (other : option Renewal) : result Renewal :=
  match other with
  | None => Ok r
  | Some other =>
      inc ← WeightedStake_Add (LockedIncrease r) (LockedIncrease other);
      dec ← WeightedStake_Add (LockedDecrease r) (LockedDecrease other);
      let '(qd, overflow) :=
        SafeAdd (Renewal_QueuedDecrease r) (Renewal_QueuedDecrease other) in
      if overflow : bool then Err (ErrInternal "queued decrease overflow occurred") else
      Ok (MkRenewal inc dec qd)
  end.

Definition getLocked : M GlobalStats WeightedStake :=
  l ← gets locked;
  match l with None => mret WS0 | Some w => mret w end.

Definition RemoveLocked (weightedStake : WeightedStake) : M GlobalStats unit :=
  l ← getLocked;
  l ← lift (WeightedStake_Sub l weightedStake);
  modify (λ s, s <| locked := Some l |>).

Definition AddQueued (stake : Z) : M GlobalStats unit :=
  q ← gets queued;
  modify (λ s, s <| queued := q +u64 stake |>).

Definition RemoveQueued (stake : Z) : M GlobalStats unit :=
  q ← gets queued;
  let '(q, underflow) := SafeSub q stake in
  reject underflow (ErrInternal "queued underflow occurred") ;;
  modify (λ s, s <| queued := q |>).

Definition AddWithdrawable (stake : Z) : M GlobalStats unit :=
  w ← gets withdrawable;
  let '(w, overflow) := SafeAdd w stake in
  reject overflow (ErrInternal "withdrawable overflow occurred") ;;
  modify (λ s, s <| withdrawable := w |>).

Definition RemoveWithdrawable (stake : Z) : M GlobalStats unit :=
  w ← gets withdrawable;
  let '(w, underflow) := SafeSub w stake in
  reject underflow (ErrInternal "withdrawable underflow occurred") ;;
  modify (λ s, s <| withdrawable := w |>).

Definition AddCooldown (stake : Z) : M GlobalStats unit :=
  c ← gets cooldown;
  let '(c, overflow) := SafeAdd c stake in
  reject overflow (ErrInternal "cooldown overflow occurred") ;;
  modify (λ s, s <| cooldown := c |>).

Definition RemoveCooldown (stake : Z) : M GlobalStats unit :=
  c ← gets cooldown;
  let '(c, underflow) := SafeSub c stake in
  reject underflow (ErrInternal "cooldown underflow occurred") ;;
  modify (λ s, s <| cooldown := c |>).

Definition GetLockedStake : M GlobalStats (Z * Z) :=
  l ← getLocked;
  mret (VET l, Weight l).

Definition GetQueuedStake : M GlobalStats Z := gets queued.
Definition GetWithdrawableStake : M GlobalStats Z := gets withdrawable.
Definition GetCooldownStake : M GlobalStats Z := gets cooldown.

Definition ApplyRenewal (renewal : Renewal) : M GlobalStats unit :=
  l ← getLocked;
  l ← lift (WeightedStake_Add l (LockedIncrease renewal));
  l ← lift (WeightedStake_Sub l (LockedDecrease renewal));
  modify (λ s, s <| locked := Some l |>) ;;
  RemoveQueued (Renewal_QueuedDecrease renewal) ;;
  AddWithdrawable (VET (LockedDecrease renewal)).

Definition ApplyExit (validation aggregation : Exit) : M GlobalStats unit :=
  let totalExited := WeightedStake_Clone (ExitedTVL validation) in
  totalExited ← lift (WeightedStake_Add totalExited (ExitedTVL aggregation));
  when (0 <? VET totalExited) (RemoveLocked totalExited) ;;
  let queuedDecrease := Exit_QueuedDecrease validation +u64 Exit_QueuedDecrease aggregation in
  when (0 <? queuedDecrease) (RemoveQueued queuedDecrease) ;;
  when (0 <? VET (ExitedTVL validation)) (AddCooldown (VET (ExitedTVL validation))) ;;
  let withdrawableIncrease := queuedDecrease +u64 VET (ExitedTVL aggregation) in
  when (0 <? withdrawableIncrease) (AddWithdrawable withdrawableIncrease).
End ops.

(** ** Specifications *)

Definition lockedOf (g : GlobalStats) : WeightedStake := default WS0 (locked g).

Definition gs_ok (g : GlobalStats) : Prop :=
  ws_ok (lockedOf g) ∧ is64 (queued g) ∧ is64 (withdrawable g) ∧ is64 (cooldown g).

(** The VET the counters account for. *)
Definition gs_total (g : GlobalStats) : Z :=
  VET (lockedOf g) + queued g + withdrawable g + cooldown g.

(** The effect of the operations in unbounded arithmetic. *)
Definition gs_renew (r : Renewal) (g : GlobalStats) : GlobalStats :=
  MkGlobalStats
    (Some (ws_sub (ws_add (lockedOf g) (LockedIncrease r)) (LockedDecrease r)))
    (queued g - Renewal_QueuedDecrease r)
    (withdrawable g + VET (LockedDecrease r))
    (cooldown g).

Definition renewal_ok (r : Renewal) : Prop :=
  ws_ok (LockedIncrease r) ∧ ws_ok (LockedDecrease r) ∧ is64 (Renewal_QueuedDecrease r).

Definition renewal_add (r t : Renewal) : Renewal :=
  MkRenewal (ws_add (LockedIncrease r) (LockedIncrease t))
    (ws_add (LockedDecrease r) (LockedDecrease t))
    (Renewal_QueuedDecrease r + Renewal_QueuedDecrease t).

(** When the renewal and the exit can be applied without error. *)
Definition gs_can_renew (r : Renewal) (g : GlobalStats) : Prop :=
  ws_ok (ws_add (lockedOf g) (LockedIncrease r)) ∧
  ws_le (LockedDecrease r) (ws_add (lockedOf g) (LockedIncrease r)) ∧
  Renewal_QueuedDecrease r ≤ queued g ∧
  is64 (withdrawable g + VET (LockedDecrease r)).

Definition gs_exit (v a : Exit) (g : GlobalStats) : GlobalStats :=
  MkGlobalStats
    (if 0 <? VET (ExitedTVL v) + VET (ExitedTVL a)
     then Some (ws_sub (lockedOf g) (ws_add (ExitedTVL v) (ExitedTVL a)))
     else locked g)
    (queued g - Exit_QueuedDecrease v - Exit_QueuedDecrease a)
    (withdrawable g + Exit_QueuedDecrease v + Exit_QueuedDecrease a + VET (ExitedTVL a))
    (cooldown g + VET (ExitedTVL v)).

Definition exit_ok (e : Exit) : Prop := ws_ok (ExitedTVL e) ∧ is64 (Exit_QueuedDecrease e).

Definition gs_can_exit (v a : Exit) (g : GlobalStats) : Prop :=
  ws_le (ws_add (ExitedTVL v) (ExitedTVL a)) (lockedOf g) ∧
  Exit_QueuedDecrease v + Exit_QueuedDecrease a ≤ queued g ∧
  is64 (withdrawable g + Exit_QueuedDecrease v + Exit_QueuedDecrease a + VET (ExitedTVL a)) ∧
  is64 (cooldown g + VET (ExitedTVL v)).

Lemma gs_eq g h :
  locked g = locked h → queued g = queued h → withdrawable g = withdrawable h →
  cooldown g = cooldown h → g = h.
Proof. destruct g, h; simpl; congruence. Qed.

Section lemmas.
Context `{SMS : SafeMathSpec}.

Lemma Renewal_Add_ok r t : renewal_ok r → renewal_ok t → renewal_ok (renewal_add r t) →
  Renewal_Add r (Some t) = Ok (renewal_add r t).
Proof.
  intros (Hi & Hd & Hq) (Ti & Td & Tq) (Ri & Rd & Rq); simpl in *.
  rewrite (WeightedStake_Add_ok _ _ Hi Ti Ri); simpl.
  rewrite (WeightedStake_Add_ok _ _ Hd Td Rd); simpl.
  destruct (SafeAdd_cases (Renewal_QueuedDecrease r) (Renewal_QueuedDecrease t))
    as [[_ ->]|[? _]]; [done|done|done|]. ulia.
Qed.

(** Every way the slot operations end. *)
Lemma wp_getLocked Q R g : Q (lockedOf g) g → wp getLocked Q R g.
Proof.
  unfold getLocked, lockedOf. intros HQ. do 2 wp_step.
  by destruct (locked g); wp_step.
Qed.

Lemma wp_RemoveLocked w (Q : unit → GlobalStats → Prop) R g :
  ws_ok w → gs_ok g →
  (ws_le w (lockedOf g) → Q tt (g <| locked := Some (ws_sub (lockedOf g) w) |>)) →
  (¬ ws_le w (lockedOf g) → ∀ msg, R (ErrInternal msg)) →
  wp (RemoveLocked w) Q R g.
Proof.
  intros Hw (Hl & _) HQ HR. unfold RemoveLocked. wp_step. apply wp_getLocked.
  wp_step. wp_step.
  destruct (WeightedStake_Sub_cases (lockedOf g) w) as [[? ->]|[? [? ->]]]; auto.
  wp_step. auto.
Qed.

Lemma wp_AddQueued stake Q R g :
  is64 (queued g + stake) → Q tt (g <| queued := queued g + stake |>) →
  wp (AddQueued stake) Q R g.
Proof.
  intros H HQ. unfold AddQueued. do 2 wp_step. wp_step. by rewrite wrap64_id by done.
Qed.

Lemma wp_RemoveQueued stake Q R g :
  is64 stake → is64 (queued g) →
  (stake ≤ queued g → Q tt (g <| queued := queued g - stake |>)) →
  (queued g < stake → ∀ msg, R (ErrInternal msg)) →
  wp (RemoveQueued stake) Q R g.
Proof.
  intros Hs Hg HQ HR. unfold RemoveQueued. do 2 wp_step.
  destruct (SafeSub_cases (queued g) stake) as [[? ->]|[? [z ->]]]; [done|done| |];
    do 2 wp_step; try discriminate; auto. wp_step. auto.
Qed.

Lemma wp_AddWithdrawable stake Q R g :
  is64 stake → is64 (withdrawable g) →
  (is64 (withdrawable g + stake) → Q tt (g <| withdrawable := withdrawable g + stake |>)) →
  (max64 ≤ withdrawable g + stake → ∀ msg, R (ErrInternal msg)) →
  wp (AddWithdrawable stake) Q R g.
Proof.
  intros Hs Hg HQ HR. unfold AddWithdrawable. do 2 wp_step.
  destruct (SafeAdd_cases (withdrawable g) stake) as [[? ->]|[? [z ->]]]; [done|done| |];
    do 2 wp_step; try discriminate; auto. wp_step. apply HQ. ulia.
Qed.

Lemma wp_RemoveWithdrawable stake Q R g :
  is64 stake → is64 (withdrawable g) →
  (stake ≤ withdrawable g → Q tt (g <| withdrawable := withdrawable g - stake |>)) →
  (withdrawable g < stake → ∀ msg, R (ErrInternal msg)) →
  wp (RemoveWithdrawable stake) Q R g.
Proof.
  intros Hs Hg HQ HR. unfold RemoveWithdrawable. do 2 wp_step.
  destruct (SafeSub_cases (withdrawable g) stake) as [[? ->]|[? [z ->]]]; [done|done| |];
    do 2 wp_step; try discriminate; auto. wp_step. auto.
Qed.

Lemma wp_AddCooldown stake Q R g :
  is64 stake → is64 (cooldown g) →
  (is64 (cooldown g + stake) → Q tt (g <| cooldown := cooldown g + stake |>)) →
  (max64 ≤ cooldown g + stake → ∀ msg, R (ErrInternal msg)) →
  wp (AddCooldown stake) Q R g.
Proof.
  intros Hs Hg HQ HR. unfold AddCooldown. do 2 wp_step.
  destruct (SafeAdd_cases (cooldown g) stake) as [[? ->]|[? [z ->]]]; [done|done| |];
    do 2 wp_step; try discriminate; auto. wp_step. apply HQ. ulia.
Qed.

Lemma wp_RemoveCooldown stake Q R g :
  is64 stake → is64 (cooldown g) →
  (stake ≤ cooldown g → Q tt (g <| cooldown := cooldown g - stake |>)) →
  (cooldown g < stake → ∀ msg, R (ErrInternal msg)) →
  wp (RemoveCooldown stake) Q R g.
Proof.
  intros Hs Hg HQ HR. unfold RemoveCooldown. do 2 wp_step.
  destruct (SafeSub_cases (cooldown g) stake) as [[? ->]|[? [z ->]]]; [done|done| |];
    do 2 wp_step; try discriminate; auto. wp_step. auto.
Qed.

(** [ApplyRenewal] computes [gs_renew] whenever the result is representable. *)
Lemma wp_ApplyRenewal r Q R g :
  renewal_ok r → gs_ok g → gs_can_renew r g → Q tt (gs_renew r g) →
  wp (ApplyRenewal r) Q R g.
Proof.
  intros (Hi & Hd & Hq) (Gl & Gq & Gw & Gc) (C1 & C2 & C3 & C4) HQ.
  unfold ApplyRenewal. wp_step. apply wp_getLocked.
  do 2 wp_step. rewrite WeightedStake_Add_ok by done.
  do 2 wp_step. rewrite WeightedStake_Sub_ok by done.
  do 2 wp_step. wp_step.
  apply wp_RemoveQueued; simpl; [done|done| |lia]. intros _.
  apply wp_AddWithdrawable; simpl; [apply Hd|done| |ulia]. intros _.
  exact HQ.
Qed.

(** [if n > 0 { op(n) }]: the guard only skips a change by zero. *)
Lemma wp_when_RemoveQueued n Q R g :
  0 ≤ n ≤ queued g → is64 (queued g) →
  Q tt (g <| queued := queued g - n |>) → wp (when (0 <? n) (RemoveQueued n)) Q R g.
Proof.
  intros Hn Hg HQ. apply wp_when; intros Hb.
  - apply wp_RemoveQueued; [ulia|done|done|lia].
  - replace n with 0 in HQ by lia. rewrite Z.sub_0_r in HQ. by destruct g.
Qed.

Lemma wp_when_RemoveWithdrawable n Q R g :
  0 ≤ n ≤ withdrawable g → is64 (withdrawable g) →
  Q tt (g <| withdrawable := withdrawable g - n |>) →
  wp (when (0 <? n) (RemoveWithdrawable n)) Q R g.
Proof.
  intros Hn Hg HQ. apply wp_when; intros Hb.
  - apply wp_RemoveWithdrawable; [ulia|done|done|lia].
  - replace n with 0 in HQ by lia. rewrite Z.sub_0_r in HQ. by destruct g.
Qed.

Lemma wp_when_RemoveCooldown n Q R g :
  0 ≤ n ≤ cooldown g → is64 (cooldown g) →
  Q tt (g <| cooldown := cooldown g - n |>) →
  wp (when (0 <? n) (RemoveCooldown n)) Q R g.
Proof.
  intros Hn Hg HQ. apply wp_when; intros Hb.
  - apply wp_RemoveCooldown; [ulia|done|done|lia].
  - replace n with 0 in HQ by lia. rewrite Z.sub_0_r in HQ. by destruct g.
Qed.

Lemma wp_when_AddCooldown n Q R g :
  0 ≤ n → is64 (cooldown g) → is64 (cooldown g + n) →
  Q tt (g <| cooldown := cooldown g + n |>) → wp (when (0 <? n) (AddCooldown n)) Q R g.
Proof.
  intros Hn Hg Hs HQ. apply wp_when; intros Hb.
  - apply wp_AddCooldown; [ulia|done|done|ulia].
  - replace n with 0 in HQ by lia. rewrite Z.add_0_r in HQ. by destruct g.
Qed.

Lemma wp_when_AddWithdrawable n Q R g :
  0 ≤ n → is64 (withdrawable g) → is64 (withdrawable g + n) →
  Q tt (g <| withdrawable := withdrawable g + n |>) →
  wp (when (0 <? n) (AddWithdrawable n)) Q R g.
Proof.
  intros Hn Hg Hs HQ. apply wp_when; intros Hb.
  - apply wp_AddWithdrawable; [ulia|done|done|ulia].
  - replace n with 0 in HQ by lia. rewrite Z.add_0_r in HQ. by destruct g.
Qed.

(** [ApplyExit] computes [gs_exit] whenever the result is representable. *)
Lemma wp_ApplyExit v a Q R g :
  exit_ok v → exit_ok a → gs_ok g → gs_can_exit v a g → Q tt (gs_exit v a g) →
  wp (ApplyExit v a) Q R g.
Proof.
  intros ((Hv1 & Hv2) & Hvq) ((Ha1 & Ha2) & Haq) (Gl & Gq & Gw & Gc)
    ((C1 & C1') & C2 & C3 & C4) HQ.
  simpl in *. unfold ApplyExit. rewrite WeightedStake_Clone_id.
  assert (ws_ok (ws_add (ExitedTVL v) (ExitedTVL a))) as Hok
    by (destruct Gl; split; simpl; ulia).
  do 2 wp_step. rewrite WeightedStake_Add_ok by done. simpl. unwrap.
  wp_step. apply (wp_mono _ (λ _ g', g' = (gs_exit v a g) <| queued := queued g |>
      <| withdrawable := withdrawable g |> <| cooldown := cooldown g |>) _ never); [|..].
  { unfold gs_exit; simpl. apply wp_when; intros ->; [|by destruct g].
    apply wp_RemoveLocked; [done|by split| |intros []; by split]. intros _. by destruct g. }
  2: by intros e [].
  intros _ g' ->.
  wp_step. apply wp_when_RemoveQueued; simpl; [ulia|done|].
  wp_step. apply wp_when_AddCooldown; simpl; [ulia|done|done|].
  apply wp_when_AddWithdrawable; simpl; [ulia|done|ulia|].
  erewrite (gs_eq _ (gs_exit v a g)); [exact HQ|..]; simpl; [done|lia..].
Qed.
End lemmas.
