(* ===== verification/Aggregation.v ===== *)
(** * Package aggregation: the delegations of a validator, summed

    [src/builtin/staker/aggregation/aggregation.go] and [service.go].  The
    service's storage is a map from validators to their aggregation. *)

From S2P Require Import Prelude Stakes GlobalStats.

Record Aggregation := MkAggregation {
  Locked : WeightedStake;
  Pending : WeightedStake;
  Exiting : WeightedStake;
}.
#[export] Instance eta_Aggregation : Eta Aggregation := λ a,
  MkAggregation (Locked a) (Pending a) (Exiting a).
#[export] Instance Aggregation_eq_dec : EqDecision Aggregation.
Proof. solve_decision. Defined.

Definition newAggregation : Aggregation := MkAggregation WS0 WS0 WS0.

Definition Aggregation_IsEmpty (a : Aggregation) : bool :=
  (VET (Locked a) =? 0) && (VET (Exiting a) =? 0) && (VET (Pending a) =? 0).

Definition Aggregation_NextPeriodTVL (a : Aggregation) : result Z :=
  let nextPeriodLocked := VET (Locked a) +u64 VET (Pending a) in
  if nextPeriodLocked <? VET (Exiting a)
  then Err (ErrInternal "insufficient locked and pending VET to subtract")
  else Ok (nextPeriodLocked -u64 VET (Exiting a)).

Abbreviation Aggregations := (gmap Address Aggregation).

Section ops.
Context `{SM : SafeMath}.

(** [a.renew()] returns the delta and the updated aggregation. *)
Definition Aggregation_renew (a : Aggregation) : result (Renewal * Aggregation) :=
  let lockedIncrease := WeightedStake_Clone (Pending a) in
  let lockedDecrease := WeightedStake_Clone (Exiting a) in
  let queuedDecrease := VET (Pending a) in
  l ← WeightedStake_Add (Locked a) (Pending a);
  let a := a <| Locked := l |> <| Pending := WS0 |> in
  l ← WeightedStake_Sub (Locked a) (Exiting a);
  let a := a <| Locked := l |> <| Exiting := WS0 |> in
  Ok (MkRenewal lockedIncrease lockedDecrease queuedDecrease, a).

Definition Aggregation_exit (a : Aggregation) : Exit * Aggregation :=
  let exit := MkExit (WeightedStake_Clone (Locked a)) (VET (Pending a)) in
  (exit, a <| Exiting := WS0 |> <| Locked := WS0 |> <| Pending := WS0 |>).

Definition GetAggregation (validator : Address) : M Aggregations Aggregation :=
  agg ← gets (lookup validator);
  match agg with None => mret newAggregation | Some agg => mret agg end.

Definition AddPendingVET (validator : Address) (stake : WeightedStake) : M Aggregations unit :=
  agg ← GetAggregation validator;
  p ← lift (WeightedStake_Add (Pending agg) stake);
  modify (insert validator (agg <| Pending := p |>)).

Definition SubPendingVet (validator : Address) (stake : WeightedStake) : M Aggregations unit :=
  agg ← GetAggregation validator;
  p ← lift (WeightedStake_Sub (Pending agg) stake);
  modify (insert validator (agg <| Pending := p |>)).

Definition aggregation_Renew (validator : Address) : M Aggregations (Renewal * Z) :=
  agg ← GetAggregation validator;
  '(renew, agg) ← lift (Aggregation_renew agg);
  modify (insert validator agg) ;;
  mret (renew, Weight (Locked agg)).

Definition aggregation_Exit (validator : Address) : M Aggregations Exit :=
  agg ← GetAggregation validator;
  let '(exit, agg) := Aggregation_exit agg in
  modify (insert validator agg) ;;
  mret exit.

Definition aggregation_SignalExit (validator : Address) (stake : WeightedStake)
    : M Aggregations unit :=
  agg ← GetAggregation validator;
  e ← lift (WeightedStake_Add (Exiting agg) stake);
  modify (insert validator (agg <| Exiting := e |>)).
End ops.

(** ** Specifications *)

(** The aggregation stored for a validator, a fresh one when there is none. *)
Definition aggOf (m : Aggregations) (v : Address) : Aggregation :=
  default newAggregation (m !! v).

Definition agg_ok (a : Aggregation) : Prop :=
  ws_ok (Locked a) ∧ ws_ok (Pending a) ∧ ws_ok (Exiting a).

(** The aggregation after a renewal, in unbounded arithmetic. *)
Definition agg_next (a : Aggregation) : Aggregation :=
  MkAggregation (ws_sub (ws_add (Locked a) (Pending a)) (Exiting a)) WS0 WS0.

Definition agg_delta (a : Aggregation) : Renewal :=
  MkRenewal (Pending a) (Exiting a) (VET (Pending a)).

Lemma aggOf_insert m v a w :
  aggOf (<[v := a]> m) w = if decide (v = w) then a else aggOf m w.
Proof. unfold aggOf. rewrite lookup_insert. by case_decide. Qed.

Lemma aggOf_insert_eq m v a : aggOf (<[v := a]> m) v = a.
Proof. rewrite aggOf_insert. by case_decide. Qed.

Lemma aggOf_insert_ne m v a w : v ≠ w → aggOf (<[v := a]> m) w = aggOf m w.
Proof. intros. rewrite aggOf_insert. by case_decide. Qed.

Lemma wp_GetAggregation v Q R m : Q (aggOf m v) m → wp (GetAggregation v) Q R m.
Proof.
  unfold GetAggregation, aggOf. intros HQ. do 2 wp_step.
  by destruct (m !! v); wp_step.
Qed.

Lemma Aggregation_NextPeriodTVL_ok a :
  agg_ok a → VET (Exiting a) ≤ VET (Locked a) + VET (Pending a) < max64 →
  Aggregation_NextPeriodTVL a = Ok (VET (Locked a) + VET (Pending a) - VET (Exiting a)).
Proof.
  intros ([??]&[??]&[??]) ?. unfold Aggregation_NextPeriodTVL. unwrap.
  case_match; [lia|done].
Qed.

Section lemmas.
Context `{SMS : SafeMathSpec}.

Lemma Aggregation_renew_ok a :
  agg_ok a → ws_ok (ws_add (Locked a) (Pending a)) →
  ws_le (Exiting a) (ws_add (Locked a) (Pending a)) →
  Aggregation_renew a = Ok (agg_delta a, agg_next a).
Proof.
  intros (Hl & Hp & He) Hs Hle. unfold Aggregation_renew.
  rewrite !WeightedStake_Clone_id, WeightedStake_Add_ok by done.
  simpl. rewrite WeightedStake_Sub_ok by done. done.
Qed.

Lemma wp_AddPendingVET v w Q R m :
  agg_ok (aggOf m v) → ws_ok w → ws_ok (ws_add (Pending (aggOf m v)) w) →
  Q tt (<[v := (aggOf m v) <| Pending := ws_add (Pending (aggOf m v)) w |>]> m) →
  wp (AddPendingVET v w) Q R m.
Proof.
  intros (Hl & Hp & He) Hw Hs HQ. unfold AddPendingVET. wp_step. apply wp_GetAggregation.
  do 2 wp_step. rewrite WeightedStake_Add_ok by done. by wp_step.
Qed.

Lemma wp_SubPendingVet v w Q R m :
  agg_ok (aggOf m v) → ws_ok w → ws_le w (Pending (aggOf m v)) →
  Q tt (<[v := (aggOf m v) <| Pending := ws_sub (Pending (aggOf m v)) w |>]> m) →
  wp (SubPendingVet v w) Q R m.
Proof.
  intros (Hl & Hp & He) Hw Hs HQ. unfold SubPendingVet. wp_step. apply wp_GetAggregation.
  do 2 wp_step. rewrite WeightedStake_Sub_ok by done. by wp_step.
Qed.

Lemma wp_aggregation_SignalExit v w Q R m :
  agg_ok (aggOf m v) → ws_ok w → ws_ok (ws_add (Exiting (aggOf m v)) w) →
  Q tt (<[v := (aggOf m v) <| Exiting := ws_add (Exiting (aggOf m v)) w |>]> m) →
  wp (aggregation_SignalExit v w) Q R m.
Proof.
  intros (Hl & Hp & He) Hw Hs HQ. unfold aggregation_SignalExit.
  wp_step. apply wp_GetAggregation.
  do 2 wp_step. rewrite WeightedStake_Add_ok by done. by wp_step.
Qed.

Lemma wp_aggregation_Renew v Q R m :
  let a := aggOf m v in
  agg_ok a → ws_ok (ws_add (Locked a) (Pending a)) →
  ws_le (Exiting a) (ws_add (Locked a) (Pending a)) →
  Q (agg_delta a, Weight (Locked (agg_next a))) (<[v := agg_next a]> m) →
  wp (aggregation_Renew v) Q R m.
Proof.
  intros a Ha Hs Hle HQ. unfold aggregation_Renew. wp_step. apply wp_GetAggregation.
  do 2 wp_step. fold a. rewrite Aggregation_renew_ok by done. by do 3 wp_step.
Qed.

Lemma wp_aggregation_Exit v (Q : Exit → Aggregations → Prop) R m :
  let a := aggOf m v in
  Q (MkExit (Locked a) (VET (Pending a))) (<[v := newAggregation]> m) →
  wp (aggregation_Exit v) Q R m.
Proof.
  intros a HQ. unfold aggregation_Exit. wp_step. apply wp_GetAggregation. simpl.
  rewrite WeightedStake_Clone_id. by do 3 wp_step.
Qed.
End lemmas.
