(* ===== verification/Validation.v ===== *)
(** * Package validation: the validation record

    [src/builtin/staker/validation/validation.go], with the linked-list entry
    embedded from [linked_list.go].  Pointer fields are options; a method that
    mutates its receiver returns the new record. *)

From S2P Require Import Prelude Thor Stakes GlobalStats Aggregation.

Inductive Status := StatusUnknown | StatusQueued | StatusActive | StatusExit.
#[export] Instance Status_eq_dec : EqDecision Status.
Proof. solve_decision. Defined.

Definition Multiplier : Z := 100.
Definition MultiplierWithDelegations : Z := 200.

Record Validation := MkValidation {
  Endorser : Address;
  Beneficiary : option Address;
  Period : Z;            (* uint32 *)
  CompletedPeriods : Z;  (* uint32 *)
  ValStatus : Status;
  StartBlock : Z;        (* uint32 *)
  ExitBlock : option Z;  (* *uint32 *)
  OfflineBlock : option Z;
  LockedVET : Z;         (* uint64, from here on *)
  PendingUnlockVET : Z;
  QueuedVET : Z;
  CooldownVET : Z;
  WithdrawableVET : Z;
  ValWeight : Z;
  Prev : option Address; (* LinkedListEntry *)
  Next : option Address;
}.
#[export] Instance eta_Validation : Eta Validation := λ v,
  MkValidation (Endorser v) (Beneficiary v) (Period v) (CompletedPeriods v) (ValStatus v)
    (StartBlock v) (ExitBlock v) (OfflineBlock v) (LockedVET v) (PendingUnlockVET v)
    (QueuedVET v) (CooldownVET v) (WithdrawableVET v) (ValWeight v) (Prev v) (Next v).
#[export] Instance Validation_eq_dec : EqDecision Validation.
Proof. solve_decision. Defined.

Definition SetPrev (prev : option Address) (v : Validation) : Validation := v <| Prev := prev |>.
Definition SetNext (next : option Address) (v : Validation) : Validation := v <| Next := next |>.
Definition IsLinked (v : Validation) : bool :=
  bool_decide (Prev v ≠ None) || bool_decide (Next v ≠ None).

Record Totals := MkTotals {
  TotalLockedStake : Z;
  TotalLockedWeight : Z;
  TotalQueuedStake : Z;
  TotalExitingStake : Z;
  NextPeriodWeight : Z;
}.

Definition IsOnline (v : Validation) : bool := bool_decide (OfflineBlock v = None).

(** [diff % v.Period] panics on a zero period. *)
Definition IsPeriodEnd (v : Validation) (current : Z) : result bool :=
  let diff := current -u32 StartBlock v in
  if Period v =? 0 then Err (ErrPanic "integer divide by zero")
  else Ok (diff mod Period v =? 0).

Definition Validation_NextPeriodTVL (v : Validation) : result Z :=
  let nextPeriodLocked := LockedVET v +u64 QueuedVET v in
  if nextPeriodLocked <? PendingUnlockVET v
  then Err (ErrInternal "insufficient locked and queued VET to subtract")
  else Ok (nextPeriodLocked -u64 PendingUnlockVET v).

Definition CurrentIteration (v : Validation) (currentBlock : Z) : result Z :=
  if bool_decide (ValStatus v = StatusUnknown) || bool_decide (ValStatus v = StatusQueued)
  then Ok 0 else
  if bool_decide (ValStatus v = StatusExit) then Ok (CompletedPeriods v) else
  if 0 <? CompletedPeriods v then Ok (CompletedPeriods v) else
  if currentBlock <? StartBlock v
  then Err (ErrInternal "current block cannot be less than start block") else
  if Period v =? 0 then Err (ErrInternal "period cannot be zero") else
  let elapsedBlocks := currentBlock -u32 StartBlock v in
  let completedPeriods := elapsedBlocks / Period v in
  Ok (completedPeriods +u32 1).

Definition CompletedIterations (v : Validation) (currentBlock : Z) : result Z :=
  if bool_decide (ValStatus v = StatusUnknown) || bool_decide (ValStatus v = StatusQueued)
  then Ok 0 else
  if bool_decide (ValStatus v = StatusExit) then Ok (CompletedPeriods v) else
  current ← CurrentIteration v currentBlock;
  Ok (current -u32 1).

(** The acting multiplier of the current staking period. *)
Definition multiplier (v : Validation) : Z :=
  if ValWeight v =? LockedVET v then Multiplier else MultiplierWithDelegations.

Definition Validation_exit (v : Validation) : Exit * Validation :=
  let exitedTVL := NewWeightedStakeWithMultiplier (LockedVET v) (multiplier v) in
  let queuedDecrease := QueuedVET v in
  let v := v <| ValStatus := StatusExit |>
             <| CooldownVET := LockedVET v |>
             <| LockedVET := 0 |>
             <| PendingUnlockVET := 0 |>
             <| ValWeight := 0 |> in
  let v := if 0 <? QueuedVET v
           then v <| WithdrawableVET := WithdrawableVET v +u64 QueuedVET v |>
                  <| QueuedVET := 0 |>
           else v in
  (MkExit exitedTVL queuedDecrease, v).

Section ops.
Context `{SM : SafeMath}.

Definition Validation_Totals (v : Validation) (agg : Aggregation) : result Totals :=
  let '(exitingVET, exiting) :=
    if bool_decide (ValStatus v = StatusActive) && bool_decide (ExitBlock v ≠ None)
    then (LockedVET v +u64 VET (Locked agg), true)
    else (PendingUnlockVET v +u64 VET (Exiting agg), false) in
  nextPeriodWeight ←
    (if exiting : bool then Ok 0 else
     nextPeriodTvl ← Aggregation_NextPeriodTVL agg;
     let mul := if 0 <? nextPeriodTvl then MultiplierWithDelegations else Multiplier in
     valNextPeriodTVL ← Validation_NextPeriodTVL v;
     let w := Weight (NewWeightedStakeWithMultiplier valNextPeriodTVL mul)
                +u64 Weight (Locked agg) +u64 Weight (Pending agg) in
     let '(w, underflow) := SafeSub w (Weight (Exiting agg)) in
     if underflow : bool then Err (ErrInternal "next period weight underflow") else Ok w);
  Ok {| TotalLockedStake := LockedVET v +u64 VET (Locked agg);
        TotalLockedWeight := ValWeight v;
        TotalQueuedStake := QueuedVET v +u64 VET (Pending agg);
        TotalExitingStake := exitingVET;
        NextPeriodWeight := nextPeriodWeight |}.

(** [v.renew(delegationWeight)] returns the delta and the renewed record. *)
Definition Validation_renew (v : Validation) (delegationWeight : Z)
    : result (Renewal * Validation) :=
  let queuedDecrease := QueuedVET v in
  let prevWeight := Weight (NewWeightedStakeWithMultiplier (LockedVET v) (multiplier v)) in
  let lockedIncrease := NewWeightedStake (QueuedVET v) 0 in
  let lockedDecrease := NewWeightedStake (PendingUnlockVET v) 0 in
  let lockedVET := LockedVET v +u64 QueuedVET v in
  let '(lockedVET, underflow) := SafeSub lockedVET (PendingUnlockVET v) in
  if underflow : bool
  then Err (ErrInternal "pending unlock VET exceeds total locked VET") else
  let afterMultiplier :=
    if 0 <? delegationWeight then MultiplierWithDelegations else Multiplier in
  let afterWeight := Weight (NewWeightedStakeWithMultiplier lockedVET afterMultiplier) in
  let '(lockedIncrease, lockedDecrease) :=
    if prevWeight <? afterWeight
    then (lockedIncrease <| Weight := afterWeight -u64 prevWeight |>, lockedDecrease)
    else (lockedIncrease, lockedDecrease <| Weight := prevWeight -u64 afterWeight |>) in
  let v := v <| LockedVET := lockedVET |>
             <| WithdrawableVET := WithdrawableVET v +u64 PendingUnlockVET v |>
             <| ValWeight := afterWeight +u64 delegationWeight |>
             <| QueuedVET := 0 |>
             <| PendingUnlockVET := 0 |> in
  Ok (MkRenewal lockedIncrease lockedDecrease queuedDecrease, v).
End ops.

Section config.
Context `{CFG : Config}.

Definition CooldownEnded (v : Validation) (currentBlock : Z) : bool :=
  match ExitBlock v with
  | None => false
  | Some b => (b +u32 CooldownPeriod) <=? currentBlock
  end.

Definition CalculateWithdrawableVET (v : Validation) (currentBlock : Z) : Z :=
  let withdrawAmount := WithdrawableVET v in
  let withdrawAmount :=
    if CooldownEnded v currentBlock
    then withdrawAmount +u64 CooldownVET v else withdrawAmount in
  withdrawAmount +u64 QueuedVET v.
End config.
