(* ===== verification/Delegation.v ===== *)
(** * Package delegation: single delegations

    [src/builtin/staker/delegation/delegation.go] and [service.go]. *)

From S2P Require Import Prelude Stakes GlobalStats Aggregation Validation.

Record Delegation := MkDelegation {
  DelValidation : Address;
  Stake : Z;                  (* uint64 *)
  DelMultiplier : Z;          (* uint8 *)
  LastIteration : option Z;   (* *uint32 *)
  FirstIteration : Z;         (* uint32 *)
}.
#[export] Instance eta_Delegation : Eta Delegation := λ d,
  MkDelegation (DelValidation d) (Stake d) (DelMultiplier d) (LastIteration d) (FirstIteration d).
#[export] Instance Delegation_eq_dec : EqDecision Delegation.
Proof. solve_decision. Defined.

Definition Delegation_WeightedStake (d : Delegation) : WeightedStake :=
  NewWeightedStakeWithMultiplier (Stake d) (DelMultiplier d).

Definition Started (d : Delegation) (val : Validation) (currentBlock : Z) : result bool :=
  if bool_decide (ValStatus val = StatusQueued) || bool_decide (ValStatus val = StatusUnknown)
  then Ok false else
  currentStakingPeriod ← CurrentIteration val currentBlock;
  Ok (FirstIteration d <=? currentStakingPeriod).

Definition Ended (d : Delegation) (val : Validation) (currentBlock : Z) : result bool :=
  if bool_decide (ValStatus val = StatusQueued) then Ok false else
  started ← Started d val currentBlock;
  if bool_decide (ValStatus val = StatusExit) && started then Ok true else
  currentStakingPeriod ← CurrentIteration val currentBlock;
  match LastIteration d with
  | None => Ok false
  | Some last => Ok (last <? currentStakingPeriod)
  end.

Definition IsLocked (d : Delegation) (val : Validation) (currentBlock : Z) : result bool :=
  if Stake d =? 0 then Ok false else
  started ← Started d val currentBlock;
  ended ← Ended d val currentBlock;
  Ok (started && negb ended).

Record DelegationService := MkDelegationService {
  delegations : gmap Z Delegation;  (* keyed by the big.Int id *)
  idCounter : option Z;             (* *big.Int *)
}.
#[export] Instance eta_DelegationService : Eta DelegationService := λ s,
  MkDelegationService (delegations s) (idCounter s).

Definition maxUint256 : Z := 2 ^ 256 - 1.

Definition delegation_GetDelegation (delegationID : Z) : M DelegationService (option Delegation) :=
  gets (λ s, delegations s !! delegationID).

Definition newDelegationID : M DelegationService Z :=
  id ← gets idCounter;
  let id := default 0 id in
  let id := id + 1 in
  reject (maxUint256 <=? id)
    (ErrInternal "delegation ID counter overflow: maximum delegations reached") ;;
  modify (λ s, s <| idCounter := Some id |>) ;;
  mret id.

Definition delegation_Add (validator : Address) (firstIteration stake multiplier : Z)
    : M DelegationService Z :=
  id ← newDelegationID;
  let delegation := {|
    DelValidation := validator;
    DelMultiplier := multiplier;
    Stake := stake;
    FirstIteration := firstIteration;
    LastIteration := None |} in
  modify (λ s, s <| delegations := <[id := delegation]> (delegations s) |>) ;;
  mret id.

Definition delegation_SignalExit (delegation : Delegation) (delegationID valCurrentIteration : Z)
    : M DelegationService unit :=
  let delegation := delegation <| LastIteration := Some valCurrentIteration |> in
  modify (λ s, s <| delegations := <[delegationID := delegation]> (delegations s) |>).

Definition delegation_Withdraw (del : Delegation) (delegationID : Z) : M DelegationService Z :=
  let withdrawableStake := Stake del in
  let del := del <| Stake := 0 |> in
  modify (λ s, s <| delegations := <[delegationID := del]> (delegations s) |>) ;;
  mret withdrawableStake.
