(* ===== verification/Storage.v ===== *)
(** * Package validation: the contract storage of validations

    [src/builtin/staker/validation/storage.go].  A mapping of pointers is a
    finite map; [exits], a mapping of plain addresses, goes through
    [vget]/[vset].  A [thor.Bytes32] key is its 256-bit big-endian number. *)

From S2P Require Import Prelude Stakes GlobalStats Aggregation Validation.

Record Storage := MkStorage {
  validations : gmap Address Validation;
  rewards : gmap Z Z;
  exits : gmap Z Address;
}.
#[export] Instance eta_Storage : Eta Storage := λ s,
  MkStorage (validations s) (rewards s) (exits s).

Definition storage_getValidation (validator : Address) : M Storage (option Validation) :=
  gets (λ s, validations s !! validator).

Definition storage_updateValidation (validator : Address) (entry : Validation) : M Storage unit :=
  modify (λ s, s <| validations := <[validator := entry]> (validations s) |>).

Definition storage_upsertValidation (validator : Address) (entry : Validation) : M Storage unit :=
  modify (λ s, s <| validations := <[validator := entry]> (validations s) |>).

Definition storage_getReward (key : Z) : M Storage Z :=
  reward ← gets (λ s, rewards s !! key);
  match reward with None => mret 0 | Some reward => mret reward end.

Definition storage_setReward (key val : Z) : M Storage unit :=
  modify (λ s, s <| rewards := <[key := val]> (rewards s) |>).

(** [binary.BigEndian.PutUint32(key[:], block)] fills the first four bytes. *)
Definition exitKey (block : Z) : Z := Z.shiftl block 224.

Definition storage_getExit (block : Z) : M Storage Address :=
  gets (λ s, vget (exits s) (exitKey block)).

Definition storage_setExit (block : Z) (validator : Address) : M Storage unit :=
  modify (λ s, s <| exits := vset (exitKey block) validator (exits s) |>).

Lemma exitKey_inj b b' : exitKey b = exitKey b' → b = b'.
Proof. unfold exitKey. rewrite !Z.shiftl_mul_pow2 by lia. lia. Qed.
