(* ===== verification/LinkedList.v ===== *)
(** * Package validation: the doubly linked lists of validations

    [src/builtin/staker/validation/linked_list.go].  A [listStats] object keeps
    head, tail and size, and links the entries through the validation records
    of the shared storage; its state is therefore the pair [ListState] of its
    own slots and that storage.

    The second half shows that a list object implements a sequence of distinct
    addresses: [Add] appends, [Remove] deletes, [Iterate] folds from head to
    tail and terminates. *)

From S2P Require Import Prelude Chain Stakes GlobalStats Aggregation Validation Storage.

Record listStats := MkListStats {
  head : option Address;
  tail : option Address;
  listSize : Z;  (* uint64 *)
}.
#[export] Instance eta_listStats : Eta listStats := λ l,
  MkListStats (head l) (tail l) (listSize l).

Record ListState := MkListState {
  stats : listStats;
  store : Storage;
}.
#[export] Instance eta_ListState : Eta ListState := λ l, MkListState (stats l) (store l).

Definition listStats_GetHead : M listStats Address :=
  h ← gets head;
  match h with None => mret 0 | Some h => mret h end.

Definition listStats_GetSize : M listStats Z := gets listSize.

Definition listStats_addSize : M listStats unit :=
  size ← gets listSize;
  modify (λ l, l <| listSize := size +u64 1 |>).

Definition listStats_subSize : M listStats unit :=
  size ← gets listSize;
  reject (size =? 0) (ErrInternal "size is already 0") ;;
  modify (λ l, l <| listSize := size -u64 1 |>).

Definition setHead (h : option Address) : M listStats unit := modify (λ l, l <| head := h |>).
Definition setTail (t : option Address) : M listStats unit := modify (λ l, l <| tail := t |>).

(** The two halves of [Remove] that take [entry] out of the chain. *)
Definition unlinkPrev (entry : Validation) : M ListState unit :=
  match Prev entry with
  | None => zoom stats (setHead (Next entry))
  | Some p =>
      prevEntry ← zoom store (storage_getValidation p);
      prevEntry ← need prevEntry (ErrInternal "prev entry is empty");
      zoom store (storage_updateValidation p (SetNext (Next entry) prevEntry))
  end.

Definition unlinkNext (entry : Validation) : M ListState unit :=
  match Next entry with
  | None => zoom stats (setTail (Prev entry))
  | Some n =>
      nextEntry ← zoom store (storage_getValidation n);
      nextEntry ← need nextEntry (ErrInternal "next entry is empty");
      zoom store (storage_updateValidation n (SetPrev (Prev entry) nextEntry))
  end.

Definition listStats_Remove (address : Address) (entry : Validation) : M ListState Validation :=
  (* an unlinked entry is a member only as the single element *)
  h ← gets (λ s, head (stats s));
  t ← gets (λ s, tail (stats s));
  if negb (IsLinked entry) && (bool_decide (h ≠ Some address) || bool_decide (t ≠ Some address))
  then mret entry else
  unlinkPrev entry ;;
  unlinkNext entry ;;
  let entry := SetPrev None entry in
  let entry := SetNext None entry in
  zoom stats listStats_subSize ;;
  zoom store (storage_updateValidation address entry) ;;
  mret entry.

Definition listStats_Add (address : Address) (newEntry : Validation) : M ListState unit :=
  t ← gets (λ s, tail (stats s));
  let newEntry := SetPrev t newEntry in
  zoom stats (setTail (Some address)) ;;
  newEntry ← match t with
  | None => zoom stats (setHead (Some address)) ;; mret newEntry
  | Some t' =>
      tailEntry ← zoom store (storage_getValidation t');
      tailEntry ← need tailEntry (ErrInternal "tail entry is empty");
      let newEntry := SetPrev t newEntry in
      zoom store (storage_updateValidation t' (SetNext (Some address) tailEntry)) ;;
      mret newEntry
  end;
  zoom stats listStats_addSize ;;
  zoom store (storage_upsertValidation address newEntry).

(** The loop of [Iterate]; the callback threads the variables it captures. *)
Fixpoint iterateFrom {B} (fuel : nat) (current : option Address)
    (callback : B → Address → Validation → result B) (b : B) : M ListState B :=
  match current, fuel with
  | None, _ => mret b
  | Some _, O => fail ErrFuel
  | Some a, S fuel =>
      entry ← zoom store (storage_getValidation a);
      entry ← need entry (ErrInternal "entry is empty");
      b ← lift (callback b a entry);
      iterateFrom fuel (Next entry) callback b
  end.

(** A list has at most as many elements as there are validations. *)
Definition listStats_Iterate {B} (callback : B → Address → Validation → result B) (b : B)
    : M ListState B :=
  current ← gets (λ s, head (stats s));
  fuel ← gets (λ s, size (validations (store s)));
  iterateFrom fuel current callback b.

(** ** The abstract list *)

(** A validation without its links, and the link-free view of the storage. *)
Definition strip (v : Validation) : Validation := v <| Prev := None |> <| Next := None |>.
Definition payload (m : gmap Address Validation) : gmap Address Validation := strip <$> m.

#[export] Instance Validation_Links : Links Validation := MkLinks _ Prev Next SetPrev SetNext.
#[export] Instance Validation_LinksLaws : LinksLaws Validation.
Proof. by split. Qed.

(** The list object [ls] represents the sequence [l]. *)
Record dll (ls : ListState) (l : list Address) : Prop := {
  dll_head : head (stats ls) = list.head l;
  dll_tail : tail (stats ls) = last l;
  dll_size : listSize (stats ls) = Z.of_nat (length l);
  dll_nodup : NoDup l;
  dll_seg : seg (validations (store ls)) None l None;
}.

Lemma strip_SetPrev p v : strip (SetPrev p v) = strip v.
Proof. done. Qed.
Lemma strip_SetNext n v : strip (SetNext n v) = strip v.
Proof. done. Qed.
Lemma strip_strip v : strip (strip v) = strip v.
Proof. done. Qed.

Lemma payload_insert m a v : payload (<[a := v]> m) = <[a := strip v]> (payload m).
Proof. apply fmap_insert. Qed.

(** Overwriting only links leaves the payload alone. *)
Lemma payload_relink m a v w :
  m !! a = Some v → strip w = strip v → payload (<[a := w]> m) = payload m.
Proof.
  intros Ha Hw. rewrite payload_insert, Hw. apply insert_id.
  unfold payload. by rewrite lookup_fmap, Ha.
Qed.

Lemma lookup_payload m a : payload m !! a = strip <$> (m !! a).
Proof. apply lookup_fmap. Qed.

Lemma size_payload m : size (payload m) = size m.
Proof. apply map_size_fmap. Qed.

(** What a list operation may change: the payload as stated, the links of the
    members of the list (and of [a]), and nothing else. *)
Record list_frame (a : Address) (w : Validation) (l : list Address) (ls ls' : ListState)
    : Prop := {
  lf_payload : payload (validations (store ls')) =
    <[a := strip w]> (payload (validations (store ls)));
  lf_other : ∀ b, b ∉ l → b ≠ a →
    validations (store ls') !! b = validations (store ls) !! b;
  lf_rewards : rewards (store ls') = rewards (store ls);
  lf_exits : exits (store ls') = exits (store ls);
}.

Lemma dll_lookup ls l a : dll ls l → a ∈ l → is_Some (validations (store ls) !! a).
Proof. intros Hd. eapply seg_lookup. apply Hd. Qed.

Lemma last_split {A} (l : list A) x : last l = Some x → ∃ l', l = l' ++ [x].
Proof. intros H. by apply last_Some in H. Qed.

Lemma dll_snoc h m a v l rw ex :
  h = list.head (l ++ [a]) → seg m None l (Some a) → NoDup l → a ∉ l → Next v = None →
  dll (MkListState (MkListStats h (Some a) (Z.of_nat (length l) + 1))
        (MkStorage (<[a := SetPrev (last l) v]> m) rw ex)) (l ++ [a]).
Proof.
  intros -> Hseg Hnd Ha Hn. split; simpl.
  - done.
  - by rewrite last_snoc.
  - rewrite length_app. simpl. lia.
  - apply NoDup_app. split; [done|]. split; [set_solver|apply NoDup_singleton].
  - apply seg_snoc; [done..| |done]. by rewrite lastOr_None.
Qed.

Ltac list_unfold :=
  unfold storage_getValidation, storage_updateValidation, storage_upsertValidation,
    listStats_addSize, listStats_subSize, setHead, setTail.

(** [Add] appends. *)
Lemma wp_listStats_Add a v l ls Q R :
  dll ls l → a ∉ l → Next v = None → Z.of_nat (length l) + 1 < max64 →
  (∀ ls', dll ls' (l ++ [a]) → list_frame a v l ls ls' →
    validations (store ls') !! a = Some (SetPrev (last l) v) → Q tt ls') →
  wp (listStats_Add a v) Q R ls.
Proof.
  intros [Hh Ht Hs Hnd Hseg] Ha Hn Hlen HQ. destruct ls as [[h t sz] [m rw ex]]; simpl in *.
  subst h t sz. unfold listStats_Add. list_unfold. do 2 wp_step; simpl.
  destruct (last l) as [t|] eqn:Hlast; simpl.
  - destruct (last_split l t Hlast) as [l0 ->].
    destruct (seg_lookup _ _ _ _ t Hseg) as [tv Htv]; [set_solver|].
    repeat (wp_step; simpl); [congruence|]. simplify_eq. unwrap.
    rewrite <- Hlast in *. apply HQ.
    + apply dll_snoc; [by destruct l0|exact (seg_set_next m None l0 None (Some a) t tv Hnd Htv Hseg)|done..].
    + split; simpl; [|intros b Hb Hne|done..].
      * by rewrite payload_insert, (payload_relink _ _ _ _ Htv).
      * rewrite !lookup_insert_ne by set_solver. done.
    + apply lookup_insert_eq.
  - apply last_None in Hlast as ->. repeat (wp_step; simpl). unwrap. apply HQ.
    + by apply (dll_snoc _ m a v []).
    + split; simpl; [|intros b Hb Hne|done..].
      * by rewrite payload_insert.
      * by rewrite lookup_insert_ne.
    + apply lookup_insert_eq.
Qed.

(** Closing a gap changes no payload. *)
Lemma payload_bypass m p n l1 l2 :
  payload (bypass_next p l2 (bypass_prev n l1 m)) = payload m.
Proof.
  assert (payload (bypass_prev n l1 m) = payload m) as <-.
  { unfold bypass_prev. destruct (last l1) as [q|]; [|done].
    destruct (m !! q) eqn:Hq; [|done]. by eapply payload_relink. }
  unfold bypass_next. destruct (list.head l2) as [q|]; [|done].
  destruct (_ !! q) eqn:Hq; [|done]. by eapply payload_relink.
Qed.

Lemma wp_unlinkPrev e l1 m n h t z rw ex (Q : unit → ListState → Prop) R :
  Prev e = last l1 → seg m None l1 n →
  Q tt (MkListState (MkListStats (match l1 with [] => Next e | _ => h end) t z)
         (MkStorage (bypass_prev (Next e) l1 m) rw ex)) →
  wp (unlinkPrev e) Q R (MkListState (MkListStats h t z) (MkStorage m rw ex)).
Proof.
  intros Hp Hs HQ. unfold unlinkPrev. rewrite Hp. unfold bypass_prev in HQ. list_unfold.
  destruct (last l1) as [p|] eqn:El1.
  - destruct (last_split l1 p El1) as [l0 ->].
    destruct (seg_lookup _ _ _ _ p Hs) as [pv Hpv]; [set_solver|]. rewrite Hpv in HQ.
    repeat (wp_step; simpl); [congruence|]. simplify_eq. by destruct l0.
  - apply last_None in El1 as ->. by repeat (wp_step; simpl).
Qed.

Lemma wp_unlinkNext e l2 m p h t z rw ex (Q : unit → ListState → Prop) R :
  Next e = list.head l2 → seg m p l2 None →
  Q tt (MkListState (MkListStats h (match l2 with [] => Prev e | _ => t end) z)
         (MkStorage (bypass_next (Prev e) l2 m) rw ex)) →
  wp (unlinkNext e) Q R (MkListState (MkListStats h t z) (MkStorage m rw ex)).
Proof.
  intros Hn Hs HQ. unfold unlinkNext. rewrite Hn. unfold bypass_next in HQ. list_unfold.
  destruct l2 as [|q l2]; simpl in *; [by repeat (wp_step; simpl)|].
  destruct (seg_lookup _ _ _ _ q (conj (proj1 Hs) (proj2 Hs) : seg m p (q :: l2) None))
    as [qv Hqv]; [set_solver|]. rewrite Hqv in HQ.
  repeat (wp_step; simpl); [congruence|]. by simplify_eq.
Qed.

Lemma Remove_member_linked a e l1 l2 :
  Prev e = last l1 → Next e = list.head l2 →
  negb (IsLinked e) && (bool_decide (list.head (l1 ++ a :: l2) ≠ Some a) ||
    bool_decide (last (l1 ++ a :: l2) ≠ Some a)) = false.
Proof.
  intros Hp Hn. unfold IsLinked. rewrite Hp, Hn.
  destruct (last l1) eqn:E1; [done|]. destruct l2; [|done].
  apply last_None in E1 as ->. simpl. by rewrite !bool_decide_eq_false_2 by naive_solver.
Qed.

(** [Remove] deletes a member; the entry handed in, whose payload may have
    been edited since it was read, is what is stored. *)
Lemma wp_listStats_Remove a e v l1 l2 ls Q R :
  dll ls (l1 ++ a :: l2) → validations (store ls) !! a = Some v →
  Prev e = Prev v → Next e = Next v → Z.of_nat (length (l1 ++ a :: l2)) < max64 →
  (∀ ls', dll ls' (l1 ++ l2) → list_frame a e (l1 ++ l2) ls ls' →
    validations (store ls') !! a = Some (strip e) → Q (strip e) ls') →
  wp (listStats_Remove a e) Q R ls.
Proof.
  intros [Hh Ht Hz Hnd Hseg] Ha Hp Hn Hlen HQ.
  destruct ls as [[h t sz] [m rw ex]]; simpl in *. subst h t sz.
  destruct (seg_split _ _ _ _ _ Hseg Ha) as (Hpv & Hnv & Hs1 & Hs2).
  destruct (seg_bypass _ _ _ _ _ Hnd Hseg Ha) as [Hseg' Hoth].
  change (lprev v) with (Prev v) in *. change (lnext v) with (Next v) in *.
  pose proof Hnd as (Hnd1 & Hdisj & [Ha2 Hnd2]%NoDup_cons)%NoDup_app.
  assert (a ∉ l1) as Ha1 by (intros H; apply (Hdisj a H); set_solver).
  assert (seg (bypass_prev (Next e) l1 m) (Some a) l2 None) as Hs2'.
  { eapply seg_ext; [|exact Hs2]. intros b Hb.
    apply (bypass_prev_spec m l1 (Some a) (Next e) Hnd1 Hs1). intros H.
    apply (Hdisj b H). set_solver. }
  unfold listStats_Remove. do 4 wp_step; simpl. rewrite Remove_member_linked by congruence.
  wp_step. eapply (wp_unlinkPrev _ l1); [congruence|done|].
  wp_step. eapply (wp_unlinkNext _ l2); [congruence|done|].
  list_unfold.
  assert (Z.of_nat (length (l1 ++ a :: l2)) - 1 = Z.of_nat (length (l1 ++ l2))) as Hlen'
    by (rewrite !length_app; simpl; lia).
  rewrite <- Hp, <- Hn in Hseg', Hoth.
  repeat (wp_step; simpl); [lia|]. unwrap. apply HQ.
  - split; simpl.
    + rewrite Hn, Hnv. by destruct l1.
    + rewrite Hp, Hpv. destruct l2; [by rewrite app_nil_r|]. by rewrite !last_app, last_cons_cons.
    + done.
    + apply NoDup_app. split; [done|]. split; [|done]. intros b Hb ?.
      apply (Hdisj b Hb). set_solver.
    + apply seg_frame; [set_solver|done].
  - split; simpl; [|intros b Hb Hne|done..].
    + by rewrite payload_insert, payload_bypass.
    + rewrite lookup_insert_ne, Hoth by set_solver. done.
  - apply lookup_insert_eq.
Qed.

(** [Iterate] visits the members in order: it is the fold of the callback over
    the represented sequence, and it terminates. *)
Fixpoint foldR {B} (f : B → Address → Validation → result B)
    (m : gmap Address Validation) (b : B) (l : list Address) : result B :=
  match l with
  | [] => Ok b
  | a :: l' =>
      match m !! a with
      | None => Err (ErrInternal "entry is empty")
      | Some v => b' ← f b a v; foldR f m b' l'
      end
  end.

Lemma iterateFrom_spec {B} fuel (f : B → Address → Validation → result B) b p l ls :
  seg (validations (store ls)) p l None → (length l ≤ fuel)%nat →
  iterateFrom fuel (list.head l) f b ls = lift (foldR f (validations (store ls)) b l) ls.
Proof.
  revert fuel b p. induction l as [|a l IH]; intros fuel b p Hs Hf; simpl in *.
  { by destruct fuel. }
  destruct fuel as [|fuel]; [lia|]. simpl. destruct Hs as [(v & Hv & _ & Hn) Hs].
  unfold mbind, M_bind, zoom, storage_getValidation, gets, need; simpl. rewrite Hv.
  replace (set_field _ ls) with ls by (by destruct ls).
  simpl. unfold lift at 1. destruct (f b a v) as [b'|e]; [|done]. simpl.
  change (lnext v) with (Next v) in Hn. rewrite Hn.
  replace (from_option Some None (list.head l)) with (list.head l) by (by destruct l).
  eapply IH; [done|lia].
Qed.

Lemma dll_length ls l : dll ls l → (length l ≤ size (validations (store ls)))%nat.
Proof.
  intros Hd. rewrite <- size_dom, <- (size_list_to_set (C := gset Z)) by apply Hd.
  apply subseteq_size. intros a Ha. rewrite elem_of_list_to_set in Ha.
  apply elem_of_dom. by eapply dll_lookup.
Qed.

Lemma listStats_Iterate_spec {B} (f : B → Address → Validation → result B) b l ls :
  dll ls l →
  listStats_Iterate f b ls = lift (foldR f (validations (store ls)) b l) ls.
Proof.
  intros Hd. unfold listStats_Iterate, mbind, M_bind, gets; simpl.
  rewrite (dll_head _ _ Hd).
  eapply iterateFrom_spec; [apply Hd|]. by apply dll_length.
Qed.
