(* ===== verification/RenewalList.v ===== *)
(** * Package validation: the renewal list

    [src/builtin/staker/validation/renewal_list.go].  A doubly linked list of
    non-zero addresses kept in four storage slots of its own; the zero address
    stands for "none".

    The second half shows that it implements a set kept in insertion order:
    [contains] decides membership, [Add] appends once, [Remove] deletes, and
    [Iterate] folds over the members and terminates. *)

From S2P Require Import Prelude.

Record renewalList := MkRenewalList {
  rhead : Address;
  rtail : Address;
  rprev : gmap Address Address;
  rnext : gmap Address Address;
}.
#[export] Instance eta_renewalList : Eta renewalList := λ r,
  MkRenewalList (rhead r) (rtail r) (rprev r) (rnext r).

Definition setRHead (a : Address) : M renewalList unit := modify (λ r, r <| rhead := a |>).
Definition setRTail (a : Address) : M renewalList unit := modify (λ r, r <| rtail := a |>).
Definition setRPrev (k a : Address) : M renewalList unit :=
  modify (λ r, r <| rprev := vset k a (rprev r) |>).
Definition setRNext (k a : Address) : M renewalList unit :=
  modify (λ r, r <| rnext := vset k a (rnext r) |>).

Definition renewalList_contains (key : Address) : M renewalList bool :=
  if IsZero key then mret false else
  val ← gets (λ r, vget (rnext r) key);
  if negb (IsZero val) then mret true else
  t ← gets rtail;
  mret (t =? key).

Definition renewalList_Add (newKey : Address) : M renewalList unit :=
  if IsZero newKey then mret tt else
  has ← renewalList_contains newKey;
  if has : bool then mret tt else
  prevTail ← gets rtail;
  if IsZero prevTail then
    setRHead newKey ;;
    setRTail newKey
  else
    setRNext prevTail newKey ;;
    setRPrev newKey prevTail ;;
    setRTail newKey.

Definition renewalList_Remove (toRemove : Address) : M renewalList unit :=
  if IsZero toRemove then mret tt else
  has ← renewalList_contains toRemove;
  if negb has then mret tt else
  prev ← gets (λ r, vget (rprev r) toRemove);
  next ← gets (λ r, vget (rnext r) toRemove);
  h ← gets rhead;
  t ← gets rtail;
  (* an unlinked entry must be the only element *)
  if IsZero prev && IsZero next &&
     (IsZero h || negb (h =? toRemove) || IsZero t || negb (t =? toRemove))
  then mret tt else
  (if IsZero prev then setRHead next else setRNext prev next) ;;
  (if IsZero next then setRTail prev else setRPrev next prev) ;;
  setRPrev toRemove 0 ;;
  setRNext toRemove 0.

(** The loop of [Iterate]; the callback threads the variables it captures. *)
Fixpoint riterateFrom {B} (fuel : nat) (current : Address)
    (callback : B → Address → result B) (b : B) : M renewalList B :=
  if IsZero current then mret b else
  match fuel with
  | O => fail ErrFuel
  | S fuel =>
      b ← lift (callback b current);
      next ← gets (λ r, vget (rnext r) current);
      riterateFrom fuel next callback b
  end.

(** Every member but the last has an entry in [next]. *)
Definition renewalList_Iterate {B} (callback : B → Address → result B) (b : B)
    : M renewalList B :=
  current ← gets rhead;
  fuel ← gets (λ r, S (size (rnext r)));
  riterateFrom fuel current callback b.

(** ** The abstract list *)

(** The successor of [a] in [l], zero for the last element and for strangers;
    the predecessor is the successor in the reversed list. *)
Fixpoint nextIn (l : list Address) (a : Address) : Address :=
  match l with
  | [] => 0
  | x :: l' => if decide (x = a) then default 0 (list.head l') else nextIn l' a
  end.
Definition prevIn (l : list Address) (a : Address) : Address := nextIn (reverse l) a.

Record rlist (r : renewalList) (l : list Address) : Prop := {
  rl_head : rhead r = default 0 (list.head l);
  rl_tail : rtail r = default 0 (last l);
  rl_nodup : NoDup l;
  rl_nonzero : 0 ∉ l;
  rl_next : ∀ a, vget (rnext r) a = nextIn l a;
  rl_prev : ∀ a, vget (rprev r) a = prevIn l a;
}.

Section nextIn_lemmas.
Implicit Types l : list Address.

Lemma nextIn_app_r l1 l2 a : a ∉ l1 → nextIn (l1 ++ l2) a = nextIn l2 a.
Proof.
  induction l1 as [|x l1 IH]; simpl; [done|]. intros [Hne Ha]%not_elem_of_cons.
  rewrite decide_False by done. auto.
Qed.

Lemma nextIn_not_in l a : a ∉ l → nextIn l a = 0.
Proof. intros Ha. rewrite <- (app_nil_r l). by rewrite nextIn_app_r. Qed.

Lemma nextIn_mid l1 a l2 : a ∉ l1 → nextIn (l1 ++ a :: l2) a = default 0 (list.head l2).
Proof. intros Ha. rewrite nextIn_app_r by done. simpl. by rewrite decide_True. Qed.

(** Inside a prefix only the successor of its last element depends on what
    follows. *)
Lemma nextIn_app_l l1 l2 a : NoDup l1 → a ∈ l1 →
  nextIn (l1 ++ l2) a =
    if decide (last l1 = Some a) then default 0 (list.head l2) else nextIn l1 a.
Proof.
  induction l1 as [|x l1 IH]; [by intros _ ?%elem_of_nil|].
  intros [Hx Hnd]%NoDup_cons Ha. rewrite last_cons. simpl.
  destruct (decide (x = a)) as [->|Hne].
  - destruct (last l1) as [t|] eqn:Hl.
    + destruct (decide (Some t = Some a)) as [|Hta].
      * apply last_Some_elem_of in Hl. naive_solver.
      * destruct l1; [done|]. done.
    + apply last_None in Hl as ->. simpl. by rewrite decide_True.
  - apply elem_of_cons in Ha as [?|Ha]; [congruence|]. rewrite IH by done.
    destruct (last l1) as [t|] eqn:Hl; [done|].
    apply last_None in Hl as ->. by apply elem_of_nil in Ha.
Qed.

Lemma nextIn_snoc l a b : NoDup l → a ∉ l →
  nextIn (l ++ [a]) b = if decide (last l = Some b) then a else nextIn l b.
Proof.
  intros Hnd Ha. destruct (decide (b ∈ l)) as [Hb|Hb].
  - by rewrite nextIn_app_l.
  - rewrite nextIn_app_r, (nextIn_not_in l b) by done. simpl.
    rewrite (decide_False (P := last _ = Some b)) by (intros ?%last_Some_elem_of; done). by case_decide.
Qed.

Lemma nextIn_remove l1 a l2 b : NoDup (l1 ++ a :: l2) →
  nextIn (l1 ++ l2) b =
    if decide (b = a) then 0 else
    if decide (last l1 = Some b) then default 0 (list.head l2)
    else nextIn (l1 ++ a :: l2) b.
Proof.
  intros (Hnd1 & Hd & [Ha2 Hnd2]%NoDup_cons)%NoDup_app.
  destruct (decide (b = a)) as [->|Hne].
  - apply nextIn_not_in. intros [H|H]%elem_of_app; [|done]. apply (Hd a H). set_solver.
  - destruct (decide (b ∈ l1)) as [Hb|Hb].
    + rewrite !nextIn_app_l by done. by case_decide.
    + rewrite (decide_False (P := last _ = Some b)) by (intros ?%last_Some_elem_of; done).
      rewrite !nextIn_app_r by done. simpl. by rewrite decide_False by congruence.
Qed.

Lemma nextIn_nonzero l a : 0 ∉ l → a ∈ l → last l ≠ Some a → nextIn l a ≠ 0.
Proof.
  induction l as [|x l IH]; simpl; [by intros _ ?%elem_of_nil|].
  intros [H0 H0']%not_elem_of_cons Ha Hl. case_decide as Hxa; subst.
  - destruct l as [|y l]; [done|]. simpl. set_solver.
  - apply elem_of_cons in Ha as [?|Ha]; [congruence|]. apply IH; [done..|].
    rewrite last_cons in Hl. by destruct (last l).
Qed.
End nextIn_lemmas.

Lemma wp_renewalList_contains a l r Q R :
  rlist r l → Q (bool_decide (a ∈ l)) r → wp (renewalList_contains a) Q R r.
Proof.
  intros Hr HQ. unfold renewalList_contains, IsZero.
  destruct (Z.eqb_spec a 0) as [->|Ha].
  { wp_step. by rewrite bool_decide_eq_false_2 in HQ by apply Hr. }
  do 2 wp_step. rewrite (rl_next _ _ Hr).
  destruct (Z.eqb_spec (nextIn l a) 0) as [Hn|Hn]; simpl.
  - do 3 wp_step. rewrite (rl_tail _ _ Hr).
    replace (default 0 (last l) =? a) with (bool_decide (a ∈ l)); [done|].
    destruct (Z.eqb_spec (default 0 (last l)) a) as [Ht|Ht].
    + apply bool_decide_eq_true_2. destruct (last l) eqn:Hl; simpl in *; [|congruence].
      subst. by apply last_Some_elem_of in Hl.
    + apply bool_decide_eq_false_2. intros Hin. apply (nextIn_nonzero l a); [apply Hr|done| |done].
      intros Hl. by rewrite Hl in Ht.
  - wp_step. rewrite bool_decide_eq_true_2 in HQ; [done|].
    destruct (decide (a ∈ l)); [done|]. by rewrite nextIn_not_in in Hn.
Qed.

Lemma rlist_In_split r l a : rlist r l → a ∈ l →
  ∃ l1 l2, l = l1 ++ a :: l2 ∧ a ∉ l1 ∧ a ∉ l2.
Proof.
  intros Hr (l1 & l2 & ->)%list_elem_of_split.
  pose proof (rl_nodup _ _ Hr) as (_ & Hd & [? ?]%NoDup_cons)%NoDup_app.
  exists l1, l2. split_and!; [done| |done]. intros H'. apply (Hd a H'). set_solver.
Qed.

Lemma last_reverse {A} (l : list A) : last (reverse l) = list.head l.
Proof. destruct l; [done|]. by rewrite reverse_cons, last_snoc. Qed.

Lemma head_reverse' {A} (l : list A) : list.head (reverse l) = last l.
Proof. by rewrite <- (reverse_involutive l) at 2; rewrite last_reverse. Qed.

(** [Add] appends a new member, and does nothing for zero and for a member. *)
Lemma wp_renewalList_Add a l r Q R :
  rlist r l →
  (∀ r', rlist r' (if decide (a = 0 ∨ a ∈ l) then l else l ++ [a]) → Q tt r') →
  wp (renewalList_Add a) Q R r.
Proof.
  intros Hr HQ. unfold renewalList_Add, IsZero.
  destruct (Z.eqb_spec a 0) as [->|Ha]; [wp_step; apply HQ; by rewrite decide_True by auto|].
  wp_step. eapply wp_renewalList_contains; [done|].
  case_bool_decide as Hin; [wp_step; apply HQ; by rewrite decide_True by auto|].
  rewrite decide_False in HQ by naive_solver.
  destruct Hr as [Hh Ht Hnd H0 Hnx Hpv]. do 2 wp_step. rewrite Ht.
  assert (NoDup (l ++ [a])) as Hnd' by
    (apply NoDup_app; split; [done|]; split; [set_solver|apply NoDup_singleton]).
  destruct (last l) as [t|] eqn:Hl; simpl.
  - assert (t ∈ l) as Htl by (by apply last_Some_elem_of).
    destruct (Z.eqb_spec t 0) as [->|Ht0]; [done|].
    unfold setRNext, setRPrev, setRTail. repeat wp_step. apply HQ. split; simpl.
    + rewrite Hh. by destruct l.
    + by rewrite last_snoc.
    + done.
    + set_solver.
    + intros b. rewrite vget_vset, nextIn_snoc, Hnx, Hl by done.
      repeat case_decide; naive_solver.
    + intros b. unfold prevIn. rewrite vget_vset, Hpv, reverse_snoc. simpl.
      rewrite head_reverse', Hl. by case_decide.
  - apply last_None in Hl as ->. unfold setRHead, setRTail. repeat wp_step.
    apply HQ. split; simpl; [done|done|done|set_solver| |].
    + intros b. rewrite Hnx. simpl. by case_decide.
    + intros b. rewrite Hpv. unfold prevIn. simpl. by case_decide.
Qed.

Lemma default_0_nil (o : option Address) (l : list Address) :
  (∀ x, o = Some x → x ∈ l) → 0 ∉ l → (default 0 o =? 0) = bool_decide (o = None).
Proof.
  intros Ho H0. destruct o as [x|]; simpl; [|done].
  assert (x ≠ 0) by (intros ->; naive_solver).
  by apply Z.eqb_neq.
Qed.

(** The representation after taking [a] out of the chain. *)
Lemma rlist_remove l1 a l2 h t np nn h' t' np' nn' :
  rlist (MkRenewalList h t np nn) (l1 ++ a :: l2) →
  h' = default 0 (list.head (l1 ++ l2)) → t' = default 0 (last (l1 ++ l2)) →
  (∀ b, vget nn' b = if decide (b = a) then 0 else
    if decide (last l1 = Some b) then default 0 (list.head l2) else vget nn b) →
  (∀ b, vget np' b = if decide (b = a) then 0 else
    if decide (list.head l2 = Some b) then default 0 (last l1) else vget np b) →
  rlist (MkRenewalList h' t' np' nn') (l1 ++ l2).
Proof.
  intros [_ _ Hnd H0 Hnx Hpv] -> -> Hn Hp. simpl in *. split; simpl.
  - done.
  - done.
  - apply NoDup_app in Hnd as (? & Hd & [? ?]%NoDup_cons). apply NoDup_app.
    split_and!; [done| |done]. intros x Hx ?. apply (Hd x Hx). set_solver.
  - set_solver.
  - intros b. by rewrite Hn, (nextIn_remove l1 a l2), Hnx.
  - intros b. unfold prevIn in *. rewrite Hp, reverse_app, Hpv, reverse_app, reverse_cons.
    rewrite <- (app_assoc _ [a] _). simpl. rewrite (nextIn_remove (reverse l2) a (reverse l1)).
    + by rewrite last_reverse, head_reverse'.
    + rewrite <- (reverse_Permutation (l1 ++ a :: l2)) in Hnd.
      by rewrite reverse_app, reverse_cons, <- (app_assoc _ [a] _) in Hnd.
Qed.

(** [Remove] deletes a member, and does nothing for strangers. *)
Lemma wp_renewalList_Remove a l r Q R :
  rlist r l →
  (∀ r', rlist r' (filter (.≠ a) l) → Q tt r') →
  wp (renewalList_Remove a) Q R r.
Proof.
  intros Hr HQ. unfold renewalList_Remove, IsZero.
  destruct (Z.eqb_spec a 0) as [->|Ha].
  { wp_step. apply HQ. rewrite filter_ne_id; [done|apply Hr]. }
  wp_step. eapply wp_renewalList_contains; [done|].
  case_bool_decide as Hin; simpl; [|wp_step; apply HQ; by rewrite filter_ne_id].
  destruct (rlist_In_split _ _ _ Hr Hin) as (l1 & l2 & -> & Ha1 & Ha2).
  rewrite (filter_ne_split l1 l2 a Ha1 Ha2) in HQ.
  destruct r as [h t np nn]. pose proof Hr as [Hh Ht Hnd H0 Hnx Hpv]; simpl in *.
  assert (vget np a = default 0 (last l1)) as Epv.
  { rewrite Hpv. unfold prevIn. rewrite reverse_app, reverse_cons, <- (app_assoc _ [a] _). simpl.
    by rewrite nextIn_mid, head_reverse' by (by rewrite elem_of_reverse). }
  assert (vget nn a = default 0 (list.head l2)) as Enx by (by rewrite Hnx, nextIn_mid).
  do 8 wp_step. simpl. rewrite Epv, Enx, Hh, Ht.
  rewrite (default_0_nil (last l1) l1), (default_0_nil (list.head l2) l2);
    [|destruct l2; set_solver|set_solver|apply last_Some_elem_of|set_solver].
  match goal with |- wp (if ?g then _ else _) _ _ _ => assert (g = false) as -> end.
  { destruct (last l1) eqn:E1; [done|]. destruct l2; [|done]. apply last_None in E1 as ->.
    simpl. rewrite Z.eqb_refl. by destruct (Z.eqb_spec a 0). }
  assert (last l1 ≠ None → default 0 (list.head (l1 ++ a :: l2)) =
    default 0 (list.head (l1 ++ l2))) as Eh by (by destruct l1).
  assert (list.head l2 ≠ None → default 0 (last (l1 ++ a :: l2)) =
    default 0 (last (l1 ++ l2))) as Et by (destruct l2; [done|]; by rewrite !last_app, last_cons_cons).
  unfold setRHead, setRTail, setRNext, setRPrev.
  destruct (last l1) as [p|] eqn:E1, (list.head l2) as [n|] eqn:E2; simpl;
    rewrite ?bool_decide_eq_true_2, ?bool_decide_eq_false_2 by done;
    repeat (wp_step; simpl); apply HQ; (eapply rlist_remove; [exact Hr|..]); simpl;
    try (intros b; rewrite ?vget_vset, ?E1, ?E2; simpl; repeat case_decide; congruence);
    try (by apply Eh); try (by apply Et);
    rewrite ?head_app, ?last_app, ?E1, ?E2; try done.
  all: try (apply last_None in E1 as ->); destruct l2; simpl in *; try done;
    by rewrite ?E1, ?app_nil_r, ?E2.
Qed.

(** [Iterate] folds over the members and terminates. *)
Fixpoint rfold {B} (f : B → Address → result B) (b : B) (l : list Address) : result B :=
  match l with
  | [] => Ok b
  | a :: l' => b' ← f b a; rfold f b' l'
  end.

Lemma riterateFrom_spec {B} fuel (f : B → Address → result B) b l1 l2 r :
  rlist r (l1 ++ l2) → (length l2 ≤ fuel)%nat →
  riterateFrom fuel (default 0 (list.head l2)) f b r = lift (rfold f b l2) r.
Proof.
  intros Hr. revert l1 b l2 Hr. induction fuel as [|fuel IH]; intros l1 b l2 Hr Hf.
  { destruct l2; [done|simpl in *; lia]. }
  destruct l2 as [|a l2]; [done|]. simpl. unfold IsZero.
  pose proof (rl_nodup _ _ Hr) as (_ & Hd & [? ?]%NoDup_cons)%NoDup_app.
  assert (a ∉ l1) as Ha1 by (intros H'; apply (Hd a H'); set_solver).
  destruct (Z.eqb_spec a 0) as [->|Ha].
  { destruct (rl_nonzero _ _ Hr). set_solver. }
  unfold mbind, M_bind, lift, gets. destruct (f b a) as [b'|e]; [|done].
  rewrite (rl_next _ _ Hr), nextIn_mid by done.
  apply (IH (l1 ++ [a])); [by rewrite <- app_assoc|simpl in *; lia].
Qed.

Lemma rlist_length r l : rlist r l → (length l ≤ S (size (rnext r)))%nat.
Proof.
  intros Hr. destruct (last l) as [t|] eqn:Hl; [|apply last_None in Hl as ->; simpl; lia].
  apply last_Some in Hl as [l' ->]. rewrite length_app. simpl.
  pose proof (rl_nodup _ _ Hr) as (Hnd & Hd & _)%NoDup_app.
  enough (length l' ≤ size (rnext r))%nat by lia.
  rewrite <- size_dom, <- (size_list_to_set (C := gset Z)) by done.
  apply subseteq_size. intros a Ha. rewrite elem_of_list_to_set in Ha.
  apply elem_of_dom. pose proof (rl_next _ _ Hr a) as Hn. unfold vget in Hn.
  destruct (rnext r !! a); [done|]. simpl in Hn. symmetry in Hn.
  exfalso. eapply (nextIn_nonzero _ a); [apply Hr|set_solver| |exact Hn].
  rewrite last_snoc. intros [= ->]. apply (Hd a Ha). set_solver.
Qed.

Lemma renewalList_Iterate_spec {B} (f : B → Address → result B) b l r :
  rlist r l → renewalList_Iterate f b r = lift (rfold f b l) r.
Proof.
  intros Hr. unfold renewalList_Iterate, mbind, M_bind, gets.
  rewrite (rl_head _ _ Hr).
  apply (riterateFrom_spec _ f b []); [done|by apply rlist_length].
Qed.
