(* ===== verification/Repository.v ===== *)
(** * Package validation: the repository

    [src/builtin/staker/validation/repository.go].  The active and the queued
    list share the one storage: [on_list] runs a list operation on a list's
    own slots together with that storage. *)

From S2P Require Import Prelude Chain Stakes GlobalStats Aggregation Validation.
From S2P Require Import Storage LinkedList RenewalList.

Record Repository := MkRepository {
  storage : Storage;
  activeList : listStats;
  queuedList : listStats;
  renewals : renewalList;
}.
#[export] Instance eta_Repository : Eta Repository := λ r,
  MkRepository (storage r) (activeList r) (queuedList r) (renewals r).

Definition on_list {A} (l : Repository → listStats) `{!Setter l} (m : M ListState A)
    : M Repository A := λ r,
  match m (MkListState (l r) (storage r)) with
  | Ok (a, ls) => Ok (a, (set_field (λ _, stats ls) r) <| storage := store ls |>)
  | Err e => Err e
  end.

Definition getValidation (validator : Address) : M Repository (option Validation) :=
  zoom storage (storage_getValidation validator).

Definition addValidation (validator : Address) (entry : Validation) : M Repository unit :=
  on_list queuedList (listStats_Add validator entry).

Definition updateValidation (validator : Address) (entry : Validation) : M Repository unit :=
  zoom storage (storage_updateValidation validator entry).

Definition getReward (key : Z) : M Repository Z := zoom storage (storage_getReward key).
Definition setReward (key val : Z) : M Repository unit := zoom storage (storage_setReward key val).

Definition getExit (block : Z) : M Repository Address := zoom storage (storage_getExit block).
Definition setExit (block : Z) (validator : Address) : M Repository unit :=
  zoom storage (storage_setExit block validator).

Definition firstQueued : M Repository Address := zoom queuedList listStats_GetHead.
Definition firstActive : M Repository Address := zoom activeList listStats_GetHead.

Definition nextEntry (prev : Address) : M Repository Address :=
  val ← getValidation prev;
  match val with
  | None => mret 0
  | Some val => match Next val with None => mret 0 | Some n => mret n end
  end.

Definition activeListSize : M Repository Z := zoom activeList listStats_GetSize.
Definition queuedListSize : M Repository Z := zoom queuedList listStats_GetSize.

Definition popQueued : M Repository (Address * Validation) :=
  h ← zoom queuedList listStats_GetHead;
  reject (IsZero h) (ErrInternal "list is empty") ;;
  entry ← getValidation h;
  entry ← need entry (ErrInternal "entry is empty");
  val ← on_list queuedList (listStats_Remove h entry);
  mret (h, val).

Definition removeQueued (address : Address) (entry : Validation) : M Repository unit :=
  on_list queuedList (listStats_Remove address entry) ;; mret tt.

Definition addActive (address : Address) (newEntry : Validation) : M Repository unit :=
  on_list activeList (listStats_Add address newEntry).

Definition removeActive (address : Address) (entry : Validation) : M Repository unit :=
  on_list activeList (listStats_Remove address entry) ;; mret tt.

Definition iterateActive {B} (callback : B → Address → Validation → result B) (b : B)
    : M Repository B :=
  on_list activeList (listStats_Iterate callback b).

(** The callbacks only read: the record of each member is looked up in the
    storage the iteration starts with. *)
Definition iterateRenewalList {B} (callback : B → Address → Validation → result B) (b : B)
    : M Repository B :=
  vals ← gets (λ r, validations (storage r));
  zoom renewals (renewalList_Iterate (λ b address,
    match vals !! address with
    | None => Err (ErrInternal "entry is empty")
    | Some entry => callback b address entry
    end) b).

(** ** The abstract repository

    [repr r vs A Q Rn]: [vs] is the link-free content of the validations, and
    the three lists of [r] represent the sequences [A] (active), [Q] (queued)
    and [Rn] (to be renewed). *)
Record repr (r : Repository) (vs : gmap Address Validation) (A Q Rn : list Address) : Prop := {
  repr_payload : payload (validations (storage r)) = vs;
  repr_active : dll (MkListState (activeList r) (storage r)) A;
  repr_queued : dll (MkListState (queuedList r) (storage r)) Q;
  repr_renewals : rlist (renewals r) Rn;
  repr_disjoint : ∀ a, a ∈ A → a ∉ Q;
}.

(** The parts of the storage that the lists do not use. *)
Definition same_rest (r r' : Repository) : Prop :=
  rewards (storage r') = rewards (storage r) ∧ exits (storage r') = exits (storage r).

Lemma wp_on_list {A} (l : Repository → listStats) `{!Setter l} (m : M ListState A) Q R r :
  wp m (λ a ls, Q a ((set_field (p := l) (λ _, stats ls) r) <| storage := store ls |>)) R
    (MkListState (l r) (storage r)) →
  wp (on_list l m) Q R r.
Proof. unfold wp, on_list. by destruct (m _) as [[a ls]|e]. Qed.

Lemma dll_frame l sto sto' L :
  (∀ a, a ∈ L → validations sto' !! a = validations sto !! a) →
  dll (MkListState l sto) L → dll (MkListState l sto') L.
Proof. intros Hm [????? ]. split; simpl in *; [done..|]. by eapply seg_ext. Qed.

(** Members of a list have a record. *)
Lemma repr_active_lookup r vs A Q Rn a :
  repr r vs A Q Rn → a ∈ A → is_Some (vs !! a).
Proof.
  intros Hr Ha. destruct (dll_lookup _ _ _ (repr_active _ _ _ _ _ Hr) Ha) as [v Hv].
  rewrite <- (repr_payload _ _ _ _ _ Hr), lookup_payload. simpl in Hv. rewrite Hv. eauto.
Qed.

Lemma repr_lookup r vs A Q Rn a :
  repr r vs A Q Rn → vs !! a = strip <$> (validations (storage r) !! a).
Proof. intros Hr. by rewrite <- (repr_payload _ _ _ _ _ Hr), lookup_payload. Qed.

Lemma repr_lookup_Some r vs A Q Rn a v :
  repr r vs A Q Rn → validations (storage r) !! a = Some v → vs !! a = Some (strip v).
Proof. intros Hr Hv. by rewrite (repr_lookup _ _ _ _ _ _ Hr), Hv. Qed.

Lemma repr_lookup_inv r vs A Q Rn a w :
  repr r vs A Q Rn → vs !! a = Some w →
  ∃ v, validations (storage r) !! a = Some v ∧ strip v = w.
Proof.
  intros Hr. rewrite (repr_lookup _ _ _ _ _ _ Hr).
  destruct (validations (storage r) !! a) as [v|]; simpl; [|done]. intros [= <-]. eauto.
Qed.

(** Overwriting a record without touching its links changes only [vs]. *)
Lemma wp_updateValidation a v v' r vs A Q Rn P R :
  repr r vs A Q Rn → validations (storage r) !! a = Some v →
  Prev v' = Prev v → Next v' = Next v →
  (∀ r', repr r' (<[a := strip v']> vs) A Q Rn → same_rest r r' → P tt r') →
  wp (updateValidation a v') P R r.
Proof.
  intros [Hp HA HQ HR Hd] Ha Hpv Hnx HP. unfold updateValidation. wp_step.
  unfold storage_updateValidation. wp_step. apply HP; [|done].
  assert (∀ l L, dll (MkListState l (storage r)) L →
    dll (MkListState l ((storage r) <| validations := <[a := v']> (validations (storage r)) |>)) L)
    as Hdll.
  { intros l L [H1 H2 H3 H4 H5]. split; simpl in *; [done..|]. by eapply seg_same_links. }
  split; simpl; [by rewrite payload_insert, Hp|by apply Hdll|by apply Hdll|done|done].
Qed.

Lemma wp_addValidation a v r vs A Q Rn P R :
  repr r vs A Q Rn → a ∉ A → a ∉ Q → Prev v = None → Next v = None →
  Z.of_nat (length Q) + 1 < max64 →
  (∀ r', repr r' (<[a := strip v]> vs) A (Q ++ [a]) Rn → same_rest r r' → P tt r') →
  wp (addValidation a v) P R r.
Proof.
  intros [Hp HA HQ HR Hd] HaA HaQ Hpv Hnx Hlen HP. unfold addValidation.
  apply wp_on_list. eapply wp_listStats_Add; [done..|].
  intros ls' Hdll [Hf1 Hf2 Hf3 Hf4] _. apply HP; [|by split]. split; simpl.
  - simpl in Hf1. by rewrite Hf1, Hp.
  - eapply dll_frame; [|exact HA]. intros b Hb. apply Hf2; [by apply Hd|congruence].
  - by destruct ls'.
  - done.
  - intros b Hb [?|?%list_elem_of_singleton]%elem_of_app; [by eapply Hd|congruence].
Qed.

Lemma wp_addActive a v r vs A Q Rn P R :
  repr r vs A Q Rn → a ∉ A → a ∉ Q → Next v = None →
  Z.of_nat (length A) + 1 < max64 →
  (∀ r', repr r' (<[a := strip v]> vs) (A ++ [a]) Q Rn → same_rest r r' → P tt r') →
  wp (addActive a v) P R r.
Proof.
  intros [Hp HA HQ HR Hd] HaA HaQ Hnx Hlen HP. unfold addActive.
  apply wp_on_list. eapply wp_listStats_Add; [done..|].
  intros ls' Hdll [Hf1 Hf2 Hf3 Hf4] _. apply HP; [|by split]. split; simpl.
  - simpl in Hf1. by rewrite Hf1, Hp.
  - by destruct ls'.
  - eapply dll_frame; [|exact HQ]. intros b Hb. apply Hf2; [|congruence].
    intros HbA. by apply (Hd b).
  - done.
  - intros b [?| ->%list_elem_of_singleton]%elem_of_app; [by apply Hd|done].
Qed.

(** Taking a member out of the queue; the record handed in is stored. *)
Lemma wp_remove_queued a e v r vs A Q1 Q2 Rn P R :
  repr r vs A (Q1 ++ a :: Q2) Rn → validations (storage r) !! a = Some v →
  Prev e = Prev v → Next e = Next v → Z.of_nat (length (Q1 ++ a :: Q2)) < max64 →
  (∀ r', repr r' (<[a := strip e]> vs) A (Q1 ++ Q2) Rn → same_rest r r' →
     validations (storage r') !! a = Some (strip e) → P (strip e) r') →
  wp (on_list queuedList (listStats_Remove a e)) P R r.
Proof.
  intros [Hp HA HQ HR Hd] Hv Hpv Hnx Hlen HP. apply wp_on_list.
  eapply wp_listStats_Remove; [done..|].
  intros ls' Hdll [Hf1 Hf2 Hf3 Hf4] Hst. apply HP; [|by split|done]. split; simpl.
  - simpl in Hf1. by rewrite Hf1, Hp.
  - eapply dll_frame; [|exact HA]. intros b Hb. apply Hf2.
    + intros HbQ. apply (Hd b Hb). set_solver.
    + intros ->. apply (Hd a Hb). set_solver.
  - by destruct ls'.
  - done.
  - intros b Hb HbQ. apply (Hd b Hb). set_solver.
Qed.

Lemma wp_removeActive a e v r vs A1 A2 Q Rn P R :
  repr r vs (A1 ++ a :: A2) Q Rn → validations (storage r) !! a = Some v →
  Prev e = Prev v → Next e = Next v → Z.of_nat (length (A1 ++ a :: A2)) < max64 →
  (∀ r', repr r' (<[a := strip e]> vs) (A1 ++ A2) Q Rn → same_rest r r' → P tt r') →
  wp (removeActive a e) P R r.
Proof.
  intros [Hp HA HQ HR Hd] Hv Hpv Hnx Hlen HP. unfold removeActive. wp_step. apply wp_on_list.
  eapply wp_listStats_Remove; [done..|].
  intros ls' Hdll [Hf1 Hf2 Hf3 Hf4] Hst. wp_step. apply HP; [|by split]. split; simpl.
  - simpl in Hf1. by rewrite Hf1, Hp.
  - by destruct ls'.
  - eapply dll_frame; [|exact HQ]. intros b Hb. apply Hf2.
    + intros HbA. apply (Hd b); [set_solver|done].
    + intros ->. apply (Hd a); [set_solver|done].
  - done.
  - intros b Hb. apply Hd. set_solver.
Qed.

(** The two removals, by membership. *)
Lemma wp_removeQueued a e v r vs A Q Rn P R :
  repr r vs A Q Rn → a ∈ Q → validations (storage r) !! a = Some v →
  Prev e = Prev v → Next e = Next v → Z.of_nat (length Q) < max64 →
  (∀ r', repr r' (<[a := strip e]> vs) A (filter (.≠ a) Q) Rn → same_rest r r' → P tt r') →
  wp (removeQueued a e) P R r.
Proof.
  intros Hr Ha Hv Hp Hn Hlen HP.
  pose proof (dll_nodup _ _ (repr_queued _ _ _ _ _ Hr)) as Hnd.
  apply list_elem_of_split in Ha as (Q1 & Q2 & ->). rewrite filter_ne_mid in HP by done.
  unfold removeQueued. wp_step. eapply wp_remove_queued; [done..|].
  intros r' Hr' Hs _. wp_step. auto.
Qed.

Lemma wp_removeActive_elem a e v r vs A Q Rn P R :
  repr r vs A Q Rn → a ∈ A → validations (storage r) !! a = Some v →
  Prev e = Prev v → Next e = Next v → Z.of_nat (length A) < max64 →
  (∀ r', repr r' (<[a := strip e]> vs) (filter (.≠ a) A) Q Rn → same_rest r r' → P tt r') →
  wp (removeActive a e) P R r.
Proof.
  intros Hr Ha Hv Hp Hn Hlen HP.
  pose proof (dll_nodup _ _ (repr_active _ _ _ _ _ Hr)) as Hnd.
  apply list_elem_of_split in Ha as (A1 & A2 & ->). rewrite filter_ne_mid in HP by done.
  by eapply wp_removeActive.
Qed.

(** [popQueued] takes the oldest entry. *)
Lemma wp_popQueued a v r vs A Q Rn P R :
  repr r vs A (a :: Q) Rn → a ≠ 0 → vs !! a = Some v → Z.of_nat (length (a :: Q)) < max64 →
  (∀ r', repr r' vs A Q Rn → same_rest r r' →
     validations (storage r') !! a = Some v → P (a, v) r') →
  wp popQueued P R r.
Proof.
  intros Hr H0 Ha Hlen HP.
  destruct (repr_lookup_inv _ _ _ _ _ _ _ Hr Ha) as (w & Hw & <-).
  unfold popQueued, listStats_GetHead, getValidation, storage_getValidation.
  pose proof (dll_head _ _ (repr_queued _ _ _ _ _ Hr)) as Hh. simpl in Hh.
  do 4 wp_step. rewrite Hh. wp_step.
  replace (r <| queuedList := queuedList r |>) with r by (by destruct r).
  wp_step. wp_step; [by apply Z.eqb_eq in H|].
  do 3 wp_step. replace (r <| storage := storage r |>) with r by (by destruct r).
  rewrite Hw. wp_step. apply wp_need; [done|]. intros ? [= <-]. wp_step. eapply (wp_remove_queued a w w _ vs A []); [done..|].
  intros r' Hr' Hs Hst. wp_step. apply HP; [|done|done]. by rewrite insert_id in Hr'.
Qed.
