(* ===== verification/ValidationService.v ===== *)
(** * Package validation: the service

    [src/builtin/staker/validation/service.go].  A [*Validation] handed to a
    service method is a record value; the method stores its edited copy. *)

From S2P Require Import Prelude Thor Stakes GlobalStats Aggregation Validation.
From S2P Require Import Storage LinkedList RenewalList Repository.

Record Leader := MkLeader {
  Leader_Address : Address;
  Leader_Endorser : Address;
  Leader_Beneficiary : option Address;
  Leader_Active : bool;
  Leader_Weight : Z;
}.

(** [period(4 bytes), validator(20 bytes), 8 bytes zero] *)
Definition makeRewardKey (validator : Address) (stakingPeriod : Z) : Z :=
  Z.lor (Z.shiftl stakingPeriod 224) (Z.shiftl validator 64).

Definition GetValidatorForExitBlock (blockNum : Z) : M Repository Address := getExit blockNum.

Definition service_GetValidation (validator : Address) : M Repository (option Validation) :=
  getValidation validator.

Definition GetExistingValidation (validator : Address) : M Repository Validation :=
  v ← service_GetValidation validator;
  need v (ErrInternal "failed to get existing validator").

Definition service_IncreaseDelegatorsReward (validator : Address) (reward currentBlock : Z)
    : M Repository unit :=
  val ← GetExistingValidation validator;
  current ← lift (CurrentIteration val currentBlock);
  let key := makeRewardKey validator current in
  rewards ← getReward key;
  setReward key (rewards + reward).

Definition LeaderGroupIterator {B} (callback : B → Address → Validation → result B) (b : B)
    : M Repository B := iterateActive callback b.

Definition service_IsActive : M Repository bool :=
  activeCount ← activeListSize;
  mret (0 <? activeCount).

Definition service_FirstActive : M Repository Address := firstActive.
Definition service_FirstQueued : M Repository Address := firstQueued.
Definition service_QueuedGroupSize : M Repository Z := queuedListSize.
Definition service_LeaderGroupSize : M Repository Z := activeListSize.

Definition GetLeaderGroupHead : M Repository Validation :=
  validatorID ← firstActive;
  GetExistingValidation validatorID.

Definition service_LeaderGroup : M Repository (list Leader) :=
  iterateActive (λ group validator entry,
    Ok (group ++ [{|
      Leader_Address := validator;
      Leader_Endorser := Endorser entry;
      Leader_Beneficiary := Beneficiary entry;
      Leader_Active := IsOnline entry;
      Leader_Weight := ValWeight entry |}])) [].

Definition service_Add (validator endorser : Address) (period stake : Z) : M Repository unit :=
  let entry := {|
    Endorser := endorser;
    Beneficiary := None;
    Period := period;
    CompletedPeriods := 0;
    ValStatus := StatusQueued;
    StartBlock := 0;
    ExitBlock := None;
    OfflineBlock := None;
    LockedVET := 0;
    PendingUnlockVET := 0;
    QueuedVET := stake;
    CooldownVET := 0;
    WithdrawableVET := 0;
    ValWeight := 0;
    Prev := None;
    Next := None |} in
  addValidation validator entry.

Definition GetExitEpoch (block : Z) : M Repository Address := getExit block.

Definition service_IncreaseStake (validator : Address) (validation : Validation) (amount : Z)
    : M Repository unit :=
  updateValidation validator (validation <| QueuedVET := QueuedVET validation +u64 amount |>).

Definition service_SetBeneficiary (validator : Address) (validation : Validation)
    (beneficiary : Address) : M Repository unit :=
  let validation :=
    if IsZero beneficiary then validation <| Beneficiary := None |>
    else validation <| Beneficiary := Some beneficiary |> in
  updateValidation validator validation.

Definition service_DecreaseStake (validator : Address) (validation : Validation) (amount : Z)
    : M Repository unit :=
  let validation :=
    if bool_decide (ValStatus validation = StatusActive)
    then validation <| PendingUnlockVET := PendingUnlockVET validation +u64 amount |>
    else validation in
  updateValidation validator validation.

Definition AddToRenewalList (validator : Address) : M Repository unit :=
  zoom renewals (renewalList_Add validator).

Definition RemoveFromRenewalList (address : Address) : M Repository unit :=
  zoom renewals (renewalList_Remove address).

Definition UpdateGroup (currentBlock : Z) : M Repository (list Address) :=
  iterateRenewalList (λ group validator val,
    periodEnd ← IsPeriodEnd val currentBlock;
    Ok (if periodEnd && bool_decide (ExitBlock val = None)
        then group ++ [validator] else group)) [].

Definition NextToActivate (maxLeaderGroupSize : Z) : M Repository (Address * Validation) :=
  leaderGroupLength ← activeListSize;
  reject (maxLeaderGroupSize <=? leaderGroupLength) (ErrInternal "leader group is full") ;;
  queuedSize ← queuedListSize;
  reject (queuedSize <=? 0) (ErrInternal "no validator in the queue") ;;
  popQueued.

Definition ExitValidator (validator : Address) : M Repository Exit :=
  entry ← GetExistingValidation validator;
  let '(exit, entry) := Validation_exit entry in
  removeActive validator entry ;;
  zoom renewals (renewalList_Remove validator) ;;
  mret exit.

Definition GetDelegatorRewards (validator : Address) (stakingPeriod : Z) : M Repository Z :=
  getReward (makeRewardKey validator stakingPeriod).

Definition UpdateOfflineBlock (validator : Address) (block : Z) (online : bool)
    : M Repository unit :=
  validation ← GetExistingValidation validator;
  let validation :=
    if online then validation <| OfflineBlock := None |>
    else validation <| OfflineBlock := Some block |> in
  updateValidation validator validation.

Definition service_NextEntry (prev : Address) : M Repository Address := nextEntry prev.

Section ops.
Context `{SM : SafeMath} `{CFG : Config}.

(** [for range maxTry]: probe [start], [start + EpochLength], ... *)
Fixpoint SetExitBlockFrom (maxTry : nat) (validator : Address) (start : Z) : M Repository Z :=
  match maxTry with
  | O => fail ErrMaxTryReached
  | S maxTry =>
      existing ← GetExitEpoch start;
      if IsZero existing then
        setExit start validator ;;
        mret start
      else SetExitBlockFrom maxTry validator (start +u32 EpochLength)
  end.

Definition SetExitBlock (validator : Address) (minBlock : Z) (maxTry : nat) : M Repository Z :=
  SetExitBlockFrom maxTry validator minBlock.

Definition service_SignalExit (validator : Address) (currentBlock minBlock : Z) (maxTry : nat)
    : M Repository unit :=
  validation ← GetExistingValidation validator;
  exitBlock ← SetExitBlock validator minBlock maxTry;
  current ← lift (CurrentIteration validation currentBlock);
  let validation := validation <| ExitBlock := Some exitBlock |>
                               <| CompletedPeriods := current |> in
  updateValidation validator validation.

(** Returns the withdrawable, queued and cooldown amounts. *)
Definition service_WithdrawStake (validator : Address) (validation : Validation) (currentBlock : Z)
    : M Repository (Z * Z * Z) :=
  if bool_decide (ValStatus validation = StatusQueued) then
    let withdrawableVET := WithdrawableVET validation in
    let queuedVET := QueuedVET validation in
    let validation := validation <| QueuedVET := 0 |>
                                 <| WithdrawableVET := 0 |>
                                 <| ValStatus := StatusExit |> in
    removeQueued validator validation ;;
    mret (withdrawableVET, queuedVET, 0)
  else
    let withdrawableVET := WithdrawableVET validation in
    let queuedVET := QueuedVET validation in
    let validation := validation <| QueuedVET := 0 |> <| WithdrawableVET := 0 |> in
    let '(cooldownVET, validation) :=
      if CooldownEnded validation currentBlock
      then (CooldownVET validation, validation <| CooldownVET := 0 |>)
      else (0, validation) in
    updateValidation validator validation ;;
    mret (withdrawableVET, queuedVET, cooldownVET).

Definition ActivateValidator (validator : Address) (validation : Validation) (currentBlock : Z)
    (aggRenew : Renewal) : M Repository Renewal :=
  reject (0 <? LockedVET validation)
    (ErrInternal "cannot activate validator with already locked vet") ;;
  let queuedDecrease := QueuedVET validation in
  let validation := validation <| LockedVET := QueuedVET validation |> <| QueuedVET := 0 |> in
  let mul :=
    if VET (LockedDecrease aggRenew) <? VET (LockedIncrease aggRenew)
    then MultiplierWithDelegations else Multiplier in
  let lockedIncrease := NewWeightedStakeWithMultiplier (LockedVET validation) mul in
  let weight := Weight lockedIncrease +u64 Weight (LockedIncrease aggRenew) in
  let '(weight, underflow) := SafeSub weight (Weight (LockedDecrease aggRenew)) in
  reject underflow (ErrInternal "weight underflow in subtraction") ;;
  let validation := validation <| ValWeight := weight |>
                               <| ValStatus := StatusActive |>
                               <| StartBlock := currentBlock |> in
  addActive validator validation ;;
  mret (MkRenewal lockedIncrease (NewWeightedStake 0 0) queuedDecrease).

Definition service_Renew (validator : Address) (delegationWeight : Z) : M Repository Renewal :=
  validation ← GetExistingValidation validator;
  '(delta, validation) ← lift (Validation_renew validation delegationWeight);
  updateValidation validator validation ;;
  mret delta.
End ops.

(** ** The service on the abstract repository *)

(** The members of [l] whose record satisfies [p], in order. *)
Definition select (p : Validation → bool) (vs : gmap Address Validation) (l : list Address)
    : list Address :=
  filter (λ a, from_option p false (vs !! a) = true) l.

(** The [i]-th block probed by [SetExitBlock]. *)
Definition probe `{CFG : Config} (minBlock : Z) (i : nat) : Z :=
  minBlock + Z.of_nat i * EpochLength.

Definition exitAt (r : Repository) (b : Z) : Address := vget (exits (storage r)) (exitKey b).

Section renewal_lists.
Implicit Types (r : Repository) (vs : gmap Address Validation).

Lemma wp_AddToRenewalList a r vs A Q Rn (P : unit → Repository → Prop) R :
  repr r vs A Q Rn →
  (∀ r', storage r' = storage r →
    repr r' vs A Q (if decide (a = 0 ∨ a ∈ Rn) then Rn else Rn ++ [a]) → P tt r') →
  wp (AddToRenewalList a) P R r.
Proof.
  intros [Hp HA HQ HR Hd] HP. unfold AddToRenewalList. wp_step.
  eapply wp_renewalList_Add; [exact HR|]. intros rl Hrl. apply HP; [done|]. by split.
Qed.

Lemma wp_RemoveFromRenewalList a r vs A Q Rn (P : unit → Repository → Prop) R :
  repr r vs A Q Rn →
  (∀ r', storage r' = storage r → repr r' vs A Q (filter (.≠ a) Rn) → P tt r') →
  wp (RemoveFromRenewalList a) P R r.
Proof.
  intros [Hp HA HQ HR Hd] HP. unfold RemoveFromRenewalList. wp_step.
  eapply wp_renewalList_Remove; [exact HR|]. intros rl Hrl. apply HP; [done|]. by split.
Qed.

Lemma wp_GetExistingValidation a v r P R :
  validations (storage r) !! a = Some v → P v r → wp (GetExistingValidation a) P R r.
Proof.
  intros Hv HP. unfold GetExistingValidation, service_GetValidation, getValidation,
    storage_getValidation. do 3 wp_step. simpl.
  rewrite Hv. simpl. wp_step. by destruct r as [[]].
Qed.
End renewal_lists.

Section folds.
Context (p : Validation → bool) (Hstrip : ∀ v, p (strip v) = p v).

(** A callback that collects the members satisfying [p] computes [select]. *)
Lemma foldR_select f m l acc :
  (∀ b a v, m !! a = Some v → a ∈ l → f b a v = Ok (if p v then b ++ [a] else b)) →
  (∀ a, a ∈ l → is_Some (m !! a)) →
  foldR f m acc l = Ok (acc ++ select p (payload m) l).
Proof.
  revert acc. induction l as [|a l IH]; intros acc Hf Hl; simpl.
  { unfold select. by rewrite filter_nil, app_nil_r. }
  destruct (Hl a) as [v Hv]; [set_solver|]. rewrite Hv, (Hf _ _ _ Hv) by set_solver. simpl.
  rewrite IH; [|intros; apply Hf; set_solver|intros; apply Hl; set_solver].
  unfold select. rewrite filter_cons, lookup_payload, Hv. simpl. rewrite Hstrip.
  destruct (p v); simpl; [by rewrite <- app_assoc|done].
Qed.

Lemma rfold_select (f : list Address → Address → result (list Address)) m l acc :
  (∀ b a, a ∈ l → ∃ v, m !! a = Some v ∧ f b a = Ok (if p v then b ++ [a] else b)) →
  rfold f acc l = Ok (acc ++ select p (payload m) l).
Proof.
  revert acc. induction l as [|a l IH]; intros acc Hf; simpl.
  { unfold select. by rewrite filter_nil, app_nil_r. }
  destruct (Hf acc a) as (v & Hv & Hfa); [set_solver|]. rewrite Hfa. simpl.
  rewrite IH; [|intros; apply Hf; set_solver].
  unfold select. rewrite filter_cons, lookup_payload, Hv. simpl. rewrite Hstrip.
  destruct (p v); simpl; [by rewrite <- app_assoc|done].
Qed.
End folds.

Section exit_slots.
Context `{CFG : Config}.

(** [SetExitBlock] takes the first free slot among the [n] blocks it may
    probe, and fails exactly when all of them are taken. *)
Lemma SetExitBlock_cases a minBlock n r :
  0 ≤ minBlock → 0 ≤ EpochLength → minBlock + Z.of_nat n * EpochLength < max32 →
  (∃ i, (i < n)%nat ∧ exitAt r (probe minBlock i) = 0 ∧
     (∀ j, (j < i)%nat → exitAt r (probe minBlock j) ≠ 0) ∧
     SetExitBlock a minBlock n r =
       Ok (probe minBlock i,
           r <| storage := (storage r) <| exits :=
             vset (exitKey (probe minBlock i)) a (exits (storage r)) |> |>)) ∨
  ((∀ j, (j < n)%nat → exitAt r (probe minBlock j) ≠ 0) ∧
   SetExitBlock a minBlock n r = Err ErrMaxTryReached).
Proof.
  unfold SetExitBlock. revert minBlock. induction n as [|n IH]; intros b Hb HE Hn.
  { right. split; [lia|done]. }
  simpl. unfold GetExitEpoch, getExit, setExit, storage_getExit, storage_setExit,
    mbind, M_bind, zoom, gets, modify, IsZero; simpl.
  replace (r <| storage := storage r |>) with r by (by destruct r).
  fold (exitAt r b). destruct (Z.eqb_spec (exitAt r b) 0) as [H0|H0].
  { left. exists O. unfold probe. rewrite Z.mul_0_l, Z.add_0_r.
    split; [lia|]. split; [done|]. split; [lia|]. by destruct r. }
  rewrite wrap32_id by ulia.
  assert (∀ j, probe (b + EpochLength) j = probe b (S j)) as Hpr by (intros; unfold probe; lia).
  destruct (IH (b + EpochLength)) as [(i & Hi & Hz & Hlt & ->)|[Hall ->]]; [lia..| |].
  - left. exists (S i). rewrite Hpr in *. split; [lia|]. split; [done|]. split; [|done].
    intros [|j] Hj; [unfold probe; by rewrite Z.mul_0_l, Z.add_0_r|].
    rewrite <- Hpr. apply Hlt. lia.
  - right. split; [|done]. intros [|j] Hj; [unfold probe; by rewrite Z.mul_0_l, Z.add_0_r|].
    rewrite <- Hpr. apply Hall. lia.
Qed.
End exit_slots.
