(* ===== verification/Staker.v ===== *)
(** * Package staker: the native staker contract

    [src/builtin/staker/staker.go], [transition.go] (the balance checker),
    [housekeep.go] ([ContractBalanceCheck]), [protocol.go] (unit conversion).
    The [Staker] record gathers the storage of the four services and what the
    code reads of the rest of the state: the contract's balance, the storage
    slot 0 written by staker.sol ([effectiveVET], in wei) and the governance
    parameter for the number of proposers. *)

From S2P Require Import Prelude Thor Stakes GlobalStats Aggregation Validation Delegation.
From S2P Require Import Storage LinkedList RenewalList Repository ValidationService.

Definition MinStakeVET : Z := 25000000.
Definition MaxStakeVET : Z := 600000000.
Definition exitMaxTry : nat := 20.
Definition bigE18 : Z := 10 ^ 18.

Record Staker := MkStaker {
  aggregationService : Aggregations;
  globalStatsService : GlobalStats;
  validationService : Repository;
  delegationService : DelegationService;
  maxBlockProposersParam : Z;  (* params: KeyMaxBlockProposers *)
  balance : Z;                 (* state balance of the contract, wei *)
  effectiveVET : Z;            (* storage slot 0, wei *)
}.
#[export] Instance eta_Staker : Eta Staker := λ s,
  MkStaker (aggregationService s) (globalStatsService s) (validationService s)
    (delegationService s) (maxBlockProposersParam s) (balance s) (effectiveVET s).

Definition ToVET (wei : Z) : result Z :=
  if wei <? 0 then Err (ErrInternal "wei amount cannot be negative") else
  let result := wei / bigE18 in
  if max64 <=? result then Err (ErrInternal "wei amount too large") else
  Ok result.

Definition ToWei (vet : Z) : Z := vet * bigE18.

Definition GetEffectiveVET : M Staker Z :=
  val ← gets effectiveVET;
  lift (ToVET val).

Definition IsPoSActive : M Staker bool := zoom validationService service_IsActive.
Definition LeaderGroup : M Staker (list Leader) := zoom validationService service_LeaderGroup.
Definition FirstActive : M Staker Address := zoom validationService service_FirstActive.
Definition FirstQueued : M Staker Address := zoom validationService service_FirstQueued.
Definition QueuedGroupSize : M Staker Z := zoom validationService service_QueuedGroupSize.
Definition LeaderGroupSize : M Staker Z := zoom validationService service_LeaderGroupSize.

Definition GetValidation (validator : Address) : M Staker (option Validation) :=
  zoom validationService (service_GetValidation validator).

Definition staker_Next (prev : Address) : M Staker Address :=
  zoom validationService (service_NextEntry prev).

Definition staker_GetDelegatorRewards (validator : Address) (stakingPeriod : Z) : M Staker Z :=
  zoom validationService (GetDelegatorRewards validator stakingPeriod).

Definition IncreaseDelegatorsReward (node : Address) (reward currentBlock : Z) : M Staker unit :=
  zoom validationService (service_IncreaseDelegatorsReward node reward currentBlock).

Definition SetOnline (validator : Address) (blockNum : Z) (online : bool) : M Staker unit :=
  zoom validationService (UpdateOfflineBlock validator blockNum online).

Definition getValidationOrRevert (valID : Address) : M Staker Validation :=
  val ← GetValidation valID;
  need val (ErrRevert "validation does not exist").

Definition GetDelegation (delegationID : Z) : M Staker (option (Delegation * Validation)) :=
  del ← zoom delegationService (delegation_GetDelegation delegationID);
  match del with
  | None => mret None
  | Some del =>
      val ← zoom validationService (GetExistingValidation (DelValidation del));
      mret (Some (del, val))
  end.

Definition HasDelegations (node : Address) : M Staker bool :=
  agg ← zoom aggregationService (GetAggregation node);
  mret (0 <? VET (Locked agg)).

Definition GetValidationsNum : M Staker (Z * Z) :=
  leaderGroupSize ← LeaderGroupSize;
  queuedGroupSize ← QueuedGroupSize;
  mret (leaderGroupSize, queuedGroupSize).

Definition LockedStake : M Staker (Z * Z) := zoom globalStatsService GetLockedStake.
Definition QueuedStake : M Staker Z := zoom globalStatsService GetQueuedStake.

Definition SetBeneficiary (validator endorser beneficiary : Address) : M Staker unit :=
  val ← getValidationOrRevert validator;
  reject (negb (Endorser val =? endorser)) (ErrRevert "endorser required") ;;
  reject (bool_decide (ValStatus val = StatusExit) || bool_decide (ExitBlock val ≠ None))
    (ErrRevert "validator has exited or signaled exit, cannot set beneficiary") ;;
  zoom validationService (service_SetBeneficiary validator val beneficiary).

Section ops.
Context `{SM : SafeMath} `{CFG : Config}.

Definition GetWithdrawable (validator : Address) (block : Z) : M Staker Z :=
  val ← getValidationOrRevert validator;
  mret (CalculateWithdrawableVET val block).

Definition GetValidationTotals (validator : Address) : M Staker Totals :=
  val ← getValidationOrRevert validator;
  agg ← zoom aggregationService (GetAggregation validator);
  lift (Validation_Totals val agg).

(** The sum loop over the counters. *)
Fixpoint sumCounters (counterTotal : Z) (stakes : list Z) : result Z :=
  match stakes with
  | [] => Ok counterTotal
  | stake :: stakes =>
      let '(partialSum, overflow) := SafeAdd counterTotal stake in
      if overflow : bool then Err (ErrInternal "counterTotal overflow occurred") else
      sumCounters partialSum stakes
  end.

Definition ContractBalanceCheck (pendingWithdraw : Z) : M Staker unit :=
  '(lockedStake, _) ← zoom globalStatsService GetLockedStake;
  queuedStake ← zoom globalStatsService GetQueuedStake;
  withdrawableStake ← zoom globalStatsService GetWithdrawableStake;
  cooldownStake ← zoom globalStatsService GetCooldownStake;
  counterTotal ← lift (sumCounters 0
    [lockedStake; queuedStake; withdrawableStake; cooldownStake; pendingWithdraw]);
  bal ← gets balance;
  balanceVET ← lift (ToVET bal);
  effective ← GetEffectiveVET;
  reject (balanceVET <? effective)
    (ErrInternal "balance check failed: balanceVET < effectiveVET") ;;
  reject (negb (effective =? counterTotal))
    (ErrInternal "balance check failed: effectiveVET != counterTotal").

Definition checkStake (valNextPeriodTVL aggNextPeriodTVL amount : Z) : result Z :=
  let '(total, overflow) := SafeAdd valNextPeriodTVL aggNextPeriodTVL in
  if overflow : bool then Err (ErrRevert "stake is out of range") else
  let '(total, overflow) := SafeAdd total amount in
  if overflow : bool then Err (ErrRevert "stake is out of range") else
  Ok total.

Definition validateStakeIncrease (validator : Address) (validation : Validation) (amount : Z)
    : M Staker unit :=
  reject (MaxStakeVET <? amount) (ErrRevert "increase amount is too large") ;;
  agg ← zoom aggregationService (GetAggregation validator);
  aggNextPeriodTVL ← lift (Aggregation_NextPeriodTVL agg);
  valNextPeriodTVL ← lift (Validation_NextPeriodTVL validation);
  total ← lift (checkStake valNextPeriodTVL aggNextPeriodTVL amount);
  reject (MaxStakeVET <? total) (ErrRevert "total stake would exceed maximum").

Definition AddValidation (validator endorser : Address) (period stake : Z) : M Staker unit :=
  reject (stake <? MinStakeVET) (ErrRevert "stake is below minimum") ;;
  reject (MaxStakeVET <? stake) (ErrRevert "stake is above maximum") ;;
  reject (IsZero validator) (ErrRevert "validator cannot be zero") ;;
  val ← GetValidation validator;
  reject (bool_decide (val ≠ None)) (ErrRevert "validator already exists") ;;
  reject (negb (period =? LowStakingPeriod) && negb (period =? MediumStakingPeriod)
          && negb (period =? HighStakingPeriod))
    (ErrRevert "period is out of boundaries") ;;
  zoom validationService (service_Add validator endorser period stake) ;;
  zoom globalStatsService (AddQueued stake) ;;
  ContractBalanceCheck 0.

Definition SignalExit (validator endorser : Address) (currentBlock : Z) : M Staker unit :=
  val ← getValidationOrRevert validator;
  reject (negb (Endorser val =? endorser)) (ErrRevert "endorser required") ;;
  reject (bool_decide (ValStatus val ≠ StatusActive))
    (ErrRevert "can't signal exit while not active") ;;
  reject (bool_decide (ExitBlock val ≠ None)) (ErrRevert "exit block already set") ;;
  current ← lift (CurrentIteration val currentBlock);
  let minBlock := StartBlock val +u32 (Period val *u32 current) in
  map_err (λ e, match e with ErrMaxTryReached => ErrRevert "max try reached" | _ => e end)
    (zoom validationService (service_SignalExit validator currentBlock minBlock exitMaxTry)).

Definition IncreaseStake (validator endorser : Address) (amount : Z) : M Staker unit :=
  val ← getValidationOrRevert validator;
  reject (negb (Endorser val =? endorser)) (ErrRevert "endorser required") ;;
  reject (bool_decide (ValStatus val = StatusExit)) (ErrRevert "validator exited") ;;
  reject (bool_decide (ValStatus val ≠ StatusActive))
    (ErrRevert "can't increase stake while validator not active") ;;
  reject (bool_decide (ExitBlock val ≠ None))
    (ErrRevert "validator has signaled exit, cannot increase stake") ;;
  validateStakeIncrease validator val amount ;;
  zoom validationService (service_IncreaseStake validator val amount) ;;
  zoom validationService (AddToRenewalList validator) ;;
  zoom globalStatsService (AddQueued amount) ;;
  ContractBalanceCheck 0.

Definition DecreaseStake (validator endorser : Address) (amount : Z) : M Staker unit :=
  reject (MaxStakeVET - MinStakeVET <? amount) (ErrRevert "decrease amount is too large") ;;
  val ← getValidationOrRevert validator;
  reject (negb (Endorser val =? endorser)) (ErrRevert "endorser required") ;;
  reject (bool_decide (ValStatus val = StatusExit)) (ErrRevert "validator exited") ;;
  reject (bool_decide (ValStatus val ≠ StatusActive))
    (ErrRevert "can't decrease stake while validator not active") ;;
  reject (bool_decide (ExitBlock val ≠ None))
    (ErrRevert "validator has signaled exit, cannot decrease stake") ;;
  let nextPeriodVET := LockedVET val -u64 PendingUnlockVET val in
  reject (nextPeriodVET <? amount) (ErrRevert "not enough locked stake") ;;
  reject (nextPeriodVET -u64 amount <? MinStakeVET)
    (ErrRevert "next period stake is lower than minimum stake") ;;
  zoom validationService (service_DecreaseStake validator val amount) ;;
  zoom validationService (AddToRenewalList validator) ;;
  ContractBalanceCheck 0.

Definition WithdrawStake (validator endorser : Address) (currentBlock : Z) : M Staker Z :=
  val ← getValidationOrRevert validator;
  reject (negb (Endorser val =? endorser)) (ErrRevert "endorser required") ;;
  let isQueued := bool_decide (ValStatus val = StatusQueued) in
  '(withdrawableVET, queuedVET, cooldownVET) ←
    zoom validationService (service_WithdrawStake validator val currentBlock);
  when isQueued (
    exit ← zoom aggregationService (aggregation_Exit validator);
    when (0 <? Exit_QueuedDecrease exit) (
      zoom globalStatsService (RemoveQueued (Exit_QueuedDecrease exit)) ;;
      zoom globalStatsService (AddWithdrawable (Exit_QueuedDecrease exit)))) ;;
  when (0 <? withdrawableVET) (zoom globalStatsService (RemoveWithdrawable withdrawableVET)) ;;
  when (0 <? queuedVET) (zoom globalStatsService (RemoveQueued queuedVET)) ;;
  when (0 <? cooldownVET) (zoom globalStatsService (RemoveCooldown cooldownVET)) ;;
  let '(total, overflow) := SafeAdd withdrawableVET queuedVET in
  reject overflow (ErrInternal "withdrawableVET/ queuedVET overflow") ;;
  let '(total, overflow) := SafeAdd total cooldownVET in
  reject overflow (ErrInternal "cooldownVET caused overflow") ;;
  ContractBalanceCheck total ;;
  mret total.

Definition AddDelegation (validator : Address) (stake multiplier currentBlock : Z) : M Staker Z :=
  reject (stake <=? 0) (ErrRevert "stake must be greater than 0") ;;
  reject (multiplier =? 0) (ErrRevert "multiplier cannot be 0") ;;
  val ← getValidationOrRevert validator;
  reject (bool_decide (ValStatus val ≠ StatusQueued) && bool_decide (ValStatus val ≠ StatusActive))
    (ErrRevert "validation is not queued or active") ;;
  reject (bool_decide (ExitBlock val ≠ None))
    (ErrRevert "cannot add delegation to exiting validator") ;;
  validateStakeIncrease validator val stake ;;
  current ← lift (CurrentIteration val currentBlock);
  delegationID ← zoom delegationService
    (delegation_Add validator (current +u32 1) stake multiplier);
  let weightedStake := NewWeightedStakeWithMultiplier stake multiplier in
  zoom aggregationService (AddPendingVET validator weightedStake) ;;
  zoom globalStatsService (AddQueued stake) ;;
  when (bool_decide (ValStatus val = StatusActive))
    (zoom validationService (AddToRenewalList validator)) ;;
  ContractBalanceCheck 0 ;;
  mret delegationID.

Definition SignalDelegationExit (delegationID currentBlock : Z) : M Staker unit :=
  del ← zoom delegationService (delegation_GetDelegation delegationID);
  del ← need del (ErrRevert "delegation is empty");
  reject (bool_decide (LastIteration del ≠ None))
    (ErrRevert "delegation is already signaled exit") ;;
  reject (Stake del =? 0) (ErrRevert "delegation has already been withdrawn") ;;
  val ← zoom validationService (GetExistingValidation (DelValidation del));
  started ← lift (Started del val currentBlock);
  reject (negb started) (ErrRevert "delegation has not started yet, funds can be withdrawn") ;;
  ended ← lift (Ended del val currentBlock);
  reject ended (ErrRevert "delegation has ended, funds can be withdrawn") ;;
  current ← lift (CurrentIteration val currentBlock);
  zoom delegationService (delegation_SignalExit del delegationID current) ;;
  zoom aggregationService
    (aggregation_SignalExit (DelValidation del) (Delegation_WeightedStake del)) ;;
  when (bool_decide (ValStatus val = StatusActive))
    (zoom validationService (AddToRenewalList (DelValidation del))).

Definition WithdrawDelegation (delegationID currentBlock : Z) : M Staker Z :=
  del ← zoom delegationService (delegation_GetDelegation delegationID);
  del ← need del (ErrRevert "delegation is empty");
  val ← zoom validationService (GetExistingValidation (DelValidation del));
  started ← lift (Started del val currentBlock);
  finished ← lift (Ended del val currentBlock);
  reject (started && negb finished) (ErrRevert "delegation is not eligible for withdraw") ;;
  withdrawableStake ← zoom delegationService (delegation_Withdraw del delegationID);
  (if negb started && bool_decide (ValStatus val ≠ StatusExit) then
    let weightedStake := NewWeightedStakeWithMultiplier withdrawableStake (DelMultiplier del) in
    zoom aggregationService (SubPendingVet (DelValidation del) weightedStake) ;;
    zoom globalStatsService (RemoveQueued withdrawableStake)
  else
    zoom globalStatsService (RemoveWithdrawable withdrawableStake)) ;;
  ContractBalanceCheck withdrawableStake ;;
  mret withdrawableStake.

(** The [BalanceChecker] used while PoA is still running; [endorserBalance]
    is the endorser's account balance. *)
Definition TransitionPeriodBalanceCheck (hayabusa currentBlock endorsement endorserBalance : Z)
    (validator endorser : Address) : M Staker bool :=
  if endorsement <=? endorserBalance then mret true else
  if currentBlock <? hayabusa then mret false else
  validation ← GetValidation validator;
  match validation with
  | None => mret false
  | Some validation =>
      if negb (Endorser validation =? endorser) then mret false else
      let queued := QueuedVET validation * bigE18 in
      mret (endorsement <=? queued)
  end.
End ops.
