(* ===== verification/StakerInv.v ===== *)
(** * The staker's invariant

    What holds of the staker contract between transactions, stated on an
    abstract view of its storage: the three lists as sequences, the link-free
    validation records, the aggregations, the delegations and the global
    counters.  The invariant says

    - which list a validator is in, from its status;
    - the admissible amounts of a queued, an active and an exited validator;
    - that every aggregation is the sum of its validator's delegations, each
      counted as pending, locked or exiting by its iterations;
    - that the exit slots and the exit blocks of active validators agree;
    - that the global counters are the sums of what the validators and the
      delegations hold.

    The clock [clk] gives, per validator, the block up to which its staking
    periods have been processed: the current block for all of them between
    transactions, and a mixture inside an epoch transition. *)

From S2P Require Import Prelude Thor Stakes GlobalStats Aggregation Validation Delegation.
From S2P Require Import Storage LinkedList RenewalList Repository ValidationService Staker.

(** The VET supply; what users deposit never exceeds it (staker.sol refuses
    larger amounts by the same constant). *)
Definition MaxSupply : Z := 100000000000.

Record View := MkView {
  vVals : gmap Address Validation;
  vA : list Address;
  vQ : list Address;
  vR : list Address;
  vExits : gmap Z Address;
  vAggs : Aggregations;
  vStats : GlobalStats;
  vDels : gmap Z Delegation;
  vNextID : Z;
}.
#[export] Instance eta_View : Eta View := λ x,
  MkView (vVals x) (vA x) (vQ x) (vR x) (vExits x) (vAggs x) (vStats x) (vDels x) (vNextID x).

Definition exitOf (x : View) (b : Z) : Address := vget (vExits x) (exitKey b).

(** [s] implements [x]. *)
Record view_of (s : Staker) (x : View) : Prop := {
  vo_repr : repr (validationService s) (vVals x) (vA x) (vQ x) (vR x);
  vo_exits : exits (storage (validationService s)) = vExits x;
  vo_aggs : aggregationService s = vAggs x;
  vo_stats : globalStatsService s = vStats x;
  vo_dels : delegations (delegationService s) = vDels x;
  vo_id : default 0 (idCounter (delegationService s)) = vNextID x;
}.

(** ** Delegations by iteration *)

(** The running staking period at block [t], in unbounded arithmetic. *)
Definition iter (v : Validation) (t : Z) : Z :=
  match ValStatus v with
  | StatusUnknown | StatusQueued => 0
  | StatusExit => CompletedPeriods v
  | StatusActive =>
      if 0 <? CompletedPeriods v then CompletedPeriods v
      else (t - StartBlock v) / Period v + 1
  end.

Inductive dclass := DPending | DLocked | DExiting | DFree.
#[export] Instance dclass_eq_dec : EqDecision dclass.
Proof. solve_decision. Defined.

Definition classify (v : Validation) (t : Z) (d : Delegation) : dclass :=
  match ValStatus v with
  | StatusQueued => DPending
  | StatusActive =>
      if iter v t <? FirstIteration d then DPending else
      match LastIteration d with
      | None => DLocked
      | Some j => if j <? iter v t then DFree else DExiting
      end
  | _ => DFree
  end.

Definition is_pending (c : dclass) : bool := bool_decide (c = DPending).
Definition is_exiting (c : dclass) : bool := bool_decide (c = DExiting).
Definition is_locked (c : dclass) : bool := bool_decide (c = DLocked) || is_exiting c.

Definition wsum (P : Delegation → bool) (D : gmap Z Delegation) : WeightedStake :=
  MkWS (msum (λ _ d, if P d then Stake d else 0) D)
       (msum (λ _ d, if P d then calcWeight (Stake d) (DelMultiplier d) else 0) D).

Definition delsOf (a : Address) (v : Validation) (t : Z) (c : dclass → bool) (d : Delegation)
    : bool := (DelValidation d =? a) && c (classify v t d).

(** The aggregation of [a], recomputed from the delegations. *)
Definition aggSpec (D : gmap Z Delegation) (a : Address) (v : Validation) (t : Z) : Aggregation :=
  MkAggregation (wsum (delsOf a v t is_locked) D)
    (wsum (delsOf a v t is_pending) D) (wsum (delsOf a v t is_exiting) D).

(** ** The counters as sums *)

(** Sum a per-validator quantity over all validators. *)
Definition vsum (F : Validation → Aggregation → Z) (V : gmap Address Validation)
    (G : Aggregations) : Z := msum (λ a v, F v (aggOf G a)) V.

Definition vQueued (v : Validation) (g : Aggregation) : Z := QueuedVET v + VET (Pending g).
Definition vLocked (v : Validation) (g : Aggregation) : Z := LockedVET v + VET (Locked g).
Definition vWeight (v : Validation) (g : Aggregation) : Z := ValWeight v.
Definition vCooldown (v : Validation) (g : Aggregation) : Z := CooldownVET v.
(** Withdrawable: the validator's own, and the delegations that are neither
    pending nor locked. *)
Definition vFree (v : Validation) (g : Aggregation) : Z :=
  WithdrawableVET v - VET (Locked g) - VET (Pending g).

Definition dsum (D : gmap Z Delegation) : Z := msum (λ _ d, Stake d) D.

Record acct (x : View) : Prop := {
  acct_queued : queued (vStats x) = vsum vQueued (vVals x) (vAggs x);
  acct_locked : VET (lockedOf (vStats x)) = vsum vLocked (vVals x) (vAggs x);
  acct_weight : Weight (lockedOf (vStats x)) = vsum vWeight (vVals x) (vAggs x);
  acct_cooldown : cooldown (vStats x) = vsum vCooldown (vVals x) (vAggs x);
  acct_free : withdrawable (vStats x) = vsum vFree (vVals x) (vAggs x) + dsum (vDels x);
}.

Section inv.
Context `{CFG : Config}.

(** ** Per-validator conditions *)

Record queued_ok (v : Validation) (g : Aggregation) : Prop := {
  q_zero : LockedVET v = 0 ∧ PendingUnlockVET v = 0 ∧ CooldownVET v = 0 ∧
           WithdrawableVET v = 0 ∧ ValWeight v = 0 ∧ CompletedPeriods v = 0;
  q_exit : ExitBlock v = None;
  q_min : MinStakeVET ≤ QueuedVET v;
  q_max : QueuedVET v + VET (Pending g) ≤ MaxStakeVET;
}.

(** The exit block is beyond [t], on an epoch boundary. *)
Definition exit_block_ok (t b : Z) : Prop :=
  t < b < 2 ^ 31 + 2 ^ 25 ∧ (EpochLength | b).

Record active_ok (v : Validation) (g : Aggregation) (t : Z) (inR : Prop) : Prop := {
  a_start : 0 ≤ StartBlock v ≤ t ∧ (EpochLength | StartBlock v);
  a_nonneg : 0 ≤ PendingUnlockVET v ∧ 0 ≤ QueuedVET v ∧ 0 ≤ WithdrawableVET v;
  a_cooldown : CooldownVET v = 0;
  a_min : MinStakeVET ≤ LockedVET v - PendingUnlockVET v;
  a_max : LockedVET v + VET (Locked g) ≤ MaxStakeVET;
  a_next : LockedVET v + QueuedVET v - PendingUnlockVET v +
    (VET (Locked g) + VET (Pending g) - VET (Exiting g)) ≤ MaxStakeVET;
  a_weight : ∃ m, (m = Multiplier ∨ m = MultiplierWithDelegations) ∧
    ValWeight v = calcWeight (LockedVET v) m + Weight (Locked g) ∧
    (m = Multiplier → Weight (Locked g) = 0);
  a_exit : match ExitBlock v with
    | None => CompletedPeriods v = 0 ∧
        (inR ∨ (PendingUnlockVET v = 0 ∧ QueuedVET v = 0 ∧
                Pending g = WS0 ∧ Exiting g = WS0))
    | Some b => 1 ≤ CompletedPeriods v < max32 ∧ exit_block_ok t b
    end;
}.

Record exited_ok (v : Validation) : Prop := {
  e_zero : LockedVET v = 0 ∧ PendingUnlockVET v = 0 ∧ QueuedVET v = 0 ∧ ValWeight v = 0;
  e_nonneg : 0 ≤ CooldownVET v ∧ 0 ≤ WithdrawableVET v ∧ 0 ≤ CompletedPeriods v < max32;
  e_exit : match ExitBlock v with
    | None => CooldownVET v = 0 | Some b => 0 ≤ b < 2 ^ 31 + 2 ^ 25 end;
}.

Definition status_ok (v : Validation) (g : Aggregation) (t : Z) (inR : Prop) : Prop :=
  match ValStatus v with
  | StatusUnknown => False
  | StatusQueued => queued_ok v g
  | StatusActive => active_ok v g t inR
  | StatusExit => exited_ok v
  end.

Definition period_ok (p : Z) : Prop :=
  p = LowStakingPeriod ∨ p = MediumStakingPeriod ∨ p = HighStakingPeriod.

Record del_ok (v : Validation) (t : Z) (d : Delegation) : Prop := {
  d_stake : 0 ≤ Stake d ≤ MaxStakeVET;
  d_mult : 0 < DelMultiplier d < 256;
  d_first : 1 ≤ FirstIteration d ≤ iter v t + 1;
  d_last : ∀ j, LastIteration d = Some j → FirstIteration d ≤ j ≤ iter v t;
}.

(** What the view holds for a validator [a] with record [v]. *)
Record vlocal (x : View) (t : Z) (a : Address) (v : Validation) : Prop := {
  l_nonzero : a ≠ 0;
  l_active : a ∈ vA x ↔ ValStatus v = StatusActive;
  l_queued : a ∈ vQ x ↔ ValStatus v = StatusQueued;
  l_renew : a ∈ vR x → ValStatus v = StatusActive;
  l_period : period_ok (Period v);
  l_ok : status_ok v (aggOf (vAggs x) a) t (a ∈ vR x);
  l_dels : ∀ id d, vDels x !! id = Some d → DelValidation d = a → del_ok v t d;
  l_agg : aggOf (vAggs x) a = aggSpec (vDels x) a v t;
  l_exit : ∀ b, ValStatus v = StatusActive → ExitBlock v = Some b → exitOf x b = a;
  l_slot : ∀ b, t < b < max32 → exitOf x b = a →
    ValStatus v = StatusActive ∧ ExitBlock v = Some b;
}.

(** ... and for an address without a record. *)
Record vnone (x : View) (t : Z) (a : Address) : Prop := {
  n_agg : aggOf (vAggs x) a = newAggregation;
  n_active : a ∉ vA x;
  n_queued : a ∉ vQ x;
  n_renew : a ∉ vR x;
  n_dels : ∀ id d, vDels x !! id = Some d → DelValidation d ≠ a;
  n_slot : ∀ b, t < b < max32 → exitOf x b = a → a = 0;
}.

Definition local (x : View) (t : Z) (a : Address) : Prop :=
  match vVals x !! a with Some v => vlocal x t a v | None => vnone x t a end.

Record Inv (clk : Address → Z) (x : View) : Prop := {
  inv_local : ∀ a, local x (clk a) a;
  inv_acct : acct x;
  inv_supply : gs_total (vStats x) ≤ MaxSupply;
  inv_ids : ∀ id d, vDels x !! id = Some d → 0 < id ≤ vNextID x;
  inv_id : 0 ≤ vNextID x;
}.

(** The contract's VET: the slot kept by staker.sol is what the counters
    account for, plus [dep] that has been received (or not yet been paid out)
    by the running call; the balance covers it and is within the supply. *)
Record funded (s : Staker) (dep : Z) : Prop := {
  f_dep : 0 ≤ dep;
  f_eff : effectiveVET s = ToWei (gs_total (globalStatsService s) + dep);
  f_bal : effectiveVET s ≤ balance s ≤ ToWei MaxSupply;
}.

(** The staker's invariant at block [now]. *)
Definition StakerInv (now dep : Z) (s : Staker) : Prop :=
  ∃ x, view_of s x ∧ Inv (λ _, now) x ∧ funded s dep.
End inv.

(** ** How records change at a block

    A validator's position in its life: queued, active, exited. *)
Definition rank (st : Status) : Z :=
  match st with StatusUnknown => 0 | StatusQueued => 1 | StatusActive => 2 | StatusExit => 3 end.

(** The VET of a validator's own stake, wherever it stands. *)
Definition ownVET (v : Validation) : Z :=
  LockedVET v + QueuedVET v + CooldownVET v + WithdrawableVET v.

(** What processing a block may do to a record: it moves forward in its life
    and its VET between its four accounts; the locked stake of a validator that
    has signalled its exit can only go to its cooldown. *)
Record settles (v v' : Validation) : Prop := {
  st_endorser : Endorser v' = Endorser v;
  st_period : Period v' = Period v;
  st_rank : rank (ValStatus v) ≤ rank (ValStatus v');
  st_exit : ∀ b, ExitBlock v = Some b → ExitBlock v' = Some b;
  st_own : ownVET v' = ownVET v;
  st_cool : ∀ b, ExitBlock v = Some b →
    LockedVET v' + CooldownVET v' = LockedVET v + CooldownVET v;
}.

#[export] Instance settles_preorder : PreOrder settles.
Proof.
  split; [by intros v|]. intros v1 v2 v3 [? ? ? He ? H1] [? ? ? ? ? H2].
  split; try congruence; [lia|auto|]. intros b Hb. rewrite (H2 b (He b Hb)). eauto.
Qed.

Record settled (x x' : View) : Prop := {
  se_vals : ∀ a, option_Forall2 settles (vVals x !! a) (vVals x' !! a);
  se_dels : vDels x' = vDels x;
  se_id : vNextID x' = vNextID x;
}.

#[export] Instance settled_preorder : PreOrder settled.
Proof.
  split; [by intros x|]. intros x1 x2 x3 [H1 ? ?] [H2 ? ?]. split; try congruence.
  intros a. specialize (H1 a). specialize (H2 a). destruct H1; inversion H2; constructor. by etransitivity.
Qed.

Lemma settled_set x x' a v v' :
  vVals x !! a = Some v → settles v v' → vVals x' = <[a := v']> (vVals x) →
  vDels x' = vDels x → vNextID x' = vNextID x → settled x x'.
Proof.
  intros Ha Hv HV ? ?. split; try done. intros b. rewrite HV, lookup_insert.
  case_decide as E; [|done]. subst b. rewrite Ha. by constructor.
Qed.

(** ** Sums over validators *)

(** What an optional record contributes to a sum. *)
Definition contrib (F : Validation → Aggregation → Z) (ov : option Validation)
    (g : Aggregation) : Z := from_option (λ v, F v g) 0 ov.

(** Two delegation maps that agree except on delegations to [a]. *)
Definition del_frame (a : Address) (D D' : gmap Z Delegation) : Prop :=
  D' = D ∨ ∃ id d', D' = <[id := d']> D ∧ DelValidation d' = a ∧
    ∀ d, D !! id = Some d → DelValidation d = a.

Lemma vsum_update F V G G' a v' :
  (∀ b, b ≠ a → aggOf G' b = aggOf G b) →
  vsum F (<[a := v']> V) G' =
    vsum F V G - contrib F (V !! a) (aggOf G a) + F v' (aggOf G' a).
Proof.
  intros HG. unfold vsum, contrib.
  assert (∀ m : gmap Address Validation, m !! a = None →
    msum (λ b v, F v (aggOf G' b)) m = msum (λ b v, F v (aggOf G b)) m) as Hext.
  { intros m Hm. apply msum_ext. intros b v Hb. rewrite HG; [done|congruence]. }
  destruct (V !! a) as [v|] eqn:Ha; simpl.
  - rewrite <- insert_delete_eq, msum_insert_None by apply lookup_delete_eq.
    rewrite Hext by apply lookup_delete_eq. rewrite (msum_lookup _ V a v Ha). lia.
  - rewrite msum_insert_None, Hext by done. lia.
Qed.

Lemma vsum_le F1 F2 V G :
  (∀ a v, V !! a = Some v → F1 v (aggOf G a) ≤ F2 v (aggOf G a)) →
  vsum F1 V G ≤ vsum F2 V G.
Proof. intros H. by apply msum_le. Qed.

Lemma vsum_ge F V G a v :
  (∀ a v, V !! a = Some v → 0 ≤ F v (aggOf G a)) → V !! a = Some v →
  0 ≤ F v (aggOf G a) ≤ vsum F V G.
Proof.
  intros H Ha. split; [eauto|]. apply (msum_ge (λ a v, F v (aggOf G a)) V a v); auto.
Qed.

(** A change at one validator moves every counter by the change of its share. *)
Lemma acct_step x x' a v' :
  let ov := vVals x !! a in
  let g := aggOf (vAggs x) a in
  let g' := aggOf (vAggs x') a in
  acct x → vVals x' = <[a := v']> (vVals x) →
  (∀ b, b ≠ a → aggOf (vAggs x') b = aggOf (vAggs x) b) →
  queued (vStats x') = queued (vStats x) - contrib vQueued ov g + vQueued v' g' →
  VET (lockedOf (vStats x')) =
    VET (lockedOf (vStats x)) - contrib vLocked ov g + vLocked v' g' →
  Weight (lockedOf (vStats x')) =
    Weight (lockedOf (vStats x)) - contrib vWeight ov g + vWeight v' g' →
  cooldown (vStats x') = cooldown (vStats x) - contrib vCooldown ov g + vCooldown v' g' →
  withdrawable (vStats x') =
    withdrawable (vStats x) - contrib vFree ov g + vFree v' g'
      + (dsum (vDels x') - dsum (vDels x)) →
  acct x'.
Proof.
  intros ov g g' [H1 H2 H3 H4 H5] HV HG E1 E2 E3 E4 E5.
  split; rewrite HV, (vsum_update _ _ _ _ _ _ HG); fold ov g g'; lia.
Qed.

(** ** Sums over delegations *)

Lemma wsum_insert_None P D id d : D !! id = None →
  wsum P (<[id := d]> D) =
    ws_add (if P d then Delegation_WeightedStake d else WS0) (wsum P D).
Proof.
  intros Hd. unfold wsum, ws_add. simpl. rewrite !msum_insert_None by done.
  destruct (P d); simpl; f_equal; lia.
Qed.

Lemma wsum_insert_Some P D id d d' : D !! id = Some d →
  wsum P (<[id := d']> D) =
    ws_add (ws_sub (wsum P D) (if P d then Delegation_WeightedStake d else WS0))
      (if P d' then Delegation_WeightedStake d' else WS0).
Proof.
  intros Hd. unfold wsum, ws_add, ws_sub. simpl.
  rewrite !(msum_insert_Some _ _ _ _ _ Hd).
  destruct (P d), (P d'); simpl; f_equal; lia.
Qed.

Lemma wsum_ext P P' D : (∀ id d, D !! id = Some d → P d = P' d) → wsum P D = wsum P' D.
Proof.
  intros H. unfold wsum. f_equal; apply msum_ext; intros id d Hd; by rewrite (H id d Hd).
Qed.

Lemma wsum_zero P D : (∀ id d, D !! id = Some d → P d = false) → wsum P D = WS0.
Proof.
  intros H. unfold wsum, WS0. f_equal; erewrite msum_ext, msum_zero; try done;
    intros id d Hd; simpl; by rewrite (H id d Hd).
Qed.

Lemma dsum_insert_None D id d : D !! id = None → dsum (<[id := d]> D) = Stake d + dsum D.
Proof. apply msum_insert_None. Qed.

Lemma dsum_insert_Some D id d d' : D !! id = Some d →
  dsum (<[id := d']> D) = dsum D - Stake d + Stake d'.
Proof. apply (msum_insert_Some (λ _ d, Stake d)). Qed.

Lemma delsOf_other a v t c d : DelValidation d ≠ a → delsOf a v t c d = false.
Proof. intros H. unfold delsOf. by apply Z.eqb_neq in H as ->. Qed.

Lemma delsOf_same a v t c d : DelValidation d = a → delsOf a v t c d = c (classify v t d).
Proof. intros <-. unfold delsOf. by rewrite Z.eqb_refl. Qed.

(** The aggregation of [b] does not depend on delegations to others. *)
Lemma aggSpec_frame a b D D' v t :
  del_frame a D D' → b ≠ a → aggSpec D' b v t = aggSpec D b v t.
Proof.
  intros [->|(id & d' & -> & Hd' & Hd)] Hne; [done|]. unfold aggSpec.
  assert (∀ c, wsum (delsOf b v t c) (<[id := d']> D) = wsum (delsOf b v t c) D) as H.
  { intros c. destruct (D !! id) as [d|] eqn:Ed.
    - rewrite (wsum_insert_Some _ _ _ _ _ Ed), !delsOf_other by (rewrite ?Hd', ?(Hd d eq_refl); congruence).
      apply ws_eq; simpl; lia.
    - rewrite (wsum_insert_None _ _ _ _ Ed), delsOf_other by congruence. apply ws_eq; simpl; lia. }
  by rewrite !H.
Qed.

Lemma del_frame_lookup a D D' id d :
  del_frame a D D' → DelValidation d ≠ a → (D' !! id = Some d ↔ D !! id = Some d).
Proof.
  intros [->|(id' & d' & -> & Hd' & Hd)] Hne; [done|].
  destruct (decide (id' = id)) as [->|Hi].
  - rewrite lookup_insert_eq. split; [naive_solver|]. intros H%Hd. congruence.
  - by rewrite lookup_insert_ne.
Qed.

(** ** Locality *)
Section locality.
Context `{CFG : Config}.

Lemma status_ok_iff v g t (P P' : Prop) : (P ↔ P') → status_ok v g t P → status_ok v g t P'.
Proof.
  intros HP. unfold status_ok. destruct (ValStatus v); try done.
  intros [? ? ? ? ? ? ? He]. split; try done. destruct (ExitBlock v); [done|]. tauto.
Qed.

(** What other validators do does not matter to [b]. *)
Lemma local_frame x x' t a b :
  local x t b → b ≠ a → vVals x' !! b = vVals x !! b →
  (b ∈ vA x' ↔ b ∈ vA x) → (b ∈ vQ x' ↔ b ∈ vQ x) → (b ∈ vR x' ↔ b ∈ vR x) →
  aggOf (vAggs x') b = aggOf (vAggs x) b → del_frame a (vDels x) (vDels x') →
  (b ≠ 0 → ∀ k, exitOf x' k = b ↔ exitOf x k = b) →
  local x' t b.
Proof.
  intros Hl Hne HV HA HQ HR HG HD HX. unfold local in *. rewrite HV.
  assert (∀ id d, vDels x' !! id = Some d → DelValidation d = b → vDels x !! id = Some d) as HD'.
  { intros id d Hd Hb. apply (del_frame_lookup a _ (vDels x')); [done|congruence|done]. }
  destruct (vVals x !! b) as [v|].
  - destruct Hl as [? ? ? ? ? Hok ? Hag ? ?]. split.
    + done.
    + by rewrite HA.
    + by rewrite HQ.
    + by rewrite HR.
    + done.
    + rewrite HG. eapply status_ok_iff; [|done]. by rewrite HR.
    + eauto.
    + by rewrite HG, Hag, (aggSpec_frame a b (vDels x) (vDels x')).
    + intros. apply HX; auto.
    + intros k Hk Hx. apply HX in Hx; auto.
  - destruct Hl as [? ? ? ? Hn Hs]. split; [congruence|tauto..| |].
    + intros id d Hd Hb. eapply Hn; eauto.
    + intros k Hk Hx. destruct (decide (b = 0)); [done|]. apply HX in Hx; eauto.
Qed.

(** One validator changes. *)
Lemma Inv_step clk clk' x x' a v' :
  Inv clk x → vVals x' = <[a := v']> (vVals x) →
  (∀ b, b ≠ a → clk' b = clk b ∧ (b ∈ vA x' ↔ b ∈ vA x) ∧ (b ∈ vQ x' ↔ b ∈ vQ x) ∧
    (b ∈ vR x' ↔ b ∈ vR x) ∧ aggOf (vAggs x') b = aggOf (vAggs x) b) →
  del_frame a (vDels x) (vDels x') →
  (∀ b, b ≠ 0 → b ≠ a → ∀ k, exitOf x' k = b ↔ exitOf x k = b) →
  vlocal x' (clk' a) a v' → acct x' → gs_total (vStats x') ≤ MaxSupply →
  (∀ id d, vDels x' !! id = Some d → 0 < id ≤ vNextID x') → 0 ≤ vNextID x' →
  Inv clk' x'.
Proof.
  intros HI HV Hoth HD HX Hl Ha Hs Hids Hid. split; try done. intros b.
  destruct (decide (b = a)) as [->|Hne].
  - unfold local. by rewrite HV, lookup_insert_eq.
  - destruct (Hoth b Hne) as (-> & ? & ? & ? & ?).
    eapply local_frame; [apply HI|try done..]; [|auto].
    by rewrite HV, lookup_insert_ne.
Qed.
End locality.

(** ** Bounds *)

(** The stake of [d] that the aggregations count. *)
Definition heldStake (clk : Address → Z) (V : gmap Address Validation) (d : Delegation) : Z :=
  from_option (λ v, let c := classify v (clk (DelValidation d)) d in
    if is_locked c || is_pending c then Stake d else 0) 0 (V !! DelValidation d).

Ltac consts := unfold MaxStakeVET, MinStakeVET, MaxSupply in *.

Lemma wsum_bounds P D :
  (∀ id d, D !! id = Some d → P d = true → 0 ≤ Stake d < 2 ^ 56 ∧ 0 ≤ DelMultiplier d < 256) →
  0 ≤ VET (wsum P D) ∧ 0 ≤ Weight (wsum P D) ≤ 3 * VET (wsum P D).
Proof.
  intros H. unfold wsum. simpl.
  assert (∀ id d, D !! id = Some d → P d = true →
    0 ≤ calcWeight (Stake d) (DelMultiplier d) ≤ 3 * Stake d) as Hc.
  { intros id d Hd HP. destruct (H id d Hd HP). by apply calcWeight_bounds. }
  split; [|split].
  - apply msum_nonneg. intros id d Hd. destruct (P d) eqn:E; [|lia]. by apply (H id d).
  - apply msum_nonneg. intros id d Hd. destruct (P d) eqn:E; [|lia]. by apply (Hc id d).
  - assert (3 * msum (λ _ d, if P d then Stake d else 0) D =
      msum (λ _ d, if P d then 3 * Stake d else 0) D) as ->.
    { clear. induction D as [|id d D Hd IH] using map_ind; [by rewrite !msum_empty|].
      rewrite !msum_insert_None by done. destruct (P d); lia. }
    apply msum_le. intros id d Hd. destruct (P d) eqn:E; [|lia]. by apply (Hc id d).
Qed.

Lemma wsum_mono P P' D :
  (∀ id d, D !! id = Some d → P' d = true →
    0 ≤ Stake d ∧ 0 ≤ calcWeight (Stake d) (DelMultiplier d)) →
  (∀ d, P d = true → P' d = true) →
  ws_le (wsum P D) (wsum P' D).
Proof.
  intros H Himp. unfold wsum, ws_le; simpl. split; apply msum_le; intros id d Hd;
    destruct (P d) eqn:E; [rewrite (Himp d E); lia| |rewrite (Himp d E); lia|];
    destruct (P' d) eqn:E'; try lia; by apply (H id d).
Qed.

Section bounds.
Context `{CFG : Config}.

Lemma delsOf_true a v t c d : delsOf a v t c d = true →
  DelValidation d = a ∧ c (classify v t d) = true.
Proof. unfold delsOf. rewrite andb_true_iff, Z.eqb_eq. done. Qed.

(** The shape of an aggregation, from the delegations it sums. *)
Record agg_facts (g : Aggregation) : Prop := {
  af_locked : 0 ≤ VET (Locked g) ∧ 0 ≤ Weight (Locked g) ≤ 3 * VET (Locked g);
  af_pending : 0 ≤ VET (Pending g) ∧ 0 ≤ Weight (Pending g) ≤ 3 * VET (Pending g);
  af_exiting : 0 ≤ VET (Exiting g) ∧ 0 ≤ Weight (Exiting g) ≤ 3 * VET (Exiting g);
  af_le : ws_le (Exiting g) (Locked g);
}.

Lemma vlocal_agg_facts x t a v : vlocal x t a v → agg_facts (aggOf (vAggs x) a).
Proof.
  intros Hl. rewrite (l_agg _ _ _ _ Hl).
  assert (∀ c id d, vDels x !! id = Some d → delsOf a v t c d = true →
    0 ≤ Stake d < 2 ^ 56 ∧ 0 ≤ DelMultiplier d < 256) as Hd.
  { intros c id d Hd [Ha _]%delsOf_true. destruct (l_dels _ _ _ _ Hl id d Hd Ha). consts. lia. }
  split; [apply wsum_bounds; eauto..|]. apply wsum_mono.
  - intros id d Hid HP. destruct (Hd _ id d Hid HP). split; [lia|].
    by apply calcWeight_bounds.
  - intros d [? Hc]%delsOf_true. rewrite delsOf_same by done. unfold is_locked. rewrite Hc.
    apply orb_true_r.
Qed.

Lemma agg_new_facts : agg_facts newAggregation.
Proof. split; simpl; try split; simpl; lia. Qed.

Lemma Inv_vlocal clk x a v : Inv clk x → vVals x !! a = Some v → vlocal x (clk a) a v.
Proof. intros HI Ha. pose proof (inv_local _ _ HI a) as H. unfold local in H. by rewrite Ha in H. Qed.

Lemma Inv_vnone clk x a : Inv clk x → vVals x !! a = None → vnone x (clk a) a.
Proof. intros HI Ha. pose proof (inv_local _ _ HI a) as H. unfold local in H. by rewrite Ha in H. Qed.

Lemma vlocal_queued x t a v : vlocal x t a v → ValStatus v = StatusQueued →
  Locked (aggOf (vAggs x) a) = WS0 ∧ Exiting (aggOf (vAggs x) a) = WS0.
Proof.
  intros Hl Hs. rewrite (l_agg _ _ _ _ Hl). simpl. split; apply wsum_zero; intros id d Hd;
    unfold delsOf, classify; rewrite Hs; apply andb_false_r.
Qed.

Lemma vlocal_exited x t a v : vlocal x t a v → ValStatus v = StatusExit →
  aggOf (vAggs x) a = newAggregation.
Proof.
  intros Hl Hs. rewrite (l_agg _ _ _ _ Hl). unfold aggSpec, newAggregation.
  f_equal; apply wsum_zero; intros id d Hd;
    unfold delsOf, classify; rewrite Hs; apply andb_false_r.
Qed.

(** Every amount of a record is in range. *)
Record amounts_ok (v : Validation) (g : Aggregation) : Prop := {
  am_nonneg : 0 ≤ LockedVET v ∧ 0 ≤ QueuedVET v ∧ 0 ≤ CooldownVET v ∧
    0 ≤ WithdrawableVET v ∧ 0 ≤ PendingUnlockVET v;
  am_weight : 0 ≤ ValWeight v ≤ 3 * vLocked v g;
  am_max : vLocked v g ≤ MaxStakeVET ∧ vQueued v g ≤ MaxStakeVET ∧
    PendingUnlockVET v ≤ LockedVET v;
}.

Lemma status_amounts v g t P : agg_facts g →
  (ValStatus v = StatusQueued → Locked g = WS0) →
  (ValStatus v = StatusExit → g = newAggregation) →
  status_ok v g t P → amounts_ok v g.
Proof.
  intros Hg Hq He Hok. destruct Hg as [[? ?] [? ?] [? ?] [? ?]]. unfold status_ok in Hok.
  destruct (ValStatus v); [done|..].
  - destruct Hok. rewrite Hq in * by done. simpl in *.
    split; unfold vLocked, vQueued; rewrite ?Hq by done; simpl; consts; lia.
  - destruct Hok as [_ ? ? Hmin Hmax ? (m & Hm & Hw & _) _].
    assert (0 ≤ calcWeight (LockedVET v) m ≤ 2 * LockedVET v).
    { unfold Multiplier, MultiplierWithDelegations in Hm.
      consts. destruct Hm as [->| ->]; [rewrite calcWeight_100|rewrite calcWeight_200]; lia. }
    split; unfold vLocked, vQueued; consts; lia.
  - destruct Hok. rewrite He by done. split; unfold vLocked, vQueued; simpl; consts; lia.
Qed.

Lemma vlocal_amounts x t a v : vlocal x t a v → amounts_ok v (aggOf (vAggs x) a).
Proof.
  intros Hl. eapply status_amounts; [by eapply vlocal_agg_facts|..|apply Hl].
  - intros. by eapply vlocal_queued.
  - by eapply vlocal_exited.
Qed.
End bounds.

Section global_bounds.
Context `{CFG : Config} {clk : Address → Z} {x : View} (HI : Inv clk x).

(** What the aggregations count as locked or pending is the held stake of the
    delegations. *)
Lemma vsum_held :
  vsum (λ _ g, VET (Locked g) + VET (Pending g)) (vVals x) (vAggs x) =
  msum (λ _ d, heldStake clk (vVals x) d) (vDels x).
Proof.
  unfold vsum, heldStake.
  rewrite <- (msum_exchange DelValidation (λ a v d, let c := classify v (clk a) d in
    if is_locked c || is_pending c then Stake d else 0)).
  apply msum_ext. intros a v Ha. rewrite (l_agg _ _ _ _ (Inv_vlocal _ _ _ _ HI Ha)). simpl.
  rewrite <- msum_add. apply msum_ext. intros id d _. unfold delsOf.
  destruct (Z.eqb_spec (DelValidation d) a) as [<-|Hne].
  - rewrite decide_True by done. simpl.
    destruct (classify v _ d); simpl; lia.
  - rewrite decide_False by done. done.
Qed.

Lemma withdrawable_split :
  withdrawable (vStats x) = vsum (λ v _, WithdrawableVET v) (vVals x) (vAggs x) +
    msum (λ _ d, Stake d - heldStake clk (vVals x) d) (vDels x).
Proof.
  rewrite msum_sub, <- vsum_held, (acct_free _ (inv_acct _ _ HI)).
  assert (vsum vFree (vVals x) (vAggs x) =
    vsum (λ v _, WithdrawableVET v) (vVals x) (vAggs x) -
    vsum (λ _ g, VET (Locked g) + VET (Pending g)) (vVals x) (vAggs x)) as ->.
  { unfold vsum, vFree. rewrite <- msum_sub. apply msum_ext. intros. lia. }
  unfold dsum. lia.
Qed.

Lemma del_lookup id d : vDels x !! id = Some d →
  ∃ v, vVals x !! DelValidation d = Some v ∧ del_ok v (clk (DelValidation d)) d.
Proof.
  intros Hd. destruct (vVals x !! DelValidation d) as [v|] eqn:Hv.
  - exists v. split; [done|]. by apply (l_dels _ _ _ _ (Inv_vlocal _ _ _ _ HI Hv) id d).
  - by destruct (n_dels _ _ _ (Inv_vnone _ _ _ HI Hv) id d).
Qed.

Lemma heldStake_range id d : vDels x !! id = Some d →
  0 ≤ heldStake clk (vVals x) d ≤ Stake d.
Proof.
  intros Hd. destruct (del_lookup id d Hd) as (v & Hv & Hok). unfold heldStake.
  rewrite Hv. simpl. destruct Hok. destruct (_ || _); lia.
Qed.

(** A validator's share of each counter. *)
Record shares (v : Validation) (g : Aggregation) : Prop := {
  sh_queued : vQueued v g ≤ queued (vStats x);
  sh_locked : vLocked v g ≤ VET (lockedOf (vStats x));
  sh_weight : ValWeight v ≤ Weight (lockedOf (vStats x));
  sh_cooldown : CooldownVET v ≤ cooldown (vStats x);
  sh_withdrawable : WithdrawableVET v ≤ withdrawable (vStats x);
}.

Lemma val_amounts a v : vVals x !! a = Some v →
  agg_facts (aggOf (vAggs x) a) ∧ amounts_ok v (aggOf (vAggs x) a).
Proof.
  intros Ha. pose proof (Inv_vlocal _ _ _ _ HI Ha).
  split; [by eapply vlocal_agg_facts|by eapply vlocal_amounts].
Qed.

Ltac val_lia := intros b w Hb; destruct (val_amounts b w Hb) as [[] []];
  unfold vQueued, vLocked, vWeight, vCooldown in *; lia.

Lemma free_nonneg : 0 ≤ msum (λ _ d, Stake d - heldStake clk (vVals x) d) (vDels x).
Proof. apply msum_nonneg. intros id d Hd. pose proof (heldStake_range id d Hd). lia. Qed.

Lemma Inv_shares a v : vVals x !! a = Some v → shares v (aggOf (vAggs x) a).
Proof.
  intros Ha. pose proof free_nonneg. destruct (inv_acct _ _ HI) as [Hq Hl Hw Hc _].
  split; rewrite ?Hq, ?Hl, ?Hw, ?Hc, ?withdrawable_split.
  - apply (vsum_ge vQueued); [val_lia|done].
  - apply (vsum_ge vLocked); [val_lia|done].
  - apply (vsum_ge vWeight _ (vAggs x) a); [val_lia|done].
  - apply (vsum_ge vCooldown _ (vAggs x) a); [val_lia|done].
  - assert (WithdrawableVET v ≤ vsum (λ v _, WithdrawableVET v) (vVals x) (vAggs x)); [|lia].
    apply (vsum_ge (λ v _, WithdrawableVET v) _ (vAggs x) a); [val_lia|done].
Qed.

(** The counters are in range, and the locked weight at most thrice the VET. *)
Record stats_ok (g : GlobalStats) : Prop := {
  so_nonneg : 0 ≤ VET (lockedOf g) ∧ 0 ≤ queued g ∧ 0 ≤ withdrawable g ∧ 0 ≤ cooldown g;
  so_weight : 0 ≤ Weight (lockedOf g) ≤ 3 * VET (lockedOf g);
  so_total : gs_total g ≤ MaxSupply;
}.

Lemma Inv_stats : stats_ok (vStats x).
Proof.
  pose proof free_nonneg. destruct (inv_acct _ _ HI) as [Hq Hl Hw Hc _].
  split; [split_and!|split|apply HI]; rewrite ?Hq, ?Hl, ?Hw, ?Hc, ?withdrawable_split.
  - apply msum_nonneg. val_lia.
  - apply msum_nonneg. val_lia.
  - assert (0 ≤ vsum (λ v _, WithdrawableVET v) (vVals x) (vAggs x)); [|lia].
    apply msum_nonneg. val_lia.
  - apply msum_nonneg. val_lia.
  - apply msum_nonneg. val_lia.
  - assert (3 * vsum vLocked (vVals x) (vAggs x) =
      vsum (λ v g, vLocked v g + vLocked v g + vLocked v g) (vVals x) (vAggs x)) as ->.
    { unfold vsum. rewrite !msum_add. lia. }
    apply vsum_le. val_lia.
Qed.

Lemma stats_gs_ok g : stats_ok g → gs_ok g.
Proof.
  intros [? ? ?]. unfold gs_total in *. consts.
  split_and!; [split|..]; ulia.
Qed.

(** A delegation that is neither pending nor locked is withdrawable. *)
Lemma free_withdrawable id d : vDels x !! id = Some d →
  heldStake clk (vVals x) d = 0 → Stake d ≤ withdrawable (vStats x).
Proof.
  intros Hd Hh. rewrite withdrawable_split.
  assert (0 ≤ vsum (λ v _, WithdrawableVET v) (vVals x) (vAggs x))
    by (apply msum_nonneg; val_lia).
  pose proof (msum_ge (λ _ d, Stake d - heldStake clk (vVals x) d) (vDels x) id d).
  simpl in *. rewrite Hh in *.
  assert (Stake d - 0 ≤ msum (λ _ d, Stake d - heldStake clk (vVals x) d) (vDels x)); [|lia].
  apply H0; [|done]. intros id' d' Hd'. pose proof (heldStake_range id' d' Hd'). lia.
Qed.

Lemma active_lookup a : a ∈ vA x → ∃ v, vVals x !! a = Some v ∧ ValStatus v = StatusActive.
Proof.
  intros Ha. pose proof (inv_local _ _ HI a) as Hl. unfold local in Hl.
  destruct (vVals x !! a) as [v|]; [|by destruct (n_active _ _ _ Hl)].
  exists v. split; [done|]. by apply (l_active _ _ _ _ Hl).
Qed.

Lemma queued_lookup a : a ∈ vQ x → ∃ v, vVals x !! a = Some v ∧ ValStatus v = StatusQueued.
Proof.
  intros Ha. pose proof (inv_local _ _ HI a) as Hl. unfold local in Hl.
  destruct (vVals x !! a) as [v|]; [|by destruct (n_queued _ _ _ Hl)].
  exists v. split; [done|]. by apply (l_queued _ _ _ _ Hl).
Qed.

(** The minimum stake bounds the lengths of the lists. *)
Lemma active_count : NoDup (vA x) → (length (vA x) ≤ 4000)%nat.
Proof.
  intros Hnd. destruct Inv_stats as [? _ Ht]. unfold gs_total in Ht.
  assert (MinStakeVET * Z.of_nat (length (vA x)) ≤ VET (lockedOf (vStats x))).
  { rewrite (acct_locked _ (inv_acct _ _ HI)). apply msum_ge_list; [val_lia|done|].
    intros a Ha. destruct (active_lookup a Ha) as (v & Hv & Hs). exists v. split; [done|].
    destruct (val_amounts a v Hv) as [[] []]. unfold vLocked in *.
    pose proof (l_ok _ _ _ _ (Inv_vlocal _ _ _ _ HI Hv)) as Hok. unfold status_ok in Hok.
    rewrite Hs in Hok. destruct Hok. lia. }
  consts. lia.
Qed.

Lemma queued_count : NoDup (vQ x) → (length (vQ x) ≤ 4000)%nat.
Proof.
  intros Hnd. destruct Inv_stats as [? _ Ht]. unfold gs_total in Ht.
  assert (MinStakeVET * Z.of_nat (length (vQ x)) ≤ queued (vStats x)).
  { rewrite (acct_queued _ (inv_acct _ _ HI)). apply msum_ge_list; [val_lia|done|].
    intros a Ha. destruct (queued_lookup a Ha) as (v & Hv & Hs). exists v. split; [done|].
    destruct (val_amounts a v Hv) as [[] []]. unfold vQueued in *.
    pose proof (l_ok _ _ _ _ (Inv_vlocal _ _ _ _ HI Hv)) as Hok. unfold status_ok in Hok.
    rewrite Hs in Hok. destruct Hok. lia. }
  consts. lia.
Qed.
End global_bounds.
