(* ===== verification/StakerOps.v ===== *)
(** * The staker's user operations keep the invariant

    For every operation a user can call, an abstract counterpart on views and
    the theorem that the operation implements it: from a state satisfying the
    invariant the call either reverts or returns, and then the new state is
    the abstract one and satisfies the invariant again.  No call ends in an
    internal error, which the native layer would turn into a panic. *)

From S2P Require Import Prelude Thor Stakes GlobalStats Aggregation Validation Delegation.
From S2P Require Import Storage LinkedList RenewalList Repository ValidationService Staker.
From S2P Require Import StakerInv.

(** Block numbers considered: half of the 32-bit range. *)
Definition block_ok (now : Z) : Prop := 0 ≤ now < 2 ^ 31.

(** ** Abstract operations *)

Definition newValidation (endorser : Address) (period stake : Z) : Validation :=
  {| Endorser := endorser; Beneficiary := None; Period := period; CompletedPeriods := 0;
     ValStatus := StatusQueued; StartBlock := 0; ExitBlock := None; OfflineBlock := None;
     LockedVET := 0; PendingUnlockVET := 0; QueuedVET := stake; CooldownVET := 0;
     WithdrawableVET := 0; ValWeight := 0; Prev := None; Next := None |}.

Definition abs_AddValidation (a e : Address) (p st : Z) (x : View) : View :=
  x <| vVals := <[a := newValidation e p st]> (vVals x) |>
    <| vQ := vQ x ++ [a] |>
    <| vStats := (vStats x) <| queued := queued (vStats x) + st |> |>.

(** ** What the operations admit

    The conditions under which the requests are granted, on the view. *)

(** The stake on a validator after the next renewal. *)
Definition nextTVL (v : Validation) (g : Aggregation) : Z :=
  LockedVET v + QueuedVET v - PendingUnlockVET v +
  (VET (Locked g) + VET (Pending g) - VET (Exiting g)).

(** [e] endorses [a], and the record of [a] satisfies [P]. *)
Definition endorsed (x : View) (a e : Address) (P : Validation → Prop) : Prop :=
  ∃ v, vVals x !! a = Some v ∧ Endorser v = e ∧ P v.

(** Active, and staying so. *)
Definition running (v : Validation) : Prop := ValStatus v = StatusActive ∧ ExitBlock v = None.

Definition can_AddValidation `{CFG : Config} (a : Address) (p st : Z) (x : View) : Prop :=
  MinStakeVET ≤ st ≤ MaxStakeVET ∧ a ≠ 0 ∧ vVals x !! a = None ∧ period_ok p.

Definition can_IncreaseStake (a e : Address) (n : Z) (x : View) : Prop :=
  endorsed x a e (λ v, running v ∧ nextTVL v (aggOf (vAggs x) a) + n ≤ MaxStakeVET).

Definition can_DecreaseStake (a e : Address) (n : Z) (x : View) : Prop :=
  endorsed x a e (λ v, running v ∧ n ≤ MaxStakeVET - MinStakeVET ∧
    MinStakeVET ≤ LockedVET v - PendingUnlockVET v - n).

Definition can_SetBeneficiary (a e : Address) (x : View) : Prop :=
  endorsed x a e (λ v, ValStatus v ≠ StatusExit ∧ ExitBlock v = None).

(** One of the next 20 epochs from the end of the running period is free. *)
Definition can_SignalExit `{CFG : Config} (now : Z) (a e : Address) (x : View) : Prop :=
  endorsed x a e (λ v, running v ∧ ∃ i, (i < exitMaxTry)%nat ∧
    exitOf x (probe (StartBlock v + Period v * iter v now) i) = 0).

Definition can_WithdrawStake (a e : Address) (x : View) : Prop := endorsed x a e (λ _, True).

(** ** Shared steps *)
Section shared.
Context `{CFG : Config} (OK : config_ok CFG).

Lemma period_pos p : period_ok p → 0 < p < 2 ^ 24.
Proof. destruct OK. intros [->|[->| ->]]; done. Qed.

Lemma period_epochs p : period_ok p → (EpochLength | p).
Proof. destruct OK. intros [->|[->| ->]]; done. Qed.

(** [CurrentIteration] is [iter] and never fails. *)
Lemma CurrentIteration_iter x t a v : vlocal x t a v → block_ok t →
  CurrentIteration v t = Ok (iter v t) ∧ 0 ≤ iter v t < max32.
Proof.
  intros Hl Ht. pose proof (l_ok _ _ _ _ Hl) as Hok.
  destruct (period_pos _ (l_period _ _ _ _ Hl)) as [Hp1 Hp2].
  unfold CurrentIteration, iter, status_ok in *. destruct (ValStatus v); simpl; [done| | |].
  - split; [done|]. ulia.
  - destruct Hok as [[Hst _] _ _ _ _ _ _ Hex].
    destruct (Z.ltb_spec 0 (CompletedPeriods v)).
    + split; [done|]. destruct (ExitBlock v); ulia.
    + assert (0 ≤ (t - StartBlock v) / Period v ≤ t - StartBlock v).
      { split; [apply Z.div_pos; lia|]. apply Z.div_le_upper_bound; nia. }
      unfold block_ok in Ht. unwrap.
      destruct (Z.ltb_spec t (StartBlock v)); [lia|].
      destruct (Z.eqb_spec (Period v) 0); [lia|]. split; [done|ulia].
  - destruct Hok. split; [done|]. lia.
Qed.
End shared.

Section balance_check.
Context `{SMS : SafeMathSpec} `{CFG : Config}.

Lemma sumCounters_ok acc l :
  0 ≤ acc → (∀ z, z ∈ l → 0 ≤ z) → acc + foldr Z.add 0 l < max64 →
  sumCounters acc l = Ok (acc + foldr Z.add 0 l).
Proof.
  revert acc. induction l as [|z l IH]; intros acc Ha Hl Hs; simpl in *.
  { by rewrite Z.add_0_r. }
  assert (0 ≤ z) by (apply Hl; set_solver).
  assert (0 ≤ foldr Z.add 0 l).
  { clear -Hl. induction l as [|y l IH]; simpl; [done|].
    assert (0 ≤ y) by (apply Hl; set_solver).
    assert (0 ≤ foldr Z.add 0 l) by (apply IH; set_solver). lia. }
  destruct (SafeAdd_cases acc z) as [[_ ->]|[? _]]; [ulia|ulia| |ulia].
  rewrite IH; [f_equal; lia|lia| |lia]. set_solver.
Qed.

Lemma ToVET_ok n : 0 ≤ n ≤ ToWei MaxSupply → ToVET n = Ok (n / bigE18).
Proof.
  intros Hn. unfold ToVET. destruct (Z.ltb_spec n 0); [lia|].
  destruct (Z.leb_spec max64 (n / bigE18)) as [H1|H1]; [|done].
  assert (n / bigE18 ≤ MaxSupply).
  { apply Z.div_le_upper_bound; [done|]. unfold ToWei in Hn. lia. }
  consts. ulia.
Qed.

#[local] Arguments sumCounters : simpl never.

(** The balance check succeeds when the contract is funded. *)
Lemma wp_ContractBalanceCheck pw (P : unit → Staker → Prop) R s :
  stats_ok (globalStatsService s) → funded s pw →
  P tt s → wp (ContractBalanceCheck pw) P R s.
Proof.
  intros [(?&?&?&?) ? ?] [Hd He Hb] HP.
  assert (effectiveVET s / bigE18 = gs_total (globalStatsService s) + pw) as Hq
    by (rewrite He; by apply Z.div_mul).
  assert (gs_total (globalStatsService s) + pw ≤ MaxSupply) as Hsup.
  { rewrite <- Hq. apply Z.div_le_upper_bound; [done|]. unfold ToWei in Hb. lia. }
  assert (0 ≤ effectiveVET s).
  { rewrite He. unfold ToWei, gs_total, bigE18. lia. }
  unfold ContractBalanceCheck, GetLockedStake, GetQueuedStake, GetWithdrawableStake,
    GetCooldownStake, GetEffectiveVET. unfold gs_total in *. consts.
  do 2 wp_step. wp_step. apply wp_getLocked. repeat (wp_step; simpl).
  rewrite sumCounters_ok; simpl;
    [|lia|intros z Hz; rewrite !elem_of_cons, elem_of_nil in Hz; naive_solver lia|ulia].
  repeat (wp_step; simpl). rewrite ToVET_ok by (consts; lia).
  repeat (wp_step; simpl). rewrite ToVET_ok by (consts; lia).
  repeat (wp_step; simpl).
  - assert (effectiveVET s / bigE18 ≤ balance s / bigE18) by (apply Z.div_le_mono; [done|lia]).
    lia.
  - rewrite Hq in *. exfalso. lia.
  - by destruct s as [? [] ? ? ? ? ?].
Qed.
End balance_check.

(** ** Reading the storage *)
Section reads.
Lemma wp_GetValidation a (P : option Validation → Staker → Prop) R s :
  P (validations (storage (validationService s)) !! a) s → wp (GetValidation a) P R s.
Proof.
  intros HP. unfold GetValidation, service_GetValidation, getValidation, storage_getValidation.
  do 3 wp_step. by destruct s as [? ? [[]] ? ? ? ?].
Qed.

Lemma wp_getValidationOrRevert a (P : Validation → Staker → Prop) R s x :
  view_of s x → (vVals x !! a = None → ∀ msg, R (ErrRevert msg)) →
  (∀ v, validations (storage (validationService s)) !! a = Some v →
    vVals x !! a = Some (strip v) → P v s) →
  wp (getValidationOrRevert a) P R s.
Proof.
  intros Hx HR HP. unfold getValidationOrRevert. wp_step. apply wp_GetValidation.
  wp_step; [apply HR; rewrite (repr_lookup _ _ _ _ _ _ (vo_repr _ _ Hx)); by rewrite H|]. apply HP; [done|]. by eapply repr_lookup_Some; [apply Hx|].
Qed.
End reads.

(** The conditions to open when a guard fails. *)
Ltac unfold_can :=
  unfold can_AddValidation, can_IncreaseStake, can_DecreaseStake, can_SetBeneficiary,
    can_SignalExit, can_WithdrawStake, endorsed, running in *.

(** A failed guard contradicts the condition of the request. *)
Ltac refuse :=
  try intros ?; split; [by eexists|]; unfold_can;
  unfold period_ok, IsZero, MinStakeVET, MaxStakeVET in *; intros ?;
  repeat match goal with
  | H : _ ∧ _ |- _ => destruct H as [? ?]
  | H : ∃ _, _ |- _ => destruct H as [? H]
  | H : bool_decide _ = true |- _ => apply bool_decide_eq_true in H
  | H : _ || _ = true |- _ => apply orb_true_iff in H as [H|H]
  | H : _ && _ = true |- _ => apply andb_true_iff in H as [? ?]
  end; simplify_eq/=; try congruence; try lia; try naive_solver.

(** A [reject] with a revert error, as a guard of the rest. *)
Ltac passes H :=
  first [apply wp_bind|idtac]; apply wp_reject; [first [by intros _; eexists|refuse]|intros H].

Lemma bool_decide_is {P} `{Decision P} b : bool_decide P = b → if b then P else ¬ P.
Proof. intros <-. by case_bool_decide. Qed.

Section AddValidation.
Context `{SMS : SafeMathSpec} `{CFG : Config} (OK : config_ok CFG).

Lemma abs_AddValidation_inv now a e p st x :
  Inv (λ _, now) x → vVals x !! a = None → a ≠ 0 → period_ok p →
  MinStakeVET ≤ st ≤ MaxStakeVET → gs_total (vStats x) + st ≤ MaxSupply →
  Inv (λ _, now) (abs_AddValidation a e p st x).
Proof.
  intros HI Ha H0 Hp Hst Hsup. pose proof (Inv_vnone _ _ _ HI Ha) as [Hag HnA HnQ HnR Hnd Hns].
  eapply (Inv_step (λ _, now)) with (a := a); [exact HI|done|..].
  - intros b Hb. simpl. set_solver.
  - by left.
  - done.
  - assert (aggSpec (vDels x) a (newValidation e p st) now = newAggregation) as Hspec.
    { unfold aggSpec, newAggregation. f_equal; apply wsum_zero; intros id d Hd;
        apply delsOf_other; eauto. }
    split; simpl; try done.
    + set_solver.
    + unfold status_ok; simpl. rewrite Hag. split; simpl; try done; lia.
    + intros id d Hd Hda. by destruct (Hnd id d Hd).
    + by rewrite Hspec.
    + intros b Hb Hx. by destruct (H0 (Hns b Hb Hx)).
  - eapply (acct_step x) with (a := a); [apply HI|done|done|..]; simpl; rewrite Ha, ?Hag;
      unfold contrib, vQueued, vLocked, vWeight, vCooldown, vFree, lockedOf; simpl; lia.
  - unfold gs_total, lockedOf in *. simpl. lia.
  - apply HI.
  - apply HI.
Qed.

(** Registering a validator implements [abs_AddValidation]. *)
Lemma wp_AddValidation now a e p st s x :
  view_of s x → Inv (λ _, now) x → funded s st → is64 st →
  wp (AddValidation a e p st) (λ _ s',
    let x' := abs_AddValidation a e p st x in
    can_AddValidation a p st x ∧ view_of s' x' ∧ Inv (λ _, now) x' ∧ funded s' 0)
    (refuses (can_AddValidation a p st x)) s.
Proof.
  intros Hx HI Hf Hst. unfold AddValidation.
  passes H1. passes H2. passes H3. wp_step. apply wp_GetValidation.
  pose proof (repr_lookup _ _ _ _ _ a (vo_repr _ _ Hx)) as Hlk.
  passes H4; [by rewrite Hlk in *; destruct (validations _ !! a)|].
  apply bool_decide_is in H4. passes H5. apply Z.ltb_ge in H1, H2. apply Z.eqb_neq in H3.
  assert (vVals x !! a = None) as Ha.
  { rewrite (repr_lookup _ _ _ _ _ _ (vo_repr _ _ Hx)).
    destruct (validations _ !! a); [by destruct H4|done]. }
  assert (gs_total (vStats x) + st ≤ MaxSupply) as Hsup.
  { destruct Hf as [? He Hb]. rewrite (vo_stats _ _ Hx) in He. unfold ToWei, bigE18 in *. lia. }
  assert (Inv (λ _, now) (abs_AddValidation a e p st x)) as HI'.
  { apply abs_AddValidation_inv; try done. unfold period_ok. lia. }
  pose proof (Inv_vnone _ _ _ HI Ha) as [_ HnA HnQ _ _ _].
  pose proof (stats_gs_ok _ (Inv_stats HI')) as (_ & Hq & _). simpl in Hq.
  do 2 wp_step. unfold service_Add.
  eapply wp_addValidation; [apply Hx|done|done|done|done| |].
  { pose proof (queued_count HI (dll_nodup _ _ (repr_queued _ _ _ _ _ (vo_repr _ _ Hx)))). ulia. }
  intros r' Hr' [Hrw Hex]. do 2 wp_step.
  apply wp_AddQueued; simpl; rewrite (vo_stats _ _ Hx); [done|].
  assert (funded ((s <| validationService := r' |>) <| globalStatsService :=
    (vStats x) <| queued := queued (vStats x) + st |> |>) 0) as Hf'.
  { destruct Hf as [? He Hb]. split; simpl; [done| |done]. rewrite He, (vo_stats _ _ Hx).
    unfold gs_total, lockedOf. simpl. f_equal. lia. }
  eapply wp_ContractBalanceCheck; [apply (Inv_stats HI')|done|].
  split_and!; [split_and!; try done; unfold period_ok; lia| |done|done].
  destruct Hx as [Hr Hxe Hxa Hxs Hxd Hxi]. split; simpl; try done. by rewrite Hex.
Qed.
End AddValidation.

(** ** Updating one record in place *)

(** Appending to the renewal list unless already a member. *)
Definition addR (a : Address) (l : list Address) : list Address :=
  if decide (a = 0 ∨ a ∈ l) then l else l ++ [a].

(** The fields the staking periods depend on. *)
Record same_clock (v v' : Validation) : Prop := {
  sc_status : ValStatus v' = ValStatus v;
  sc_period : Period v' = Period v;
  sc_start : StartBlock v' = StartBlock v;
  sc_completed : CompletedPeriods v' = CompletedPeriods v;
  sc_exit : ExitBlock v' = ExitBlock v;
}.

Lemma elem_of_addR a b l : b ∈ addR a l ↔ b ∈ l ∨ (b = a ∧ a ≠ 0).
Proof. unfold addR. case_decide; set_solver. Qed.

Lemma iter_same_clock v v' t : same_clock v v' → iter v' t = iter v t.
Proof. intros [Hs Hp Hst Hc _]. unfold iter. by rewrite Hs, Hp, Hst, Hc. Qed.

Lemma classify_same_clock v v' t d : same_clock v v' → classify v' t d = classify v t d.
Proof. intros H. unfold classify. by rewrite (iter_same_clock v v' t H), (sc_status _ _ H). Qed.

Lemma aggSpec_same_clock D a v v' t : same_clock v v' → aggSpec D a v' t = aggSpec D a v t.
Proof.
  intros H. unfold aggSpec. f_equal; apply wsum_ext; intros id d _; unfold delsOf;
    by rewrite (classify_same_clock v v').
Qed.

Section update.
Context `{CFG : Config}.

Lemma vlocal_update x x' t a v v' :
  vlocal x t a v → same_clock v v' → vA x' = vA x → vQ x' = vQ x →
  (a ∈ vR x' → ValStatus v' = StatusActive) →
  vAggs x' = vAggs x → vDels x' = vDels x → vExits x' = vExits x →
  status_ok v' (aggOf (vAggs x) a) t (a ∈ vR x') → vlocal x' t a v'.
Proof.
  intros [H1 H2 H3 H4 H5 H6 H7 H8 H9 H10] Hsc HA HQ HR HG HD HX Hok.
  pose proof (iter_same_clock v v' t Hsc) as Ei.
  pose proof (aggSpec_same_clock (vDels x) a v v' t Hsc) as Ea.
  destruct Hsc as [Es Ep Est Ec Ee]. rewrite Es in HR.
  split; unfold exitOf in *; rewrite ?HA, ?HQ, ?HG, ?HD, ?HX, ?Es, ?Ep, ?Ee, ?Ea; try done.
  intros id d Hd Ha. destruct (H7 id d Hd Ha). by split; rewrite ?Ei.
Qed.

(** The links of a record do not matter. *)
Lemma vlocal_strip x t a v : vlocal x t a (strip v) → vlocal x t a v.
Proof.
  intros Hl. eapply vlocal_update; [exact Hl|done|done|done| |done..|].
  - apply (l_renew _ _ _ _ Hl).
  - pose proof (l_ok _ _ _ _ Hl) as H. unfold status_ok in *. simpl in H.
    destruct (ValStatus v); [done|..]; by destruct H.
Qed.

(** The view after storing [v'] for [a], with new renewal list and counters. *)
Definition setVal (a : Address) (v' : Validation) (R' : list Address) (G' : GlobalStats)
    (x : View) : View :=
  x <| vVals := <[a := v']> (vVals x) |> <| vR := R' |> <| vStats := G' |>.

Lemma Inv_setVal clk x a v v' R' G' :
  let g := aggOf (vAggs x) a in
  Inv clk x → vVals x !! a = Some v → same_clock v v' →
  (∀ b, b ≠ a → b ∈ R' ↔ b ∈ vR x) → (a ∈ R' → ValStatus v' = StatusActive) →
  status_ok v' g (clk a) (a ∈ R') →
  queued G' = queued (vStats x) + (QueuedVET v' - QueuedVET v) →
  VET (lockedOf G') = VET (lockedOf (vStats x)) + (LockedVET v' - LockedVET v) →
  Weight (lockedOf G') = Weight (lockedOf (vStats x)) + (ValWeight v' - ValWeight v) →
  cooldown G' = cooldown (vStats x) + (CooldownVET v' - CooldownVET v) →
  withdrawable G' = withdrawable (vStats x) + (WithdrawableVET v' - WithdrawableVET v) →
  gs_total G' ≤ MaxSupply → Inv clk (setVal a v' R' G' x).
Proof.
  intros g HI Ha Hsc HR HRa Hok E1 E2 E3 E4 E5 Hs.
  eapply (Inv_step clk) with (a := a); [exact HI|done|..]; simpl; try done.
  - intros b Hb. split_and!; auto.
  - by left.
  - eapply vlocal_update; [by eapply Inv_vlocal|done..].
  - eapply (acct_step x) with (a := a); [apply HI|done|done|..]; simpl; rewrite Ha;
      unfold contrib, vQueued, vLocked, vWeight, vCooldown, vFree; simpl; lia.
  - apply HI.
  - apply HI.
Qed.

(** Storing the record and registering the validator for renewal, as the
    stake operations do. *)
Lemma wp_store_renew {B} (k : M Staker B) a v v' s x P R :
  view_of s x → validations (storage (validationService s)) !! a = Some v →
  Prev v' = Prev v → Next v' = Next v →
  (∀ s', view_of s' (setVal a (strip v') (addR a (vR x)) (vStats x) x) →
     globalStatsService s' = globalStatsService s → effectiveVET s' = effectiveVET s →
     balance s' = balance s → wp k P R s') →
  wp (zoom validationService (updateValidation a v') ;;
      zoom validationService (AddToRenewalList a) ;; k) P R s.
Proof.
  intros Hx Hv Hp Hn HP. do 2 wp_step. eapply wp_updateValidation; [apply Hx|done..|].
  intros r1 Hr1 [Hrw1 Hex1]. do 2 wp_step. eapply wp_AddToRenewalList; [exact Hr1|].
  intros r2 Hst2 Hr2. apply HP; [|done..]. destruct Hx as [Hr Hxe Hxa Hxs Hxd Hxi].
  split; simpl; try done. rewrite Hst2. simpl. by rewrite Hex1.
Qed.
End update.

Section validateStakeIncrease.
Context `{SMS : SafeMathSpec} `{CFG : Config}.

Lemma next_tvl_ok x t a v : vlocal x t a v →
  Validation_NextPeriodTVL v = Ok (LockedVET v + QueuedVET v - PendingUnlockVET v) ∧
  (let g := aggOf (vAggs x) a in
   Aggregation_NextPeriodTVL g = Ok (VET (Locked g) + VET (Pending g) - VET (Exiting g))).
Proof.
  intros Hl. destruct (vlocal_amounts _ _ _ _ Hl) as [? ? (? & ? & ?)].
  destruct (vlocal_agg_facts _ _ _ _ Hl) as [[? ?] [? ?] [? ?] [? ?]].
  unfold vLocked, vQueued in *. consts. split.
  - unfold Validation_NextPeriodTVL. unwrap. zcase; [lia|done].
  - apply Aggregation_NextPeriodTVL_ok; [|ulia]. split_and!; split; ulia.
Qed.

Lemma wp_validateStakeIncrease a v n t s x (P : unit → Staker → Prop) R :
  let g := aggOf (vAggs x) a in
  view_of s x → vlocal x t a v → is64 n →
  (∀ msg, ¬ (nextTVL v g + n ≤ MaxStakeVET) → R (ErrRevert msg)) →
  (nextTVL v g + n ≤ MaxStakeVET → P tt s) →
  wp (validateStakeIncrease a v n) P R s.
Proof.
  intros g Hx Hl Hn HR HP. subst g. unfold nextTVL in *. destruct (next_tvl_ok _ _ _ _ Hl) as [Hv Hg].
  destruct (vlocal_amounts _ _ _ _ Hl) as [? ? (? & ? & ?)].
  destruct (vlocal_agg_facts _ _ _ _ Hl) as [[? ?] [? ?] [? ?] [? ?]].
  unfold vLocked, vQueued, validateStakeIncrease in *. consts.
  wp_step. apply wp_reject; [intros; apply HR; lia|intros Hn'].
  apply Z.ltb_ge in Hn'.
  do 2 wp_step. apply wp_GetAggregation. rewrite (vo_aggs _ _ Hx).
  do 2 wp_step. rewrite Hg. do 2 wp_step. rewrite Hv. do 2 wp_step.
  unfold checkStake. consts.
  destruct (SafeAdd_cases (LockedVET v + QueuedVET v - PendingUnlockVET v)
    (VET (Locked (aggOf (vAggs x) a)) + VET (Pending (aggOf (vAggs x) a)) -
     VET (Exiting (aggOf (vAggs x) a)))) as [[_ ->]|[? _]]; [ulia..| |ulia].
  match goal with |- context [SafeAdd ?p n] => destruct (SafeAdd_cases p n) as [[_ ->]|[? _]] end;
    [ulia..| |ulia].
  apply wp_reject; [intros; apply HR; lia|intros Hm]. rewrite <- (vo_aggs _ _ Hx). replace (s <| aggregationService := _ |>) with s by (by destruct s).
  apply HP. lia.
Qed.
End validateStakeIncrease.

(** ** Stake increase and decrease *)
Definition abs_IncreaseStake (a : Address) (v : Validation) (n : Z) (x : View) : View :=
  setVal a (v <| QueuedVET := QueuedVET v + n |>) (addR a (vR x))
    ((vStats x) <| queued := queued (vStats x) + n |>) x.

Definition abs_DecreaseStake (a : Address) (v : Validation) (n : Z) (x : View) : View :=
  setVal a (v <| PendingUnlockVET := PendingUnlockVET v + n |>) (addR a (vR x)) (vStats x) x.

Section stake_ops.
Context `{SMS : SafeMathSpec} `{CFG : Config}.

Lemma funded_sup s x dep : view_of s x → funded s dep → gs_total (vStats x) + dep ≤ MaxSupply.
Proof.
  intros Hx [? He Hb]. rewrite (vo_stats _ _ Hx) in He. unfold ToWei, bigE18 in *. lia.
Qed.

Lemma vlocal_active x t a v : vlocal x t a v → ValStatus v = StatusActive →
  active_ok v (aggOf (vAggs x) a) t (a ∈ vR x) ∧ a ∈ vA x.
Proof.
  intros Hl Hs. pose proof (l_ok _ _ _ _ Hl) as H. unfold status_ok in H. rewrite Hs in H.
  split; [done|]. by apply (l_active _ _ _ _ Hl).
Qed.

Lemma in_addR a l : a ≠ 0 → a ∈ addR a l.
Proof. intros. apply elem_of_addR. auto. Qed.

Lemma addR_other a b l : b ≠ a → b ∈ addR a l ↔ b ∈ l.
Proof. rewrite elem_of_addR. naive_solver. Qed.

Lemma abs_IncreaseStake_inv now a v n x :
  let g := aggOf (vAggs x) a in
  Inv (λ _, now) x → vVals x !! a = Some v → ValStatus v = StatusActive → ExitBlock v = None →
  0 ≤ n → gs_total (vStats x) + n ≤ MaxSupply →
  LockedVET v + QueuedVET v - PendingUnlockVET v +
     (VET (Locked g) + VET (Pending g) - VET (Exiting g)) + n ≤ MaxStakeVET →
  Inv (λ _, now) (abs_IncreaseStake a v n x).
Proof.
  intros g HI Ha Hs He Hn Hsup Hmax. subst g. pose proof (Inv_vlocal _ _ _ _ HI Ha) as Hl.
  destruct (vlocal_active _ _ _ _ Hl Hs) as [[? ? ? ? ? ? ? Hex] _]. rewrite He in Hex.
  eapply Inv_setVal; [done|done|done|..]; simpl; try (unfold lockedOf; simpl; lia); try done.
  - intros b Hb. by apply addR_other.
  - unfold status_ok. simpl. rewrite Hs. split; simpl; try done; try lia.
    rewrite He. split; [tauto|]. left. apply in_addR, Hl.
  - unfold gs_total, lockedOf in *. simpl. lia.
Qed.

Lemma wp_IncreaseStake now a e n s x :
  view_of s x → Inv (λ _, now) x → funded s n → is64 n →
  wp (IncreaseStake a e n) (λ _ s', ∃ v,
    let x' := abs_IncreaseStake a v n x in
    vVals x !! a = Some v ∧ can_IncreaseStake a e n x ∧
    view_of s' x' ∧ Inv (λ _, now) x' ∧ funded s' 0) (refuses (can_IncreaseStake a e n x)) s.
Proof.
  intros Hx HI Hf Hn. unfold IncreaseStake.
  wp_step. eapply wp_getValidationOrRevert; [done|intros; refuse|]. intros v Hv Ha.
  passes H1. passes H2. passes H3. passes H4.
  apply negb_false_iff, Z.eqb_eq in H1. apply bool_decide_is in H3, H4. apply dec_stable in H3, H4.
  pose proof (Inv_vlocal _ _ _ _ HI Ha) as Hl.
  destruct (vlocal_amounts _ _ _ _ Hl) as [? ? (? & ? & ?)]. simpl in *.
  wp_step. eapply (wp_validateStakeIncrease a v n now); [done| |done|refuse|].
  { by apply vlocal_strip. }
  intros Hmax'. pose proof Hmax' as Hmax. unfold nextTVL in Hmax.
  assert (Inv (λ _, now) (abs_IncreaseStake a (strip v) n x)) as HI'.
  { apply abs_IncreaseStake_inv; try done; [ulia|]. by eapply funded_sup. }
  pose proof (Inv_stats HI') as Hst'. pose proof (stats_gs_ok _ Hst') as (_ & Hq & _).
  destruct (vlocal_agg_facts _ _ _ _ Hl) as [[? ?] [? ?] [? ?] [? ?]].
  unfold service_IncreaseStake. rewrite wrap64_id by (consts; ulia).
  eapply wp_store_renew; [done|done|done|done|].
  intros s' Hx' Hg' Heff Hbal. do 2 wp_step.
  assert (globalStatsService s' = vStats x) as Hgs by (rewrite Hg'; apply Hx).
  apply wp_AddQueued; simpl; rewrite Hgs; [done|].
  assert (funded (s' <| globalStatsService := (vStats x) <| queued := queued (vStats x) + n |> |>) 0)
    as Hf'.
  { destruct Hf as [? Hfe Hb]. split; simpl; [done| |by rewrite Heff, Hbal].
    rewrite Heff, Hfe, (vo_stats _ _ Hx). unfold gs_total, lockedOf. simpl. f_equal. lia. }
  eapply wp_ContractBalanceCheck; [done|done|]. exists (strip v).
  split_and!; try done; [by exists (strip v)|]. destruct Hx' as [? ? ? ? ? ?]. by split.
Qed.

(** Stake counted by no counter change leaves the contract funded. *)
Lemma funded_same s s' dep : funded s dep → globalStatsService s' = globalStatsService s →
  effectiveVET s' = effectiveVET s → balance s' = balance s → funded s' dep.
Proof. intros [? ? ?] Hg He Hb. split; rewrite ?Hg, ?He, ?Hb; done. Qed.

Lemma abs_DecreaseStake_inv now a v n x :
  Inv (λ _, now) x → vVals x !! a = Some v → ValStatus v = StatusActive → ExitBlock v = None →
  0 ≤ n → MinStakeVET ≤ LockedVET v - PendingUnlockVET v - n →
  Inv (λ _, now) (abs_DecreaseStake a v n x).
Proof.
  intros HI Ha Hs He Hn Hmin. pose proof (Inv_vlocal _ _ _ _ HI Ha) as Hl.
  destruct (vlocal_active _ _ _ _ Hl Hs) as [[? ? ? ? ? ? ? Hex] _]. rewrite He in Hex.
  eapply Inv_setVal; [done|done|done|..]; simpl; try lia; try done; [..|apply HI].
  - intros b Hb. by apply addR_other.
  - unfold status_ok. simpl. rewrite Hs. split; simpl; try done; try lia.
    rewrite He. split; [tauto|]. left. apply in_addR, Hl.
Qed.

Lemma wp_DecreaseStake now a e n s x :
  view_of s x → Inv (λ _, now) x → funded s 0 → is64 n →
  wp (DecreaseStake a e n) (λ _ s', ∃ v,
    let x' := abs_DecreaseStake a v n x in
    vVals x !! a = Some v ∧ can_DecreaseStake a e n x ∧
    view_of s' x' ∧ Inv (λ _, now) x' ∧ funded s' 0) (refuses (can_DecreaseStake a e n x)) s.
Proof.
  intros Hx HI Hf Hn. unfold DecreaseStake. passes H0.
  wp_step. eapply wp_getValidationOrRevert; [done|intros; refuse|]. intros v Hv Ha.
  passes H1. passes H2. passes H3. passes H4.
  apply negb_false_iff, Z.eqb_eq in H1. apply bool_decide_is in H3, H4. apply dec_stable in H3, H4.
  pose proof (Inv_vlocal _ _ _ _ HI Ha) as Hl.
  destruct (vlocal_amounts _ _ _ _ Hl) as [? ? (? & ? & ?)].
  destruct (vlocal_agg_facts _ _ _ _ Hl) as [[? ?] [? ?] [? ?] [? ?]].
  unfold vLocked, vQueued in *. simpl in *. consts.
  rewrite (wrap64_id (LockedVET v - PendingUnlockVET v)) by ulia.
  passes G5. apply Z.ltb_ge in G5. rewrite wrap64_id by ulia. passes G6. apply Z.ltb_ge in G6.
  assert (Inv (λ _, now) (abs_DecreaseStake a (strip v) n x)) as HI'.
  { apply abs_DecreaseStake_inv; try done; simpl; consts; ulia. }
  unfold service_DecreaseStake. rewrite H3, bool_decide_eq_true_2, wrap64_id by (done || ulia).
  eapply wp_store_renew; [done|done|done|done|].
  intros s' Hx' Hg' Heff Hbal.
  assert (funded s' 0) by (by eapply funded_same).
  eapply wp_ContractBalanceCheck; [rewrite Hg', (vo_stats _ _ Hx); apply (Inv_stats HI)|done|].
  exists (strip v). split_and!; try done. exists (strip v). split_and!; try done; simpl; consts; lia.
Qed.

(** Fields outside the accounting: the beneficiary and the offline mark. *)
Lemma wp_store_meta now a v v' s x (P : unit → Staker → Prop) R :
  view_of s x → Inv (λ _, now) x → funded s 0 →
  validations (storage (validationService s)) !! a = Some v →
  Prev v' = Prev v → Next v' = Next v → same_clock v v' →
  LockedVET v' = LockedVET v → PendingUnlockVET v' = PendingUnlockVET v →
  QueuedVET v' = QueuedVET v → CooldownVET v' = CooldownVET v →
  WithdrawableVET v' = WithdrawableVET v → ValWeight v' = ValWeight v →
  (∀ s', let x' := setVal a (strip v') (vR x) (vStats x) x in
    view_of s' x' → Inv (λ _, now) x' → funded s' 0 → P tt s') →
  wp (zoom validationService (updateValidation a v')) P R s.
Proof.
  intros Hx HI Hf Hv Hp Hn Hsc E1 E2 E3 E4 E5 E6 HP. wp_step.
  eapply wp_updateValidation; [apply Hx|done..|]. intros r' Hr' [_ Hex].
  assert (vVals x !! a = Some (strip v)) as Ha by (by eapply repr_lookup_Some; [apply Hx|]).
  apply HP.
  - destruct Hx as [? ? ? ? ? ?]. split; simpl; try done. by rewrite Hex.
  - pose proof (Inv_vlocal _ _ _ _ HI Ha) as Hl. destruct Hsc as [F1 F2 F3 F4 F5].
    eapply Inv_setVal; [done|done|by split|done| | |..]; simpl;
      rewrite ?E1, ?E2, ?E3, ?E4, ?E5, ?E6, ?F1; try lia; [apply Hl| |apply HI].
    pose proof (l_ok _ _ _ _ Hl) as H. unfold status_ok in *. simpl in *. rewrite F1.
    destruct (ValStatus v); [done|..]; destruct H; split; simpl in *;
      rewrite ?E1, ?E2, ?E3, ?E4, ?E5, ?E6, ?F2, ?F3, ?F4, ?F5; done.
  - by eapply funded_same.
Qed.

Lemma wp_SetBeneficiary now a e b s x :
  view_of s x → Inv (λ _, now) x → funded s 0 →
  wp (SetBeneficiary a e b) (λ _ s', ∃ v : Validation,
    let x' := setVal a (v <| Beneficiary := (if IsZero b then None else Some b : option Z) |>)
                (vR x) (vStats x) x in
    vVals x !! a = Some v ∧ can_SetBeneficiary a e x ∧
    view_of s' x' ∧ Inv (λ _, now) x' ∧ funded s' 0) (refuses (can_SetBeneficiary a e x)) s.
Proof.
  intros Hx HI Hf. unfold SetBeneficiary.
  wp_step. eapply wp_getValidationOrRevert; [done|intros; refuse|]. intros v Hv Ha.
  passes H1. passes H2.
  apply negb_false_iff, Z.eqb_eq in H1. apply orb_false_iff in H2 as [H2 H3].
  apply bool_decide_is in H2, H3. apply dec_stable in H3. unfold service_SetBeneficiary.
  eapply wp_store_meta; [done|done|done|done|by destruct (IsZero b)..|].
  intros s' x' Hx' HI' Hf'. exists (strip v). unfold x' in *.
  assert (can_SetBeneficiary a e x) by (by exists (strip v)). destruct (IsZero b); by split_and!.
Qed.

Lemma wp_SetOnline now a n online s x (v : Validation) (P : unit → Staker → Prop) R :
  view_of s x → Inv (λ _, now) x → funded s 0 → vVals x !! a = Some v →
  (∀ s', let x' := setVal a (v <| OfflineBlock := (if online : bool then None else Some n : option Z) |>)
                    (vR x) (vStats x) x in
    view_of s' x' → Inv (λ _, now) x' → funded s' 0 → P tt s') →
  wp (SetOnline a n online) P R s.
Proof.
  intros Hx HI Hf Ha HP.
  destruct (repr_lookup_inv _ _ _ _ _ _ _ (vo_repr _ _ Hx) Ha) as (w & Hw & <-).
  unfold SetOnline, UpdateOfflineBlock.
  assert (wp (zoom validationService (updateValidation a
    (if online then w <| OfflineBlock := None |> else w <| OfflineBlock := Some n |>))) P R s) as H.
  { eapply wp_store_meta; [done|done|done|done|by destruct online..|].
    intros s' x' Hx' HI' Hf'. apply HP; unfold x' in *; by destruct online. }
  wp_step. wp_step. eapply wp_GetExistingValidation; [done|].
  unfold wp, zoom in H |- *. destruct (updateValidation _ _ _) as [[]|]; done.
Qed.
End stake_ops.

(** ** Signalling a validator's exit *)
Definition abs_SignalExit (a : Address) (v : Validation) (b it : Z) (x : View) : View :=
  x <| vVals := <[a := v <| ExitBlock := Some b |> <| CompletedPeriods := it |>]> (vVals x) |>
    <| vExits := vset (exitKey b) a (vExits x) |>.

Section signal_exit.
Context `{SMS : SafeMathSpec} `{CFG : Config} (OK : config_ok CFG).

Lemma exitOf_set x x' b a k : vExits x' = vset (exitKey b) a (vExits x) →
  exitOf x' k = if decide (b = k) then a else exitOf x k.
Proof.
  intros HX. unfold exitOf. rewrite HX, vget_vset.
  destruct (decide (b = k)) as [->|Hne]; [by rewrite decide_True|].
  rewrite decide_False; [done|]. by intros ?%exitKey_inj.
Qed.

(** The first iteration of an active validator is 1. *)
Lemma iter_pos x t a v : vlocal x t a v → ValStatus v = StatusActive → 1 ≤ iter v t.
Proof.
  intros Hl Hs. destruct (vlocal_active _ _ _ _ Hl Hs) as [[[? _] _ _ _ _ _ _ _] _].
  destruct (period_pos OK _ (l_period _ _ _ _ Hl)). unfold iter. rewrite Hs.
  zcase; [lia|]. assert (0 ≤ (t - StartBlock v) / Period v) by (apply Z.div_pos; lia). lia.
Qed.

Lemma abs_SignalExit_inv clk a v b x :
  Inv clk x → vVals x !! a = Some v → ValStatus v = StatusActive → ExitBlock v = None →
  block_ok (clk a) → exit_block_ok (clk a) b → exitOf x b = 0 →
  Inv clk (abs_SignalExit a v b (iter v (clk a)) x).
Proof.
  intros HI Ha Hs He Hblk Hb H0. pose proof (Inv_vlocal _ _ _ _ HI Ha) as Hl.
  pose proof (iter_pos _ _ _ _ Hl Hs) as Hit.
  destruct (CurrentIteration_iter OK _ _ _ _ Hl Hblk) as [_ Hit2].
  destruct (vlocal_active _ _ _ _ Hl Hs) as [[? ? ? ? ? ? ? Hex] HA]. rewrite He in Hex.
  set (v' := v <| ExitBlock := Some b |> <| CompletedPeriods := iter v (clk a) |>).
  assert (iter v' (clk a) = iter v (clk a)) as Eit.
  { unfold iter at 1. simpl. rewrite Hs. by zcase; [|lia]. }
  assert (∀ d, classify v' (clk a) d = classify v (clk a) d) as Ecl
    by (intros d; unfold classify; by rewrite Eit).
  pose proof (λ k, exitOf_set x (abs_SignalExit a v b (iter v (clk a)) x) b a k eq_refl) as Hset.
  eapply (Inv_step clk) with (a := a) (v' := v');
    [exact HI|done|..]; try done; try apply HI.
  - by left.
  - intros c Hc0 Hca k. rewrite Hset. case_decide; [|done]. subst. rewrite H0. naive_solver.
  - destruct Hl as [G1 G2 G3 G4 G5 G6 G7 G8 G9 G10]. split; simpl; try done.
    + unfold status_ok. simpl. rewrite Hs. split; simpl; try done. split; [lia|done].
    + intros id d Hd Hda. destruct (G7 id d Hd Hda). split; try done; by rewrite Eit.
    + rewrite G8. unfold aggSpec. f_equal; apply wsum_ext; intros id d _; unfold delsOf;
        by rewrite Ecl.
    + intros k _ [= <-]. by rewrite Hset, decide_True.
    + intros k Hk. rewrite Hset. case_decide; [by subst|]. intros Hx.
      destruct (G10 k Hk Hx) as [_ Hx']. congruence.
  - eapply (acct_step x) with (a := a); [apply HI|done|done|..]; simpl; rewrite Ha;
      unfold contrib, vQueued, vLocked, vWeight, vCooldown, vFree; simpl; lia.
Qed.

(** The service call: it takes the first free slot, or fails because all the
    slots it may probe are taken. *)
Lemma wp_service_SignalExit clk a v minBlock n s x P R :
  view_of s x → Inv clk x → vVals x !! a = Some v →
  ValStatus v = StatusActive → ExitBlock v = None → block_ok (clk a) →
  clk a < minBlock → (EpochLength | minBlock) →
  minBlock + Z.of_nat n * EpochLength < 2 ^ 31 + 2 ^ 25 →
  (∀ i s', (i < n)%nat → let b := probe minBlock i in
     let x' := abs_SignalExit a v b (iter v (clk a)) x in
     exitOf x b = 0 → (∀ j, (j < i)%nat → exitOf x (probe minBlock j) ≠ 0) →
     view_of s' x' → Inv clk x' → globalStatsService s' = globalStatsService s →
     effectiveVET s' = effectiveVET s → balance s' = balance s →
     maxBlockProposersParam s' = maxBlockProposersParam s → P tt s') →
  ((∀ j, (j < n)%nat → exitOf x (probe minBlock j) ≠ 0) → R ErrMaxTryReached) →
  wp (zoom validationService (service_SignalExit a (clk a) minBlock n)) P R s.
Proof.
  intros Hx HI Ha Hs He Hblk Hmin Hdiv Hmax HP HR. wp_step. unfold service_SignalExit.
  destruct (repr_lookup_inv _ _ _ _ _ _ _ (vo_repr _ _ Hx) Ha) as (w & Hw & <-).
  wp_step. eapply wp_GetExistingValidation; [done|].
  pose proof (Inv_vlocal _ _ _ _ HI Ha) as Hl. destruct OK as [[HE _] _ _ _ _ _ _ _ _ _ _].
  assert (∀ b, exitAt (validationService s) b = exitOf x b) as Heq
    by (intros b; unfold exitAt, exitOf; by rewrite (vo_exits _ _ Hx)).
  assert (∀ i, (EpochLength | probe minBlock i)) as Hpd
    by (intros i; unfold probe; apply Z.divide_add_r; [done|]; apply Z.divide_factor_r).
  unfold block_ok in Hblk.
  wp_step. destruct (SetExitBlock_cases a minBlock n (validationService s))
    as [(i & Hi & H0 & Hlt & Heqn)|[Hall Heqn]]; [lia|lia|ulia| |];
    unfold wp at 1; rewrite Heqn; [|apply HR; intros j Hj; rewrite <- Heq; auto].
  do 2 wp_step. rewrite (proj1 (CurrentIteration_iter OK _ _ _ _ (vlocal_strip _ _ _ _ Hl) Hblk)).
  rewrite Heq in H0. setoid_rewrite Heq in Hlt.
  assert (probe minBlock i < 2 ^ 31 + 2 ^ 25) by (unfold probe; nia).
  assert (minBlock ≤ probe minBlock i) by (unfold probe; nia).
  eapply (wp_updateValidation _ w); simpl; [|done|done|done|].
  { destruct (vo_repr _ _ Hx) as [? HA HQ HRn ?]. split; simpl; try done.
    - eapply dll_frame; [|exact HA]. done.
    - eapply dll_frame; [|exact HQ]. done. }
  intros r' Hr' [Hrw Hex]. simpl in Hex.
  apply (HP i); try done.
  - destruct Hx as [? Hxe ? ? ? ?]. split; simpl; try done. by rewrite Hex, Hxe.
  - apply abs_SignalExit_inv; try done. split; [lia|auto].
Qed.

(** The end of the running staking period: a later epoch boundary. *)
Lemma period_end_ok x t a v : vlocal x t a v → ValStatus v = StatusActive → ExitBlock v = None →
  block_ok t →
  t < StartBlock v + Period v * iter v t ≤ t + Period v ∧
  (EpochLength | StartBlock v + Period v * iter v t).
Proof.
  intros Hl Hs He Ht. destruct (vlocal_active _ _ _ _ Hl Hs) as [[[Hst Hsd] ? ? ? ? ? ? Hex] _].
  rewrite He in Hex. destruct Hex as [Hc _].
  destruct (period_pos OK _ (l_period _ _ _ _ Hl)) as [Hp1 Hp2].
  pose proof (period_epochs OK _ (l_period _ _ _ _ Hl)) as Hpe.
  unfold iter. rewrite Hs, Hc. simpl.
  pose proof (Z.div_mod (t - StartBlock v) (Period v)) as Hdm.
  pose proof (Z.mod_pos_bound (t - StartBlock v) (Period v)) as Hmb.
  split; [nia|]. apply Z.divide_add_r; [done|]. by apply Z.divide_mul_l.
Qed.

(** A validator signalling its exit implements [abs_SignalExit]. *)
Lemma wp_SignalExit now a e s x :
  view_of s x → Inv (λ _, now) x → funded s 0 → block_ok now →
  wp (SignalExit a e now) (λ _ s', ∃ v b,
    let x' := abs_SignalExit a v b (iter v now) x in
    vVals x !! a = Some v ∧ can_SignalExit now a e x ∧
    now < b ∧ view_of s' x' ∧ Inv (λ _, now) x' ∧ funded s' 0) (refuses (can_SignalExit now a e x)) s.
Proof.
  intros Hx HI Hf Hblk. unfold SignalExit.
  wp_step. eapply wp_getValidationOrRevert; [done|intros; refuse|]. intros v Hv Ha.
  passes H1. passes H2. passes H3.
  apply negb_false_iff, Z.eqb_eq in H1. apply bool_decide_is in H2, H3. apply dec_stable in H2, H3.
  pose proof (Inv_vlocal _ _ _ _ HI Ha) as Hl. simpl in Hl.
  destruct (CurrentIteration_iter OK _ _ _ _ (vlocal_strip _ _ _ _ Hl) Hblk) as [Hci Hib].
  do 2 wp_step. rewrite Hci.
  destruct (period_end_ok _ _ _ _ Hl H2 H3 Hblk) as [Hpe Hpd]. simpl in Hpe, Hpd.
  change (iter (strip v) now) with (iter v now) in Hpe, Hpd.
  destruct (period_pos OK _ (l_period _ _ _ _ Hl)) as [Hp1 Hp2]. simpl in Hp1, Hp2.
  destruct (vlocal_active _ _ _ _ Hl H2) as [[[Hst _] ? ? ? ? ? ? _] _]. simpl in Hst.
  unfold block_ok in Hblk. destruct OK as [[HE1 HE2] _ _ _ _ _ _ _ _ _ _].
  rewrite (wrap32_id (Period v * iter v now)) by ulia. rewrite wrap32_id by ulia.
  wp_step. eapply (wp_service_SignalExit (λ _, now)); try done.
  - lia.
  - unfold exitMaxTry. lia.
  - intros i s' Hi b x' Hb Hlt Hx' HI' Hg Heff Hbal _. exists (strip v), b.
    split_and!; try done; [|unfold b, probe; nia|by eapply funded_same].
    exists (strip v). split_and!; try done. by exists i.
  - intros Hall. split; [by eexists|]. intros (v' & Hv' & _ & _ & i & Hi & H0).
    simplify_eq/=. by apply (Hall i).
Qed.
End signal_exit.

(** ** Withdrawing a validator's stake *)

(** The part of the cooldown stake that a withdrawal at [now] releases. *)
Definition released `{CFG : Config} (v : Validation) (now : Z) : Z :=
  if CooldownEnded v now then CooldownVET v else 0.

Definition abs_WithdrawQueued (a : Address) (v : Validation) (x : View) : View :=
  let p := VET (Pending (aggOf (vAggs x) a)) in
  x <| vVals := <[a := v <| QueuedVET := 0 |> <| WithdrawableVET := 0 |>
                          <| ValStatus := StatusExit |>]> (vVals x) |>
    <| vQ := filter (.≠ a) (vQ x) |>
    <| vAggs := <[a := newAggregation]> (vAggs x) |>
    <| vStats := (vStats x) <| queued := queued (vStats x) - p - QueuedVET v |>
                            <| withdrawable := withdrawable (vStats x) + p |> |>.

Definition abs_WithdrawOther `{CFG : Config} (now : Z) (a : Address) (v : Validation) (x : View)
    : View :=
  let c := released v now in
  setVal a (v <| QueuedVET := 0 |> <| WithdrawableVET := 0 |>
              <| CooldownVET := CooldownVET v - c |>) (vR x)
    ((vStats x) <| queued := queued (vStats x) - QueuedVET v |>
                <| withdrawable := withdrawable (vStats x) - WithdrawableVET v |>
                <| cooldown := cooldown (vStats x) - c |>) x.

Definition abs_WithdrawStake `{CFG : Config} (now : Z) (a : Address) (v : Validation) (x : View)
    : View :=
  if decide (ValStatus v = StatusQueued) then abs_WithdrawQueued a v x
  else abs_WithdrawOther now a v x.

Lemma wp_when_gs b (m : M GlobalStats unit) (P : unit → Staker → Prop) R s :
  wp (when b m) (λ u g, P u (s <| globalStatsService := g |>)) R (globalStatsService s) →
  wp (when b (zoom globalStatsService m)) P R s.
Proof.
  destruct b; simpl; [apply wp_zoom|]. intros H. unfold wp, mret, M_ret in *. by destruct s.
Qed.

Section withdraw_stake.
Context `{SMS : SafeMathSpec} `{CFG : Config} (OK : config_ok CFG).

Lemma abs_WithdrawQueued_inv clk a v x :
  Inv clk x → vVals x !! a = Some v → ValStatus v = StatusQueued →
  Inv clk (abs_WithdrawQueued a v x).
Proof.
  intros HI Ha Hs. pose proof (Inv_vlocal _ _ _ _ HI Ha) as Hl.
  destruct (vlocal_queued _ _ _ _ Hl Hs) as [EL EE].
  pose proof (l_ok _ _ _ _ Hl) as Hok. unfold status_ok in Hok. rewrite Hs in Hok.
  destruct Hok as [(Z1 & Z2 & Z3 & Z4 & Z5 & Z6) Zx ? ?].
  eapply (Inv_step clk) with (a := a); [exact HI|done|..]; simpl.
  - intros b Hb. rewrite aggOf_insert_ne by done. rewrite list_elem_of_filter. naive_solver.
  - by left.
  - done.
  - destruct Hl as [G1 G2 G3 G4 G5 G6 G7 G8 G9 G10]. split; simpl; try done.
    + rewrite G2, Hs. done.
    + rewrite list_elem_of_filter. naive_solver.
    + rewrite Hs in G4. intros H. by apply G4 in H.
    + unfold status_ok. simpl. split; simpl; [done|ulia|by rewrite Zx].
    + intros id d Hd Hda. destruct (G7 id d Hd Hda) as [D1 D2 D3 D4].
      unfold iter in D3, D4. rewrite Hs in D3, D4. split; try done; unfold iter; simpl; rewrite Z6; done.
    + rewrite aggOf_insert_eq. unfold aggSpec, newAggregation.
      f_equal; symmetry; apply wsum_zero; intros id d Hd; apply andb_false_r.
    + intros b Hb Hx. destruct (G10 b Hb Hx). congruence.
  - eapply (acct_step x) with (a := a); [apply HI|done|..]; simpl;
      [intros; by apply aggOf_insert_ne|..]; rewrite Ha, ?aggOf_insert_eq;
      unfold contrib, vQueued, vLocked, vWeight, vCooldown, vFree, lockedOf; simpl;
      rewrite ?EL; simpl; lia.
  - pose proof (inv_supply _ _ HI). unfold gs_total, lockedOf in *. simpl. consts. lia.
  - apply HI.
  - apply HI.
Qed.

Lemma released_range v now : 0 ≤ CooldownVET v → 0 ≤ released v now ≤ CooldownVET v.
Proof. unfold released. destruct (CooldownEnded v now); lia. Qed.

Lemma abs_WithdrawOther_inv clk now a v x :
  Inv clk x → vVals x !! a = Some v → ValStatus v ≠ StatusQueued →
  Inv clk (abs_WithdrawOther now a v x).
Proof.
  intros HI Ha Hs. pose proof (Inv_vlocal _ _ _ _ HI Ha) as Hl.
  destruct (vlocal_amounts _ _ _ _ Hl) as [(? & ? & ? & ? & ?) ? ?].
  pose proof (released_range v now ltac:(done)).
  destruct (vlocal_agg_facts _ _ _ _ Hl) as [[? ?] [? ?] [? ?] [? ?]].
  eapply Inv_setVal; [done|done|done|done|apply Hl|..]; simpl; try (unfold lockedOf; simpl; lia).
  - pose proof (l_ok _ _ _ _ Hl) as Hok. unfold status_ok in *. simpl.
    destruct (ValStatus v); [done|done|..]; destruct Hok as [].
    + split; simpl; try done; try lia. destruct (ExitBlock v); [done|]. naive_solver.
    + split; simpl; try done; try lia. destruct (ExitBlock v); [done|lia].
  - pose proof (inv_supply _ _ HI). unfold gs_total, lockedOf in *. simpl. lia.
Qed.

(** What the withdrawal pays is what [GetWithdrawable] announces. *)
Lemma CalculateWithdrawable_exact v g now : amounts_ok v g →
  CooldownVET v + WithdrawableVET v + QueuedVET v < max64 →
  CalculateWithdrawableVET v now = WithdrawableVET v + QueuedVET v + released v now.
Proof.
  intros [? ? ?] ?. unfold CalculateWithdrawableVET, released.
  destruct (CooldownEnded v now); unwrap; lia.
Qed.

(** The accounting half of a withdrawal: remove the three amounts, check the
    balance, return the total. *)
Definition payOut (w q c : Z) : M Staker Z :=
  when (0 <? w) (zoom globalStatsService (RemoveWithdrawable w)) ;;
  when (0 <? q) (zoom globalStatsService (RemoveQueued q)) ;;
  when (0 <? c) (zoom globalStatsService (RemoveCooldown c)) ;;
  let '(total, overflow) := SafeAdd w q in
  reject overflow (ErrInternal "withdrawableVET/ queuedVET overflow") ;;
  let '(total, overflow) := SafeAdd total c in
  reject overflow (ErrInternal "cooldownVET caused overflow") ;;
  ContractBalanceCheck total ;;
  mret total.

Lemma wp_payOut w q c g s (P : Z → Staker → Prop) R :
  globalStatsService s = g → stats_ok g → funded s 0 →
  0 ≤ w ≤ withdrawable g → 0 ≤ q ≤ queued g → 0 ≤ c ≤ cooldown g →
  (∀ s', let g' := g <| queued := queued g - q |> <| withdrawable := withdrawable g - w |>
                     <| cooldown := cooldown g - c |> in
     s' = s <| globalStatsService := g' |> → funded s' (w + q + c) → P (w + q + c) s') →
  wp (payOut w q c) P R s.
Proof.
  intros Hg Hst Hf Hw Hq Hc HP. pose proof (stats_gs_ok _ Hst) as (_ & G1 & G2 & G3).
  destruct Hst as [(S1 & S2 & S3 & S4) S5 S6]. unfold gs_total in S6. consts. unfold payOut.
  wp_step. apply wp_when_gs, wp_when_RemoveWithdrawable; rewrite Hg; [lia|done|].
  wp_step. apply wp_when_gs, wp_when_RemoveQueued; simpl; [lia|done|].
  wp_step. apply wp_when_gs, wp_when_RemoveCooldown; simpl; [lia|done|].
  destruct (SafeAdd_cases w q) as [[_ ->]|[? _]]; [ulia|ulia| |ulia]. wp_step. wp_step; [done|].
  destruct (SafeAdd_cases (w + q) c) as [[_ ->]|[? _]]; [ulia|ulia| |ulia].
  wp_step. wp_step; [done|]. wp_step.
  assert (∀ s', s' = s <| globalStatsService := g <| queued := queued g - q |>
    <| withdrawable := withdrawable g - w |> <| cooldown := cooldown g - c |> |> →
    funded s' (w + q + c)) as Hf'.
  { intros s' ->. destruct Hf as [? He Hb]. split; simpl; [lia| |done]. rewrite He, Hg.
    unfold gs_total, lockedOf. simpl. f_equal. lia. }
  eapply wp_ContractBalanceCheck; simpl.
  - split; unfold gs_total, lockedOf in *; simpl; consts; lia.
  - apply Hf'. by destruct s.
  - wp_step. apply HP; [by destruct s|]. apply Hf'. by destruct s.
Qed.

(** Dropping the pending delegations of a queued validator. *)
Lemma wp_dropPending p g s (P : unit → Staker → Prop) R :
  globalStatsService s = g → gs_ok g → 0 ≤ p ≤ queued g → is64 (withdrawable g + p) →
  (let g' := g <| queued := queued g - p |> <| withdrawable := withdrawable g + p |> in
   P tt (s <| globalStatsService := g' |>)) →
  wp (when (0 <? p) (zoom globalStatsService (RemoveQueued p) ;;
                     zoom globalStatsService (AddWithdrawable p))) P R s.
Proof.
  intros Hg (_ & G1 & G2 & G3) Hp Hw HP. apply wp_when; intros Hb.
  - do 2 wp_step. apply wp_RemoveQueued; rewrite ?Hg; [ulia|done| |lia]. intros _.
    wp_step. apply wp_AddWithdrawable; simpl; [ulia|done| |ulia]. intros _. by destruct s.
  - apply Z.ltb_ge in Hb. assert (p = 0) as -> by lia. simpl in HP.
    rewrite Z.sub_0_r, Z.add_0_r in HP. subst g. by destruct s as [? [] ? ? ? ? ?].
Qed.

Lemma withdraw_other_eq v now :
  (if CooldownEnded v now
   then (CooldownVET (v <| QueuedVET := 0 |> <| WithdrawableVET := 0 |>),
         v <| QueuedVET := 0 |> <| WithdrawableVET := 0 |> <| CooldownVET := 0 |>)
   else (0, v <| QueuedVET := 0 |> <| WithdrawableVET := 0 |>)) =
  (released v now, v <| QueuedVET := 0 |> <| WithdrawableVET := 0 |>
                     <| CooldownVET := CooldownVET v - released v now |>).
Proof.
  unfold released. destruct (CooldownEnded v now); simpl.
  - by rewrite Z.sub_diag.
  - by rewrite Z.sub_0_r.
Qed.

Lemma wp_WithdrawStake now a e s x :
  view_of s x → Inv (λ _, now) x → funded s 0 →
  wp (WithdrawStake a e now) (λ n s', ∃ v,
    let x' := abs_WithdrawStake now a v x in
    vVals x !! a = Some v ∧ can_WithdrawStake a e x ∧ n = CalculateWithdrawableVET v now ∧ 0 ≤ n ∧
    view_of s' x' ∧ Inv (λ _, now) x' ∧ funded s' n) (refuses (can_WithdrawStake a e x)) s.
Proof.
  intros Hx HI Hf. unfold WithdrawStake.
  wp_step. eapply wp_getValidationOrRevert; [done|intros; refuse|]. intros v Hv Ha.
  passes H1. apply negb_false_iff, Z.eqb_eq in H1.
  assert (can_WithdrawStake a e x) as Hcan by (by exists (strip v)).
  pose proof (Inv_vlocal _ _ _ _ HI Ha) as Hl. simpl in Hl.
  pose proof (vlocal_amounts _ _ _ _ Hl) as Ham.
  pose proof Ham as [(? & ? & ? & ? & ?) _ (? & ? & ?)]. simpl in *.
  destruct (vlocal_agg_facts _ _ _ _ Hl) as [[? ?] [? ?] [? ?] [? ?]].
  pose proof (Inv_stats HI) as Hst. destruct (Inv_shares HI a (strip v) Ha) as [S1 S2 S3 S4 S5].
  pose proof (so_total _ Hst) as Htot. destruct (so_nonneg _ Hst) as (N1 & N2 & N3 & N4).
  unfold gs_total, vQueued, vLocked in *. simpl in *.
  assert (CalculateWithdrawableVET (strip v) now =
    WithdrawableVET v + QueuedVET v + released v now) as Hcw.
  { apply (CalculateWithdrawable_exact (strip v) _ now Ham). simpl. consts. ulia. }
  do 2 wp_step. unfold service_WithdrawStake.
  destruct (decide (ValStatus v = StatusQueued)) as [Hs|Hs].
  - rewrite bool_decide_eq_true_2 by done. wp_step.
    pose proof (dll_nodup _ _ (repr_queued _ _ _ _ _ (vo_repr _ _ Hx))) as Hnd.
    eapply (wp_removeQueued a _ v); [apply Hx|by apply (l_queued _ _ _ _ Hl)|done|done|done| |].
    { pose proof (queued_count HI Hnd). ulia. }
    intros r' Hr' [_ Hex]. wp_step. wp_step. simpl. wp_step. wp_step.
    apply wp_aggregation_Exit. simpl. rewrite (vo_aggs _ _ Hx).
    eapply (wp_dropPending _ (vStats x)); simpl;
      [apply Hx|by apply stats_gs_ok|lia|consts; ulia|].
    pose proof (abs_WithdrawQueued_inv (λ _, now) a (strip v) x HI Ha Hs) as HI'.
    pose proof (l_ok _ _ _ _ Hl) as Hok. unfold status_ok in Hok. simpl in Hok.
    rewrite Hs in Hok. destruct Hok as [(Z1 & Z2 & Z3 & Z4 & Z5 & Z6) Zx ? ?]. simpl in *.
    rewrite Z4 in *. assert (released v now = 0) as Hrel by (unfold released, CooldownEnded; by rewrite Zx).
    eapply (wp_payOut 0 (QueuedVET v) 0); [done| | |simpl; lia..|].
    + split; unfold gs_total, lockedOf in *; simpl; [lia|apply Hst|consts; lia].
    + destruct Hf as [? He Hb]. split; simpl; [done| |done]. rewrite He, (vo_stats _ _ Hx).
      unfold gs_total, lockedOf. simpl. f_equal. lia.
    + intros s' g' -> Hf'. subst g'. exists (strip v). unfold abs_WithdrawStake.
      rewrite decide_True by done.
      split_and!; try done; [rewrite Hcw; lia|lia|].
      destruct Hx as [? ? ? ? ? ?]. split; simpl; try done; [by rewrite Hex|].
      apply gs_eq; simpl; [done|lia..].
  - rewrite bool_decide_eq_false_2 by done.
    change (CooldownEnded (v <| QueuedVET := 0 |> <| WithdrawableVET := 0 |>) now)
      with (CooldownEnded v now).
    rewrite (withdraw_other_eq v now). wp_step.
    eapply wp_updateValidation; [apply Hx|done|done|done|]. intros r' Hr' [_ Hex].
    wp_step. wp_step. simpl. wp_step.
    pose proof (abs_WithdrawOther_inv (λ _, now) now a (strip v) x HI Ha Hs) as HI'.
    pose proof (released_range v now ltac:(done)) as Hrel.
    eapply (wp_payOut (WithdrawableVET v) (QueuedVET v) (released v now) (vStats x));
      [apply Hx|done| |simpl; lia..|].
    + by eapply funded_same.
    + intros s' g' -> Hf'. subst g'. exists (strip v). unfold abs_WithdrawStake.
      rewrite decide_False by done. split_and!; try done; [lia|].
      destruct Hx as [? ? ? ? ? ?]. split; simpl; try done. by rewrite Hex.
Qed.
End withdraw_stake.
