(* ===== verification/DelegationOps.v ===== *)
(** * The delegators' operations keep the invariant

    [AddDelegation], [SignalDelegationExit] and [WithdrawDelegation] of
    [src/builtin/staker/staker.go], with their abstract counterparts: each
    moves one delegation between the classes pending, locked, exiting and
    free, and moves the validator's aggregation and the counters with it. *)

From S2P Require Import Prelude Thor Stakes GlobalStats Aggregation Validation Delegation.
From S2P Require Import Storage LinkedList RenewalList Repository ValidationService Staker.
From S2P Require Import StakerInv StakerOps.

(** The view after storing delegation [d'] under [id], with new aggregations,
    renewal list, counters and id counter. *)
Definition setDel (id : Z) (d' : Delegation) (AG' : Aggregations)
    (R' : list Address) (G' : GlobalStats) (n' : Z) (x : View) : View :=
  x <| vR := R' |> <| vAggs := AG' |> <| vStats := G' |>
    <| vDels := <[id := d']> (vDels x) |> <| vNextID := n' |>.

(** Only active validators are registered for renewal. *)
Definition renewActive (a : Address) (v : Validation) (l : list Address) : list Address :=
  if bool_decide (ValStatus v = StatusActive) then addR a l else l.

Definition abs_AddDelegation (now : Z) (a : Address) (v : Validation) (st m : Z) (x : View)
    : View :=
  let g := aggOf (vAggs x) a in
  let d := MkDelegation a st m None (iter v now + 1) in
  setDel (vNextID x + 1) d
    (<[a := g <| Pending := ws_add (Pending g) (NewWeightedStakeWithMultiplier st m) |>]> (vAggs x))
    (renewActive a v (vR x))
    ((vStats x) <| queued := queued (vStats x) + st |>) (vNextID x + 1) x.

Definition abs_SignalDelegationExit (now id : Z) (v : Validation) (d : Delegation) (x : View)
    : View :=
  let a := DelValidation d in
  let g := aggOf (vAggs x) a in
  setDel id (d <| LastIteration := Some (iter v now) |>)
    (<[a := g <| Exiting := ws_add (Exiting g) (Delegation_WeightedStake d) |>]> (vAggs x))
    (addR a (vR x)) (vStats x) (vNextID x) x.

Definition abs_WithdrawDelegation (now id : Z) (v : Validation) (d : Delegation) (x : View)
    : View :=
  let a := DelValidation d in
  let g := aggOf (vAggs x) a in
  let pending := is_pending (classify v now d) in
  setDel id (d <| Stake := 0 |>)
    (if pending
     then <[a := g <| Pending := ws_sub (Pending g) (Delegation_WeightedStake d) |>]> (vAggs x)
     else vAggs x)
    (vR x)
    (if pending
     then (vStats x) <| queued := queued (vStats x) - Stake d |>
     else (vStats x) <| withdrawable := withdrawable (vStats x) - Stake d |>)
    (vNextID x) x.

(** ** What the operations admit *)

Definition can_AddDelegation (a : Address) (st m : Z) (x : View) : Prop :=
  0 < st ∧ m ≠ 0 ∧ ∃ v, vVals x !! a = Some v ∧
    (ValStatus v = StatusQueued ∨ ValStatus v = StatusActive) ∧ ExitBlock v = None ∧
    nextTVL v (aggOf (vAggs x) a) + st ≤ MaxStakeVET.

(** The delegation [id] exists, with its validator, and they satisfy [P]. *)
Definition delegated (x : View) (id : Z) (P : Delegation → Validation → Prop) : Prop :=
  ∃ d v, vDels x !! id = Some d ∧ vVals x !! DelValidation d = Some v ∧ P d v.

Definition can_SignalDelegationExit (now id : Z) (x : View) : Prop :=
  delegated x id (λ d v, LastIteration d = None ∧ Stake d ≠ 0 ∧ is_locked (classify v now d) = true).

Definition can_WithdrawDelegation (now id : Z) (x : View) : Prop :=
  delegated x id (λ d v, is_locked (classify v now d) = false).

Ltac unfold_can ::=
  unfold can_AddDelegation, can_SignalDelegationExit, can_WithdrawDelegation, delegated in *.

Section set_del.
Context `{CFG : Config}.

Lemma Inv_setDel clk x a v id d' AG' g' R' G' n' :
  let g := aggOf (vAggs x) a in
  let D' := <[id := d']> (vDels x) in
  Inv clk x → vVals x !! a = Some v → DelValidation d' = a →
  (∀ d, vDels x !! id = Some d → DelValidation d = a) → del_ok v (clk a) d' →
  aggOf AG' a = g' → (∀ b, b ≠ a → aggOf AG' b = aggOf (vAggs x) b) →
  g' = aggSpec D' a v (clk a) →
  (∀ b, b ≠ a → b ∈ R' ↔ b ∈ vR x) → (a ∈ R' → ValStatus v = StatusActive) →
  status_ok v g' (clk a) (a ∈ R') →
  queued G' = queued (vStats x) + (VET (Pending g') - VET (Pending g)) →
  lockedOf G' = lockedOf (vStats x) → cooldown G' = cooldown (vStats x) →
  Locked g' = Locked g →
  withdrawable G' = withdrawable (vStats x) - (VET (Pending g') - VET (Pending g))
    + (dsum D' - dsum (vDels x)) →
  gs_total G' ≤ MaxSupply → vNextID x ≤ n' → 0 < id ≤ n' →
  Inv clk (setDel id d' AG' R' G' n' x).
Proof.
  intros g D' HI Ha Hd' Hd Hdok HAG HAG' Hg' HR HRa Hok E1 E2 E3 E4 E5 Hs Hn Hid. subst g D'.
  pose proof (Inv_vlocal _ _ _ _ HI Ha) as [G1 G2 G3 G4 G5 G6 G7 G8 G9 G10].
  eapply (Inv_step clk) with (a := a) (v' := v); [exact HI|..]; simpl; try done.
  - by rewrite insert_id.
  - intros b Hb. split_and!; try done; [by apply HR|by apply HAG'].
  - right. by exists id, d'.
  - split; simpl; try done; rewrite ?HAG; try done.
    intros id' d. rewrite lookup_insert. case_decide; [naive_solver|eauto].
  - eapply (acct_step x) with (a := a) (v' := v); [apply HI|simpl; by rewrite insert_id|..]; simpl;
      [done|..]; rewrite Ha, ?HAG, ?E2;
      unfold contrib, vQueued, vLocked, vWeight, vCooldown, vFree; simpl; rewrite ?E4; lia.
  - intros id' d. rewrite lookup_insert. case_decide; [naive_solver lia|].
    intros H'%(inv_ids _ _ HI). lia.
  - pose proof (inv_id _ _ HI). lia.
Qed.

Lemma wsum_ge P D id d :
  (∀ id d, D !! id = Some d → P d = true →
    0 ≤ Stake d ∧ 0 ≤ calcWeight (Stake d) (DelMultiplier d)) →
  D !! id = Some d → P d = true → ws_le (Delegation_WeightedStake d) (wsum P D).
Proof.
  intros H Hd HP. unfold ws_le, wsum, Delegation_WeightedStake; simpl. split.
  - pose proof (msum_ge (λ _ d, if P d then Stake d else 0) D id d) as Hge. simpl in Hge.
    rewrite HP in Hge. apply Hge; [|done]. intros id' d' Hd'. destruct (P d') eqn:E; [|done].
    by apply (H id' d').
  - pose proof (msum_ge (λ _ d, if P d then calcWeight (Stake d) (DelMultiplier d) else 0) D id d)
      as Hge. simpl in Hge.
    rewrite HP in Hge. apply Hge; [|done]. intros id' d' Hd'. destruct (P d') eqn:E; [|done].
    by apply (H id' d').
Qed.

Lemma del_ok_nonneg v t d : del_ok v t d →
  0 ≤ Stake d < 2 ^ 56 ∧ 0 ≤ calcWeight (Stake d) (DelMultiplier d) ≤ 3 * Stake d.
Proof.
  intros [? ? _ _]. consts. split; [lia|]. apply calcWeight_bounds; lia.
Qed.

(** A pending delegation is part of the pending sum. *)
Lemma pending_le x t a v id d : vlocal x t a v → vDels x !! id = Some d → DelValidation d = a →
  classify v t d = DPending →
  ws_le (Delegation_WeightedStake d) (Pending (aggOf (vAggs x) a)).
Proof.
  intros Hl Hd Ha Hc. rewrite (l_agg _ _ _ _ Hl). simpl. eapply wsum_ge; [|done|].
  - intros id' d' Hd' [Ha' _]%delsOf_true.
    destruct (del_ok_nonneg _ _ _ (l_dels _ _ _ _ Hl id' d' Hd' Ha')). lia.
  - by rewrite delsOf_same, Hc.
Qed.
End set_del.

Section delegation_ops.
Context `{SMS : SafeMathSpec} `{CFG : Config} (OK : config_ok CFG).

(** Where [Started] and [Ended] place a delegation. *)
Lemma Started_Ended x t a v d : vlocal x t a v → block_ok t → del_ok v t d →
  ∃ started ended, Started d v t = Ok started ∧ Ended d v t = Ok ended ∧
    (started = true ∧ ended = false ↔ is_locked (classify v t d) = true) ∧
    (started = false ∧ ValStatus v ≠ StatusExit ↔ classify v t d = DPending).
Proof.
  intros Hl Ht [_ _ Hf Hlast].
  destruct (CurrentIteration_iter OK _ _ _ _ Hl Ht) as [Hci _].
  pose proof (l_ok _ _ _ _ Hl) as Hok. unfold status_ok in Hok.
  unfold Started, Ended, Started, classify. rewrite Hci.
  destruct (ValStatus v) eqn:Hs; simpl; [done|..].
  - exists false, false. naive_solver.
  - exists (FirstIteration d <=? iter v t), (from_option (λ j, j <? iter v t) false (LastIteration d)).
    split; [done|]. split; [by destruct (LastIteration d)|].
    destruct (Z.leb_spec (FirstIteration d) (iter v t)), (Z.ltb_spec (iter v t) (FirstIteration d));
      try lia; destruct (LastIteration d) as [j|]; simpl; try naive_solver.
    destruct (j <? iter v t); simpl; naive_solver.
  - destruct (Z.leb_spec (FirstIteration d) (iter v t)); simpl.
    + exists true, true. naive_solver.
    + assert (LastIteration d = None) as ->.
      { destruct (LastIteration d) as [j|]; [|done]. specialize (Hlast j eq_refl). lia. }
      exists false, false. naive_solver.
Qed.

Lemma renewActive_other a b v l : b ≠ a → b ∈ renewActive a v l ↔ b ∈ l.
Proof. intros. unfold renewActive. case_bool_decide; [by apply addR_other|done]. Qed.

Lemma abs_AddDelegation_inv now a v st m x :
  let g := aggOf (vAggs x) a in
  Inv (λ _, now) x → vVals x !! a = Some v →
  ValStatus v = StatusQueued ∨ ValStatus v = StatusActive → ExitBlock v = None →
  0 < st → 0 < m < 256 → gs_total (vStats x) + st ≤ MaxSupply →
  LockedVET v + QueuedVET v - PendingUnlockVET v +
    (VET (Locked g) + VET (Pending g) - VET (Exiting g)) + st ≤ MaxStakeVET →
  Inv (λ _, now) (abs_AddDelegation now a v st m x).
Proof.
  intros g HI Ha Hs He Hst Hm Hsup Hmax. subst g. pose proof (Inv_vlocal _ _ _ _ HI Ha) as Hl.
  destruct (vlocal_amounts _ _ _ _ Hl) as [? ? (? & ? & ?)].
  destruct (vlocal_agg_facts _ _ _ _ Hl) as [[? ?] [? ?] [? ?] [? ?]].
  set (d := MkDelegation a st m None (iter v now + 1)).
  assert (classify v now d = DPending) as Hc.
  { unfold classify. destruct Hs as [-> | ->]; [done|]. simpl. by zcase; [|lia]. }
  assert (vDels x !! (vNextID x + 1) = None) as Hfresh.
  { destruct (vDels x !! (vNextID x + 1)) eqn:E; [|done]. apply (inv_ids _ _ HI) in E. lia. }
  assert (0 ≤ iter v now).
  { unfold iter. destruct Hs as [Hs|Hs]; rewrite Hs; [done|].
    pose proof (iter_pos OK _ _ _ _ Hl Hs) as Hp. unfold iter in Hp. rewrite Hs in Hp. lia. }
  assert (a ∈ renewActive a v (vR x) → ValStatus v = StatusActive) as HRa.
  { unfold renewActive. case_bool_decide; [done|apply Hl]. }
  eapply Inv_setDel with (v := v)
    (g' := (aggOf (vAggs x) a) <| Pending :=
      ws_add (Pending (aggOf (vAggs x) a)) (NewWeightedStakeWithMultiplier st m) |>); try done.
  - rewrite Hfresh. done.
  - split; simpl; [lia|done|lia|done].
  - apply aggOf_insert_eq.
  - intros b Hb. by apply aggOf_insert_ne.
  - rewrite (l_agg _ _ _ _ Hl). unfold aggSpec. fold d.
    rewrite !(wsum_insert_None _ _ _ _ Hfresh), !delsOf_same, Hc by done. simpl.
    unfold set_field; simpl. f_equal; apply ws_eq; simpl; lia.
  - intros b Hb. by apply renewActive_other.
  - pose proof (l_ok _ _ _ _ Hl) as Hok. unfold status_ok in *. destruct Hs as [Hs|Hs];
      rewrite Hs in *; destruct Hok as [].
    + destruct (vlocal_queued _ _ _ _ Hl Hs) as [EL EE]. rewrite EL, EE in *. simpl in *.
      split; simpl; try done; lia.
    + split; simpl; try done; try lia. rewrite He in *. split; [tauto|]. left.
      unfold renewActive. rewrite Hs, bool_decide_eq_true_2 by done. apply in_addR, Hl.
  - simpl. lia.
  - simpl. rewrite dsum_insert_None by done. simpl. lia.
  - unfold gs_total, lockedOf in *. simpl. lia.
  - lia.
  - pose proof (inv_id _ _ HI). lia.
Qed.

Lemma wp_delegation_Add a f st m ds (P : Z → DelegationService → Prop) R :
  let n := default 0 (idCounter ds) + 1 in
  n < maxUint256 →
  P n (MkDelegationService (<[n := MkDelegation a st m None f]> (delegations ds)) (Some n)) →
  wp (delegation_Add a f st m) P R ds.
Proof.
  intros n Hn HP. unfold delegation_Add, newDelegationID. do 4 wp_step.
  wp_step; [lia|]. do 5 wp_step. by wp_step.
Qed.

Lemma wp_renewActive a v s x (P : unit → Staker → Prop) R :
  view_of s x →
  (∀ s', view_of s' (x <| vR := renewActive a v (vR x) |>) →
    globalStatsService s' = globalStatsService s → effectiveVET s' = effectiveVET s →
    balance s' = balance s → P tt s') →
  wp (when (bool_decide (ValStatus v = StatusActive))
       (zoom validationService (AddToRenewalList a))) P R s.
Proof.
  intros Hx HP. unfold renewActive in HP. apply wp_when; intros Hb; rewrite Hb in HP.
  - wp_step. eapply wp_AddToRenewalList; [apply Hx|]. intros r' Hst Hr'. apply HP; [|done..].
    destruct Hx as [? ? ? ? ? ?]. split; simpl; try done. by rewrite Hst.
  - apply HP; [|done..]. by destruct x.
Qed.

Lemma wp_AddDelegation now a st m s x :
  view_of s x → Inv (λ _, now) x → funded s st → is64 st → 0 ≤ m < 256 → block_ok now →
  vNextID x + 1 < maxUint256 →
  wp (AddDelegation a st m now) (λ id s', ∃ v,
    let x' := abs_AddDelegation now a v st m x in
    vVals x !! a = Some v ∧ can_AddDelegation a st m x ∧ id = vNextID x + 1 ∧
    view_of s' x' ∧ Inv (λ _, now) x' ∧ funded s' 0) (refuses (can_AddDelegation a st m x)) s.
Proof.
  intros Hx HI Hf Hst Hm Hblk Hid. unfold AddDelegation. passes H1. passes H2.
  apply Z.leb_gt in H1. apply Z.eqb_neq in H2.
  wp_step. eapply wp_getValidationOrRevert; [done|intros; refuse|]. intros v Hv Ha.
  passes H3. passes H4.
  apply bool_decide_is, dec_stable in H4.
  assert (ValStatus v = StatusQueued ∨ ValStatus v = StatusActive) as Hs.
  { apply andb_false_iff in H3 as [H3|H3]; apply bool_decide_is, dec_stable in H3; auto. }
  pose proof (Inv_vlocal _ _ _ _ HI Ha) as Hl. simpl in Hl. apply vlocal_strip in Hl.
  wp_step. eapply wp_validateStakeIncrease; [done|exact Hl|done|refuse|]. intros Hmax.
  assert (can_AddDelegation a st m x) as Hcan by (split_and!; [done|done|by exists (strip v)]).
  unfold nextTVL in Hmax.
  destruct (vlocal_amounts _ _ _ _ Hl) as [? ? (? & ? & ?)].
  destruct (vlocal_agg_facts _ _ _ _ Hl) as [[? ?] [? ?] [? ?] [? ?]].
  destruct (CurrentIteration_iter OK _ _ _ _ Hl Hblk) as [Hci Hib].
  assert (Inv (λ _, now) (abs_AddDelegation now a (strip v) st m x)) as HI'.
  { apply abs_AddDelegation_inv; try done; [lia|]. by eapply funded_sup. }
  pose proof (Inv_stats HI') as Hst'. pose proof (stats_gs_ok _ Hst') as (_ & Hq & _).
  unfold vQueued, vLocked in *. consts.
  destruct (calcWeight_bounds st m) as [? ?]; [lia|lia|].
  do 2 wp_step. rewrite Hci.
  assert (iter v now < 2 ^ 31 + 1) as Hit.
  { destruct (period_pos OK _ (l_period _ _ _ _ Hl)).
    pose proof (l_ok _ _ _ _ Hl) as Hok. unfold status_ok in Hok. unfold block_ok in Hblk.
    unfold iter. destruct Hs as [Hs|Hs]; rewrite Hs in *; [lia|].
    destruct Hok as [[Hsb _] _ _ _ _ _ _ Hex]. rewrite H4 in Hex.
    destruct Hex as [-> _]. simpl.
    assert ((now - StartBlock v) / Period v ≤ now - StartBlock v)
      by (apply Z.div_le_upper_bound; nia). lia. }
  rewrite wrap32_id by ulia.
  do 2 wp_step. apply wp_delegation_Add; rewrite (vo_id _ _ Hx); [done|].
  do 2 wp_step. apply wp_AddPendingVET; simpl; rewrite ?(vo_aggs _ _ Hx);
    [split_and!; split; ulia|split; simpl; ulia|split; simpl; ulia|].
  do 2 wp_step. apply wp_AddQueued; simpl; rewrite (vo_stats _ _ Hx); [done|].
  wp_step. eapply (wp_renewActive a v _ ((abs_AddDelegation now a (strip v) st m x)
    <| vR := vR x |>)).
  { destruct Hx as [? ? ? ? Hxd ?]. split; simpl; try done. by rewrite Hxd. }
  intros s' Hx' Hg' Heff Hbal. simpl in Hg', Heff, Hbal.
  assert (funded s' 0) as Hf'.
  { destruct Hf as [? Hfe Hb]. split; [done| |by rewrite Heff, Hbal].
    rewrite Heff, Hfe, Hg', (vo_stats _ _ Hx). unfold gs_total, lockedOf. simpl. f_equal. lia. }
  wp_step. eapply wp_ContractBalanceCheck; [rewrite Hg'; exact Hst'|done|].
  wp_step. exists (strip v). by split_and!.
Qed.

Lemma abs_SignalDelegationExit_inv now id v d x :
  Inv (λ _, now) x → vDels x !! id = Some d → vVals x !! DelValidation d = Some v →
  LastIteration d = None → is_locked (classify v now d) = true →
  Inv (λ _, now) (abs_SignalDelegationExit now id v d x).
Proof.
  intros HI Hd Ha Hlast Hlk. pose proof (Inv_vlocal _ _ _ _ HI Ha) as Hl.
  pose proof (l_dels _ _ _ _ Hl id d Hd eq_refl) as Hdok.
  destruct (vlocal_agg_facts _ _ _ _ Hl) as [[? ?] [? ?] [? ?] [? ?]].
  assert (ValStatus v = StatusActive ∧ FirstIteration d ≤ iter v now) as [Hs Hf].
  { unfold classify in Hlk. destruct (ValStatus v); try done.
    destruct (Z.ltb_spec (iter v now) (FirstIteration d)); done. }
  set (d' := d <| LastIteration := Some (iter v now) |>).
  assert (classify v now d = DLocked ∧ classify v now d' = DExiting) as [Hc Hc'].
  { unfold classify. rewrite Hs. simpl. rewrite Hlast, Z.ltb_irrefl. by zcase; [lia|]. }
  destruct (vlocal_active _ _ _ _ Hl Hs) as [[] _].
  destruct (del_ok_nonneg _ _ _ Hdok) as [? ?].
  eapply Inv_setDel with (v := v)
    (g' := (aggOf (vAggs x) (DelValidation d)) <| Exiting :=
      ws_add (Exiting (aggOf (vAggs x) (DelValidation d))) (Delegation_WeightedStake d) |>); try done.
  - naive_solver.
  - destruct Hdok. split; try done. intros j [= <-]. simpl. lia.
  - apply aggOf_insert_eq.
  - intros b Hb. by apply aggOf_insert_ne.
  - rewrite (l_agg _ _ _ _ Hl). unfold aggSpec. fold d'.
    rewrite !(wsum_insert_Some _ _ _ _ _ Hd), !delsOf_same, Hc, Hc' by done. simpl.
    unfold set_field; simpl. f_equal; apply ws_eq; simpl; lia.
  - intros b Hb. by apply addR_other.
  - unfold status_ok. rewrite Hs. split; simpl; try done; try lia.
    destruct (ExitBlock v); [done|]. split; [tauto|]. left. apply in_addR, Hl.
  - simpl. lia.
  - simpl. rewrite (dsum_insert_Some _ _ _ _ Hd). simpl. lia.
  - apply HI.
  - by apply (inv_ids _ _ HI) in Hd.
Qed.

Lemma wp_del_lookup id s x (P : option Delegation → Staker → Prop) R :
  view_of s x → P (vDels x !! id) s →
  wp (zoom delegationService (delegation_GetDelegation id)) P R s.
Proof.
  intros Hx HP. unfold delegation_GetDelegation. do 2 wp_step. rewrite (vo_dels _ _ Hx).
  by destruct s as [? ? ? [] ? ? ?].
Qed.

Lemma wp_val_lookup a v s x (P : Validation → Staker → Prop) R :
  view_of s x → vVals x !! a = Some v →
  (∀ w, strip w = v → P w s) → wp (zoom validationService (GetExistingValidation a)) P R s.
Proof.
  intros Hx Ha HP. destruct (repr_lookup_inv _ _ _ _ _ _ _ (vo_repr _ _ Hx) Ha) as (w & Hw & E).
  wp_step. eapply wp_GetExistingValidation; [done|]. apply HP in E. by destruct s.
Qed.

Lemma wp_SignalDelegationExit now id s x :
  view_of s x → Inv (λ _, now) x → funded s 0 → block_ok now →
  wp (SignalDelegationExit id now) (λ _ s', ∃ v d,
    let x' := abs_SignalDelegationExit now id v d x in
    vDels x !! id = Some d ∧ vVals x !! DelValidation d = Some v ∧
    can_SignalDelegationExit now id x ∧
    view_of s' x' ∧ Inv (λ _, now) x' ∧ funded s' 0) (refuses (can_SignalDelegationExit now id x)) s.
Proof.
  intros Hx HI Hf Hblk. unfold SignalDelegationExit.
  wp_step. eapply wp_del_lookup; [done|]. wp_step. wp_step; [refuse|]. rename a into d, H into Hd.
  passes H1. passes H2. apply bool_decide_is, dec_stable in H1.
  destruct (del_lookup HI id d Hd) as (v & Ha & Hdok). pose proof (Inv_vlocal _ _ _ _ HI Ha) as Hl.
  wp_step. eapply wp_val_lookup; [done|done|]. intros w Hw. subst v. apply vlocal_strip in Hl.
  clear Hdok. pose proof (l_dels _ _ _ _ Hl id d Hd eq_refl) as Hdok.
  destruct (Started_Ended _ _ _ _ d Hl Hblk Hdok) as (st & en & -> & -> & Hlk & _).
  destruct (CurrentIteration_iter OK _ _ _ _ Hl Hblk) as [Hci Hib].
  assert (can_SignalDelegationExit now id x → st = true ∧ en = false) as Hcan.
  { intros (d' & v' & Hd' & Hv' & _ & _ & Hc). simplify_eq. by apply Hlk. }
  do 2 wp_step. wp_step.
  apply wp_reject; [intros Hst; split; [by eexists|]; intros [-> _]%Hcan; done|intros H3].
  do 2 wp_step. wp_step.
  apply wp_reject; [intros Hen; split; [by eexists|]; intros [_ ->]%Hcan; done|intros H4]. apply negb_false_iff in H3. subst st en.
  assert (is_locked (classify w now d) = true) as Hlocked by (by apply Hlk). clear Hlk.
  pose proof (abs_SignalDelegationExit_inv now id (strip w) d x HI Hd Ha H1 Hlocked) as HI'.
  assert (ValStatus w = StatusActive) as Hs.
  { unfold classify in Hlocked. by destruct (ValStatus w). }
  destruct (vlocal_agg_facts _ _ _ _ Hl) as [[? ?] [? ?] [? ?] [? ?]].
  destruct (vlocal_agg_facts _ _ _ _ (Inv_vlocal _ _ _ _ HI' Ha)) as [[? ?] _ [? ?] [? ?]].
  destruct (vlocal_amounts _ _ _ _ Hl) as [? ? (? & ? & ?)].
  simpl in *. rewrite aggOf_insert_eq in *. simpl in *. unfold vLocked, vQueued in *. consts.
  destruct (del_ok_nonneg _ _ _ Hdok) as [? ?].
  do 2 wp_step. rewrite Hci. unfold delegation_SignalExit. do 3 wp_step.
  do 2 wp_step. apply wp_aggregation_SignalExit; simpl; rewrite ?(vo_aggs _ _ Hx);
    [split_and!; split; ulia|split; simpl; ulia|split; simpl; ulia|].
  eapply (wp_renewActive _ w _ ((abs_SignalDelegationExit now id (strip w) d x)
    <| vR := vR x |>)).
  { destruct Hx as [? ? ? ? Hxd ?]. split; simpl; try done. by rewrite Hxd. }
  intros s' Hx' Hg' Heff Hbal. exists (strip w), d. split_and!; try done.
  - exists d, (strip w). split_and!; try done. by apply Z.eqb_neq.
  - unfold renewActive in Hx'. by rewrite Hs, bool_decide_eq_true_2 in Hx'.
  - by eapply funded_same.
Qed.

(** Emptying a pending or a free delegation. *)
Lemma aggSpec_emptied x t a v id d : vlocal x t a v → vDels x !! id = Some d →
  DelValidation d = a → is_locked (classify v t d) = false →
  let g := aggOf (vAggs x) a in
  (if is_pending (classify v t d)
   then g <| Pending := ws_sub (Pending g) (Delegation_WeightedStake d) |> else g) =
  aggSpec (<[id := d <| Stake := 0 |>]> (vDels x)) a v t.
Proof.
  intros Hl Hd Ha Hnl g. subst g. rewrite (l_agg _ _ _ _ Hl). unfold aggSpec.
  rewrite !(wsum_insert_Some _ _ _ _ _ Hd), !delsOf_same by done.
  assert (classify v t (d <| Stake := 0 |>) = classify v t d) as -> by done.
  destruct (classify v t d); simpl in *; try done; unfold set_field; simpl;
    f_equal; apply ws_eq; simpl; rewrite ?Z.sub_0_r, ?Z.add_0_r; try done; unfold calcWeight;
    rewrite ?Z.mul_0_l; simpl; lia.
Qed.

Lemma abs_WithdrawDelegation_inv now id v d x :
  Inv (λ _, now) x → vDels x !! id = Some d → vVals x !! DelValidation d = Some v →
  is_locked (classify v now d) = false →
  Inv (λ _, now) (abs_WithdrawDelegation now id v d x).
Proof.
  intros HI Hd Ha Hnl. pose proof (Inv_vlocal _ _ _ _ HI Ha) as Hl.
  pose proof (l_dels _ _ _ _ Hl id d Hd eq_refl) as Hdok.
  pose proof (aggSpec_emptied _ _ _ _ _ _ Hl Hd eq_refl Hnl) as Hagg. simpl in Hagg.
  destruct (del_ok_nonneg _ _ _ Hdok) as [? ?].
  eapply Inv_setDel with (v := v); [..|exact Hagg| | | | | | | | | | |]; try done.
  - naive_solver.
  - destruct Hdok. by split.
  - destruct (is_pending _); [apply (aggOf_insert_eq (vAggs x))|done].
  - intros b Hb. destruct (is_pending _); [by apply aggOf_insert_ne|done].
  - apply Hl.
  - destruct (is_pending (classify v now d)) eqn:Ep; [|apply Hl].
    apply bool_decide_eq_true in Ep.
    destruct (pending_le _ _ _ _ _ _ Hl Hd eq_refl Ep) as [Hle1 Hle2]. simpl in Hle1, Hle2.
    pose proof (l_ok _ _ _ _ Hl) as Hok. unfold status_ok in *. unfold classify in Ep.
    destruct (ValStatus v); try done; destruct Hok as [].
    + split; simpl; try done. lia.
    + split; simpl; try done; [lia|]. destruct (ExitBlock v); [done|].
      destruct a_exit as [? [?|(? & ? & Ep0 & ?)]]; split; try tauto. right. split_and!; try done.
      rewrite Ep0 in *. simpl in *. assert (Stake d = 0) as E0 by lia.
      apply ws_eq; simpl; rewrite E0; try done.
  - destruct (is_pending _); simpl; lia.
  - by destruct (is_pending _).
  - by destruct (is_pending _).
  - by destruct (is_pending _).
  - rewrite (dsum_insert_Some _ _ _ _ Hd). destruct (is_pending _); simpl; lia.
  - pose proof (inv_supply _ _ HI).
    destruct (is_pending _); unfold gs_total, lockedOf in *; simpl; lia.
  - by apply (inv_ids _ _ HI) in Hd.
Qed.

Lemma wp_WithdrawDelegation now id s x :
  view_of s x → Inv (λ _, now) x → funded s 0 → block_ok now →
  wp (WithdrawDelegation id now) (λ n s', ∃ v d,
    let x' := abs_WithdrawDelegation now id v d x in
    vDels x !! id = Some d ∧ vVals x !! DelValidation d = Some v ∧ n = Stake d ∧ 0 ≤ n ∧
    can_WithdrawDelegation now id x ∧
    view_of s' x' ∧ Inv (λ _, now) x' ∧ funded s' n) (refuses (can_WithdrawDelegation now id x)) s.
Proof.
  intros Hx HI Hf Hblk. unfold WithdrawDelegation.
  wp_step. eapply wp_del_lookup; [done|]. wp_step. wp_step; [refuse|]. rename a into d, H into Hd.
  destruct (del_lookup HI id d Hd) as (v & Ha & _). pose proof (Inv_vlocal _ _ _ _ HI Ha) as Hl.
  wp_step. eapply wp_val_lookup; [done|done|]. intros w Hw. subst v. apply vlocal_strip in Hl.
  pose proof (l_dels _ _ _ _ Hl id d Hd eq_refl) as Hdok.
  destruct (Started_Ended _ _ _ _ d Hl Hblk Hdok) as (st & en & -> & -> & Hlk & Hpd).
  do 4 wp_step. wp_step. apply wp_reject.
  { intros [-> ?%negb_true_iff]%andb_true_iff. subst en. split; [by eexists|].
    intros (d' & v' & Hd' & Hv' & Hc). simplify_eq.
    change (classify (strip w) now d) with (classify w now d) in Hc.
    by rewrite (proj1 Hlk) in Hc. }
  intros H1. assert (is_locked (classify w now d) = false) as Hnl.
  { apply not_true_is_false. intros [-> ->]%Hlk. done. }
  assert (can_WithdrawDelegation now id x) as Hcan by (by exists d, (strip w)).
  pose proof (abs_WithdrawDelegation_inv now id (strip w) d x HI Hd Ha Hnl) as HI'.
  assert (negb st && bool_decide (ValStatus w ≠ StatusExit) = is_pending (classify w now d)) as ->.
  { unfold is_pending. apply eq_bool_prop_intro. rewrite andb_True, negb_True, !bool_decide_spec.
    rewrite <- Hpd. destruct st; naive_solver. }
  pose proof (Inv_stats HI') as Hst'. unfold abs_WithdrawDelegation in Hst', HI'. simpl in Hst'.
  assert (classify (strip w) now d = classify w now d) as Ec by done. rewrite Ec in Hst'.
  destruct (stats_gs_ok _ (Inv_stats HI)) as (_ & Gq & Gw & _).
  destruct (vlocal_agg_facts _ _ _ _ Hl) as [[? ?] [? ?] [? ?] [? ?]].
  destruct (vlocal_amounts _ _ _ _ Hl) as [? ? (? & ? & ?)].
  destruct (del_ok_nonneg _ _ _ Hdok) as [? ?]. unfold vLocked, vQueued in *. consts.
  unfold delegation_Withdraw. do 5 wp_step. simpl. wp_step.
  assert (∀ s' g, globalStatsService s' = g → gs_total g + Stake d = gs_total (vStats x) →
    effectiveVET s' = effectiveVET s → balance s' = balance s → funded s' (Stake d)) as Hfund.
  { intros s' g Hg Ht He Hb. destruct Hf as [? Hfe Hfb]. split; [lia| |by rewrite He, Hb].
    rewrite He, Hfe, Hg, (vo_stats _ _ Hx). f_equal. lia. }
  destruct (is_pending (classify w now d)) eqn:Ep.
  - apply bool_decide_eq_true in Ep.
    destruct (pending_le _ _ _ _ _ _ Hl Hd eq_refl Ep) as [Hle1 Hle2]. simpl in Hle1, Hle2.
    destruct (Inv_shares HI _ _ Ha) as [Sq _ _ _ _]. unfold vQueued in Sq. simpl in Sq.
    wp_step. wp_step. apply wp_SubPendingVet; simpl; rewrite ?(vo_aggs _ _ Hx);
      [split_and!; split; ulia|split; simpl; ulia|done|].
    wp_step. apply wp_RemoveQueued; simpl; rewrite ?(vo_stats _ _ Hx); [ulia|done| |lia].
    intros _. wp_step. eapply wp_ContractBalanceCheck; [exact Hst'| |].
    { eapply Hfund; [done|..]; try done. unfold gs_total, lockedOf. simpl. lia. }
    wp_step. exists (strip w), d. split_and!; try done; try lia.
    + destruct Hx as [? ? ? ? Hxd ?]. unfold abs_WithdrawDelegation. cbv zeta. rewrite Ec, Ep.
      split; simpl; try done. by rewrite Hxd.
    + eapply Hfund; [done|..]; try done. unfold gs_total, lockedOf. simpl. lia.
  - assert (heldStake (λ _, now) (vVals x) d = 0) as Hheld.
    { unfold heldStake. rewrite Ha. simpl. by rewrite Ec, Hnl, Ep. }
    pose proof (free_withdrawable HI id d Hd Hheld).
    wp_step. apply wp_RemoveWithdrawable; simpl; rewrite ?(vo_stats _ _ Hx); [ulia|done| |lia].
    intros _. wp_step. eapply wp_ContractBalanceCheck; [exact Hst'| |].
    { eapply Hfund; [done|..]; try done. unfold gs_total, lockedOf. simpl. lia. }
    wp_step. exists (strip w), d. split_and!; try done; try lia.
    + destruct Hx as [? ? ? ? Hxd ?]. unfold abs_WithdrawDelegation. cbv zeta. rewrite Ec, Ep.
      split; simpl; try done. by rewrite Hxd.
    + eapply Hfund; [done|..]; try done. unfold gs_total, lockedOf. simpl. lia.
Qed.
End delegation_ops.
