(* ===== verification/Housekeep.v ===== *)
(** * Package staker: epoch transitions

    [src/builtin/staker/housekeep.go], [transition.go] and [protocol.go]: at an
    epoch boundary the contract renews the staking periods that end, exits one
    validator, signals the exit of offline validators and activates queued
    ones.  The first such transition switches the chain from PoA to PoS. *)

From S2P Require Import Prelude Thor Stakes GlobalStats Aggregation Validation Delegation.
From S2P Require Import Storage LinkedList RenewalList Repository ValidationService Staker.

Record EpochTransition := MkEpochTransition {
  Block : Z;
  Renewals : list Address;
  ExitValidatorAddr : Address;
  Evictions : list Address;
  ActivationCount : Z;
}.

Definition HasUpdates (et : EpochTransition) : bool :=
  bool_decide (Renewals et ≠ []) || negb (IsZero (ExitValidatorAddr et)) ||
  bool_decide (Evictions et ≠ []) || (0 <? ActivationCount et).

Record SyncStatus := MkSyncStatus { SyncActive : bool; SyncUpdates : bool }.

Section ops.
Context `{SM : SafeMath} `{CFG : Config}.

Definition evictionCallback (currentBlock : Z) (evictions : list Address)
    (validator : Address) (entry : Validation) : result (list Address) :=
  match OfflineBlock entry with
  | Some off =>
      if (off +u32 ValidatorEvictionThreshold <? currentBlock)
         && bool_decide (ExitBlock entry = None)
      then Ok (evictions ++ [validator]) else Ok evictions
  | None => Ok evictions
  end.

Definition computeActivationCount (hasValidatorExited : bool) : M Staker Z :=
  queuedSize ← QueuedGroupSize;
  leaderSize ← LeaderGroupSize;
  let leaderSize := if hasValidatorExited then leaderSize -u64 1 else leaderSize in
  mbp ← gets maxBlockProposersParam;
  let maxBlockProposers := GetMaxBlockProposers mbp false in
  if (maxBlockProposers <=? leaderSize) || (queuedSize <=? 0) then mret 0 else
  let leaderDelta := maxBlockProposers -u64 leaderSize in
  if leaderDelta <=? 0 then mret 0 else
  if leaderDelta <? queuedSize then mret leaderDelta else
  mret queuedSize.

Definition computeEpochTransition (currentBlock : Z) : M Staker EpochTransition :=
  evictions ←
    (if negb (currentBlock =? 0) && (currentBlock mod EvictionCheckInterval =? 0)
     then zoom validationService (LeaderGroupIterator (evictionCallback currentBlock) [])
     else mret []);
  renewals ← zoom validationService (UpdateGroup currentBlock);
  exitValidator ← zoom validationService (GetValidatorForExitBlock currentBlock);
  activationCount ← computeActivationCount (negb (IsZero exitValidator));
  mret {| Block := currentBlock; Renewals := renewals; ExitValidatorAddr := exitValidator;
          Evictions := evictions; ActivationCount := activationCount |}.

Definition activateNextValidation (currentBlk maxLeaderGroupSize : Z) : M Staker Address :=
  '(validator, validation) ← zoom validationService (NextToActivate maxLeaderGroupSize);
  '(aggRenew, _) ← zoom aggregationService (aggregation_Renew validator);
  validatorRenewal ← zoom validationService
    (ActivateValidator validator validation currentBlk aggRenew);
  globalRenewal ← lift (Renewal_Add validatorRenewal (Some aggRenew));
  zoom globalStatsService (ApplyRenewal globalRenewal) ;;
  mret validator.

(** One iteration of the renewal loop. *)
Definition renewOne (accumulatedRenewal : Renewal) (validator : Address) : M Staker Renewal :=
  '(aggRenewal, delegationWeight) ← zoom aggregationService (aggregation_Renew validator);
  accumulatedRenewal ← lift (Renewal_Add accumulatedRenewal (Some aggRenewal));
  valRenewal ← zoom validationService (service_Renew validator delegationWeight);
  accumulatedRenewal ← lift (Renewal_Add accumulatedRenewal (Some valRenewal));
  zoom validationService (RemoveFromRenewalList validator) ;;
  mret accumulatedRenewal.

Definition exitOne (validator : Address) : M Staker unit :=
  valExit ← zoom validationService (ExitValidator validator);
  aggExit ← zoom aggregationService (aggregation_Exit validator);
  zoom globalStatsService (ApplyExit valExit aggExit).

Definition evictOne (block : Z) (_ : unit) (validator : Address) : M Staker unit :=
  zoom validationService (service_SignalExit validator block (block +u32 EpochLength)
    (Z.to_nat InitialMaxBlockProposers)).

Definition applyEpochTransition (transition : EpochTransition) : M Staker unit :=
  accumulatedRenewal ← foldM renewOne NewRenewal (Renewals transition);
  zoom globalStatsService (ApplyRenewal accumulatedRenewal) ;;
  when (negb (IsZero (ExitValidatorAddr transition)))
    (exitOne (ExitValidatorAddr transition)) ;;
  foldM (evictOne (Block transition)) tt (Evictions transition) ;;
  mbp ← gets maxBlockProposersParam;
  let maxBlockProposers := GetMaxBlockProposers mbp false in
  repeatM (Z.to_nat (ActivationCount transition))
    (activateNextValidation (Block transition) maxBlockProposers ;; mret tt).

Definition Housekeep (currentBlock : Z) : M Staker bool :=
  if negb (currentBlock mod EpochLength =? 0) then mret false else
  transition ← computeEpochTransition currentBlock;
  if negb (HasUpdates transition) then mret false else
  applyEpochTransition transition ;;
  ContractBalanceCheck 0 ;;
  mret true.

Definition staker_transition (currentBlock : Z) : M Staker bool :=
  if negb (currentBlock mod EpochLength =? 0) then mret false else
  active ← IsPoSActive;
  if active : bool then mret false else
  mbp ← gets maxBlockProposersParam;
  let maxBlockProposers := GetMaxBlockProposers mbp false in
  queueSize ← zoom validationService service_QueuedGroupSize;
  if (queueSize *u64 3) <? (maxBlockProposers *u64 2) then mret false else
  transition ← computeEpochTransition currentBlock;
  applyEpochTransition transition ;;
  mret true.

(** [hayabusa] is [forkConfig.HAYABUSA]. *)
Definition SyncPOS (hayabusa current : Z) : M Staker SyncStatus :=
  if current <? (hayabusa +u32 HayabusaTP) then mret (MkSyncStatus false false) else
  active ← IsPoSActive;
  activated ←
    (if negb active && ((HayabusaTP =? 0) || ((current -u32 hayabusa) mod HayabusaTP =? 0))
     then staker_transition current
     else mret false);
  let status :=
    if activated : bool then MkSyncStatus true true else MkSyncStatus active false in
  if SyncActive status && negb activated then
    updates ← Housekeep current;
    mret (MkSyncStatus (SyncActive status) updates)
  else mret status.
End ops.
