(* ===== verification/HousekeepInv.v ===== *)
(** * Epoch transitions keep the invariant and never fail

    The proof follows [applyEpochTransition] of [src/builtin/staker/housekeep.go].
    Validators whose staking period does not end, or ends with nothing to
    settle, pass to the new block unchanged ([Inv_advance]); the renewal loop,
    the exit and the activations settle the others one by one, and the
    validator's clock moves to the new block with them. *)

From S2P Require Import Prelude Thor Stakes GlobalStats Aggregation Validation Delegation.
From S2P Require Import Storage LinkedList RenewalList Repository ValidationService Staker.
From S2P Require Import StakerInv StakerOps DelegationOps Housekeep.

(** ** Passing to a later block *)
Section advance.
Context `{CFG : Config} (OK : config_ok CFG).

Lemma classify_iter v t d : del_ok v t d →
  ValStatus v = StatusActive ∨ ValStatus v = StatusQueued →
  classify v t d =
    if iter v t <? FirstIteration d then DPending else
    match LastIteration d with
    | None => DLocked
    | Some j => if j <? iter v t then DFree else DExiting
    end.
Proof.
  intros [_ _ Hf _] [Hs|Hs]; unfold classify; rewrite Hs; [done|].
  unfold iter in *. rewrite Hs in *. zcase; [done|lia].
Qed.

(** Entering the next staking period: pending becomes locked, exiting leaves. *)
Lemma classify_next v v' t t' d : del_ok v t d →
  ValStatus v = StatusActive ∨ ValStatus v = StatusQueued →
  ValStatus v' = StatusActive → iter v' t' = iter v t + 1 →
  classify v' t' d = match classify v t d with
    | DPending | DLocked => DLocked | DExiting | DFree => DFree end.
Proof.
  intros Hd Hs Hs' Hit. rewrite (classify_iter v t d Hd Hs). destruct Hd as [_ _ Hf Hl].
  unfold classify. rewrite Hs', Hit.
  destruct (Z.ltb_spec (iter v t + 1) (FirstIteration d)); [lia|].
  destruct (LastIteration d) as [j|]; [specialize (Hl j eq_refl)|];
    repeat zcase; try done; lia.
Qed.

Lemma aggSpec_next D a v v' t t' :
  (∀ id d, D !! id = Some d → DelValidation d = a → del_ok v t d) →
  ValStatus v = StatusActive ∨ ValStatus v = StatusQueued →
  ValStatus v' = StatusActive → iter v' t' = iter v t + 1 →
  aggSpec D a v' t' = agg_next (aggSpec D a v t).
Proof.
  intros Hd Hs Hs' Hit.
  assert (∀ id d c, D !! id = Some d → delsOf a v' t' c d = delsOf a v t (λ k, c (match k with
    | DPending | DLocked => DLocked | DExiting | DFree => DFree end)) d) as Hc.
  { intros id d c Hid. unfold delsOf. destruct (Z.eqb_spec (DelValidation d) a); [|done]. simpl.
    by rewrite (classify_next v v' t t' d (Hd id d Hid ltac:(done)) Hs Hs' Hit). }
  unfold aggSpec, agg_next. simpl. f_equal.
  - unfold wsum, ws_sub, ws_add. simpl. f_equal; rewrite <- msum_add, <- msum_sub; apply msum_ext;
      intros id d Hid; rewrite (Hc id d _ Hid); unfold delsOf;
      destruct (DelValidation d =? a), (classify v t d); simpl; lia.
  - apply wsum_zero. intros id d Hid. rewrite (Hc id d _ Hid). unfold delsOf.
    destruct (DelValidation d =? a), (classify v t d); done.
  - apply wsum_zero. intros id d Hid. rewrite (Hc id d _ Hid). unfold delsOf.
    destruct (DelValidation d =? a), (classify v t d); done.
Qed.

Lemma agg_next_id g : Pending g = WS0 → Exiting g = WS0 → agg_next g = g.
Proof.
  intros Hp He. unfold agg_next. rewrite Hp, He. destruct g as [l p e]; simpl in *. subst.
  f_equal. apply ws_eq; simpl; lia.
Qed.

Lemma aggSpec_same D a v v' t t' :
  (∀ d, classify v' t' d = classify v t d) → aggSpec D a v' t' = aggSpec D a v t.
Proof.
  intros Hc. unfold aggSpec. f_equal; apply wsum_ext; intros id d _; unfold delsOf; by rewrite Hc.
Qed.

(** The staking period that ends at [t + 1]. *)
Definition endsAt (v : Validation) (t' : Z) : bool := (t' - StartBlock v) mod Period v =? 0.

Lemma iter_succ x t a v : vlocal x t a v → ValStatus v = StatusActive → ExitBlock v = None →
  iter v (t + 1) = if endsAt v (t + 1) then iter v t + 1 else iter v t.
Proof.
  intros Hl Hs He. destruct (vlocal_active _ _ _ _ Hl Hs) as [[[? _] _ _ _ _ _ _ Hex] _].
  rewrite He in Hex. destruct Hex as [Hc _].
  destruct (period_pos OK _ (l_period _ _ _ _ Hl)) as [Hp _].
  unfold iter, endsAt. rewrite Hs, Hc. simpl.
  replace (t + 1 - StartBlock v) with (t - StartBlock v + 1) by lia.
  generalize dependent (t - StartBlock v). intros n.
  pose proof (Z.div_mod n (Period v)). pose proof (Z.mod_pos_bound n (Period v)).
  pose proof (Z.div_mod (n + 1) (Period v)). pose proof (Z.mod_pos_bound (n + 1) (Period v)).
  zcase; nia.
Qed.

(** Nothing is due for [a] at [t + 1]. *)
Definition idle (x : View) (a : Address) (v : Validation) (t' : Z) : Prop :=
  ValStatus v = StatusActive →
  match ExitBlock v with
  | Some b => b ≠ t'
  | None => endsAt v t' = true → a ∉ vR x
  end.

Lemma vlocal_advance x t a v : vlocal x t a v → idle x a v (t + 1) → vlocal x (t + 1) a v.
Proof.
  intros Hl Hidle. pose proof Hl as [G1 G2 G3 G4 G5 G6 G7 G8 G9 G10].
  assert (∀ b, t + 1 < b < max32 → exitOf x b = a →
    ValStatus v = StatusActive ∧ ExitBlock v = Some b) as Hslot by (intros; apply G10; [lia|done]).
  assert ((∀ d, classify v (t + 1) d = classify v t d) → iter v (t + 1) = iter v t →
    status_ok v (aggOf (vAggs x) a) (t + 1) (a ∈ vR x) → vlocal x (t + 1) a v) as Hsame.
  { intros Hc Hi Hok. split; try done.
    - intros id d Hd Ha. destruct (G7 id d Hd Ha). split; try done; by rewrite Hi.
    - by rewrite G8, (aggSpec_same _ _ v v t (t + 1)). }
  unfold idle in Hidle. unfold status_ok in G6, Hsame.
  destruct (ValStatus v) eqn:Hs; [done| | |].
  - apply Hsame; [|unfold iter; by rewrite Hs|done]. intros d. unfold classify. by rewrite Hs.
  - specialize (Hidle eq_refl). destruct (vlocal_active _ _ _ _ Hl Hs) as [Hok _].
    destruct (ExitBlock v) as [b|] eqn:He.
    + assert (iter v (t + 1) = iter v t) as Hi.
      { destruct Hok as [_ _ _ _ _ _ _ Hex]. rewrite He in Hex. unfold iter. rewrite Hs.
        zcase; [done|lia]. }
      apply Hsame; [intros d; unfold classify; by rewrite Hs, Hi|done|].
      destruct Hok as [Hst ? ? ? ? ? ? Hex]. rewrite He in Hex. destruct Hex as (? & [? ?] & ?).
      split; try done; [split; [lia|apply Hst]|]. rewrite He. split; [done|]. split; [lia|done].
    + pose proof (iter_succ _ _ _ _ Hl Hs He) as Hi.
      assert (active_ok v (aggOf (vAggs x) a) (t + 1) (a ∈ vR x)) as Hok'.
      { destruct Hok as [[Hst ?] ? ? ? ? ? ? Hex]. rewrite He in Hex.
        split; try done; [split; [lia|done]|]. by rewrite He. }
      destruct (endsAt v (t + 1)) eqn:Hend.
      * assert (Pending (aggOf (vAggs x) a) = WS0 ∧ Exiting (aggOf (vAggs x) a) = WS0) as [HP HE].
        { destruct Hok as [_ _ _ _ _ _ _ Hex]. rewrite He in Hex. naive_solver. }
        split; try done; rewrite ?Hs, ?He; try done.
        -- unfold status_ok. by rewrite Hs.
        -- intros id d Hd Ha. destruct (G7 id d Hd Ha) as [? ? ? Hlast].
           split; try done; rewrite Hi; [lia|]. intros j Hj. specialize (Hlast j Hj). lia.
        -- rewrite (aggSpec_next _ _ v v t (t + 1)), <- G8, agg_next_id; auto.
      * apply Hsame; [|done|done]. intros d. unfold classify. by rewrite Hs, Hi.
  - apply Hsame; [|unfold iter; by rewrite Hs|done]. intros d. unfold classify. by rewrite Hs.
Qed.

(** Validators with nothing due move to the next block. *)
Lemma Inv_advance t clk x :
  Inv (λ _, t) x → (∀ a, clk a = t ∨ clk a = t + 1) →
  (∀ a v, vVals x !! a = Some v → clk a = t + 1 → idle x a v (t + 1)) →
  Inv clk x.
Proof.
  intros HI Hclk Hidle. split; try apply HI. intros a. pose proof (inv_local _ _ HI a) as Hl.
  unfold local in *. destruct (Hclk a) as [-> |E]; [done|]. rewrite E.
  destruct (vVals x !! a) as [v|] eqn:Ha.
  - apply vlocal_advance; eauto.
  - destruct Hl as [? ? ? ? ? Hs]. split; try done. intros b Hb. apply Hs. lia.
Qed.
End advance.

(** ** Renewing one validator *)

Definition afterMul (dw : Z) : Z := if 0 <? dw then MultiplierWithDelegations else Multiplier.
Definition nextLocked (v : Validation) : Z := LockedVET v + QueuedVET v - PendingUnlockVET v.

(** [Validation.renew] in unbounded arithmetic. *)
Definition val_next (v : Validation) (dw : Z) : Validation :=
  v <| LockedVET := nextLocked v |>
    <| WithdrawableVET := WithdrawableVET v + PendingUnlockVET v |>
    <| ValWeight := calcWeight (nextLocked v) (afterMul dw) + dw |>
    <| QueuedVET := 0 |> <| PendingUnlockVET := 0 |>.

Definition val_delta (v : Validation) (dw : Z) : Renewal :=
  let prev := calcWeight (LockedVET v) (multiplier v) in
  let after := calcWeight (nextLocked v) (afterMul dw) in
  MkRenewal (MkWS (QueuedVET v) (if prev <? after then after - prev else 0))
    (MkWS (PendingUnlockVET v) (if prev <? after then 0 else prev - after)) (QueuedVET v).

Definition renew_delta (v : Validation) (g : Aggregation) : Renewal :=
  renewal_add (agg_delta g) (val_delta v (Weight (Locked (agg_next g)))).

Definition abs_Renew (a : Address) (v : Validation) (x : View) : View :=
  let g := aggOf (vAggs x) a in
  x <| vVals := <[a := val_next v (Weight (Locked (agg_next g)))]> (vVals x) |>
    <| vR := filter (.≠ a) (vR x) |>
    <| vAggs := <[a := agg_next g]> (vAggs x) |>
    <| vStats := gs_renew (renew_delta v g) (vStats x) |>.

Definition setClk (clk : Address → Z) (a : Address) (t : Z) : Address → Z :=
  λ b, if decide (b = a) then t else clk b.

(** All components between 0 and [n], and what becomes locked leaves the queue. *)
Record small (n : Z) (r : Renewal) : Prop := {
  sm_inc : 0 ≤ VET (LockedIncrease r) ≤ n ∧ 0 ≤ Weight (LockedIncrease r) ≤ n;
  sm_dec : 0 ≤ VET (LockedDecrease r) ≤ n ∧ 0 ≤ Weight (LockedDecrease r) ≤ n;
  sm_queued : 0 ≤ Renewal_QueuedDecrease r ≤ n;
  sm_balanced : VET (LockedIncrease r) = Renewal_QueuedDecrease r;
}.

Lemma small_add n m r t : small n r → small m t → small (n + m) (renewal_add r t).
Proof. intros [? ? ? ?] [? ? ? ?]. split; simpl; lia. Qed.

Lemma small_ok n r : small n r → n < max64 → renewal_ok r.
Proof. intros [? ? ? ?] ?. split_and!; [split|split|]; ulia. Qed.

Lemma setClk_eq clk a t : setClk clk a t a = t.
Proof. unfold setClk. by rewrite decide_True. Qed.
Lemma setClk_ne clk a t b : b ≠ a → setClk clk a t b = clk b.
Proof. intros. unfold setClk. by rewrite decide_False. Qed.

Section renew.
Context `{SMS : SafeMathSpec} `{CFG : Config} (OK : config_ok CFG).

Lemma multiplier_cases v : multiplier v = Multiplier ∨ multiplier v = MultiplierWithDelegations.
Proof. unfold multiplier. zcase; auto. Qed.

Lemma calcWeight_mult n m : 0 ≤ n < 2 ^ 56 →
  m = Multiplier ∨ m = MultiplierWithDelegations → 0 ≤ calcWeight n m ≤ 2 * n.
Proof.
  intros Hn [-> | ->]; unfold Multiplier, MultiplierWithDelegations;
    [rewrite calcWeight_100|rewrite calcWeight_200]; lia.
Qed.

Lemma afterMul_cases dw : afterMul dw = Multiplier ∨ afterMul dw = MultiplierWithDelegations.
Proof. unfold afterMul. zcase; auto. Qed.

(** The acting multiplier explains the stored weight. *)
Lemma multiplier_ok v g t P : active_ok v g t P → agg_facts g →
  ValWeight v = calcWeight (LockedVET v) (multiplier v) + Weight (Locked g).
Proof.
  intros [_ Hn _ Hmin Hmax _ (m & Hm & Hw & Hz) _] [[? ?] _ _ _]. consts. unfold multiplier.
  unfold Multiplier, MultiplierWithDelegations in *.
  destruct Hm as [-> | ->]; [rewrite calcWeight_100 in Hw by lia|rewrite calcWeight_200 in Hw by lia].
  - rewrite Hz, Z.add_0_r in Hw by done. rewrite Hw, Z.eqb_refl, calcWeight_100, Hz by (done || lia).
    lia.
  - zcase; [lia|]. rewrite calcWeight_200; lia.
Qed.

Lemma Validation_renew_ok v g dw : amounts_ok v g → agg_facts g → 0 ≤ dw ≤ 6 * MaxStakeVET →
  WithdrawableVET v ≤ MaxSupply →
  Validation_renew v dw = Ok (val_delta v dw, val_next v dw).
Proof.
  intros [? _ [? ?]] [[? ?] [? ?] _ _] Hdw HW. unfold vLocked, vQueued in *. consts.
  unfold Validation_renew, val_delta, val_next, nextLocked. cbv zeta. simpl.
  rewrite (wrap64_id (LockedVET v + QueuedVET v)) by ulia.
  destruct (SafeSub_cases (LockedVET v + QueuedVET v) (PendingUnlockVET v)) as [[_ ->]|[? _]];
    [ulia|ulia| |lia].
  fold (afterMul dw).
  pose proof (calcWeight_mult (LockedVET v) (multiplier v) ltac:(lia) (multiplier_cases v)).
  pose proof (calcWeight_mult (LockedVET v + QueuedVET v - PendingUnlockVET v) (afterMul dw)
    ltac:(lia) (afterMul_cases dw)).
  destruct (Z.ltb_spec (calcWeight (LockedVET v) (multiplier v))
    (calcWeight (LockedVET v + QueuedVET v - PendingUnlockVET v) (afterMul dw)));
    unwrap; done.
Qed.

Lemma agg_next_facts g : agg_facts g →
  0 ≤ Weight (Locked (agg_next g)) ∧
  Weight (Locked (agg_next g)) ≤ 3 * (VET (Locked g) + VET (Pending g)) ∧
  0 ≤ VET (Locked (agg_next g)) ≤ VET (Locked g) + VET (Pending g).
Proof. intros [[? ?] [? ?] [? ?] [? ?]]. simpl. lia. Qed.

Lemma agg_delta_small v g : amounts_ok v g → agg_facts g → small (2 ^ 32) (agg_delta g).
Proof.
  intros [? _ [? ?]] [[? ?] [? ?] [? ?] [? ?]]. unfold vLocked, vQueued in *. consts.
  split; simpl; lia.
Qed.

Lemma val_delta_small v g dw : amounts_ok v g → agg_facts g → small (2 ^ 32) (val_delta v dw).
Proof.
  intros [? _ [? ?]] [[? ?] [? ?] [? ?] [? ?]]. unfold vLocked, vQueued in *. consts.
  pose proof (calcWeight_mult (LockedVET v) (multiplier v) ltac:(lia) (multiplier_cases v)).
  pose proof (calcWeight_mult (nextLocked v) (afterMul dw) ltac:(unfold nextLocked; lia)
    (afterMul_cases dw)).
  unfold val_delta. cbv zeta.
  destruct (Z.ltb_spec (calcWeight (LockedVET v) (multiplier v))
    (calcWeight (nextLocked v) (afterMul dw))); split; simpl in *; unfold nextLocked in *; lia.
Qed.

Lemma renew_delta_small v g : amounts_ok v g → agg_facts g → small (2 ^ 33) (renew_delta v g).
Proof.
  intros Ham Hg. change (2 ^ 33) with (2 ^ 32 + 2 ^ 32).
  apply small_add; [by eapply agg_delta_small|by eapply val_delta_small].
Qed.

Lemma active_next v g t P : active_ok v g t P → agg_facts g → ExitBlock v = None →
  CompletedPeriods v = 0 →
  active_ok (val_next v (Weight (Locked (agg_next g)))) (agg_next g) (t + 1) False.
Proof.
  intros [[? ?] ? ? ? ? ? _ _] Hg He Hc. pose proof (agg_next_facts g Hg) as (? & ? & ?).
  destruct Hg as [[? ?] [? ?] [? ?] [? ?]].
  unfold nextLocked. split; unfold nextLocked; simpl; try done; try lia.
  - split; [lia|done].
  - unfold nextLocked. lia.
  - unfold nextLocked. lia.
  - exists (afterMul (Weight (Locked (agg_next g)))). split; [apply afterMul_cases|].
    split; [done|]. unfold afterMul, Multiplier, MultiplierWithDelegations. simpl in *. zcase; lia.
  - rewrite He. split; [done|]. by right.
Qed.

Lemma abs_Renew_inv clk t a v x :
  Inv clk x → clk a = t → vVals x !! a = Some v → ValStatus v = StatusActive →
  ExitBlock v = None → endsAt v (t + 1) = true →
  Inv (setClk clk a (t + 1)) (abs_Renew a v x).
Proof.
  intros HI Ht Ha Hs He Hend. pose proof (Inv_vlocal _ _ _ _ HI Ha) as Hl. rewrite Ht in Hl.
  pose proof (vlocal_agg_facts _ _ _ _ Hl) as Hg.
  destruct (vlocal_active _ _ _ _ Hl Hs) as [Hok HA].
  pose proof (multiplier_ok _ _ _ _ Hok Hg) as Hmul.
  pose proof (iter_succ OK _ _ _ _ Hl Hs He) as Hit. rewrite Hend in Hit.
  assert (CompletedPeriods v = 0) as Hc.
  { destruct Hok as [_ _ _ _ _ _ _ Hex]. rewrite He in Hex. tauto. }
  pose proof (active_next _ _ _ _ Hok Hg He Hc) as Hok'.
  set (v' := val_next v (Weight (Locked (agg_next (aggOf (vAggs x) a))))) in *.
  assert (iter v' (t + 1) = iter v t + 1) as Hit' by exact Hit.
  eapply (Inv_step clk) with (a := a) (v' := v'); [exact HI|done|..]; simpl.
  - intros b Hb. rewrite setClk_ne, aggOf_insert_ne, list_elem_of_filter by done. naive_solver.
  - by left.
  - done.
  - rewrite setClk_eq. destruct Hl as [G1 G2 G3 G4 G5 G6 G7 G8 G9 G10].
    split; simpl; rewrite ?aggOf_insert_eq; try done.
    + eapply (status_ok_iff _ _ _ False); [rewrite list_elem_of_filter; naive_solver|].
      unfold status_ok. change (ValStatus v') with (ValStatus v). by rewrite Hs.
    + intros id d Hd Hda. destruct (G7 id d Hd Hda) as [? ? ? Hlast].
      split; try done; rewrite Hit'; [lia|]. intros j Hj. specialize (Hlast j Hj). lia.
    + rewrite (aggSpec_next _ _ v v' t (t + 1)), G8; auto.
    + intros b Hb Hx. apply (G10 b); [lia|done].
  - destruct Hg as [[? ?] [? ?] [? ?] [? ?]].
    eapply (acct_step x) with (a := a) (v' := v'); [apply HI|done|..]; simpl;
      [intros; by apply aggOf_insert_ne|..]; rewrite Ha, ?aggOf_insert_eq;
      unfold contrib, vQueued, vLocked, vWeight, vCooldown, vFree, nextLocked, lockedOf, v';
      simpl; unfold nextLocked in *; try lia.
    rewrite Hmul. case_match; lia.
  - pose proof (inv_supply _ _ HI). unfold gs_total in *. simpl in *.
    unfold lockedOf in *. simpl. lia.
  - apply HI.
  - apply HI.
Qed.
End renew.

(** ** The renewal loop *)

(** The parts of the state that the validators' bookkeeping does not touch. *)
Record same_funds (s s' : Staker) : Prop := {
  sf_stats : globalStatsService s' = globalStatsService s;
  sf_eff : effectiveVET s' = effectiveVET s;
  sf_bal : balance s' = balance s;
  sf_param : maxBlockProposersParam s' = maxBlockProposersParam s;
}.

#[export] Instance same_funds_preorder : PreOrder same_funds.
Proof.
  split; [by intros s|]. intros s1 s2 s3 [? ? ? ?] [? ? ? ?]. split; congruence.
Qed.

Lemma renewal_add_assoc r t u : renewal_add (renewal_add r t) u = renewal_add r (renewal_add t u).
Proof. unfold renewal_add. f_equal; [apply ws_eq; simpl; lia..|simpl; lia]. Qed.

Lemma gs_renew_add r t g : gs_renew (renewal_add r t) g = gs_renew t (gs_renew r g).
Proof.
  apply gs_eq; simpl; [|lia..]. f_equal. apply ws_eq; simpl; lia.
Qed.

Section renewal_loop.
#[local] Arguments Renewal_Add : simpl never.
#[local] Arguments Validation_renew : simpl never.
Context `{SMS : SafeMathSpec} `{CFG : Config} (OK : config_ok CFG).

Lemma wp_renewOne clk t a v acc n s x G :
  view_of s (x <| vStats := G |>) → Inv clk x → clk a = t → vVals x !! a = Some v →
  ValStatus v = StatusActive → ExitBlock v = None → endsAt v (t + 1) = true →
  small n acc → n + 2 ^ 33 < max64 →
  wp (renewOne acc a) (λ acc' s', let x' := abs_Renew a v x in
    acc' = renewal_add acc (renew_delta v (aggOf (vAggs x) a)) ∧ small (n + 2 ^ 33) acc' ∧
    view_of s' (x' <| vStats := G |>) ∧ Inv (setClk clk a (t + 1)) x' ∧ same_funds s s') never s.
Proof.
  intros Hx HI Ht Ha Hs He Hend Hsm Hn.
  pose proof (abs_Renew_inv OK clk t a v x HI Ht Ha Hs He Hend) as HI'.
  destruct (val_amounts HI a v Ha) as [Hg Ham].
  destruct (Inv_shares HI a v Ha) as [_ _ _ _ Hshare].
  pose proof (so_total _ (Inv_stats HI)) as Htot. unfold gs_total in Htot.
  destruct (so_nonneg _ (Inv_stats HI)) as (? & ? & ? & ?).
  pose proof (renew_delta_small v _ Ham Hg) as Hds.
  pose proof (agg_next_facts _ Hg) as (? & ? & ?).
  pose proof (small_add _ _ _ _ Hsm Hds) as Hsm'.
  assert (renewal_ok (renewal_add acc (agg_delta (aggOf (vAggs x) a)))) as Hok1.
  { apply (small_ok (n + 2 ^ 32)); [|lia]. apply small_add; [done|by eapply agg_delta_small]. }
  unfold renewOne.
  pose proof Ham as [? ? (? & ? & ?)]. unfold vLocked, vQueued in *.
  pose proof Hg as [[? ?] [? ?] [? ?] [? ?]]. consts.
  wp_step. wp_step. apply wp_aggregation_Renew; rewrite ?(vo_aggs _ _ Hx); simpl;
    [split_and!; split; ulia|split; simpl; ulia|split; simpl; lia|].
  do 2 wp_step. rewrite Renewal_Add_ok;
    [|by eapply small_ok; [done|lia]|split_and!; [split| split|]; simpl; ulia|done].
  do 2 wp_step. unfold service_Renew. simpl.
  destruct (repr_lookup_inv _ _ _ _ _ _ _ (vo_repr _ _ Hx) Ha) as (w & Hw & <-).
  wp_step. eapply wp_GetExistingValidation; [done|].
  do 2 wp_step.
  rewrite (Validation_renew_ok w (aggOf (vAggs x) a));
    [|destruct Ham; split; done|done|simpl in *; consts; lia|simpl in *; consts; lia].
  wp_step. eapply (wp_updateValidation a w); [apply Hx|done|done|done|]. intros r' Hr' [_ Hex].
  wp_step. wp_step. wp_step.
  match goal with |- context [val_delta w ?dw] =>
    assert (renewal_add (renewal_add acc (agg_delta (aggOf (vAggs x) a))) (val_delta w dw) =
      renewal_add acc (renew_delta (strip w) (aggOf (vAggs x) a))) as Eadd
      by apply renewal_add_assoc
  end.
  rewrite Renewal_Add_ok, Eadd; [|done| |rewrite Eadd; by eapply small_ok].
  2: { eapply (small_ok (2 ^ 32)); [|ulia]. by apply (val_delta_small (strip w) _ _ Ham Hg). }
  wp_step. wp_step. eapply wp_RemoveFromRenewalList; [exact Hr'|]. intros r2 Hst2 Hr2. wp_step.
  split_and!; try done. destruct Hx as [? ? ? ? ? ?]. split; simpl; try done.
  rewrite Hst2. simpl. by rewrite Hex.
Qed.

(** What a renewal preserves besides the amounts. *)
Record val_frame (x x' : View) : Prop := {
  vf_A : vA x' = vA x;
  vf_Q : vQ x' = vQ x;
  vf_X : vExits x' = vExits x;
  vf_R : ∀ a, a ∈ vR x' → a ∈ vR x;
  vf_vals : ∀ a v, vVals x !! a = Some v → ∃ v', vVals x' !! a = Some v' ∧ same_clock v v';
  vf_settled : settled x x';
}.

Lemma val_frame_trans x y z : val_frame x y → val_frame y z → val_frame x z.
Proof.
  intros [? ? ? H1 H2 ?] [? ? ? H3 H4 ?]. split; try congruence; [eauto| |by etransitivity].
  intros a v Ha. destruct (H2 a v Ha) as (v' & Hv' & []).
  destruct (H4 a v' Hv') as (w & Hw & []). exists w. split; [done|]. split; congruence.
Qed.

Lemma abs_Renew_frame a v x : vVals x !! a = Some v → ExitBlock v = None → val_frame x (abs_Renew a v x).
Proof.
  intros Ha He. split; simpl; try done.
  - intros b. rewrite list_elem_of_filter. tauto.
  - intros b w Hb. rewrite lookup_insert. case_decide as E; [|by exists w].
    subst b. rewrite Ha in Hb. injection Hb as <-. eexists. split; [done|]. done.
  - eapply settled_set; [done| |done..]. split; try done.
    + unfold ownVET. simpl. unfold nextLocked. lia.
    + intros b Hb. congruence.
Qed.

Lemma Inv_clk_ext clk clk' x : (∀ a, clk' a = clk a) → Inv clk x → Inv clk' x.
Proof. intros E HI. split; try apply HI. intros a. rewrite E. apply HI. Qed.

(** The clock during the loop: the validators in [l] still wait at [t]. *)
Definition waiting (t : Z) (l : list Address) (clk : Address → Z) : Address → Z :=
  λ a, if decide (a ∈ l) then t else clk a.

Definition due (t : Z) (x : View) (a : Address) : Prop :=
  ∃ v, vVals x !! a = Some v ∧ ValStatus v = StatusActive ∧ ExitBlock v = None ∧
    endsAt v (t + 1) = true.

Record renew_state (t : Z) (clk : Address → Z) (G : GlobalStats) (x0 : View) (s0 : Staker)
    (acc : Renewal) (l : list Address) (s : Staker) (x : View) : Prop := {
  rs_view : view_of s (x <| vStats := G |>);
  rs_stats : vStats x = gs_renew acc G;
  rs_inv : Inv (waiting t l clk) x;
  rs_due : ∀ a, a ∈ l → due t x a ∧ clk a = t + 1;
  rs_nodup : NoDup l;
  rs_len : (length l ≤ 4000)%nat;
  rs_small : small (2 ^ 33 * (4000 - Z.of_nat (length l))) acc;
  rs_frame : val_frame x0 x;
  rs_funds : same_funds s0 s;
}.

Lemma renew_state_step t clk G x0 s0 acc a l s x :
  renew_state t clk G x0 s0 acc (a :: l) s x →
  wp (renewOne acc a) (λ acc' s', ∃ x', renew_state t clk G x0 s0 acc' l s' x') never s.
Proof.
  intros [Hv Hst HI Hdue [Hal Hnd]%NoDup_cons Hlen Hsm Hfr Hfu].
  destruct (Hdue a ltac:(set_solver)) as [(v & Ha & Hs & He & Hend) Hca]. simpl in Hlen.
  eapply wp_mono; [eapply (wp_renewOne (waiting t (a :: l) clk) t a v); try done|..].
  - unfold waiting. rewrite decide_True by set_solver. done.
  - simpl. ulia.
  - intros acc' s' (-> & Hsm' & Hv' & HI' & Hfu'). exists (abs_Renew a v x). split; try done.
    + simpl. by rewrite gs_renew_add, <- Hst.
    + eapply Inv_clk_ext; [|exact HI']. intros b. unfold waiting, setClk.
      destruct (decide (b = a)) as [->|Hne]; [by rewrite decide_False by done|].
      destruct (decide (b ∈ l)); [by rewrite decide_True by set_solver|].
      by rewrite decide_False by set_solver.
    + intros b Hb. destruct (Hdue b ltac:(set_solver)) as [(w & Hw & ?) ?]. split; [|done].
      exists w. simpl. rewrite lookup_insert_ne; [done|]. intros ->. done.
    + lia.
    + simpl in Hsm'. by replace (2 ^ 33 * (4000 - Z.of_nat (length l))) with
        (2 ^ 33 * (4000 - Z.of_nat (S (length l))) + 2 ^ 33) by lia.
    + eapply val_frame_trans; [done|]. by apply abs_Renew_frame.
    + by etransitivity.
  - done.
Qed.

(** The accumulated renewal can be applied to the counters. *)
Lemma wp_applyRenewals t clk x s l (P : unit → Staker → Prop) :
  view_of s x → Inv (waiting t l clk) x → NoDup l → (length l ≤ 4000)%nat →
  (∀ a, a ∈ l → due t x a ∧ clk a = t + 1) →
  (∀ s' x', view_of s' x' → Inv clk x' → val_frame x x' →
     effectiveVET s' = effectiveVET s → balance s' = balance s →
     maxBlockProposersParam s' = maxBlockProposersParam s →
     gs_total (vStats x') = gs_total (vStats x) → P tt s') →
  wp (acc ← foldM renewOne NewRenewal l; zoom globalStatsService (ApplyRenewal acc)) P never s.
Proof.
  intros Hx HI Hnd Hlen Hdue HP. wp_step.
  eapply wp_mono; [eapply (wp_foldM (λ acc l s', ∃ x',
    renew_state t clk (vStats x) x s acc l s' x'))|..].
  - exists (x <| vStats := gs_renew NewRenewal (vStats x) |>). split; simpl; try done.
    + by destruct x, Hx.
    + assert (lockedOf (gs_renew NewRenewal (vStats x)) = lockedOf (vStats x)) as El
        by (apply ws_eq; simpl; lia).
      destruct HI as [HI1 [? ? ? ? ?] HI3 ? ?]. split; simpl; try done.
      * intros a. apply (local_frame x _ _ (a + 1)); [apply HI1|lia|done..|by left|done].
      * split; simpl; try rewrite El; simpl; lia.
      * unfold gs_total in *. rewrite El. simpl. lia.
    + split; simpl; lia.
    + split; try done. intros b w Hb. by exists w.
  - intros acc a l' s' (x' & Hrs). by eapply renew_state_step.
  - intros acc s' (x' & [Hv Hst HI' _ _ _ Hsm Hfr [? ? ? ?]]).
    pose proof (Inv_stats HI') as [(? & ? & ? & ?) ? ?]. pose proof (Inv_stats HI) as Hst0.
    destruct Hst0 as [(? & ? & ? & ?) ? ?]. unfold gs_total in *. rewrite Hst in *.
    destruct Hsm as [? ? ? Hbal]. simpl in *. consts.
    assert (globalStatsService s' = vStats x) as Hg by apply Hv.
    wp_step. apply wp_ApplyRenewal; rewrite ?Hg.
    + split_and!; [split|split|]; ulia.
    + by apply stats_gs_ok, (Inv_stats HI).
    + split_and!; [split| split| |]; simpl; ulia.
    + eapply (HP _ x'); try done.
      * destruct Hv as [? ? ? ? ? ?]. split; simpl; try done.
      * rewrite Hst. simpl. lia.
  - done.
Qed.
End renewal_loop.
