(* ===== verification/TransitionInv.v ===== *)
(** * Exits, evictions, activations, and the whole transition

    The remaining steps of [applyEpochTransition], and then [Housekeep],
    [transition] and [SyncPOS] of [src/builtin/staker]: from the invariant at
    block [t] they return without error in a state satisfying it at [t + 1]. *)

From S2P Require Import Prelude Thor Stakes GlobalStats Aggregation Validation Delegation.
From S2P Require Import Storage LinkedList RenewalList Repository ValidationService Staker.
From S2P Require Import StakerInv StakerOps DelegationOps Housekeep HousekeepInv.

(** ** The exit of a validator *)

(** [Validation.exit] in unbounded arithmetic. *)
Definition val_exited (v : Validation) : Validation :=
  v <| ValStatus := StatusExit |> <| CooldownVET := LockedVET v |> <| LockedVET := 0 |>
    <| PendingUnlockVET := 0 |> <| ValWeight := 0 |>
    <| WithdrawableVET := WithdrawableVET v + QueuedVET v |> <| QueuedVET := 0 |>.

Definition val_exit (v : Validation) : Exit :=
  MkExit (NewWeightedStakeWithMultiplier (LockedVET v) (multiplier v)) (QueuedVET v).

Definition agg_exit (g : Aggregation) : Exit := MkExit (Locked g) (VET (Pending g)).

Definition abs_Exit (a : Address) (v : Validation) (x : View) : View :=
  let g := aggOf (vAggs x) a in
  x <| vVals := <[a := val_exited v]> (vVals x) |>
    <| vA := filter (.≠ a) (vA x) |> <| vR := filter (.≠ a) (vR x) |>
    <| vAggs := <[a := newAggregation]> (vAggs x) |>
    <| vStats := gs_exit (val_exit v) (agg_exit g) (vStats x) |>.

Section exit.
Context `{SMS : SafeMathSpec} `{CFG : Config} (OK : config_ok CFG).

Lemma Validation_exit_ok v : is64 (WithdrawableVET v + QueuedVET v) → 0 ≤ QueuedVET v →
  Validation_exit v = (val_exit v, val_exited v).
Proof.
  intros Hw Hq. unfold Validation_exit, val_exit, val_exited. f_equal. simpl. zcase.
  - by rewrite wrap64_id.
  - assert (QueuedVET v = 0) as E by lia. rewrite E, Z.add_0_r. destruct v; simpl in *. by subst.
Qed.

Lemma lockedOf_exit e f g : 0 < VET (ExitedTVL e) + VET (ExitedTVL f) →
  lockedOf (gs_exit e f g) = ws_sub (lockedOf g) (ws_add (ExitedTVL e) (ExitedTVL f)).
Proof. intros H. unfold lockedOf at 1, gs_exit. simpl. by zcase; [|lia]. Qed.

Lemma abs_Exit_inv clk t a v x :
  Inv clk x → clk a = t → vVals x !! a = Some v → ValStatus v = StatusActive →
  ExitBlock v = Some (t + 1) → Inv (setClk clk a (t + 1)) (abs_Exit a v x).
Proof.
  intros HI Ht Ha Hs He. pose proof (Inv_vlocal _ _ _ _ HI Ha) as Hl. rewrite Ht in Hl.
  pose proof (vlocal_agg_facts _ _ _ _ Hl) as Hg.
  pose proof (vlocal_amounts _ _ _ _ Hl) as [(? & ? & ? & ? & ?) _ _].
  destruct (vlocal_active _ _ _ _ Hl Hs) as [Hok HA].
  pose proof (multiplier_ok _ _ _ _ Hok Hg) as Hmul.
  pose proof Hok as [[Hst0 _] _ Hcd Hmin _ _ _ Hex]. rewrite He in Hex. destruct Hex as (Hc & Hb & _).
  destruct Hg as [[? ?] [? ?] [? ?] [? ?]]. consts.
  pose proof (lockedOf_exit (val_exit v) (agg_exit (aggOf (vAggs x) a)) (vStats x)
    ltac:(simpl; lia)) as Hlk.
  eapply (Inv_step clk) with (a := a) (v' := val_exited v); [exact HI|done|..]; simpl.
  - intros b Hne. rewrite setClk_ne, aggOf_insert_ne, !list_elem_of_filter by done. naive_solver.
  - by left.
  - done.
  - rewrite setClk_eq. destruct Hl as [G1 G2 G3 G4 G5 G6 G7 G8 G9 G10].
    split; simpl; rewrite ?aggOf_insert_eq, ?list_elem_of_filter; try done.
    + naive_solver.
    + rewrite G3, Hs. done.
    + naive_solver.
    + unfold status_ok. simpl. split; simpl; [done|lia|]. rewrite He. lia.
    + intros id d Hd Hda. destruct (G7 id d Hd Hda) as [? ? Hf Hlast]. unfold iter in Hf, Hlast.
      rewrite Hs in Hf, Hlast. rewrite (proj2 (Z.ltb_lt 0 (CompletedPeriods v))) in Hf, Hlast by lia.
      by split.
    + unfold aggSpec, newAggregation. f_equal; symmetry; apply wsum_zero; intros id d _;
        apply andb_false_r.
    + intros b Hb' Hx. destruct (G10 b) as [_ Hx']; [lia|done|]. rewrite He in Hx'.
      injection Hx' as <-. lia.
  - eapply (acct_step x) with (a := a) (v' := val_exited v); [apply HI|done|..]; simpl;
      [intros; by apply aggOf_insert_ne|..]; rewrite Ha, ?aggOf_insert_eq, ?Hlk;
      unfold contrib, vQueued, vLocked, vWeight, vCooldown, vFree; simpl; lia.
  - pose proof (inv_supply _ _ HI). unfold gs_total in *. rewrite Hlk. simpl. lia.
  - apply HI.
  - apply HI.
Qed.

Lemma abs_Exit_settled clk a v x :
  Inv clk x → vVals x !! a = Some v → ValStatus v = StatusActive → settled x (abs_Exit a v x).
Proof.
  intros HI Ha Hs. destruct (vlocal_active _ _ _ _ (Inv_vlocal _ _ _ _ HI Ha) Hs) as [[] _].
  eapply settled_set; [done| |done..]. split; simpl; try done; [by rewrite Hs|unfold ownVET; simpl; lia|lia].
Qed.

Lemma wp_exitOne clk t a v s x (P : unit → Staker → Prop) :
  view_of s x → Inv clk x → clk a = t → vVals x !! a = Some v → ValStatus v = StatusActive →
  ExitBlock v = Some (t + 1) →
  (∀ s', let x' := abs_Exit a v x in
     view_of s' x' → Inv (setClk clk a (t + 1)) x' →
     effectiveVET s' = effectiveVET s → balance s' = balance s →
     maxBlockProposersParam s' = maxBlockProposersParam s →
     gs_total (vStats x') = gs_total (vStats x) → P tt s') →
  wp (exitOne a) P never s.
Proof.
  intros Hx HI Ht Ha Hs He HP.
  pose proof (abs_Exit_inv clk t a v x HI Ht Ha Hs He) as HI'.
  pose proof (Inv_vlocal _ _ _ _ HI Ha) as Hl. rewrite Ht in Hl.
  pose proof (vlocal_agg_facts _ _ _ _ Hl) as Hg.
  pose proof (vlocal_amounts _ _ _ _ Hl) as [(? & ? & ? & ? & ?) Hw (? & ? & ?)].
  destruct (vlocal_active _ _ _ _ Hl Hs) as [Hok HA].
  pose proof (multiplier_ok _ _ _ _ Hok Hg) as Hmul.
  pose proof (Inv_shares HI a v Ha) as [S1 S2 S3 S4 S5].
  pose proof (Inv_stats HI) as Hst. destruct Hst as [(? & ? & ? & ?) ? ?].
  destruct Hg as [[? ?] [? ?] [? ?] [? ?]]. unfold gs_total, vLocked, vQueued in *. consts.
  pose proof (calcWeight_mult (LockedVET v) (multiplier v) ltac:(lia) (multiplier_cases v)).
  pose proof Hok as [_ _ _ Hmin _ _ _ _]. consts.
  destruct (repr_lookup_inv _ _ _ _ _ _ _ (vo_repr _ _ Hx) Ha) as (w & Hw' & <-). simpl in *.
  change (multiplier (strip w)) with (multiplier w) in *.
  unfold exitOne, ExitValidator. wp_step. wp_step. wp_step.
  eapply wp_GetExistingValidation; [done|]. rewrite Validation_exit_ok by ulia.
  wp_step. eapply (wp_removeActive_elem a _ w); [apply Hx|done|done|done|done| |].
  { pose proof (active_count HI (dll_nodup _ _ (repr_active _ _ _ _ _ (vo_repr _ _ Hx)))). ulia. }
  intros r' Hr' [_ Hex]. wp_step. eapply wp_RemoveFromRenewalList; [exact Hr'|].
  intros r2 Hst2 Hr2. wp_step. wp_step. wp_step. apply wp_aggregation_Exit. simpl.
  rewrite (vo_aggs _ _ Hx). wp_step.
  apply wp_ApplyExit; simpl; rewrite ?(vo_stats _ _ Hx).
  - split; [split; simpl; ulia|simpl; ulia].
  - split; [split; simpl; ulia|simpl; ulia].
  - by apply stats_gs_ok, (Inv_stats HI).
  - split_and!; [split; simpl|simpl..]; ulia.
  - apply HP; try done.
    + destruct Hx as [? ? ? ? ? ?]. split; simpl; try done. by rewrite Hst2, Hex.
    + simpl. rewrite lockedOf_exit by (simpl; lia). simpl. lia.
Qed.
End exit.

(** ** Evictions *)
Section evict.
Context `{SMS : SafeMathSpec} `{CFG : Config} (OK : config_ok CFG).

(** An active validator that can still be evicted. *)
Definition evictable (x : View) (a : Address) : Prop :=
  ∃ v, vVals x !! a = Some v ∧ ValStatus v = StatusActive ∧ ExitBlock v = None.

(** Occupied exit slots belong to distinct active validators that have
    signalled their exit, so with as many tries as active validators one of the
    probed slots is free. *)
Lemma free_slot t x a n minBlock :
  Inv (λ _, t) x → NoDup (vA x) → evictable x a → (length (vA x) ≤ n)%nat →
  t < minBlock → minBlock + Z.of_nat n * EpochLength < max32 →
  ¬ (∀ j, (j < n)%nat → exitOf x (probe minBlock j) ≠ 0).
Proof.
  intros HI Hnd (v & Ha & Hs & He) Hlen Hmin Hmax Hall. destruct OK as [[HE _] _ _ _ _ _ _ _ _ _ _].
  assert (∀ j, (j < n)%nat → ∃ w, vVals x !! exitOf x (probe minBlock j) = Some w ∧
    ValStatus w = StatusActive ∧ ExitBlock w = Some (probe minBlock j)) as Hocc.
  { intros j Hj. assert (t < probe minBlock j < max32) as Hr by (unfold probe; nia).
    pose proof (inv_local _ _ HI (exitOf x (probe minBlock j))) as Hl. unfold local in Hl.
    destruct (vVals x !! exitOf x (probe minBlock j)) as [w|] eqn:Hw.
    - exists w. by destruct (l_slot _ _ _ _ Hl (probe minBlock j) Hr eq_refl).
    - destruct (Hall j Hj). by apply (n_slot _ _ _ Hl (probe minBlock j) Hr). }
  assert (NoDup (a :: ((λ j, exitOf x (probe minBlock j)) <$> seq 0 n))) as Hnd'.
  { apply NoDup_cons. split.
    - intros (j & Hj & Hin)%list_elem_of_fmap. apply elem_of_seq in Hin.
      destruct (Hocc j ltac:(lia)) as (w & Hw & _ & Hx). rewrite <- Hj in Hw. congruence.
    - apply NoDup_fmap_2_strong; [|apply NoDup_seq].
      intros j1 j2 H1%elem_of_seq H2%elem_of_seq Heq.
      destruct (Hocc j1 ltac:(lia)) as (w1 & Hw1 & _ & Hx1).
      destruct (Hocc j2 ltac:(lia)) as (w2 & Hw2 & _ & Hx2).
      rewrite Heq in Hw1. assert (w1 = w2) as -> by congruence.
      rewrite Hx1 in Hx2. injection Hx2 as Hp. unfold probe in Hp. nia. }
  assert (length (a :: ((λ j, exitOf x (probe minBlock j)) <$> seq 0 n)) ≤ length (vA x))%nat as Hle.
  { apply submseteq_length, NoDup_submseteq; [done|].
    intros b [->|(j & -> & Hin)%list_elem_of_fmap]%elem_of_cons.
    - by apply (l_active _ _ _ _ (Inv_vlocal _ _ _ _ HI Ha)).
    - apply elem_of_seq in Hin. destruct (Hocc j ltac:(lia)) as (w & Hw & Hsw & _).
      by apply (l_active _ _ _ _ (Inv_vlocal _ _ _ _ HI Hw)). }
  simpl in Hle. rewrite length_fmap, length_seq in Hle. lia.
Qed.

Record evict_state (t : Z) (x0 : View) (s0 : Staker) (l : list Address) (s : Staker) (x : View)
    : Prop := {
  es_view : view_of s x;
  es_inv : Inv (λ _, t) x;
  es_todo : ∀ a, a ∈ l → evictable x a;
  es_nodup : NoDup l;
  es_A : vA x = vA x0;
  es_Q : vQ x = vQ x0;
  es_stats : vStats x = vStats x0;
  es_funds : same_funds s0 s;
  es_settled : settled x0 x;
}.

(** The only failure: with more than 101 active validators an eviction may not
    find a free slot in its 101 tries. *)
Definition crowded (x : View) (e : error) : Prop :=
  e = ErrMaxTryReached ∧ (101 < length (vA x))%nat.

Lemma evict_step t x0 s0 a l s x :
  block_ok t → (EpochLength | t) → evict_state t x0 s0 (a :: l) s x →
  wp (evictOne t tt a) (λ _ s', ∃ x', evict_state t x0 s0 l s' x') (crowded x0) s.
Proof.
  intros Hblk Hdiv [Hv HI Htodo [Hal Hnd]%NoDup_cons HA HQ Hst Hfu Hse].
  destruct (Htodo a ltac:(set_solver)) as (v & Ha & Hs & He).
  pose proof OK as [[HE1 HE2] _ _ _ _ _ _ _ _ _ _]. unfold block_ok in Hblk.
  unfold evictOne. rewrite wrap32_id by ulia. unfold InitialMaxBlockProposers.
  change (Z.to_nat 101) with 101%nat.
  eapply (wp_service_SignalExit OK (λ _, t)); try done.
  - lia.
  - apply Z.divide_add_r; [done|]. apply Z.divide_refl.
  - lia.
  - intros i s' Hi b x' Hb Hlt Hv' HI' Hg Heff Hbal Hp. exists x'. split; try done.
    + intros c Hc. destruct (Htodo c ltac:(set_solver)) as (w & Hw & ?). exists w.
      simpl. rewrite lookup_insert_ne; [done|]. intros ->. done.
    + etransitivity; [done|]. by split.
    + etransitivity; [done|]. eapply settled_set; [exact Ha| |done..]. split; try done.
      all: intros k Hk; congruence.
  - intros Hall. split; [done|]. apply Nat.lt_nge. intros Hlen.
    eapply (free_slot t x a 101); [done| |by exists v|by rewrite HA| | |exact Hall].
    + apply (dll_nodup _ _ (repr_active _ _ _ _ _ (vo_repr _ _ Hv))).
    + lia.
    + ulia.
Qed.

Lemma wp_evictions t l s x :
  block_ok t → (EpochLength | t) →
  view_of s x → Inv (λ _, t) x → NoDup l → (∀ a, a ∈ l → evictable x a) →
  wp (foldM (evictOne t) tt l) (λ _ s', ∃ x', evict_state t x s [] s' x') (crowded x) s.
Proof.
  intros Hblk Hdiv Hv HI Hnd Hl.
  eapply (wp_foldM (λ _ l s', ∃ x', evict_state t x s l s' x')).
  - exists x. by split.
  - intros [] a l' s' (x' & Hes). by eapply evict_step.
Qed.
End evict.

(** ** Activations *)
Definition val_activated (t : Z) (v : Validation) (g : Aggregation) : Validation :=
  v <| LockedVET := QueuedVET v |> <| QueuedVET := 0 |>
    <| ValWeight := calcWeight (QueuedVET v) (afterMul (VET (Pending g))) + Weight (Pending g) |>
    <| ValStatus := StatusActive |> <| StartBlock := t |>.

Definition activate_delta (v : Validation) (g : Aggregation) : Renewal :=
  MkRenewal (NewWeightedStakeWithMultiplier (QueuedVET v) (afterMul (VET (Pending g))))
    (NewWeightedStake 0 0) (QueuedVET v).

(** The head [a] of the queue, followed by [Q], becomes active. *)
Definition abs_Activate (t : Z) (a : Address) (v : Validation) (Q : list Address) (x : View)
    : View :=
  let g := aggOf (vAggs x) a in
  x <| vVals := <[a := val_activated t v g]> (vVals x) |>
    <| vA := vA x ++ [a] |> <| vQ := Q |>
    <| vAggs := <[a := agg_next g]> (vAggs x) |>
    <| vStats := gs_renew (renewal_add (activate_delta v g) (agg_delta g)) (vStats x) |>.

Section activate.
Context `{SMS : SafeMathSpec} `{CFG : Config} (OK : config_ok CFG).
#[local] Arguments Renewal_Add : simpl never.

Lemma active_activated t v g : queued_ok v g → agg_facts g → Locked g = WS0 → Exiting g = WS0 →
  0 ≤ t → (EpochLength | t) → active_ok (val_activated t v g) (agg_next g) t False.
Proof.
  intros [(Z1 & Z2 & Z3 & Z4 & Z5 & Z6) Hx Hmin Hmax] [_ [? ?] _ _] EL EE Ht Hd.
  split; simpl; rewrite ?EL, ?EE, ?Z2, ?Z4; simpl; try done; try lia.
  - exists (afterMul (VET (Pending g))). split; [apply afterMul_cases|]. split; [lia|].
    unfold afterMul, Multiplier, MultiplierWithDelegations. zcase; lia.
  - rewrite Hx. split; [done|]. right. split_and!; done.
Qed.

Lemma abs_Activate_inv t a v Q x :
  Inv (λ _, t) x → vVals x !! a = Some v → vQ x = a :: Q → NoDup (vQ x) →
  0 ≤ t → (EpochLength | t) → Inv (λ _, t) (abs_Activate t a v Q x).
Proof.
  intros HI Ha HQ Hnd Ht Hd. pose proof (Inv_vlocal _ _ _ _ HI Ha) as Hl.
  rewrite HQ in Hnd. apply NoDup_cons in Hnd as [HaQ Hnd].
  assert (ValStatus v = StatusQueued) as Hs by (apply (l_queued _ _ _ _ Hl); rewrite HQ; set_solver).
  destruct (vlocal_queued _ _ _ _ Hl Hs) as [EL EE].
  pose proof (vlocal_agg_facts _ _ _ _ Hl) as Hg.
  pose proof (l_ok _ _ _ _ Hl) as Hok. unfold status_ok in Hok. rewrite Hs in Hok.
  pose proof (active_activated t _ _ Hok Hg EL EE Ht Hd) as Hok'.
  destruct Hok as [(Z1 & Z2 & Z3 & Z4 & Z5 & Z6) Zx _ _].
  destruct (period_pos OK _ (l_period _ _ _ _ Hl)) as [Hp _].
  set (v' := val_activated t v (aggOf (vAggs x) a)) in *.
  assert (iter v' t = iter v t + 1) as Hit.
  { unfold iter, v'. simpl. rewrite Hs, Z6, Z.sub_diag. done. }
  eapply (Inv_step (λ _, t)) with (a := a) (v' := v'); [exact HI|done|..]; simpl.
  - intros b Hne. rewrite aggOf_insert_ne, HQ by done. set_solver.
  - by left.
  - done.
  - destruct Hl as [G1 G2 G3 G4 G5 G6 G7 G8 G9 G10].
    split; simpl; rewrite ?aggOf_insert_eq; try done.
    + set_solver.
    + eapply (status_ok_iff _ _ _ False); [|exact Hok'].
      split; [done|]. intros H%G4. congruence.
    + intros id d Hid Hda. destruct (G7 id d Hid Hda) as [? ? ? Hlast].
      split; try done; rewrite Hit; [lia|]. intros j Hj. specialize (Hlast j Hj). lia.
    + rewrite (aggSpec_next _ _ v v' t t), G8; auto.
    + intros b _ Hb. rewrite Zx in Hb. done.
    + intros b Hb Hx. destruct (G10 b Hb Hx). congruence.
  - eapply (acct_step x) with (a := a) (v' := v'); [apply HI|done|..]; simpl;
      [intros; by apply aggOf_insert_ne|..]; rewrite Ha, ?aggOf_insert_eq;
      unfold contrib, vQueued, vLocked, vWeight, vCooldown, vFree, lockedOf, v'; simpl;
      rewrite ?EL, ?EE; simpl; lia.
  - pose proof (inv_supply _ _ HI). unfold gs_total in *. simpl in *.
    unfold lockedOf in *. rewrite EE. simpl. lia.
  - apply HI.
  - apply HI.
Qed.

Lemma abs_Activate_settled clk t a v Q x :
  Inv clk x → vVals x !! a = Some v → a ∈ vQ x → settled x (abs_Activate t a v Q x).
Proof.
  intros HI Ha HQ. pose proof (Inv_vlocal _ _ _ _ HI Ha) as Hl. apply (l_queued _ _ _ _ Hl) in HQ.
  pose proof (l_ok _ _ _ _ Hl) as Hok. unfold status_ok in Hok. rewrite HQ in Hok.
  destruct Hok as [(? & ? & ? & ? & ? & ?) He _ _].
  eapply settled_set; [done| |done..].
  split; simpl; try done; [by rewrite HQ|unfold ownVET; simpl; lia|congruence].
Qed.

Lemma wp_NextToActivate mbp a v r vs A Q Rn P R :
  repr r vs A (a :: Q) Rn → a ≠ 0 → vs !! a = Some v →
  Z.of_nat (length A) < mbp → Z.of_nat (length (a :: Q)) < max64 →
  (∀ r', repr r' vs A Q Rn → same_rest r r' →
     validations (storage r') !! a = Some v → P (a, v) r') →
  wp (NextToActivate mbp) P R r.
Proof.
  intros Hr H0 Ha Hmbp Hlen HP. unfold NextToActivate, activeListSize, queuedListSize,
    listStats_GetSize. do 3 wp_step.
  pose proof (dll_size _ _ (repr_active _ _ _ _ _ Hr)) as HA. simpl in HA. rewrite HA.
  replace (r <| activeList := activeList r |>) with r by (by destruct r).
  wp_step. wp_step; [lia|]. do 3 wp_step.
  pose proof (dll_size _ _ (repr_queued _ _ _ _ _ Hr)) as HQ. simpl in HQ. rewrite HQ.
  replace (r <| queuedList := queuedList r |>) with r by (by destruct r).
  wp_step. wp_step; [apply Z.leb_le in H1; cbn [length] in H1; lia|]. by eapply wp_popQueued.
Qed.

Lemma wp_ActivateValidator t a v g r vs A Q Rn P R :
  repr r vs A Q Rn → a ∉ A → a ∉ Q → queued_ok v g → agg_facts g → Exiting g = WS0 →
  Next v = None → (length A ≤ 4000)%nat →
  (∀ r', repr r' (<[a := strip (val_activated t v g)]> vs) (A ++ [a]) Q Rn → same_rest r r' →
     P (activate_delta v g) r') →
  wp (ActivateValidator a v t (agg_delta g)) P R r.
Proof.
  intros Hr HaA HaQ [(Z1 & _) _ Hmin Hmax] [_ [? ?] _ _] EE Hn Hlen HP.
  unfold ActivateValidator. wp_step. wp_step; [lia|]. simpl. rewrite EE. simpl. consts.
  fold (afterMul (VET (Pending g))).
  pose proof (calcWeight_mult (QueuedVET v) (afterMul (VET (Pending g))) ltac:(lia)
    (afterMul_cases _)).
  rewrite wrap64_id by ulia.
  match goal with |- context [SafeSub ?p 0] => destruct (SafeSub_cases p 0) as [[_ ->]|[? _]] end;
    [ulia|ulia| |lia].
  rewrite Z.sub_0_r. wp_step. wp_step; [done|]. wp_step.
  eapply wp_addActive; [done..|ulia|]. intros r' Hr' Hs. wp_step. by apply HP.
Qed.

Lemma wp_activateNextValidation t mbp a Q s x (P : Address → Staker → Prop) :
  view_of s x → Inv (λ _, t) x → vQ x = a :: Q → block_ok t → (EpochLength | t) →
  Z.of_nat (length (vA x)) < mbp →
  (∀ s' v, let x' := abs_Activate t a v Q x in
     vVals x !! a = Some v → view_of s' x' → Inv (λ _, t) x' →
     effectiveVET s' = effectiveVET s → balance s' = balance s →
     maxBlockProposersParam s' = maxBlockProposersParam s →
     gs_total (vStats x') = gs_total (vStats x) → P a s') →
  wp (activateNextValidation t mbp) P never s.
Proof.
  intros Hx HI HQ Hblk Hd Hmbp HP.
  pose proof (dll_nodup _ _ (repr_queued _ _ _ _ _ (vo_repr _ _ Hx))) as Hnd.
  destruct (queued_lookup HI a) as (v & Ha & Hs); [rewrite HQ; set_solver|].
  pose proof (Inv_vlocal _ _ _ _ HI Ha) as Hl.
  pose proof (abs_Activate_inv t a v Q x HI Ha HQ Hnd ltac:(unfold block_ok in *; lia) Hd) as HI'.
  destruct (vlocal_queued _ _ _ _ Hl Hs) as [EL EE].
  pose proof (vlocal_agg_facts _ _ _ _ Hl) as Hg. pose proof Hg as [[? ?] [? ?] [? ?] [? ?]].
  pose proof (l_ok _ _ _ _ Hl) as Hok. unfold status_ok in Hok. rewrite Hs in Hok.
  pose proof Hok as [_ _ Hmin Hmax]. consts.
  pose proof (calcWeight_mult (QueuedVET v) (afterMul (VET (Pending (aggOf (vAggs x) a))))
    ltac:(lia) (afterMul_cases _)) as Hcw.
  pose proof (queued_count HI Hnd) as HcQ. rewrite HQ in Hnd. apply NoDup_cons in Hnd as [HaQ Hnd].
  assert (a ∉ vA x) as HaA by (rewrite (l_active _ _ _ _ Hl), Hs; done).
  pose proof (active_count HI (dll_nodup _ _ (repr_active _ _ _ _ _ (vo_repr _ _ Hx)))) as HcA.
  pose proof (vo_repr _ _ Hx) as Hr. rewrite HQ in Hr, HcQ.
  destruct (repr_lookup_inv _ _ _ _ _ _ _ Hr Ha) as (w & _ & Hw).
  unfold activateNextValidation. wp_step. wp_step.
  eapply wp_NextToActivate; [exact Hr|apply Hl|done|done|ulia|]. intros r1 Hr1 [_ Hex1] _.
  wp_step. wp_step. apply wp_aggregation_Renew; simpl; rewrite ?(vo_aggs _ _ Hx);
    [unfold agg_ok; rewrite EL, EE; split_and!; split; simpl; ulia
    |rewrite EL; split; simpl; ulia|rewrite EE; split; simpl; lia|].
  wp_step. wp_step. eapply wp_ActivateValidator; [exact Hr1|done..|by subst v|done|].
  intros r2 Hr2 [_ Hex2]. wp_step. wp_step.
  assert (renewal_ok (activate_delta v (aggOf (vAggs x) a)) ∧
    renewal_ok (agg_delta (aggOf (vAggs x) a)) ∧
    renewal_ok (renewal_add (activate_delta v (aggOf (vAggs x) a))
      (agg_delta (aggOf (vAggs x) a)))) as (Ok1 & Ok2 & Ok3).
  { unfold renewal_ok, ws_ok. simpl. rewrite EE. simpl. unfold_int. lia. }
  rewrite Renewal_Add_ok by done. wp_step. wp_step.
  pose proof (Inv_stats HI') as [(? & ? & ? & ?) ? ?].
  pose proof (Inv_stats HI) as [(? & ? & ? & ?) ? ?]. unfold gs_total in *. simpl in *.
  rewrite EE in *. simpl in *. consts.
  apply wp_ApplyRenewal; simpl; rewrite ?(vo_stats _ _ Hx).
  - done.
  - by apply stats_gs_ok, (Inv_stats HI).
  - split_and!; [split|split|..]; simpl; rewrite ?EE; simpl; ulia.
  - wp_step. apply (HP _ v); try done.
    + destruct Hx as [? ? ? ? ? ?]. split; simpl; try done; [by subst v|by rewrite Hex2, Hex1].
    + unfold gs_total. simpl. rewrite ?EE. simpl. lia.
Qed.
End activate.

(** ** What [computeEpochTransition] selects *)
Section compute.
Context `{SMS : SafeMathSpec} `{CFG : Config} (OK : config_ok CFG).

Definition renewable (t' : Z) (v : Validation) : bool :=
  endsAt v t' && bool_decide (ExitBlock v = None).

Definition offline (t' : Z) (v : Validation) : bool :=
  match OfflineBlock v with
  | Some off => (off +u32 ValidatorEvictionThreshold <? t') && bool_decide (ExitBlock v = None)
  | None => false
  end.

Lemma wp_evictionsOf t' s x (P : list Address → Staker → Prop) R :
  view_of s x → P (select (offline t') (vVals x) (vA x)) s →
  wp (zoom validationService (LeaderGroupIterator (evictionCallback t') [])) P R s.
Proof.
  intros Hx HP. pose proof (vo_repr _ _ Hx) as Hr. pose proof (repr_active _ _ _ _ _ Hr) as HA.
  unfold LeaderGroupIterator, iterateActive. wp_step. apply wp_on_list.
  unfold wp. rewrite (listStats_Iterate_spec _ _ _ _ HA). simpl.
  rewrite (foldR_select (offline t')).
  - simpl. rewrite (repr_payload _ _ _ _ _ Hr). by destruct s as [? ? [] ? ? ? ?].
  - done.
  - intros b a v _ _. unfold evictionCallback, offline. destruct (OfflineBlock v); [|done].
    by destruct (_ && _).
  - intros a Ha. by apply (dll_lookup _ _ _ HA).
Qed.

Lemma IsPeriodEnd_ok x t a v : vlocal x t a v → ValStatus v = StatusActive → block_ok (t + 1) →
  IsPeriodEnd v (t + 1) = Ok (endsAt v (t + 1)).
Proof.
  intros Hl Hs Hblk. destruct (vlocal_active _ _ _ _ Hl Hs) as [[[? _] _ _ _ _ _ _ _] _].
  destruct (period_pos OK _ (l_period _ _ _ _ Hl)). unfold block_ok in Hblk.
  unfold IsPeriodEnd, endsAt. unwrap. destruct (Z.eqb_spec (Period v) 0); [lia|done].
Qed.

Lemma wp_UpdateGroup t s x (P : list Address → Staker → Prop) R :
  view_of s x → Inv (λ _, t) x → block_ok (t + 1) →
  P (select (renewable (t + 1)) (vVals x) (vR x)) s →
  wp (zoom validationService (UpdateGroup (t + 1))) P R s.
Proof.
  intros Hx HI Hblk HP. pose proof (vo_repr _ _ Hx) as Hr.
  unfold UpdateGroup, iterateRenewalList. do 3 wp_step. wp_step.
  unfold wp. rewrite (renewalList_Iterate_spec _ _ _ _ (repr_renewals _ _ _ _ _ Hr)). simpl.
  rewrite (rfold_select (renewable (t + 1)) ltac:(done) _ (validations (storage (validationService s)))).
  - simpl. rewrite (repr_payload _ _ _ _ _ Hr). by destruct s as [? ? [] ? ? ? ?].
  - intros b a Ha. pose proof (inv_local _ _ HI a) as Hl. unfold local in Hl.
    destruct (vVals x !! a) as [v|] eqn:Hv; [|by destruct (n_renew _ _ _ Hl)].
    pose proof (l_renew _ _ _ _ Hl Ha) as Hs.
    destruct (repr_lookup_inv _ _ _ _ _ _ _ Hr Hv) as (w & Hw & <-). exists w. split; [done|].
    rewrite Hw. rewrite (IsPeriodEnd_ok x t a w (vlocal_strip _ _ _ _ Hl) Hs Hblk). done.
Qed.

(** The activations fit the queue and the free seats. *)
Record count_ok (x : View) (mbp : Z) (exits : bool) (c : Z) : Prop := {
  co_queue : 0 ≤ c ≤ Z.of_nat (length (vQ x));
  co_seats : 0 < c → Z.of_nat (length (vA x)) - (if exits then 1 else 0) + c ≤ mbp;
}.

Lemma wp_computeActivationCount s x (ex : bool) (P : Z → Staker → Prop) R :
  view_of s x → Z.of_nat (length (vA x)) < max64 → (ex = true → vA x ≠ []) →
  (∀ c, count_ok x (GetMaxBlockProposers (maxBlockProposersParam s) false) ex c → P c s) →
  wp (computeActivationCount ex) P R s.
Proof.
  intros Hx Hlen Hex HP. pose proof (vo_repr _ _ Hx) as Hr.
  pose proof (dll_size _ _ (repr_active _ _ _ _ _ Hr)) as HA. simpl in HA.
  pose proof (dll_size _ _ (repr_queued _ _ _ _ _ Hr)) as HQ. simpl in HQ.
  unfold computeActivationCount, QueuedGroupSize, LeaderGroupSize, service_QueuedGroupSize,
    service_LeaderGroupSize, queuedListSize, activeListSize, listStats_GetSize.
  do 4 wp_step. rewrite HQ. replace (s <| validationService := _ |>) with s
    by (by destruct s as [? ? [] ? ? ? ?]).
  do 4 wp_step. rewrite HA. replace (s <| validationService := _ |>) with s
    by (by destruct s as [? ? [] ? ? ? ?]).
  do 2 wp_step.
  destruct (GetMaxBlockProposers_bounds (maxBlockProposersParam s) false) as [Hm _].
  set (mbp := GetMaxBlockProposers _ _) in *.
  assert ((if ex then Z.of_nat (length (vA x)) -u64 1 else Z.of_nat (length (vA x))) =
    Z.of_nat (length (vA x)) - (if ex then 1 else 0)) as ->.
  { destruct ex; [|lia]. rewrite wrap64_id; [done|]. destruct (vA x); [by destruct Hex|].
    simpl in *. ulia. }
  assert (0 ≤ Z.of_nat (length (vA x)) - (if ex then 1 else 0)).
  { destruct ex; [|lia]. destruct (vA x); [by destruct Hex|]. simpl in *. lia. }
  destruct (_ || _) eqn:E1; [wp_step; apply HP; split; lia|].
  apply orb_false_iff in E1 as [E1 E2]. apply Z.leb_gt in E1, E2. unwrap.
  repeat zcase; wp_step; apply HP; split; lia.
Qed.
End compute.

(** ** The whole transition *)

(** The contract's funds and parameters are as before. *)
Record keeps_funds (s s' : Staker) : Prop := {
  kf_total : gs_total (globalStatsService s') = gs_total (globalStatsService s);
  kf_eff : effectiveVET s' = effectiveVET s;
  kf_bal : balance s' = balance s;
  kf_param : maxBlockProposersParam s' = maxBlockProposersParam s;
}.

#[export] Instance keeps_funds_preorder : PreOrder keeps_funds.
Proof.
  split; [by intros s|]. intros s1 s2 s3 [? ? ? ?] [? ? ? ?]. split; congruence.
Qed.

Lemma keeps_funds_funded s s' dep : keeps_funds s s' → funded s dep → funded s' dep.
Proof. intros [Ht He Hb _] [? ? ?]. split; rewrite ?Ht, ?He, ?Hb; done. Qed.

Lemma keeps_funds_view s s' x x' : view_of s x → view_of s' x' →
  gs_total (vStats x') = gs_total (vStats x) → effectiveVET s' = effectiveVET s →
  balance s' = balance s → maxBlockProposersParam s' = maxBlockProposersParam s →
  keeps_funds s s'.
Proof.
  intros Hx Hx' Ht ? ? ?. split; try done. by rewrite (vo_stats _ _ Hx), (vo_stats _ _ Hx').
Qed.

Section transition.
Context `{SMS : SafeMathSpec} `{CFG : Config} (OK : config_ok CFG).

(** Validators keep waiting at [t] until their renewal or exit. *)
Definition exitClk (t : Z) (e : Address) : Address → Z :=
  λ a, if decide (e ≠ 0 ∧ a = e) then t else t + 1.

Lemma exit_slot_active t x e : Inv (λ _, t) x → block_ok (t + 1) → exitOf x (t + 1) = e → e ≠ 0 →
  ∃ v, vVals x !! e = Some v ∧ ValStatus v = StatusActive ∧ ExitBlock v = Some (t + 1) ∧ e ∈ vA x.
Proof.
  intros HI Hblk He H0. pose proof (inv_local _ _ HI e) as Hl. unfold local in Hl.
  unfold block_ok in Hblk. destruct (vVals x !! e) as [v|].
  - exists v. destruct (l_slot _ _ _ _ Hl (t + 1)) as [Hs Hx]; [ulia|done|].
    split_and!; try done. by apply (l_active _ _ _ _ Hl).
  - destruct H0. apply (n_slot _ _ _ Hl (t + 1)); [ulia|done].
Qed.

Lemma select_elem p V l a : a ∈ select p V l ↔ a ∈ l ∧ ∃ v, V !! a = Some v ∧ p v = true.
Proof.
  unfold select. rewrite list_elem_of_filter. destruct (V !! a) as [v|]; simpl; naive_solver.
Qed.

(** At the start of the loop everyone else is already at [t + 1]. *)
Lemma transition_start t x : let e := exitOf x (t + 1) in
  Inv (λ _, t) x → block_ok (t + 1) →
  Inv (waiting t (select (renewable (t + 1)) (vVals x) (vR x)) (exitClk t e)) x ∧
  (∀ a, a ∈ select (renewable (t + 1)) (vVals x) (vR x) → due t x a ∧ exitClk t e a = t + 1).
Proof.
  intros e HI Hblk. split.
  - apply (Inv_advance OK t); [done|..].
    + intros a. unfold waiting, exitClk. repeat case_decide; auto.
    + intros a v Ha Hclk Hs. pose proof (Inv_vlocal _ _ _ _ HI Ha) as Hl.
      unfold waiting, exitClk in Hclk.
      destruct (decide (a ∈ select _ _ _)) as [|Hsel]; [lia|].
      destruct (decide _) as [|Hne]; [lia|]. destruct (ExitBlock v) as [b|] eqn:Hb.
      * intros ->. apply Hne. pose proof (l_exit _ _ _ _ Hl _ Hs Hb) as Hx. unfold e.
        rewrite Hx. split; [apply Hl|done].
      * intros Hend HR. apply Hsel, select_elem. split; [done|]. exists v. split; [done|].
        unfold renewable. by rewrite Hend, Hb.
  - intros a (HR & v & Ha & [Hend Hx]%andb_true_iff)%select_elem. apply bool_decide_eq_true in Hx.
    pose proof (Inv_vlocal _ _ _ _ HI Ha) as Hl. pose proof (l_renew _ _ _ _ Hl HR) as Hs. split.
    + by exists v.
    + unfold exitClk. rewrite decide_False; [done|]. intros [H0 ->].
      destruct (exit_slot_active t x e HI Hblk eq_refl H0) as (w & Hw & _ & Hwx & _). congruence.
Qed.

(** What the renewals and the exit leave to the evictions. *)
Lemma evictable_select t x x1 : let e := exitOf x (t + 1) in
  Inv (λ _, t) x → block_ok (t + 1) → val_frame x x1 →
  ∀ a, a ∈ select (offline (t + 1)) (vVals x) (vA x) → evictable x1 a ∧ (e ≠ 0 → a ≠ e).
Proof.
  intros e HI Hblk Hfr a (HA & v & Ha & Hoff)%select_elem.
  pose proof (Inv_vlocal _ _ _ _ HI Ha) as Hl. apply (l_active _ _ _ _ Hl) in HA.
  assert (ExitBlock v = None) as Hx.
  { unfold offline in Hoff. destruct (OfflineBlock v); [|done].
    apply andb_true_iff in Hoff as [_ H]. by apply bool_decide_eq_true in H. }
  split.
  - destruct (vf_vals _ _ Hfr a v Ha) as (v' & Hv' & [? ? ? ? ?]). exists v'. split; [done|].
    split; congruence.
  - intros H0 ->. destruct (exit_slot_active t x e HI Hblk eq_refl H0) as (w & Hw & _ & Hwx & _).
    congruence.
Qed.

Lemma length_filter_ne (l : list Address) a : NoDup l → a ∈ l →
  Z.of_nat (length (filter (.≠ a) l)) = Z.of_nat (length l) - 1.
Proof.
  intros Hnd (l1 & l2 & ->)%list_elem_of_split. rewrite filter_ne_mid by done.
  rewrite !length_app. simpl. lia.
Qed.

Lemma wp_exit_step t s1 x1 e (P : unit → Staker → Prop) :
  view_of s1 x1 → Inv (exitClk t e) x1 →
  (e ≠ 0 → ∃ v, vVals x1 !! e = Some v ∧ ValStatus v = StatusActive ∧
     ExitBlock v = Some (t + 1)) →
  (∀ s2 x2, view_of s2 x2 → Inv (λ _, t + 1) x2 → keeps_funds s1 s2 →
     vA x2 = (if decide (e = 0) then vA x1 else filter (.≠ e) (vA x1)) → vQ x2 = vQ x1 →
     (∀ a, (e ≠ 0 → a ≠ e) → vVals x2 !! a = vVals x1 !! a) → settled x1 x2 → P tt s2) →
  wp (when (negb (IsZero e)) (exitOne e)) P never s1.
Proof.
  intros Hx HI He HP. unfold IsZero. apply wp_when; intros Hb.
  - apply negb_true_iff, Z.eqb_neq in Hb. destruct (He Hb) as (v & Hv & Hs & Hxb).
    eapply (wp_exitOne (exitClk t e) t e v); try done.
    { unfold exitClk. by rewrite decide_True. }
    intros s' x' Hx' HI' Heff Hbal Hpar Htot. apply (HP s' x'); try done.
    + eapply Inv_clk_ext; [|exact HI']. intros a. unfold setClk, exitClk.
      repeat case_decide; naive_solver.
    + by eapply keeps_funds_view.
    + by rewrite decide_False.
    + intros a Hne. simpl. rewrite lookup_insert_ne; [done|]. naive_solver.
    + by eapply (abs_Exit_settled (exitClk t e)).
  - apply negb_false_iff, Z.eqb_eq in Hb. subst e. by apply (HP s1 x1).
Qed.

(** The activation loop. *)
Record activate_state (t mbp : Z) (s0 : Staker) (x0 : View) (n : nat) (s : Staker) (x : View)
    : Prop := {
  as_view : view_of s x;
  as_inv : Inv (λ _, t) x;
  as_queue : (n ≤ length (vQ x))%nat;
  as_seats : (0 < n)%nat → Z.of_nat (length (vA x)) + Z.of_nat n ≤ mbp;
  as_funds : keeps_funds s0 s;
  as_settled : settled x0 x;
}.

Lemma wp_activations t mbp s0 x0 n s x (m : nat) :
  block_ok t → (EpochLength | t) → activate_state t mbp s0 x0 n s x → (length (vA x) ≤ m)%nat →
  wp (repeatM n (activateNextValidation t mbp ;; mret tt)) (λ _ s', ∃ x',
    activate_state t mbp s0 x0 0 s' x' ∧
    Z.of_nat (length (vA x')) ≤ Z.max (Z.of_nat m) mbp) never s.
Proof.
  intros Hblk Hd Has Hm. eapply (wp_repeatM (λ n s', ∃ x', activate_state t mbp s0 x0 n s' x' ∧
    Z.of_nat (length (vA x')) ≤ Z.max (Z.of_nat m) mbp)).
  - exists x. split; [done|lia].
  - intros k s' (x' & [Hv HI HQ Hseats Hf Hse] & Hlen). specialize (Hseats ltac:(lia)).
    destruct (vQ x') as [|a Q] eqn:EQ; [simpl in HQ; lia|]. wp_step.
    eapply (wp_activateNextValidation OK t mbp a Q); try done; [lia|].
    intros s'' v x'' Ha Hv'' HI'' Heff Hbal Hpar Htot. wp_step. exists x''. split.
    + split; try done.
      * simpl in *. lia.
      * intros _. simpl. rewrite length_app. simpl. lia.
      * etransitivity; [done|]. by eapply keeps_funds_view.
      * etransitivity; [done|]. eapply abs_Activate_settled; [exact HI|done|]. rewrite EQ. set_solver.
    + simpl. rewrite length_app. simpl. lia.
Qed.

(** The plan computed for block [t + 1]. *)
Record plan_ok (t : Z) (x : View) (mbp : Z) (et : EpochTransition) : Prop := {
  pl_block : Block et = t + 1;
  pl_renewals : Renewals et = select (renewable (t + 1)) (vVals x) (vR x);
  pl_exit : ExitValidatorAddr et = exitOf x (t + 1);
  pl_evictions : Evictions et = [] ∨ Evictions et = select (offline (t + 1)) (vVals x) (vA x);
  pl_count : count_ok x mbp (negb (IsZero (exitOf x (t + 1)))) (ActivationCount et);
}.

Lemma select_length p V l : (length (select p V l) ≤ length l)%nat.
Proof. apply length_filter. Qed.

Lemma renew_le_active t x : Inv (λ _, t) x → NoDup (vR x) → (length (vR x) ≤ length (vA x))%nat.
Proof.
  intros HI Hnd. apply submseteq_length, NoDup_submseteq; [done|]. intros a Ha.
  pose proof (inv_local _ _ HI a) as Hl. unfold local in Hl.
  destruct (vVals x !! a) as [v|]; [|by destruct (n_renew _ _ _ Hl)].
  by apply (l_active _ _ _ _ Hl), (l_renew _ _ _ _ Hl).
Qed.

Lemma view_nodup s x : view_of s x → NoDup (vA x) ∧ NoDup (vQ x) ∧ NoDup (vR x).
Proof.
  intros Hx. destruct (vo_repr _ _ Hx) as [_ [] [] [] _]. done.
Qed.

Lemma wp_computeEpochTransition t s x (P : EpochTransition → Staker → Prop) R :
  view_of s x → Inv (λ _, t) x → block_ok (t + 1) →
  (∀ et, plan_ok t x (GetMaxBlockProposers (maxBlockProposersParam s) false) et → P et s) →
  wp (computeEpochTransition (t + 1)) P R s.
Proof.
  intros Hx HI Hblk HP. destruct (view_nodup _ _ Hx) as (HndA & _ & _).
  unfold computeEpochTransition. wp_step.
  apply (wp_mono _ (λ l s', s' = s ∧
    (l = [] ∨ l = select (offline (t + 1)) (vVals x) (vA x))) _ never); [|..].
  { destruct (_ && _); [eapply wp_evictionsOf; [done|]; auto|wp_step; auto]. }
  2: by intros e [].
  intros ev s' [-> Hev]. wp_step. apply (wp_UpdateGroup OK t s x); try done.
  unfold GetValidatorForExitBlock, getExit, storage_getExit. do 4 wp_step.
  rewrite (vo_exits _ _ Hx). fold (exitOf x (t + 1)).
  replace (s <| validationService := _ |>) with s by (by destruct s as [? ? [[]] ? ? ? ?]).
  wp_step. apply (wp_computeActivationCount s x); try done.
  - pose proof (active_count HI HndA). ulia.
  - unfold IsZero. intros H0%negb_true_iff%Z.eqb_neq.
    destruct (exit_slot_active t x _ HI Hblk eq_refl H0) as (_ & _ & _ & _ & HA).
    intros E. rewrite E in HA. set_solver.
  - intros c Hc. wp_step. by apply HP.
Qed.

(** Applying the plan never fails and brings everyone to [t + 1]. *)
Lemma wp_applyEpochTransition t s x et :
  let mbp := GetMaxBlockProposers (maxBlockProposersParam s) false in
  view_of s x → Inv (λ _, t) x → block_ok (t + 1) → (EpochLength | t + 1) →
  plan_ok t x mbp et →
  wp (applyEpochTransition et) (λ _ s', ∃ x', view_of s' x' ∧ Inv (λ _, t + 1) x' ∧
    keeps_funds s s' ∧ settled x x' ∧
    Z.of_nat (length (vA x')) ≤ Z.max (Z.of_nat (length (vA x))) mbp) (crowded x) s.
Proof.
  intros mbp Hx HI Hblk Hdiv [Hbk Hre Hex Hev [Hc1 Hc2]].
  destruct (view_nodup _ _ Hx) as (HndA & HndQ & HndR).
  pose proof (active_count HI HndA) as HcA.
  destruct (transition_start t x HI Hblk) as [HIw Hdue].
  set (e := exitOf x (t + 1)) in *. unfold applyEpochTransition. rewrite Hbk, Hre, Hex. fold e.
  eapply wp_bind_assoc, wp_sure, (wp_applyRenewals OK t (exitClk t e) x); try done.
  { by apply NoDup_filter. }
  { pose proof (select_length (renewable (t + 1)) (vVals x) (vR x)).
    pose proof (renew_le_active t x HI HndR). lia. }
  intros s1 x1 Hx1 HI1 Hfr Heff Hbal Hpar Htot. cbv beta.
  assert (keeps_funds s s1) as Hf1 by (by eapply keeps_funds_view).
  wp_step. eapply wp_sure, (wp_exit_step t s1 x1 e); try done.
  { intros H0. destruct (exit_slot_active t x e HI Hblk eq_refl H0) as (v & Hv & Hs & Hxb & _).
    destruct (vf_vals _ _ Hfr e v Hv) as (v' & Hv' & [? ? ? ? ?]). exists v'.
    split; [done|]. split; congruence. }
  intros s2 x2 Hx2 HI2 Hf2 HA2 HQ2 HV2 Hse2.
  assert (Z.of_nat (length (vA x2)) =
    Z.of_nat (length (vA x)) - (if negb (IsZero e) then 1 else 0)) as HlenA.
  { rewrite HA2, (vf_A _ _ Hfr). unfold IsZero. case_decide as E; [rewrite E; simpl; lia|].
    apply Z.eqb_neq in E as E'. rewrite E'. simpl. apply length_filter_ne; [done|].
    by destruct (exit_slot_active t x e HI Hblk eq_refl E) as (_ & _ & _ & _ & ?). }
  wp_step. eapply wp_mono; [eapply (wp_evictions OK (t + 1) _ s2 x2); try done|..].
  { destruct Hev as [-> | ->]; [apply NoDup_nil_2|by apply NoDup_filter]. }
  { destruct Hev as [-> | ->]; [by intros a ?%elem_of_nil|]. intros a Ha.
    destruct (evictable_select t x x1 HI Hblk Hfr a Ha) as [(v & Hv & ?) Hne].
    exists v. by rewrite HV2. }
  2: { intros err [-> Hc]. split; [done|]. destruct (negb (IsZero e)); lia. }
  intros _ s3 (x3 & [Hx3 HI3 _ _ HA3 HQ3 Hst3 [? ? ? ?] Hse3]).
  assert (keeps_funds s s3) as Hf3.
  { do 2 (etransitivity; [done|]). eapply keeps_funds_view; try done. by rewrite Hst3. }
  do 2 wp_step. rewrite (kf_param _ _ Hf3). fold mbp.
  eapply wp_mono; [eapply (wp_activations (t + 1) mbp s x _ s3 x3 (length (vA x))); try done|..].
  - split; try done.
    + rewrite HQ3, HQ2, (vf_Q _ _ Hfr). lia.
    + intros Hpos. rewrite HA3, HlenA. lia.
    + etransitivity; [apply (vf_settled _ _ Hfr)|]. by etransitivity.
  - rewrite HA3. destruct (negb (IsZero e)); lia.
  - intros _ s4 (x4 & [Hx4 HI4 _ _ Hf4 Hse4] & Hl4). by exists x4.
  - by intros err [].
Qed.
End transition.

(** ** Housekeeping at every block *)
Section housekeep.
Context `{SMS : SafeMathSpec} `{CFG : Config} (OK : config_ok CFG).

(** The outcome of processing block [t]. *)
Record synced (t : Z) (s0 : Staker) (x0 : View) (s : Staker) (x : View) : Prop := {
  sy_view : view_of s x;
  sy_inv : Inv (λ _, t) x;
  sy_funds : keeps_funds s0 s;
  sy_seats : Z.of_nat (length (vA x)) ≤ Z.max (Z.of_nat (length (vA x0)))
    (GetMaxBlockProposers (maxBlockProposersParam s0) false);
  sy_settled : settled x0 x;
}.

Lemma synced_same t s x : view_of s x → Inv (λ _, t) x → synced t s x s x.
Proof. intros. split; try done. lia. Qed.

Lemma Inv_all_idle t x : Inv (λ _, t) x →
  (∀ a v, vVals x !! a = Some v → idle x a v (t + 1)) → Inv (λ _, t + 1) x.
Proof. intros HI Hidle. apply (Inv_advance OK t); auto. Qed.

Lemma epoch_divide t' : (t' mod EpochLength =? 0) = true ↔ (EpochLength | t').
Proof.
  destruct OK as [[HE _] _ _ _ _ _ _ _ _ _ _]. rewrite Z.eqb_eq. apply Z.mod_divide. lia.
Qed.

(** Between epoch boundaries no staking period ends and nobody exits. *)
Lemma Inv_inside_epoch t x : Inv (λ _, t) x → ¬ (EpochLength | t + 1) → Inv (λ _, t + 1) x.
Proof.
  intros HI Hnd. apply Inv_all_idle; [done|]. intros a v Ha Hs.
  pose proof (Inv_vlocal _ _ _ _ HI Ha) as Hl.
  destruct (vlocal_active _ _ _ _ Hl Hs) as [[[_ Hsd] _ _ _ _ _ _ Hex] _].
  destruct (ExitBlock v) as [b|].
  - intros ->. apply Hnd, Hex.
  - unfold endsAt. intros He%Z.eqb_eq. exfalso. apply Hnd.
    destruct (period_pos OK _ (l_period _ _ _ _ Hl)) as [Hp _].
    apply Z.mod_divide in He; [|lia].
    replace (t + 1) with ((t + 1 - StartBlock v) + StartBlock v) by lia.
    apply Z.divide_add_r; [|done]. etransitivity; [|exact He].
    by apply (period_epochs OK), (l_period _ _ _ _ Hl).
Qed.

Lemma Inv_no_active t x : Inv (λ _, t) x → vA x = [] → Inv (λ _, t + 1) x.
Proof.
  intros HI HA. apply Inv_all_idle; [done|]. intros a v Ha Hs.
  apply (l_active _ _ _ _ (Inv_vlocal _ _ _ _ HI Ha)) in Hs. rewrite HA in Hs. set_solver.
Qed.

Lemma Inv_no_updates t x mbp et : Inv (λ _, t) x → block_ok (t + 1) → plan_ok t x mbp et →
  HasUpdates et = false → Inv (λ _, t + 1) x.
Proof.
  intros HI Hblk [_ Hre Hex _ _] Hno. unfold HasUpdates in Hno.
  apply orb_false_iff in Hno as [Hno _]. apply orb_false_iff in Hno as [Hno _].
  apply orb_false_iff in Hno as [H1 H2]. apply bool_decide_is, dec_stable in H1.
  apply negb_false_iff, Z.eqb_eq in H2. rewrite Hre in H1. rewrite Hex in H2.
  destruct (transition_start OK t x HI Hblk) as [HIw _]. by rewrite H1, H2 in HIw.
Qed.

(** [Housekeep] settles everything due at the block. *)
Lemma wp_Housekeep t s x :
  view_of s x → Inv (λ _, t) x → funded s 0 → block_ok (t + 1) →
  wp (Housekeep (t + 1)) (λ _ s', ∃ x', synced (t + 1) s x s' x') (crowded x) s.
Proof.
  intros Hx HI Hf Hblk. unfold Housekeep.
  destruct ((t + 1) mod EpochLength =? 0) eqn:Ediv; simpl.
  2: { wp_step. exists x. apply synced_same; [done|]. apply Inv_inside_epoch; [done|].
       intros H%epoch_divide. congruence. }
  apply epoch_divide in Ediv. wp_step. eapply wp_computeEpochTransition; [done..|].
  intros et Hpl. destruct (HasUpdates et) eqn:Hup; simpl.
  2: { wp_step. exists x. apply synced_same; [done|]. by eapply Inv_no_updates. }
  wp_step. eapply wp_mono; [by eapply wp_applyEpochTransition| |done].
  intros _ s' (x' & Hx' & HI' & Hk & Hse & Hl'). wp_step.
  apply wp_sure, wp_ContractBalanceCheck.
  - rewrite (vo_stats _ _ Hx'). apply (Inv_stats HI').
  - by eapply keeps_funds_funded.
  - wp_step. exists x'. by split.
Qed.

(** The switch from PoA to PoS. *)
Lemma wp_staker_transition t s x :
  view_of s x → Inv (λ _, t) x → block_ok (t + 1) → vA x = [] →
  wp (staker_transition (t + 1)) (λ activated s', ∃ x', synced (t + 1) s x s' x' ∧
    (activated = false → vA x' = [])) never s.
Proof.
  intros Hx HI Hblk HA. pose proof (Inv_no_active t x HI HA) as HI1.
  assert (∃ x', synced (t + 1) s x s x' ∧ (false = false → vA x' = [])) as Hsame
    by (exists x; split; [by apply synced_same|done]).
  unfold staker_transition. destruct ((t + 1) mod EpochLength =? 0) eqn:Ediv; simpl;
    [|by wp_step]. apply epoch_divide in Ediv.
  pose proof (vo_repr _ _ Hx) as Hr.
  pose proof (dll_size _ _ (repr_active _ _ _ _ _ Hr)) as HsA. simpl in HsA. rewrite HA in HsA.
  unfold IsPoSActive, service_IsActive, activeListSize, listStats_GetSize.
  do 6 wp_step. rewrite HsA. simpl.
  replace (s <| validationService := _ |>) with s by (by destruct s as [? ? [? []] ? ? ? ?]; simpl in *; subst).
  unfold service_QueuedGroupSize, queuedListSize, listStats_GetSize. do 6 wp_step.
  replace (s <| validationService := _ |>) with s by (by destruct s as [? ? [] ? ? ? ?]).
  case_match; [by wp_step|]. wp_step.
  eapply wp_computeEpochTransition; [done..|]. intros et Hpl. wp_step.
  eapply wp_mono; [by eapply (wp_applyEpochTransition OK t s x)| |].
  2: { intros err [_ Hc]. rewrite HA in Hc. simpl in Hc. lia. }
  intros _ s' (x' & Hx' & HI' & Hk & Hse & Hl'). wp_step. exists x'. split; [by split|done].
Qed.

(** PoS is on only after the transition period. *)
Definition posStarted (hayabusa t : Z) (x : View) : Prop :=
  vA x ≠ [] → hayabusa + HayabusaTP ≤ t.

Lemma wp_IsPoSActive s x (P : bool → Staker → Prop) R :
  view_of s x → P (bool_decide (vA x ≠ [])) s → wp IsPoSActive P R s.
Proof.
  intros Hx HP. pose proof (dll_size _ _ (repr_active _ _ _ _ _ (vo_repr _ _ Hx))) as HsA.
  simpl in HsA. unfold IsPoSActive, service_IsActive, activeListSize, listStats_GetSize.
  do 5 wp_step. replace (s <| validationService := _ |>) with s by (by destruct s as [? ? [] ? ? ? ?]).
  rewrite HsA. destruct (vA x); simpl in *; done.
Qed.

(** [SyncPOS] processes every block, unless too many are evicted at once. *)
Lemma wp_SyncPOS hayabusa t s x :
  view_of s x → Inv (λ _, t) x → funded s 0 → block_ok (t + 1) →
  block_ok hayabusa → posStarted hayabusa t x →
  wp (SyncPOS hayabusa (t + 1)) (λ _ s', ∃ x', synced (t + 1) s x s' x' ∧
    posStarted hayabusa (t + 1) x') (crowded x) s.
Proof.
  intros Hx HI Hf Hblk Hhay Hpos. pose proof OK as [_ _ _ _ _ _ _ _ _ _ [HT1 HT2]].
  unfold SyncPOS, block_ok in *. rewrite (wrap32_id (hayabusa + HayabusaTP)) by ulia.
  destruct (Z.ltb_spec (t + 1) (hayabusa + HayabusaTP)) as [Hlt|Hge].
  { wp_step. exists x. assert (vA x = []) as HA.
    { destruct (vA x) eqn:E; [done|]. unfold posStarted in Hpos. rewrite E in Hpos.
      specialize (Hpos ltac:(done)). lia. }
    split; [apply synced_same; [done|by apply Inv_no_active]|by intros []]. }
  assert (∀ x', posStarted hayabusa (t + 1) x') as Hpos' by (intros x' _; lia).
  wp_step. eapply wp_IsPoSActive; [done|].
  destruct (vA x) as [|a0 l0] eqn:EA.
  - rewrite bool_decide_eq_false_2 by naive_solver. wp_step. simpl. case_match.
    + eapply wp_mono; [by eapply wp_staker_transition| |done].
      intros activated s' (x' & Hsy & Hact). destruct activated; simpl; wp_step; eauto.
    + wp_step. simpl. wp_step. exists x. split; [|done].
      apply synced_same; [done|by apply Inv_no_active].
  - rewrite bool_decide_eq_true_2 by done. wp_step. simpl. wp_step. simpl. wp_step.
    eapply wp_mono; [eapply (wp_Housekeep t s x); try done; by rewrite EA| |done].
    intros updates s' (x' & Hsy). wp_step. eauto.
Qed.
End housekeep.
