(* ===== verification/StakerNative.v ===== *)
(** * The staker contract as its callers see it

    [src/builtin/staker_native.go], the native methods, and
    [src/builtin/gen/staker.sol], the Solidity contract in front of them.  The
    contract's functions run their modifiers, keep the slot [effectiveVET] and
    call the native methods; a withdrawal then calls the sender with the VET,
    which may call the contract again before the withdrawal returns.

    [World] is what these functions read and write: the staker's storage and
    balance, the authority contract, two governance parameters, the block
    number, and the VET held outside the contract.  Events and gas are not
    modelled. *)

From S2P Require Import Prelude Thor Chain Authority Stakes GlobalStats Aggregation Validation.
From S2P Require Import Delegation Storage LinkedList RenewalList Repository ValidationService.
From S2P Require Import Staker Housekeep.

Record World := MkWorld {
  wStaker : Staker;
  wAuthority : Authority;
  wDelegatorContract : Z;  (* params: KeyDelegatorContractAddress *)
  wSwitches : Z;           (* params: KeyStakerSwitches *)
  wBlock : Z;              (* env.BlockContext().Number *)
  wOutside : Z;            (* VET of all other accounts, wei *)
}.
#[export] Instance eta_World : Eta World := λ w,
  MkWorld (wStaker w) (wAuthority w) (wDelegatorContract w) (wSwitches w) (wBlock w) (wOutside w).

(** ** The native methods *)

(** The wrapper around every native method: a revert error reverts the call
    with a prefixed message, any other error is a panic of the node. *)
Definition native_error (e : error) : error :=
  match e with
  | ErrRevert msg => ErrRevert ("staker: " +:+ msg)
  | ErrInternal msg => ErrPanic msg
  | ErrMaxTryReached => ErrPanic "max try reached"
  | e => e
  end.

Definition native {A} (run : M World A) : M World A := map_err native_error run.

(** [if err != nil { return nil, staker.NewReverts(err.Error()) }] *)
Definition ToVET_or_revert (wei : Z) : result Z :=
  match ToVET wei with
  | Err (ErrInternal msg) => Err (ErrRevert msg)
  | r => r
  end.

Definition MaxUint32 : Z := max32 - 1.

Definition native_totalStake : M World (Z * Z) := native (
  '(staked, weight) ← zoom wStaker LockedStake;
  mret (ToWei staked, ToWei weight)).

Definition native_queuedStake : M World Z := native (
  staked ← zoom wStaker QueuedStake;
  mret (ToWei staked)).

(** What [native_getValidation] returns. *)
Record ValidationInfo := MkValidationInfo {
  vi_endorser : Address;
  vi_stake : Z;
  vi_weight : Z;
  vi_queuedVET : Z;
  vi_status : Status;
  vi_offlineBlock : Z;
  vi_period : Z;
  vi_startBlock : Z;
  vi_exitBlock : Z;
  vi_completedPeriods : Z;
}.

Definition native_getValidation (validator : Address) : M World ValidationInfo := native (
  v ← zoom wStaker (GetValidation validator);
  match v with
  | None => mret (MkValidationInfo 0 0 0 0 StatusUnknown MaxUint32 0 0 MaxUint32 0)
  | Some v =>
      let exitBlock := default MaxUint32 (ExitBlock v) in
      let offlineBlock := default MaxUint32 (OfflineBlock v) in
      number ← gets wBlock;
      completeIterations ← lift (CompletedIterations v number);
      mret (MkValidationInfo (Endorser v) (ToWei (LockedVET v)) (ToWei (ValWeight v))
        (ToWei (QueuedVET v)) (ValStatus v) offlineBlock (Period v) (StartBlock v)
        exitBlock completeIterations)
  end).

Definition native_firstActive : M World Address := native (zoom wStaker FirstActive).
Definition native_firstQueued : M World Address := native (zoom wStaker FirstQueued).
Definition native_next (prev : Address) : M World Address := native (zoom wStaker (staker_Next prev)).

Definition native_setBeneficiary (validator endorser beneficiary : Address) : M World unit :=
  native (zoom wStaker (SetBeneficiary validator endorser beneficiary)).

(** What [native_getDelegation] returns. *)
Record DelegationInfo := MkDelegationInfo {
  di_validator : Address;
  di_stake : Z;
  di_multiplier : Z;
  di_isLocked : bool;
  di_startPeriod : Z;
  di_endPeriod : Z;
}.

Definition native_getDelegation (delegationID : Z) : M World DelegationInfo := native (
  r ← zoom wStaker (GetDelegation delegationID);
  match r with
  | None => mret (MkDelegationInfo 0 0 0 false 0 MaxUint32)
  | Some (delegation, validation) =>
      let lastPeriod := default MaxUint32 (LastIteration delegation) in
      number ← gets wBlock;
      isLocked ← lift (IsLocked delegation validation number);
      mret (MkDelegationInfo (DelValidation delegation) (ToWei (Stake delegation))
        (DelMultiplier delegation) isLocked (FirstIteration delegation) lastPeriod)
  end).

Definition native_getDelegatorsRewards (validator : Address) (stakingPeriod : Z) : M World Z :=
  native (zoom wStaker (staker_GetDelegatorRewards validator stakingPeriod)).

(** [thor.BytesToAddress] keeps the last 20 bytes. *)
Definition native_getDelegatorContract : M World Address := native (
  raw ← gets wDelegatorContract;
  mret (raw mod 2 ^ 160)).

Definition native_getValidationsNum : M World (Z * Z) := native (zoom wStaker GetValidationsNum).

Definition native_getControlSwitches : M World Z := native (gets wSwitches).

Section natives.
Context `{SM : SafeMath} `{CFG : Config}.

Definition native_getWithdrawable (validator : Address) : M World Z := native (
  number ← gets wBlock;
  amount ← zoom wStaker (GetWithdrawable validator number);
  mret (ToWei amount)).

Definition native_withdrawStake (validator endorser : Address) : M World Z := native (
  number ← gets wBlock;
  stake ← zoom wStaker (WithdrawStake validator endorser number);
  mret (ToWei stake)).

Definition native_addValidation (validator endorser : Address) (period stake : Z)
    : M World unit := native (
  isPoSActive ← zoom wStaker IsPoSActive;
  when (negb isPoSActive) (
    '(exists_, authEndorser, _, _) ← zoom wAuthority (Authority_Get validator);
    reject (negb exists_) (ErrRevert "authority required in transition period") ;;
    reject (negb (endorser =? authEndorser)) (ErrRevert "endorser required")) ;;
  stake ← lift (ToVET_or_revert stake);
  zoom wStaker (AddValidation validator endorser period stake)).

Definition native_signalExit (validator endorser : Address) : M World unit := native (
  number ← gets wBlock;
  zoom wStaker (SignalExit validator endorser number)).

Definition native_increaseStake (validator endorser : Address) (amount : Z) : M World unit :=
  native (
  stake ← lift (ToVET_or_revert amount);
  zoom wStaker (IncreaseStake validator endorser stake)).

Definition native_decreaseStake (validator endorser : Address) (amount : Z) : M World unit :=
  native (
  stake ← lift (ToVET_or_revert amount);
  zoom wStaker (DecreaseStake validator endorser stake)).

Definition native_addDelegation (validator : Address) (stake multiplier : Z) : M World Z :=
  native (
  stake ← lift (ToVET_or_revert stake);
  number ← gets wBlock;
  zoom wStaker (AddDelegation validator stake multiplier number)).

Definition native_withdrawDelegation (delegationID : Z) : M World Z := native (
  number ← gets wBlock;
  stake ← zoom wStaker (WithdrawDelegation delegationID number);
  mret (ToWei stake)).

Definition native_signalDelegationExit (delegationID : Z) : M World unit := native (
  number ← gets wBlock;
  zoom wStaker (SignalDelegationExit delegationID number)).

(** In the order locked, locked weight, queued, exiting, next-period weight. *)
Definition native_getValidationTotals (validator : Address) : M World (Z * Z * Z * Z * Z) :=
  native (
  totals ← zoom wStaker (GetValidationTotals validator);
  mret (ToWei (TotalLockedStake totals), ToWei (TotalLockedWeight totals),
        ToWei (TotalQueuedStake totals), ToWei (TotalExitingStake totals),
        ToWei (NextPeriodWeight totals))).
End natives.

(** ** The contract *)

Definition max256 : Z := 2 ^ 256.
Definition DELEGATOR_PAUSED_BIT : Z := Z.shiftl 1 0.
Definition STAKER_PAUSED_BIT : Z := Z.shiftl 1 1.

(** Checked [uint256] arithmetic reverts. *)
Definition checked_add (x y : Z) : result Z :=
  if max256 <=? x + y then Err (ErrRevert "arithmetic overflow") else Ok (x + y).
Definition checked_sub (x y : Z) : result Z :=
  if x <? y then Err (ErrRevert "arithmetic underflow") else Ok (x - y).

Definition effectiveVET_add (value : Z) : M World unit :=
  eff ← gets (λ w, effectiveVET (wStaker w));
  eff' ← lift (checked_add eff value);
  modify (λ w, w <| wStaker := (wStaker w) <| effectiveVET := eff' |> |>).

Definition effectiveVET_sub (stake : Z) : M World unit :=
  eff ← gets (λ w, effectiveVET (wStaker w));
  eff' ← lift (checked_sub eff stake);
  modify (λ w, w <| wStaker := (wStaker w) <| effectiveVET := eff' |> |>).

Definition onlyDelegatorContract (sender : Address) : M World unit :=
  expected ← native_getDelegatorContract;
  reject (negb (sender =? expected)) (ErrRevert "staker:only delegator").

Definition sol_checkStake (amount : Z) : M World unit :=
  reject (negb (0 <? amount)) (ErrRevert "staker: stake is empty") ;;
  reject (negb (amount mod bigE18 =? 0)) (ErrRevert "staker: stake is not multiple of 1VET") ;;
  reject (negb (amount <=? 100000000000 * bigE18)) (ErrRevert "staker: stake is above max supply").

Definition stakerNotPaused : M World unit :=
  switches ← native_getControlSwitches;
  reject (negb (Z.land switches STAKER_PAUSED_BIT =? 0)) (ErrRevert "staker: staker is paused").

Definition delegatorNotPaused : M World unit :=
  switches ← native_getControlSwitches;
  reject (negb (Z.land switches STAKER_PAUSED_BIT =? 0)) (ErrRevert "staker: staker is paused") ;;
  reject (negb (Z.land switches DELEGATOR_PAUSED_BIT =? 0))
    (ErrRevert "staker: delegator is paused").

(** VET moved by a call: into the contract with the call, out of it with the
    call of a withdrawal to its sender. *)
Definition value_in (value : Z) : M World unit :=
  outside ← gets wOutside;
  reject (outside <? value) (ErrRevert "insufficient balance for transfer") ;;
  modify (λ w, w <| wStaker := (wStaker w) <| balance := balance (wStaker w) + value |> |>
                 <| wOutside := wOutside w - value |>).

(** Functions that are not payable refuse any value. *)
Definition not_payable (value : Z) : M World unit :=
  reject (negb (value =? 0)) (ErrRevert "non-payable function").

(** [msg.sender.call{value: stake}("")]: the flag is [false], and nothing has
    changed, when the balance is short or the receiver reverts; [receiver] is
    what the receiving code does when it succeeds. *)
Definition call_sender (receiver : M World bool) (stake : Z) : M World bool :=
  bal ← gets (λ w, balance (wStaker w));
  if bal <? stake then mret false else λ w,
  match (modify (λ w, w <| wStaker := (wStaker w) <| balance := balance (wStaker w) - stake |> |>
                        <| wOutside := wOutside w + stake |>) ;; receiver) w with
  | Ok (false, _) => Ok (false, w)
  | r => r
  end.

Definition sol_setBeneficiary (sender : Address) (value : Z) (validator beneficiary : Address)
    : M World unit :=
  not_payable value ;;
  stakerNotPaused ;;
  native_setBeneficiary validator sender beneficiary.

Definition sol_getDelegation (delegationID : Z) : M World (Address * Z * Z * bool) :=
  r ← native_getDelegation delegationID;
  mret (di_validator r, di_stake r, di_multiplier r, di_isLocked r).

Definition sol_getDelegationPeriodDetails (delegationID : Z) : M World (Z * Z) :=
  r ← native_getDelegation delegationID;
  mret (di_startPeriod r, di_endPeriod r).

Definition sol_getValidation (validator : Address) : M World (Address * Z * Z * Z * Status * Z) :=
  r ← native_getValidation validator;
  mret (vi_endorser r, vi_stake r, vi_weight r, vi_queuedVET r, vi_status r, vi_offlineBlock r).

Definition sol_getValidationPeriodDetails (validator : Address) : M World (Z * Z * Z * Z) :=
  r ← native_getValidation validator;
  mret (vi_period r, vi_startBlock r, vi_exitBlock r, vi_completedPeriods r).

Section contract.
Context `{SM : SafeMath} `{CFG : Config}.

Definition sol_addValidation (sender : Address) (value : Z) (validator : Address) (period : Z)
    : M World unit :=
  sol_checkStake value ;;
  stakerNotPaused ;;
  effectiveVET_add value ;;
  native_addValidation validator sender period value.

Definition sol_increaseStake (sender : Address) (value : Z) (validator : Address) : M World unit :=
  sol_checkStake value ;;
  stakerNotPaused ;;
  effectiveVET_add value ;;
  native_increaseStake validator sender value.

Definition sol_decreaseStake (sender : Address) (value : Z) (validator : Address) (amount : Z)
    : M World unit :=
  not_payable value ;;
  sol_checkStake amount ;;
  stakerNotPaused ;;
  native_decreaseStake validator sender amount.

Definition sol_withdrawStake (sender : Address) (value : Z) (receiver : M World bool)
    (validator : Address) : M World unit :=
  not_payable value ;;
  stakerNotPaused ;;
  stake ← native_withdrawStake validator sender;
  effectiveVET_sub stake ;;
  success ← call_sender receiver stake;
  reject (negb success) (ErrRevert "Transfer failed").

Definition sol_signalExit (sender : Address) (value : Z) (validator : Address) : M World unit :=
  not_payable value ;;
  stakerNotPaused ;;
  native_signalExit validator sender.

Definition sol_addDelegation (sender : Address) (value : Z) (validator : Address) (multiplier : Z)
    : M World Z :=
  onlyDelegatorContract sender ;;
  sol_checkStake value ;;
  delegatorNotPaused ;;
  effectiveVET_add value ;;
  native_addDelegation validator value multiplier.

Definition sol_signalDelegationExit (sender : Address) (value delegationID : Z) : M World unit :=
  not_payable value ;;
  onlyDelegatorContract sender ;;
  delegatorNotPaused ;;
  native_signalDelegationExit delegationID.

Definition sol_withdrawDelegation (sender : Address) (value : Z) (receiver : M World bool)
    (delegationID : Z) : M World unit :=
  not_payable value ;;
  onlyDelegatorContract sender ;;
  delegatorNotPaused ;;
  stake ← native_withdrawDelegation delegationID;
  effectiveVET_sub stake ;;
  success ← call_sender receiver stake;
  reject (negb success) (ErrRevert "Transfer failed").
End contract.

(** ** Calls

    A call to the contract: its sender, the VET sent along, and the function.
    A withdrawal carries what the receiver of the VET does: revert ([None]),
    or make further calls to the contract and return ([Some]). *)
Inductive call :=
  | Call (sender : Address) (value : Z) (m : method)
  | Forced (value : Z)  (* VET arriving without a call, by a self-destruct *)
with method :=
  | MAddValidation (validator : Address) (period : Z)
  | MIncreaseStake (validator : Address)
  | MSetBeneficiary (validator beneficiary : Address)
  | MDecreaseStake (validator : Address) (amount : Z)
  | MWithdrawStake (validator : Address) (receiver : option (list call))
  | MSignalExit (validator : Address)
  | MAddDelegation (validator : Address) (multiplier : Z)
  | MSignalDelegationExit (delegationID : Z)
  | MWithdrawDelegation (delegationID : Z) (receiver : option (list call)).

(** A call made by a contract: when it reverts its effects are undone and the
    caller goes on. *)
Definition attempt (m : M World unit) : M World unit := λ w,
  match m w with Err (ErrRevert _) => Ok (tt, w) | r => r end.

Section exec.
Context `{SM : SafeMath} `{CFG : Config}.

Fixpoint exec (c : call) : M World unit :=
  let run_all := fix run_all (cs : list call) : M World bool :=
    match cs with
    | [] => mret true
    | c :: cs => attempt (exec c) ;; run_all cs
    end in
  let receive (r : option (list call)) : M World bool :=
    match r with None => mret false | Some cs => run_all cs end in
  match c with
  | Forced value => value_in value
  | Call sender value m =>
      value_in value ;;
      match m with
      | MAddValidation validator period => sol_addValidation sender value validator period
      | MIncreaseStake validator => sol_increaseStake sender value validator
      | MSetBeneficiary validator beneficiary =>
          sol_setBeneficiary sender value validator beneficiary
      | MDecreaseStake validator amount => sol_decreaseStake sender value validator amount
      | MWithdrawStake validator r => sol_withdrawStake sender value (receive r) validator
      | MSignalExit validator => sol_signalExit sender value validator
      | MAddDelegation validator multiplier =>
          sol_addDelegation sender value validator multiplier ;; mret tt
      | MSignalDelegationExit delegationID => sol_signalDelegationExit sender value delegationID
      | MWithdrawDelegation delegationID r =>
          sol_withdrawDelegation sender value (receive r) delegationID
      end
  end.

(** The calls a receiver makes. *)
Fixpoint run_all (cs : list call) : M World bool :=
  match cs with
  | [] => mret true
  | c :: cs => attempt (exec c) ;; run_all cs
  end.

Definition receive (r : option (list call)) : M World bool :=
  match r with None => mret false | Some cs => run_all cs end.
End exec.
