(* ===== verification/StakerWorld.v ===== *)
(** * The contract calls preserve the staker's invariant

    Every call to staker.sol, with the calls that a receiver of VET makes
    before it returns, either reverts or leaves the contract in a state that
    satisfies the invariant; no native method panics. *)

From S2P Require Import Prelude Thor Chain Authority Stakes GlobalStats Aggregation Validation.
From S2P Require Import Delegation Storage LinkedList RenewalList Repository ValidationService.
From S2P Require Import Staker StakerInv StakerOps DelegationOps Housekeep HousekeepInv TransitionInv.
From S2P Require Import StakerNative.

(** ** Parts of the state that an operation does not touch *)

Definition keeps {S A T} (f : S → T) (m : M S A) : Prop :=
  ∀ s a s', m s = Ok (a, s') → f s' = f s.

Section keeps.
Context {S T : Type} (f : S → T).

Lemma keeps_ret {A} (a : A) : keeps f (mret a).
Proof. intros s b s' [= <- <-]. done. Qed.

Lemma keeps_fail {A} e : keeps f (fail e : M S A).
Proof. intros s b s' [=]. Qed.

Lemma keeps_gets {A} (g : S → A) : keeps f (gets g).
Proof. intros s b s' [= <- <-]. done. Qed.

Lemma keeps_lift {A} (r : result A) : keeps f (lift r).
Proof. intros s b s'. unfold lift. destruct r; [|done]. by intros [= <- <-]. Qed.

Lemma keeps_reject b e : keeps f (reject b e).
Proof. destruct b; [apply keeps_fail|apply keeps_ret]. Qed.

Lemma keeps_need {A} (o : option A) e : keeps f (need o e).
Proof. destruct o; [apply keeps_ret|apply keeps_fail]. Qed.

Lemma keeps_when b (m : M S unit) : keeps f m → keeps f (when b m).
Proof. destruct b; [done|intros _; apply keeps_ret]. Qed.

Lemma keeps_map_err {A} g (m : M S A) : keeps f m → keeps f (map_err g m).
Proof.
  intros H s a s'. unfold map_err. destruct (m s) as [[b t]|] eqn:E; [|done].
  intros [= <- <-]. by eapply H.
Qed.

Lemma keeps_bind {A B} (m : M S A) (k : A → M S B) :
  keeps f m → (∀ a, keeps f (k a)) → keeps f (m ≫= k).
Proof.
  intros Hm Hk s b s'. unfold mbind, M_bind. destruct (m s) as [[a t]|] eqn:E; [|done].
  intros H%Hk. by rewrite H, (Hm _ _ _ E).
Qed.

Lemma keeps_zoom {U A} (p : S → U) `{!Setter p} (m : M U A) :
  (∀ s u, f (set_field (p := p) (λ _, u) s) = f s) → keeps f (zoom p m).
Proof.
  intros Hp s a s'. unfold zoom. destruct (m (p s)) as [[b t]|]; [|done]. by intros [= <- <-].
Qed.

Lemma wp_keeps {A} (m : M S A) Q R s :
  keeps f m → wp m Q R s → wp m (λ a s', Q a s' ∧ f s' = f s) R s.
Proof.
  intros Hk. unfold wp. destruct (m s) as [[a s']|] eqn:E; [|done]. intros HQ. split; [done|].
  by eapply Hk.
Qed.
End keeps.

Ltac keeps_solve :=
  repeat first
    [ apply keeps_ret | apply keeps_fail | apply keeps_gets | apply keeps_lift
    | apply keeps_reject | apply keeps_need | apply keeps_when | apply keeps_map_err
    | apply keeps_zoom; by intros [] | apply keeps_bind; [|intros ?]
    | match goal with |- keeps _ (match ?x with _ => _ end) => destruct x end ].

(** The VET of the contract and the proposer limit. *)
Definition funds (s : Staker) : Z * Z * Z :=
  (maxBlockProposersParam s, balance s, effectiveVET s).

Section keep_funds.
Context `{SM : SafeMath} `{CFG : Config}.

Lemma keeps_ContractBalanceCheck n : keeps funds (ContractBalanceCheck n).
Proof. unfold ContractBalanceCheck, GetEffectiveVET. keeps_solve. Qed.

Lemma keeps_getValidationOrRevert a : keeps funds (getValidationOrRevert a).
Proof. unfold getValidationOrRevert, GetValidation. keeps_solve. Qed.

Lemma keeps_validateStakeIncrease a v n : keeps funds (validateStakeIncrease a v n).
Proof. unfold validateStakeIncrease. keeps_solve. Qed.
End keep_funds.

Create HintDb keeps.
#[export] Hint Resolve keeps_ContractBalanceCheck keeps_getValidationOrRevert
  keeps_validateStakeIncrease : keeps.

Ltac keeps_op := repeat first [progress keeps_solve | by auto with keeps].

(** ** The operations, uniformly *)
Section ops.
Context `{SMS : SafeMathSpec} `{CFG : Config} (OK : config_ok CFG).

(** What an operation at block [now] leaves behind: the invariant, with [dep]
    still to be paid out, the same leader group, and at most [n] new
    delegations. *)
Record op_done (now dep n : Z) (s : Staker) (x : View) (s' : Staker) (x' : View) : Prop := {
  od_view : view_of s' x';
  od_inv : Inv (λ _, now) x';
  od_funded : funded s' dep;
  od_active : vA x' = vA x;
  od_ids : vNextID x' ≤ vNextID x + n;
  od_funds : funds s' = funds s;
}.

Lemma op_AddValidation now a e p st s x :
  view_of s x → Inv (λ _, now) x → funded s st → is64 st →
  wp (AddValidation a e p st) (λ _ s', ∃ x', op_done now 0 0 s x s' x') reverts s.
Proof.
  intros Hx HI Hf Hst. eapply (wp_mono _ _ _ (refuses _)); [eapply (wp_keeps funds)| |by intros ? []].
  - unfold AddValidation, GetValidation. keeps_op.
  - by eapply wp_AddValidation.
  - intros _ s' [(_ & ? & ? & ?) ?]. eexists. split; try done. simpl. lia.
Qed.

Lemma op_IncreaseStake now a e n s x :
  view_of s x → Inv (λ _, now) x → funded s n → is64 n →
  wp (IncreaseStake a e n) (λ _ s', ∃ x', op_done now 0 0 s x s' x') reverts s.
Proof.
  intros Hx HI Hf Hn. eapply (wp_mono _ _ _ (refuses _)); [eapply (wp_keeps funds)| |by intros ? []].
  - unfold IncreaseStake. keeps_op.
  - by eapply wp_IncreaseStake.
  - intros _ s' [(v & _ & _ & ? & ? & ?) ?]. eexists. split; try done. simpl. lia.
Qed.

Lemma op_DecreaseStake now a e n s x :
  view_of s x → Inv (λ _, now) x → funded s 0 → is64 n →
  wp (DecreaseStake a e n) (λ _ s', ∃ x', op_done now 0 0 s x s' x') reverts s.
Proof.
  intros Hx HI Hf Hn. eapply (wp_mono _ _ _ (refuses _)); [eapply (wp_keeps funds)| |by intros ? []].
  - unfold DecreaseStake. keeps_op.
  - by eapply wp_DecreaseStake.
  - intros _ s' [(v & _ & _ & ? & ? & ?) ?]. eexists. split; try done. simpl. lia.
Qed.

Lemma op_SetBeneficiary now a e b s x :
  view_of s x → Inv (λ _, now) x → funded s 0 →
  wp (SetBeneficiary a e b) (λ _ s', ∃ x', op_done now 0 0 s x s' x') reverts s.
Proof.
  intros Hx HI Hf. eapply (wp_mono _ _ _ (refuses _)); [eapply (wp_keeps funds)| |by intros ? []].
  - unfold SetBeneficiary. keeps_op.
  - by eapply wp_SetBeneficiary.
  - intros _ s' [(v & _ & _ & ? & ? & ?) ?]. eexists. split; try done. simpl. lia.
Qed.

Lemma op_SignalExit now a e s x :
  view_of s x → Inv (λ _, now) x → funded s 0 → block_ok now →
  wp (SignalExit a e now) (λ _ s', ∃ x', op_done now 0 0 s x s' x') reverts s.
Proof.
  intros Hx HI Hf Hb. eapply (wp_mono _ _ _ (refuses _)); [eapply (wp_keeps funds)| |by intros ? []].
  - unfold SignalExit. keeps_op.
  - by eapply wp_SignalExit.
  - intros _ s' [(v & b & _ & _ & _ & ? & ? & ?) ?]. eexists. split; try done. simpl. lia.
Qed.

Lemma op_WithdrawStake now a e s x :
  view_of s x → Inv (λ _, now) x → funded s 0 →
  wp (WithdrawStake a e now) (λ n s', 0 ≤ n ∧ ∃ x', op_done now n 0 s x s' x') reverts s.
Proof.
  intros Hx HI Hf. eapply (wp_mono _ _ _ (refuses _)); [eapply (wp_keeps funds)| |by intros ? []].
  - unfold WithdrawStake. keeps_op.
  - by eapply wp_WithdrawStake.
  - intros n s' [(v & _ & _ & _ & ? & ? & ? & ?) ?]. split; [done|]. eexists. split; try done;
      unfold abs_WithdrawStake; case_decide; simpl; try done; lia.
Qed.

Lemma op_AddDelegation now a st m s x :
  view_of s x → Inv (λ _, now) x → funded s st → is64 st → 0 ≤ m < 256 → block_ok now →
  vNextID x + 1 < maxUint256 →
  wp (AddDelegation a st m now) (λ _ s', ∃ x', op_done now 0 1 s x s' x') reverts s.
Proof.
  intros Hx HI Hf Hst Hm Hb Hid. eapply (wp_mono _ _ _ (refuses _)); [eapply (wp_keeps funds)| |by intros ? []].
  - unfold AddDelegation. keeps_op.
  - by eapply wp_AddDelegation.
  - intros _ s' [(v & _ & _ & _ & ? & ? & ?) ?]. eexists. by split.
Qed.

Lemma op_SignalDelegationExit now id s x :
  view_of s x → Inv (λ _, now) x → funded s 0 → block_ok now →
  wp (SignalDelegationExit id now) (λ _ s', ∃ x', op_done now 0 0 s x s' x') reverts s.
Proof.
  intros Hx HI Hf Hb. eapply (wp_mono _ _ _ (refuses _)); [eapply (wp_keeps funds)| |by intros ? []].
  - unfold SignalDelegationExit. keeps_op.
  - by eapply wp_SignalDelegationExit.
  - intros _ s' [(v & d & _ & _ & _ & ? & ? & ?) ?]. eexists. split; try done. simpl. lia.
Qed.

Lemma op_WithdrawDelegation now id s x :
  view_of s x → Inv (λ _, now) x → funded s 0 → block_ok now →
  wp (WithdrawDelegation id now) (λ n s', 0 ≤ n ∧ ∃ x', op_done now n 0 s x s' x') reverts s.
Proof.
  intros Hx HI Hf Hb. eapply (wp_mono _ _ _ (refuses _)); [eapply (wp_keeps funds)| |by intros ? []].
  - unfold WithdrawDelegation. keeps_op.
  - by eapply wp_WithdrawDelegation.
  - intros n s' [(v & d & _ & _ & _ & ? & _ & ? & ? & ?) ?]. split; [done|].
    eexists. split; try done. simpl. lia.
Qed.
End ops.

(** ** Well-formed calls *)

(** The argument ranges that the ABI decoding guarantees. *)
Fixpoint call_wf (c : call) : bool :=
  match c with
  | Forced value => 0 <=? value
  | Call _ value m => (0 <=? value) &&
      match m with
      | MDecreaseStake _ amount => 0 <=? amount
      | MAddDelegation _ multiplier => (0 <=? multiplier) && (multiplier <? 256)
      | MWithdrawStake _ (Some cs) | MWithdrawDelegation _ (Some cs) => forallb call_wf cs
      | _ => true
      end
  end.

(** The number of calls, those made by receivers included. *)
Fixpoint calls_in (c : call) : Z :=
  match c with
  | Forced _ => 1
  | Call _ _ m => 1 +
      match m with
      | MWithdrawStake _ (Some cs) | MWithdrawDelegation _ (Some cs) =>
          foldr (λ c n, calls_in c + n) 0 cs
      | _ => 0
      end
  end.

Definition calls_of (cs : list call) : Z := foldr (λ c n, calls_in c + n) 0 cs.

(** The calls a method carries. *)
Definition nested (m : method) : list call :=
  match m with
  | MWithdrawStake _ (Some cs) | MWithdrawDelegation _ (Some cs) => cs
  | _ => []
  end.

(** Induction over a call and the calls nested in it. *)
Section call_ind.
Context (P : call → Prop).
Context (Hforced : ∀ value, P (Forced value)).
Context (Hcall : ∀ sender value m, Forall P (nested m) → P (Call sender value m)).

Fixpoint call_nested_ind (c : call) : P c :=
  let all := fix all (cs : list call) : Forall P cs :=
    match cs with
    | [] => List.Forall_nil P
    | c :: cs => List.Forall_cons P c cs (call_nested_ind c) (all cs)
    end in
  match c with
  | Forced value => Hforced value
  | Call sender value m => Hcall sender value m
      match m return Forall P (nested m) with
      | MWithdrawStake _ (Some cs) => all cs
      | MWithdrawDelegation _ (Some cs) => all cs
      | _ => List.Forall_nil P
      end
  end.
End call_ind.

Lemma calls_in_pos c : 1 ≤ calls_in c.
Proof.
  induction c as [|sender value m Hm] using call_nested_ind; simpl; [lia|].
  assert (0 ≤ calls_of (nested m)) as H.
  { induction Hm; simpl; [done|]. unfold calls_of in *. lia. }
  destruct m as [| | | |? [|]| | | |? [|]]; simpl in *; unfold calls_of in *; simpl in *; lia.
Qed.

Lemma calls_of_nonneg cs : 0 ≤ calls_of cs.
Proof.
  induction cs as [|c cs IH]; simpl; [done|]. pose proof (calls_in_pos c). unfold calls_of in *. lia.
Qed.

(** ** The world between and inside calls *)
Section world.
Context `{SMS : SafeMathSpec} `{CFG : Config} (OK : config_ok CFG).

(** [dep] (in VET) is in transit, and [n] more delegations can be numbered. *)
Record winv (dep n : Z) (w : World) (x : View) : Prop := {
  wi_view : view_of (wStaker w) x;
  wi_inv : Inv (λ _, wBlock w) x;
  wi_funded : funded (wStaker w) dep;
  wi_outside : 0 ≤ wOutside w;
  wi_supply : balance (wStaker w) + wOutside w ≤ ToWei MaxSupply;
  wi_block : block_ok (wBlock w);
  wi_ids : vNextID x + n < maxUint256;
}.

(** What calls leave alone; VET only moves. *)
Record wsame (w : World) (x : View) (w' : World) (x' : View) : Prop := {
  ws_block : wBlock w' = wBlock w;
  ws_authority : wAuthority w' = wAuthority w;
  ws_delegator : wDelegatorContract w' = wDelegatorContract w;
  ws_switches : wSwitches w' = wSwitches w;
  ws_limit : maxBlockProposersParam (wStaker w') = maxBlockProposersParam (wStaker w);
  ws_active : vA x' = vA x;
  ws_total : balance (wStaker w') + wOutside w' = balance (wStaker w) + wOutside w;
}.

Lemma wsame_refl w x : wsame w x w x.
Proof. by split. Qed.

Lemma wsame_trans w1 x1 w2 x2 w3 x3 :
  wsame w1 x1 w2 x2 → wsame w2 x2 w3 x3 → wsame w1 x1 w3 x3.
Proof. intros [] []. split; congruence. Qed.

Lemma winv_less dep n n' w x : n' ≤ n → winv dep n w x → winv dep n' w x.
Proof. intros ? []. split; try done. lia. Qed.

(** The outcome of a step from [w]. *)
Definition wpost (dep n : Z) (w : World) (x : View) (w' : World) : Prop :=
  ∃ x', winv dep n w' x' ∧ wsame w x w' x'.

Lemma wpost_here dep n w x : winv dep n w x → wpost dep n w x w.
Proof. intros H. exists x. split; [done|apply wsame_refl]. Qed.

Lemma wpost_after dep n w x w' x' w'' :
  wsame w x w' x' → wpost dep n w' x' w'' → wpost dep n w x w''.
Proof. intros Hs (x'' & ? & ?). exists x''. split; [done|]. by eapply wsame_trans. Qed.

Lemma wp_native {A} (m : M World A) Q w : wp m Q reverts w → wp (native m) Q reverts w.
Proof.
  intros H. apply wp_map_err. eapply wp_mono; [exact H|done|].
  intros e [msg ->]. by eexists.
Qed.

(** A staker operation, run inside the world. *)
Lemma wp_staker_op {A} (m : M Staker A) (d : A → Z) dep k n w x :
  winv dep (k + n) w x →
  wp m (λ a s', 0 ≤ d a ∧ ∃ x', op_done (wBlock w) (d a) k (wStaker w) x s' x') reverts (wStaker w) →
  wp (zoom wStaker m) (λ a w', 0 ≤ d a ∧ wpost (d a) n w x w') reverts w.
Proof.
  intros Hw Hm. apply wp_zoom. eapply wp_mono; [exact Hm| |done].
  intros a s' [? (x' & [? ? ? ? ? Hfu])]. split; [done|]. unfold funds in Hfu.
  destruct Hw. exists x'. split; split; simpl; try done; try congruence; try lia.
Qed.

Lemma wp_value_in v dep n w x (Q : unit → World → Prop) :
  winv dep n w x → 0 ≤ v →
  (∀ w', winv dep n w' x → wsame w x w' x →
    effectiveVET (wStaker w') + v ≤ balance (wStaker w') → Q tt w') →
  wp (value_in v) Q reverts w.
Proof.
  intros [? ? [Hd He Hb] ? ? ? ?] Hv HQ. unfold value_in. do 2 wp_step. passes H. apply Z.ltb_ge in H.
  wp_step. apply HQ.
  - split; simpl; try done; try lia.
    + destruct wi_view0. by split.
    + split; simpl; [done|done|lia].
  - split; simpl; try done. lia.
  - simpl. lia.
Qed.

Lemma wp_stakerNotPaused (Q : unit → World → Prop) w : Q tt w → wp stakerNotPaused Q reverts w.
Proof. intros HQ. unfold stakerNotPaused. wp_step. apply wp_native. wp_step. by passes H. Qed.

Lemma wp_delegatorNotPaused (Q : unit → World → Prop) w : Q tt w → wp delegatorNotPaused Q reverts w.
Proof.
  intros HQ. unfold delegatorNotPaused. wp_step. apply wp_native. wp_step. passes H. by passes H'.
Qed.

Lemma wp_onlyDelegatorContract sender (Q : unit → World → Prop) w :
  Q tt w → wp (onlyDelegatorContract sender) Q reverts w.
Proof.
  intros HQ. unfold onlyDelegatorContract. wp_step. apply wp_native. do 3 wp_step. by passes H.
Qed.

(** A checked amount is a whole number of VET within the supply. *)
Lemma wp_sol_checkStake v (Q : unit → World → Prop) w :
  (∀ st, v = ToWei st → 0 < st ≤ MaxSupply → Q tt w) → wp (sol_checkStake v) Q reverts w.
Proof.
  intros HQ. unfold sol_checkStake. passes H1. passes H2. passes H3.
  apply negb_false_iff in H1, H2, H3. apply Z.ltb_lt in H1. apply Z.eqb_eq in H2.
  apply Z.leb_le in H3. unfold bigE18, MaxSupply in *.
  apply Z.mod_divide in H2 as [st ->]; [|lia]. apply (HQ st); [done|lia].
Qed.

Lemma wp_not_payable v (Q : unit → World → Prop) w : Q tt w → wp (not_payable v) Q reverts w.
Proof. intros HQ. unfold not_payable. by passes H. Qed.

Lemma ToVET_ToWei st : 0 ≤ st < max64 → ToVET_or_revert (ToWei st) = Ok st.
Proof.
  intros Hst. unfold ToVET_or_revert, ToVET, ToWei, bigE18.
  rewrite (proj2 (Z.ltb_ge _ _)) by lia. rewrite Z.div_mul by lia.
  by rewrite (proj2 (Z.leb_gt _ _)) by lia.
Qed.

(** The deposit of [st] VET is booked in [effectiveVET]. *)
Lemma wp_effectiveVET_add st n w x (Q : unit → World → Prop) :
  winv 0 n w x → 0 ≤ st → effectiveVET (wStaker w) + ToWei st ≤ balance (wStaker w) →
  (∀ w', winv st n w' x → wsame w x w' x → Q tt w') →
  wp (effectiveVET_add (ToWei st)) Q reverts w.
Proof.
  intros [Hv ? [Hd He Hb] ? ? ? ?] Hst Hle HQ. unfold effectiveVET_add. do 3 wp_step. unfold checked_add.
  destruct (Z.leb_spec max256 (effectiveVET (wStaker w) + ToWei st)); [by eexists|].
  wp_step. apply HQ; [|by split].
  split; simpl; try done.
  - destruct Hv. by split.
  - split; simpl; [done| |lia]. rewrite He. unfold ToWei. lia.
Qed.

(** ... and the one that leaves is taken out. *)
Lemma wp_effectiveVET_sub st n w x (Q : unit → World → Prop) :
  winv st n w x → 0 ≤ st →
  (∀ w', winv 0 n w' x → wsame w x w' x →
    effectiveVET (wStaker w') + ToWei st ≤ balance (wStaker w') → Q tt w') →
  wp (effectiveVET_sub (ToWei st)) Q reverts w.
Proof.
  intros [Hv HI [Hd He Hb] ? ? ? ?] Hst HQ. unfold effectiveVET_sub. do 3 wp_step. unfold checked_sub.
  case_match; [by eexists|]. wp_step. apply HQ.
  - split; simpl; try done.
    + destruct Hv. by split.
    + split; simpl; [done| |unfold ToWei, bigE18 in *; lia]. rewrite He. unfold ToWei. lia.
  - by split.
  - simpl. lia.
Qed.

(** The receiver gets its VET and may act on the contract. *)
Lemma wp_call_sender r st n n' w x :
  winv 0 n w x → 0 ≤ st → effectiveVET (wStaker w) + ToWei st ≤ balance (wStaker w) →
  (∀ w', winv 0 n w' x → wsame w x w' x → wp r (λ _, wpost 0 n' w' x) reverts w') →
  wp (call_sender r (ToWei st)) (λ b w', b = true → wpost 0 n' w x w') reverts w.
Proof.
  intros Hw Hst Hle Hr. unfold call_sender. do 2 wp_step.
  destruct (Z.ltb_spec (balance (wStaker w)) (ToWei st)); [by wp_step|].
  destruct Hw as [Hv HI [Hd He Hb] ? ? ? ?]. unfold wp, mbind, M_bind, modify.
  set (w1 := set_field _ _). assert (winv 0 n w1 x) as Hw1.
  { split; simpl; try done; try lia.
    - destruct Hv. by split.
    - split; simpl; [done|done|]. unfold ToWei, bigE18 in *. lia.
    - unfold ToWei, bigE18 in *. lia. }
  assert (wsame w x w1 x) as Hs1 by (split; simpl; try done; lia).
  specialize (Hr w1 Hw1 Hs1). unfold wp in Hr. destruct (r w1) as [[[|] w']|]; [|done|done].
  intros _. by eapply wpost_after.
Qed.

(** ** The functions of the contract *)

(** An operation that pays nothing out. *)
Lemma wp_unit_op {A} (m : M Staker A) dep k n w x :
  winv dep (k + n) w x →
  wp m (λ _ s', ∃ x', op_done (wBlock w) 0 k (wStaker w) x s' x') reverts (wStaker w) →
  wp (zoom wStaker m) (λ _, wpost 0 n w x) reverts w.
Proof.
  intros Hw Hm. eapply wp_mono; [eapply (wp_staker_op m (λ _, 0)); [done|]| |done].
  - eapply wp_mono; [exact Hm| |done]. by intros.
  - by intros a w' [_ ?].
Qed.

(** A payable function: the checks, the booking, then a native method. *)
Lemma wp_deposit (m : Z → M World unit) v n w x :
  winv 0 n w x → effectiveVET (wStaker w) + v ≤ balance (wStaker w) →
  (∀ st w', is64 st → winv st n w' x → wsame w x w' x →
    wp (m (ToWei st)) (λ _, wpost 0 n w' x) reverts w') →
  wp (sol_checkStake v ;; stakerNotPaused ;; effectiveVET_add v ;; m v)
    (λ _, wpost 0 n w x) reverts w.
Proof.
  intros Hw Hle Hm. wp_step. apply wp_sol_checkStake. intros st -> [? ?].
  wp_step. apply wp_stakerNotPaused. wp_step. eapply wp_effectiveVET_add; [done|lia|done|].
  intros w' Hw' Hs'. eapply wp_mono; [apply Hm; try done| |done].
  - unfold MaxSupply in *. ulia.
  - intros u w'' ?. by eapply wpost_after.
Qed.

Lemma wp_sol_addValidation sender v a p n w x :
  winv 0 n w x → effectiveVET (wStaker w) + v ≤ balance (wStaker w) →
  wp (sol_addValidation sender v a p) (λ _, wpost 0 n w x) reverts w.
Proof.
  intros Hw Hle. apply (wp_deposit (λ v, native_addValidation a sender p v)); [done|done|].
  intros st w1 Hst Hw1 _. apply wp_native. wp_step. wp_step. eapply wp_IsPoSActive; [apply Hw1|].
  replace (set_field _ w1) with w1 by (by destruct w1). wp_step.
  apply (wp_mono _ (λ _ w', w' = w1) _ reverts); [| |done].
  - apply wp_when; [intros _|done]. wp_step. wp_step.
    destruct (Authority_Get_reads a (wAuthority w1)) as (ex & en & id & ac & E).
    unfold wp. rewrite E. passes H1. passes H2. by destruct w1.
  - intros _ ? ->. do 2 wp_step. rewrite ToVET_ToWei by ulia.
    eapply (wp_unit_op _ st 0); [by rewrite Z.add_0_l|].
    destruct Hw1. by eapply op_AddValidation.
Qed.

Lemma wp_sol_increaseStake sender v a n w x :
  winv 0 n w x → effectiveVET (wStaker w) + v ≤ balance (wStaker w) →
  wp (sol_increaseStake sender v a) (λ _, wpost 0 n w x) reverts w.
Proof.
  intros Hw Hle. apply (wp_deposit (λ v, native_increaseStake a sender v)); [done|done|].
  intros st w1 Hst Hw1 _. apply wp_native. do 2 wp_step. rewrite ToVET_ToWei by ulia.
  eapply (wp_unit_op _ st 0); [by rewrite Z.add_0_l|]. destruct Hw1. by eapply op_IncreaseStake.
Qed.

Lemma wp_sol_addDelegation sender v a m n w x :
  winv 0 (1 + n) w x → effectiveVET (wStaker w) + v ≤ balance (wStaker w) → 0 ≤ m < 256 → 0 ≤ n →
  wp (sol_addDelegation sender v a m) (λ _, wpost 0 n w x) reverts w.
Proof.
  intros Hw Hle Hm Hn. unfold sol_addDelegation. wp_step. apply wp_onlyDelegatorContract.
  wp_step. apply wp_sol_checkStake. intros st -> [? ?]. wp_step. apply wp_delegatorNotPaused.
  wp_step. eapply wp_effectiveVET_add; [done|lia|done|]. intros w1 Hw1 Hs1.
  apply wp_native. do 2 wp_step. unfold MaxSupply in *. rewrite ToVET_ToWei by ulia.
  do 2 wp_step. eapply wp_mono; [eapply (wp_unit_op _ st 1); [done|]| |done].
  - destruct Hw1. eapply op_AddDelegation; try done; [ulia|lia].
  - intros u w2 ?. by eapply wpost_after.
Qed.

Lemma wp_sol_decreaseStake sender v a amount n w x :
  winv 0 n w x → wp (sol_decreaseStake sender v a amount) (λ _, wpost 0 n w x) reverts w.
Proof.
  intros Hw. unfold sol_decreaseStake. wp_step. apply wp_not_payable.
  wp_step. apply wp_sol_checkStake. intros st -> [? ?]. wp_step. apply wp_stakerNotPaused.
  apply wp_native. do 2 wp_step. unfold MaxSupply in *. rewrite ToVET_ToWei by ulia.
  eapply (wp_unit_op _ 0 0); [by rewrite Z.add_0_l|]. destruct Hw. eapply op_DecreaseStake; try done. ulia.
Qed.

Lemma wp_sol_setBeneficiary sender v a b n w x :
  winv 0 n w x → wp (sol_setBeneficiary sender v a b) (λ _, wpost 0 n w x) reverts w.
Proof.
  intros Hw. unfold sol_setBeneficiary. wp_step. apply wp_not_payable. wp_step. apply wp_stakerNotPaused.
  apply wp_native. eapply (wp_unit_op _ 0 0); [by rewrite Z.add_0_l|].
  destruct Hw. by eapply op_SetBeneficiary.
Qed.

Lemma wp_sol_signalExit sender v a n w x :
  winv 0 n w x → wp (sol_signalExit sender v a) (λ _, wpost 0 n w x) reverts w.
Proof.
  intros Hw. unfold sol_signalExit. wp_step. apply wp_not_payable. wp_step. apply wp_stakerNotPaused.
  apply wp_native. do 2 wp_step. eapply (wp_unit_op _ 0 0); [by rewrite Z.add_0_l|].
  destruct Hw. by eapply op_SignalExit.
Qed.

Lemma wp_sol_signalDelegationExit sender v id n w x :
  winv 0 n w x → wp (sol_signalDelegationExit sender v id) (λ _, wpost 0 n w x) reverts w.
Proof.
  intros Hw. unfold sol_signalDelegationExit. wp_step. apply wp_not_payable.
  wp_step. apply wp_onlyDelegatorContract. wp_step. apply wp_delegatorNotPaused.
  apply wp_native. do 2 wp_step. eapply (wp_unit_op _ 0 0); [by rewrite Z.add_0_l|].
  destruct Hw. by eapply op_SignalDelegationExit.
Qed.

(** The common end of the two withdrawals: [m] has freed [st] VET. *)
Lemma wp_payout (m : Z → M Staker Z) (r : M World bool) n n' w x :
  winv 0 n w x →
  wp (m (wBlock w)) (λ st s', 0 ≤ st ∧ ∃ x', op_done (wBlock w) st 0 (wStaker w) x s' x')
    reverts (wStaker w) →
  (∀ w' x', winv 0 n w' x' → wp r (λ _, wpost 0 n' w' x') reverts w') →
  wp (stake ← native (number ← gets wBlock; st ← zoom wStaker (m number); mret (ToWei st));
      effectiveVET_sub stake ;;
      success ← call_sender r stake;
      reject (negb success) (ErrRevert "Transfer failed")) (λ _, wpost 0 n' w x) reverts w.
Proof.
  intros Hw Hm Hr. wp_step. apply wp_native. do 3 wp_step.
  eapply wp_mono; [eapply (wp_staker_op (m (wBlock w)) id 0 0 n); [by rewrite Z.add_0_l|exact Hm]| |done].
  intros st w1 [Hst (x1 & Hw1 & Hs1)]. wp_step. wp_step.
  eapply wp_effectiveVET_sub; [done|done|]. intros w2 Hw2 Hs2 Hle. wp_step.
  eapply wp_mono; [eapply (wp_call_sender r st n n'); [done..|]| |done].
  { intros w3 Hw3 _. by apply Hr. }
  intros b w3 Hb. passes H. apply negb_false_iff in H. eapply wpost_after; [|by apply Hb].
  by eapply wsame_trans.
Qed.

Lemma wp_sol_withdrawStake sender v r a n n' w x :
  winv 0 n w x →
  (∀ w' x', winv 0 n w' x' → wp r (λ _, wpost 0 n' w' x') reverts w') →
  wp (sol_withdrawStake sender v r a) (λ _, wpost 0 n' w x) reverts w.
Proof.
  intros Hw Hr. unfold sol_withdrawStake. wp_step. apply wp_not_payable.
  wp_step. apply wp_stakerNotPaused. unfold native_withdrawStake.
  eapply (wp_payout (WithdrawStake a sender)); [done| |done].
  destruct Hw. by apply op_WithdrawStake.
Qed.

Lemma wp_sol_withdrawDelegation sender v r id n n' w x :
  winv 0 n w x →
  (∀ w' x', winv 0 n w' x' → wp r (λ _, wpost 0 n' w' x') reverts w') →
  wp (sol_withdrawDelegation sender v r id) (λ _, wpost 0 n' w x) reverts w.
Proof.
  intros Hw Hr. unfold sol_withdrawDelegation. wp_step. apply wp_not_payable.
  wp_step. apply wp_onlyDelegatorContract. wp_step. apply wp_delegatorNotPaused.
  unfold native_withdrawDelegation.
  eapply (wp_payout (WithdrawDelegation id)); [done| |done].
  destruct Hw. by apply op_WithdrawDelegation.
Qed.

(** ** Whole calls *)

Lemma exec_Call sender value m : exec (Call sender value m) =
  (value_in value ;;
   match m with
   | MAddValidation validator period => sol_addValidation sender value validator period
   | MIncreaseStake validator => sol_increaseStake sender value validator
   | MSetBeneficiary validator beneficiary => sol_setBeneficiary sender value validator beneficiary
   | MDecreaseStake validator amount => sol_decreaseStake sender value validator amount
   | MWithdrawStake validator r => sol_withdrawStake sender value (receive r) validator
   | MSignalExit validator => sol_signalExit sender value validator
   | MAddDelegation validator multiplier =>
       sol_addDelegation sender value validator multiplier ;; mret tt
   | MSignalDelegationExit delegationID => sol_signalDelegationExit sender value delegationID
   | MWithdrawDelegation delegationID r =>
       sol_withdrawDelegation sender value (receive r) delegationID
   end).
Proof. by destruct m. Qed.

(** What [exec_ok] says of one call. *)
Definition exec_spec (c : call) : Prop := ∀ n w x, 0 ≤ n → call_wf c = true →
  winv 0 (calls_in c + n) w x → wp (exec c) (λ _, wpost 0 n w x) reverts w.

Lemma attempt_ok c n w x : exec_spec c → 0 ≤ n → call_wf c = true →
  winv 0 (calls_in c + n) w x → wp (attempt (exec c)) (λ _, wpost 0 n w x) never w.
Proof.
  intros Hc Hn Hwf Hw. specialize (Hc n w x Hn Hwf Hw). unfold wp, attempt in *.
  destruct (exec c w) as [[[] w']|e] eqn:E; [done|]. destruct Hc as [msg ->].
  apply wpost_here. eapply winv_less; [|done]. pose proof (calls_in_pos c). lia.
Qed.

Lemma run_all_ok cs n w x : Forall exec_spec cs → 0 ≤ n → forallb call_wf cs = true →
  winv 0 (calls_of cs + n) w x → wp (run_all cs) (λ _, wpost 0 n w x) never w.
Proof.
  intros Hcs Hn. revert w x. induction Hcs as [|c cs Hc Hcs IH]; intros w x Hwf Hw; simpl in *.
  { wp_step. by apply wpost_here. }
  apply andb_true_iff in Hwf as [Hwf Hwfs]. fold (calls_of cs) in Hw.
  pose proof (calls_of_nonneg cs). wp_step.
  eapply wp_mono; [apply (attempt_ok c (calls_of cs + n) w x); [done|lia|done|]| |done].
  - by rewrite Z.add_assoc.
  - intros u w' (x' & Hw' & Hs'). eapply wp_mono; [by apply IH| |done].
    intros b w'' ?. by eapply wpost_after.
Qed.

Lemma receive_ok (r : option (list call)) n w x :
  Forall exec_spec (default [] r) → 0 ≤ n → forallb call_wf (default [] r) = true →
  winv 0 (calls_of (default [] r) + n) w x → wp (receive r) (λ _, wpost 0 n w x) reverts w.
Proof.
  intros Hcs Hn Hwf Hw. destruct r as [cs|]; simpl in *.
  - eapply wp_mono; [by apply run_all_ok|done|done].
  - wp_step. by apply wpost_here.
Qed.

(** Every call, with all the calls nested in it, reverts or keeps the
    invariant. *)
Lemma exec_ok c : exec_spec c.
Proof.
  induction c as [value|sender value m Hm] using call_nested_ind; intros n w x Hn Hwf Hw.
  - simpl in *. eapply wp_value_in; [done|lia|]. intros w' Hw' Hs' _. exists x. split; [|done].
    eapply winv_less; [|done]. lia.
  - rewrite exec_Call. simpl in Hwf. apply andb_true_iff in Hwf as [Hv Hwf].
    wp_step. eapply wp_value_in; [done|lia|]. intros w1 Hw1 Hs1 Hle.
    pose proof (calls_in_pos (Call sender value m)).
    assert (winv 0 n w1 x) as Hw0 by (eapply winv_less; [|done]; lia).
    apply (wp_mono _ (λ _, wpost 0 n w1 x) _ reverts); [|intros u w2 ?; by eapply wpost_after|done].
    destruct m as [a p|a|a b|a amount|a r|a|a mult|id|id r].
    + by apply wp_sol_addValidation.
    + by apply wp_sol_increaseStake.
    + by apply wp_sol_setBeneficiary.
    + by apply wp_sol_decreaseStake.
    + eapply wp_sol_withdrawStake; [exact Hw1|]. intros w' x' Hw'.
      apply receive_ok; try (by destruct r). eapply winv_less; [|done]. unfold calls_of.
      destruct r; simpl; lia.
    + by apply wp_sol_signalExit.
    + wp_step. eapply wp_mono; [apply wp_sol_addDelegation; [done|done|lia|done]| |done].
      intros u w2 ?. by wp_step.
    + by apply wp_sol_signalDelegationExit.
    + eapply wp_sol_withdrawDelegation; [exact Hw1|]. intros w' x' Hw'.
      apply receive_ok; try (by destruct r). eapply winv_less; [|done]. unfold calls_of.
      destruct r; simpl; lia.
Qed.
End world.
