(* ===== verification/StakerChain.v ===== *)
(** * The staker along the chain

    The world of [StakerNative] evolves by contract calls, by the processing of
    a new block ([SyncPOS], called by the packer and by the consensus for every
    block), by the online flags and the delegator rewards that block processing
    writes, and by governance, which sets the parameters and the authority
    list.  Every reachable world satisfies the staker's invariant. *)

From S2P Require Import Prelude Thor Chain Authority Stakes GlobalStats Aggregation Validation.
From S2P Require Import Delegation Storage LinkedList RenewalList Repository ValidationService.
From S2P Require Import Staker StakerInv StakerOps DelegationOps Housekeep HousekeepInv TransitionInv.
From S2P Require Import StakerNative StakerWorld.

(** The contract before its first call; it may have received VET. *)
Definition staker0 (mbp bal : Z) : Staker :=
  MkStaker ∅ (MkGlobalStats None 0 0 0)
    (MkRepository (MkStorage ∅ ∅ ∅) (MkListStats None None 0) (MkListStats None None 0)
      (MkRenewalList 0 0 ∅ ∅))
    (MkDelegationService ∅ None) mbp bal 0.

Definition view0 : View :=
  MkView ∅ [] [] [] ∅ ∅ (MkGlobalStats None 0 0 0) ∅ 0.

Record initial (w : World) : Prop := {
  in_staker : ∃ mbp bal, wStaker w = staker0 mbp bal ∧ 0 ≤ bal;
  in_outside : 0 ≤ wOutside w;
  in_supply : balance (wStaker w) + wOutside w ≤ ToWei MaxSupply;
  in_block : block_ok (wBlock w);
}.

Section chain.
Context `{SM : SafeMath} `{CFG : Config} (hayabusa : Z).

(** One step, and the number of contract calls in it. *)
Inductive step : Z → World → World → Prop :=
  | step_call c w w' :
      call_wf c = true → exec c w = Ok (tt, w') → step (calls_in c) w w'
  | step_block st s' w :
      block_ok (wBlock w + 1) → SyncPOS hayabusa (wBlock w + 1) (wStaker w) = Ok (st, s') →
      step 0 w (w <| wStaker := s' |> <| wBlock := wBlock w + 1 |>)
  | step_online a online s' w :
      SetOnline a (wBlock w) online (wStaker w) = Ok (tt, s') →
      step 0 w (w <| wStaker := s' |>)
  | step_reward a reward s' w :
      IncreaseDelegatorsReward a reward (wBlock w) (wStaker w) = Ok (tt, s') →
      step 0 w (w <| wStaker := s' |>)
  | step_govern mbp A delegator switches w :
      step 0 w (w <| wStaker := (wStaker w) <| maxBlockProposersParam := mbp |> |>
                  <| wAuthority := A |> <| wDelegatorContract := delegator |>
                  <| wSwitches := switches |>).

Inductive reachable : Z → World → Prop :=
  | reach_initial w : initial w → reachable 0 w
  | reach_step n k w w' : reachable n w → step k w w' → reachable (n + k) w'.

(** The invariant of reachable worlds; [n] more delegations can be made. *)
Record good (n : Z) (w : World) (x : View) : Prop := {
  g_world : winv 0 n w x;
  g_pos : posStarted hayabusa (wBlock w) x;
}.
End chain.

Section invariant.
Context `{SMS : SafeMathSpec} `{CFG : Config} (OK : config_ok CFG).
Context (hayabusa : Z) (Hhay : block_ok hayabusa).

Lemma view0_ok mbp bal : view_of (staker0 mbp bal) view0.
Proof.
  split; try done. simpl. split; try done; simpl.
  - by split; try apply NoDup_nil_2.
  - by split; try apply NoDup_nil_2.
  - split; try done; simpl; [apply NoDup_nil_2|set_solver].
  - set_solver.
Qed.

Lemma Inv0 t : Inv (λ _, t) view0.
Proof.
  split; simpl; try done.
  intros a. unfold local. simpl. split; simpl; try done; set_solver.
Qed.

Lemma initial_good w n : initial w → n < maxUint256 → good hayabusa n w view0.
Proof.
  intros [(mbp & bal & E & Hb) Ho Hs Hblk] Hn. rewrite E in Hs. simpl in Hs. split.
  - split; rewrite ?E; simpl; try done.
    + apply view0_ok.
    + apply Inv0.
    + split; simpl; try done. lia.
  - by intros [].
Qed.

Lemma good_less n n' w x : n' ≤ n → good hayabusa n w x → good hayabusa n' w x.
Proof. intros Hn []. split; try done. by eapply winv_less. Qed.

(** Calls. *)
Lemma good_call n c w x : 0 ≤ n → call_wf c = true → good hayabusa (calls_in c + n) w x →
  wp (exec c) (λ _ w', ∃ x', good hayabusa n w' x' ∧ wsame w x w' x') reverts w.
Proof.
  intros Hn Hwf [Hw Hp]. eapply wp_mono; [by eapply (exec_ok OK)| |done].
  intros u w' (x' & Hw' & Hs'). exists x'. split; [|done]. destruct Hs' as [Eb _ _ _ El EA _].
  split; [done|]. unfold posStarted. by rewrite EA, Eb.
Qed.

(** The world after a staker operation that leaves the funds alone. *)
Lemma good_same n w x s' x' :
  good hayabusa n w x → view_of s' x' → Inv (λ _, wBlock w) x' → funded s' 0 →
  funds s' = funds (wStaker w) → vA x' = vA x → vNextID x' = vNextID x →
  good hayabusa n (w <| wStaker := s' |>) x'.
Proof.
  intros [[] ?] ? ? ? [= E1 E2 E3] EA EN.
  split; [split|..]; simpl; rewrite ?E1, ?E2, ?E3, ?EA, ?EN; try done.
  unfold posStarted. by rewrite EA.
Qed.

(** A new block. *)
Lemma good_block n w x : good hayabusa n w x → block_ok (wBlock w + 1) →
  wp (SyncPOS hayabusa (wBlock w + 1)) (λ _ s', ∃ x',
    good hayabusa n (w <| wStaker := s' |> <| wBlock := wBlock w + 1 |>) x' ∧
    synced (wBlock w + 1) (wStaker w) x s' x') (crowded x) (wStaker w).
Proof.
  intros [[Hx HI Hf ? ? ? ?] Hp] Hb.
  eapply wp_mono; [eapply (wp_SyncPOS OK hayabusa); try done| |done].
  intros u s' (x' & Hsy & Hp'). exists x'. split; [|done].
  destruct Hsy as [Hx' HI' Hk Hseats [Hse Hd Hid]].
  split; [split|..]; simpl; try done.
  - by eapply keeps_funds_funded.
  - by rewrite (kf_bal _ _ Hk).
  - by rewrite Hid.
Qed.

(** The flag of a validator. *)
Lemma good_online n a online w x : good hayabusa n w x →
  wp (SetOnline a (wBlock w) online) (λ _ s', ∃ x', good hayabusa n (w <| wStaker := s' |>) x' ∧
    vA x' = vA x ∧ funds s' = funds (wStaker w)) (λ _, True) (wStaker w).
Proof.
  intros Hg. pose proof Hg as [[Hx HI Hf ? ? ? ?] _].
  eapply (wp_mono _ _ _ (λ _, True)); [eapply (wp_keeps funds _ (λ _ s', ∃ x', view_of s' x' ∧
    Inv (λ _, wBlock w) x' ∧ funded s' 0 ∧ vA x' = vA x ∧ vNextID x' = vNextID x))| |done].
  { unfold SetOnline. keeps_solve. }
  { destruct (vVals x !! a) as [v|] eqn:Ha.
    - eapply wp_SetOnline; try done. intros s' x' Hx' HI' Hf'. by exists x'.
    - unfold SetOnline, UpdateOfflineBlock, GetExistingValidation, service_GetValidation,
        getValidation, storage_getValidation. do 6 wp_step; [done|].
      exfalso. rewrite (repr_lookup _ _ _ _ _ _ (vo_repr _ _ Hx)) in Ha. simpl in *.
      by rewrite H in Ha. }
  intros u s' [(x' & Hx' & HI' & Hf' & HA & HN) Hfu]. exists x'. split; [by eapply good_same|done].
Qed.

(** The rewards slots are not part of the invariant. *)
Lemma good_reward n a r w x : good hayabusa n w x →
  wp (IncreaseDelegatorsReward a r (wBlock w)) (λ _ s', good hayabusa n (w <| wStaker := s' |>) x)
    (λ _, True) (wStaker w).
Proof.
  intros Hg. pose proof Hg as [[Hx HI Hf ? ? ? ?] _].
  eapply (wp_mono _ _ _ (λ _, True));
    [eapply (wp_keeps funds _ (λ _ s', view_of s' x ∧ funded s' 0))| |done].
  { unfold IncreaseDelegatorsReward. keeps_solve. }
  { unfold IncreaseDelegatorsReward, service_IncreaseDelegatorsReward, GetExistingValidation,
      service_GetValidation, getValidation, storage_getValidation.
    repeat wp_step; try done. destruct (CurrentIteration _ _) as [it|]; [|done].
    unfold getReward, setReward, storage_getReward, storage_setReward. do 3 wp_step.
    assert (∀ k v, view_of ((wStaker w) <| validationService := (validationService (wStaker w))
      <| storage := (storage (validationService (wStaker w)))
      <| rewards := <[k := v]> (rewards (storage (validationService (wStaker w)))) |> |> |>) x) as H1.
    { intros k v. destruct Hx as [[? [] [] ? ?] ? ? ? ? ?]. by repeat (split; try done). }
    wp_step. case_match; repeat wp_step; (split; [apply H1|by destruct Hf]). }
  intros u s' [[Hx' Hf'] Hfu]. by eapply good_same.
Qed.

Lemma step_good n k w w' x : 0 ≤ n → step hayabusa k w w' → good hayabusa (k + n) w x →
  ∃ x', good hayabusa n w' x'.
Proof.
  intros Hn Hs Hg. destruct Hs as [c w w' Hwf E|st s' w Hb E|a on s' w E|a r s' w E|mbp A d sw w];
    rewrite ?Z.add_0_l in Hg.
  - pose proof (wp_Ok _ _ _ _ _ _ (good_call n c w x Hn Hwf Hg) E) as (x' & ? & _). eauto.
  - pose proof (wp_Ok _ _ _ _ _ _ (good_block _ w x Hg Hb) E) as (x' & ? & _). eauto.
  - pose proof (wp_Ok _ _ _ _ _ _ (good_online _ a on w x Hg) E) as (x' & ? & _). eauto.
  - exists x. exact (wp_Ok _ _ _ _ _ _ (good_reward _ a r w x Hg) E).
  - exists x. destruct Hg as [[Hx HI [? ? ?] ? ? ? ?] Hp].
    split; [split|..]; simpl; try done. destruct Hx. by split.
Qed.

(** Every reachable world is good. *)
Lemma reachable_good n m w : reachable hayabusa n w → 0 ≤ m → n + m < maxUint256 →
  ∃ x, good hayabusa m w x.
Proof.
  intros Hr. revert m. induction Hr as [w Hi|n k w w' Hr IH Hs]; intros m Hm Hlt.
  - exists view0. by apply initial_good.
  - assert (0 ≤ k) as Hk by (destruct Hs; try done; pose proof (calls_in_pos c); lia).
    destruct (IH (k + m)) as [x Hx]; [lia|lia|]. by eapply step_good.
Qed.
End invariant.
