(* ===== verification/Scenario.v ===== *)
(** * A concrete run

    Instances of the parameters and a short history of the contract, on which
    the hypotheses of the theorems are checked: two validators are queued
    during the transition period and become active when PoS starts; one
    receives a delegation; both signal their exit; the first exits and is paid
    out. *)

From S2P Require Import Prelude External Thor Chain Authority Stakes GlobalStats Aggregation Validation.
From S2P Require Import Delegation Storage LinkedList RenewalList Repository ValidationService.
From S2P Require Import Staker StakerInv StakerOps DelegationOps Housekeep HousekeepInv TransitionInv.
From S2P Require Import StakerNative StakerWorld StakerChain.

(** Short periods, as a test network configures them. *)
Definition short_config : Config := MkConfig 10 2 8 100 4 4 8 16 2 2.

Lemma short_config_ok : config_ok short_config.
Proof. split; simpl; try lia; [by exists 2|by exists 4|by exists 8]. Qed.

#[export] Existing Instances go_SafeMath go_SafeMathSpec short_config.

Inductive event := ECall (c : call) | EBlock.

Definition play1 (e : event) (w : World) : option World :=
  match e with
  | ECall c => if call_wf c then match exec c w with Ok (_, w') => Some w' | Err _ => None end
               else None
  | EBlock =>
      if (0 <=? wBlock w + 1) && (wBlock w + 1 <? 2 ^ 31) then
        match SyncPOS 0 (wBlock w + 1) (wStaker w) with
        | Ok (_, s') => Some (w <| wStaker := s' |> <| wBlock := wBlock w + 1 |>)
        | Err _ => None
        end
      else None
  end.

Definition cost (e : event) : Z := match e with ECall c => calls_in c | EBlock => 0 end.

Fixpoint play (es : list event) (w : World) : option World :=
  match es with
  | [] => Some w
  | e :: es => w' ← play1 e w; play es w'
  end.

Definition costs (es : list event) : Z := foldr (λ e n, cost e + n) 0 es.

Lemma play1_step e w w' : play1 e w = Some w' → step 0 (cost e) w w'.
Proof.
  destruct e as [c|]; simpl; intros H; repeat case_match; simplify_eq.
  - match goal with H : exec _ _ = Ok (?u, _) |- _ => destruct u end. by apply step_call.
  - eapply step_block; [unfold block_ok; lia|done].
Qed.

Lemma play_reachable es n w w' : reachable 0 n w → play es w = Some w' →
  reachable 0 (n + costs es) w'.
Proof.
  revert n w. induction es as [|e es IH]; intros n w Hr H; simpl in *.
  - simplify_eq. by rewrite Z.add_0_r.
  - destruct (play1 e w) as [w1|] eqn:E; [|done]. rewrite Z.add_assoc. eapply (IH _ w1); [|done].
    eapply reach_step; [done|by apply play1_step].
Qed.

(** Validators 7 and 8 with endorsers 5 and 6, in the authority list;
    delegator contract 9. *)
Definition world0 : World :=
  MkWorld (staker0 2 0)
    (MkAuthority {[7 := MkEntry 5 1 true None (Some 8); 8 := MkEntry 6 2 true (Some 7) None]}
      (Some 7) (Some 8))
    9 0 0 (ToWei MaxSupply).

Lemma world0_initial : initial world0.
Proof.
  split; simpl.
  - by exists 2, 0.
  - unfold MaxSupply. unfold ToWei, bigE18. lia.
  - lia.
  - by unfold block_ok.
Qed.

Definition queueing : list event :=
  [ECall (Call 5 (ToWei 25000000) (MAddValidation 7 4));
   ECall (Call 6 (ToWei 30000000) (MAddValidation 8 4))].
Definition activation : list event := queueing ++ [EBlock; EBlock].
Definition delegating : list event :=
  activation ++ [ECall (Call 9 (ToWei 1000) (MAddDelegation 7 150))].
Definition renewing : list event := delegating ++ [EBlock; EBlock; EBlock; EBlock].
Definition exiting : list event :=
  renewing ++ [ECall (Call 5 0 (MSignalExit 7)); ECall (Call 6 0 (MSignalExit 8))].
Definition exited : list event := exiting ++ [EBlock; EBlock; EBlock; EBlock].
Definition paid : list event :=
  exited ++ [EBlock; EBlock;
             ECall (Call 5 0 (MWithdrawStake 7 (Some [Call 5 0 (MWithdrawStake 7 None)])));
             ECall (Call 9 0 (MWithdrawDelegation 1 (Some [])))].

(** The world after some events. *)
Definition at_ (es : list event) : World := default world0 (play es world0).

Lemma at_reachable es : bool_decide (is_Some (play es world0)) = true → reachable 0 (costs es) (at_ es).
Proof.
  intros [w Hw]%bool_decide_eq_true_1. unfold at_. rewrite Hw. simpl.
  apply (play_reachable es 0 world0); [|done]. apply reach_initial, world0_initial.
Qed.

(** Discharge a closed, decidable side condition by evaluation. *)
Ltac concrete := first
  [ apply at_reachable; vm_compute; reflexivity
  | vm_compute; reflexivity
  | vm_compute; repeat split; (discriminate || reflexivity) ].

Lemma block_ok_0 : block_ok 0.
Proof. by unfold block_ok. Qed.
