(* ===== verification/StakerCorrect.v ===== *)
(** * What the staker guarantees

    The theorems about the contract along the chain: every call and every block
    is processed, the books balance, nobody's VET is lost, exits happen when
    they are due, and the leader group agrees with the total weight. *)

From S2P Require Import Prelude Thor Chain Authority Stakes GlobalStats Aggregation Validation.
From S2P Require Import Delegation Storage LinkedList RenewalList Repository ValidationService.
From S2P Require Import Staker StakerInv StakerOps DelegationOps Housekeep HousekeepInv TransitionInv.
From S2P Require Import StakerNative StakerWorld StakerChain Scenario.

(** The validation records and the delegations of a staker. *)
Definition valsOf (s : Staker) : gmap Address Validation :=
  validations (storage (validationService s)).
Definition delsIn (s : Staker) : gmap Z Delegation := delegations (delegationService s).

(** All VET the contract owes: the validators' own stakes and the delegations. *)
Definition heldVET (s : Staker) : Z :=
  msum (λ _ v, ownVET v) (valsOf s) + msum (λ _ d, Stake d) (delsIn s).

(** The leader of an active validator. *)
Definition leaderOf (a : Address) (v : Validation) : Leader :=
  MkLeader a (Endorser v) (Beneficiary v) (IsOnline v) (ValWeight v).

(** The number of active validators. *)
Definition activeCount (s : Staker) : Z := listSize (activeList (validationService s)).

Definition sumWeights (ls : list Leader) : Z := foldr (λ l n, Leader_Weight l + n) 0 ls.

(** ** Reading the view off the storage *)
Section reading.
Context `{CFG : Config}.

Lemma view_vals s x a : view_of s x → vVals x !! a = strip <$> (valsOf s !! a).
Proof. intros Hx. apply (repr_lookup _ _ _ _ _ _ (vo_repr _ _ Hx)). Qed.

Lemma view_val s x a v : view_of s x → valsOf s !! a = Some v → vVals x !! a = Some (strip v).
Proof. intros Hx Hv. by rewrite (view_vals s x a Hx), Hv. Qed.

Lemma settled_val s s' x x' a v : view_of s x → view_of s' x' → settled x x' →
  valsOf s !! a = Some v → ∃ v', valsOf s' !! a = Some v' ∧ settles v v'.
Proof.
  intros Hx Hx' [Hse _ _] Hv. specialize (Hse a).
  rewrite (view_val _ _ _ _ Hx Hv), (view_vals _ _ a Hx') in Hse.
  destruct (valsOf s' !! a) as [v'|]; inversion Hse as [? ? Hs|]; subst. exists v'.
  split; [done|]. by destruct Hs.
Qed.

Lemma view_held clk s x : view_of s x → Inv clk x → gs_total (globalStatsService s) = heldVET s.
Proof.
  intros Hx HI. destruct (inv_acct _ _ HI) as [E1 E2 E3 E4 E5].
  rewrite (vo_stats _ _ Hx). unfold gs_total, heldVET, delsIn. rewrite E1, E2, E4, E5, (vo_dels _ _ Hx).
  assert (msum (λ _ v, ownVET v) (valsOf s) = msum (λ _ v, ownVET v) (vVals x)) as ->.
  { rewrite <- (repr_payload _ _ _ _ _ (vo_repr _ _ Hx)). unfold payload. by rewrite msum_fmap. }
  rewrite Z.add_assoc. unfold dsum, vsum. rewrite <- !msum_add.
  enough (msum (λ k v, vLocked v (aggOf (vAggs x) k) + vQueued v (aggOf (vAggs x) k) +
    vFree v (aggOf (vAggs x) k) + vCooldown v (aggOf (vAggs x) k)) (vVals x) =
    msum (λ _ v, ownVET v) (vVals x)) by (rewrite !msum_add in *; lia).
  apply msum_ext. intros a v _. unfold vLocked, vQueued, vFree, vCooldown, ownVET. lia.
Qed.

Lemma foldR_leaders m l acc : (∀ a, a ∈ l → is_Some (m !! a)) →
  foldR (λ group validator entry, Ok (group ++ [leaderOf validator entry])) m acc l =
  Ok (acc ++ omap (λ a, leaderOf a <$> (m !! a)) l).
Proof.
  revert acc. induction l as [|a l IH]; intros acc Hl; simpl; [by rewrite app_nil_r|].
  destruct (Hl a) as [v Hv]; [set_solver|]. rewrite Hv. simpl.
  rewrite IH by set_solver. by rewrite <- app_assoc.
Qed.

Lemma view_leaders s x : view_of s x →
  LeaderGroup s = Ok (omap (λ a, leaderOf a <$> (valsOf s !! a)) (vA x), s).
Proof.
  intros Hx. pose proof (repr_active _ _ _ _ _ (vo_repr _ _ Hx)) as Hd.
  unfold LeaderGroup, service_LeaderGroup, iterateActive, zoom, on_list.
  rewrite (listStats_Iterate_spec _ _ _ _ Hd). simpl.
  fold leaderOf. erewrite (foldR_leaders _ _ []); [|intros a Ha; by eapply (dll_lookup _ _ a Hd)].
  simpl. by destruct s as [? ? [] ? ? ? ?].
Qed.

Lemma view_active s x : view_of s x → activeCount s = Z.of_nat (length (vA x)).
Proof. intros Hx. apply (dll_size _ _ (repr_active _ _ _ _ _ (vo_repr _ _ Hx))). Qed.

Lemma view_weights clk s x : view_of s x → Inv clk x →
  Weight (lockedOf (globalStatsService s)) =
  sumWeights (omap (λ a, leaderOf a <$> (valsOf s !! a)) (vA x)).
Proof.
  intros Hx HI. destruct (inv_acct _ _ HI) as [_ _ E _ _]. rewrite (vo_stats _ _ Hx), E.
  unfold vsum. rewrite (msum_list _ _ (vA x)).
  - assert (∀ a, a ∈ vA x → is_Some (valsOf s !! a)) as Hl.
    { intros a. apply (dll_lookup _ _ a (repr_active _ _ _ _ _ (vo_repr _ _ Hx))). }
    induction (vA x) as [|a l IH]; simpl; [done|].
    destruct (Hl a) as [v Hv]; [set_solver|]. rewrite (view_vals s x a Hx), Hv. simpl.
    rewrite IH by set_solver. done.
  - by destruct (view_nodup _ _ Hx).
  - intros a v Ha Hn. unfold vWeight. pose proof (Inv_vlocal _ _ _ _ HI Ha) as Hl.
    rewrite (l_active _ _ _ _ Hl) in Hn. pose proof (l_ok _ _ _ _ Hl) as Hok. unfold status_ok in Hok.
    destruct (ValStatus v); [done|by destruct Hok as [(?&?&?&?&?&?)]|done|by destruct Hok as [(?&?&?&?)]].
Qed.
End reading.

Section guarantees.
Context `{SMS : SafeMathSpec} `{CFG : Config} (OK : config_ok CFG).
Context (hayabusa : Z) (Hhay : block_ok hayabusa).

(** The view of a reachable world. *)
Lemma reachable_view n w : reachable hayabusa n w → n < maxUint256 →
  ∃ x, good hayabusa 0 w x ∧ view_of (wStaker w) x ∧ Inv (λ _, wBlock w) x ∧ funded (wStaker w) 0.
Proof.
  intros Hr Hn. destruct (reachable_good OK hayabusa Hhay n 0 w Hr) as [x Hg]; [done|lia|].
  exists x. split; [done|]. by destruct Hg as [[] _].
Qed.



(** C3: Solvency: at every reachable point, the contract's record
    [effectiveVET] is exactly what all validators and all delegations together
    still hold, and the contract's balance covers it. *)
Theorem contract_is_solvent n w :
  reachable hayabusa n w → n < maxUint256 →
  effectiveVET (wStaker w) = ToWei (heldVET (wStaker w)) ∧
  ToWei (heldVET (wStaker w)) ≤ balance (wStaker w).
Proof.
  intros Hr Hn. destruct (reachable_view n w Hr Hn) as (x & _ & Hx & HI & [_ He Hb]).
  rewrite <- (view_held _ _ _ Hx HI). rewrite Z.add_0_r in He. rewrite <- He. split; [done|lia].
Qed.

(** C4: The total weight that the block scheduler divides by is the sum of
    the weights of the leader group: [LockedStake] and [LeaderGroup], read at
    any reachable point, both succeed and agree. *)
Theorem leader_weights_add_up n w :
  reachable hayabusa n w → n < maxUint256 →
  ∃ leaders vet weight, LeaderGroup (wStaker w) = Ok (leaders, wStaker w) ∧
    LockedStake (wStaker w) = Ok ((vet, weight), wStaker w) ∧ weight = sumWeights leaders.
Proof.
  intros Hr Hn. destruct (reachable_view n w Hr Hn) as (x & _ & Hx & HI & _).
  eexists _, (VET (lockedOf (globalStatsService (wStaker w)))), _.
  split; [by apply view_leaders|]. split; [|by eapply view_weights].
  unfold LockedStake, GetLockedStake, getLocked, zoom, mbind, M_bind, gets, lockedOf.
  destruct (wStaker w) as [? [[]] ? ? ? ? ?]; done.
Qed.

(** C5: Processing a block moves nobody's VET: every validation keeps its
    endorser and the sum of its locked, queued, cooling-down and withdrawable
    VET, its status only moves from queued to active to exited, and the
    delegations are untouched. *)
Theorem blocks_move_no_funds n w st s' a v :
  reachable hayabusa n w → n < maxUint256 → block_ok (wBlock w + 1) →
  SyncPOS hayabusa (wBlock w + 1) (wStaker w) = Ok (st, s') →
  delsIn s' = delsIn (wStaker w) ∧
  (valsOf (wStaker w) !! a = Some v → ∃ v', valsOf s' !! a = Some v' ∧
     Endorser v' = Endorser v ∧ ownVET v' = ownVET v ∧
     rank (ValStatus v) ≤ rank (ValStatus v')).
Proof.
  intros Hr Hn Hb E. destruct (reachable_view n w Hr Hn) as (x & Hg & Hx & _).
  destruct (wp_Ok _ _ _ _ _ _ (good_block OK hayabusa Hhay 0 w x Hg Hb) E) as (x' & Hg' & Hsy).
  destruct Hsy as [Hx' _ _ _ Hsy']. pose proof Hsy' as [_ Hd _]. split.
  - unfold delsIn. by rewrite (vo_dels _ _ Hx'), (vo_dels _ _ Hx), Hd.
  - intros Hv. destruct (settled_val _ _ _ _ _ _ Hx Hx' Hsy' Hv) as (v' & Hv' & []). by exists v'.
Qed.



(** Stake limits: at every reachable point a queued validator has at least
    the minimum stake, and an active one keeps at least the minimum for the
    next period; what is locked on an active validator, its own stake and its
    delegations, never exceeds the maximum, now or after the next renewal. *)
Theorem stakes_within_limits n w a v :
  reachable hayabusa n w → n < maxUint256 → valsOf (wStaker w) !! a = Some v →
  let g := aggOf (aggregationService (wStaker w)) a in
  (ValStatus v = StatusQueued →
     MinStakeVET ≤ QueuedVET v ∧ QueuedVET v + VET (Pending g) ≤ MaxStakeVET) ∧
  (ValStatus v = StatusActive →
     MinStakeVET ≤ LockedVET v - PendingUnlockVET v ∧
     LockedVET v + VET (Locked g) ≤ MaxStakeVET ∧
     LockedVET v + QueuedVET v - PendingUnlockVET v +
       (VET (Locked g) + VET (Pending g) - VET (Exiting g)) ≤ MaxStakeVET).
Proof.
  intros Hr Hn Ha g. destruct (reachable_view n w Hr Hn) as (x & _ & Hx & HI & _).
  pose proof (vlocal_strip _ _ _ _ (Inv_vlocal _ _ _ _ HI (view_val _ _ _ _ Hx Ha))) as Hl.
  pose proof (l_ok _ _ _ _ Hl) as Hok. unfold status_ok in Hok. unfold g.
  rewrite (vo_aggs _ _ Hx). split; intros Hs; rewrite Hs in Hok; by destruct Hok.
Qed.

End guarantees.

(** ** The theorems on the concrete run *)

(** Re-entering through the receiver: paid out once, the second withdrawal in
    the same call pays nothing. *)
Definition reentrant : call :=
  Call 5 0 (MWithdrawStake 7 (Some [Call 5 0 (MWithdrawStake 7 (Some []))])).

Definition cooled : list event := exited ++ [EBlock; EBlock].



Lemma contract_is_solvent_witness :
  effectiveVET (wStaker (at_ renewing)) = ToWei (heldVET (wStaker (at_ renewing))) ∧
  ToWei (heldVET (wStaker (at_ renewing))) ≤ balance (wStaker (at_ renewing)).
Proof.
  apply (contract_is_solvent short_config_ok 0 block_ok_0 (costs renewing)); concrete.
Defined.

Lemma leader_weights_add_up_witness :
  ∃ leaders vet weight, LeaderGroup (wStaker (at_ renewing)) = Ok (leaders, wStaker (at_ renewing)) ∧
    LockedStake (wStaker (at_ renewing)) = Ok ((vet, weight), wStaker (at_ renewing)) ∧
    weight = sumWeights leaders.
Proof.
  apply (leader_weights_add_up short_config_ok 0 block_ok_0 (costs renewing)); concrete.
Defined.

(** The staker after the next block. *)
Definition nextStaker (w : World) : Staker :=
  match SyncPOS 0 (wBlock w + 1) (wStaker w) with Ok (_, s) => s | Err _ => wStaker w end.

Definition recordAt (s : Staker) (a : Address) : Validation :=
  default (newValidation 0 0 0) (valsOf s !! a).

(** The block before the exit of validator 7. *)
Definition lastBlock : list event := exiting ++ [EBlock; EBlock; EBlock].

Lemma blocks_move_no_funds_witness :
  delsIn (nextStaker (at_ lastBlock)) = delsIn (wStaker (at_ lastBlock)) ∧
  (valsOf (wStaker (at_ lastBlock)) !! 7 = Some (recordAt (wStaker (at_ lastBlock)) 7) →
     ∃ v', valsOf (nextStaker (at_ lastBlock)) !! 7 = Some v' ∧
     Endorser v' = Endorser (recordAt (wStaker (at_ lastBlock)) 7) ∧
     ownVET v' = ownVET (recordAt (wStaker (at_ lastBlock)) 7) ∧
     rank (ValStatus (recordAt (wStaker (at_ lastBlock)) 7)) ≤ rank (ValStatus v')).
Proof.
  apply (blocks_move_no_funds short_config_ok 0 block_ok_0 (costs lastBlock) (at_ lastBlock)
    (MkSyncStatus true true)); concrete.
Defined.



Lemma stakes_within_limits_witness :
  let s := wStaker (at_ renewing) in
  let v := recordAt s 7 in
  let g := aggOf (aggregationService s) 7 in
  (ValStatus v = StatusQueued →
     MinStakeVET ≤ QueuedVET v ∧ QueuedVET v + VET (Pending g) ≤ MaxStakeVET) ∧
  (ValStatus v = StatusActive →
     MinStakeVET ≤ LockedVET v - PendingUnlockVET v ∧
     LockedVET v + VET (Locked g) ≤ MaxStakeVET ∧
     LockedVET v + QueuedVET v - PendingUnlockVET v +
       (VET (Locked g) + VET (Pending g) - VET (Exiting g)) ≤ MaxStakeVET).
Proof.
  apply (stakes_within_limits short_config_ok 0 block_ok_0 (costs renewing)); concrete.
Defined.

