(* ===== verification/StakerRequests.v ===== *)
(** * What each request does

    For every state-changing operation of the staker, in every reachable world:
    the exact condition under which it is granted, what it then changes, and
    that it otherwise reverts.  A deposit has been booked by staker.sol before
    the native operation runs. *)

From S2P Require Import Prelude Thor Chain Authority Stakes GlobalStats Aggregation Validation.
From S2P Require Import Delegation Storage LinkedList RenewalList Repository ValidationService.
From S2P Require Import Staker StakerInv StakerOps DelegationOps Housekeep HousekeepInv TransitionInv.
From S2P Require Import StakerNative StakerWorld StakerChain Scenario StakerCorrect.

(** The staker once staker.sol has received and booked [st] VET. *)
Definition deposited (st : Z) (s : Staker) : Staker :=
  s <| balance := balance s + ToWei st |> <| effectiveVET := effectiveVET s + ToWei st |>.

(** The records without their list pointers. *)
Definition recordsOf (s : Staker) : gmap Address Validation := payload (valsOf s).

(** Granted exactly under [G], with outcome [Q]; refused with a revert otherwise. *)
Definition granted {A} (m : M Staker A) (s : Staker) (G : Prop) (Q : A → Staker → Prop) : Prop :=
  (G → ∃ r s', m s = Ok (r, s') ∧ Q r s') ∧ (¬ G → ∃ msg, m s = Err (ErrRevert msg)).

(** The record of [a] satisfies [P]. *)
Definition recorded (s : Staker) (a : Address) (P : Validation → Prop) : Prop :=
  ∃ v, recordsOf s !! a = Some v ∧ P v.

(** Where [a]'s exit could be scheduled: the end of its running staking period. *)
Definition periodEnd (v : Validation) (now : Z) : Z := StartBlock v + Period v * iter v now.

Section requests.
Context `{SMS : SafeMathSpec} `{CFG : Config} (OK : config_ok CFG).
Context (hayabusa : Z) (Hhay : block_ok hayabusa).

Lemma wp_granted {A} (m : M Staker A) (G G' : Prop) (Q Q' : A → Staker → Prop) s :
  wp m Q (refuses G) s → (∀ r s', Q r s' → G ∧ Q' r s') → (G ↔ G') → granted m s G' Q'.
Proof.
  intros Hwp HQ HG. unfold wp in Hwp. unfold granted. rewrite <- HG.
  destruct (m s) as [[r s']|e] eqn:E.
  - destruct (HQ _ _ Hwp). split; [by exists r, s'|tauto].
  - destruct Hwp as [[msg ->] Hn]. split; [tauto|]. intros _. by exists msg.
Qed.

(** What a view shows of the storage. *)
Lemma view_records s x : view_of s x → recordsOf s = vVals x.
Proof. intros Hx. apply (repr_payload _ _ _ _ _ (vo_repr _ _ Hx)). Qed.

Lemma view_dels s x : view_of s x → delsIn s = vDels x.
Proof. apply vo_dels. Qed.

Lemma deposited_view st s x : view_of s x → view_of (deposited st s) x.
Proof. intros []. by split. Qed.

Lemma deposited_funded w n x st : winv 0 n w x → 0 ≤ st → ToWei st ≤ wOutside w →
  funded (deposited st (wStaker w)) st.
Proof.
  intros [_ _ [? He ?] ? ? _ _] Hst Hout. split; simpl; [done| |lia].
  rewrite He. unfold ToWei. lia.
Qed.

Lemma endorsed_recorded s x a e P : view_of s x →
  endorsed x a e P ↔ recorded s a (λ v, Endorser v = e ∧ P v).
Proof. intros Hx. unfold endorsed, recorded. by rewrite (view_records s x Hx). Qed.

Lemma deposit_is64 w n x st : winv 0 n w x → 0 ≤ st → ToWei st ≤ wOutside w → is64 st.
Proof.
  intros [Hx HI [? He ?] ? ? _ _] Hst Hout. pose proof (Inv_stats HI) as [(? & ? & ? & ?) ? ?].
  unfold gs_total in *. rewrite (vo_stats _ _ Hx) in *.
  unfold ToWei, bigE18, MaxSupply, gs_total in *. ulia.
Qed.

Lemma GetWithdrawable_view s x a v now : view_of s x → vVals x !! a = Some v →
  GetWithdrawable a now s = Ok (CalculateWithdrawableVET v now, s).
Proof.
  intros Hx Ha. rewrite (view_vals s x a Hx) in Ha. destruct (valsOf s !! a) as [u|] eqn:Hu; [|done].
  simplify_eq/=. unfold GetWithdrawable, getValidationOrRevert, GetValidation, service_GetValidation,
    getValidation, storage_getValidation, zoom, mbind, M_bind, gets.
  unfold valsOf in Hu. rewrite Hu. simpl. by destruct s as [? ? [] ? ? ? ?].
Qed.

(** A paid-out record has nothing left to withdraw. *)
Lemma paid_out now a v x : Inv (λ _, now) x → vVals x !! a = Some v →
  ∃ v', vVals (abs_WithdrawStake now a v x) = <[a := v']> (vVals x) ∧
    CalculateWithdrawableVET v' now = 0.
Proof.
  intros HI Ha. unfold abs_WithdrawStake. case_decide as Hs; eexists; (split; [done|]).
  - pose proof (l_ok _ _ _ _ (Inv_vlocal _ _ _ _ HI Ha)) as Hok. unfold status_ok in Hok.
    rewrite Hs in Hok. destruct Hok as [_ He _ _].
    unfold CalculateWithdrawableVET, CooldownEnded. simpl. by rewrite He.
  - unfold CalculateWithdrawableVET, released.
    match goal with |- context [CooldownEnded ?u now] =>
      change (CooldownEnded u now) with (CooldownEnded v now) end.
    simpl. destruct (CooldownEnded v now); [|done]. by rewrite Z.sub_diag.
Qed.

(** What a payment of [m] does to the books. *)
Lemma paid_held s s' x x' now m : view_of s x → Inv (λ _, now) x → funded s 0 →
  view_of s' x' → Inv (λ _, now) x' → funded s' m → funds s' = funds s →
  heldVET s' = heldVET s - m.
Proof.
  intros Hx HI [_ He _] Hx' HI' [_ He' _] [= _ _ E].
  rewrite <- (view_held _ _ _ Hx HI), <- (view_held _ _ _ Hx' HI').
  rewrite E, He in He'. unfold ToWei, bigE18 in He'. lia.
Qed.

(** C19: [AddValidation] is granted exactly when the stake is within the limits,
    the validator address is not zero and has no record yet, and the period is
    one of the three staking periods.  It then adds one queued record holding
    the stake and changes no other record and no delegation; otherwise it
    reverts. *)
Theorem AddValidation_correct n w a e p st :
  reachable hayabusa n w → n < maxUint256 → 0 ≤ st → ToWei st ≤ wOutside w →
  let s := wStaker w in
  granted (AddValidation a e p st) (deposited st s)
    (MinStakeVET ≤ st ≤ MaxStakeVET ∧ a ≠ 0 ∧ recordsOf s !! a = None ∧ period_ok p)
    (λ _ s', recordsOf s' = <[a := newValidation e p st]> (recordsOf s) ∧ delsIn s' = delsIn s ∧
       listSize (queuedList (validationService s')) =
         listSize (queuedList (validationService s)) + 1).
Proof.
  intros Hr Hn Hst Hout s. subst s.
  destruct (reachable_view OK hayabusa Hhay n w Hr Hn) as (x & Hg & Hx & HI & _).
  eapply wp_granted.
  - eapply (wp_AddValidation OK (wBlock w)); [by apply deposited_view|done|..].
    + eapply deposited_funded; [apply Hg|done|done].
    + eapply deposit_is64; [apply Hg|done|done].
  - intros r s' (Hcan & Hx' & _). split; [exact Hcan|].
    rewrite (view_records _ _ Hx), (view_records _ _ Hx'), (view_dels _ _ Hx), (view_dels _ _ Hx').
    pose proof (dll_size _ _ (repr_queued _ _ _ _ _ (vo_repr _ _ Hx))) as E1.
    pose proof (dll_size _ _ (repr_queued _ _ _ _ _ (vo_repr _ _ Hx'))) as E2. simpl in E1, E2.
    rewrite length_app in E2. simpl in E2. split_and!; try done. lia.
  - unfold can_AddValidation. by rewrite (view_records _ _ Hx).
Qed.

(** [IncreaseStake] is granted exactly to the endorser of an active
    validator that has not signalled its exit, as long as the total stake on
    the validator after the next renewal stays within the maximum; the amount
    is then queued on that validator and nothing else changes. *)
Theorem IncreaseStake_correct n w a e m :
  reachable hayabusa n w → n < maxUint256 → 0 ≤ m → ToWei m ≤ wOutside w →
  let s := wStaker w in
  granted (IncreaseStake a e m) (deposited m s)
    (recorded s a (λ v, Endorser v = e ∧ running v ∧
       nextTVL v (aggOf (aggregationService s) a) + m ≤ MaxStakeVET))
    (λ _ s', delsIn s' = delsIn s ∧ ∃ v, recordsOf s !! a = Some v ∧
       recordsOf s' = <[a := v <| QueuedVET := QueuedVET v + m |>]> (recordsOf s)).
Proof.
  intros Hr Hn Hm Hout s. subst s.
  destruct (reachable_view OK hayabusa Hhay n w Hr Hn) as (x & Hg & Hx & HI & _).
  eapply wp_granted.
  - eapply (wp_IncreaseStake (wBlock w)); [by apply deposited_view|done|..].
    + eapply deposited_funded; [apply Hg|done|done].
    + eapply deposit_is64; [apply Hg|done|done].
  - intros r s' (v & Ha & Hcan & Hx' & _). split; [exact Hcan|].
    rewrite (view_records _ _ Hx), (view_records _ _ Hx'), (view_dels _ _ Hx), (view_dels _ _ Hx').
    split; [done|]. by exists v.
  - unfold can_IncreaseStake. rewrite (endorsed_recorded _ _ _ _ _ Hx). by rewrite (vo_aggs _ _ Hx).
Qed.

(** [DecreaseStake] is granted exactly to the endorser of an active
    validator that has not signalled its exit, when the stake left for the
    next period is at least the minimum; the amount is then marked for
    unlocking at the end of the period and nothing else changes. *)
Theorem DecreaseStake_correct n w a e m :
  reachable hayabusa n w → n < maxUint256 → is64 m →
  let s := wStaker w in
  granted (DecreaseStake a e m) s
    (recorded s a (λ v, Endorser v = e ∧ running v ∧ m ≤ MaxStakeVET - MinStakeVET ∧
       MinStakeVET ≤ LockedVET v - PendingUnlockVET v - m))
    (λ _ s', delsIn s' = delsIn s ∧ ∃ v, recordsOf s !! a = Some v ∧
       recordsOf s' = <[a := v <| PendingUnlockVET := PendingUnlockVET v + m |>]> (recordsOf s)).
Proof.
  intros Hr Hn Hm s. subst s.
  destruct (reachable_view OK hayabusa Hhay n w Hr Hn) as (x & _ & Hx & HI & Hf).
  eapply wp_granted; [by eapply (wp_DecreaseStake (wBlock w))|..].
  - intros r s' (v & Ha & Hcan & Hx' & _). split; [exact Hcan|].
    rewrite (view_records _ _ Hx), (view_records _ _ Hx'), (view_dels _ _ Hx), (view_dels _ _ Hx').
    split; [done|]. by exists v.
  - unfold can_DecreaseStake. by rewrite (endorsed_recorded _ _ _ _ _ Hx).
Qed.

(** [SignalExit] is granted exactly to the endorser of an active validator
    that has not signalled its exit, when one of the 20 epochs following the
    end of its running staking period has no exit yet; the exit is then
    scheduled at such an epoch, and the iterations completed by then are
    recorded. *)
Theorem SignalExit_correct n w a e :
  reachable hayabusa n w → n < maxUint256 →
  let s := wStaker w in
  let now := wBlock w in
  granted (SignalExit a e now) s
    (recorded s a (λ v, Endorser v = e ∧ running v ∧ ∃ i, (i < exitMaxTry)%nat ∧
       exitAt (validationService s) (probe (periodEnd v now) i) = 0))
    (λ _ s', delsIn s' = delsIn s ∧ ∃ v b, recordsOf s !! a = Some v ∧ now < b ∧
       recordsOf s' = <[a := v <| ExitBlock := Some b |>
                               <| CompletedPeriods := iter v now |>]> (recordsOf s)).
Proof.
  intros Hr Hn s now. subst s now.
  destruct (reachable_view OK hayabusa Hhay n w Hr Hn) as (x & Hg & Hx & HI & Hf).
  eapply wp_granted; [by eapply (wp_SignalExit OK (wBlock w)); try done; apply Hg|..].
  - intros r s' (v & b & Ha & Hcan & Hb & Hx' & _). split; [exact Hcan|].
    rewrite (view_records _ _ Hx), (view_records _ _ Hx'), (view_dels _ _ Hx), (view_dels _ _ Hx').
    split; [done|]. by exists v, b.
  - unfold can_SignalExit. rewrite (endorsed_recorded _ _ _ _ _ Hx).
    unfold exitAt, exitOf. by rewrite (vo_exits _ _ Hx).
Qed.


(** C21: [AddDelegation] is granted exactly for a positive amount with a
    non-zero multiplier on a queued or active validator that has not signalled
    its exit, while the total stake after the next renewal stays within the
    maximum; it then records one delegation under the next identifier,
    starting with the validator's next iteration, and changes no record. *)
Theorem AddDelegation_correct n w a st m :
  reachable hayabusa n w → n + 1 < maxUint256 → 0 ≤ st → ToWei st ≤ wOutside w → 0 ≤ m < 256 →
  let s := wStaker w in
  let now := wBlock w in
  granted (AddDelegation a st m now) (deposited st s)
    (0 < st ∧ m ≠ 0 ∧ recorded s a (λ v,
       (ValStatus v = StatusQueued ∨ ValStatus v = StatusActive) ∧ ExitBlock v = None ∧
       nextTVL v (aggOf (aggregationService s) a) + st ≤ MaxStakeVET))
    (λ id s', id = default 0 (idCounter (delegationService s)) + 1 ∧ delsIn s !! id = None ∧
       recordsOf s' = recordsOf s ∧ ∃ v, recordsOf s !! a = Some v ∧
       delsIn s' = <[id := MkDelegation a st m None (iter v now + 1)]> (delsIn s)).
Proof.
  intros Hr Hn Hst Hout Hm s now. subst s now.
  destruct (reachable_good OK hayabusa Hhay n 1 w Hr) as [x Hg]; [done|done|].
  pose proof (g_world _ _ _ _ Hg) as [Hx HI Hf _ _ Hb Hid].
  eapply wp_granted.
  - eapply (wp_AddDelegation OK (wBlock w)); [by apply deposited_view|done| | |done|done|done].
    + eapply deposited_funded; [apply Hg|done|done].
    + eapply deposit_is64; [apply Hg|done|done].
  - intros id s' (v & Ha & Hcan & -> & Hx' & _). split; [exact Hcan|].
    rewrite (vo_id _ _ Hx), (view_records _ _ Hx), (view_records _ _ Hx'),
      (view_dels _ _ Hx), (view_dels _ _ Hx').
    split_and!; [done| |done|by exists v].
    destruct (vDels x !! _) as [d|] eqn:Hd; [|done]. apply (inv_ids _ _ HI) in Hd. lia.
  - unfold can_AddDelegation, recorded. by rewrite (view_records _ _ Hx), (vo_aggs _ _ Hx).
Qed.

(** A delegation with its validator's record, satisfying [P]. *)
Definition delegation_of (s : Staker) (id : Z) (P : Delegation → Validation → Prop) : Prop :=
  ∃ d v, delsIn s !! id = Some d ∧ recordsOf s !! DelValidation d = Some v ∧ P d v.

Lemma IsLocked_classify x t a v d : vlocal x t a v → block_ok t → del_ok v t d →
  IsLocked d v t = Ok (negb (Stake d =? 0) && is_locked (classify v t d)).
Proof.
  intros Hl Ht Hd. destruct (Started_Ended OK _ _ _ _ d Hl Ht Hd) as (st & en & E1 & E2 & Hlk & _).
  unfold IsLocked. rewrite E1, E2. destruct (Stake d =? 0); [done|]. simpl. f_equal.
  apply eq_bool_prop_intro. rewrite andb_True, negb_True, !Is_true_true. rewrite <- Hlk.
  destruct st, en; naive_solver.
Qed.

(** [SignalDelegationExit] is granted exactly for a delegation that is
    locked and has not signalled its exit; the delegation then ends with its
    validator's running iteration and nothing else changes. *)
Theorem SignalDelegationExit_correct n w id :
  reachable hayabusa n w → n < maxUint256 →
  let s := wStaker w in
  let now := wBlock w in
  granted (SignalDelegationExit id now) s
    (delegation_of s id (λ d v, LastIteration d = None ∧ IsLocked d v now = Ok true))
    (λ _ s', recordsOf s' = recordsOf s ∧ ∃ d v, delsIn s !! id = Some d ∧
       recordsOf s !! DelValidation d = Some v ∧
       delsIn s' = <[id := d <| LastIteration := Some (iter v now) |>]> (delsIn s)).
Proof.
  intros Hr Hn s now. subst s now.
  destruct (reachable_view OK hayabusa Hhay n w Hr Hn) as (x & Hg & Hx & HI & Hf).
  pose proof (wi_block _ _ _ _ (g_world _ _ _ _ Hg)) as Hb.
  eapply wp_granted; [by eapply (wp_SignalDelegationExit OK (wBlock w))|..].
  - intros r s' (v & d & Hd & Ha & Hcan & Hx' & _). split; [exact Hcan|].
    rewrite (view_records _ _ Hx), (view_records _ _ Hx'), (view_dels _ _ Hx), (view_dels _ _ Hx').
    split; [done|]. by exists d, v.
  - unfold can_SignalDelegationExit, delegated, delegation_of.
    rewrite (view_records _ _ Hx), (view_dels _ _ Hx).
    apply exist_proper. intros d. apply exist_proper. intros v.
    assert (∀ (Hd : vDels x !! id = Some d) (Ha : vVals x !! DelValidation d = Some v),
      IsLocked d v (wBlock w) = Ok (negb (Stake d =? 0) && is_locked (classify v (wBlock w) d))) as E.
    { intros Hd Ha. pose proof (Inv_vlocal _ _ _ _ HI Ha) as Hl.
      by eapply IsLocked_classify, (l_dels _ _ _ _ Hl id d Hd eq_refl). }
    split; intros (Hd & Ha & Hl & H); rewrite (E Hd Ha) in *; split_and!; try done.
    + destruct H as [?%Z.eqb_neq ->]. by rewrite H.
    + injection H as [?%negb_true_iff%Z.eqb_neq _]%andb_true_iff. done.
    + injection H as [_ ?]%andb_true_iff. done.
Qed.

(** [WithdrawDelegation] is granted exactly for an existing delegation
    that is not locked: a delegator can always take out what the validator
    does not hold any more, and never what it does.  It pays the whole stake,
    leaves the delegation empty, changes no record and no other delegation,
    and the contract owes exactly the paid amount less. *)
Theorem WithdrawDelegation_correct n w id :
  reachable hayabusa n w → n < maxUint256 →
  let s := wStaker w in
  let now := wBlock w in
  granted (WithdrawDelegation id now) s
    (delegation_of s id (λ d v, is_locked (classify v now d) = false))
    (λ m s', recordsOf s' = recordsOf s ∧ heldVET s' = heldVET s - m ∧
       ∃ d v, delsIn s !! id = Some d ∧ recordsOf s !! DelValidation d = Some v ∧ m = Stake d ∧
         IsLocked d v now = Ok false ∧ delsIn s' = <[id := d <| Stake := 0 |>]> (delsIn s)).
Proof.
  intros Hr Hn s now. subst s now.
  destruct (reachable_view OK hayabusa Hhay n w Hr Hn) as (x & Hg & Hx & HI & Hf).
  pose proof (wi_block _ _ _ _ (g_world _ _ _ _ Hg)) as Hb.
  eapply wp_granted.
  - eapply wp_and; [by eapply (wp_WithdrawDelegation OK (wBlock w))|
      by eapply (op_WithdrawDelegation OK)].
  - intros m s' [(v & d & Hd & Ha & -> & _ & Hcan & Hx' & HI' & Hf') (_ & x2 & [_ _ _ _ _ Hfu])].
    split; [exact Hcan|]. pose proof (Inv_vlocal _ _ _ _ HI Ha) as Hl.
    pose proof (l_dels _ _ _ _ Hl id d Hd eq_refl) as Hdok.
    pose proof (paid_held _ _ _ _ _ _ Hx HI Hf Hx' HI' Hf' Hfu) as Hheld.
    destruct Hcan as (d' & v' & Hd' & Ha' & Hnl). simplify_eq. split_and!.
    + by rewrite (view_records _ _ Hx), (view_records _ _ Hx').
    + done.
    + rewrite (view_records _ _ Hx), (view_dels _ _ Hx), (view_dels _ _ Hx'). exists d, v.
      split_and!; try done. rewrite (IsLocked_classify _ _ _ _ _ Hl Hb Hdok), Hnl. by destruct (_ =? _).
  - unfold can_WithdrawDelegation, delegated, delegation_of.
    by rewrite (view_records _ _ Hx), (view_dels _ _ Hx).
Qed.
End requests.

(** ** The theorems on the concrete run *)

Lemma AddValidation_correct_witness :
  let s := wStaker (at_ activation) in
  granted (AddValidation 20 21 8 40000000) (deposited 40000000 s)
    (MinStakeVET ≤ 40000000 ≤ MaxStakeVET ∧ 20 ≠ 0 ∧ recordsOf s !! 20 = None ∧ period_ok 8)
    (λ _ s', recordsOf s' = <[20 := newValidation 21 8 40000000]> (recordsOf s) ∧
       delsIn s' = delsIn s ∧
       listSize (queuedList (validationService s')) =
         listSize (queuedList (validationService s)) + 1).
Proof.
  apply (AddValidation_correct short_config_ok 0 block_ok_0 (costs activation)); concrete.
Defined.

Lemma IncreaseStake_correct_witness :
  let s := wStaker (at_ delegating) in
  granted (IncreaseStake 7 5 1000000) (deposited 1000000 s)
    (recorded s 7 (λ v, Endorser v = 5 ∧ running v ∧
       nextTVL v (aggOf (aggregationService s) 7) + 1000000 ≤ MaxStakeVET))
    (λ _ s', delsIn s' = delsIn s ∧ ∃ v, recordsOf s !! 7 = Some v ∧
       recordsOf s' = <[7 := v <| QueuedVET := QueuedVET v + 1000000 |>]> (recordsOf s)).
Proof.
  apply (IncreaseStake_correct short_config_ok 0 block_ok_0 (costs delegating)); concrete.
Defined.

Lemma DecreaseStake_correct_witness :
  let s := wStaker (at_ delegating) in
  granted (DecreaseStake 8 6 1000000) s
    (recorded s 8 (λ v, Endorser v = 6 ∧ running v ∧ 1000000 ≤ MaxStakeVET - MinStakeVET ∧
       MinStakeVET ≤ LockedVET v - PendingUnlockVET v - 1000000))
    (λ _ s', delsIn s' = delsIn s ∧ ∃ v, recordsOf s !! 8 = Some v ∧
       recordsOf s' =
         <[8 := v <| PendingUnlockVET := PendingUnlockVET v + 1000000 |>]> (recordsOf s)).
Proof.
  apply (DecreaseStake_correct short_config_ok 0 block_ok_0 (costs delegating)); concrete.
Defined.

Lemma SignalExit_correct_witness :
  let s := wStaker (at_ renewing) in
  let now := wBlock (at_ renewing) in
  granted (SignalExit 7 5 now) s
    (recorded s 7 (λ v, Endorser v = 5 ∧ running v ∧ ∃ i, (i < exitMaxTry)%nat ∧
       exitAt (validationService s) (probe (periodEnd v now) i) = 0))
    (λ _ s', delsIn s' = delsIn s ∧ ∃ v b, recordsOf s !! 7 = Some v ∧ now < b ∧
       recordsOf s' = <[7 := v <| ExitBlock := Some b |>
                               <| CompletedPeriods := iter v now |>]> (recordsOf s)).
Proof.
  apply (SignalExit_correct short_config_ok 0 block_ok_0 (costs renewing)); concrete.
Defined.


Lemma AddDelegation_correct_witness :
  let s := wStaker (at_ activation) in
  let now := wBlock (at_ activation) in
  granted (AddDelegation 8 500 200 now) (deposited 500 s)
    (0 < 500 ∧ 200 ≠ 0 ∧ recorded s 8 (λ v,
       (ValStatus v = StatusQueued ∨ ValStatus v = StatusActive) ∧ ExitBlock v = None ∧
       nextTVL v (aggOf (aggregationService s) 8) + 500 ≤ MaxStakeVET))
    (λ id s', id = default 0 (idCounter (delegationService s)) + 1 ∧ delsIn s !! id = None ∧
       recordsOf s' = recordsOf s ∧ ∃ v, recordsOf s !! 8 = Some v ∧
       delsIn s' = <[id := MkDelegation 8 500 200 None (iter v now + 1)]> (delsIn s)).
Proof.
  apply (AddDelegation_correct short_config_ok 0 block_ok_0 (costs activation)); concrete.
Defined.

Lemma SignalDelegationExit_correct_witness :
  let s := wStaker (at_ renewing) in
  let now := wBlock (at_ renewing) in
  granted (SignalDelegationExit 1 now) s
    (delegation_of s 1 (λ d v, LastIteration d = None ∧ IsLocked d v now = Ok true))
    (λ _ s', recordsOf s' = recordsOf s ∧ ∃ d v, delsIn s !! 1 = Some d ∧
       recordsOf s !! DelValidation d = Some v ∧
       delsIn s' = <[1 := d <| LastIteration := Some (iter v now) |>]> (delsIn s)).
Proof.
  apply (SignalDelegationExit_correct short_config_ok 0 block_ok_0 (costs renewing)); concrete.
Defined.

Lemma WithdrawDelegation_correct_witness :
  let s := wStaker (at_ cooled) in
  let now := wBlock (at_ cooled) in
  granted (WithdrawDelegation 1 now) s
    (delegation_of s 1 (λ d v, is_locked (classify v now d) = false))
    (λ m s', recordsOf s' = recordsOf s ∧ heldVET s' = heldVET s - m ∧
       ∃ d v, delsIn s !! 1 = Some d ∧ recordsOf s !! DelValidation d = Some v ∧ m = Stake d ∧
         IsLocked d v now = Ok false ∧ delsIn s' = <[1 := d <| Stake := 0 |>]> (delsIn s)).
Proof.
  apply (WithdrawDelegation_correct short_config_ok 0 block_ok_0 (costs cooled)); concrete.
Defined.
