(* ===== verification/Bft.v ===== *)
(** * Package bft: votes, quality and finality

    [src/bft/justifier.go], [engine.go] and [casts.go].  A round is an epoch of
    blocks; a block votes for the checkpoint of its round, and with its COM flag
    to commit.  The engine is a state: the qualities and the finalized
    checkpoint it saved, the casts of the node's own key and three caches.  The
    repository and the contract states by state root are arguments; reading a
    state that is not there fails.

    The LRU caches of a third-party package may drop entries whenever one is
    added; which ones is the argument [evict]. *)

From stdpp Require Import sorting.
From S2P Require Import Prelude Bytes External Thor Block Tx ChainRepo.
From S2P Require Import Validation Staker.

(** ** Justifier *)
Record bftState := MkBftState {
  Quality : Z;
  Justified : bool;
  Committed : bool;
}.

Record vote := MkVote { isCOM : bool; weight : Z }.

Record justifier := MkJustifier {
  parentQuality : Z;
  checkpoint : Z;
  thresholdVotes : Z;
  thresholdWeight : Z;
  votes : gmap Address vote;
  comVotes : Z;
  comWeight : Z;
  justifiedWeight : Z;
}.
#[export] Instance eta_justifier : Eta justifier := λ j,
  MkJustifier (parentQuality j) (checkpoint j) (thresholdVotes j) (thresholdWeight j)
    (votes j) (comVotes j) (comWeight j) (justifiedWeight j).

Definition newJustifier_empty (parentQuality checkpoint thresholdVotes thresholdWeight : Z)
    : justifier :=
  MkJustifier parentQuality checkpoint thresholdVotes thresholdWeight ∅ 0 0 0.

Definition js_AddBlock (signer : Address) (com : bool) (w : Z) (js : justifier) : justifier :=
  match votes js !! signer with
  | None =>
      let js := js <| votes := <[signer := MkVote com w]> (votes js) |> in
      let js := if negb (w =? 0)
                then js <| justifiedWeight := justifiedWeight js +u64 w |> else js in
      if com then
        let js := js <| comVotes := comVotes js +u64 1 |> in
        if negb (w =? 0) then js <| comWeight := comWeight js +u64 w |> else js
      else js
  | Some prev =>
      if negb (eqb (isCOM prev) com) then
        let js := js <| votes := <[signer := MkVote false (weight prev)]> (votes js) |> in
        if isCOM prev then
          let js := js <| comVotes := comVotes js -u64 1 |> in
          if negb (weight prev =? 0)
          then js <| comWeight := comWeight js -u64 weight prev |> else js
        else js
      else js
  end.

Definition Summarize (js : justifier) : bftState :=
  let '(justified, committed) :=
    if thresholdWeight js =? 0
    then (thresholdVotes js <? Z.of_nat (size (votes js)), thresholdVotes js <? comVotes js)
    else (thresholdWeight js <? justifiedWeight js, thresholdWeight js <? comWeight js) in
  let quality := if justified : bool then parentQuality js +u32 1 else parentQuality js in
  MkBftState quality justified committed.

(** ** Rounds *)
Section points.
Context `{CFG : Config}.

Definition getCheckPoint (blockNum : Z) : Z := blockNum / EpochLength * EpochLength.
Definition isCheckPoint (blockNum : Z) : bool := getCheckPoint blockNum =? blockNum.
(** The last block of the round, where its quality is saved. *)
Definition getStorePoint (blockNum : Z) : Z := getCheckPoint blockNum +u32 EpochLength -u32 1.
End points.

(** ** Engine *)
Record Engine := MkEngine {
  savedQuality : gmap Bytes32 Z;
  savedFinalized : option Bytes32;
  casts : option (gmap Bytes32 Z);
  finalized : Bytes32;
  justifiedCache : option (Bytes32 * Bytes32);
  stateCache : gmap Bytes32 bftState;
  qualityCache : gmap Bytes32 Z;
  justifierCache : gmap Bytes32 justifier;
}.
#[export] Instance eta_Engine : Eta Engine := λ e,
  MkEngine (savedQuality e) (savedFinalized e) (casts e) (finalized e) (justifiedCache e)
    (stateCache e) (qualityCache e) (justifierCache e).

Section engine.
Context `{CFG : Config} `{Rlp} `{Crypto}.
Context (forkConfig : ForkConfig) (master : Address).
Context (evict : ∀ V, gmap Bytes32 V → gmap Bytes32 V).
Context (repo : ChainRepo) (states : gmap Bytes32 Staker).

(** A query of the staker contract in the state of a block. *)
Definition queryAt {A} (s : BlockSummary) (q : M Staker A) : result A :=
  match states !! StateRoot (sumHeader s) with
  | None => Err (ErrInternal "missing trie node")
  | Some st => '(a, _) ← q st; Ok a
  end.

(** The engine after a restart: what was saved, and empty caches. *)
Definition NewEngine (qualities : gmap Bytes32 Z) (saved : option Bytes32) : Engine :=
  MkEngine qualities saved None (default (genesisID repo) saved) None ∅ ∅ ∅.

Definition addCache {V} (k : Bytes32) (v : V) (c : gmap Bytes32 V) : gmap Bytes32 V :=
  evict V (<[k := v]> c).

(** A quality that was not saved reads, and is cached, as 0. *)
Definition getQuality (id : Bytes32) : M Engine Z :=
  cached ← gets (λ e, qualityCache e !! id);
  match cached with
  | Some q => mret q
  | None =>
      q ← gets (λ e, default 0 (savedQuality e !! id));
      modify (λ e, e <| qualityCache := addCache id q (qualityCache e) |>) ;;
      mret q
  end.

Definition getTotalWeight (sum : BlockSummary) : result Z :=
  '(_, totalWeight) ← queryAt sum LockedStake;
  if totalWeight =? 0 then Err (ErrInternal "total weight is zero or nil") else
  Ok totalWeight.

Definition getMaxBlockProposers (sum : BlockSummary) : result Z :=
  mbp ← queryAt sum (gets maxBlockProposersParam);
  Ok (GetMaxBlockProposers mbp true).

(** The round a block with number [blockNum] votes in, with the number of the
    last block before it. *)
Definition lastOfParentRound (blockNum : Z) : Z :=
  if 0 <? getCheckPoint blockNum then getCheckPoint blockNum -u32 1 else 0.

Definition isFirstRound (blockNum : Z) : bool :=
  blockNum / EpochLength -u32 FINALITY forkConfig / EpochLength =? 0.

(** The thresholds of a round, from the state at the end of the round before. *)
Definition thresholds (sum : BlockSummary) : result (Z * Z) :=
  posActive ← queryAt sum IsPoSActive;
  if posActive : bool then
    totalWeight ← getTotalWeight sum;
    Ok (0, totalWeight *u64 2 / 3)
  else
    mbp ← getMaxBlockProposers sum;
    Ok (mbp *u64 2 / 3, 0).

Definition newJustifier (parentID : Bytes32) : M Engine justifier :=
  let blockNum := Number parentID +u32 1 in
  sum ← lift (chain_GetBlockSummary repo parentID (lastOfParentRound blockNum));
  parentQ ← (if isFirstRound blockNum then mret 0 else getQuality (ID (sumHeader sum)));
  '(tv, tw) ← lift (thresholds sum);
  mret (newJustifier_empty parentQ (getCheckPoint blockNum) tv tw).

(** The signer of a header, the zero address when there is none. *)
Definition signerOf (h : Header) : Address :=
  match Header_Signer h with Ok a => a | Err _ => 0 end.

(** The weight of the vote of [h].  An error of [IsPoSActive] counts as inactive. *)
Definition voteWeight (h : Header) : result Z :=
  if HAYABUSA forkConfig +u32 HayabusaTP <? Header_Number h then
    parent ← GetBlockSummary repo (ParentID h);
    match queryAt parent IsPoSActive with
    | Ok true =>
        v ← queryAt parent (GetValidation (signerOf h));
        match v with
        | None => Err (ErrInternal "validator not found")
        | Some v => Ok (ValWeight v)
        end
    | _ => Ok 0
    end
  else Ok 0.

(** From [h] back to the block with number [end_], at most [fuel] blocks. *)
Fixpoint addBlocks (fuel : nat) (end_ : Z) (h : Header) (js : justifier) : result justifier :=
  if Header_Number h <? FINALITY forkConfig then Ok js else
  match fuel with
  | O => Err ErrFuel
  | S fuel =>
      w ← voteWeight h;
      let js := js_AddBlock (signerOf h) (COM (Extension h)) w js in
      if Header_Number h <=? end_ then Ok js else
      parent ← GetBlockSummary repo (ParentID h);
      addBlocks fuel end_ (sumHeader parent) js
  end.

(** The numbers of the blocks decrease. *)
Definition blocksFuel (h : Header) : nat := S (Z.to_nat (Header_Number h)).

Definition computeState (h : Header) : M Engine bftState :=
  cached ← gets (λ e, stateCache e !! ID h);
  match cached with
  | Some st => mret st
  | None =>
      if (Header_Number h =? 0) || (Header_Number h <? FINALITY forkConfig)
      then mret (MkBftState 0 false false) else
      entry ← gets (λ e, justifierCache e !! ParentID h);
      modify (λ e, e <| justifierCache := delete (ParentID h) (justifierCache e) |>) ;;
      '(js, end_) ←
        match entry with
        | Some js =>
            if negb (isCheckPoint (Header_Number h)) then mret (js, Header_Number h)
            else js ← newJustifier (ParentID h); mret (js, checkpoint js)
        | None => js ← newJustifier (ParentID h); mret (js, checkpoint js)
        end;
      js ← lift (addBlocks (blocksFuel h) end_ h js);
      let st := Summarize js in
      modify (λ e, e <| stateCache := addCache (ID h) st (stateCache e) |>) ;;
      modify (λ e, e <| justifierCache := addCache (ID h) js (justifierCache e) |>) ;;
      mret st
  end.

(** [sort.Search] with a predicate that reads the engine; its panics are
    recovered into errors. *)
Fixpoint searchM (fuel : nat) (f : Z → M Engine bool) (i j : Z) : M Engine Z :=
  if i <? j then
    match fuel with
    | O => fail ErrFuel
    | S fuel =>
        let h := (i + j) / 2 in
        b ← f h;
        if b : bool then searchM fuel f i h else searchM fuel f (h + 1) j
    end
  else mret i.

Definition errQuality : error := ErrInternal "failed to find the block by quality".

(** Where the search for a checkpoint starts. *)
Definition searchStart (finalized : Bytes32) : Z :=
  if Number finalized =? 0 then getCheckPoint (FINALITY forkConfig) else Number finalized.

(** The quality at the end of the [i]-th round after the start. *)
Definition qualityOfRound (headID : Bytes32) (start i : Z) : M Engine Z :=
  id ← lift (GetBlockID repo headID (getStorePoint (start +u32 wrap32 i *u32 EpochLength)));
  getQuality id.

Definition findCheckpointByQuality (target : Z) (finalized headID : Bytes32) : M Engine Bytes32 :=
  let start := searchStart finalized in
  let n := (Number headID -u32 start) / EpochLength + 1 in
  num ← searchM (Z.to_nat n) (λ i, q ← qualityOfRound headID start i; mret (target <=? q)) 0 n;
  if num =? n then fail errQuality else
  q ← qualityOfRound headID start num;
  if negb (q =? target) then fail errQuality else
  lift (GetBlockID repo headID (start +u32 wrap32 num *u32 EpochLength)).

Definition Finalized : M Engine Bytes32 := gets finalized.

(** The checkpoint of a concluded round, remembered. *)
Definition justifyAt (fin storeID : Bytes32) : M Engine Bytes32 :=
  quality ← getQuality storeID;
  if quality =? 0 then mret fin else
  cp ← findCheckpointByQuality quality fin storeID;
  modify (λ e, e <| justifiedCache := Some (storeID, cp) |>) ;;
  mret cp.

(** [Engine.Justified]: the most recent justified checkpoint of the best chain. *)
Definition engine_Justified : M Engine Bytes32 :=
  let head := sumHeader (bestSummary repo) in
  fin ← Finalized;
  if Header_Number head <? getCheckPoint (FINALITY forkConfig) +u32 EpochLength -u32 1
  then mret fin else
  let concluded := getCheckPoint (Header_Number head) in
  let concluded := if Header_Number head <? getStorePoint (Header_Number head)
                   then concluded -u32 EpochLength else concluded in
  storeID ← lift (GetBlockID repo (ID head) (getStorePoint concluded));
  val ← gets justifiedCache;
  match val with
  | Some (search, value) =>
      if search =? storeID then mret value else justifyAt fin storeID
  | None => justifyAt fin storeID
  end.

Definition Accepts (parentID : Bytes32) : M Engine bool :=
  fin ← Finalized;
  if negb (Number fin =? 0) then lift (HasBlock repo parentID fin) else mret true.

Definition Select (h : Header) : M Engine bool :=
  newSt ← computeState h;
  let best := sumHeader (bestSummary repo) in
  bestSt ← computeState best;
  if negb (Quality newSt =? Quality bestSt) then mret (Quality bestSt <? Quality newSt) else
  mret (BetterThan h best).

(** Saving the state of a concluded round.  What was saved before an error
    stays saved; what the failing step did to the caches is left out. *)
Definition commitRound (h : Header) : K Engine unit :=
  st ← keep (computeState h);
  keep (modify (λ e, e <| savedQuality := <[ID h := Quality st]> (savedQuality e) |>)) ;;
  keep (modify (λ e, e <| qualityCache := addCache (ID h) (Quality st) (qualityCache e) |>)) ;;
  kwhen (Committed st && (1 <? Quality st))
    (keep (fin ← Finalized;
           id ← findCheckpointByQuality (Quality st -u32 1) fin (ID h);
           modify (λ e, e <| savedFinalized := Some id |> <| finalized := id |>))).

(** Assigning to an entry of a nil map panics. *)
Definition Mark (cp : Bytes32) (quality : Z) : M Engine unit :=
  c ← gets casts;
  match c with
  | None => fail (ErrPanic "assignment to entry in nil map")
  | Some c => modify (λ e, e <| casts := Some (<[cp := quality]> c) |>)
  end.

Definition CommitBlock (h : Header) (isPacking : bool) : K Engine unit :=
  kwhen (getStorePoint (Header_Number h) =? Header_Number h) (commitRound h) ;;
  kwhen isPacking
    (keep (st ← computeState h;
           cp ← lift (GetBlockID repo (ID h) (getCheckPoint (Header_Number h)));
           Mark cp (Quality st))).

(** ** Casts *)

(** From [cur] back to the last block of the master, or to the finalized block. *)
Fixpoint castOf (fuel : nat) (fin head cur : Bytes32) (c : gmap Bytes32 Z)
    : M Engine (gmap Bytes32 Z) :=
  match fuel with
  | O => fail ErrFuel
  | S fuel =>
      sum ← lift (GetBlockSummary repo cur);
      let h := sumHeader sum in
      if signerOf h =? master then
        st ← computeState h;
        cp ← lift (GetBlockID repo head (getCheckPoint (Header_Number h)));
        mret (match c !! cp with
              | Some quality => if quality <? Quality st then <[cp := Quality st]> c else c
              | None => <[cp := Quality st]> c
              end)
      else if Header_Number h <=? Number fin then mret c
      else castOf fuel fin head (ParentID h) c
  end.

Definition newCasts : M Engine unit :=
  fin ← Finalized;
  c ← foldM (λ c head, castOf (S (Z.to_nat (Number head))) fin head head c) ∅
        (ScanHeads repo (Number fin));
  modify (λ e, e <| casts := Some c |>).

(** By descending checkpoint id. *)
Definition castOrder (p q : Bytes32 * Z) : Prop := q.1 ≤ p.1.
#[export] Instance castOrder_dec p q : Decision (castOrder p q) := decide (q.1 ≤ p.1).

Definition Slice (fin : Bytes32) (c : gmap Bytes32 Z) : list (Bytes32 * Z) :=
  merge_sort castOrder (filter (λ kq, Number fin ≤ Number kq.1) (map_to_list c)).

(** Every cast of a quality from [headQuality - 1] on agrees with the head. *)
Fixpoint noConflict (recentJC : Bytes32) (headQuality : Z) (l : list (Bytes32 * Z)) : result bool :=
  match l with
  | [] => Ok true
  | (cp, quality) :: l =>
      if headQuality -u32 1 <=? quality then
        let '(x, y) := if Number recentJC <? Number cp then (cp, recentJC) else (recentJC, cp) in
        includes ← HasBlock repo x y;
        if negb includes then Ok false else noConflict recentJC headQuality l
      else noConflict recentJC headQuality l
  end.

(** The most recent justified checkpoint of the chain of [parentID]. *)
Definition recentJustified (parentID : Bytes32) (st : bftState) (fin : Bytes32) : M Engine Bytes32 :=
  if Justified st then lift (GetBlockID repo parentID (getCheckPoint (Number parentID)))
  else
    prev ← lift (GetBlockID repo parentID (getStorePoint (Number parentID -u32 EpochLength)));
    findCheckpointByQuality (Quality st) fin prev.

Definition ShouldVote (parentID : Bytes32) : M Engine bool :=
  c ← gets casts;
  when (bool_decide (c = None)) newCasts ;;
  if isFirstRound (Number parentID +u32 1) then mret false else
  sum ← lift (GetBlockSummary repo parentID);
  st ← computeState (sumHeader sum);
  if Quality st =? 0 then mret false else
  fin ← Finalized;
  recentJC ← recentJustified parentID st fin;
  c ← gets casts;
  lift (noConflict recentJC (Quality st) (Slice fin (default ∅ c))).
End engine.
