(* ===== verification/BftVotes.v ===== *)
(** * Counting votes

    The justifier counts votes one at a time, with running totals that are
    corrected when a signer votes both ways.  [tally] is the count itself: one
    vote for each signer, a commit vote only if all its votes are.  As long as a
    signer's votes carry the same weight, the justifier holds the tally, so the
    order in which the blocks of a round are added does not matter.  Two
    quorums of one round share more than a third of the votes. *)

From Stdlib Require Import Permutation.
From S2P Require Import Prelude Bytes External Thor Block Tx ChainRepo Validation Staker Bft.

Record ballot := MkBallot { bSigner : Address; bCOM : bool; bWeight : Z }.

Definition addBallot (js : justifier) (b : ballot) : justifier :=
  js_AddBlock (bSigner b) (bCOM b) (bWeight b) js.
Definition addBallots (js : justifier) (bs : list ballot) : justifier := foldl addBallot js bs.

Section tally.
Context (w : Address → Z).
Implicit Types (bs : list ballot) (js : justifier).

(** Every ballot of a signer carries the signer's weight. *)
Definition steady bs : Prop := ∀ b, b ∈ bs → bWeight b = w (bSigner b).

(** Whether all ballots of [a] vote to commit. *)
Definition allCOM bs (a : Address) : bool := forallb (λ b, bCOM b || negb (bSigner b =? a)) bs.

Definition tally bs : gmap Address vote :=
  list_to_map ((λ b, (bSigner b, MkVote (allCOM bs (bSigner b)) (w (bSigner b)))) <$> bs).

Definition comCount (m : gmap Address vote) : Z := msum (λ _ v, if isCOM v then 1 else 0) m.
Definition comSum (m : gmap Address vote) : Z := msum (λ _ v, if isCOM v then weight v else 0) m.
Definition weightSum (m : gmap Address vote) : Z := msum (λ _ v, weight v) m.

Lemma tally_lookup bs a : tally bs !! a =
  if decide (a ∈ bSigner <$> bs) then Some (MkVote (allCOM bs a) (w a)) else None.
Proof.
  unfold tally. destruct (decide _) as [Hin|Hout].
  - apply elem_of_list_to_map_1'.
    + intros v (b & [= -> ->] & _)%list_elem_of_fmap. done.
    + apply list_elem_of_fmap in Hin as (b & -> & Hb). apply list_elem_of_fmap. by exists b.
  - apply not_elem_of_list_to_map_1. rewrite <- list_fmap_compose. done.
Qed.

Lemma allCOM_snoc bs b a : allCOM (bs ++ [b]) a = allCOM bs a && (bCOM b || negb (bSigner b =? a)).
Proof. unfold allCOM. rewrite forallb_app. simpl. by rewrite andb_true_r. Qed.

Lemma allCOM_fresh bs a : a ∉ bSigner <$> bs → allCOM bs a = true.
Proof.
  intros Hout. apply forallb_forall. intros b Hb%list_elem_of_In.
  destruct (Z.eqb_spec (bSigner b) a) as [E|]; [|by rewrite orb_true_r].
  exfalso. apply Hout. rewrite <- E. apply list_elem_of_fmap. by exists b.
Qed.

Lemma tally_perm bs bs' : bs ≡ₚ bs' → tally bs = tally bs'.
Proof.
  intros Hp. apply map_eq. intros a. rewrite !tally_lookup.
  assert (allCOM bs a = allCOM bs' a) as ->.
  { apply eq_true_iff_eq. unfold allCOM. rewrite !forallb_forall.
    split; intros H b Hb%list_elem_of_In; apply H, list_elem_of_In;
      [by rewrite Hp|by rewrite <- Hp]. }
  destruct (decide (a ∈ bSigner <$> bs)) as [H|H], (decide (a ∈ bSigner <$> bs')) as [H'|H'];
    try done; exfalso; rewrite Hp in H; done.
Qed.

(** What the justifier holds after the ballots [bs]; the totals are 64-bit. *)
Record holds js0 bs js : Prop := {
  h_quality : parentQuality js = parentQuality js0;
  h_checkpoint : checkpoint js = checkpoint js0;
  h_tvotes : thresholdVotes js = thresholdVotes js0;
  h_tweight : thresholdWeight js = thresholdWeight js0;
  h_votes : votes js = tally bs;
  h_comVotes : comVotes js = wrap64 (comCount (tally bs));
  h_comWeight : comWeight js = wrap64 (comSum (tally bs));
  h_weight : justifiedWeight js = wrap64 (weightSum (tally bs));
}.

Lemma wrap_add x y : wrap64 (wrap64 x + y) = wrap64 (x + y).
Proof. unfold wrap64. apply Z.add_mod_idemp_l. by unfold max64. Qed.

Lemma wrap_sub x y : wrap64 (wrap64 x - y) = wrap64 (x - y).
Proof. unfold wrap64. apply Zminus_mod_idemp_l. Qed.

Lemma tally_snoc bs b : tally (bs ++ [b]) =
  <[bSigner b := MkVote (allCOM bs (bSigner b) && bCOM b) (w (bSigner b))]> (tally bs).
Proof.
  apply map_eq. intros a. rewrite tally_lookup, fmap_app, allCOM_snoc. simpl.
  destruct (Z.eqb_spec (bSigner b) a) as [->|Hne].
  - rewrite lookup_insert_eq, decide_True by set_solver. by rewrite orb_false_r.
  - rewrite lookup_insert_ne, tally_lookup by done. rewrite orb_true_r, andb_true_r.
    destruct (decide (a ∈ (bSigner <$> bs) ++ [bSigner b])) as [H|H],
      (decide (a ∈ bSigner <$> bs)) as [H'|H']; try done; exfalso; set_solver.
Qed.

Lemma holds_empty pq cp tv tw :
  holds (newJustifier_empty pq cp tv tw) [] (newJustifier_empty pq cp tv tw).
Proof. by split. Qed.

Lemma holds_step js0 bs js b : holds js0 bs js → bWeight b = w (bSigner b) →
  holds js0 (bs ++ [b]) (addBallot js b).
Proof.
  intros [] Hw. unfold addBallot, js_AddBlock. rewrite h_votes0, tally_lookup.
  pose proof (tally_snoc bs b) as Hs.
  destruct (decide (bSigner b ∈ bSigner <$> bs)) as [Hin|Hout].
  - pose proof (tally_lookup bs (bSigner b)) as Hl. rewrite decide_True in Hl by done.
    simpl isCOM. simpl weight. destruct (eqb _ (bCOM b)) eqn:Eb; simpl negb; cbn iota.
    + apply eqb_prop in Eb. assert (tally (bs ++ [b]) = tally bs) as Et.
      { rewrite Hs, <- Eb, andb_diag. by apply insert_id. }
      by split; rewrite ?Et.
    + assert (allCOM bs (bSigner b) && bCOM b = false) as Ef
        by (destruct (allCOM bs (bSigner b)), (bCOM b); done).
      rewrite Ef in Hs.
      assert (∀ f, msum f (tally (bs ++ [b])) = msum f (tally bs)
        - f (bSigner b) (MkVote (allCOM bs (bSigner b)) (w (bSigner b)))
        + f (bSigner b) (MkVote false (w (bSigner b)))) as Hm.
      { intros f. rewrite Hs. rewrite (msum_insert_Some f _ _ _ _ Hl). lia. }
      destruct (allCOM bs (bSigner b)) eqn:Ea; simpl.
      * destruct (Z.eqb_spec (w (bSigner b)) 0) as [E0|E0]; simpl; split; simpl; try done;
          unfold comCount, comSum, weightSum in *; rewrite ?Hm; simpl;
          rewrite ?h_comVotes0, ?h_comWeight0, ?h_weight0, ?wrap_sub; f_equal; lia.
      * split; simpl; try done; unfold comCount, comSum, weightSum in *; rewrite ?Hm; simpl;
          rewrite ?h_comVotes0, ?h_comWeight0, ?h_weight0; f_equal; lia.
  - pose proof (tally_lookup bs (bSigner b)) as Hl. rewrite decide_False in Hl by done.
    rewrite allCOM_fresh in Hs by done. simpl in Hs.
    assert (∀ f, msum f (tally (bs ++ [b])) =
      f (bSigner b) (MkVote (bCOM b) (w (bSigner b))) + msum f (tally bs)) as Hm.
    { intros f. rewrite Hs. rewrite (msum_insert_None f _ _ _ Hl). lia. }
    rewrite Hw. destruct (Z.eqb_spec (w (bSigner b)) 0) as [E0|E0], (bCOM b) eqn:Ec; simpl;
      split; simpl; try done; unfold comCount, comSum, weightSum in *; rewrite ?Hm; simpl;
      rewrite ?h_comVotes0, ?h_comWeight0, ?h_weight0, ?wrap_add; f_equal; lia.
Qed.

Lemma holds_all js0 bs0 js bs : holds js0 bs0 js → steady bs → holds js0 (bs0 ++ bs) (addBallots js bs).
Proof.
  revert bs0 js. induction bs as [|b bs IH]; intros bs0 js Hh Hst; simpl.
  - by rewrite app_nil_r.
  - replace (bs0 ++ b :: bs) with ((bs0 ++ [b]) ++ bs) by (by rewrite <- app_assoc).
    apply IH; [|intros b' Hb'; apply Hst; by right].
    apply holds_step; [done|apply Hst; by left].
Qed.

Lemma holds_det js0 bs bs' js js' : holds js0 bs js → holds js0 bs' js' → bs ≡ₚ bs' → js = js'.
Proof.
  intros [] [] Hp. rewrite (tally_perm _ _ Hp) in *. destruct js, js'. simpl in *. congruence.
Qed.
End tally.

(** ** What a round decides *)
Section decisions.
Context (w : Address → Z).
Implicit Types (bs : list ballot).

Lemma tally_weight bs a v : tally w bs !! a = Some v → weight v = w a ∧ a ∈ bSigner <$> bs.
Proof. rewrite tally_lookup. case_decide; [|done]. by intros [= <-]. Qed.

Lemma sums_bounds bs : (∀ a, 0 ≤ w a) →
  0 ≤ comSum (tally w bs) ≤ weightSum (tally w bs) ∧
  0 ≤ comCount (tally w bs) ≤ Z.of_nat (size (tally w bs)).
Proof.
  intros Hw. assert (Z.of_nat (size (tally w bs)) = msum (λ _ _, 1) (tally w bs)) as ->.
  { induction (tally w bs) as [|k v m Hk IH] using map_ind; [done|].
    rewrite map_size_insert_None, msum_insert_None by done. lia. }
  unfold comSum, weightSum, comCount.
  split_and!; first [apply msum_nonneg|apply msum_le]; intros a v Hv; simpl;
    destruct (tally_weight _ _ _ Hv) as [Ev _]; specialize (Hw a); destruct (isCOM v); lia.
Qed.

(** The running totals are the count of the round.  As long as all blocks of a
    signer carry one weight, whatever order the blocks of a round are added in,
    the justifier ends with one vote for each signer, a commit vote only for
    those that never voted otherwise, and with the exact number and weight of
    both; the round is justified, or committed, exactly if they exceed the
    threshold, and committed only if justified. *)
Theorem round_count_exact (pq cp tv tw : Z) bs bs' :
  steady w bs → (∀ a, 0 ≤ w a) → weightSum (tally w bs) < max64 →
  Z.of_nat (size (tally w bs)) < max64 → bs ≡ₚ bs' →
  let js := addBallots (newJustifier_empty pq cp tv tw) bs in
  let st := Summarize js in
  addBallots (newJustifier_empty pq cp tv tw) bs' = js ∧
  votes js = tally w bs ∧
  Justified st = (if tw =? 0 then tv <? Z.of_nat (size (tally w bs))
                  else tw <? weightSum (tally w bs)) ∧
  Committed st = (if tw =? 0 then tv <? comCount (tally w bs) else tw <? comSum (tally w bs)) ∧
  Quality st = (if Justified st then wrap32 (pq + 1) else pq) ∧
  (Committed st = true → Justified st = true).
Proof.
  intros Hst Hw Hsum Hsize Hp js st.
  set (js0 := newJustifier_empty pq cp tv tw) in *.
  assert (holds w js0 bs js) as Hh by (apply (holds_all w js0 []); [apply holds_empty|done]).
  assert (holds w js0 bs' (addBallots js0 bs')) as Hh'.
  { apply (holds_all w js0 []); [apply holds_empty|]. intros b Hb. apply Hst. by rewrite Hp. }
  pose proof (sums_bounds bs Hw) as [Hc Hn].
  pose proof Hh as [E1 E2 E3 E4 E5 E6 E7 E8]. simpl in E1, E2, E3, E4.
  rewrite !wrap64_id in E6, E7, E8 by ulia.
  split; [by eapply (holds_det w js0 bs' bs); [..|symmetry]|]. split; [done|].
  unfold st, Summarize. rewrite E1, E3, E4, E5, E6, E7, E8.
  destruct (tw =? 0); simpl; split_and!; try done; lia.
Qed.

(** The signers whose votes in the round are all commit votes. *)
Definition commits bs (a : Address) : bool := bool_decide (a ∈ bSigner <$> bs) && allCOM bs a.

Lemma comSum_list bs (U : list Address) : NoDup U → (∀ b, b ∈ bs → bSigner b ∈ U) →
  comSum (tally w bs) = lsum (λ a, if commits bs a then w a else 0) U.
Proof.
  intros Hnd Hin. unfold comSum. rewrite (msum_list _ _ U Hnd).
  - unfold lsum. clear. induction U as [|a U IH]; [done|]. simpl. rewrite IH. f_equal.
    rewrite tally_lookup. unfold commits.
    destruct (decide (a ∈ bSigner <$> bs)); [rewrite bool_decide_eq_true_2 by done|
      rewrite bool_decide_eq_false_2 by done]; simpl; done.
  - intros a v Hv Ha. exfalso. apply Ha. apply tally_weight in Hv as [_ Hv].
    apply list_elem_of_fmap in Hv as (b & -> & Hb). by apply Hin.
Qed.

Lemma lsum_both (p q : Address → bool) (U : list Address) : (∀ a, 0 ≤ w a) →
  lsum (λ a, if p a then w a else 0) U + lsum (λ a, if q a then w a else 0) U ≤
  lsum w U + lsum w (filter (λ a, Is_true (p a && q a)) U).
Proof.
  intros Hw. induction U as [|a U IH]; [done|]. specialize (Hw a). rewrite filter_cons. simpl.
  destruct (p a), (q a); simpl; try lia.
Qed.

(** C37: two committed rounds share more than a third of the weight.  If two
    rounds counted against the same total weight are both committed, the
    validators that voted to commit in both hold more than a third of it; so
    rounds on conflicting branches are not both committed unless validators
    holding more than a third voted for both. *)
Theorem committed_rounds_share_third (U : list Address) (total pq1 cp1 pq2 cp2 : Z) bs1 bs2 :
  NoDup U → (∀ a, 0 ≤ w a) → total = lsum w U → 1 < total → total * 2 < max64 →
  steady w bs1 → steady w bs2 →
  (∀ b, b ∈ bs1 → bSigner b ∈ U) → (∀ b, b ∈ bs2 → bSigner b ∈ U) →
  let threshold := total *u64 2 / 3 in
  Committed (Summarize (addBallots (newJustifier_empty pq1 cp1 0 threshold) bs1)) = true →
  Committed (Summarize (addBallots (newJustifier_empty pq2 cp2 0 threshold) bs2)) = true →
  total < 3 * lsum w (filter (λ a, Is_true (commits bs1 a && commits bs2 a)) U).
Proof.
  intros Hnd Hw Et Hpos Hmax Hs1 Hs2 Hu1 Hu2 threshold C1 C2.
  assert (threshold = total * 2 / 3) as Eth by (unfold threshold; rewrite wrap64_id; ulia).
  clearbody threshold. pose proof (Z.mul_div_le (total * 2) 3).
  pose proof (Z.mul_succ_div_gt (total * 2) 3).
  assert (∀ pq cp bs, steady w bs → (∀ b, b ∈ bs → bSigner b ∈ U) →
    Committed (Summarize (addBallots (newJustifier_empty pq cp 0 threshold) bs)) = true →
    threshold < lsum (λ a, if commits bs a then w a else 0) U) as Hc.
  { intros pq cp bs Hs Hu C. rewrite <- comSum_list by done.
    assert (holds w (newJustifier_empty pq cp 0 threshold) bs
      (addBallots (newJustifier_empty pq cp 0 threshold) bs)) as [_ _ _ E4 _ _ E7 _]
      by (apply (holds_all w _ []); [apply holds_empty|done]).
    unfold Summarize in C. rewrite E4, E7 in C. simpl in C.
    destruct (Z.eqb_spec threshold 0) as [E0|_]; [exfalso; lia|]. simpl in C.
    apply Z.ltb_lt in C. pose proof (sums_bounds bs Hw) as [[Hc0 _] _].
    unfold wrap64 in C. pose proof (Z.mod_le (comSum (tally w bs)) max64). ulia. }
  specialize (Hc pq1 cp1 bs1 Hs1 Hu1 C1) as H1. specialize (Hc pq2 cp2 bs2 Hs2 Hu2 C2) as H2.
  pose proof (lsum_both (commits bs1) (commits bs2) U Hw). lia.
Qed.
End decisions.

(** ** Witnesses *)
Definition demo_weight (a : Address) : Z := if (1 <=? a) && (a <=? 3) then 10 else 0.
Definition demo_ballots : list ballot :=
  [MkBallot 1 true 10; MkBallot 2 true 10; MkBallot 1 true 10; MkBallot 3 true 10; MkBallot 3 false 10].
Definition demo_ballots' : list ballot :=
  [MkBallot 3 false 10; MkBallot 1 true 10; MkBallot 2 true 10; MkBallot 1 true 10; MkBallot 3 true 10].

Lemma demo_weight_nonneg a : 0 ≤ demo_weight a.
Proof. unfold demo_weight. destruct (_ && _); lia. Qed.

Ltac each_ballot := intros ? Hb; repeat (apply elem_of_cons in Hb as [->|Hb];
  [first [reflexivity|simpl; repeat (first [left|right])]|]); by apply not_elem_of_nil in Hb.

Lemma demo_steady : steady demo_weight demo_ballots.
Proof. each_ballot. Qed.

Lemma round_count_exact_witness :
  let js := addBallots (newJustifier_empty 4 360 0 20) demo_ballots in
  let st := Summarize js in
  addBallots (newJustifier_empty 4 360 0 20) demo_ballots' = js ∧
  votes js = tally demo_weight demo_ballots ∧
  Justified st = (20 <? weightSum (tally demo_weight demo_ballots)) ∧
  Committed st = (20 <? comSum (tally demo_weight demo_ballots)) ∧
  Quality st = (if Justified st then wrap32 (4 + 1) else 4) ∧
  (Committed st = true → Justified st = true).
Proof.
  apply (round_count_exact demo_weight 4 360 0 20 demo_ballots demo_ballots').
  - exact demo_steady.
  - exact demo_weight_nonneg.
  - vm_compute. reflexivity.
  - vm_compute. reflexivity.
  - symmetry. apply (Permutation_cons_app [_; _; _; _] []). reflexivity.
Defined.

Definition demo_commit1 : list ballot :=
  [MkBallot 1 true 10; MkBallot 2 true 10; MkBallot 3 true 10].
Definition demo_commit2 : list ballot :=
  [MkBallot 3 true 10; MkBallot 1 true 10; MkBallot 2 true 10; MkBallot 1 true 10].

Lemma committed_rounds_share_third_witness :
  30 < 3 * lsum demo_weight
    (filter (λ a, Is_true (commits demo_commit1 a && commits demo_commit2 a)) [1; 2; 3]).
Proof.
  apply (committed_rounds_share_third demo_weight [1; 2; 3] 30 4 360 7 540
    demo_commit1 demo_commit2).
  - apply (bool_decide_eq_true_1 _). vm_compute. reflexivity.
  - exact demo_weight_nonneg.
  - reflexivity.
  - lia.
  - vm_compute. reflexivity.
  - each_ballot.
  - each_ballot.
  - each_ballot.
  - each_ballot.
  - vm_compute. reflexivity.
  - vm_compute. reflexivity.
Defined.
