(* ===== verification/BftCaches.v ===== *)
(** * The caches of the finality engine

    What [computeState] answers is a function of the repository, the contract
    states and the saved qualities: [stateOf] recomputes it from the checkpoint
    of the round.  The engine keeps the justifier of every block and extends the
    one of the parent instead; the blocks are then counted in the other order.
    If the votes of a signer carry the same weight throughout a round, the
    answers are the same ones and the caches stay correct. *)

From S2P Require Import Prelude Bytes External Thor Block Tx ChainRepo ChainRepoInv.
From S2P Require Import Validation Staker Bft BftVotes.

(** [m] started in [e] does what [r] says, and ends in a state of [Q]. *)
Definition runs {S A} (m : M S A) (r : result A) (e : S) (Q : S → Prop) : Prop :=
  match r with
  | Ok a => ∃ e', m e = Ok (a, e') ∧ Q e'
  | Err x => m e = Err x
  end.

Section runs.
Context {S : Type}.

Lemma runs_bind {A B} (m : M S A) (k : A → M S B) (r : result A) (f : A → result B) e P Q :
  runs m r e P → (∀ a e', r = Ok a → P e' → runs (k a) (f a) e' Q) →
  runs (x ← m; k x) (x ← r; f x) e Q.
Proof.
  intros Hm Hk. unfold runs in *. unfold mbind, M_bind. destruct r as [a|x]; simpl.
  - destruct Hm as (e1 & -> & HP). by apply (Hk a e1).
  - by rewrite Hm.
Qed.

Lemma runs_ret {A} (a : A) e (Q : S → Prop) : Q e → runs (mret a) (Ok a) e Q.
Proof. intros HQ. exists e. done. Qed.

Lemma runs_lift {A} (r : result A) e (Q : S → Prop) : Q e → runs (lift r) r e Q.
Proof. intros HQ. unfold runs, lift. destruct r; [exists e; done|done]. Qed.

Lemma runs_mono {A} (m : M S A) r e (P Q : S → Prop) :
  runs m r e P → (∀ e', P e' → Q e') → runs m r e Q.
Proof. unfold runs. destruct r; [|done]. intros (e' & ? & ?) HPQ. eauto. Qed.

Lemma runs_bind_ok {A B} (m : M S A) (k : A → M S B) a (r : result B) e P Q :
  runs m (Ok a) e P → (∀ e', P e' → runs (k a) r e' Q) → runs (x ← m; k x) r e Q.
Proof. intros (e1 & E & HP) Hk. unfold runs, mbind, M_bind in *. rewrite E. by apply Hk. Qed.
End runs.

#[local] Arguments blocksFuel : simpl never.

Section caches.
Context `{CFG : Config} `{Rlp} `{CS : CryptoSpec}.
Context (fc : ForkConfig) (repo : ChainRepo) (states : gmap Bytes32 Staker).
Context (evict : ∀ V, gmap Bytes32 V → gmap Bytes32 V).
Implicit Types (h : Header) (e : Engine) (sq : gmap Bytes32 Z).

Abbreviation addBlocks := (addBlocks fc repo states).
Abbreviation voteWeight := (voteWeight fc repo states).
Abbreviation newJustifier := (newJustifier fc evict repo states).
Abbreviation computeState := (computeState fc evict repo states).
Abbreviation getQuality := (getQuality evict).

(** ** Recomputing *)

Definition ballotOf h (w : Z) : ballot := MkBallot (signerOf h) (COM (Extension h)) w.

(** The ballots that [addBlocks] counts, the newest first. *)
Fixpoint ballots (fuel : nat) (end_ : Z) h : result (list ballot) :=
  if Header_Number h <? FINALITY fc then Ok [] else
  match fuel with
  | O => Err ErrFuel
  | S fuel =>
      w ← voteWeight h;
      if Header_Number h <=? end_ then Ok [ballotOf h w] else
      parent ← GetBlockSummary repo (ParentID h);
      bs ← ballots fuel end_ (sumHeader parent);
      Ok (ballotOf h w :: bs)
  end.

Lemma addBlocks_ballots fuel end_ h js :
  addBlocks fuel end_ h js = (bs ← ballots fuel end_ h; Ok (addBallots js bs)).
Proof.
  revert h js. induction fuel as [|fuel IH]; intros h js; simpl;
    destruct (Header_Number h <? FINALITY fc); try done.
  destruct (voteWeight h) as [w|]; [|done]. simpl.
  destruct (Header_Number h <=? end_); [done|].
  destruct (GetBlockSummary repo (ParentID h)) as [s|]; [|done]. simpl. rewrite IH.
  by destruct (ballots fuel end_ (sumHeader s)).
Qed.

Definition firstJustifier sq (parentID : Bytes32) : result justifier :=
  let blockNum := Number parentID +u32 1 in
  sum ← chain_GetBlockSummary repo parentID (lastOfParentRound blockNum);
  let parentQ := if isFirstRound fc blockNum then 0
                 else default 0 (sq !! ID (sumHeader sum)) in
  '(tv, tw) ← thresholds states sum;
  Ok (newJustifier_empty parentQ (getCheckPoint blockNum) tv tw).

(** The justifier of a block, counted back to the checkpoint of the round. *)
Definition justifierOf sq h : result justifier :=
  js ← firstJustifier sq (ParentID h);
  addBlocks (blocksFuel h) (checkpoint js) h js.

Definition voting h : bool := negb ((Header_Number h =? 0) || (Header_Number h <? FINALITY fc)).

Definition stateOf sq h : result bftState :=
  if voting h then js ← justifierOf sq h; Ok (Summarize js) else Ok (MkBftState 0 false false).

(** ** The invariant of the caches *)
Context (HI : repo_inv repo) (HE : 0 < EpochLength < max32).
Context (evict_sub : ∀ V (m : gmap Bytes32 V), evict V m ⊆ m).
(** The headers the engine may see, which their ids tell apart. *)
Context (known : Header → Prop).
Context (known_inj : ∀ h h', known h → known h' → ID h = ID h' → h = h').
Context (known_repo : ∀ id s, hdrStore repo !! id = Some s → known (sumHeader s)).

(** In every round the votes of a signer carry one weight. *)
Definition steady_rounds : Prop := ∀ h bs, known h →
  ballots (blocksFuel h) (getCheckPoint (Header_Number h)) h = Ok bs → ∃ w, steady w bs.

Record cache_ok e : Prop := {
  co_quality : ∀ id q, qualityCache e !! id = Some q → q = default 0 (savedQuality e !! id);
  co_state : ∀ id st, stateCache e !! id = Some st →
    ∀ h, known h → ID h = id → stateOf (savedQuality e) h = Ok st;
  co_justifier : ∀ id js, justifierCache e !! id = Some js →
    ∀ h, known h → ID h = id → voting h = true ∧ justifierOf (savedQuality e) h = Ok js;
}.

(** Only the caches differ. *)
Definition same_data e e' : Prop :=
  savedQuality e' = savedQuality e ∧ savedFinalized e' = savedFinalized e ∧
  casts e' = casts e ∧ finalized e' = finalized e ∧ justifiedCache e' = justifiedCache e.

Definition kept e e' : Prop := same_data e e' ∧ cache_ok e'.

Lemma addCache_Some {V} k (v : V) (c : gmap Bytes32 V) k' v' :
  addCache evict k v c !! k' = Some v' → (k' = k ∧ v' = v) ∨ (k' ≠ k ∧ c !! k' = Some v').
Proof.
  intros E. unfold addCache in E. pose proof (lookup_weaken _ _ _ _ E (evict_sub _ _)) as E'.
  rewrite lookup_insert in E'. case_decide as D; [left|right]; split; congruence.
Qed.

Lemma same_data_refl e : same_data e e.
Proof. by unfold same_data. Qed.

Lemma kept_refl e : cache_ok e → kept e e.
Proof. by split; [apply same_data_refl|]. Qed.

Lemma kept_trans e1 e2 e3 : kept e1 e2 → kept e2 e3 → kept e1 e3.
Proof.
  intros [(A1 & A2 & A3 & A4 & A5) _] [(B1 & B2 & B3 & B4 & B5) C]. split; [|done].
  unfold same_data. by rewrite <- A1, <- A2, <- A3, <- A4, <- A5.
Qed.

Lemma getQuality_runs e id : cache_ok e →
  runs (getQuality id) (Ok (default 0 (savedQuality e !! id))) e (kept e).
Proof.
  intros Hc. unfold getQuality, Bft.getQuality, runs. unfold mbind, M_bind, gets.
  destruct (qualityCache e !! id) as [q|] eqn:E.
  - exists e. split; [|by apply kept_refl]. unfold mret, M_ret. by rewrite (co_quality _ Hc id q E).
  - eexists. split; [done|]. split; [done|]. destruct Hc as [Hq Hs Hj]. split; simpl; [|done|done].
    intros id' q' [[-> ->]|[_ E']]%addCache_Some; [done|]. by apply Hq.
Qed.

Lemma newJustifier_runs e pid : cache_ok e →
  runs (newJustifier pid) (firstJustifier (savedQuality e) pid) e (kept e).
Proof.
  intros Hc. unfold newJustifier, Bft.newJustifier, firstJustifier.
  eapply runs_bind; [by apply runs_lift, kept_refl|]. intros sum e1 _ K1. cbn zeta.
  eapply (runs_bind_ok _ _ (if isFirstRound fc (Number pid +u32 1) then 0
    else default 0 (savedQuality e !! ID (sumHeader sum)))) with (P := kept e).
  - destruct (isFirstRound fc (Number pid +u32 1)); [by apply runs_ret|].
    pose proof K1 as [(Es & _) C1]. rewrite <- Es.
    eapply runs_mono; [by apply getQuality_runs|]. intros e2 K2. by eapply kept_trans.
  - intros e2 K2. eapply runs_bind; [by apply runs_lift|].
    intros [tv tw] e3 _ K3. by apply runs_ret.
Qed.

(** ** Extending the justifier of the parent *)
Section extend.
Context (h p : Header) (s : BlockSummary).
Context (Hs : hdrStore repo !! ParentID h = Some s) (Hp : p = sumHeader s).
Context (Hvote : voting p = true).

Lemma parent_numbers : Header_Number p = Number (ParentID h) ∧ Header_Number h = Header_Number p + 1 ∧
  ParentID h ≠ genesisID repo ∧ 1 ≤ Header_Number p ∧ FINALITY fc ≤ Header_Number p ∧
  is_Some (hdrStore repo !! ParentID p) ∧ Header_Number p = Number (ParentID p) + 1 ∧
  Header_Number p < max32 - 1.
Proof.
  pose proof (header_number _ HI _ _ Hs) as En. rewrite <- Hp in En.
  pose proof (Header_Number_range p).
  apply negb_true_iff, orb_false_iff in Hvote as [Hv0%Z.eqb_neq HvF%Z.ltb_ge].
  assert (ParentID h ≠ genesisID repo) as Hng.
  { intros E. rewrite E, (ri_genesis_num _ HI) in En. done. }
  destruct (ri_parent _ HI _ _ Hs Hng) as (Hpp & Enp & Hlt). rewrite <- Hp in Hpp, Enp.
  assert (Header_Number h = Header_Number p + 1).
  { unfold Header_Number at 1. rewrite <- En, wrap32_id; ulia. }
  split_and!; try done; ulia.
Qed.

Lemma same_chain n : 0 ≤ n < Header_Number p →
  chain_GetBlockSummary repo (ParentID h) n = chain_GetBlockSummary repo (ParentID p) n.
Proof.
  intros Hn. destruct parent_numbers as (En & _ & Hng & _ & _ & [s' Hs'] & Enp & _).
  destruct (path_exists _ HI _ _ Hs') as [l Hl].
  assert (path repo (ParentID h) (l ++ [ParentID h])) as Hl'.
  { eapply path_step; [exact Hs|done|by rewrite <- Hp]. }
  unfold chain_GetBlockSummary. rewrite !(GetBlockID_path _ HI _ _ _ Hl') by lia.
  rewrite (GetBlockID_path _ HI _ _ _ Hl) by lia.
  pose proof (path_length _ HI _ _ Hl). by rewrite lookup_app_l by lia.
Qed.

(** Not a checkpoint: the same round as the parent. *)
Context (Hround : isCheckPoint (Header_Number h) = false).

Lemma same_round : Header_Number h / EpochLength = Header_Number p / EpochLength.
Proof.
  destruct parent_numbers as (_ & E & _ & ? & _). unfold isCheckPoint, getCheckPoint in Hround.
  apply Z.eqb_neq in Hround. rewrite E in *. set (n := Header_Number p) in *.
  pose proof (Z.mul_div_le (n + 1) EpochLength). pose proof (Z.mul_succ_div_gt (n + 1) EpochLength).
  apply Z.div_unique with (n - EpochLength * ((n + 1) / EpochLength)); [left|]; lia.
Qed.

Lemma firstJustifier_parent sq : firstJustifier sq (ParentID h) = firstJustifier sq (ParentID p).
Proof.
  destruct parent_numbers as (En & Eh & Hng & H1 & _ & Hpp & Enp & Hmax).
  unfold firstJustifier. pose proof same_round as Hr.
  rewrite !wrap32_id by ulia. rewrite <- En, <- Eh, <- Enp.
  assert (getCheckPoint (Header_Number h) = getCheckPoint (Header_Number p)) as Ec
    by (unfold getCheckPoint; by rewrite Hr).
  assert (lastOfParentRound (Header_Number h) = lastOfParentRound (Header_Number p)) as ->
    by (unfold lastOfParentRound; by rewrite Ec).
  assert (isFirstRound fc (Header_Number h) = isFirstRound fc (Header_Number p)) as ->
    by (unfold isFirstRound; by rewrite Hr).
  rewrite Ec. rewrite same_chain; [done|].
  unfold lastOfParentRound, getCheckPoint.
  pose proof (Z.mul_div_le (Header_Number p) EpochLength).
  destruct (Z.ltb_spec 0 (Header_Number p / EpochLength * EpochLength)); [|lia].
  rewrite wrap32_id by ulia. lia.
Qed.

Lemma ballots_parent end_ : end_ = getCheckPoint (Header_Number p) →
  ballots (blocksFuel h) end_ h =
    (w ← voteWeight h; bs ← ballots (blocksFuel p) end_ p; Ok (ballotOf h w :: bs)).
Proof.
  intros ->. destruct parent_numbers as (En & Eh & _ & H1 & HF & _).
  unfold blocksFuel at 1. replace (Z.to_nat (Header_Number h)) with (blocksFuel p)
    by (unfold blocksFuel; lia).
  cbn [ballots]. destruct (Z.ltb_spec (Header_Number h) (FINALITY fc)); [lia|].
  destruct (voteWeight h) as [w|]; [|done]. simpl.
  destruct (Z.leb_spec (Header_Number h) (getCheckPoint (Header_Number p))) as [Hle|_].
  { unfold getCheckPoint in Hle. pose proof (Z.mul_div_le (Header_Number p) EpochLength). lia. }
  unfold GetBlockSummary. rewrite Hs. simpl. by rewrite <- Hp.
Qed.

Lemma firstJustifier_empty sq pid js : firstJustifier sq pid = Ok js →
  ∃ pq tv tw, js = newJustifier_empty pq (getCheckPoint (Number pid +u32 1)) tv tw.
Proof.
  unfold firstJustifier. destruct (chain_GetBlockSummary _ _ _); [|done]. simpl.
  destruct (thresholds states _) as [[tv tw]|]; [|done]. simpl. intros [= <-]. eauto.
Qed.

Lemma extend_justifier sq js : steady_rounds → known h →
  justifierOf sq p = Ok js →
  justifierOf sq h = (w ← voteWeight h; Ok (addBallot js (ballotOf h w))).
Proof.
  intros Hst Hk. unfold justifierOf. rewrite firstJustifier_parent.
  destruct (firstJustifier sq (ParentID p)) as [js0|] eqn:E0; [|done].
  cbn [mbind result_bind]. rewrite !addBlocks_ballots.
  destruct parent_numbers as (En & Eh & _ & H1 & HF & _ & Enp & Hmax).
  apply firstJustifier_empty in E0 as (pq & tv & tw & ->). cbn [checkpoint newJustifier_empty].
  rewrite wrap32_id by ulia. rewrite <- Enp. rewrite ballots_parent by done.
  destruct (ballots (blocksFuel p) (getCheckPoint (Header_Number p)) p) as [bs|] eqn:Eb; [|done].
  simpl. intros [= <-]. destruct (voteWeight h) as [w|] eqn:Ew; [|done]. simpl. f_equal.
  destruct (Hst h (ballotOf h w :: bs) Hk) as [wt Hw].
  { rewrite ballots_parent by (unfold getCheckPoint; by rewrite same_round).
    rewrite Ew. cbn [mbind result_bind]. unfold getCheckPoint in Eb |- *. by rewrite same_round, Eb. }
  set (js0 := newJustifier_empty _ _ _ _).
  change (addBallots (addBallot js0 (ballotOf h w)) bs)
    with (addBallots js0 (ballotOf h w :: bs)).
  replace (addBallot (addBallots js0 bs) (ballotOf h w)) with (addBallots js0 (bs ++ [ballotOf h w]))
    by (unfold addBallots; by rewrite foldl_app).
  eapply (holds_det wt js0); [apply (holds_all wt js0 []); [apply holds_empty|done]| |].
  - apply (holds_all wt js0 []); [apply holds_empty|]. intros b Hb. apply Hw.
    apply elem_of_app in Hb as [Hb|Hb]; [by right|]. apply list_elem_of_singleton in Hb as ->. by left.
  - simpl. apply Permutation_cons_append.
Qed.
End extend.

(** ** The answers *)
Lemma justifierCache_delete e k : cache_ok e →
  kept e (e <| justifierCache := delete k (justifierCache e) |>).
Proof.
  intros [Hq Hs Hj]. split; [done|]. split; simpl; [done|done|].
  intros id js [_ E]%lookup_delete_Some. by apply Hj.
Qed.

Lemma caches_add e h js : cache_ok e → known h → voting h = true →
  justifierOf (savedQuality e) h = Ok js →
  kept e (e <| stateCache := addCache evict (ID h) (Summarize js) (stateCache e) |>
            <| justifierCache := addCache evict (ID h) js (justifierCache e) |>).
Proof.
  intros [Hq Hs Hj] Hk Hv Ej. split; [done|]. split; simpl; [done|..].
  - intros id st [[-> ->]|[_ E]]%addCache_Some h' Hk' Eid; [|by apply (Hs id)].
    rewrite (known_inj h' h) by done. unfold stateOf. by rewrite Hv, Ej.
  - intros id js' [[-> ->]|[_ E]]%addCache_Some h' Hk' Eid; [|by apply (Hj id)].
    by rewrite (known_inj h' h).
Qed.

(** Counting the rest of the round on the justifier of the round's start, or of
    the parent. *)
Lemma count_runs e h js end_ : cache_ok e → known h → voting h = true →
  addBlocks (blocksFuel h) end_ h js = justifierOf (savedQuality e) h →
  runs (js ← lift (addBlocks (blocksFuel h) end_ h js);
        modify (λ e, e <| stateCache := addCache evict (ID h) (Summarize js) (stateCache e) |>) ;;
        modify (λ e, e <| justifierCache := addCache evict (ID h) js (justifierCache e) |>) ;;
        mret (Summarize js))
    (js ← justifierOf (savedQuality e) h; Ok (Summarize js)) e (kept e).
Proof.
  intros Hc Hk Hv ->. eapply runs_bind with (P := λ e', e' = e); [by apply runs_lift|].
  intros js' e' Ej ->. eexists. split; [done|]. by apply (caches_add e h js').
Qed.

Lemma scratch_runs e h : cache_ok e → known h → voting h = true →
  runs ('(js, end_) ← (js ← newJustifier (ParentID h); mret (js, checkpoint js));
        js ← lift (addBlocks (blocksFuel h) end_ h js);
        modify (λ e, e <| stateCache := addCache evict (ID h) (Summarize js) (stateCache e) |>) ;;
        modify (λ e, e <| justifierCache := addCache evict (ID h) js (justifierCache e) |>) ;;
        mret (Summarize js))
    (js ← justifierOf (savedQuality e) h; Ok (Summarize js)) e (kept e).
Proof.
  intros Hc Hk Hv. pose proof (newJustifier_runs e (ParentID h) Hc) as Hn.
  destruct (firstJustifier (savedQuality e) (ParentID h)) as [js|x] eqn:Ef.
  - eapply (runs_bind_ok _ _ (js, checkpoint js)) with (P := kept e).
    { destruct Hn as (e' & E & K). exists e'. split; [|done]. unfold mbind, M_bind. by rewrite E. }
    intros e' [D C]. pose proof D as (Es & _). rewrite <- Es. eapply runs_mono.
    + apply count_runs; try done. unfold justifierOf. by rewrite Es, Ef.
    + intros e2 K2. by eapply kept_trans.
  - unfold justifierOf. rewrite Ef. simpl. unfold runs, mbind, M_bind. by rewrite Hn.
Qed.

Lemma computeState_runs e h : steady_rounds → cache_ok e → known h →
  (voting h = true → is_Some (hdrStore repo !! ParentID h)) →
  runs (computeState h) (stateOf (savedQuality e) h) e (kept e).
Proof.
  intros Hst Hc Hk Hpar. unfold computeState, Bft.computeState.
  eapply (runs_bind_ok _ _ (stateCache e !! ID h)) with (P := λ e', e' = e); [by exists e|].
  intros e' ->. destruct (stateCache e !! ID h) as [st|] eqn:Ec.
  { rewrite (co_state _ Hc _ _ Ec h Hk eq_refl). by apply runs_ret, kept_refl. }
  unfold stateOf. unfold voting in *. destruct (_ || _) eqn:Hv; simpl negb in *; cbn iota.
  { by apply runs_ret, kept_refl. }
  assert (voting h = true) as Hvt by (unfold voting; by rewrite Hv).
  destruct Hpar as [s Hs]; [done|].
  eapply (runs_bind_ok _ _ (justifierCache e !! ParentID h)) with (P := λ e', e' = e); [by exists e|].
  intros e' ->. pose proof (justifierCache_delete e (ParentID h) Hc) as K0.
  set (e0 := e <| justifierCache := _ |>) in K0.
  eapply (runs_bind_ok _ _ tt) with (P := λ e', e' = e0); [by exists e0|].
  intros e' ->. change (savedQuality e) with (savedQuality e0). destruct K0 as [D0 C0].
  assert (∀ P, runs P (js ← justifierOf (savedQuality e0) h; Ok (Summarize js)) e0 (kept e0) →
    runs P (js ← justifierOf (savedQuality e0) h; Ok (Summarize js)) e0 (kept e)) as Hw.
  { intros P HP. eapply runs_mono; [exact HP|]. intros e2 K2.
    exact (kept_trans e e0 e2 (conj D0 C0) K2). }
  apply Hw. destruct (justifierCache e !! ParentID h) as [js|] eqn:Ej; [|by apply scratch_runs].
  destruct (isCheckPoint (Header_Number h)) eqn:Ecp; simpl negb; cbn iota; [by apply scratch_runs|].
  destruct (co_justifier _ Hc _ _ Ej (sumHeader s)) as [Hvp Ejp];
    [by eapply known_repo|by apply (ri_id _ HI)|].
  eapply (runs_bind_ok _ _ (js, Header_Number h)) with (P := λ e', e' = e0); [by exists e0|].
  intros e' ->. apply count_runs; try done.
  rewrite (extend_justifier h (sumHeader s) s Hs eq_refl Hvp Ecp _ js) by done.
  destruct (parent_numbers h (sumHeader s) s Hs eq_refl Hvp) as (_ & Eh & _ & H1 & HF & _).
  rewrite addBlocks_ballots. unfold blocksFuel. cbn [ballots].
  destruct (Z.ltb_spec (Header_Number h) (FINALITY fc)); [lia|].
  destruct (voteWeight h) as [w|]; [|done]. simpl. by rewrite Z.leb_refl.
Qed.
End caches.
