(* ===== verification/BftFinality.v ===== *)
(** * Finality moves forward

    The engine changes its finalized checkpoint only when a block concludes a
    committed round, and then to a block of that block's chain, not before the
    previous one.  These facts do not depend on what the caches hold. *)

From S2P Require Import Prelude Bytes External Thor Block Tx ChainRepo ChainRepoInv.
From S2P Require Import Validation Staker Bft BftVotes BftCaches.

Section finality.
Context `{CFG : Config} `{Rlp} `{CS : CryptoSpec}.
Context (fc : ForkConfig) (master : Address) (repo : ChainRepo) (states : gmap Bytes32 Staker).
Context (evict : ∀ V, gmap Bytes32 V → gmap Bytes32 V).
Implicit Types (h : Header) (e : Engine).

Abbreviation computeState := (computeState fc evict repo states).
Abbreviation findCheckpointByQuality := (findCheckpointByQuality fc evict repo).
Abbreviation CommitBlock := (CommitBlock fc evict repo states).
Abbreviation commitRound := (commitRound fc evict repo states).

(** The finalized checkpoint, and the saved one, stay. *)
Definition same_final e e' : Prop :=
  savedFinalized e' = savedFinalized e ∧ finalized e' = finalized e.

Lemma same_final_refl e : same_final e e.
Proof. done. Qed.

(** Whatever [m] answers, it leaves the finalized checkpoint alone. *)
Definition reads {A} (m : M Engine A) : Prop :=
  ∀ e, wp m (λ _ e', same_final e e') (λ _, True) e.

Lemma same_final_trans e1 e2 e3 : same_final e1 e2 → same_final e2 e3 → same_final e1 e3.
Proof. unfold same_final. intuition congruence. Qed.

Lemma reads_bind {A B} (m : M Engine A) (k : A → M Engine B) :
  reads m → (∀ a, reads (k a)) → reads (x ← m; k x).
Proof.
  intros Hm Hk e. apply wp_bind. eapply wp_mono; [apply Hm| |done].
  intros a e1 E1. eapply wp_mono; [apply Hk| |done]. intros b e2 E2.
  exact (same_final_trans e e1 e2 E1 E2).
Qed.

Lemma reads_ret {A} (a : A) : reads (mret a).
Proof. intros e. apply wp_ret, same_final_refl. Qed.

Lemma reads_gets {A} (f : Engine → A) : reads (gets f).
Proof. intros e. apply wp_gets, same_final_refl. Qed.

Lemma reads_fail {A} x : reads (A := A) (fail x).
Proof. intros e. by apply wp_fail. Qed.

Lemma reads_lift {A} (r : result A) : reads (lift r).
Proof. intros e. apply wp_lift. destruct r; [apply same_final_refl|done]. Qed.

Lemma reads_modify (f : Engine → Engine) : (∀ e, same_final e (f e)) → reads (modify f).
Proof. intros Hf e. by apply wp_modify. Qed.

Ltac reads := repeat first
  [ progress intros | apply reads_bind | apply reads_ret | apply reads_gets | apply reads_fail
  | apply reads_lift | (apply reads_modify; done) | progress case_match ].

Lemma getQuality_reads id : reads (getQuality evict id).
Proof. unfold getQuality. reads. Qed.

Lemma newJustifier_reads pid : reads (newJustifier fc evict repo states pid).
Proof. unfold newJustifier. reads. Qed.

Lemma computeState_reads h : reads (computeState h).
Proof. unfold computeState, Bft.computeState. reads. Qed.

Lemma qualityOfRound_reads headID start i : reads (qualityOfRound evict repo headID start i).
Proof. unfold qualityOfRound. reads. Qed.

Lemma searchM_reads fuel f i j e : (∀ k, reads (f k)) →
  wp (searchM fuel f i j) (λ k e', same_final e e' ∧ (i ≤ j → i ≤ k ≤ j)) (λ _, True) e.
Proof.
  intros Hf. revert i j e. induction fuel as [|fuel IH]; intros i j e; simpl.
  - destruct (Z.ltb_spec i j); [by apply wp_fail|]. apply wp_ret. split; [apply same_final_refl|lia].
  - destruct (Z.ltb_spec i j) as [Hlt|Hge];
      [|apply wp_ret; split; [apply same_final_refl|lia]].
    apply wp_bind. eapply wp_mono; [apply Hf| |done]. intros b e1 E1. simpl.
    assert (i ≤ (i + j) / 2 < j).
    { split; [apply Z.div_le_lower_bound; lia|apply Z.div_lt_upper_bound; lia]. }
    destruct b; (eapply wp_mono; [apply IH| |done]); intros k e2 [E2 Hk];
      (split; [exact (same_final_trans e e1 e2 E1 E2)|lia]).
Qed.

Lemma findCheckpoint_reads target fin headID : reads (findCheckpointByQuality target fin headID).
Proof.
  unfold findCheckpointByQuality, Bft.findCheckpointByQuality. apply reads_bind; [|reads].
  intros e. eapply wp_mono; [apply searchM_reads; reads| |done]. by intros k e' [? _].
Qed.

Lemma castOf_reads fuel fin head cur c :
  reads (castOf fc master evict repo states fuel fin head cur c).
Proof.
  revert cur. induction fuel as [|fuel IH]; intros cur; simpl; [apply reads_fail|].
  apply reads_bind; [apply reads_lift|]. intros sum. case_match.
  - apply reads_bind; [apply computeState_reads|]. reads.
  - case_match; [apply reads_ret|apply IH].
Qed.

Lemma newCasts_reads : reads (newCasts fc master evict repo states).
Proof.
  unfold newCasts. apply reads_bind; [apply reads_gets|]. intros fin.
  apply reads_bind; [|intros c; by apply reads_modify].
  generalize (∅ : gmap Bytes32 Z). induction (ScanHeads repo (Number fin)) as [|hd l IH]; intros c;
    cbn [foldM]; [apply reads_ret|]. apply reads_bind; [apply castOf_reads|done].
Qed.

Lemma ShouldVote_reads pid : reads (ShouldVote fc master evict repo states pid).
Proof.
  unfold ShouldVote. apply reads_bind; [apply reads_gets|]. intros c.
  apply reads_bind; [unfold when; case_match; [apply newCasts_reads|apply reads_ret]|]. intros _.
  case_match; [apply reads_ret|]. apply reads_bind; [apply reads_lift|]. intros sum.
  apply reads_bind; [apply computeState_reads|]. intros st. case_match; [apply reads_ret|].
  apply reads_bind; [apply reads_gets|]. intros fin.
  apply reads_bind; [|reads]. unfold recentJustified. case_match; [apply reads_lift|].
  apply reads_bind; [apply reads_lift|]. intros prev. apply findCheckpoint_reads.
Qed.

(** ** The search returns a block of the chain, from the start on *)
Context (HI : repo_inv repo) (HE : 0 < EpochLength < max32).

Lemma findCheckpoint_on_chain target fin headID l e :
  path repo headID l → 0 ≤ searchStart fc fin ≤ Number headID → Number headID < max32 →
  wp (findCheckpointByQuality target fin headID)
    (λ id e', same_final e e' ∧ id ∈ l ∧ searchStart fc fin ≤ Number id) (λ _, True) e.
Proof.
  intros Hl Hstart Hmax. unfold findCheckpointByQuality, Bft.findCheckpointByQuality.
  set (start := searchStart fc fin) in *. rewrite (wrap32_id (Number headID - start)) by ulia.
  set (n := (Number headID - start) / EpochLength + 1).
  assert (0 ≤ (Number headID - start) / EpochLength) by (apply Z.div_pos; lia).
  apply wp_bind. eapply wp_mono; [apply searchM_reads; reads| |done].
  intros k e1 [E1 Hk]. simpl. specialize (Hk ltac:(lia)).
  destruct (Z.eqb_spec k n) as [->|Hkn]; [by apply wp_fail|].
  apply wp_bind. eapply wp_mono; [apply qualityOfRound_reads| |done]. intros q e2 E2. simpl.
  destruct (negb (q =? target)); [by apply wp_fail|]. apply wp_lift.
  assert (k * EpochLength ≤ Number headID - start) as Hke.
  { pose proof (Z.mul_div_le (Number headID - start) EpochLength). nia. }
  rewrite (wrap32_id k) by (unfold_int; nia).
  rewrite (wrap32_id (k * EpochLength)) by (unfold_int; nia).
  rewrite (wrap32_id (start + _)) by (unfold_int; nia).
  rewrite (GetBlockID_path _ HI _ _ _ Hl) by nia.
  destruct (l !! Z.to_nat (start + k * EpochLength)) as [id|] eqn:Ei; [|done].
  split; [exact (same_final_trans e e1 e2 E1 E2)|]. split; [by eapply list_elem_of_lookup_2|].
  rewrite (path_number _ HI _ _ _ _ Hl Ei). nia.
Qed.

(** ** Committing a block *)

(** The finalized checkpoint is stored, and saved unless it is the genesis block. *)
Definition finalized_ok e : Prop :=
  (∃ s, hdrStore repo !! finalized e = Some s) ∧
  default (genesisID repo) (savedFinalized e) = finalized e.

(** [a] is [b] or an ancestor of it. *)
Definition ancestor (a b : Bytes32) : Prop := ∃ l, path repo b l ∧ a ∈ l.

Lemma ancestor_refl b s : hdrStore repo !! b = Some s → ancestor b b.
Proof.
  intros Hs. destruct (path_exists _ HI _ _ Hs) as [l Hl]. exists l. split; [done|].
  apply path_last in Hl. by apply last_Some_elem_of.
Qed.

(** On one chain, the block that is not later is the ancestor. *)
Lemma ancestor_on_path id l a b : path repo id l → a ∈ l → b ∈ l → Number a ≤ Number b →
  ancestor a b.
Proof.
  intros Hl [i Hi]%list_elem_of_lookup [j Hj]%list_elem_of_lookup Hn.
  rewrite (path_number _ HI _ _ _ _ Hl Hi), (path_number _ HI _ _ _ _ Hl Hj) in Hn.
  exists (take (S j) l). split; [by eapply path_prefix|].
  apply elem_of_take. exists i. split; [done|lia].
Qed.

Definition advances e e' : Prop := ancestor (finalized e) (finalized e') ∧ finalized_ok e'.

Lemma advances_same e : finalized_ok e → advances e e.
Proof. intros [[s Hs] ?]. split; [by eapply ancestor_refl|]. by split; [eexists|]. Qed.

Lemma commitRound_advances h l e : path repo (ID h) l → finalized_ok e → finalized e ∈ l →
  0 ≤ FINALITY fc ≤ Header_Number h →
  kp (commitRound h) (λ _ e', advances e e') e.
Proof.
  intros Hl Hok0 Hin HF. pose proof Hok0 as [[s Hs] Hsaved]. unfold commitRound, Bft.commitRound. apply kp_bind, kp_keep.
  eapply wp_mono; [apply computeState_reads| |].
  2: { intros x _. by apply advances_same. }
  intros st e1 [Es Ef]. simpl.
  apply kp_bind, kp_keep, wp_modify. apply kp_bind, kp_keep, wp_modify.
  assert (finalized_ok e1) as Hok by (split; rewrite ?Ef, ?Es; [by eexists|done]).
  apply kp_when; intros _;
    [|split; [simpl; rewrite Ef; by eapply ancestor_refl|exact Hok]].
  apply kp_keep. apply (wp_mono _ (λ _ e', advances e e') _ (λ _, True)); [|done|].
  2: { intros x _. split; [simpl; rewrite Ef; by eapply ancestor_refl|exact Hok]. }
  apply wp_bind, wp_gets. cbn [finalized]. apply wp_bind.
  assert (Number (ID h) = Header_Number h) as En by apply Number_ID.
  pose proof (Header_Number_range h) as Hr.
  assert (∃ i, l !! i = Some (finalized e) ∧ Number (finalized e) = Z.of_nat i) as (i & Hi & Ei).
  { apply list_elem_of_lookup in Hin as [i Hi]. exists i. split; [done|].
    by apply (path_number _ HI _ _ _ _ Hl). }
  assert (0 ≤ searchStart fc (finalized e) ≤ Header_Number h ∧
    Number (finalized e) ≤ searchStart fc (finalized e)) as [Hst Hle].
  { unfold searchStart. destruct (Z.eqb_spec (Number (finalized e)) 0) as [E0|E0].
    - unfold getCheckPoint. pose proof (Z.mul_div_le (FINALITY fc) EpochLength).
      assert (0 ≤ FINALITY fc / EpochLength) by (apply Z.div_pos; lia). nia.
    - apply lookup_lt_Some in Hi. pose proof (path_length _ HI _ _ Hl). lia. }
  eapply wp_mono; [apply (findCheckpoint_on_chain _ _ _ l); simpl; rewrite ?Ef; [done|lia|ulia]| |done].
  simpl. intros id e2 ([Es2 Ef2] & Hid & Hge). apply wp_modify. simpl in *.
  split; simpl; [|split; simpl; [by eapply path_elem_stored|done]].
  eapply ancestor_on_path; [exact Hl|done|done|]. rewrite Ef in Hge. lia.
Qed.

Lemma CommitBlock_advances h l packing e :
  path repo (ID h) l → finalized_ok e → finalized e ∈ l → 0 ≤ FINALITY fc ≤ Header_Number h →
  kp (CommitBlock h packing) (λ _ e', advances e e') e.
Proof.
  intros Hl Hok Hin HF. unfold CommitBlock, Bft.CommitBlock. apply kp_bind.
  apply kp_mono with (Q := λ _ e', advances e e').
  - apply kp_when; intros _; [by apply (commitRound_advances h l)|by apply advances_same].
  - intros [u|x] e1 Ha; [|done]. apply kp_when; intros _; [|done]. apply kp_keep.
    apply (wp_mono _ (λ _ e', advances e e') _ (λ _, True)); [|done|done].
    apply wp_bind. eapply wp_mono; [apply computeState_reads| |done].
    intros st e2 [Es Ef]. apply wp_bind, wp_lift.
    destruct (GetBlockID repo (ID h) (getCheckPoint (Header_Number h))) as [cp|]; [|done].
    assert (advances e e2) as Ha2.
    { unfold advances, finalized_ok in *. by rewrite Ef, Es. }
    unfold Mark. apply wp_bind, wp_gets. destruct (casts e2); [|by apply wp_fail].
    by apply wp_modify.
Qed.
End finality.
