(* ===== verification/Node.v ===== *)
(** * The node: processing and proposing blocks

    [src/cmd/thor/node/block_exec.go] and the packing part of
    [packer_loop.go]: the checks before a block is executed, the choice of the
    best block and the order in which the states, the repository and the
    finality engine take the block in.  The outcome of executing a block, and
    the block a packing flow produces, are arguments here.  A failed operation
    leaves what it did before the error: a block whose commit fails in the
    engine stays stored.  The log database, metrics and broadcasts are left
    out. *)

From S2P Require Import Prelude Bytes External Thor Block Tx ChainRepo.
From S2P Require Import Validation Staker Bft.

Section node.
Context `{CFG : Config} `{Rlp} `{Crypto}.

Record Node := MkNode {
  nRepo : ChainRepo;
  nEngine : Engine;
  nStates : gmap Bytes32 Staker;   (* by state root *)
  nMaxBlockNum : Z;
}.
#[global] Instance eta_Node : Eta Node := λ n,
  MkNode (nRepo n) (nEngine n) (nStates n) (nMaxBlockNum n).

Definition errKnownBlock : error := ErrInternal "block already in the chain".
Definition errParentMissing : error := ErrInternal "parent block is missing".
Definition errBFTRejected : error := ErrInternal "block rejected by BFT engine".
Definition errBlockTemporaryUnprocessable : error := ErrInternal "block temporary unprocessable".

Context (forkConfig : ForkConfig) (master : Address).
Context (evict : ∀ V, gmap Bytes32 V → gmap Bytes32 V).

(** [Consensus.Process]: the state after the block, and the receipts. *)
Definition processor : Type :=
  ChainRepo → gmap Bytes32 Staker → BlockSummary → block → Z → result (Staker * list Receipt).

(** An operation of the engine on the node's repository and states. *)
Definition onEngine {A} (op : ChainRepo → gmap Bytes32 Staker → K Engine A) : K Node A := λ n,
  let '(e, r) := op (nRepo n) (nStates n) (nEngine n) in (n <| nEngine := e |>, r).

(** When the engine fails, the state and the block stay stored. *)
Definition commitBlock (size : Z) (b : block) (st : Staker) (receipts : list Receipt)
    (conflicts : Z) (becomeBest packing : bool) : K Node unit :=
  keep (modify (λ n, n <| nStates := <[StateRoot (blkHeader b) := st]> (nStates n) |>)) ;;
  keep (zoom nRepo (AddBlock size b receipts conflicts becomeBest)) ;;
  kwhen (FINALITY forkConfig <=? Header_Number (blkHeader b))
    (onEngine (λ r s, CommitBlock forkConfig evict r s (blkHeader b) packing)).

Definition executeAndCommitBlock (Process : processor) (size : Z) (b : block) (conflicts : Z)
    : K Node bool :=
  let h := blkHeader b in
  r ← keep (gets nRepo);
  keep (reject ((0 <? conflicts) && bool_decide (is_Some (hdrStore r !! ID h))) errKnownBlock) ;;
  parentSummary ← keep (need (hdrStore r !! ParentID h) errParentMissing);
  let prevBest := sumHeader (bestSummary r) in
  ok ← onEngine (λ r s, keep (Accepts r (ParentID h)));
  keep (reject (negb ok) errBFTRejected) ;;
  s ← keep (gets nStates);
  '(st, receipts) ← keep (lift (Process r s parentSummary b conflicts));
  becomeBest ←
    (if (FINALITY forkConfig <=? Header_Number h) && (FINALITY forkConfig <=? Header_Number prevBest)
     then onEngine (λ r s, keep (Select forkConfig evict r s h))
     else mret (BetterThan h prevBest));
  commitBlock size b st receipts conflicts becomeBest false ;;
  mret becomeBest.

(** The counter is raised only when the block was processed without error. *)
Definition guardBlockProcessing {A} (blockNum : Z) (process : Z → K Node A) : K Node A :=
  maxNum ← keep (gets nMaxBlockNum);
  if maxNum <? blockNum then
    keep (reject (maxNum +u32 1 <? blockNum) errBlockTemporaryUnprocessable) ;;
    a ← process 0;
    keep (modify (λ n, n <| nMaxBlockNum := blockNum |>)) ;;
    mret a
  else
    conflicts ← keep (gets (λ n, ScanConflicts (nRepo n) blockNum));
    process conflicts.

(** A known block is ignored. *)
Definition processBlock (Process : processor) (size : Z) (b : block) : K Node bool := λ n,
  match guardBlockProcessing (Header_Number (blkHeader b))
          (λ conflicts, executeAndCommitBlock Process size b conflicts) n with
  | (n', Err e) => (n', if bool_decide (e = errKnownBlock) then Ok false else Err e)
  | ok => ok
  end.

(** What packing a flow yields when the vote is decided. *)
Definition packed : Type := Z → bool → result (block * Staker * list Receipt).

(** The parent is not checked against the finalized checkpoint. *)
Definition proposeAndCommit (parentID : Bytes32) (number : Z) (Pack : packed) (size : Z)
    (conflicts : Z) : K Node unit :=
  shouldVote ←
    (if FINALITY forkConfig <=? number
     then onEngine (λ r s, keep (ShouldVote forkConfig master evict r s parentID)) else mret false);
  '(b, st, receipts) ← keep (lift (Pack conflicts shouldVote));
  commitBlock size b st receipts conflicts true true.

Definition doPack (parentID : Bytes32) (number : Z) (Pack : packed) (size : Z) : K Node unit :=
  guardBlockProcessing number (proposeAndCommit parentID number Pack size).
End node.
