(* ===== verification/NodeCorrect.v ===== *)
(** * Finality along a run of the node

    The node receives and proposes blocks, restarts, and loses cache entries.
    Whatever blocks arrive in whatever order, the finalized checkpoint only
    moves to descendants, and every block the node takes in extends the
    checkpoint that was finalized at that time. *)

From S2P Require Import Prelude Bytes External Thor Block Tx ChainRepo ChainRepoInv.
From S2P Require Import Validation Staker Bft BftVotes BftCaches BftFinality Node.
From S2P Require Import ChainDemo StakerChain Scenario.

(** ** Facts of the repository *)
Section repository.
Context `{Rlp} `{CS : CryptoSpec}.

Lemma number_0_genesis r id s : repo_inv r → hdrStore r !! id = Some s → Number id = 0 →
  id = genesisID r.
Proof.
  intros HI Hs E. destruct (path_exists _ HI _ _ Hs) as [l Hl].
  pose proof (path_length _ HI _ _ Hl) as Hlen. rewrite E in Hlen.
  destruct Hl as [|id s' l Hs' Hne Hl]; [done|].
  pose proof (path_length _ HI _ _ Hl). rewrite length_app in Hlen. simpl in Hlen.
  destruct Hl; simpl in *; [lia|]. rewrite length_app in *. simpl in *. lia.
Qed.

Lemma genesis_on_path r id l : path r id l → genesisID r ∈ l.
Proof. induction 1; [by left|]. apply elem_of_app. by left. Qed.

Lemma ancestor_mono r r' x y : genesisID r' = genesisID r → hdrStore r ⊆ hdrStore r' →
  ancestor r x y → ancestor r' x y.
Proof. intros Eg Hsub (l & Hl & Ha). exists l. split; [|done]. by eapply path_mono. Qed.

Lemma ancestor_trans r x y z : ancestor r x y → ancestor r y z → ancestor r x z.
Proof.
  intros (l & Hl & Ha) (l' & Hl' & [i Hi]%list_elem_of_lookup). exists l'. split; [done|].
  pose proof (path_prefix _ _ _ _ _ Hl' Hi) as Hp. rewrite (path_unique _ _ _ _ Hl Hp) in Ha.
  apply elem_of_take in Ha as (j & Hj & _). by eapply list_elem_of_lookup_2.
Qed.

(** A number without conflicts has no block. *)
Lemma scan_fresh r h : repo_inv r → ScanConflicts r (Header_Number h) = 0 → hdrStore r !! ID h = None.
Proof.
  intros HI E. destruct (hdrStore r !! ID h) as [s|] eqn:Hs; [|done].
  destruct (ri_conflicts _ HI _ _ Hs) as [[H1 H2] _]. rewrite Number_ID, E in H2. lia.
Qed.

Lemma GetMaxBlockNum_spec r : repo_inv r →
  (∀ id s, hdrStore r !! id = Some s → Number id ≤ GetMaxBlockNum r) ∧
  0 ≤ GetMaxBlockNum r < max32 - 1.
Proof.
  intros HI. unfold GetMaxBlockNum.
  assert (∀ l, (∀ id, id ∈ l → Number id ≤ foldr (λ id acc, Z.max (Number id) acc) 0 l) ∧
    0 ≤ foldr (λ id acc, Z.max (Number id) acc) 0 l) as Hl.
  { induction l as [|x l [IH1 IH2]]; simpl; [split; [set_solver|done]|]. split; [|lia].
    intros id [->|Hid]%elem_of_cons; [lia|]. specialize (IH1 id Hid). lia. }
  destruct (Hl (elements (dom (hdrStore r)))) as [H1 H2]. split_and!; try done.
  - intros id s Hs. apply H1, elem_of_elements, elem_of_dom. eauto.
  - assert (∀ l, (∀ id, id ∈ l → Number id < max32 - 1) →
      foldr (λ id acc, Z.max (Number id) acc) 0 l < max32 - 1) as Hb.
    { induction l as [|x l IH]; simpl; intros Hx; [ulia|]. specialize (IH ltac:(intros; apply Hx; by right)).
      specialize (Hx x ltac:(by left)). lia. }
    apply Hb. intros id [s Hs]%elem_of_elements%elem_of_dom.
    destruct (decide (id = genesisID r)) as [->|Hne]; [rewrite (ri_genesis_num _ HI); ulia|].
    by destruct (ri_parent _ HI _ _ Hs Hne) as (_ & _ & ?).
Qed.
End repository.

Section run.
Context `{CFG : Config} `{Rlp} `{CS : CryptoSpec}.
Context (fc : ForkConfig) (master : Address).
Context (HE : 0 < EpochLength < max32) (HF : 0 ≤ FINALITY fc).
Implicit Types (n : Node) (b : block).

(** What the node relies on when it stores a block. *)
Definition storable b (rcs : list Receipt) : Prop :=
  NoDup (Tx_ID <$> blkTxs b) ∧ length rcs = length (blkTxs b) ∧
  Z.of_nat (length (blkTxs b)) < max64.

Definition process_ok (Process : processor) : Prop :=
  ∀ r s ps b conf st rcs, Process r s ps b conf = Ok (st, rcs) → storable b rcs.

Definition pack_ok (r : ChainRepo) (parentID : Bytes32) (number : Z) (Pack : packed) : Prop :=
  ∀ conf v b st rcs, Pack conf v = Ok (b, st, rcs) →
    ParentID (blkHeader b) = parentID ∧ Header_Number (blkHeader b) = number ∧ storable b rcs ∧
    hdrStore r !! ID (blkHeader b) = None.

(** The node counts the blocks of a number right: above the counter, where it
    counts none, none is stored.  This holds from a start of the node on as long
    as no commit of a new highest block fails in the engine: such a block is
    stored and the counter is not raised. *)
Definition counted n (num : Z) : Prop :=
  nMaxBlockNum n < num → ScanConflicts (nRepo n) num = 0.

(** Steps of the node, successful or not.  The packing flow's parent is one that
    [parents] allows: [doPack] does not check it. *)
Inductive node_step (parents : Node → Bytes32 → Prop) : Node → Node → Prop :=
  | step_receive evict Process size b n :
      process_ok Process → Header_Number (blkHeader b) < max32 - 1 →
      ScanConflicts (nRepo n) (Header_Number (blkHeader b)) < max32 →
      counted n (Header_Number (blkHeader b)) →
      node_step parents n (processBlock fc evict Process size b n).1
  | step_propose evict parentID number Pack size n :
      pack_ok (nRepo n) parentID number Pack → number < max32 - 1 →
      ScanConflicts (nRepo n) number < max32 → counted n number → parents n parentID →
      node_step parents n (doPack fc master evict parentID number Pack size n).1
  | step_caches e' n : same_final (nEngine n) e' → node_step parents n (n <| nEngine := e' |>)
  | step_restart n :
      node_step parents n
        (n <| nEngine := NewEngine (nRepo n) (savedQuality (nEngine n)) (savedFinalized (nEngine n)) |>
           <| nMaxBlockNum := GetMaxBlockNum (nRepo n) |>).

(** The parent descends from the finalized checkpoint. *)
Definition extends_final n (parentID : Bytes32) : Prop :=
  ancestor (nRepo n) (finalized (nEngine n)) parentID.

Record node_ok n : Prop := {
  no_repo : repo_inv (nRepo n);
  no_final : finalized_ok (nRepo n) (nEngine n);
  no_bound : 0 ≤ nMaxBlockNum n < max32 - 1;
}.

(** From [n] to [n'] nothing stored is lost, finality moved forward, and new
    blocks extend what was final. *)
Record forward n n' : Prop := {
  fw_hdr : hdrStore (nRepo n) ⊆ hdrStore (nRepo n');
  fw_genesis : genesisID (nRepo n') = genesisID (nRepo n);
  fw_final : ancestor (nRepo n') (finalized (nEngine n)) (finalized (nEngine n'));
  fw_new : ∀ id s, hdrStore (nRepo n') !! id = Some s → hdrStore (nRepo n) !! id = None →
    ancestor (nRepo n') (finalized (nEngine n)) id;
}.

(** [Accepts] checks that the finalized checkpoint is an ancestor. *)
Lemma Accepts_ancestor r e e' pid s : repo_inv r → finalized_ok r e →
  hdrStore r !! pid = Some s → Accepts r pid e = Ok (true, e') → ancestor r (finalized e) pid.
Proof.
  intros HI [[sf Hsf] _] Hs. unfold Accepts, Finalized, mbind, M_bind, gets.
  destruct (path_exists _ HI _ _ Hs) as [l Hl].
  destruct (Z.eqb_spec (Number (finalized e)) 0) as [E0|E0]; simpl.
  - intros [= <-]. exists l. split; [done|].
    rewrite (number_0_genesis r _ sf HI Hsf E0). by eapply genesis_on_path.
  - unfold lift. rewrite (HasBlock_path _ HI _ _ _ Hl) by (by eapply Number_nonneg).
    simpl. destruct (bool_decide (finalized e ∈ l)) eqn:Ef; [|done]. intros [= <-].
    exists l. split; [done|]. by apply bool_decide_eq_true in Ef.
Qed.

(** What holds of a node that took a block in, or failed to. *)
Definition moved n n' : Prop :=
  repo_inv (nRepo n') ∧ finalized_ok (nRepo n') (nEngine n') ∧ forward n n' ∧
  nMaxBlockNum n' = nMaxBlockNum n.

(** The engine changed, but nothing that is final. *)
Lemma moved_engine n e' : node_ok n → same_final (nEngine n) e' → moved n (n <| nEngine := e' |>).
Proof.
  intros [HI [[s Hs] Hsaved] _] [Es Ef]. unfold moved, finalized_ok. simpl. rewrite Es, Ef.
  split_and!; try done; [by exists s|]. split; simpl; try done; [|congruence].
  rewrite Ef. by eapply (ancestor_refl _ HI).
Qed.

Lemma moved_refl n : node_ok n → moved n n.
Proof.
  intros Hok. pose proof (moved_engine n (nEngine n) Hok (same_final_refl _)) as Hm. by destruct n.
Qed.

Lemma Accepts_same r pid e ok e' : Accepts r pid e = Ok (ok, e') → e' = e.
Proof.
  unfold Accepts, Finalized, mbind, M_bind, gets, lift. destruct (negb _); [|by intros [= _ <-]].
  destruct (HasBlock _ _ _); [|done]. by intros [= _ <-].
Qed.

(** ** Storing a block *)
Section store.
Context (n : Node) (b : block) (rcs : list Receipt) (conf : Z) (ps : BlockSummary).
Context (HI : repo_inv (nRepo n)) (Hfin : finalized_ok (nRepo n) (nEngine n)).
Context (Hst : storable b rcs).
Context (Hfresh : hdrStore (nRepo n) !! ID (blkHeader b) = None).
Context (Hnum : Header_Number (blkHeader b) < max32 - 1).
Context (Hconf : conf = ScanConflicts (nRepo n) (Header_Number (blkHeader b))) (Hcs : conf < max32).
Context (Hps : hdrStore (nRepo n) !! ParentID (blkHeader b) = Some ps).
Context (Hanc : ancestor (nRepo n) (finalized (nEngine n)) (ParentID (blkHeader b))).

Lemma number_step : Header_Number (blkHeader b) = Number (ParentID (blkHeader b)) + 1 ∨
  Number (ParentID (blkHeader b)) = max32 - 1.
Proof.
  pose proof (Number_nonneg _ HI _ _ Hps). pose proof (header_number _ HI _ _ Hps) as E.
  pose proof (Header_Number_range (sumHeader ps)) as Hr. rewrite E in Hr.
  destruct (decide (Number (ParentID (blkHeader b)) = max32 - 1)); [by right|left].
  unfold Header_Number. rewrite wrap32_id; ulia.
Qed.

Lemma block_addable : addable (nRepo n) b rcs conf.
Proof.
  destruct Hst as (? & ? & ?). split; try done.
  destruct number_step as [E|E]; [lia|]. exfalso.
  destruct (path_exists _ HI _ _ Hps) as [l Hl]. destruct Hl as [|id s l Hs Hne Hl].
  - rewrite (ri_genesis_num _ HI) in E. unfold_int. lia.
  - destruct (ri_parent _ HI _ _ Hs Hne) as (_ & _ & ?). lia.
Qed.

Lemma stored_advances size best r' e' states :
  added (nRepo n) size b rcs conf best ps r' → advances r' (nEngine n) e' →
  moved n (MkNode r' e' states (nMaxBlockNum n)).
Proof.
  intros Had' [Hadv Hfin']. pose proof block_addable as Had.
  pose proof (repo_inv_added _ _ _ _ _ _ _ _ HI Had Hps Had') as HI'.
  pose proof (add_genesis _ _ _ _ _ _ _ _ Had') as Eg.
  pose proof (sub_hdr _ _ _ _ _ _ _ _ Had Had') as Hsub.
  pose proof (λ i s, stored_cases _ _ _ _ _ _ _ _ Had' i s) as Hcases. cbn zeta in Hcases.
  split_and!; try done; simpl. split; simpl; try done. intros id s Hs Hnone.
  destruct (Hcases id s Hs) as [[-> ->]|[_ Hs']]; [|congruence].
  destruct Hanc as (l & Hl & Hin).
  exists (l ++ [ID (blkHeader b)]). split; [|apply elem_of_app; by left].
  eapply path_step; [exact Hs| |by eapply path_mono].
  rewrite Eg. apply (id_not_genesis _ _ _ _ HI Had).
Qed.

(** The block is stored, whether the engine then fails or not. *)
Lemma commitBlock_moves evict size st best packing :
  kp (commitBlock fc evict size b st rcs conf best packing) (λ _ n', moved n n') n.
Proof.
  unfold commitBlock. apply kp_bind, kp_keep, wp_modify. apply kp_bind, kp_keep, wp_zoom. cbn [nRepo].
  pose proof block_addable as Had.
  pose proof (AddBlock_added (nRepo n) size b rcs conf best Had) as Ha. rewrite Hps in Ha.
  destruct Ha as (r' & Ea & Had'). unfold wp at 1. cbn [nRepo set_field]. unfold set_field; simpl.
  rewrite Ea. pose proof (repo_inv_added _ _ _ _ _ _ _ _ HI Had Hps Had') as HI'.
  pose proof (add_genesis _ _ _ _ _ _ _ _ Had') as Eg.
  pose proof (sub_hdr _ _ _ _ _ _ _ _ Had Had') as Hsub.
  destruct Hfin as [[sf Hsf] Hsaved].
  assert (finalized_ok r' (nEngine n)) as Hfin'.
  { split; [exists sf; by eapply lookup_weaken|by rewrite Eg]. }
  destruct Hanc as (l & Hl & Hin).
  assert (path r' (ID (blkHeader b)) (l ++ [ID (blkHeader b)])) as Hpath.
  { eapply path_step; [by rewrite (add_hdr _ _ _ _ _ _ _ _ Had'), lookup_insert_eq| |by eapply path_mono].
    rewrite Eg. apply (id_not_genesis _ _ _ _ HI Had). }
  apply kp_when; intros Hge.
  - unfold kp, onEngine. cbn [nRepo nStates nEngine].
    pose proof (CommitBlock_advances fc r' (<[StateRoot (blkHeader b) := st]> (nStates n)) evict HI' HE
      (blkHeader b) _ packing (nEngine n) Hpath Hfin') as Hc.
    specialize (Hc ltac:(apply elem_of_app; by left) ltac:(lia)). unfold kp in Hc.
    destruct (CommitBlock _ _ _ _ _ _ _) as [e' r]. eapply stored_advances; [exact Had'|exact Hc].
  - eapply stored_advances; [exact Had'|]. split; [|exact Hfin'].
    eapply ancestor_refl; [exact HI'|]. by eapply lookup_weaken.
Qed.
End store.

(** [n'] is a node as [node_ok] says, reached by moving forward. *)
Definition good_step (n n' : Node) : Prop := node_ok n' ∧ forward n n'.

Lemma moved_good n n' : node_ok n → moved n n' → good_step n n'.
Proof. intros Hok (? & ? & ? & Em). split; [|done]. split; try done. rewrite Em. apply Hok. Qed.

(** The conflicts [guardBlockProcessing] passes on are those of the number. *)
Lemma guard_moves {A} n num (process : Z → K Node A) :
  node_ok n → counted n num → num < max32 - 1 →
  kp (process (ScanConflicts (nRepo n) num)) (λ _ n', moved n n') n →
  kp (guardBlockProcessing num process) (λ _ n', good_step n n') n.
Proof.
  intros Hok Hcount Hnum Hp. unfold guardBlockProcessing. apply kp_bind, kp_keep, wp_gets.
  pose proof (no_bound _ Hok) as Hb.
  pose proof (moved_good n n Hok (moved_refl n Hok)) as Hrefl.
  destruct (Z.ltb_spec (nMaxBlockNum n) num) as [Hlt|Hge].
  - apply kp_bind, kp_keep, wp_reject; [done|]. intros _.
    rewrite (Hcount Hlt) in Hp. apply kp_bind. eapply kp_mono; [exact Hp|].
    intros [a|x] n' Hm; [|by apply moved_good].
    apply (moved_good n n' Hok) in Hm as [[HI Hf _] [F1 F2 F3 F4]].
    apply kp_bind, kp_keep, wp_modify, kp_ret. split; [|done]. split; simpl; try done. lia.
  - apply kp_bind, kp_keep, wp_gets. eapply kp_mono; [exact Hp|]. intros r n' Hm. by apply moved_good.
Qed.

(** An operation of the engine that only reads leaves the node as it is. *)
Lemma onEngine_reads {A} n (op : ChainRepo → gmap Bytes32 Staker → M Engine A) :
  reads (op (nRepo n) (nStates n)) →
  kp (onEngine (λ r s, keep (op r s)))
    (λ _ n', ∃ e', n' = n <| nEngine := e' |> ∧ same_final (nEngine n) e') n.
Proof.
  intros Hr. specialize (Hr (nEngine n)). unfold wp in Hr. unfold kp, onEngine, keep.
  destruct (op _ _ _) as [[a e']|x]; [by exists e'|]. by exists (nEngine n).
Qed.

Lemma Select_reads evict r s h : reads (Select fc evict r s h).
Proof.
  unfold Select. apply reads_bind; [apply computeState_reads|]. intros st1.
  apply reads_bind; [apply computeState_reads|]. intros st2. destruct (negb _); apply reads_ret.
Qed.

Lemma moved_from n e1 n' : same_final (nEngine n) e1 → moved (n <| nEngine := e1 |>) n' → moved n n'.
Proof.
  intros [Es Ef] (A1 & A2 & [B1 B2 B3 B4] & A4). simpl in *. rewrite Ef in B3, B4.
  by split_and!.
Qed.

(** A received block is stored only on a parent that extends what is final. *)
Lemma execute_moves evict Process size b n :
  node_ok n → process_ok Process → Header_Number (blkHeader b) < max32 - 1 →
  ScanConflicts (nRepo n) (Header_Number (blkHeader b)) < max32 →
  kp (executeAndCommitBlock fc evict Process size b
        (ScanConflicts (nRepo n) (Header_Number (blkHeader b)))) (λ _ n', moved n n') n.
Proof.
  intros Hok HP Hnum Hcs. set (conf := ScanConflicts _ _). unfold executeAndCommitBlock.
  pose proof (moved_refl n Hok) as Hsame. pose proof (moved_engine n) as Heng.
  apply kp_bind, kp_keep, wp_gets. apply kp_bind, kp_keep, wp_reject; [done|]. intros Hknown.
  assert (hdrStore (nRepo n) !! ID (blkHeader b) = None) as Hfresh.
  { apply andb_false_iff in Hknown as [Hc%Z.ltb_ge|Hk].
    - apply scan_fresh; [apply Hok|]. unfold conf, ScanConflicts in *. lia.
    - apply bool_decide_eq_false in Hk. by apply eq_None_not_Some. }
  apply kp_bind, kp_keep, wp_need; [done|]. intros ps Hps. apply kp_bind.
  unfold kp at 1, onEngine at 1, keep.
  destruct (Accepts (nRepo n) (ParentID (blkHeader b)) (nEngine n)) as [[ok e1]|] eqn:Eacc;
    [|by destruct n].
  replace e1 with (nEngine n) in * by (symmetry; by eapply Accepts_same).
  replace (n <| nEngine := nEngine n |>) with n by (by destruct n).
  apply kp_bind, kp_keep, wp_reject; [done|]. intros Hacc. apply negb_false_iff in Hacc as ->.
  apply Accepts_ancestor with (s := ps) in Eacc; [|apply Hok|apply Hok|done].
  apply kp_bind, kp_keep, wp_gets. apply kp_bind, kp_keep, wp_lift.
  destruct (Process _ _ _ _ _) as [[st rcs]|] eqn:EP; [|done]. apply kp_bind.
  apply kp_mono with (Q := λ _ n1, ∃ e1, n1 = n <| nEngine := e1 |> ∧ same_final (nEngine n) e1).
  - match goal with |- kp (if ?c then _ else _) _ _ => destruct c end.
    + apply onEngine_reads, Select_reads.
    + apply kp_ret. exists (nEngine n). split; [by destruct n|apply same_final_refl].
  - intros [best|x] n1 (e2 & -> & Hd); [|by apply Heng]. apply kp_bind.
    eapply kp_mono; [apply (commitBlock_moves (n <| nEngine := e2 |>) b rcs conf ps); simpl; try done|].
    + apply Hok.
    + destruct Hok as [_ [Hf1 Hf2] _], Hd as [Es Ef]. split; simpl; by rewrite ?Es, ?Ef.
    + by eapply HP.
    + by destruct Hd as [_ ->].
    + intros [u|x] n' Hm; [apply kp_ret|]; by eapply moved_from.
Qed.

(** So does a proposed one, when its parent does. *)
Lemma propose_moves evict parentID number Pack size n :
  node_ok n → pack_ok (nRepo n) parentID number Pack → number < max32 - 1 →
  ScanConflicts (nRepo n) number < max32 → extends_final n parentID →
  kp (proposeAndCommit fc master evict parentID number Pack size (ScanConflicts (nRepo n) number))
    (λ _ n', moved n n') n.
Proof.
  intros Hok HP Hnum Hcs Hanc. set (conf := ScanConflicts _ _). unfold proposeAndCommit.
  pose proof (moved_engine n) as Heng. apply kp_bind.
  apply kp_mono with (Q := λ _ n1, ∃ e1, n1 = n <| nEngine := e1 |> ∧ same_final (nEngine n) e1).
  - match goal with |- kp (if ?c then _ else _) _ _ => destruct c end.
    + apply onEngine_reads, ShouldVote_reads.
    + apply kp_ret. exists (nEngine n). split; [by destruct n|apply same_final_refl].
  - intros [v|x] n1 (e1 & -> & Hd); [|by apply Heng]. apply kp_bind, kp_keep, wp_lift.
    destruct (Pack conf v) as [[[b st] rcs]|] eqn:EP; [|by apply Heng].
    destruct (HP _ _ _ _ _ EP) as (Epar & Enum & Hst & Hfresh). subst number.
    destruct Hanc as (l & Hl & Hin). destruct (path_stored _ (no_repo _ Hok) _ _ Hl) as [ps Hps].
    eapply kp_mono; [apply (commitBlock_moves (n <| nEngine := e1 |>) b rcs conf ps); simpl; try done|].
    + apply Hok.
    + destruct Hok as [_ [Hf1 Hf2] _], Hd as [Es Ef]. split; simpl; by rewrite ?Es, ?Ef.
    + by rewrite Epar.
    + destruct Hd as [_ ->]. rewrite Epar. by exists l.
    + intros r n' Hm. by eapply moved_from.
Qed.

Lemma forward_trans n1 n2 n3 : forward n1 n2 → forward n2 n3 → forward n1 n3.
Proof.
  intros [A1 A2 A3 A4] [B1 B2 B3 B4]. split.
  - by etransitivity.
  - by rewrite B2.
  - eapply ancestor_trans; [|exact B3]. by eapply ancestor_mono.
  - intros id s Hs Hnone. destruct (hdrStore (nRepo n2) !! id) as [s2|] eqn:E2.
    + eapply ancestor_mono; [exact B2|exact B1|]. by eapply A4.
    + eapply ancestor_trans; [|by eapply B4]. eapply ancestor_mono; [exact B2|exact B1|done].
Qed.

Lemma node_step_good n n' : node_ok n → node_step extends_final n n' → good_step n n'.
Proof.
  intros Hok Hstep. destruct Hstep as [evict Process size b n HP Hnum Hcs Hct|
    evict pid num Pack size n HP Hnum Hcs Hct Hanc|e' n Hd|n].
  - pose proof (guard_moves n _ (λ c, executeAndCommitBlock fc evict Process size b c) Hok Hct Hnum
      (execute_moves evict Process size b n Hok HP Hnum Hcs)) as Hg.
    unfold kp in Hg. unfold processBlock. by destruct (guardBlockProcessing _ _ _) as [n' [t|x]].
  - pose proof (guard_moves n _ (proposeAndCommit fc master evict pid num Pack size) Hok Hct Hnum
      (propose_moves evict pid num Pack size n Hok HP Hnum Hcs Hanc)) as Hg.
    unfold kp in Hg. unfold doPack. by destruct (guardBlockProcessing _ _ _) as [n' r].
  - by apply moved_good, moved_engine.
  - destruct (GetMaxBlockNum_spec (nRepo n) (no_repo _ Hok)) as [_ Hb].
    destruct (moved_engine n (NewEngine (nRepo n) (savedQuality (nEngine n)) (savedFinalized (nEngine n))))
      as (? & ? & [] & _); [done|split; [done|apply Hok]|]. split; split; simpl; done.
Qed.

(** C36: finality is never reverted.  Along every run of the node, with blocks
    received or proposed in any order, commits that fail half-way, restarts and
    lost caches, the finalized checkpoint at any time is an ancestor of every
    later one, no stored block is lost, and every block stored later extends it.
    For a received block [Accepts] ensures this; a proposed one is assumed to be
    new and built on a descendant of the finalized checkpoint ([extends_final]),
    which [doPack] does not check.  After a failed commit of a new highest block, the
    blocks of its number wait for a restart ([counted]). *)
Theorem finality_never_reverts (n n' : Node) :
  node_ok n → rtc (node_step extends_final) n n' →
  ancestor (nRepo n') (finalized (nEngine n)) (finalized (nEngine n')) ∧
  hdrStore (nRepo n) ⊆ hdrStore (nRepo n') ∧
  (∀ id s, hdrStore (nRepo n') !! id = Some s → hdrStore (nRepo n) !! id = None →
    ancestor (nRepo n') (finalized (nEngine n)) id).
Proof.
  intros Hok Hrun. assert (good_step n n') as [_ [? _ ? ?]]; [|done].
  induction Hrun as [n|n1 n2 n3 Hstep Hrun IH]; [by apply moved_good, moved_refl|].
  destruct (node_step_good n1 n2 Hok Hstep) as [Hok2 Hf]. destruct (IH Hok2) as [Hok3 Hf3].
  split; [done|]. by eapply forward_trans.
Qed.
End run.

(** ** Witness: a run that finalizes a checkpoint

    Epochs of two blocks, finality from the start, one block proposer; blocks 1
    to 5 are received in order, and the fifth finalizes block 2.  Then another
    block 3 arrives: it concludes a committed round of quality 2, no round from
    the finalized one on has quality 1, and its commit fails in the engine after
    it was stored. *)
#[local] Existing Instances demo_Rlp demo_RlpSpec demo_Crypto demo_CryptoSpec.

Definition finality_fork : ForkConfig :=
  let never := max32 - 1 in MkForkConfig never never never never never 0 never never.

Definition run_process : processor := λ _ _ _ b _,
  if bool_decide (blkTxs b = []) then Ok (staker0 1 0, []) else Err ErrFuel.

Definition run_node0 : result Node :=
  r ← NewRepository 0 demo_genesis;
  Ok (MkNode r (NewEngine r ∅ None) {[StateRoot (blkHeader demo_genesis) := staker0 1 0]}
    (GetMaxBlockNum r)).

Definition receive_block (b : block) (n : Node) : option Node :=
  let num := Header_Number (blkHeader b) in
  if (num <? max32 - 1) && (ScanConflicts (nRepo n) num <? max32) &&
     ((num <=? nMaxBlockNum n) || (ScanConflicts (nRepo n) num =? 0))
  then Some (processBlock finality_fork (λ _ m, m) run_process 0 b n).1
  else None.

Fixpoint receive_chain (k : nat) (n : Node) : option Node :=
  match k with
  | O => Some n
  | S k =>
      let best := sumHeader (bestSummary (nRepo n)) in
      n' ← receive_block (demo_block (ID best) (Timestamp best + 10) (TotalScore best + 1)
                      (Header_Number best + 5) true []) n;
      receive_chain k n'
  end.

Lemma run_process_ok : process_ok run_process.
Proof.
  intros r s ps b conf st rcs. unfold run_process. case_bool_decide as E; [|done]. intros [= <- <-].
  unfold storable. rewrite E. simpl. split_and!; [apply NoDup_nil_2|done|done].
Qed.

Lemma receive_step b n n' : receive_block b n = Some n' →
  node_step finality_fork 0 extends_final n n'.
Proof.
  unfold receive_block. destruct (_ && _) eqn:Hb; [|done]. intros [= <-].
  apply andb_true_iff in Hb as [[H1 H2]%andb_true_iff H3].
  apply step_receive; [exact run_process_ok|by apply Z.ltb_lt|by apply Z.ltb_lt|].
  intros Hlt. apply orb_true_iff in H3 as [H3%Z.leb_le|H3%Z.eqb_eq]; [lia|exact H3].
Qed.

Lemma receive_run k n n' : receive_chain k n = Some n' → rtc (node_step finality_fork 0 extends_final) n n'.
Proof.
  revert n. induction k as [|k IH]; intros n E; [by injection E as <-|]. cbn [receive_chain] in E.
  apply bind_Some in E as (n1 & E1 & E). eapply rtc_l; [by eapply receive_step|by apply IH].
Qed.

(** Another block on block 2. *)
Definition late_block (n : Node) : option block :=
  match GetBlockHeader (nRepo n) (ID (sumHeader (bestSummary (nRepo n)))) 2 with
  | Ok h => Some (demo_block (ID h) (Timestamp h + 11) (TotalScore h + 1) (Header_Number h + 5) true [])
  | Err _ => None
  end.

Record late_run := MkLateRun { lrNode : Node; lrBlock : block; lrLast : Node }.
Definition run_late : option late_run :=
  match run_node0 with
  | Ok n => n5 ← receive_chain 5 n; b ← late_block n5; n' ← receive_block b n5; Some (MkLateRun n5 b n')
  | Err _ => None
  end.

(** The numbers of the finalized checkpoint before and after the run, the answer
    for the late block and whether it is stored. *)
Definition run_summary (r : late_run) : Z * Z * result bool * bool :=
  (Number (finalized (nEngine (lrNode r))), Number (finalized (nEngine (lrLast r))),
   (processBlock finality_fork (λ _ m, m) run_process 0 (lrBlock r) (lrNode r)).2,
   bool_decide (is_Some (hdrStore (nRepo (lrLast r)) !! ID (blkHeader (lrBlock r))))).

Lemma run_finalizes : run_summary <$> run_late = Some (2, 2, Err errQuality, true).
Proof. vm_compute. reflexivity. Qed.

Lemma run_node0_ok n : run_node0 = Ok n → node_ok n.
Proof.
  unfold run_node0. intros E. destruct (NewRepository 0 demo_genesis) as [r|] eqn:Er; [|discriminate E].
  cbn [mbind result_bind] in E. injection E as <-.
  assert (grows r) as Hg.
  { eapply grow_new; [|exact Er].
    unfold is256, demo_genesis, demo_block, max32. cbn [blkHeader ParentID]. lia. }
  pose proof (grows_inv r Hg) as HI. destruct (GetMaxBlockNum_spec r HI) as [_ Hb].
  split; cbn [nRepo nEngine nMaxBlockNum]; [exact HI| |exact Hb].
  split; [|reflexivity]. destruct (ri_genesis _ HI) as (s & Hs & _). exists s. exact Hs.
Qed.

Lemma finality_never_reverts_witness :
  ∃ n r, run_node0 = Ok n ∧ run_late = Some r ∧
    Number (finalized (nEngine (lrLast r))) = 2 ∧
    (processBlock finality_fork (λ _ m, m) run_process 0 (lrBlock r) (lrNode r)).2 = Err errQuality ∧
    is_Some (hdrStore (nRepo (lrLast r)) !! ID (blkHeader (lrBlock r))) ∧
    ancestor (nRepo (lrLast r)) (finalized (nEngine n)) (finalized (nEngine (lrLast r))).
Proof.
  pose proof run_finalizes as Hf. apply fmap_Some in Hf as (r & Hr & Hf).
  pose proof Hr as Hr'. unfold run_late in Hr'. destruct run_node0 as [n|] eqn:E0; [|discriminate Hr'].
  exists n, r. split; [reflexivity|]. split; [exact Hr|]. clear Hr.
  apply bind_Some in Hr' as (n5 & E5 & (b & Eb & (n' & E' & [= <-])%bind_Some)%bind_Some).
  unfold run_summary in Hf. injection Hf as _ H2 Herr Hst. cbn [lrNode lrBlock lrLast] in *.
  split; [by symmetry|]. split; [by symmetry|].
  split; [exact (bool_decide_eq_true_1 _ (eq_sym Hst))|]. clear H2 Herr Hst Eb.
  destruct (finality_never_reverts finality_fork 0 ltac:(split; reflexivity) ltac:(discriminate)
    n n' (run_node0_ok n E0)) as [Ha _]; [|exact Ha].
  eapply rtc_r; [exact (receive_run 5 n n5 E5)|exact (receive_step b n5 n' E')].
Defined.
