(* ===== verification/BftWeights.v ===== *)
(** * Votes that carry weight

    Chains of blocks that staking validators sign, on the staker contract of
    [Scenario].  With steady stakes every vote of a validator in a round weighs
    the same.  A renewal at a checkpoint changes the weight of a validator
    between the checkpoint block, which is weighed in its parent's state, and the
    blocks after it.  The justifier keeps the weight of the first block of a
    signer that it counts: the oldest one when it is extended block by block, the
    newest one when it is recounted. *)

From S2P Require Import Prelude Bytes External Thor Block Tx ChainRepo ChainRepoInv ChainDemo.
From S2P Require Import Validation Staker StakerNative StakerWorld StakerChain Scenario Bft BftVotes BftCaches.

#[local] Existing Instances demo_Rlp demo_RlpSpec demo_Crypto demo_CryptoSpec.

(** Caches that drop nothing. *)
Definition keep_all : ∀ V, gmap Bytes32 V → gmap Bytes32 V := λ _ m, m.

(** The validators are active from block 2 on; the first staking period ends with
    block 6.  [calls] are made after block 2. *)
Definition until_block (calls : list event) (k : nat) : list event :=
  match k with
  | S (S k) => activation ++ calls ++ replicate k EBlock
  | k => queueing ++ replicate k EBlock
  end.

(** The contract after each block. *)
Definition stake_states (calls : list event) : gmap Bytes32 Staker :=
  list_to_map ((λ k, (100 + Z.of_nat k, wStaker (at_ (until_block calls k)))) <$> seq 0 8).

(** Blocks signed by the validators [who] names. *)
Definition stake_block (who : Z → Address) (parent : Bytes32) (k : Z) : block :=
  MkBlock (MkHeader parent (10 * k) 20000000 7 0 k (MkTxsRootFeatures 0 0) (100 + k) 0
    (who k :: replicate 64 0) (MkExtension [] false None)) [].

Fixpoint stake_chain (who : Z → Address) (n : nat) (r : ChainRepo) : option ChainRepo :=
  match n with
  | O => Some r
  | S n => r ← stake_chain who n r;
      try_add r (stake_block who (ID (sumHeader (bestSummary r))) (Z.of_nat (S n))) [] true
  end.

Definition stake_repo (who : Z → Address) : option ChainRepo :=
  match NewRepository 0 (stake_block who ((max32 - 1) * 2 ^ 224) 0) with
  | Ok r => stake_chain who 7 r
  | Err _ => None
  end.

Lemma stake_repo_grows who r : stake_repo who = Some r → grows r.
Proof.
  unfold stake_repo. destruct (NewRepository _ _) as [r0|] eqn:E0; [|discriminate].
  assert (grows r0) as Hg.
  { eapply grow_new; [|exact E0]. unfold is256, stake_block, max32. cbn [blkHeader ParentID]. lia. }
  clear E0. generalize 7%nat. intros n. revert r. induction n as [|n IH]; intros r E.
  - by injection E as <-.
  - cbn [stake_chain] in E. apply bind_Some in E as (r1 & E1 & E).
    eapply try_add_grows; [exact E|]. by apply IH.
Qed.

(** The summary of block [n] of the best chain. *)
Definition stake_summary (r : ChainRepo) (n : Z) : option BlockSummary :=
  match GetBlockID r (ID (sumHeader (bestSummary r))) n with
  | Ok id => hdrStore r !! id
  | Err _ => None
  end.

(** ** A weight that changes in a round

    Validator 7 signs all blocks, and adds 100 million to its stake of 25 million
    before the renewal in block 6. *)
Definition increase : list event := [ECall (Call 5 (ToWei 100000000) (MIncreaseStake 7))].

(** The state of block 7: after the state of block 6 was computed, and at once. *)
Definition cached_and_recounted : option (bftState * bftState) :=
  r ← stake_repo (λ _, 7);
  s6 ← stake_summary r 6; s7 ← stake_summary r 7;
  let compute s := computeState SoloFork keep_all r (stake_states increase) (sumHeader s) in
  match (compute s6 ;; compute s7) (NewEngine r ∅ None), compute s7 (NewEngine r ∅ None) with
  | Ok (st, _), Ok (st', _) => Some (st, st')
  | _, _ => None
  end.

(** On this chain the answer depends on the caches: the round of blocks 6 and 7 is
    not justified for a node that followed the chain block by block, and justified
    for one that restarted before block 7. *)
Example cached_round_differs :
  cached_and_recounted = Some (MkBftState 0 false false, MkBftState 1 true false).
Proof. vm_compute. reflexivity. Qed.

(** ** Steady weights

    Validators 7 and 8 take turns, with stakes of 25 and 30 million. *)
Definition in_turns (k : Z) : Address := if Z.even k then 7 else 8.

Definition steady_states : gmap Bytes32 Staker := stake_states [].

(** The engine that has computed the state of block 6, and block 7. *)
Definition steady_case (states : gmap Bytes32 Staker)
    : option (ChainRepo * BlockSummary * Engine * BlockSummary) :=
  r ← stake_repo in_turns;
  s6 ← stake_summary r 6; s7 ← stake_summary r 7;
  match computeState SoloFork keep_all r states (sumHeader s6) (NewEngine r ∅ None) with
  | Ok (_, e) => Some (r, s6, e, s7)
  | Err _ => None
  end.
