(* ===== verification/BftCorrect.v ===== *)
(** * Correctness of the finality engine

    The caches change no answer as long as the votes of a signer carry one
    weight in a round ([BftWeights] shows that they do otherwise).  A committed
    round finalizes the first checkpoint that reached the quality below its own,
    and its commit fails when the finalized round is above that quality already.
    A vote to commit never contradicts the votes the node has cast on other
    branches. *)

From stdpp Require Import sorting.
From S2P Require Import Prelude Bytes External Thor Block Tx ChainRepo ChainRepoInv ChainDemo.
From S2P Require Import Validation Staker Bft BftVotes BftCaches BftFinality Node NodeCorrect BftWeights.
From S2P Require Import StakerNative StakerWorld StakerChain Scenario.

Section engine.
Context `{CFG : Config} `{Rlp} `{CS : CryptoSpec}.
Context (fc : ForkConfig) (repo : ChainRepo) (states : gmap Bytes32 Staker).
Context (evict : ∀ V, gmap Bytes32 V → gmap Bytes32 V).
Context (HI : repo_inv repo) (HE : 0 < EpochLength < max32).
Context (evict_sub : ∀ V (m : gmap Bytes32 V), evict V m ⊆ m).
Context (known : Header → Prop).
Context (known_inj : ∀ h h', known h → known h' → ID h = ID h' → h = h').
Context (known_repo : ∀ id s, hdrStore repo !! id = Some s → known (sumHeader s)).
Implicit Types (h : Header) (e : Engine).

Abbreviation cache_ok := (cache_ok fc repo states known).
Abbreviation steady_rounds := (steady_rounds fc repo states known).
Abbreviation stateOf := (stateOf fc repo states).
Abbreviation kept := (kept fc repo states known).

(** The engine as a restart leaves it. *)
Definition restarted e : Engine := NewEngine repo (savedQuality e) (savedFinalized e).

Lemma restarted_ok e : cache_ok (restarted e).
Proof. split; simpl; intros ? ? E; by rewrite lookup_empty in E. Qed.

(** C39: the caches change no answer.  As long as each signer's votes carry one
    weight in a round, [computeState] with any correct caches answers, or fails,
    exactly as it does after a restart with empty ones, leaves correct caches
    behind and changes nothing else; the justifier that is extended block by
    block counts what a recount from the checkpoint counts. *)
Theorem caches_change_nothing h e :
  steady_rounds → cache_ok e → known h →
  (voting fc h = true → is_Some (hdrStore repo !! ParentID h)) →
  match computeState fc evict repo states h (restarted e) with
  | Ok (st, _) => ∃ e', computeState fc evict repo states h e = Ok (st, e') ∧ cache_ok e' ∧
      same_data e e'
  | Err x => computeState fc evict repo states h e = Err x
  end.
Proof.
  intros Hst Hc Hk Hp.
  pose proof (computeState_runs fc repo states evict HI HE evict_sub known known_inj known_repo
    e h Hst Hc Hk Hp) as Hr.
  pose proof (computeState_runs fc repo states evict HI HE evict_sub known known_inj known_repo
    (restarted e) h Hst (restarted_ok e) Hk Hp) as Hr'.
  unfold runs in Hr, Hr'. simpl savedQuality in Hr'.
  destruct (stateOf (savedQuality e) h) as [st|x].
  - destruct Hr' as (e2 & -> & _). destruct Hr as (e1 & E & D & C). by exists e1.
  - by rewrite Hr'.
Qed.

(** ** Searching by quality *)
Section search.
Context (e : Engine) (Hc : cache_ok e).
Context (headID : Bytes32) (l : list Bytes32) (Hl : path repo headID l).
Context (start : Z) (Hstart : 0 ≤ start ≤ Number headID) (Hdiv : getCheckPoint start = start).
Context (Hhead : getStorePoint (Number headID) = Number headID) (Hmax : Number headID + EpochLength < max32).

Definition rounds : Z := (Number headID - start) / EpochLength + 1.
(** The saved quality of the [i]-th round from [start] on. *)
Definition roundQuality (i : Z) : Z :=
  default 0 (l !! Z.to_nat (start + i * EpochLength + EpochLength - 1) ≫= (savedQuality e !!.)).

Lemma store_point i : 0 ≤ i < rounds →
  start + i * EpochLength + EpochLength - 1 ≤ Number headID ∧
  getStorePoint (start +u32 wrap32 i *u32 EpochLength) = start + i * EpochLength + EpochLength - 1.
Proof.
  unfold rounds. intros Hi. unfold getStorePoint, getCheckPoint in *.
  assert (start = EpochLength * (start / EpochLength)) as Es by lia.
  set (s := start / EpochLength) in *.
  pose proof (Z.mul_div_le (Number headID) EpochLength).
  pose proof (Z.mul_succ_div_gt (Number headID) EpochLength).
  set (m := Number headID / EpochLength) in *.
  rewrite (wrap32_id (m * EpochLength + EpochLength)) in Hhead by (unfold_int; nia).
  rewrite wrap32_id in Hhead by (unfold_int; nia).
  assert ((Number headID - start) / EpochLength = m - s) as Em.
  { rewrite Es, <- Hhead. replace (m * EpochLength + EpochLength - 1 - EpochLength * s)
      with ((m - s) * EpochLength + (EpochLength - 1)) by lia.
    rewrite Z.div_add_l, (Z.div_small (EpochLength - 1)) by lia. lia. }
  rewrite Em in Hi. assert (i * EpochLength ≤ (m - s) * EpochLength) by nia. split; [lia|].
  rewrite (wrap32_id i) by (unfold_int; nia).
  rewrite (wrap32_id (i * EpochLength)) by (unfold_int; nia).
  rewrite (wrap32_id (start + _)) by (unfold_int; nia).
  replace (start + i * EpochLength) with ((s + i) * EpochLength) by lia. rewrite Z.div_mul by lia.
  assert (0 ≤ (s + i) * EpochLength ≤ m * EpochLength) by nia.
  rewrite (wrap32_id ((s + i) * EpochLength + EpochLength)) by (unfold_int; lia).
  rewrite wrap32_id by (unfold_int; lia). lia.
Qed.

Lemma qualityOfRound_runs e1 i : kept e e1 → 0 ≤ i < rounds →
  runs (qualityOfRound evict repo headID start i) (Ok (roundQuality i)) e1 (kept e).
Proof.
  intros [D1 C1] Hi. destruct (store_point i Hi) as [Hle Hsp]. unfold qualityOfRound. rewrite Hsp.
  rewrite (GetBlockID_path _ HI _ _ _ Hl) by nia. unfold roundQuality.
  pose proof (path_length _ HI _ _ Hl).
  destruct (l !! Z.to_nat (start + i * EpochLength + EpochLength - 1)) as [id|] eqn:E;
    [|apply lookup_ge_None in E; nia].
  eapply (runs_bind_ok _ _ id) with (P := λ e', e' = e1); [by exists e1|]. intros e' ->.
  cbn [mbind option_bind]. pose proof D1 as (Es & _). rewrite <- Es.
  eapply runs_mono; [by apply getQuality_runs|].
  intros e2 K2. by apply (kept_trans fc repo states known e e1 e2).
Qed.

Lemma searchM_runs fuel f (r : Z → result bool) i j e1 :
  kept e e1 → (∀ k e', i ≤ k < j → kept e e' → runs (f k) (r k) e' (kept e)) →
  runs (searchM fuel f i j) (search_loop fuel r i j) e1 (kept e).
Proof.
  revert i j e1. induction fuel as [|fuel IH]; intros i j e1 K1 Hf; simpl.
  - destruct (i <? j); [done|]. by apply runs_ret.
  - destruct (Z.ltb_spec i j); [|by apply runs_ret].
    assert (i ≤ (i + j) / 2 < j).
    { split; [apply Z.div_le_lower_bound; lia|apply Z.div_lt_upper_bound; lia]. }
    eapply runs_bind; [by apply Hf|]. intros b e2 _ K2. simpl.
    destruct b; apply IH; try done; intros k e3 Hk; apply Hf; lia.
Qed.

(** Qualities that do not fall, and rise by at most one each round. *)
Definition unit_steps : Prop :=
  ∀ i, 0 ≤ i → i + 1 < rounds → roundQuality i ≤ roundQuality (i + 1) ≤ roundQuality i + 1.

Lemma steps_mono i j : unit_steps → 0 ≤ i ≤ j → j < rounds → roundQuality i ≤ roundQuality j.
Proof.
  intros Hu Hij Hj. replace j with (i + Z.of_nat (Z.to_nat (j - i))) in * by lia.
  induction (Z.to_nat (j - i)) as [|k IH]; [by rewrite Z.add_0_r|].
  specialize (IH ltac:(lia) ltac:(lia)). destruct (Hu (i + Z.of_nat k)); [lia|lia|].
  replace (i + Z.of_nat (S k)) with (i + Z.of_nat k + 1) by lia. lia.
Qed.

Lemma rounds_pos : 0 < rounds.
Proof. unfold rounds. assert (0 ≤ (Number headID - start) / EpochLength) by (apply Z.div_pos; lia). lia. Qed.

(** The search ends at the round [k] where the quality reaches the target; it
    succeeds if that round has exactly this quality. *)
Lemma findCheckpoint_edge target fin e1 : kept e e1 → searchStart fc fin = start →
  ∃ k, 0 ≤ k ≤ rounds ∧ (k < rounds → target ≤ roundQuality k) ∧
    (0 < k → roundQuality (k - 1) < target) ∧
    if (k <? rounds) && (roundQuality k =? target) then
      ∃ id, l !! Z.to_nat (start + k * EpochLength) = Some id ∧
        runs (findCheckpointByQuality fc evict repo target fin headID) (Ok id) e1 (kept e)
    else runs (findCheckpointByQuality fc evict repo target fin headID) (Err errQuality) e1 (kept e).
Proof.
  intros K1 Es. pose proof rounds_pos as Hr.
  destruct (search_loop_edge (Z.to_nat rounds) (λ i, target <=? roundQuality i) 0 rounds)
    as (k & Ek & Hk & Hat & Hbelow); [lia|lia|].
  exists k. split; [done|]. split; [intros; by apply Z.leb_le, Hat|].
  split; [intros; by apply Z.leb_gt, Hbelow|].
  assert (runs (searchM (Z.to_nat rounds)
    (λ i, q ← qualityOfRound evict repo headID start i; mret (target <=? q)) 0 rounds) (Ok k) e1 (kept e)) as Hs.
  { rewrite <- Ek. apply searchM_runs; [done|]. intros i e2 Hi K2.
    eapply runs_bind_ok; [by apply qualityOfRound_runs|]. intros e3 K3. by apply runs_ret. }
  unfold findCheckpointByQuality. rewrite Es. rewrite (wrap32_id (Number headID - start)) by ulia.
  fold rounds. destruct (Z.ltb_spec k rounds) as [Hkr|Hkr]; simpl andb; cbn iota.
  2: { eapply runs_bind_ok; [exact Hs|]. intros e2 K2. by rewrite (proj2 (Z.eqb_eq k rounds)) by lia. }
  assert (∀ r, (∀ e3, kept e e3 → runs (if negb (roundQuality k =? target) then fail errQuality else
      lift (GetBlockID repo headID (start +u32 wrap32 k *u32 EpochLength))) r e3 (kept e)) →
    runs (num ← searchM (Z.to_nat rounds)
        (λ i, q ← qualityOfRound evict repo headID start i; mret (target <=? q)) 0 rounds;
      if num =? rounds then fail errQuality else
      q ← qualityOfRound evict repo headID start num;
      if negb (q =? target) then fail errQuality else
      lift (GetBlockID repo headID (start +u32 wrap32 num *u32 EpochLength))) r e1 (kept e)) as Hrun.
  { intros r Hend. eapply runs_bind_ok; [exact Hs|]. intros e2 K2.
    rewrite (proj2 (Z.eqb_neq k rounds)) by lia.
    eapply runs_bind_ok; [by apply qualityOfRound_runs; [|lia]|]. exact Hend. }
  destruct (roundQuality k =? target); [|by apply Hrun].
  destruct (store_point k ltac:(lia)) as [Hle _]. pose proof (path_length _ HI _ _ Hl).
  destruct (lookup_lt_is_Some_2 l (Z.to_nat (start + k * EpochLength))) as [id Eid]; [nia|].
  exists id. split; [done|]. apply Hrun. intros e3 K3. simpl.
  assert (k * EpochLength ≤ Number headID) by nia.
  rewrite (wrap32_id k) by (unfold_int; nia).
  rewrite (wrap32_id (k * EpochLength)) by (unfold_int; nia).
  rewrite (wrap32_id (start + _)) by (unfold_int; nia).
  rewrite (GetBlockID_path _ HI _ _ _ Hl), Eid by nia. by exists e3.
Qed.

(** Where qualities rise in unit steps the search finds the first round with the
    target quality, and fails if the first round is above it already. *)
Lemma findCheckpoint_first target fin e1 : kept e e1 → unit_steps →
  searchStart fc fin = start → target ≤ roundQuality (rounds - 1) →
  if roundQuality 0 <=? target then
    ∃ id k, runs (findCheckpointByQuality fc evict repo target fin headID) (Ok id) e1 (kept e) ∧
      0 ≤ k < rounds ∧ l !! Z.to_nat (start + k * EpochLength) = Some id ∧
      roundQuality k = target ∧ ∀ i, 0 ≤ i < k → roundQuality i < target
  else runs (findCheckpointByQuality fc evict repo target fin headID) (Err errQuality) e1 (kept e).
Proof.
  intros K1 Hu Es Ht. pose proof rounds_pos.
  destruct (findCheckpoint_edge target fin e1 K1 Es) as (k & Hk & Hat & Hbelow & Hrun).
  assert (∀ i, 0 ≤ i < k → roundQuality i < target) as Hlow.
  { intros i Hi. pose proof (steps_mono i (k - 1) Hu). lia. }
  assert (k < rounds) as Hkr.
  { destruct (decide (k = rounds)) as [->|]; [|lia]. specialize (Hlow (rounds - 1)). lia. }
  specialize (Hat Hkr). destruct (Z.leb_spec (roundQuality 0) target) as [Hz|Hz].
  - assert (roundQuality k = target) as Eq.
    { destruct (decide (k = 0)) as [->|]; [lia|]. destruct (Hu (k - 1)); [lia|lia|].
      replace (k - 1 + 1) with k in * by lia. lia. }
    rewrite (proj2 (Z.ltb_lt k rounds)), (proj2 (Z.eqb_eq _ _) Eq) in Hrun by lia.
    destruct Hrun as (id & Hid & Hrun). exists id, k. split_and!; try done; lia.
  - assert (k = 0) as -> by (destruct (decide (k = 0)); [done|specialize (Hlow 0); lia]).
    rewrite (proj2 (Z.eqb_neq _ _)), andb_false_r in Hrun by lia. exact Hrun.
Qed.
End search.

(** ** Qualities along a chain *)
Abbreviation justifierOf := (justifierOf fc repo states).
Abbreviation firstJustifier := (firstJustifier fc repo states).

(** The last block before the round of [h]. *)
Definition lastBefore h : result BlockSummary :=
  chain_GetBlockSummary repo (ParentID h) (lastOfParentRound (Number (ParentID h) +u32 1)).

Lemma addBallots_quality bs js : parentQuality (addBallots js bs) = parentQuality js.
Proof.
  revert js. induction bs as [|b bs IH]; intros js; [done|]. simpl. rewrite IH.
  unfold addBallot, js_AddBlock. repeat case_match; done.
Qed.

Lemma stateOf_quality sq h st : voting fc h = true → stateOf sq h = Ok st →
  ∃ sum, lastBefore h = Ok sum ∧
    let pq := if isFirstRound fc (Number (ParentID h) +u32 1) then 0
              else default 0 (sq !! ID (sumHeader sum)) in
    Quality st = pq ∨ Quality st = wrap32 (pq + 1).
Proof.
  intros Hv. unfold stateOf, BftCaches.stateOf, justifierOf, BftCaches.justifierOf,
    BftCaches.firstJustifier, lastBefore. rewrite Hv.
  destruct (chain_GetBlockSummary _ _ _) as [sum|]; [|done]. cbn [mbind result_bind].
  destruct (thresholds states sum) as [[tv tw]|]; [|done]. cbn [mbind result_bind].
  rewrite addBlocks_ballots. destruct (ballots _ _ _ _ _ _) as [bs|]; [|done].
  cbn [mbind result_bind]. intros [= <-]. exists sum. split; [done|]. cbn zeta.
  unfold Summarize. rewrite addBallots_quality. simpl parentQuality.
  destruct (if thresholdWeight _ =? 0 then _ else _) as [[] c]; simpl; [by right|by left].
Qed.

Lemma justifierOf_ext sq sq' h :
  (∀ sum, lastBefore h = Ok sum → sq !! ID (sumHeader sum) = sq' !! ID (sumHeader sum)) →
  justifierOf sq h = justifierOf sq' h.
Proof.
  unfold lastBefore, BftCaches.justifierOf, BftCaches.firstJustifier. intros Hs.
  destruct (chain_GetBlockSummary _ _ _) as [sum|]; [|done]. cbn [mbind result_bind].
  by rewrite (Hs sum eq_refl).
Qed.

Lemma stateOf_ext sq sq' h :
  (∀ sum, lastBefore h = Ok sum → sq !! ID (sumHeader sum) = sq' !! ID (sumHeader sum)) →
  stateOf sq h = stateOf sq' h.
Proof. intros Hs. unfold BftCaches.stateOf. by rewrite (justifierOf_ext sq sq' h Hs). Qed.

(** Saving the quality of a block no known header builds on keeps the caches. *)
Lemma save_kept e h q : cache_ok e →
  (∀ h' sum, known h' → lastBefore h' = Ok sum → ID (sumHeader sum) ≠ ID h) →
  cache_ok (e <| savedQuality := <[ID h := q]> (savedQuality e) |>
              <| qualityCache := addCache evict (ID h) q (qualityCache e) |>).
Proof.
  intros [Hq Hs Hj] Hleaf.
  assert (∀ h', known h' → ∀ sum, lastBefore h' = Ok sum →
    (<[ID h := q]> (savedQuality e)) !! ID (sumHeader sum) = savedQuality e !! ID (sumHeader sum))
    as Hext.
  { intros h' Hk sum Hsum. apply lookup_insert_ne. intros E. by apply (Hleaf h' sum). }
  split; simpl.
  - intros id q' [[-> ->]|[Hne E]]%(addCache_Some evict evict_sub); [by rewrite lookup_insert_eq|].
    rewrite lookup_insert_ne by done. by apply Hq.
  - intros id st E h' Hk Eid. rewrite (stateOf_ext _ (savedQuality e) h' (Hext h' Hk)).
    by apply (Hs id).
  - intros id js E h' Hk Eid. rewrite (justifierOf_ext _ (savedQuality e) h' (Hext h' Hk)).
    by apply (Hj id).
Qed.

(** ** Committing a round *)
Section commit.
Context (e : Engine) (h : Header) (st : bftState) (l : list Bytes32).
Context (Hc : cache_ok e) (Hst : steady_rounds) (Hk : known h).
Context (Hl : path repo (ID h) l).
Let num : Z := Header_Number h.
Context (HF : 0 ≤ FINALITY fc ≤ num) (Hnum : num + EpochLength < max32).
Context (Hpoint : getStorePoint num = num) (Hpos : 0 < num) (HE1 : 1 < EpochLength).
(** [h] is the newest block: nothing known builds on it. *)
Context (Hleaf : ∀ h' sum, known h' → lastBefore h' = Ok sum → ID (sumHeader sum) ≠ ID h).
(** The finalized checkpoint is on the chain. *)
Context (Hfin : finalized e ∈ l) (Hcp : getCheckPoint (Number (finalized e)) = Number (finalized e)).
(** The earlier rounds of the chain were committed. *)
Definition rounds_saved : Prop := ∀ i id s, l !! i = Some id → hdrStore repo !! id = Some s →
  FINALITY fc ≤ Z.of_nat i < num → getStorePoint (Z.of_nat i) = Z.of_nat i → 0 < Z.of_nat i →
  ∃ st', stateOf (savedQuality e) (sumHeader s) = Ok st' ∧
    savedQuality e !! id = Some (Quality st') ∧ 0 ≤ Quality st' < max32 - 1.
Context (Hsaved : rounds_saved).
Context (Estate : stateOf (savedQuality e) h = Ok st).

Let start : Z := searchStart fc (finalized e).
Context (Hfrom : getCheckPoint (FINALITY fc) ≤ start).
Let sq' : gmap Bytes32 Z := <[ID h := Quality st]> (savedQuality e).

Lemma start_facts : getCheckPoint start = start ∧ 0 ≤ start ≤ Number (ID h).
Proof.
  rewrite Number_ID. fold num. unfold start, searchStart.
  destruct (Z.eqb_spec (Number (finalized e)) 0) as [E|E].
  - unfold getCheckPoint. rewrite Z.div_mul by lia.
    pose proof (Z.mul_div_le (FINALITY fc) EpochLength).
    assert (0 ≤ FINALITY fc / EpochLength) by (apply Z.div_pos; lia). split; [done|nia].
  - split; [done|]. apply list_elem_of_lookup in Hfin as [i Hi].
    rewrite (path_number _ HI _ _ _ _ Hl Hi). apply lookup_lt_Some in Hi.
    pose proof (path_length _ HI _ _ Hl) as Hlen. rewrite Number_ID in Hlen. fold num in Hlen. lia.
Qed.

Lemma saved_round n id s : l !! Z.to_nat n = Some id → hdrStore repo !! id = Some s →
  FINALITY fc ≤ n ≤ num → 0 < n → getStorePoint n = n →
  ∃ st', stateOf sq' (sumHeader s) = Ok st' ∧ sq' !! id = Some (Quality st') ∧
    (n < num → 0 ≤ Quality st' < max32 - 1).
Proof.
  intros Hn Hs HFn Hn0 Hsp.
  assert (∀ h', known h' → stateOf sq' h' = stateOf (savedQuality e) h') as Hext.
  { intros h' Hk'. apply stateOf_ext. intros sum Hsum. apply lookup_insert_ne. intros E.
    by apply (Hleaf h' sum). }
  pose proof (path_length _ HI _ _ Hl) as Hlen. rewrite Number_ID in Hlen. fold num in Hlen.
  destruct (decide (n = num)) as [->|Hne].
  - assert (id = ID h) as ->.
    { pose proof (path_last _ _ _ Hl) as Hlast. rewrite last_lookup in Hlast.
      replace (Nat.pred (length l)) with (Z.to_nat num) in Hlast by lia. congruence. }
    exists st. unfold sq' at 2. rewrite lookup_insert_eq. split_and!; [|done|lia].
    rewrite Hext by (by eapply known_repo). rewrite <- Estate. f_equal.
    apply known_inj; [by eapply known_repo|done|by apply (ri_id _ HI)].
  - destruct (Hsaved (Z.to_nat n) id s) as (st' & E1 & E2 & E3); try done;
      rewrite ?Z2Nat.id by lia; try done; [lia|].
    exists st'. split_and!; [by rewrite Hext by (by eapply known_repo)| |done].
    unfold sq'. rewrite lookup_insert_ne; [done|]. intros E.
    pose proof (path_number _ HI _ _ _ _ Hl Hn) as En. rewrite <- E, Number_ID in En.
    fold num in En. lia.
Qed.

(** The round before, seen from a block of the chain. *)
Lemma lastBefore_chain n id s : l !! Z.to_nat n = Some id → hdrStore repo !! id = Some s →
  0 < n < max32 - 1 → 0 < getCheckPoint n →
  Number (ParentID (sumHeader s)) = n - 1 ∧
  ∃ id0 s0, l !! Z.to_nat (getCheckPoint n - 1) = Some id0 ∧ hdrStore repo !! id0 = Some s0 ∧
    lastBefore (sumHeader s) = Ok s0.
Proof.
  intros Hn Hs Hn0 Hcpn. pose proof (path_number _ HI _ _ _ _ Hl Hn) as En.
  pose proof (path_prefix _ _ _ _ _ Hl Hn) as Hp. inversion Hp as [Eg|id' s' l' Hs' Hne Hpar Eid]; subst.
  { rewrite (ri_genesis_num _ HI) in En. lia. }
  assert (s' = s) as -> by congruence.
  destruct (ri_parent _ HI _ _ Hs Hne) as (_ & Enum & _).
  pose proof (lookup_lt_Some _ _ _ Hn) as Hlt.
  assert (l' = take (Z.to_nat n) l) as ->.
  { apply (f_equal (take (Z.to_nat n))) in H1. rewrite take_take in H1.
    replace (Z.to_nat n `min` S (Z.to_nat n))%nat with (Z.to_nat n) in H1 by lia. rewrite <- H1.
    pose proof (path_length _ HI _ _ Hpar). rewrite take_app_le by lia. symmetry. apply take_ge. lia. }
  split; [lia|]. unfold getCheckPoint in *. pose proof (Z.mul_div_le n EpochLength).
  destruct (lookup_lt_is_Some_2 l (Z.to_nat (n / EpochLength * EpochLength - 1))) as [id0 Hid0]; [lia|].
  destruct (path_stored _ HI _ _ (path_prefix _ _ _ _ _ Hl Hid0)) as [s0 Hs0].
  exists id0, s0. split_and!; try done. unfold lastBefore, chain_GetBlockSummary, lastOfParentRound, getCheckPoint.
  rewrite (wrap32_id (Number (ParentID (sumHeader s)) + 1)) by ulia.
  replace (Number (ParentID (sumHeader s)) + 1) with n by lia.
  destruct (Z.ltb_spec 0 (n / EpochLength * EpochLength)); [|lia].
  rewrite wrap32_id by ulia. rewrite (GetBlockID_path _ HI _ _ _ Hpar) by lia.
  rewrite lookup_take_lt by lia. rewrite Hid0. simpl. unfold GetBlockSummary. by rewrite Hs0.
Qed.

Lemma round_of i : 0 ≤ i < rounds (ID h) start →
  let n := start + i * EpochLength + EpochLength - 1 in
  n ≤ num ∧ FINALITY fc ≤ n ∧ 0 ≤ n ∧ getStorePoint n = n ∧
  getCheckPoint n = start + i * EpochLength.
Proof.
  intros Hi n. destruct start_facts as [Hd Hs]. pose proof Hnum. rewrite Number_ID in Hs. fold num in Hs.
  assert (start = start / EpochLength * EpochLength) as Es by (unfold getCheckPoint in Hd; lia).
  assert (getCheckPoint n = start + i * EpochLength) as Ecp.
  { unfold getCheckPoint, n. rewrite Es.
    replace (start / EpochLength * EpochLength + i * EpochLength + EpochLength - 1)
      with ((start / EpochLength + i) * EpochLength + (EpochLength - 1)) by lia.
    rewrite Z.div_add_l, (Z.div_small (EpochLength - 1)) by lia. lia. }
  assert (n ≤ num) as Hle.
  { unfold num. rewrite <- Number_ID. apply (store_point (ID h) start); rewrite ?Number_ID; try done. }
  assert (n = start + i * EpochLength + EpochLength - 1) as En by done.
  clearbody n num. clearbody start. unfold getStorePoint. rewrite Ecp. assert (0 ≤ i * EpochLength) by nia.
  pose proof (Z.mul_succ_div_gt (FINALITY fc) EpochLength).
  unfold getCheckPoint in Hfrom. split_and!; try lia.
  rewrite (wrap32_id (start + i * EpochLength + EpochLength)) by (unfold_int; lia).
  rewrite wrap32_id by (unfold_int; lia). done.
Qed.

Lemma chain_steps e2 : savedQuality e2 = sq' → unit_steps e2 (ID h) l start.
Proof.
  intros E2 i Hi Hi1. unfold roundQuality. rewrite E2.
  destruct (round_of i ltac:(lia)) as (Hle0 & HF0 & Hn0 & Hsp0 & Hcp0).
  destruct (round_of (i + 1) ltac:(lia)) as (Hle & HFn & Hn & Hsp & Hcpn).
  set (n0 := start + i * EpochLength + EpochLength - 1) in *.
  set (n := start + (i + 1) * EpochLength + EpochLength - 1) in *.
  destruct start_facts as [Hd Hs]. pose proof (path_length _ HI _ _ Hl) as Hlen.
  rewrite Number_ID in Hlen. fold num in Hlen.
  destruct (lookup_lt_is_Some_2 l (Z.to_nat n)) as [id Hid]; [lia|].
  destruct (path_stored _ HI _ _ (path_prefix _ _ _ _ _ Hl Hid)) as [s Hsid].
  destruct (lastBefore_chain n id s Hid Hsid) as (Epar & id0 & s0 & Hid0 & Hs0 & Hlast); [lia|nia|].
  rewrite Hcpn in Hid0. replace (start + (i + 1) * EpochLength - 1) with n0 in Hid0 by lia.
  rewrite Hid, Hid0. cbn [mbind option_bind].
  destruct (saved_round n id s) as (st1 & Est1 & Eq1 & _); try done; [nia|].
  assert (voting fc (sumHeader s) = true) as Hv.
  { unfold voting. rewrite (header_number _ HI _ _ Hsid), (path_number _ HI _ _ _ _ Hl Hid).
    rewrite Z2Nat.id by lia. apply negb_true_iff, orb_false_iff.
    split; [apply Z.eqb_neq; nia|by apply Z.ltb_ge]. }
  destruct (stateOf_quality _ _ _ Hv Est1) as (sum & Esum & Hq). rewrite Hlast in Esum.
  injection Esum as <-. rewrite (ri_id _ HI _ _ Hs0), Epar in Hq. cbn zeta in Hq.
  assert (isFirstRound fc (n - 1 +u32 1) = false) as Hnf.
  { rewrite wrap32_id by ulia. replace (n - 1 + 1) with n by lia. unfold isFirstRound. apply Z.eqb_neq.
    unfold getCheckPoint in Hcpn, Hfrom.
    assert (FINALITY fc / EpochLength < n / EpochLength) by (apply (Z.mul_lt_mono_pos_r EpochLength); nia).
    assert (0 ≤ FINALITY fc / EpochLength) by (apply Z.div_pos; lia).
    assert (n / EpochLength ≤ n) by (apply Z.div_le_upper_bound; nia).
    rewrite wrap32_id; unfold_int; lia. }
  rewrite Hnf in Hq. rewrite Eq1. change (default 0 (Some (Quality st1))) with (Quality st1).
  assert (0 ≤ default 0 (sq' !! id0) < max32 - 1) as Hsmall.
  { destruct (saved_round n0 id0 s0) as (st0 & Est0 & Eq0 & Hlt0); try done; [lia|].
    rewrite Eq0. simpl. lia. }
  rewrite wrap32_id in Hq by ulia. lia.
Qed.

Lemma last_round : 0 < rounds (ID h) start ∧
  start + (rounds (ID h) start - 1) * EpochLength + EpochLength - 1 = num.
Proof.
  destruct start_facts as [Hd Hs]. unfold rounds. rewrite Number_ID in *. fold num in Hs |- *.
  unfold getStorePoint, getCheckPoint in *. pose proof Hpoint as Hp.
  pose proof (Z.mul_div_le num EpochLength).
  assert (0 ≤ num / EpochLength) by (apply Z.div_pos; lia).
  clearbody num start. set (m := num / EpochLength) in *. set (s := start / EpochLength) in *.
  rewrite (wrap32_id (m * EpochLength + EpochLength)) in Hp by (unfold_int; nia).
  rewrite wrap32_id in Hp by (unfold_int; nia).
  replace (num - start) with ((m - s) * EpochLength + (EpochLength - 1)) by lia.
  rewrite Z.div_add_l, (Z.div_small (EpochLength - 1)) by lia. split; nia.
Qed.

Lemma last_quality e2 : savedQuality e2 = sq' →
  roundQuality e2 l start (rounds (ID h) start - 1) = Quality st.
Proof.
  intros E2. unfold roundQuality. rewrite (proj2 last_round), E2.
  pose proof (path_length _ HI _ _ Hl) as Hlen. rewrite Number_ID in Hlen. fold num in Hlen.
  pose proof (path_last _ _ _ Hl) as Hlast. rewrite last_lookup in Hlast.
  replace (Nat.pred (length l)) with (Z.to_nat num) in Hlast by lia. rewrite Hlast.
  unfold sq'. cbn [mbind option_bind]. by rewrite lookup_insert_eq.
Qed.

Lemma head_parent : is_Some (hdrStore repo !! ParentID h).
Proof.
  destruct (path_stored _ HI _ _ Hl) as [s Hs].
  assert (h = sumHeader s) as Eh.
  { apply known_inj; [done|by eapply known_repo|by symmetry; apply (ri_id _ HI)]. }
  rewrite Eh. apply (ri_parent _ HI _ _ Hs). intros E. pose proof (ri_genesis_num _ HI) as Hg.
  rewrite <- E, Number_ID in Hg. fold num in Hg. lia.
Qed.

(** The chain's round that the checkpoint [start + i * EpochLength] opens has
    the quality the last block of the round was saved with. *)
Definition finalizes e' : Prop := ∃ id k,
  finalized e' = id ∧ savedFinalized e' = Some id ∧ savedQuality e' = sq' ∧
  0 ≤ k < rounds (ID h) start ∧ l !! Z.to_nat (start + k * EpochLength) = Some id ∧
  roundQuality e' l start k = Quality st - 1 ∧
  ∀ i, 0 ≤ i < k → roundQuality e' l start i < Quality st - 1.

(** The failed search leaves the quality saved and the finalized block alone. *)
Definition unfinalized e' : Prop := savedQuality e' = sq' ∧ same_final e e'.

Lemma CommitBlock_point : CommitBlock fc evict repo states h false e = commitRound fc evict repo states h e.
Proof.
  unfold CommitBlock. fold num. rewrite (proj2 (Z.eqb_eq _ _) Hpoint). cbn [kwhen].
  unfold mbind, K_bind. by destruct (commitRound _ _ _ _ _ _) as [e' [[]|x]].
Qed.

(** The engine when the quality of the round has been saved. *)
Lemma commitRound_saves : ∃ e2, cache_ok e2 ∧ savedQuality e2 = sq' ∧ same_final e e2 ∧
  commitRound fc evict repo states h e =
  kwhen (Committed st && (1 <? Quality st))
    (keep (fin ← Finalized;
           id ← findCheckpointByQuality fc evict repo (Quality st -u32 1) fin (ID h);
           modify (λ e, e <| savedFinalized := Some id |> <| finalized := id |>))) e2.
Proof.
  assert (runs (computeState fc evict repo states h) (Ok st) e (kept e)) as (e1 & E1 & D1 & C1).
  { rewrite <- Estate. apply computeState_runs; try done. intros _. by apply head_parent. }
  pose proof (save_kept e1 h (Quality st) C1 Hleaf) as C2.
  eexists. split; [exact C2|]. destruct D1 as (Es & Esf & _ & Ef & _). simpl.
  split; [unfold sq'; by rewrite Es|]. split; [done|].
  unfold commitRound, mbind at 1, K_bind, keep at 1. by rewrite E1.
Qed.

(** C38: a committed round finalizes.  Let [h] be the last block of a round that
    is committed with quality q > 1, just stored and the newest of its branch,
    on a chain that goes through the finalized checkpoint and whose earlier
    rounds were all committed to the engine, where each signer's votes carry one
    weight in a round, and let the caches be in any correct state.  If the
    quality of the finalized checkpoint's own round is below q, [CommitBlock]
    succeeds, saves q, and moves the finalized block, in memory and in the
    store, to the checkpoint that opens the first round of the chain that
    reached quality q - 1.  Otherwise, as for a late last block of a round that
    is final already, it saves q and fails: no round from the finalized one on
    has quality q - 1. *)
Theorem committed_round_finalizes :
  Committed st = true → 1 < Quality st < max32 →
  if default 0 (l !! Z.to_nat (start + EpochLength - 1) ≫= (sq' !!.)) <? Quality st
  then ∃ e', CommitBlock fc evict repo states h false e = (e', Ok tt) ∧ finalizes e'
  else ∃ e', CommitBlock fc evict repo states h false e = (e', Err errQuality) ∧ unfinalized e'.
Proof.
  intros Hcom Hq. destruct commitRound_saves as (e2 & C2 & E2 & [Es Ef] & Ecom).
  assert (CommitBlock fc evict repo states h false e =
    match findCheckpointByQuality fc evict repo (Quality st - 1) (finalized e) (ID h) e2 with
    | Ok (id, e3) => (e3 <| savedFinalized := Some id |> <| finalized := id |>, Ok tt)
    | Err x => (e2, Err x)
    end) as ->.
  { rewrite CommitBlock_point, Ecom, Hcom, (proj2 (Z.ltb_lt 1 (Quality st))) by lia.
    rewrite wrap32_id by ulia. cbn [andb kwhen]. unfold keep, mbind, M_bind, Finalized, gets. rewrite Ef.
    by destruct (findCheckpointByQuality _ _ _ _ _ _ _) as [[id e3]|]. }
  destruct start_facts as [Hd Hs].
  pose proof (findCheckpoint_first e2 (ID h) l Hl start Hs Hd) as Hfind.
  rewrite !Number_ID in Hfind. specialize (Hfind Hpoint Hnum (Quality st - 1) (finalized e) e2
    (kept_refl _ _ _ _ e2 C2) (chain_steps e2 E2) eq_refl).
  rewrite (last_quality e2 E2) in Hfind. specialize (Hfind ltac:(lia)).
  assert (roundQuality e2 l start 0 = default 0 (l !! Z.to_nat (start + EpochLength - 1) ≫= (sq' !!.))) as <-.
  { unfold roundQuality. by rewrite E2, Z.mul_0_l, Z.add_0_r. }
  destruct (Z.leb_spec (roundQuality e2 l start 0) (Quality st - 1)), (Z.ltb_spec (roundQuality e2 l start 0) (Quality st));
    try lia.
  - destruct Hfind as (id & k & (e3 & Hrun & (E3 & _) & _) & Hk' & Hid & Hqk & Hbelow). rewrite Hrun.
    eexists. split; [done|]. exists id, k. unfold roundQuality in *. cbn. rewrite E3, E2 in *. done.
  - unfold runs in Hfind. rewrite Hfind. by exists e2.
Qed.
End commit.

(** ** Voting *)
Section vote.
Context (master : Address).
Abbreviation ancestor := (ancestor repo).

Lemma HasBlock_ancestor x y b : 0 ≤ Number y → HasBlock repo x y = Ok b →
  b = true ↔ ancestor y x.
Proof.
  intros Hy Hb. destruct (hdrStore repo !! x) as [s|] eqn:Ex.
  - destruct (path_exists _ HI _ _ Ex) as [l Hl]. rewrite (HasBlock_path _ HI _ _ _ Hl Hy) in Hb.
    injection Hb as <-. rewrite bool_decide_eq_true. split; [by exists l|].
    intros (l' & Hl' & Hin). by rewrite (path_unique _ _ _ _ Hl Hl').
  - split; [|intros (l & Hl & _); destruct (path_stored _ HI _ _ Hl); congruence].
    intros ->. unfold HasBlock, GetBlockID, GetBlockSummary in Hb. rewrite Ex in Hb. simpl in Hb.
    repeat case_match; done.
Qed.

(** [x] and [y] lie on one branch. *)
Definition one_branch (x y : Bytes32) : Prop := ancestor x y ∨ ancestor y x.

Lemma ancestor_number x y : ancestor x y → Number x ≤ Number y ∧ (Number x = Number y → x = y).
Proof.
  intros (l & Hl & Hx). apply list_elem_of_lookup in Hx as [i Hi].
  pose proof (path_number _ HI _ _ _ _ Hl Hi). pose proof (path_length _ HI _ _ Hl).
  pose proof (lookup_lt_Some _ _ _ Hi). split; [lia|]. intros E.
  pose proof (path_last _ _ _ Hl) as Hlast. rewrite last_lookup in Hlast.
  replace (Nat.pred (length l)) with i in Hlast by lia. congruence.
Qed.

Lemma branch_test jc cp b : is_Some (hdrStore repo !! jc) → 0 ≤ Number cp →
  (let '(x, y) := if Number jc <? Number cp then (cp, jc) else (jc, cp) in HasBlock repo x y) = Ok b →
  b = true ↔ one_branch cp jc.
Proof.
  intros [s Hs] Hcp Hb. pose proof (Number_nonneg _ HI _ _ Hs) as Hjc. unfold one_branch.
  destruct (Z.ltb_spec (Number jc) (Number cp)).
  - rewrite (HasBlock_ancestor _ _ _ Hjc Hb). split; [by right|].
    intros [Ha|Ha]; [|done]. apply ancestor_number in Ha. lia.
  - rewrite (HasBlock_ancestor _ _ _ Hcp Hb). split; [by left|].
    intros [Ha|Ha]; [done|]. destruct (ancestor_number _ _ Ha) as [? Heq].
    rewrite <- (Heq ltac:(lia)). by eapply ancestor_refl.
Qed.

Lemma noConflict_spec jc q ls b : is_Some (hdrStore repo !! jc) →
  (∀ cp quality, (cp, quality) ∈ ls → 0 ≤ Number cp) → noConflict repo jc q ls = Ok b →
  b = true ↔ ∀ cp quality, (cp, quality) ∈ ls → q -u32 1 ≤ quality → one_branch cp jc.
Proof.
  intros Hjc. induction ls as [|[cp quality] ls IH]; intros Hn Hb.
  { injection Hb as <-. split; [|done]. intros _ cp quality Hin. by apply elem_of_nil in Hin. }
  assert (∀ cp' quality', (cp', quality') ∈ ls → 0 ≤ Number cp') as Hn'
    by (intros; eapply Hn; by apply elem_of_cons; right).
  pose proof (Hn cp quality ltac:(by apply elem_of_cons; left)) as Hcp.
  cbn [noConflict] in Hb. destruct (Z.leb_spec (q -u32 1) quality).
  - pose proof (branch_test jc cp) as Ht.
    destruct (if Number jc <? Number cp then _ else _) as [x y].
    destruct (HasBlock repo x y) as [bb|]; [|done]. specialize (Ht bb Hjc Hcp eq_refl). cbn in Hb.
    destruct bb; simpl in Hb.
    + rewrite (IH Hn' Hb). setoid_rewrite elem_of_cons. naive_solver.
    + injection Hb as <-. split; [done|]. intros Hall.
      apply Ht. apply (Hall cp quality); [by apply elem_of_cons; left|done].
  - rewrite (IH Hn' Hb). setoid_rewrite elem_of_cons. split; [|naive_solver].
    intros Hall cp' quality' [[= -> ->]|Hin] Hge; [lia|by eapply Hall].
Qed.

Lemma Slice_elem fin c cp q : (cp, q) ∈ Slice fin c ↔ c !! cp = Some q ∧ Number fin ≤ Number cp.
Proof.
  unfold Slice. rewrite (merge_sort_Permutation castOrder), list_elem_of_filter, elem_of_map_to_list.
  simpl. naive_solver.
Qed.

(** *** The votes a restarted node remembers *)

(** The last block of the master on the chain of [head], no older than the
    finalized block, votes for the checkpoint [cp] with the state [st]. *)
Definition last_vote e (head cp : Bytes32) (st : bftState) : Prop := ∃ lh i id s,
  path repo head lh ∧ lh !! i = Some id ∧ hdrStore repo !! id = Some s ∧
  signerOf (sumHeader s) = master ∧ Number (finalized e) ≤ Z.of_nat i ∧
  (∀ j id' s', (i < j)%nat → lh !! j = Some id' → hdrStore repo !! id' = Some s' →
    signerOf (sumHeader s') ≠ master) ∧
  lh !! Z.to_nat (getCheckPoint (Z.of_nat i)) = Some cp ∧
  stateOf (savedQuality e) (sumHeader s) = Ok st.

Lemma last_vote_unique e head cp st cp' st' :
  last_vote e head cp st → last_vote e head cp' st' → cp = cp' ∧ st = st'.
Proof.
  intros (lh & i & id & s & Hp & Hi & Hs & Hm & _ & Hlast & Hcp & Hst')
    (lh' & i' & id' & s' & Hp' & Hi' & Hs' & Hm' & _ & Hlast' & Hcp' & Hst'').
  rewrite (path_unique _ _ _ _ Hp' Hp) in *. assert (i = i') as ->.
  { destruct (lt_eq_lt_dec i i') as [[Hlt|]|Hgt]; [|done|].
    - by destruct (Hlast _ _ _ Hlt Hi' Hs').
    - by destruct (Hlast' _ _ _ Hgt Hi Hs). }
  assert (id' = id) as -> by congruence. assert (s' = s) as -> by congruence. split; congruence.
Qed.

(** A vote is entered unless a higher one for the checkpoint is there. *)
Definition addCast (cp : Bytes32) (quality : Z) (c : gmap Bytes32 Z) : gmap Bytes32 Z :=
  match c !! cp with
  | Some q => if q <? quality then <[cp := quality]> c else c
  | None => <[cp := quality]> c
  end.

Lemma addCast_lookup cp quality c cp' : addCast cp quality c !! cp' =
  if decide (cp' = cp) then Some (from_option (Z.max quality) quality (c !! cp)) else c !! cp'.
Proof.
  unfold addCast. case_decide as E; [subst cp'|].
  - destruct (c !! cp) as [q|] eqn:Ec; simpl; [|by rewrite lookup_insert_eq].
    destruct (Z.ltb_spec q quality); [rewrite lookup_insert_eq|rewrite Ec]; f_equal; lia.
  - destruct (c !! cp) as [q|]; [destruct (q <? quality)|]; by rewrite ?lookup_insert_ne.
Qed.

Lemma path_parent_at head lh i id s : path repo head lh → lh !! S i = Some id →
  hdrStore repo !! id = Some s → lh !! i = Some (ParentID (sumHeader s)).
Proof.
  intros Hp Hi Hs. pose proof (path_prefix _ _ _ _ _ Hp Hi) as Hq. pose proof (path_number _ HI _ _ _ _ Hp Hi) as En.
  inversion Hq as [Eg|id' s' l' Hs' Hne Hpar Eid El]; subst.
  { rewrite (ri_genesis_num _ HI) in En. lia. }
  assert (s' = s) as -> by congruence. pose proof (path_last _ _ _ Hpar) as Hlast.
  pose proof (path_length _ HI _ _ Hpar) as Hlen. destruct (ri_parent _ HI _ _ Hs Hne) as (_ & En' & _).
  rewrite last_lookup in Hlast. replace (Nat.pred (length l')) with i in Hlast by lia.
  rewrite <- (lookup_take_lt lh (S (S i))) by lia. rewrite <- El. by apply lookup_app_l_Some.
Qed.

(** The state computed for a stored block is its state, whatever the caches. *)
Lemma stored_state e e1 id s st e2 : steady_rounds → kept e e1 → hdrStore repo !! id = Some s →
  computeState fc evict repo states (sumHeader s) e1 = Ok (st, e2) →
  stateOf (savedQuality e) (sumHeader s) = Ok st ∧ kept e e2.
Proof.
  intros Hst K1 Hs E. assert (runs (computeState fc evict repo states (sumHeader s))
    (stateOf (savedQuality e1) (sumHeader s)) e1 (kept e1)) as Hr.
  { apply computeState_runs; try done; [apply K1|by eapply known_repo|]. intros Hv.
    apply (ri_parent _ HI _ _ Hs). intros ->. unfold voting in Hv.
    rewrite (header_number _ HI _ _ Hs), (ri_genesis_num _ HI) in Hv. done. }
  unfold runs in Hr. rewrite (proj1 (proj1 K1)) in Hr.
  destruct (stateOf (savedQuality e) (sumHeader s)) as [st'|] eqn:Est; [|congruence].
  destruct Hr as (e4 & E4 & K4). rewrite E in E4. injection E4 as <- <-.
  split; [done|by eapply kept_trans].
Qed.

Lemma castOf_spec e head lh fuel : steady_rounds → 0 ≤ Number (finalized e) → path repo head lh → ∀ i cur c e1 c' e2,
  kept e e1 → lh !! i = Some cur → Number (finalized e) ≤ Z.of_nat i →
  (∀ j id' s', (i < j)%nat → lh !! j = Some id' → hdrStore repo !! id' = Some s' →
    signerOf (sumHeader s') ≠ master) →
  castOf fc master evict repo states fuel (finalized e) head cur c e1 = Ok (c', e2) →
  kept e e2 ∧ ((∃ cp st, last_vote e head cp st ∧ c' = addCast cp (Quality st) c) ∨
    (c' = c ∧ ∀ cp st, ¬ last_vote e head cp st)).
Proof.
  intros Hst Hf0 Hp. induction fuel as [|fuel IH]; intros i cur c e1 c' e2 K1 Hi Hfin Habove E; [done|].
  cbn [castOf] in E. apply bind_Ok in E as (s & e1' & Es & E). unfold lift, GetBlockSummary in Es.
  destruct (hdrStore repo !! cur) as [s'|] eqn:Hs; [|done]. injection Es as <- <-.
  assert (Header_Number (sumHeader s') = Z.of_nat i) as En
    by (rewrite (header_number _ HI _ _ Hs); by apply (path_number _ HI _ _ _ _ Hp)).
  destruct (Z.eqb_spec (signerOf (sumHeader s')) master) as [Hm|Hm].
  - apply bind_Ok in E as (st & e3 & E3 & E). apply bind_Ok in E as (cp & e3' & Ecp & E).
    destruct (stored_state e e1 cur s' st e3 Hst K1 Hs E3) as [Est K4].
    unfold lift in Ecp. assert (0 ≤ getCheckPoint (Z.of_nat i)).
    { unfold getCheckPoint. assert (0 ≤ Z.of_nat i / EpochLength) by (apply Z.div_pos; lia). nia. }
    rewrite En, (GetBlockID_path _ HI _ _ _ Hp) in Ecp by done.
    destruct (lh !! Z.to_nat (getCheckPoint (Z.of_nat i))) as [cp'|] eqn:Elh; [|done].
    injection Ecp as <- <-. injection E as <- <-. split; [done|].
    left. exists cp', st. split; [|done]. by exists lh, i, cur, s'.
  - assert (∀ j id' s', (i ≤ j)%nat → lh !! j = Some id' → hdrStore repo !! id' = Some s' →
      signerOf (sumHeader s') ≠ master) as Hfrom.
    { intros j id' s Hj Hj' Hs'. destruct (decide (i = j)) as [<-|]; [congruence|].
      apply (Habove j id' s); [lia|done|done]. }
    rewrite En in E. destruct (Z.leb_spec (Z.of_nat i) (Number (finalized e))).
    + injection E as <- <-. split; [done|]. right. split; [done|].
      intros cp st (lh' & k & id & sk & Hp' & Hk & Hsk & Hmk & Hfk & _).
      rewrite (path_unique _ _ _ _ Hp' Hp) in Hk. by apply (Hfrom k id sk ltac:(lia)).
    + destruct i as [|i]; [lia|].
      apply (IH i _ _ _ _ _ K1 (path_parent_at _ _ _ _ _ Hp Hi Hs) ltac:(lia)) in E; [done|].
      intros j id' s Hj. apply Hfrom. lia.
Qed.

(** The casts hold the last vote of the master on every branch from the finalized
    block on, and nothing else; of the votes for one checkpoint, the highest. *)
Record remembers e (heads : list Bytes32) (c : gmap Bytes32 Z) : Prop := {
  rm_sound : ∀ cp q, c !! cp = Some q →
    ∃ head st, head ∈ heads ∧ last_vote e head cp st ∧ q = Quality st;
  rm_all : ∀ head cp st, head ∈ heads → last_vote e head cp st →
    ∃ q, c !! cp = Some q ∧ Quality st ≤ q;
}.

Lemma remembers_snoc e heads head c cp st :
  remembers e heads c → last_vote e head cp st → remembers e (heads ++ [head]) (addCast cp (Quality st) c).
Proof.
  intros [Hs Ha] Hv. split.
  - intros cp' q. rewrite addCast_lookup. case_decide as E; [subst cp'|].
    + intros [= <-]. destruct (c !! cp) as [q|] eqn:Ec; simpl.
      * destruct (Hs cp q Ec) as (hd & st' & Hin & Hv' & ->).
        destruct (Z.max_spec (Quality st) (Quality st')) as [[_ ->]|[_ ->]]; [exists hd, st'|exists head, st];
          split_and!; set_solver.
      * exists head, st. split_and!; set_solver.
    + intros Hq. destruct (Hs _ _ Hq) as (hd & st' & Hin & ?). exists hd, st'. split; [set_solver|done].
  - intros hd cp' st' [Hin| ->%list_elem_of_singleton]%elem_of_app Hv'; rewrite addCast_lookup.
    + destruct (Ha hd cp' st' Hin Hv') as (q & Hq & Hle). case_decide as E; [subst cp'|by exists q].
      rewrite Hq. simpl. eexists. split; [done|lia].
    + destruct (last_vote_unique e head _ _ _ _ Hv Hv') as [-> ->]. rewrite decide_True by done.
      eexists. split; [done|]. destruct (c !! cp'); simpl; lia.
Qed.

Lemma remembers_none e heads head c : (∀ cp st, ¬ last_vote e head cp st) →
  remembers e heads c → remembers e (heads ++ [head]) c.
Proof.
  intros Hno [Hs Ha]. split.
  - intros cp q Hq. destruct (Hs cp q Hq) as (hd & st & Hin & ?). exists hd, st. split; [set_solver|done].
  - intros hd cp st [Hin| ->%list_elem_of_singleton]%elem_of_app Hv; [by eapply Ha|by destruct (Hno cp st)].
Qed.

Lemma casts_fold e heads : steady_rounds → 0 ≤ Number (finalized e) →
  (∀ head, head ∈ heads → Number (finalized e) ≤ Number head) → ∀ seen c e1 c' e2,
  kept e e1 → remembers e seen c →
  foldM (λ c head, castOf fc master evict repo states (S (Z.to_nat (Number head)))
    (finalized e) head head c) c heads e1 = Ok (c', e2) →
  kept e e2 ∧ remembers e (seen ++ heads) c'.
Proof.
  intros Hst Hf0. induction heads as [|head heads IH]; intros Hh seen c e1 c' e2 K1 Hr E.
  { injection E as <- <-. by rewrite app_nil_r. }
  cbn [foldM] in E. apply bind_Ok in E as (c1 & e3 & E1 & E).
  assert (∃ s, hdrStore repo !! head = Some s) as [s Hs].
  { cbn [castOf] in E1. apply bind_Ok in E1 as (s & ? & Es & _). unfold lift, GetBlockSummary in Es.
    destruct (hdrStore repo !! head); [by eexists|done]. }
  destruct (path_exists _ HI _ _ Hs) as [lh Hp]. pose proof (path_length _ HI _ _ Hp) as Hlen.
  pose proof (Number_nonneg _ HI _ _ Hs). pose proof (path_last _ _ _ Hp) as Hlast.
  rewrite last_lookup in Hlast.
  apply (castOf_spec e head lh _ Hst Hf0 Hp (Nat.pred (length lh))) in E1 as [K3 Hc1]; try done.
  - replace (seen ++ head :: heads) with ((seen ++ [head]) ++ heads) by (by rewrite <- app_assoc).
    eapply (IH ltac:(intros; apply Hh; set_solver)); [exact K3| |exact E].
    destruct Hc1 as [(cp & st & Hv & ->)|[-> Hno]]; [by apply remembers_snoc|by apply remembers_none].
  - pose proof (Hh head ltac:(set_solver)). lia.
  - intros j id' s' Hj Hj'. apply lookup_lt_Some in Hj'. lia.
Qed.

Lemma newCasts_remembers e e' : steady_rounds → cache_ok e → 0 ≤ Number (finalized e) →
  newCasts fc master evict repo states e = Ok (tt, e') →
  ∃ e1 c, kept e e1 ∧ e' = e1 <| casts := Some c |> ∧
    remembers e (ScanHeads repo (Number (finalized e))) c.
Proof.
  intros Hst Hc Hf0 E. unfold newCasts in E. apply bind_Ok in E as (fin & e0 & [= <- <-] & E).
  apply bind_Ok in E as (c & e1 & E1 & [= <-]).
  eapply (casts_fold e _ Hst Hf0 _ []) in E1 as [K1 Hr]; [by exists e1, c|by apply kept_refl|].
  split; [by intros ? ? ?%lookup_empty_Some|by intros ? ? ? ?%elem_of_nil].
  Unshelve. intros head Hin. unfold ScanHeads in Hin. rewrite (merge_sort_Permutation Z.ge) in Hin.
  by apply elem_of_elements, elem_of_filter in Hin as [? _].
Qed.

Context (pid : Bytes32) (l : list Bytes32) (Hl : path repo pid l).
Context (Hmax : EpochLength ≤ Number pid ∧ Number pid + EpochLength < max32).

Let prev : Z := getStorePoint (Number pid -u32 EpochLength).

(** The most recent justified checkpoint of the chain of [pid]: the one of the
    current round if the round is justified, and otherwise the one that opens the
    concluded round at which the saved quality reached the quality of the head. *)
Definition recent_justified e st (jc : Bytes32) : Prop :=
  if Justified st then l !! Z.to_nat (getCheckPoint (Number pid)) = Some jc else
  let start := searchStart fc (finalized e) in
  ∃ k, 0 ≤ k ∧ start + k * EpochLength + EpochLength - 1 ≤ prev ∧
    l !! Z.to_nat (start + k * EpochLength) = Some jc ∧
    roundQuality e l start k = Quality st ∧
    (0 < k → roundQuality e l start (k - 1) < Quality st).

Lemma prev_facts : 0 ≤ prev ≤ Number pid ∧ getStorePoint prev = prev ∧ prev + EpochLength < max32.
Proof.
  unfold prev, getStorePoint, getCheckPoint. rewrite (wrap32_id (Number pid - EpochLength)) by ulia.
  set (k := (Number pid - EpochLength) / EpochLength).
  assert (0 ≤ k) by (apply Z.div_pos; lia).
  assert (EpochLength * k ≤ Number pid - EpochLength) by (apply Z.mul_div_le; lia).
  rewrite (wrap32_id (k * EpochLength + EpochLength)) by (unfold_int; nia).
  rewrite (wrap32_id (k * EpochLength + EpochLength - 1)) by (unfold_int; nia).
  replace (k * EpochLength + EpochLength - 1) with (k * EpochLength + (EpochLength - 1)) by lia.
  rewrite Z.div_add_l, (Z.div_small (EpochLength - 1)), Z.add_0_r by lia.
  rewrite (wrap32_id (k * EpochLength + EpochLength)) by (unfold_int; nia).
  rewrite wrap32_id by (unfold_int; nia). split_and!; nia.
Qed.

Lemma roundQuality_take e start i n : start + i * EpochLength + EpochLength - 1 ≤ Z.of_nat n →
  roundQuality e (take (S n) l) start i = roundQuality e l start i.
Proof. intros Hi. unfold roundQuality. by rewrite lookup_take_lt by lia. Qed.

Lemma recent_found st e e1 jc e2 : kept e e1 → let start := searchStart fc (finalized e) in
  0 ≤ start ≤ prev → getCheckPoint start = start →
  recentJustified fc evict repo pid st (finalized e) e1 = Ok (jc, e2) →
  recent_justified e st jc ∧ jc ∈ l ∧ kept e e2.
Proof.
  intros K1 start Hs Hd E. unfold recentJustified in E. unfold recent_justified.
  destruct prev_facts as (Hp0 & Hpp & Hpm). destruct (Justified st).
  - unfold lift in E. unfold getCheckPoint in *. pose proof (Z.mul_div_le (Number pid) EpochLength).
    assert (0 ≤ Number pid / EpochLength) by (apply Z.div_pos; lia).
    rewrite (GetBlockID_path _ HI _ _ _ Hl) in E by nia.
    destruct (l !! _) as [id|] eqn:Ei; [|done]. injection E as <- <-.
    split_and!; try done. by eapply list_elem_of_lookup_2.
  - fold prev in E. apply bind_Ok in E as (pv & e1' & Epv & E). unfold lift in Epv.
    rewrite (GetBlockID_path _ HI _ _ _ Hl) in Epv by lia.
    destruct (l !! Z.to_nat prev) as [id|] eqn:Ei; [|done]. injection Epv as <- <-.
    pose proof (path_number _ HI _ _ _ _ Hl Ei) as En. rewrite Z2Nat.id in En by lia.
    destruct (findCheckpoint_edge e id _ (path_prefix _ _ _ _ _ Hl Ei) start) with
      (target := Quality st) (fin := finalized e) (e1 := e1) as (k & Hk & _ & Hbelow & Hrun);
      rewrite ?En; try done.
    destruct ((k <? rounds id start) && _) eqn:Ec; [|unfold runs in Hrun; congruence].
    apply andb_true_iff in Ec as [Hkr%Z.ltb_lt Hq%Z.eqb_eq].
    destruct Hrun as (jc' & Hjc & e3 & E3 & K3). rewrite E in E3. injection E3 as <- <-.
    pose proof (store_point id start) as Hsp. rewrite En in Hsp.
    destruct (Hsp Hs Hd Hpp Hpm k ltac:(lia)) as [Hle _].
    rewrite roundQuality_take in Hq by lia. rewrite lookup_take_lt in Hjc by nia.
    split_and!; try done; [|by eapply list_elem_of_lookup_2]. exists k. split_and!; try done; [lia|].
    intros Hk0. specialize (Hbelow Hk0). rewrite roundQuality_take in Hbelow by nia. done.
Qed.

(** The casts [ShouldVote] works with: the ones it had, or the rebuilt ones. *)
Definition casts_used e (c : gmap Bytes32 Z) : Prop :=
  casts e = Some c ∨
  (casts e = None ∧ remembers e (ScanHeads repo (Number (finalized e))) c).

Lemma casts_ready e e0 : steady_rounds → cache_ok e → 0 ≤ Number (finalized e) →
  when (bool_decide (casts e = None)) (newCasts fc master evict repo states) e = Ok (tt, e0) →
  ∃ c, casts_used e c ∧ casts e0 = Some c ∧ cache_ok e0 ∧
    savedQuality e0 = savedQuality e ∧ finalized e0 = finalized e.
Proof.
  intros Hst Hc Hf0 E. unfold when in E. destruct (casts e) as [c|] eqn:Ec.
  - rewrite bool_decide_eq_false_2 in E by done. injection E as <-. exists c. by split_and!; [left|..].
  - rewrite bool_decide_eq_true_2 in E by done.
    destruct (newCasts_remembers e e0 Hst Hc Hf0 E) as (e1 & c & [(D1 & _ & _ & D4 & _) C1] & -> & Hr).
    exists c. split_and!; try done; [by right|]. by destruct C1.
Qed.

(** C40: a vote to commit contradicts no vote the node has cast.  Let [ShouldVote]
    answer for a block to be built on [pid], past the first round, with correct
    caches and one weight for each signer in a round, where the search by quality
    starts at a checkpoint before the current round.  The casts it uses are the
    ones the node has kept, or, after a restart, exactly the last vote of the
    master on each branch from the finalized block on.  With q the quality of the
    state of [pid], the answer is false if q = 0, and otherwise true exactly if
    every cast for a checkpoint from the finalized block on with quality at least
    q - 1 is on one branch with the most recent justified checkpoint of the
    chain. *)
Theorem vote_never_conflicts s e b e' :
  steady_rounds → cache_ok e → hdrStore repo !! pid = Some s → finalized_ok repo e →
  isFirstRound fc (Number pid +u32 1) = false →
  0 ≤ searchStart fc (finalized e) ≤ prev →
  getCheckPoint (searchStart fc (finalized e)) = searchStart fc (finalized e) →
  ShouldVote fc master evict repo states pid e = Ok (b, e') →
  ∃ c st, casts_used e c ∧ casts e' = Some c ∧ stateOf (savedQuality e) (sumHeader s) = Ok st ∧
    if Quality st =? 0 then b = false else
    ∃ jc, recent_justified e st jc ∧
      (b = true ↔ ∀ cp q, c !! cp = Some q → Number (finalized e) ≤ Number cp →
        Quality st -u32 1 ≤ q → one_branch cp jc).
Proof.
  intros Hst Hc Hs [[sf Hsf] _] Hround Hstart Hdiv Hv. unfold ShouldVote in Hv.
  pose proof (Number_nonneg _ HI _ _ Hsf) as Hf0.
  apply bind_Ok in Hv as (c0 & e0' & [= <- <-] & Hv).
  apply bind_Ok in Hv as ([] & e0 & E0 & Hv). rewrite Hround in Hv.
  destruct (casts_ready e e0 Hst Hc Hf0 E0) as (c & Hcu & Ec & C0 & Esq & Ef).
  apply bind_Ok in Hv as (s' & e0' & Es & Hv). unfold lift, GetBlockSummary in Es. rewrite Hs in Es.
  injection Es as <- <-. apply bind_Ok in Hv as (st & e1 & E1 & Hv).
  apply (stored_state e0 e0 pid s st e1 Hst (kept_refl _ _ _ _ e0 C0) Hs) in E1 as [Est K1].
  rewrite Esq in Est. pose proof K1 as [(_ & _ & Ec1 & Ef1 & _) _].
  exists c, st. split; [done|]. destruct (Quality st =? 0).
  { injection Hv as <- <-. split; [congruence|done]. }
  apply bind_Ok in Hv as (fin & e1' & [= <- <-] & Hv). rewrite Ef1 in Hv.
  apply bind_Ok in Hv as (jc & e2 & E2 & Hv). rewrite <- Ef in Hstart, Hdiv.
  destruct (recent_found st e0 e1 jc e2 K1 Hstart Hdiv E2) as (Hjc & Hin & [(_ & _ & Ec2 & _) _]).
  apply bind_Ok in Hv as (c1 & e2' & [= <- <-] & Hv). unfold lift in Hv.
  destruct (noConflict _ _ _ _) as [b'|] eqn:En; [|done]. injection Hv as <- <-.
  rewrite Ec2, Ec in *. split; [done|]. split; [done|]. exists jc. split.
  { unfold recent_justified, roundQuality in *. by rewrite <- Esq, <- Ef. }
  rewrite Ef in En. apply noConflict_spec in En as ->; [|by eapply path_elem_stored|].
  - setoid_rewrite Slice_elem. simpl. naive_solver.
  - intros cp q Hq. apply Slice_elem in Hq. lia.
Qed.
End vote.
End engine.

(** ** Witnesses

    The node of [run_node0] after four and after five blocks, with the engine
    restarted in between: block 5 closes the third round, which is committed
    with quality 3. *)
#[local] Existing Instances demo_Rlp demo_RlpSpec demo_Crypto demo_CryptoSpec.

(** The chain of a block, from the genesis block on. *)
Fixpoint pathOf (fuel : nat) (r : ChainRepo) (id : Bytes32) : option (list Bytes32) :=
  match fuel with
  | O => None
  | S fuel =>
      if id =? genesisID r then Some [id] else
      s ← hdrStore r !! id;
      l ← pathOf fuel r (ParentID (sumHeader s));
      Some (l ++ [id])
  end.

Lemma pathOf_path fuel r id l : pathOf fuel r id = Some l → path r id l.
Proof.
  revert id l. induction fuel as [|fuel IH]; intros id l; [done|]. cbn [pathOf].
  destruct (Z.eqb_spec id (genesisID r)) as [->|Hne]; [intros [= <-]; constructor|].
  intros (s & Hs & (l' & Hl' & [= <-])%bind_Some)%bind_Some.
  eapply path_step; [exact Hs|exact Hne|by apply IH].
Qed.

Definition stored_header (r : ChainRepo) (h : Header) : Prop :=
  ∃ id s, hdrStore r !! id = Some s ∧ h = sumHeader s.

Lemma stored_header_inj r : repo_inv r → ∀ h h', stored_header r h → stored_header r h' →
  ID h = ID h' → h = h'.
Proof.
  intros HI h h' (id & s & Hs & ->) (id' & s' & Hs' & ->) E.
  rewrite (ri_id _ HI _ _ Hs), (ri_id _ HI _ _ Hs') in E. congruence.
Qed.

(** Checks on every stored header. *)
Definition all_stored (r : ChainRepo) (f : Header → bool) : bool :=
  forallb (λ ks, f (sumHeader ks.2)) (map_to_list (hdrStore r)).

Lemma all_stored_spec r f h : all_stored r f = true → stored_header r h → f h = true.
Proof.
  unfold all_stored. rewrite forallb_forall. intros Hf (id & s & Hs & ->).
  apply (Hf (id, s)), list_elem_of_In, elem_of_map_to_list, Hs.
Qed.

(** The weight of the first vote of [a]. *)
Definition weightIn (bs : list ballot) (a : Address) : Z :=
  default 0 (bWeight <$> head (filter (λ b, bSigner b = a) bs)).

(** All votes of a signer weigh the same, in the round up to [h]. *)
Definition evenly (fc : ForkConfig) (r : ChainRepo) states (h : Header) : bool :=
  match ballots fc r states (blocksFuel h) (getCheckPoint (Header_Number h)) h with
  | Ok bs => forallb (λ b, bWeight b =? weightIn bs (bSigner b)) bs
  | Err _ => true
  end.

Lemma evenly_steady fc r states : all_stored r (evenly fc r states) = true →
  steady_rounds fc r states (stored_header r).
Proof.
  intros Ha h bs Hk Hb. pose proof (all_stored_spec _ _ _ Ha Hk) as Hw. unfold evenly in Hw.
  rewrite Hb in Hw. exists (weightIn bs). intros b Hin.
  rewrite forallb_forall in Hw. apply Z.eqb_eq, Hw, list_elem_of_In, Hin.
Qed.

(** The repository after block 5, and the engine before, restarted. *)
Definition run_round : option (Node * Node * BlockSummary) :=
  match run_node0 with
  | Ok n => n4 ← receive_chain 4 n; n5 ← receive_chain 1 n4;
      s ← hdrStore (nRepo n5) !! ID (sumHeader (bestSummary (nRepo n5))); Some (n4, n5, s)
  | Err _ => None
  end.

Lemma run_round_ok n4 n5 s : run_round = Some (n4, n5, s) →
  node_ok n5 ∧ hdrStore (nRepo n5) !! ID (sumHeader s) = Some s.
Proof.
  unfold run_round. destruct run_node0 as [n|] eqn:E0; [|discriminate].
  intros (n4' & E4 & (n5' & E5 & (s' & Es & [= <- <- <-])%bind_Some)%bind_Some)%bind_Some.
  assert (rtc (node_step finality_fork 0 extends_final) n n5') as Hr
    by (etransitivity; [exact (receive_run _ _ _ E4)|exact (receive_run _ _ _ E5)]).
  clear E4 E5. pose proof (run_node0_ok n E0) as Hok. clear E0.
  enough (node_ok n5') as Hok5.
  { split; [exact Hok5|]. by rewrite (ri_id _ (no_repo _ Hok5) _ _ Es). }
  clear Es. revert Hok. induction Hr as [|n1 n2 n3 Hs _ IH]; intros Hok; [exact Hok|]. apply IH.
  apply (node_step_good finality_fork 0 ltac:(split; reflexivity) ltac:(discriminate) _ _ Hok Hs).
Qed.

(** All that the witnesses need of the run, by evaluation. *)
Definition round_check (n4 n5 : Node) (s : BlockSummary) : bool :=
  let r := nRepo n5 in let h := sumHeader s in
  (Header_Number h =? 5) &&
  all_stored r (evenly finality_fork r (nStates n5)) &&
  all_stored r (λ h', match lastBefore r h' with
                      | Ok sum => negb (ID (sumHeader sum) =? ID h)
                      | Err _ => true
                      end) &&
  bool_decide (is_Some (hdrStore r !! ParentID h)).

Definition checked (o : option (Node * Node * BlockSummary)) : bool :=
  match o with Some (n4, n5, s) => round_check n4 n5 s | None => false end.

Lemma run_checked_true : checked run_round = true.
Proof. vm_compute. reflexivity. Qed.

Lemma keep_all_sub V (m : gmap Bytes32 V) : keep_all V m ⊆ m.
Proof. done. Qed.

Lemma run_round_facts : ∃ n4 n5 s, run_round = Some (n4, n5, s) ∧ repo_inv (nRepo n5) ∧
  hdrStore (nRepo n5) !! ID (sumHeader s) = Some s ∧ Header_Number (sumHeader s) = 5 ∧
  is_Some (hdrStore (nRepo n5) !! ParentID (sumHeader s)) ∧
  steady_rounds finality_fork (nRepo n5) (nStates n5) (stored_header (nRepo n5)) ∧
  ∀ h' sum, stored_header (nRepo n5) h' → lastBefore (nRepo n5) h' = Ok sum →
    ID (sumHeader sum) ≠ ID (sumHeader s).
Proof.
  generalize run_checked_true. generalize run_round_ok. generalize run_round.
  intros o Ho Hc. destruct o as [[[n4 n5] s]|]; [|discriminate Hc]. exists n4, n5, s.
  destruct (Ho _ _ _ eq_refl) as [Hok Hs]. unfold checked in Hc.
  unfold round_check in Hc. apply andb_true_iff in Hc as [Hc Hpar].
  apply andb_true_iff in Hc as [Hc Hleaf]. apply andb_true_iff in Hc as [Hnum Hw].
  split; [reflexivity|]. split; [apply (no_repo _ Hok)|]. split; [exact Hs|].
  split; [by apply Z.eqb_eq|]. split; [by eapply bool_decide_eq_true|].
  split; [by apply evenly_steady|]. intros h' sum Hk Hl.
  pose proof (all_stored_spec _ _ _ Hleaf Hk) as Hn. cbv beta in Hn.
  rewrite Hl in Hn. by apply negb_true_iff, Z.eqb_neq in Hn.
Qed.

(** ** Caches that are used

    Block 7 of [steady_case], with the justifier of block 6 in the cache: it has
    counted 25 million, and is extended by the 30 million of validator 8. *)
Definition steady_check (states : gmap Bytes32 Staker)
    (o : option (ChainRepo * BlockSummary * Engine * BlockSummary)) : bool :=
  match o with
  | Some (r, s6, e, s7) =>
      all_stored r (evenly SoloFork r states) &&
      bool_decide (is_Some (hdrStore r !! ParentID (sumHeader s6))) &&
      bool_decide (is_Some (hdrStore r !! ParentID (sumHeader s7))) &&
      bool_decide (justifiedWeight <$> justifierCache e !! ParentID (sumHeader s7) = Some 25000000) &&
      match computeState SoloFork keep_all r states (sumHeader s7) e with
      | Ok (st, e') => Justified st &&
          bool_decide (justifiedWeight <$> justifierCache e' !! ID (sumHeader s7) = Some 55000000)
      | Err _ => false
      end
  | None => false
  end.

Lemma steady_case_checked : steady_check steady_states (steady_case steady_states) = true.
Proof. vm_compute. reflexivity. Qed.

Lemma stake_summary_stored r n s : stake_summary r n = Some s → stored_header r (sumHeader s).
Proof.
  intros E. unfold stake_summary in E. destruct (GetBlockID _ _ _) as [id|]; [|discriminate E].
  exists id, s. split; [exact E|reflexivity].
Qed.

(** Whatever the contract states, the cache of [steady_case] is correct if the
    votes weigh evenly. *)
Lemma steady_case_cache states r s6 e s7 : steady_case states = Some (r, s6, e, s7) →
  all_stored r (evenly SoloFork r states) = true → is_Some (hdrStore r !! ParentID (sumHeader s6)) →
  repo_inv r ∧ cache_ok SoloFork r states (stored_header r) e ∧ stored_header r (sumHeader s7).
Proof.
  intros E Hev Hp6. unfold steady_case in E.
  apply bind_Some in E as (r' & Er & (s6' & E6 & (s7' & E7 & E)%bind_Some)%bind_Some).
  destruct (computeState SoloFork _ _ _ (sumHeader s6') _) as [[st6 e6]|] eqn:Ecs; [|discriminate E].
  injection E as -> -> -> ->. pose proof (grows_inv r (stake_repo_grows _ _ Er)) as HI. clear Er.
  split; [exact HI|]. split; [|exact (stake_summary_stored _ _ _ E7)].
  pose proof (computeState_runs SoloFork r states keep_all HI ltac:(split; reflexivity)
    keep_all_sub (stored_header r) (stored_header_inj r HI) ltac:(intros id s Hs; by exists id, s)
    (NewEngine r ∅ None) (sumHeader s6) (evenly_steady _ _ _ Hev)
    (restarted_ok SoloFork r states (stored_header r) (NewEngine r ∅ None))
    (stake_summary_stored _ _ _ E6) (λ _, Hp6)) as Hr.
  unfold runs in Hr. destruct (BftCaches.stateOf _ _ _ _ _) as [st|].
  - destruct Hr as (e' & Er' & _ & Hok). pose proof (eq_trans (eq_sym Ecs) Er') as Ee.
    injection Ee as _ <-. exact Hok.
  - discriminate (eq_trans (eq_sym Ecs) Hr).
Qed.

Lemma steady_case_facts states : steady_check states (steady_case states) = true →
  ∃ r s6 e s7, steady_case states = Some (r, s6, e, s7) ∧ repo_inv r ∧
  steady_rounds SoloFork r states (stored_header r) ∧
  cache_ok SoloFork r states (stored_header r) e ∧
  stored_header r (sumHeader s7) ∧ is_Some (hdrStore r !! ParentID (sumHeader s7)) ∧
  justifiedWeight <$> justifierCache e !! ParentID (sumHeader s7) = Some 25000000 ∧
  ∃ st e', computeState SoloFork keep_all r states (sumHeader s7) e = Ok (st, e') ∧
    justifiedWeight <$> justifierCache e' !! ID (sumHeader s7) = Some 55000000.
Proof.
  pose proof (steady_case_cache states) as Hinv. revert Hinv. generalize (steady_case states).
  intros [[[[r s6] e] s7]|] Hinv Hc; [|discriminate Hc]. exists r, s6, e, s7. split; [reflexivity|].
  unfold steady_check in Hc.
  apply andb_true_iff in Hc as [Hc Hlast]. apply andb_true_iff in Hc as [Hc Hw].
  apply andb_true_iff in Hc as [Hc Hp7]. apply andb_true_iff in Hc as [Hev Hp6].
  apply bool_decide_eq_true in Hw, Hp7, Hp6.
  destruct (Hinv r s6 e s7 eq_refl Hev Hp6) as (HI & Hok & Hk).
  split; [exact HI|]. split; [by apply evenly_steady|]. split; [exact Hok|]. split; [exact Hk|].
  split; [exact Hp7|]. split; [exact Hw|].
  destruct (computeState SoloFork keep_all _ _ (sumHeader s7) _) as [[st e']|]; [|discriminate Hlast].
  apply andb_true_iff in Hlast as [_ Hlast]. apply bool_decide_eq_true in Hlast. by exists st, e'.
Qed.

Lemma caches_change_nothing_witness :
  ∃ r s6 e s7, steady_case steady_states = Some (r, s6, e, s7) ∧
    let h := sumHeader s7 in
    justifiedWeight <$> justifierCache e !! ParentID h = Some 25000000 ∧
    (∃ st e', computeState SoloFork keep_all r steady_states h e = Ok (st, e') ∧
      justifiedWeight <$> justifierCache e' !! ID h = Some 55000000) ∧
    match computeState SoloFork keep_all r steady_states h (restarted r e) with
    | Ok (st, _) => ∃ e', computeState SoloFork keep_all r steady_states h e = Ok (st, e') ∧
        cache_ok SoloFork r steady_states (stored_header r) e' ∧ same_data e e'
    | Err x => computeState SoloFork keep_all r steady_states h e = Err x
    end.
Proof.
  generalize (steady_case_facts steady_states steady_case_checked). generalize steady_states. intros states.
  intros (r & s6 & e & s7 & E & HI & Hst & Hc & Hk & Hp & Hw & Hlast).
  exists r, s6, e, s7. split; [exact E|]. split; [exact Hw|]. split; [exact Hlast|].
  apply (caches_change_nothing SoloFork r states keep_all HI ltac:(split; reflexivity)
    keep_all_sub (stored_header r) (stored_header_inj _ HI)).
  - intros id s' Hid. exists id, s'. split; [exact Hid|reflexivity].
  - exact Hst.
  - exact Hc.
  - exact Hk.
  - intros _. exact Hp.
Defined.

(** The hypotheses of [committed_round_finalizes] on the chain, by evaluation. *)
Definition round_saved (r : ChainRepo) states (e : Engine) (h : Header) (l : list Bytes32) (i : nat) : bool :=
  match l !! i ≫= λ id, pair id <$> hdrStore r !! id with
  | Some (id, s) =>
      if (0 <? Z.of_nat i) && (Z.of_nat i <? Header_Number h) &&
         (getStorePoint (Z.of_nat i) =? Z.of_nat i)
      then match stateOf finality_fork r states (savedQuality e) (sumHeader s) with
           | Ok st => bool_decide (savedQuality e !! id = Some (Quality st)) &&
               (0 <=? Quality st) && (Quality st <? max32 - 1)
           | Err _ => false
           end
      else true
  | None => true
  end.

Lemma round_saved_spec r states e h l :
  forallb (round_saved r states e h l) (seq 0 (length l)) = true →
  rounds_saved finality_fork r states e h l.
Proof.
  rewrite forallb_forall. intros Hf i id s Hi Hs Hn Hp H0.
  assert (In i (seq 0 (length l))) as Hin by (apply in_seq; apply lookup_lt_Some in Hi; lia).
  specialize (Hf i Hin). unfold round_saved in Hf. rewrite Hi in Hf. cbn [mbind option_bind] in Hf.
  rewrite Hs in Hf. cbn [fmap option_fmap option_map] in Hf.
  rewrite (proj2 (Z.ltb_lt 0 _) H0), (proj2 (Z.ltb_lt _ _) (proj2 Hn)), (proj2 (Z.eqb_eq _ _) Hp) in Hf.
  cbn [andb] in Hf. destruct (stateOf _ _ _ _ _) as [st|]; [|discriminate Hf].
  apply andb_true_iff in Hf as [Hf Hlt]. apply andb_true_iff in Hf as [Hq Hge].
  exists st. split; [done|]. split; [by apply bool_decide_eq_true in Hq|]. lia.
Qed.

Definition commit_ready (r : ChainRepo) states (e : Engine) (h : Header) (l : list Bytes32)
    (st : bftState) : bool :=
  (getStorePoint (Header_Number h) =? Header_Number h) && bool_decide (finalized e ∈ l) &&
  (Number (finalized e) =? 0) && forallb (round_saved r states e h l) (seq 0 (length l)) &&
  Committed st && (Quality st =? 3) &&
  (default 0 (l !! 1%nat ≫= (<[ID h := Quality st]> (savedQuality e) !!.)) <? 3).

Definition commit_case (n4 n5 : Node) (s : BlockSummary) : option (list Bytes32 * bftState) :=
  let h := sumHeader s in let e := restarted (nRepo n5) (nEngine n4) in
  l ← pathOf 9 (nRepo n5) (ID h);
  match stateOf finality_fork (nRepo n5) (nStates n5) (savedQuality e) h with
  | Ok st => if commit_ready (nRepo n5) (nStates n5) e h l st then Some (l, st) else None
  | Err _ => None
  end.

Lemma run_commits : bool_decide (is_Some (run_round ≫= λ '(n4, n5, s), commit_case n4 n5 s)) = true.
Proof. vm_compute. reflexivity. Qed.

Lemma run_commit_facts : ∃ n4 n5 s l st, run_round = Some (n4, n5, s) ∧
  path (nRepo n5) (ID (sumHeader s)) l ∧
  let e := restarted (nRepo n5) (nEngine n4) in
  stateOf finality_fork (nRepo n5) (nStates n5) (savedQuality e) (sumHeader s) = Ok st ∧
  commit_ready (nRepo n5) (nStates n5) e (sumHeader s) l st = true.
Proof.
  generalize run_commits. generalize run_round. intros o Ho. apply bool_decide_eq_true in Ho as [[l st] Ho].
  apply bind_Some in Ho as ([[n4 n5] s] & -> & Ho). exists n4, n5, s, l, st. split; [reflexivity|].
  unfold commit_case in Ho. apply bind_Some in Ho as (l' & Hl & Ho).
  destruct (stateOf _ _ _ _ _) as [st'|] eqn:Es; [|discriminate Ho].
  destruct (commit_ready _ _ _ _ _ _) eqn:Er; [|discriminate Ho]. injection Ho as -> ->.
  split; [by apply (pathOf_path 9)|]. split; [exact Es|exact Er].
Qed.

Lemma committed_round_finalizes_witness :
  ∃ n4 n5 s l st, run_round = Some (n4, n5, s) ∧ Quality st = 3 ∧
    let e := restarted (nRepo n5) (nEngine n4) in
    ∃ e', CommitBlock finality_fork keep_all (nRepo n5) (nStates n5) (sumHeader s) false e = (e', Ok tt) ∧
      finalizes finality_fork e (sumHeader s) st l e'.
Proof.
  destruct run_commit_facts as (n4 & n5 & s & l & st & E & Hl & Est & Hr). cbv zeta in Est, Hr.
  destruct run_round_facts as (n4' & n5' & s' & E' & HI & Hs & Hn & Hp & Hst & Hleaf).
  rewrite E in E'. injection E' as <- <- <-.
  unfold commit_ready in Hr. apply andb_true_iff in Hr as [Hr Hlow]. apply andb_true_iff in Hr as [Hr Hq].
  apply andb_true_iff in Hr as [Hr Hcom]. apply andb_true_iff in Hr as [Hr Hsaved].
  apply andb_true_iff in Hr as [Hr Hfin0]. apply andb_true_iff in Hr as [Hpt Hfin].
  apply Z.eqb_eq in Hq, Hpt, Hfin0. apply bool_decide_eq_true in Hfin.
  exists n4, n5, s, l, st. split; [exact E|]. clear E. split; [exact Hq|]. cbv zeta.
  assert (searchStart finality_fork (finalized (restarted (nRepo n5) (nEngine n4))) = 0) as Hss.
  { unfold searchStart. rewrite Hfin0. reflexivity. }
  pose proof (committed_round_finalizes finality_fork (nRepo n5) (nStates n5) keep_all HI
    ltac:(split; reflexivity) keep_all_sub (stored_header (nRepo n5)) (stored_header_inj _ HI)) as Hthm.
  specialize (Hthm ltac:(intros id s' Hid; exists id, s'; split; [exact Hid|reflexivity])
    (restarted (nRepo n5) (nEngine n4)) (sumHeader s) st l).
  rewrite Hss, Hq in Hthm. change (Z.to_nat (0 + EpochLength - 1)) with 1%nat in Hthm.
  rewrite Hq in Hlow. rewrite Hlow in Hthm. apply Hthm; try assumption; clear Hthm.
  - apply restarted_ok.
  - exists (ID (sumHeader s)), s. split; [exact Hs|reflexivity].
  - rewrite Hn. split; discriminate.
  - rewrite Hn. reflexivity.
  - rewrite Hn. reflexivity.
  - reflexivity.
  - rewrite Hfin0. reflexivity.
  - apply round_saved_spec, Hsaved.
  - discriminate.
  - split; reflexivity.
Defined.

(** The answer of the signer of block 4, restarted, for a block on top of block 5. *)
Definition run_vote (n5 : Node) (s : BlockSummary) : option (bool * Engine * list Bytes32) :=
  l ← pathOf 9 (nRepo n5) (ID (sumHeader s));
  let e := restarted (nRepo n5) (nEngine n5) in
  match ShouldVote finality_fork 8 keep_all (nRepo n5) (nStates n5) (ID (sumHeader s)) e with
  | Ok (b, e') => if Number (finalized e) =? 2 then Some (b, e', l) else None
  | Err _ => None
  end.

Lemma run_votes :
  bool_decide ((λ r, (r.1.1, (map_to_list (default ∅ (casts r.1.2))).*2)) <$>
    (run_round ≫= λ '(_, n5, s), run_vote n5 s) = Some (true, [3])) = true.
Proof. vm_compute. reflexivity. Qed.

Lemma vote_never_conflicts_witness :
  ∃ n4 n5 s e' l, run_round = Some (n4, n5, s) ∧ run_vote n5 s = Some (true, e', l) ∧
  let r := nRepo n5 in let e := restarted r (nEngine n5) in
  ∃ c st, casts_used finality_fork r (nStates n5) 8 e c ∧ casts e' = Some c ∧
    stateOf finality_fork r (nStates n5) (savedQuality e) (sumHeader s) = Ok st ∧
    if Quality st =? 0 then true = false else
    ∃ jc, recent_justified finality_fork (ID (sumHeader s)) l e st jc ∧
      (true = true ↔ ∀ cp q, c !! cp = Some q → Number (finalized e) ≤ Number cp →
        Quality st -u32 1 ≤ q → one_branch r cp jc).
Proof.
  destruct run_round_facts as (n4 & n5 & s & E & HI & Hs & Hn & Hp & Hst & Hleaf).
  destruct (run_round_ok _ _ _ E) as [Hok _]. pose proof run_votes as Hv. rewrite E in Hv.
  apply bool_decide_eq_true, fmap_Some in Hv as ([[b e'] l] & Hv & Eb).
  change (run_vote n5 s = Some (b, e', l)) in Hv.
  injection Eb as <- _. exists n4, n5, s, e', l. split; [exact E|]. clear E. split; [exact Hv|].
  unfold run_vote in Hv. apply bind_Some in Hv as (l' & Hl & Hv). cbv zeta in Hv |- *.
  destruct (ShouldVote _ _ _ _ _ _ _) as [[b1 e1]|] eqn:Ev; [|discriminate Hv].
  destruct (Z.eqb_spec (Number (finalized (restarted (nRepo n5) (nEngine n5)))) 2) as [Hf|]; [|discriminate Hv].
  injection Hv as -> -> ->.
  assert (Number (ID (sumHeader s)) = 5) as En by (rewrite Number_ID; exact Hn).
  assert (searchStart finality_fork (finalized (restarted (nRepo n5) (nEngine n5))) = 2) as Hss
    by (unfold searchStart; rewrite Hf; reflexivity).
  apply (vote_never_conflicts finality_fork (nRepo n5) (nStates n5) keep_all HI ltac:(split; reflexivity)
    keep_all_sub (stored_header (nRepo n5)) (stored_header_inj _ HI)); try assumption; rewrite ?Hss, ?En.
  - intros id s' Hid. exists id, s'. split; [exact Hid|reflexivity].
  - exact (pathOf_path _ _ _ _ Hl).
  - split; [discriminate|reflexivity].
  - apply restarted_ok.
  - destruct (no_final _ Hok) as [Hf1 Hf2]. split; [|reflexivity].
    unfold restarted. cbn [finalized NewEngine]. rewrite Hf2. exact Hf1.
  - reflexivity.
  - split; discriminate.
  - reflexivity.
Defined.
