(* ===== verification/Trie.v ===== *)
(** * Package trie: the Merkle Patricia trie

    [src/trie]: key encodings, the varint-prefix coding, the node codec, and
    lookup, insertion, deletion, hashing and storing of nodes that are loaded
    from the database on demand.  Pointers to nodes are values here: the code
    copies a node before it changes it, and only fills in hashes in place.  The
    database is a map from path and version to the stored bytes.  Slicing or
    indexing out of range and failed type assertions are [ErrPanic]. *)

From S2P Require Import Prelude Bytes External.

(** ** Key encodings (encoding.go) *)
Definition wrap8 (z : Z) : Z := z mod 256.

Definition hasTerm (s : bytes) : bool := bool_decide (last s = Some 16).

(** Pairs of nibbles to bytes; an odd number of nibbles is out of range. *)
Fixpoint decodeNibbles (nibbles : bytes) : result bytes :=
  match nibbles with
  | [] => Ok []
  | a :: b :: l => r ← decodeNibbles l; Ok (Z.lor (wrap8 (Z.shiftl a 4)) b :: r)
  | [_] => Err (ErrPanic "index out of range")
  end.

Definition compactLen (hex : bytes) : Z :=
  let hexLen := Z.of_nat (length hex) in
  let hexLen := if hasTerm hex then hexLen - 1 else hexLen in
  hexLen / 2 + 1.

Definition appendHexToCompact (buf hex : bytes) : result bytes :=
  let terminator := if hasTerm hex then 1 else 0 in
  let hex := if hasTerm hex then removelast hex else hex in
  let b0 := Z.shiftl terminator 5 in
  let '(b0, hex) := if Nat.odd (length hex)
                    then (Z.lor (Z.lor b0 (Z.shiftl 1 4)) (hd 0 hex), tail hex)
                    else (b0, hex) in
  l ← decodeNibbles hex;
  Ok (buf ++ [b0] ++ l).

Fixpoint nibblesOf (str : bytes) : bytes :=
  match str with
  | [] => []
  | b :: l => b / 16 :: b mod 16 :: nibblesOf l
  end.

Definition keybytesToHex (str : bytes) : bytes := nibblesOf str ++ [16].

Definition compactToHex (compact : bytes) : bytes :=
  match compact with
  | [] => []
  | _ =>
      let base := keybytesToHex compact in
      let base := if hd 0 base <? 2 then removelast base else base in
      let chop := 2 - Z.land (hd 0 base) 1 in
      drop (Z.to_nat chop) base
  end.

(** The length of the common prefix. *)
Fixpoint prefixLen (a b : bytes) : nat :=
  match a, b with
  | x :: a, y :: b => if x =? y then S (prefixLen a b) else O
  | _, _ => O
  end.

(** ** Varint-prefix coding (vp.go) *)
Definition AppendUint32 (buf : bytes) (i : Z) : bytes := buf ++ uvarint i.

Definition AppendString (buf str : bytes) : bytes :=
  buf ++ uvarint (Z.of_nat (length str)) ++ str.

(** [binary.Uvarint]: at most ten bytes and 64 bits. *)
Definition Uvarint (buf : bytes) : option (Z * bytes) :=
  '(v, rest) ← read_uvarint buf;
  if (length buf - length rest <=? 10)%nat && (v <? max64) then Some (v, rest) else None.

Definition SplitString (buf : bytes) : result (bytes * bytes) :=
  match Uvarint buf with
  | None => Err (ErrInternal "invalid uvarint prefix")
  | Some (i, rest) =>
      if i <=? Z.of_nat (length rest)
      then Ok (take (Z.to_nat i) rest, drop (Z.to_nat i) rest)
      else Err (ErrPanic "slice bounds out of range")
  end.

(** ** Nodes (node.go) *)
Record Version := MkVersion { Major : Z; Minor : Z }.

(** A hash is [None] where the source has a nil slice. *)
Record refBody := MkRef { rhash : option bytes; rver : Version }.
Definition noRef : refBody := MkRef None (MkVersion 0 0).

Record nodeFlag := MkFlag { fref : refBody; fgen : Z; fdirty : bool }.
#[export] Instance eta_refBody : Eta refBody := λ r, MkRef (rhash r) (rver r).
#[export] Instance eta_nodeFlag : Eta nodeFlag := λ f, MkFlag (fref f) (fgen f) (fdirty f).

Inductive node :=
  | Nil
  | fullNode (children : list node) (flags : nodeFlag)
  | shortNode (key : bytes) (child : node) (flags : nodeFlag)
  | refNode (r : refBody)
  | valueNode (val meta : bytes).

#[export] Instance Version_eq_dec : EqDecision Version.
Proof. solve_decision. Defined.
#[export] Instance Version_countable : Countable Version.
Proof.
  apply (inj_countable' (λ v, (Major v, Minor v)) (λ p, MkVersion p.1 p.2)). by intros [].
Defined.

Definition errNil : error := ErrPanic "nil pointer dereference".

(** [cache]: the cached reference, the generation and whether it is dirty. *)
Definition cache (n : node) : result (refBody * Z * bool) :=
  match n with
  | Nil => Err errNil
  | fullNode _ f | shortNode _ _ f => Ok (fref f, fgen f, fdirty f)
  | refNode r => Ok (r, 0, false)
  | valueNode _ _ => Ok (noRef, 0, true)
  end.

(** *** Encoding for the database *)
Definition kindEmpty : Z := 0.
Definition kindFull : Z := 1.
Definition kindShort : Z := 2.
Definition kindRef : Z := 3.
Definition kindValue : Z := 4.
Definition attrHasHash : Z := 1.
Definition attrHasMajor : Z := 2.
Definition attrHasMinor : Z := 4.
Definition attrHasMeta : Z := 8.
Definition attrHasManyRef : Z := 16.

Definition tagOf (kind attrs : Z) : Z := Z.lor kind (Z.shiftl attrs 3).

Definition refNode_encode (r : refBody) (skipHash : bool) : bytes :=
  let '(a1, b1) := if skipHash then (0, []) else (attrHasHash, default [] (rhash r)) in
  let '(a2, b2) := if Major (rver r) =? 0 then (0, []) else (attrHasMajor, be 4 (Major (rver r))) in
  let '(a3, b3) := if Minor (rver r) =? 0 then (0, []) else (attrHasMinor, be 4 (Minor (rver r))) in
  tagOf kindRef (Z.lor (Z.lor a1 a2) a3) :: b1 ++ b2 ++ b3.

(** The value and its metadata, with the attributes for the tag. *)
Definition encodeValue (val meta : bytes) : Z * bytes :=
  match meta with
  | [] => (0, AppendString [] val)
  | _ => (attrHasMeta, AppendString (AppendString [] val) meta)
  end.

Section children.
Context (encode : node → bool → result bytes) (skipHash : bool).

(** A child, and 1 for a reference. *)
Definition encodeChild (c : node) : result (bytes * Z) :=
  match c with
  | refNode r => Ok (refNode_encode r skipHash, 1)
  | Nil => Ok ([kindEmpty], 0)
  | _ =>
      '(ref, _, dirty) ← cache c;
      if dirty : bool then b ← encode c skipHash; Ok (b, 0)
      else Ok (refNode_encode ref skipHash, 0)
  end.

Fixpoint encodeChildren (l : list node) : result (bytes * Z) :=
  match l with
  | [] => Ok ([], 0)
  | c :: l =>
      '(b, k) ← encodeChild c;
      '(bs, nRefNode) ← encodeChildren l;
      Ok (b ++ bs, k + nRefNode)
  end.
End children.

(** Bytes that [encode] appends to the buffer. *)
Fixpoint encode (n : node) (skipHash : bool) : result bytes :=
  match n with
  | Nil => Err errNil
  | fullNode cs _ =>
      '(b, nRefNode) ← encodeChildren encode skipHash cs;
      Ok ((if 4 <? nRefNode then tagOf kindFull attrHasManyRef else kindFull) :: b)
  | shortNode key child _ =>
      k ← appendHexToCompact (AppendUint32 [] (wrap32 (compactLen key))) key;
      if hasTerm key then
        match child with
        | valueNode val meta =>
            let '(attrs, b) := encodeValue val meta in
            Ok (tagOf kindShort attrs :: k ++ b)
        | _ => Err (ErrPanic "interface conversion")
        end
      else
        '(ref, _, dirty) ← cache child;
        b ← (if dirty : bool then encode child skipHash else Ok (refNode_encode ref skipHash));
        Ok (kindShort :: k ++ b)
  | refNode r => Ok (refNode_encode r skipHash)
  | valueNode val meta =>
      let '(attrs, b) := encodeValue val meta in
      Ok (tagOf kindValue attrs :: b)
  end.

(** *** Decoding *)
Definition slice (n : nat) (buf : bytes) : result (bytes * bytes) :=
  if (n <=? length buf)%nat then Ok (take n buf, drop n buf)
  else Err (ErrPanic "slice bounds out of range").

Definition hasAttr (attrs a : Z) : bool := negb (Z.land attrs a =? 0).

Definition decodeRef (buf : bytes) (attrs : Z) : result (node * bytes) :=
  '(hash, buf) ← (if hasAttr attrs attrHasHash
                  then '(h, b) ← slice 32 buf; Ok (Some h, b) else Ok (None, buf));
  '(major, buf) ← (if hasAttr attrs attrHasMajor
                   then '(v, b) ← slice 4 buf; Ok (from_be v, b) else Ok (0, buf));
  '(minor, buf) ← (if hasAttr attrs attrHasMinor
                   then '(v, b) ← slice 4 buf; Ok (from_be v, b) else Ok (0, buf));
  Ok (refNode (MkRef hash (MkVersion major minor)), buf).

Definition decodeValue (buf : bytes) (attrs : Z) : result (node * bytes) :=
  '(val, buf) ← SplitString buf;
  '(meta, buf) ← (if hasAttr attrs attrHasMeta then SplitString buf else Ok ([], buf));
  Ok (valueNode val meta, buf).

(** The flags of a node that is decoded: one with a reference of its own is
    clean, one embedded in its parent is dirty. *)
Definition decodedFlag (ref : option refBody) (cacheGen : Z) : nodeFlag :=
  match ref with
  | Some r => MkFlag r cacheGen false
  | None => MkFlag noRef cacheGen true
  end.

Section decode.
Context (cacheGen : Z) (decodeNode : bytes → result (node * bytes)).

Fixpoint decodeChildren (k : nat) (buf : bytes) : result (list node * bytes) :=
  match k with
  | O => Ok ([], buf)
  | S k =>
      match buf with
      | [] => Err (ErrPanic "index out of range")
      | tag :: rest =>
          '(c, buf) ← (if Z.land tag 7 =? kindRef then decodeRef rest (Z.shiftr tag 3)
                       else decodeNode buf);
          '(cs, buf) ← decodeChildren k buf;
          Ok (c :: cs, buf)
      end
  end.

Definition decodeFull (ref : option refBody) (buf : bytes) : result (node * bytes) :=
  '(cs, buf) ← decodeChildren 17 buf;
  Ok (fullNode cs (decodedFlag ref cacheGen), buf).

Definition decodeShort (ref : option refBody) (buf : bytes) (attrs : Z) : result (node * bytes) :=
  '(compactKey, buf) ← SplitString buf;
  let key := compactToHex compactKey in
  '(child, buf) ← (if hasTerm key then decodeValue buf attrs else decodeNode buf);
  Ok (shortNode key child (decodedFlag ref cacheGen), buf).
End decode.

(** Every node takes at least the byte of its tag: [length buf] calls are enough. *)
Fixpoint decodeNode (fuel : nat) (cacheGen : Z) (ref : option refBody) (buf : bytes)
    : result (node * bytes) :=
  match fuel with
  | O => Err ErrFuel
  | S fuel =>
      match buf with
      | [] => Err (ErrInternal "unexpected EOF")
      | tag :: buf =>
          let kind := Z.land tag 7 in let attrs := Z.shiftr tag 3 in
          if kind =? kindEmpty then Ok (Nil, buf) else
          if kind =? kindFull then decodeFull cacheGen (decodeNode fuel cacheGen None) ref buf else
          if kind =? kindShort then decodeShort cacheGen (decodeNode fuel cacheGen None) ref buf attrs else
          if kind =? kindRef then decodeRef buf attrs else
          if kind =? kindValue then decodeValue buf attrs else
          Err (ErrInternal "invalid node kind")
      end
  end.

Definition mustDecodeNode (cacheGen : Z) (ref : refBody) (buf : bytes) : result node :=
  match decodeNode (S (length buf)) cacheGen (Some ref) buf with
  | Ok (n, _) => Ok n
  | Err _ => Err (ErrPanic "node")
  end.

(** ** The trie (trie.go) *)
Abbreviation Database := (gmap (list Z * Version) (list Z)) (only parsing).

Record Trie := MkTrie {
  root : node;
  cacheGen : Z;
  cacheTTL : Z;
}.
#[export] Instance eta_Trie : Eta Trie := λ t, MkTrie (root t) (cacheGen t) (cacheTTL t).

(** [uint16] generations. *)
Definition wrap16 (z : Z) : Z := z mod 65536.

Definition errMissing : error := ErrInternal "missing trie node".
Definition errInvalidNode : error := ErrPanic "invalid node".

Definition setGen (gen : Z) (f : nodeFlag) : nodeFlag := f <| fgen := gen |>.

(** An entry of the array of children. *)
Definition childAt (cs : list node) (k : Z) : result node :=
  match cs !! Z.to_nat k with Some c => Ok c | None => Err (ErrPanic "index out of range") end.

Definition headOf (key : bytes) : result Z :=
  match key with x :: _ => Ok x | [] => Err (ErrPanic "index out of range") end.

Section operations.
Context (db : Database) (gen : Z).

Definition newFlag : nodeFlag := MkFlag noRef gen true.

Definition resolveRef (ref : refBody) (prefix : bytes) : result node :=
  match db !! (prefix, rver ref) with
  | None => Err errMissing
  | Some blob => mustDecodeNode gen ref blob
  end.

Definition resolve (n : node) (prefix : bytes) : result node :=
  match n with
  | refNode r => resolveRef r prefix
  | _ => Ok n
  end.

(** The value, the node with what was loaded on the way, and whether anything
    was.  Every node but a reference takes up some of the key; a stored node is
    no reference. *)
Fixpoint tryGet (fuel : nat) (origNode : node) (key : bytes) (pos : nat)
    : result (option (bytes * bytes) * node * bool) :=
  match fuel with
  | O => Err ErrFuel
  | S fuel =>
      match origNode with
      | Nil => Ok (None, Nil, false)
      | valueNode v m => Ok (Some (v, m), origNode, false)
      | shortNode k child f =>
          if (length key - pos <? length k)%nat ||
             negb (bool_decide (k = take (length k) (drop pos key)))
          then Ok (None, origNode, false) else
          '(value, newnode, didResolve) ← tryGet fuel child key (pos + length k);
          Ok (value, (if didResolve : bool then shortNode k newnode (setGen gen f) else origNode),
              didResolve)
      | fullNode cs f =>
          x ← headOf (drop pos key);
          c ← childAt cs x;
          '(value, newnode, didResolve) ← tryGet fuel c key (pos + 1);
          Ok (value, (if didResolve : bool
                      then fullNode (<[Z.to_nat x := newnode]> cs) (setGen gen f) else origNode),
              didResolve)
      | refNode r =>
          child ← resolveRef r (take pos key);
          '(value, newnode, _) ← tryGet fuel child key pos;
          Ok (value, newnode, true)
      end
  end.

(** Whether the node changed, and the new node. *)
Fixpoint trie_insert (fuel : nat) (n : node) (prefix key : bytes) (value : node) : result (bool * node) :=
  match fuel with
  | O => Err ErrFuel
  | S fuel =>
      match key with
      | [] =>
          match n with
          | valueNode v m =>
              match value with
              | valueNode v' m' =>
                  Ok (negb (bool_decide (v = v')) || negb (bool_decide (m = m')), value)
              | _ => Err (ErrPanic "interface conversion")
              end
          | _ => Ok (true, value)
          end
      | x :: key' =>
          match n with
          | shortNode k child _ =>
              let matchlen := prefixLen key k in
              if (matchlen =? length k)%nat then
                '(dirty, nn) ← trie_insert fuel child (prefix ++ take matchlen key) (drop matchlen key) value;
                if negb dirty then Ok (false, n) else
                Ok (true, shortNode k nn newFlag)
              else
                y ← headOf (drop matchlen k);
                '(_, c1) ← trie_insert fuel Nil (prefix ++ take (S matchlen) k) (drop (S matchlen) k) child;
                z ← headOf (drop matchlen key);
                '(_, c2) ← trie_insert fuel Nil (prefix ++ take (S matchlen) key) (drop (S matchlen) key) value;
                _ ← childAt (replicate 17 Nil) y;
                _ ← childAt (replicate 17 Nil) z;
                let branch := fullNode (<[Z.to_nat z := c2]> (<[Z.to_nat y := c1]> (replicate 17 Nil)))
                                newFlag in
                if (matchlen =? 0)%nat then Ok (true, branch) else
                Ok (true, shortNode (take matchlen key) branch newFlag)
          | fullNode cs _ =>
              c ← childAt cs x;
              '(dirty, nn) ← trie_insert fuel c (prefix ++ [x]) key' value;
              if negb dirty then Ok (false, n) else
              Ok (true, fullNode (<[Z.to_nat x := nn]> cs) newFlag)
          | Nil => Ok (true, shortNode key value newFlag)
          | refNode r =>
              rn ← resolveRef r prefix;
              '(dirty, nn) ← trie_insert fuel rn prefix key value;
              if negb dirty then Ok (false, rn) else Ok (true, nn)
          | valueNode _ _ => Err errInvalidNode
          end
      end
  end.

Definition isNil (n : node) : bool := match n with Nil => true | _ => false end.

(** The index of the only child left, -1 for none, -2 for several. *)
Fixpoint onlyChild (i : Z) (cs : list node) (pos : Z) : Z :=
  match cs with
  | [] => pos
  | c :: cs => if isNil c then onlyChild (i + 1) cs pos else
               if pos =? -1 then onlyChild (i + 1) cs i else -2
  end.

(** A full node that lost a child. *)
Definition reduceFull (cs : list node) (prefix : bytes) : result node :=
  let pos := onlyChild 0 cs (-1) in
  if 0 <=? pos then
    c ← childAt cs pos;
    if negb (pos =? 16) then
      cnode ← resolve c (prefix ++ [pos]);
      match cnode with
      | shortNode k child _ => Ok (shortNode (pos :: k) child newFlag)
      | _ => Ok (shortNode [pos] c newFlag)
      end
    else Ok (shortNode [pos] c newFlag)
  else Ok (fullNode cs newFlag).

Fixpoint trie_delete (fuel : nat) (n : node) (prefix key : bytes) : result (bool * node) :=
  match fuel with
  | O => Err ErrFuel
  | S fuel =>
      match n with
      | shortNode k child _ =>
          let matchlen := prefixLen key k in
          if (matchlen <? length k)%nat then Ok (false, n) else
          if (matchlen =? length key)%nat then Ok (true, Nil) else
          '(dirty, child') ← trie_delete fuel child (prefix ++ take (length k) key) (drop (length k) key);
          if negb dirty then Ok (false, n) else
          match child' with
          | shortNode k' child'' _ => Ok (true, shortNode (k ++ k') child'' newFlag)
          | _ => Ok (true, shortNode k child' newFlag)
          end
      | fullNode cs _ =>
          x ← headOf key;
          c ← childAt cs x;
          '(dirty, nn) ← trie_delete fuel c (prefix ++ [x]) (tail key);
          if negb dirty then Ok (false, n) else
          n' ← reduceFull (<[Z.to_nat x := nn]> cs) prefix;
          Ok (true, n')
      | valueNode _ _ => Ok (true, Nil)
      | Nil => Ok (false, Nil)
      | refNode r =>
          rn ← resolveRef r prefix;
          '(dirty, nn) ← trie_delete fuel rn prefix key;
          if negb dirty then Ok (false, rn) else Ok (true, nn)
      end
  end.
End operations.

(** Two calls for each nibble of the key, and two more. *)
Definition keyFuel (key : bytes) : nat := 2 * length key + 3.

Definition SetCacheTTL (ttl : Z) (t : Trie) : Trie := t <| cacheTTL := ttl |>.

(** The value with its metadata; nothing is stored for a missing key. *)
Definition trie_Get (db : Database) (key : bytes) : M Trie (option (bytes * bytes)) := λ t,
  let k := keybytesToHex key in
  '(value, newRoot, _) ← tryGet db (cacheGen t) (keyFuel k) (root t) k 0;
  Ok (value, t <| root := newRoot |>).

Definition trie_Update (db : Database) (key value meta : bytes) : M Trie unit := λ t,
  let k := keybytesToHex key in
  '(_, n) ← (if bool_decide (value ≠ [])
             then trie_insert db (cacheGen t) (keyFuel k) (root t) [] k (valueNode value meta)
             else trie_delete db (cacheGen t) (keyFuel k) (root t) [] k);
  Ok (tt, t <| root := n |>).

(** ** Hashing (hasher.go)

    [drlp] (github.com/qianbin/drlp) appends RLP to a buffer: [AppendString]
    appends a string, and [EndList] turns what was appended since an offset into
    a list; [AppendUint] appends an integer.  [drlp_str], [drlp_list] and
    [drlp_uint] are what they append; the functions here return what the source
    appends to its buffer. *)
Class Drlp := {
  drlp_str : bytes → bytes;
  drlp_list : bytes → bytes;
  drlp_uint : Z → bytes;
}.

(** No encoding is a prefix of another one, strings are no lists, and an integer
    takes nine bytes at most. *)
Class DrlpSpec `{Drlp} : Prop := {
  drlp_str_inj : ∀ a b x y, drlp_str a ++ x = drlp_str b ++ y → a = b ∧ x = y;
  drlp_list_inj : ∀ a b x y, drlp_list a ++ x = drlp_list b ++ y → a = b ∧ x = y;
  drlp_str_list : ∀ a b x y, drlp_str a ++ x ≠ drlp_list b ++ y;
  drlp_uint_inj : ∀ i j, is64 i → is64 j → drlp_uint i = drlp_uint j → i = j;
  drlp_uint_bytes : ∀ i, is64 i → Forall is_byte (drlp_uint i);
  drlp_uint_length : ∀ i, is64 i → (length (drlp_uint i) ≤ 9)%nat;
}.

Section hashing.
Context `{Drlp} `{Crypto}.

Definition hashNil (r : refBody) : bytes := default [] (rhash r).

Section children.
Context (encodeConsensus : node → result bytes).

Definition consensusChild (c : node) : result bytes :=
  match c with
  | Nil => Ok (drlp_str [])
  | refNode r => Ok (drlp_str (hashNil r))
  | _ =>
      '(ref, _, _) ← cache c;
      match rhash ref with
      | Some h => Ok (drlp_str h)
      | None => encodeConsensus c
      end
  end.

Fixpoint consensusChildren (l : list node) : result bytes :=
  match l with
  | [] => Ok []
  | c :: l => b ← consensusChild c; bs ← consensusChildren l; Ok (b ++ bs)
  end.
End children.

Fixpoint encodeConsensus (n : node) : result bytes :=
  match n with
  | Nil => Err errNil
  | fullNode cs _ => b ← consensusChildren encodeConsensus cs; Ok (drlp_list b)
  | shortNode key child _ =>
      k ← appendHexToCompact [] key;
      '(ref, _, _) ← cache child;
      b ← match rhash ref with
          | Some h => Ok (drlp_str h)
          | None => encodeConsensus child
          end;
      Ok (drlp_list (drlp_str k ++ b))
  | valueNode val _ => Ok (drlp_str val)
  | refNode r => Ok (drlp_str (hashNil r))
  end.

(** [thor.Blake2b(buf).Bytes()] *)
Definition blakeBytes (b : bytes) : bytes := be 32 (blake2b b).

Definition setHash (h : bytes) (f : nodeFlag) : nodeFlag :=
  f <| fref := (fref f) <| rhash := Some h |> |>.

(** The hash of a node whose children are hashed, remembered in its flags. *)
Definition hashed (n : node) (f : nodeFlag) (mk : nodeFlag → node) (force : bool)
    : result (option bytes * node) :=
  buf ← encodeConsensus n;
  if (32 <=? length buf)%nat || force
  then Ok (Some (blakeBytes buf), mk (setHash (blakeBytes buf) f))
  else Ok (None, n).

Fixpoint hashChildren (hash : node → bool → result (option bytes * node)) (k : nat) (l : list node)
    {struct l} : result (list node) :=
  match k, l with
  | S k, c :: l =>
      c' ← (if isNil c then Ok Nil else '(_, c') ← hash c false; Ok c');
      l' ← hashChildren hash k l;
      Ok (c' :: l')
  | _, _ => Ok l
  end.

(** The hash, nothing for a small node, and the node with the hashes filled in. *)
Fixpoint hash (n : node) (force : bool) : result (option bytes * node) :=
  match n with
  | fullNode cs f =>
      match rhash (fref f) with
      | Some h => Ok (Some h, n)
      | None => cs' ← hashChildren hash 16%nat cs; hashed (fullNode cs' f) f (fullNode cs') force
      end
  | shortNode k child f =>
      match rhash (fref f) with
      | Some h => Ok (Some h, n)
      | None =>
          '(_, child') ← hash child false;
          hashed (shortNode k child' f) f (shortNode k child') force
      end
  | refNode r => Ok (rhash r, n)
  | valueNode _ _ => Ok (None, n)
  | Nil => Err errInvalidNode
  end.

Definition emptyRoot : bytes := blakeBytes (drlp_str []).

Definition zeroHash : bytes := be 32 0.

Definition trie_Hash : M Trie bytes := λ t,
  if isNil (root t) then Ok (emptyRoot, t) else
  '(h, n) ← hash (root t) true;
  Ok (default zeroHash h, t <| root := n |>).

(** ** Storing *)
Section store.
Context (newVer : Version) (ttl : Z) (skipHash : bool).

Definition storedFlag (f : nodeFlag) : nodeFlag :=
  f <| fdirty := false |> <| fref := (fref f) <| rver := newVer |> |>.

(** Writing a node under its path. *)
Definition putNode (n : node) (path : bytes) : M Database unit :=
  b ← lift (encode n skipHash);
  modify (λ db, <[(path, newVer) := b]> db).

(** A child that was not changed is dropped from memory when it is old. *)
Definition ageChild (gen : Z) (c : node) : node :=
  match c with
  | fullNode _ f | shortNode _ _ f =>
      if ttl <? wrap16 (gen - fgen f) then refNode (fref f) else c
  | _ => c
  end.

Definition isDirty (c : node) : bool :=
  match c with fullNode _ f | shortNode _ _ f => fdirty f | _ => false end.

Section children.
Context (store : node → bytes → M Database node) (path : bytes) (gen : Z).

Fixpoint storeChildren (i : Z) (k : nat) (l : list node) {struct l} : M Database (list node) :=
  match k, l with
  | S k, c :: l =>
      c' ← (if isDirty c then store c (path ++ [i]) else mret (ageChild gen c));
      l' ← storeChildren (i + 1) k l;
      mret (c' :: l')
  | _, _ => mret l
  end.
End children.

Fixpoint store (n : node) (path : bytes) : M Database node :=
  let isRoot := bool_decide (path = []) in
  match n with
  | fullNode cs f =>
      cs' ← storeChildren store path (fgen f) 0 16%nat cs;
      let n' := fullNode cs' f in
      if isRoot || bool_decide (is_Some (rhash (fref f))) || skipHash then
        putNode n' path ;; mret (fullNode cs' (storedFlag f))
      else mret n'
  | shortNode key child f =>
      child' ← (if isDirty child then store child (path ++ key) else mret (ageChild (fgen f) child));
      let n' := shortNode key child' f in
      if isRoot || skipHash then
        putNode n' path ;; mret (shortNode key child' (storedFlag f))
      else mret n'
  | _ => fail errInvalidNode
  end.
End store.

(** Commit writes to [wdb] while the trie reads from [db]. *)
Definition trie_Commit (db : Database) (newVer : Version) (skipHash : bool)
    : M (Trie * Database) unit := λ '(t, wdb),
  if isNil (root t) then Ok (tt, (t, wdb)) else
  resolved ← resolve db (cacheGen t) (root t) [];
  resolved ← (if skipHash then Ok resolved else '(_, n) ← hash resolved true; Ok n);
  '(rn, wdb') ← store newVer (cacheTTL t) skipHash resolved [] wdb;
  Ok (tt, (t <| root := rn |> <| cacheGen := wrap16 (cacheGen t + 1) |>, wdb')).

(** ** Opening *)
Definition New (h : bytes) (ver : Version) : Trie :=
  if bool_decide (h = emptyRoot) || bool_decide (h = zeroHash) then MkTrie Nil 0 0
  else MkTrie (refNode (MkRef (Some h) ver)) 0 0.

Definition FromRootNode (rootNode : node) : result Trie :=
  if isNil rootNode then Ok (MkTrie Nil 0 0) else
  '(_, gen, _) ← cache rootNode;
  Ok (MkTrie rootNode (wrap16 (gen + 1)) 0).

(** ** The root of a list (derive_root.go)

    The source ignores the error of [Update], which leaves the trie as it was. *)
Definition addIndexed (t : Trie) (i : Z) (b : bytes) : result Trie :=
  match trie_Update ∅ (drlp_uint i) b [] t with
  | Ok (_, t') => Ok t'
  | Err (ErrInternal _) => Ok t
  | Err e => Err e
  end.

Fixpoint addAll (i : Z) (l : list bytes) (t : Trie) : result Trie :=
  match l with
  | [] => Ok t
  | b :: l => t' ← addIndexed t i b; addAll (i + 1) l t'
  end.

Definition DeriveRoot (l : list bytes) : result bytes :=
  t ← addAll 0 l (MkTrie Nil 0 0);
  '(h, _) ← trie_Hash t;
  Ok h.
End hashing.
