(* ===== verification/TrieTree.v ===== *)
(** * The tree a trie stands for

    A [tree] is a trie with every reference resolved and without flags.  The
    trees that insertion and deletion build are in a normal form, [node_ok]: no
    extension leads to another one, and a full node has two children at least.
    A tree in normal form is determined by its contents. *)

From S2P Require Import Prelude Bytes External Trie.

Inductive tree :=
  | TNil
  | TFull (children : list tree)
  | TShort (key : bytes) (child : tree)
  | TValue (val meta : bytes).

(** What a key (in hex form) leads to. *)
Fixpoint tget (t : tree) (key : bytes) : option (bytes * bytes) :=
  let fix child (cs : list tree) (i : nat) (key : bytes) :=
    match cs, i with
    | c :: _, O => tget c key
    | _ :: cs, S i => child cs i key
    | [], _ => None
    end in
  match t with
  | TNil => None
  | TValue v m => match key with [] => Some (v, m) | _ => None end
  | TShort k c => if bool_decide (k = take (length k) key) then tget c (drop (length k) key) else None
  | TFull cs => match key with x :: key => if 0 <=? x then child cs (Z.to_nat x) key else None | [] => None end
  end.

Lemma tget_full cs x k :
  tget (TFull cs) (x :: k) = if 0 <=? x then c ← cs !! Z.to_nat x; tget c k else None.
Proof.
  simpl. destruct (0 <=? x); [|done]. generalize (Z.to_nat x) as i.
  induction cs as [|c cs IH]; intros [|i]; simpl; done.
Qed.

Lemma tget_full_at cs i k : tget (TFull cs) (Z.of_nat i :: k) = c ← cs !! i; tget c k.
Proof. rewrite tget_full. destruct (Z.leb_spec 0 (Z.of_nat i)); [|lia]. by rewrite Nat2Z.id. Qed.

Lemma tget_short_app k c k' : tget (TShort k c) (k ++ k') = tget c k'.
Proof. simpl. rewrite take_app_length, drop_app_length. by rewrite bool_decide_true. Qed.

Lemma tget_short_Some k c key x : tget (TShort k c) key = Some x →
  ∃ k', key = k ++ k' ∧ tget c k' = Some x.
Proof.
  simpl. case_bool_decide as E; [|done]. intros Hx. exists (drop (length k) key).
  split; [|done]. by rewrite E at 1; rewrite take_drop.
Qed.

#[global] Arguments tget : simpl never.

Lemma tget_value v m k : tget (TValue v m) k = match k with [] => Some (v, m) | _ => None end.
Proof. done. Qed.
Lemma tget_nil k : tget TNil k = None.
Proof. done. Qed.
Lemma tget_full_nil cs : tget (TFull cs) [] = None.
Proof. done. Qed.

(** ** Keys *)
Definition nibble (x : Z) : Prop := 0 ≤ x < 16.
Definition term_key (k : bytes) : Prop := ∃ l, Forall nibble l ∧ k = l ++ [16].

Lemma term_key_cons x k : term_key (x :: k) ↔ (x = 16 ∧ k = []) ∨ (nibble x ∧ term_key k).
Proof.
  split.
  - intros (l & Hl & E). destruct l as [|y l]; simplify_eq/=; [by left|]. right.
    inversion Hl; subst. split; [done|]. by exists l.
  - intros [[-> ->]|(Hx & l & Hl & ->)]; [exists []; by split|]. exists (x :: l). by split; [constructor|].
Qed.

Lemma term_key_app k k' : Forall nibble k → term_key (k ++ k') ↔ term_key k'.
Proof.
  induction 1 as [|x k Hx Hk IH]; [done|]. simpl. rewrite term_key_cons, IH. split; [|by right].
  intros [[-> E]|[_ ?]]; [|done]. unfold nibble in Hx. lia.
Qed.

Lemma term_key_nil : ¬ term_key [].
Proof. intros (l & _ & E). by apply (app_cons_not_nil l []  16) in E. Qed.

(** ** Normal form *)
Inductive node_ok : tree → Prop :=
  | ok_leaf k v m : term_key k → node_ok (TShort k (TValue v m))
  | ok_ext k cs : k ≠ [] → Forall nibble k → node_ok (TFull cs) → node_ok (TShort k (TFull cs))
  | ok_full cs : length cs = 17%nat →
      (∀ i c, cs !! i = Some c → (i < 16)%nat → c ≠ TNil → node_ok c) →
      (∀ c, cs !! 16%nat = Some c → c = TNil ∨ ∃ v m, c = TValue v m) →
      (∃ i j ci cj, i ≠ j ∧ cs !! i = Some ci ∧ ci ≠ TNil ∧ cs !! j = Some cj ∧ cj ≠ TNil) →
      node_ok (TFull cs).

Definition tree_ok (t : tree) : Prop := t = TNil ∨ node_ok t.

#[export] Instance tree_nil_dec (t : tree) : Decision (t = TNil).
Proof. destruct t; [by left|by right..]. Defined.

(** Something is stored below every node. *)
Lemma node_ok_some t : node_ok t → ∃ k x, tget t k = Some x.
Proof.
  induction 1 as [k v m Hk|k cs Hk Hn _ (k' & x & Hx)|cs Hlen _ IH Hv (i & _ & ci & _ & _ & Hi & Hne & _)].
  - exists k, (v, m). rewrite <- (app_nil_r k) at 2. by rewrite tget_short_app.
  - exists (k ++ k'), x. by rewrite tget_short_app.
  - pose proof (lookup_lt_Some _ _ _ Hi) as Hlt.
    assert (∃ k x, tget ci k = Some x) as (k & x & Hx).
    { destruct (decide (i = 16%nat)) as [->|]; [|apply (IH i ci Hi); [lia|done]].
      destruct (Hv _ Hi) as [|(v & m & ->)]; [done|]. by exists [], (v, m). }
    exists (Z.of_nat i :: k), x. rewrite tget_full_at, Hi. done.
Qed.

(** Two keys below a full node part at once. *)
Lemma full_two cs : node_ok (TFull cs) → ∃ x y k k', x ≠ y ∧
  is_Some (tget (TFull cs) (x :: k)) ∧ is_Some (tget (TFull cs) (y :: k')).
Proof.
  intros Hok. inversion Hok as [| |? Hlen Hc Hv (i & j & ci & cj & Hij & Hi & Hni & Hj & Hnj)]; subst.
  assert (∀ i c, cs !! i = Some c → c ≠ TNil → ∃ k, is_Some (tget (TFull cs) (Z.of_nat i :: k))) as Hsome.
  { intros i' c Hi' Hne. pose proof (lookup_lt_Some _ _ _ Hi').
    assert (∃ k x, tget c k = Some x) as (k & x & Hx).
    { destruct (decide (i' = 16%nat)) as [->|]; [|apply node_ok_some, (Hc i' c Hi'); [lia|done]].
      destruct (Hv _ Hi') as [|(v & m & ->)]; [done|]. by exists [], (v, m). }
    exists k. rewrite tget_full_at, Hi'. by exists x. }
  destruct (Hsome _ _ Hi Hni) as [k Hk]. destruct (Hsome _ _ Hj Hnj) as [k' Hk'].
  exists (Z.of_nat i), (Z.of_nat j), k, k'. split_and!; [lia|done|done].
Qed.

Lemma tget_term t k x : node_ok t → tget t k = Some x → term_key k.
Proof.
  intros Hok. revert k. induction Hok as [k v m Hk|k cs Hk Hn _ IH|cs Hlen _ IH Hv _]; intros key Hx.
  - apply tget_short_Some in Hx as (k' & -> & Hx). destruct k'; [|done]. by rewrite app_nil_r.
  - apply tget_short_Some in Hx as (k' & -> & Hx). apply term_key_app; [done|]. by apply IH.
  - destruct key as [|y key]; [done|]. rewrite tget_full in Hx.
    destruct (Z.leb_spec 0 y); [|done]. apply bind_Some in Hx as (c & Hc & Hx).
    pose proof (lookup_lt_Some _ _ _ Hc). apply term_key_cons.
    destruct (decide (y = 16)) as [->|].
    + left. destruct (Hv _ Hc) as [->|(v & m & ->)]; [done|]. by destruct key.
    + right. split; [unfold nibble; lia|]. apply (IH _ _ Hc); [lia| |done]. by intros ->.
Qed.

(** ** Contents determine the tree *)
Lemma prefix_two (k k1 k2 : bytes) x y r1 r2 r r' : x ≠ y →
  k2 ++ x :: r1 = k1 ++ r → k2 ++ y :: r2 = k1 ++ r' → k1 `prefix_of` k2.
Proof.
  revert k2. induction k1 as [|a k1 IH]; intros k2 Hxy E1 E2; [apply prefix_nil|].
  destruct k2 as [|b k2]; simplify_eq/=. apply prefix_cons. by eapply IH.
Qed.

Lemma ext_prefix k1 c1 k2 cs2 : node_ok (TFull cs2) →
  (∀ k, tget (TShort k1 c1) k = tget (TShort k2 (TFull cs2)) k) → k1 `prefix_of` k2.
Proof.
  intros Hok He. destruct (full_two _ Hok) as (x & y & r1 & r2 & Hxy & [u Hu] & [w Hw]).
  rewrite <- (tget_short_app k2), <- He in Hu. rewrite <- (tget_short_app k2), <- He in Hw.
  apply tget_short_Some in Hu as (r & E1 & _). apply tget_short_Some in Hw as (r' & E2 & _).
  by eapply (prefix_two k1).
Qed.

Lemma tget_leaf k v m key : tget (TShort k (TValue v m)) key =
  if bool_decide (key = k) then Some (v, m) else None.
Proof.
  case_bool_decide as E.
  - subst. rewrite <- (app_nil_r k) at 2. by rewrite tget_short_app.
  - destruct (tget _ key) as [x|] eqn:Ex; [|done].
    apply tget_short_Some in Ex as (k' & -> & Hx). destruct k'; [|done]. by rewrite app_nil_r in E.
Qed.

Lemma leaf_not_full k v m cs k0 : node_ok (TFull cs) →
  (∀ key, tget (TShort k (TValue v m)) (k0 ++ key) = tget (TFull cs) key) → False.
Proof.
  intros Hok He. destruct (full_two _ Hok) as (x & y & r1 & r2 & Hxy & [u Hu] & [w Hw]).
  rewrite <- He, tget_leaf in Hu. rewrite <- He, tget_leaf in Hw.
  case_bool_decide as E1; [|done]. case_bool_decide as E2; [|done].
  rewrite <- E1 in E2. by simplify_list_eq.
Qed.

Lemma ext_not_full k c cs : k ≠ [] → node_ok (TFull cs) →
  (∀ key, tget (TShort k c) key = tget (TFull cs) key) → False.
Proof.
  intros Hk Hok He. destruct (full_two _ Hok) as (x & y & r1 & r2 & Hxy & [u Hu] & [w Hw]).
  rewrite <- He in Hu, Hw. apply tget_short_Some in Hu as (k1 & E1 & _).
  apply tget_short_Some in Hw as (k2 & E2 & _). destruct k; simplify_eq/=.
Qed.

Lemma term_not_nil k : term_key k → k ≠ [].
Proof. intros Hk ->. by apply term_key_nil. Qed.

Lemma children_ext cs cs' : node_ok (TFull cs) → node_ok (TFull cs') →
  (∀ k, tget (TFull cs) k = tget (TFull cs') k) →
  (∀ i c c', cs !! i = Some c → cs' !! i = Some c' → (i < 16)%nat → c ≠ TNil → node_ok c' →
    (∀ k, tget c k = tget c' k) → c = c') → cs = cs'.
Proof.
  intros Hok Hok' He IH. inversion Hok as [| |? Hlen Hc Hv _]; subst.
  inversion Hok' as [| |? Hlen' Hc' Hv' _]; subst.
  apply list_eq. intros i. destruct (cs !! i) as [c|] eqn:Ei, (cs' !! i) as [c'|] eqn:Ei';
    [|apply lookup_ge_None in Ei'; apply lookup_lt_Some in Ei; lia
     |apply lookup_ge_None in Ei; apply lookup_lt_Some in Ei'; lia|done].
  f_equal. assert (∀ k, tget c k = tget c' k) as Hk.
  { intros k. specialize (He (Z.of_nat i :: k)). rewrite !tget_full_at, Ei, Ei' in He. done. }
  pose proof (lookup_lt_Some _ _ _ Ei). destruct (decide (i = 16%nat)) as [->|].
  { specialize (Hk []). destruct (Hv _ Ei) as [->|(v & m & ->)], (Hv' _ Ei') as [->|(v' & m' & ->)];
      rewrite ?tget_value, ?tget_nil in Hk; congruence. }
  destruct (decide (c = TNil)) as [->|Hne]; destruct (decide (c' = TNil)) as [->|Hne']; [done|..].
  - destruct (node_ok_some c') as (k & x & Hx); [apply (Hc' _ _ Ei'); [lia|done]|].
    by rewrite <- Hk, tget_nil in Hx.
  - destruct (node_ok_some c) as (k & x & Hx); [apply (Hc _ _ Ei); [lia|done]|].
    by rewrite Hk, tget_nil in Hx.
  - eapply IH; try done; [lia|]. apply (Hc' _ _ Ei'); [lia|done].
Qed.

Lemma node_ok_ext t : node_ok t → ∀ t', node_ok t' → (∀ k, tget t k = tget t' k) → t = t'.
Proof.
  induction 1 as [k v m Hk|k cs Hk Hn Hok IH|cs Hlen Hc IH Hv Htwo]; intros t' Hok' He.
  - destruct Hok' as [k' v' m' Hk'|k' cs' Hk' Hn' Hok'|cs' Hlen' Hc' Hv' Htwo'].
    + pose proof (He k) as E. rewrite !tget_leaf, bool_decide_true in E by done.
      case_bool_decide; by simplify_eq.
    + exfalso. eapply (leaf_not_full k v m cs' k'); [done|]. intros key. by rewrite He, tget_short_app.
    + exfalso. by apply (leaf_not_full k v m cs' []); [constructor|].
  - destruct Hok' as [k' v' m' Hk'|k' cs' Hk' Hn' Hok'|cs' Hlen' Hc' Hv' Htwo'].
    + exfalso. eapply (leaf_not_full k' v' m' cs k); [done|]. intros key.
      by rewrite <- He, tget_short_app.
    + assert (k = k') as <-.
      { apply (anti_symm prefix); [by apply (ext_prefix k (TFull cs) k' cs')|].
        by apply (ext_prefix k' (TFull cs') k cs). }
      f_equal. apply IH; [done|]. intros key. specialize (He (k ++ key)).
      by rewrite !tget_short_app in He.
    + exfalso. by eapply (ext_not_full k); [done|constructor|].
  - assert (node_ok (TFull cs)) as Hok by by constructor.
    destruct Hok' as [k' v' m' Hk'|k' cs' Hk' Hn' Hok'|cs' Hlen' Hc' Hv' Htwo'].
    + exfalso. apply (ext_not_full k' (TValue v' m') cs); [by apply term_not_nil|done|done].
    + exfalso. by apply (ext_not_full k' (TFull cs') cs).
    + f_equal. apply children_ext; [done|by constructor|done|].
      intros i c c' Hi Hi' Hlt Hne Hokc'. by eapply IH.
Qed.

Lemma tree_ok_ext t t' : tree_ok t → tree_ok t' → (∀ k, tget t k = tget t' k) → t = t'.
Proof.
  intros [->|Hok] [->|Hok'] He; [done|..].
  - destruct (node_ok_some _ Hok') as (k & x & Hx). by rewrite <- He in Hx.
  - destruct (node_ok_some _ Hok) as (k & x & Hx). by rewrite He in Hx.
  - by apply node_ok_ext.
Qed.
