(* ===== verification/TrieRep.v ===== *)
(** * Nodes and the trees they stand for

    [loaded p n t]: the node [n] at path [p], with what its references lead to
    in the database, is the tree [t].  [rep] adds that the flags are right: a
    node that is not dirty is in the database under its cached reference, and a
    cached hash is the hash of the tree. *)

From S2P Require Import Prelude Bytes External Trie TrieTree.

Definition inner (n : node) : bool :=
  match n with fullNode _ _ | shortNode _ _ _ => true | _ => false end.
Definition isRef (n : node) : bool := match n with refNode _ => true | _ => false end.

Definition compact (k : bytes) : bytes :=
  match appendHexToCompact [] k with Ok b => b | Err _ => [] end.

(** ** The hash of a tree *)
Section hash.
Context `{Drlp} `{Crypto}.

(** The encoding of a child, given its own encoding: large ones by hash. *)
Definition embed (c : tree) (b : bytes) : bytes :=
  match c with
  | TNil | TValue _ _ => b
  | _ => if (32 <=? length b)%nat then drlp_str (blakeBytes b) else b
  end.

Fixpoint tenc (t : tree) : bytes :=
  match t with
  | TNil => drlp_str []
  | TValue v _ => drlp_str v
  | TShort k c => drlp_list (drlp_str (compact k) ++ embed c (tenc c))
  | TFull cs => drlp_list (concat (map (λ c, embed c (tenc c)) cs))
  end.

Definition thash (t : tree) : bytes := blakeBytes (tenc t).

Definition hash_fits (p : bytes) (h : bytes) (t : tree) : Prop :=
  h = thash t ∧ (p = [] ∨ (32 ≤ length (tenc t))%nat).

(** ** Nodes *)
Section rep.
Context (skip : bool) (db : Database).

Definition ver_ok (v : Version) : Prop := is32 (Major v) ∧ is32 (Minor v).

Definition ref_ok (p : bytes) (r : refBody) (t : tree) : Prop :=
  ver_ok (rver r) ∧ (skip = false → ∃ h, rhash r = Some h ∧ hash_fits p h t).

Inductive loaded : bytes → node → tree → Prop :=
  | ld_nil p : loaded p Nil TNil
  | ld_value p v m : loaded p (valueNode v m) (TValue v m)
  | ld_short p k c f t : loaded (p ++ k) c t → loaded p (shortNode k c f) (TShort k t)
  | ld_full p cs f ts : length cs = length ts →
      (∀ i c t, cs !! i = Some c → ts !! i = Some t → loaded (p ++ [Z.of_nat i]) c t) →
      loaded p (fullNode cs f) (TFull ts)
  | ld_ref p r t blob (dn : Z → refBody → node) :
      db !! (p, rver r) = Some blob → ref_ok p r t →
      (∀ g r', mustDecodeNode g r' blob = Ok (dn g r')) → (∀ g r', inner (dn g r') = true) →
      (∀ g r', loaded p (dn g r') t) → loaded p (refNode r) t.

Definition flag_ok (p : bytes) (f : nodeFlag) (t : tree) : Prop :=
  (fdirty f = false → loaded p (refNode (fref f)) t) ∧
  (skip = false → ∀ h, rhash (fref f) = Some h → hash_fits p h t).

Inductive rep : bytes → node → tree → Prop :=
  | rep_nil p : rep p Nil TNil
  | rep_value p v m : rep p (valueNode v m) (TValue v m)
  | rep_short p k c f t : rep (p ++ k) c t → flag_ok p f (TShort k t) →
      rep p (shortNode k c f) (TShort k t)
  | rep_full p cs f ts : length cs = length ts →
      (∀ i c t, cs !! i = Some c → ts !! i = Some t → rep (p ++ [Z.of_nat i]) c t) →
      flag_ok p f (TFull ts) → rep p (fullNode cs f) (TFull ts)
  | rep_ref p r t : loaded p (refNode r) t → rep p (refNode r) t.

Lemma rep_loaded p n t : rep p n t → loaded p n t.
Proof. induction 1; try by constructor. done. Qed.

Lemma new_flag_ok g p t : flag_ok p (newFlag g) t.
Proof. by split. Qed.

Lemma set_gen_ok g p f t : flag_ok p f t → flag_ok p (setGen g f) t.
Proof. done. Qed.

(** References lead to inner nodes. *)
Lemma loaded_ref_inner p r t : loaded p (refNode r) t →
  (∃ k c, t = TShort k c) ∨ ∃ cs, t = TFull cs.
Proof.
  inversion 1 as [| | | |? ? ? ? dn Hb Hr Hd Hi Hl]; subst.
  specialize (Hl 0 r). specialize (Hi 0 r). destruct (dn 0 r); try done; inversion Hl; eauto.
Qed.

Lemma rep_nil_iff p n t : rep p n t → isNil n = true ↔ t = TNil.
Proof.
  destruct 1 as [| | | |? ? ? Hl]; simpl; try by split.
  destruct (loaded_ref_inner _ _ _ Hl) as [(? & ? & ->)|(? & ->)]; by split.
Qed.

(** ** Loading *)

(** Nodes embedded in the one that is decoded are dirty and carry no hash. *)
Inductive fresh (g : Z) : node → Prop :=
  | fr_nil : fresh g Nil
  | fr_value v m : fresh g (valueNode v m)
  | fr_ref r : fresh g (refNode r)
  | fr_short k c : fresh g c → fresh g (shortNode k c (decodedFlag None g))
  | fr_full cs : Forall (fresh g) cs → fresh g (fullNode cs (decodedFlag None g)).

Definition decoded (g : Z) (ref : option refBody) (n : node) : Prop :=
  match n with
  | fullNode cs f => f = decodedFlag ref g ∧ Forall (fresh g) cs
  | shortNode k c f => f = decodedFlag ref g ∧ fresh g c
  | _ => True
  end.

Lemma decoded_fresh g n : decoded g None n → fresh g n.
Proof. destruct n; simpl; [constructor|intros [-> ?]; by constructor..|constructor|constructor]. Qed.

Lemma decodeRef_fresh buf a n rest g : decodeRef buf a = Ok (n, rest) → fresh g n.
Proof.
  unfold decodeRef. intros E. destruct (if hasAttr a attrHasHash then _ else _) as [[h b]|]; [|done].
  cbn in E. destruct (if hasAttr a attrHasMajor then _ else _) as [[v b']|]; [|done]. cbn in E.
  destruct (if hasAttr a attrHasMinor then _ else _) as [[w b'']|]; [|done]. cbn in E.
  injection E as <- <-. constructor.
Qed.

Lemma decodeValue_shape buf a n rest : decodeValue buf a = Ok (n, rest) → ∃ v m, n = valueNode v m.
Proof.
  unfold decodeValue. intros E. destruct (SplitString buf) as [[v b]|]; [|done]. cbn in E.
  destruct (if hasAttr a attrHasMeta then _ else _) as [[m b']|]; [|done]. cbn in E.
  injection E as <- <-. eauto.
Qed.

Lemma decodeNode_decoded fuel g ref buf n rest :
  decodeNode fuel g ref buf = Ok (n, rest) → decoded g ref n.
Proof.
  revert ref buf n rest. induction fuel as [|fuel IH]; intros ref buf n rest E; [done|].
  destruct buf as [|tag buf]; [done|]. cbn [decodeNode] in E.
  destruct (Z.land tag 7 =? kindEmpty); [by injection E as <- _|].
  destruct (Z.land tag 7 =? kindFull).
  { unfold decodeFull in E.
    destruct (decodeChildren _ 17 buf) as [[cs b]|] eqn:Ec; [|done]. injection E as <- _.
    split; [done|]. revert buf cs b Ec. generalize 17%nat as k. induction k as [|k IHk]; intros buf cs b Ec.
    { by injection Ec as <- _. }
    destruct buf as [|tag' buf]; [done|]. cbn [decodeChildren] in Ec.
    destruct (if Z.land tag' 7 =? kindRef then _ else _) as [[c b1]|] eqn:E1; [|done]. cbn in Ec.
    destruct (decodeChildren _ k b1) as [[cs1 b2]|] eqn:E2; [|done]. injection Ec as <- _.
    constructor; [|by eapply IHk]. destruct (_ =? kindRef); [by eapply decodeRef_fresh|].
    by eapply decoded_fresh, IH. }
  destruct (Z.land tag 7 =? kindShort).
  { unfold decodeShort in E. destruct (SplitString buf) as [[k b]|]; [|done]. cbn in E.
    destruct (if hasTerm (compactToHex k) then _ else _) as [[c b1]|] eqn:E1; [|done]. injection E as <- _.
    split; [done|]. destruct (hasTerm _); [|by eapply decoded_fresh, IH].
    destruct (decodeValue_shape _ _ _ _ E1) as (v & m & ->). constructor. }
  destruct (Z.land tag 7 =? kindRef).
  { unfold decodeRef in E. destruct (if hasAttr (Z.shiftr tag 3) attrHasHash then _ else _) as [[h b]|]; [|done].
    cbn in E. destruct (if hasAttr _ attrHasMajor then _ else _) as [[v b']|]; [|done]. cbn in E.
    destruct (if hasAttr _ attrHasMinor then _ else _) as [[w b'']|]; [|done]. by injection E as <- _. }
  destruct (Z.land tag 7 =? kindValue); [|done].
  destruct (decodeValue_shape _ _ _ _ E) as (v & m & ->). done.
Qed.

Lemma fresh_flag_ok g p t : flag_ok p (decodedFlag None g) t.
Proof. by split. Qed.

Lemma fresh_rep g p n t : loaded p n t → fresh g n → rep p n t.
Proof.
  induction 1 as [| |p k c f t Hl IH|p cs f ts Hlen Hl IH|p r t blob dn]; intros Hf.
  - constructor.
  - constructor.
  - inversion Hf; subst. constructor; [by apply IH|apply fresh_flag_ok].
  - inversion Hf as [| | | |? Hcs]; subst. constructor; [done| |apply fresh_flag_ok].
    intros i c t Hc Ht. apply (IH i); [done|done|]. by eapply Forall_lookup_1.
  - apply rep_ref. by econstructor.
Qed.

Lemma resolveRef_rep g p r t : loaded p (refNode r) t →
  ∃ n, resolveRef db g r p = Ok n ∧ rep p n t ∧ inner n = true.
Proof.
  intros Hl0. pose proof Hl0 as Hl1. inversion Hl1 as [| | | |? ? ? blob dn Hb Hr Hd Hi Hl]; subst.
  exists (dn g r). unfold resolveRef. rewrite Hb, Hd. split; [done|]. split; [|done].
  specialize (Hl g r). specialize (Hd g r). specialize (Hi g r).
  unfold mustDecodeNode in Hd. destruct (decodeNode _ _ _ _) as [[n rest]|] eqn:E; [|done].
  injection Hd as Hd. rewrite Hd in E. apply decodeNode_decoded in E.
  assert (flag_ok p (decodedFlag (Some r) g) t) as Hf.
  { split; [done|]. intros Hs h Eh. destruct Hr as [_ Hr].
    destruct (Hr Hs) as (h' & Eh' & ?). simpl in Eh. congruence. }
  clear Hd Hb Hl0 Hl1 Hr. revert Hl Hi E. generalize (dn g r) as n0. intros n0 Hl Hi E.
  inversion Hl; subst; try done; destruct E as [-> Hfr].
  - constructor; [by apply (fresh_rep g)|done].
  - constructor; [done| |done]. intros i c t Hci Hti. apply (fresh_rep g); [eauto|].
    by eapply Forall_lookup_1.
Qed.
End rep.
End hash.

(** ** Looking up *)
(** ** Where a key can be in a tree *)
Definition at_key (t : tree) (k : bytes) : Prop :=
  (tree_ok t ∧ term_key k) ∨ ((t = TNil ∨ ∃ v m, t = TValue v m) ∧ k = []).

Lemma at_key_short k c k' : at_key (TShort k c) (k ++ k') → at_key c k'.
Proof.
  intros [[[|Hok] Hk]|[[|(v & m & ?)] _]]; try done.
  inversion Hok as [? v m Ht|? cs Hk0 Hn Hf|]; subst.
  - right. split; [eauto|]. destruct Ht as (l & Hl & ->). rewrite <- app_assoc in Hk.
    apply term_key_app in Hk; [|done]. simpl in Hk. apply term_key_cons in Hk as [[_ ?]|[Hn _]]; [done|].
    unfold nibble in Hn. lia.
  - left. apply term_key_app in Hk; [|done]. split; [by right|done].
Qed.

Lemma at_key_full cs k : at_key (TFull cs) k → ∃ x k' c, k = x :: k' ∧ 0 ≤ x < 17 ∧
  length cs = 17%nat ∧ cs !! Z.to_nat x = Some c ∧ at_key c k'.
Proof.
  intros [[[|Hok] Hk]|[[|(v & m & ?)] _]]; try done.
  inversion Hok as [| |? Hlen Hc Hv _]; subst. destruct k as [|x k]; [by apply term_key_nil in Hk|].
  exists x, k. assert (0 ≤ x < 17) as Hx.
  { apply term_key_cons in Hk as [[-> _]|[[? ?] _]]; lia. }
  destruct (lookup_lt_is_Some_2 cs (Z.to_nat x)) as [c Ec]; [lia|]. exists c. split_and!; try done; try lia.
  apply term_key_cons in Hk as [[-> ->]|[[? ?] Hk]].
  - right. split; [|done]. by apply Hv.
  - left. split; [|done]. destruct (decide (c = TNil)) as [->|]; [by left|right]. apply (Hc _ _ Ec); [lia|done].
Qed.

Lemma at_key_nil_iff t : at_key t [] → t = TNil ∨ ∃ v m, t = TValue v m.
Proof. intros [[_ ?]|[? _]]; [by apply term_key_nil in H|done]. Qed.

(** ** Common prefixes *)
Lemma prefixLen_split a b : ∃ c a' b', a = c ++ a' ∧ b = c ++ b' ∧ length c = prefixLen a b ∧
  ∀ x y a'' b'', a' = x :: a'' → b' = y :: b'' → x ≠ y.
Proof.
  revert b. induction a as [|x a IH]; intros b; [by exists [], [], b|].
  destruct b as [|y b]; [by exists [], (x :: a), []|]. simpl. destruct (Z.eqb_spec x y) as [->|Hne].
  - destruct (IH b) as (c & a' & b' & -> & -> & Hc & Hne). exists (y :: c), a', b'.
    split_and!; simpl; try congruence. exact Hne.
  - exists [], (x :: a), (y :: b). split_and!; try done. intros. by simplify_eq.
Qed.

Lemma take_test (k key : bytes) pos :
  (length key - pos <? length k)%nat || negb (bool_decide (k = take (length k) (drop pos key))) =
  negb (bool_decide (k = take (length k) (drop pos key))).
Proof.
  case_bool_decide as E; [|by rewrite orb_true_r]. rewrite orb_false_r. apply Nat.ltb_ge.
  apply (f_equal length) in E. rewrite length_take, length_drop in E. lia.
Qed.

Section operations.
Context `{Drlp} `{Crypto} (skip : bool) (db : Database) (gen : Z).
Abbreviation rep := (rep skip db).

Definition refCost (n : node) : nat := if isRef n then 2 else 1.

Lemma inner_cost n : inner n = true → refCost n = 1%nat.
Proof. by destruct n. Qed.
Lemma refCost_le n : (1 ≤ refCost n ≤ 2)%nat.
Proof. unfold refCost. destruct (isRef n); lia. Qed.

(** ** Looking up *)
Lemma tryGet_rep fuel n key pos t :
  rep (take pos key) n t → at_key t (drop pos key) → (pos ≤ length key)%nat →
  (2 * length (drop pos key) + refCost n ≤ fuel)%nat →
  ∃ n' d, tryGet db gen fuel n key pos = Ok (tget t (drop pos key), n', d) ∧
    rep (take pos key) n' t.
Proof.
  revert n pos t. induction fuel as [|fuel IH]; intros n pos t Hr Hk Hpos Hf.
  { unfold refCost in Hf. destruct (isRef n); lia. }
  inversion Hr as [|? v m|? k c f t' Hc Hfl|? cs f ts Hlen Hcs Hfl|? r ? Hl]; subst; cbn [tryGet].
  - by exists Nil, false.
  - exists (valueNode v m), false. destruct Hk as [[[|Hok] _]|[_ ->]]; [done|inversion Hok|]. by split.
  - rewrite take_test. unfold tget at 1; fold tget.
    case_bool_decide as Ek; [|by exists (shortNode k c f), false]. cbn [negb].
    assert (take (pos + length k) key = take pos key ++ k) as Et.
    { rewrite Ek at 2. by rewrite take_take_drop. }
    assert (drop pos key = k ++ drop (pos + length k) key) as Ed.
    { rewrite <- drop_drop. rewrite Ek at 1. by rewrite take_drop. }
    assert (length k ≠ 0)%nat as Hk0.
    { destruct Hk as [[[|Hok] _]|[[|(? & ? & ?)] _]]; try done. inversion Hok; subst; [|by destruct k].
      apply term_not_nil in H2. by destruct k. }
    assert (length (drop pos key) = length k + length (drop (pos + length k) key))%nat as El
      by (rewrite Ed at 1; apply length_app).
    destruct (IH c (pos + length k)%nat t') as (n' & d & E & Hr').
    + by rewrite Et.
    + rewrite Ed in Hk. by apply at_key_short in Hk.
    + rewrite !length_drop in El. lia.
    + pose proof (refCost_le c). unfold refCost in Hf at 1. simpl in Hf. lia.
    + rewrite E. cbn [mbind result_bind]. rewrite drop_drop. rewrite Et in Hr'.
      destruct d; [exists (shortNode k n' (setGen gen f)), true|exists (shortNode k c f), false];
        (split; [done|]); [by constructor|done].
  - destruct (at_key_full _ _ Hk) as (x & k' & ct & Ek & Hx & Hlt & Hct & Hk').
    assert (drop (pos + 1) key = k') as Ed by (rewrite <- drop_drop, Ek; done).
    assert (take (pos + 1) key = take pos key ++ [x]) as Et.
    { rewrite <- (take_take_drop key pos 1), Ek. done. }
    rewrite Ek. cbn [headOf mbind result_bind]. unfold childAt.
    destruct (lookup_lt_is_Some_2 cs (Z.to_nat x)) as [c Hc]; [lia|]. rewrite Hc. cbn [mbind result_bind].
    assert (Z.of_nat (Z.to_nat x) = x) as Ex by lia.
    destruct (IH c (pos + 1)%nat ct) as (n' & d & E & Hr').
    + rewrite Et, <- Ex. by eapply Hcs.
    + by rewrite Ed.
    + apply (f_equal length) in Ek. rewrite length_drop in Ek. simpl in Ek. lia.
    + rewrite Ed. rewrite Ek in Hf. simpl in Hf. pose proof (refCost_le c). unfold refCost in Hf at 1. simpl in Hf. lia.
    + rewrite E. cbn [mbind result_bind]. rewrite tget_full, Hct, Ed.
      destruct (Z.leb_spec 0 x); [|lia]. cbn [mbind option_bind]. rewrite Et, <- Ex in Hr'.
      destruct d; [exists (fullNode (<[Z.to_nat x := n']> cs) (setGen gen f)), true|
                   exists (fullNode cs f), false]; (split; [done|]); [|done].
      constructor; [by rewrite length_insert| |done]. intros i c0 t0 Hc0 Ht0.
      apply list_lookup_insert_Some in Hc0 as [(<- & <- & _)|[? ?]]; [|by eapply Hcs].
      by simplify_eq.
  - destruct (resolveRef_rep _ _ gen _ _ _ Hl) as (n1 & E & Hr1 & Hi). rewrite E. cbn [mbind result_bind].
    destruct (IH n1 pos t) as (n' & d & E' & Hr'); try done.
    { rewrite inner_cost by done. unfold refCost in Hf. simpl in Hf. lia. }
    rewrite E'. cbn [mbind result_bind]. by exists n', true.
Qed.
End operations.
