(* ===== verification/TrieInsert.v ===== *)
(** * Inserting into a trie *)

From S2P Require Import Prelude Bytes External Trie TrieTree TrieRep.

(** ** Trees *)

(** [t] below the path [k]. *)
Definition graft (k : bytes) (t : tree) : tree := match k with [] => t | _ => TShort k t end.

Lemma tget_graft k t key : tget (graft k t) key = tget (TShort k t) key.
Proof. destruct k; [|done]. by unfold tget at 2; fold tget. Qed.

Lemma tget_short_None k c key : (∀ k', key ≠ k ++ k') → tget (TShort k c) key = None.
Proof.
  intros Hne. destruct (tget _ key) as [x|] eqn:E; [|done].
  apply tget_short_Some in E as (k' & -> & _). by destruct (Hne k').
Qed.

Lemma tget_short_under l k c K : tget (TShort (l ++ k) c) (l ++ K) = tget (TShort k c) K.
Proof.
  unfold tget; fold tget. rewrite length_app, drop_app_add, take_app_add.
  rewrite (bool_decide_ext _ (k = take (length k) K)); [done|].
  split; [apply app_inv_head|congruence].
Qed.

(** A full node with the children [t1] at [y] and [t2] at [z]. *)
Definition fork (y : Z) (t1 : tree) (z : Z) (t2 : tree) : tree :=
  TFull (<[Z.to_nat z := t2]> (<[Z.to_nat y := t1]> (replicate 17 TNil))).

Lemma tget_fork y t1 z t2 x k : 0 ≤ y < 17 → 0 ≤ z < 17 → y ≠ z →
  tget (fork y t1 z t2) (x :: k) = if x =? z then tget t2 k else if x =? y then tget t1 k else None.
Proof.
  intros Hy Hz Hyz. unfold fork. rewrite tget_full.
  destruct (Z.leb_spec 0 x), (Z.eqb_spec x z), (Z.eqb_spec x y); subst; try lia; try done.
  - by rewrite list_lookup_insert_eq by (by rewrite length_insert, length_replicate; lia).
  - rewrite list_lookup_insert_ne by lia. by rewrite list_lookup_insert_eq by (by rewrite length_replicate; lia).
  - rewrite !list_lookup_insert_ne by lia. destruct (replicate 17 TNil !! Z.to_nat x) as [c|] eqn:E; [|done].
    by apply lookup_replicate in E as [-> _].
Qed.

(** A child at the place [y] of a full node. *)
Definition child_ok (y : Z) (t : tree) : Prop :=
  t ≠ TNil ∧ (nibble y → node_ok t) ∧ (y = 16 → ∃ v m, t = TValue v m) ∧ 0 ≤ y < 17.

Lemma fork_ok y t1 z t2 : y ≠ z → child_ok y t1 → child_ok z t2 → node_ok (fork y t1 z t2).
Proof.
  intros Hyz (Hn1 & Hok1 & Hv1 & Hy) (Hn2 & Hok2 & Hv2 & Hz). unfold fork. constructor.
  - by rewrite !length_insert, length_replicate.
  - intros i c Hi Hlt Hne.
    apply list_lookup_insert_Some in Hi as [(<- & <- & _)|[Hnz Hi]]; [apply Hok2; unfold nibble; lia|].
    apply list_lookup_insert_Some in Hi as [(<- & <- & _)|[Hny Hi]]; [apply Hok1; unfold nibble; lia|].
    by apply lookup_replicate in Hi as [-> _].
  - intros c Hi.
    apply list_lookup_insert_Some in Hi as [(E & <- & _)|[Hnz Hi]]; [right; apply Hv2; lia|].
    apply list_lookup_insert_Some in Hi as [(E & <- & _)|[Hny Hi]]; [right; apply Hv1; lia|].
    left. by apply lookup_replicate in Hi as [-> _].
  - exists (Z.to_nat y), (Z.to_nat z), t1, t2. split_and!; [lia| |done| |done].
    + rewrite list_lookup_insert_ne by lia. apply list_lookup_insert_eq. rewrite length_replicate. lia.
    + apply list_lookup_insert_eq. rewrite length_insert, length_replicate. lia.
Qed.

Lemma term_key_split l x k : term_key (l ++ x :: k) → Forall nibble l ∧ term_key (x :: k).
Proof.
  induction l as [|y l IH]; [done|]. simpl. intros Ht.
  apply term_key_cons in Ht as [[_ E]|[Hx Ht]]; [by destruct l|]. destruct (IH Ht). by split; [constructor|].
Qed.

(** What is left of a leaf or an extension behind its first nibbles. *)
Lemma graft_child k c y k' l : node_ok (TShort k c) → k = l ++ y :: k' → child_ok y (graft k' c).
Proof.
  intros Hok ->. inversion Hok as [? v m Ht|? cs Hne Hn Hf|]; subst.
  - apply term_key_split in Ht as [Hl Ht'].
    apply term_key_cons in Ht' as [[-> ->]|[Hy Hk']].
    + split; [done|]. split; [unfold nibble; lia|]. split; [by eauto|lia].
    + assert (k' ≠ []) by by apply term_not_nil. destruct k' as [|a k']; [done|].
      unfold nibble in Hy. split; [done|]. split; [intros _; by apply ok_leaf|]. split; lia.
  - apply Forall_app in Hn as [_ Hn]. inversion Hn; subst.
    assert (nibble y) as Hy by done. unfold nibble in Hy.
    destruct k' as [|a k']; (split; [done|]); (split; [intros _|split; lia]); [done|by apply ok_ext].
Qed.

Lemma leaf_child v m key z key' l : term_key key → key = l ++ z :: key' →
  child_ok z (graft key' (TValue v m)).
Proof. intros Ht. apply graft_child. by constructor. Qed.

(** The tree after a branch was put where [key] and [k] part. *)
Lemma tget_branch l y k' tc z key' v m K : 0 ≤ y < 17 → 0 ≤ z < 17 → y ≠ z →
  tget (graft l (fork y (graft k' tc) z (graft key' (TValue v m)))) K =
    if bool_decide (K = l ++ z :: key') then Some (v, m) else tget (TShort (l ++ y :: k') tc) K.
Proof.
  intros Hy Hz Hyz. rewrite tget_graft.
  assert ((∃ K', K = l ++ K') ∨ ∀ K', K ≠ l ++ K') as [[K' ->]|Hno].
  { destruct (decide (l `prefix_of` K)) as [[K' ->]|Hn]; [by left; exists K'|right].
    intros K' ->. by apply Hn, prefix_app_r. }
  - rewrite tget_short_app, tget_short_under.
    destruct K' as [|x K']; [rewrite bool_decide_false by (intros E; simplify_list_eq); by rewrite tget_short_None|].
    rewrite tget_fork by done. destruct (Z.eqb_spec x z) as [->|Hxz].
    + rewrite tget_graft, tget_leaf. do 2 case_bool_decide; simplify_list_eq; try done.
      symmetry. apply tget_short_None. intros k0 ?. by simplify_list_eq.
    + rewrite bool_decide_false by (intros E; by simplify_list_eq).
      destruct (Z.eqb_spec x y) as [->|Hxy].
      * rewrite tget_graft. symmetry. apply (tget_short_under [y]).
      * symmetry. apply tget_short_None. intros k0 ?. by simplify_list_eq.
  - rewrite bool_decide_false by apply Hno. rewrite !tget_short_None; [done| |apply Hno].
    intros K0. rewrite <- app_assoc. apply Hno.
Qed.

(** No key ends inside another one. *)
Lemma at_key_inside l y k' c : at_key (TShort (l ++ y :: k') c) l → False.
Proof.
  intros [[[|Hok] Hl]|[[|(? & ? & ?)] _]]; try done. destruct Hl as (l0 & Hl0 & ->).
  inversion Hok as [? v m Ht|? cs Hne Hn Hf|]; subst.
  - apply term_key_split in Ht as [Hn _]. apply Forall_app in Hn as [_ Hn]. inversion Hn.
    unfold nibble in *. lia.
  - apply Forall_app in Hn as [Hn _]. apply Forall_app in Hn as [_ Hn]. inversion Hn.
    unfold nibble in *. lia.
Qed.

(** ** Nodes *)
Section operations.
Context `{Drlp} `{Crypto} (skip : bool) (db : Database) (gen : Z).
Abbreviation rep := (rep skip db).
Abbreviation newFlag := (newFlag gen).

Definition graftNode (k : bytes) (c : node) : node :=
  match k with [] => c | _ => shortNode k c newFlag end.

Lemma insert_nil fuel p k c : trie_insert db gen (S fuel) Nil p k c = Ok (true, graftNode k c).
Proof. by destruct k. Qed.

Lemma rep_graft p k c t : rep (p ++ k) c t → rep p (graftNode k c) (graft k t).
Proof. destruct k; simpl; [by rewrite app_nil_r|]. intros Hr. by constructor; [|apply new_flag_ok]. Qed.

Lemma rep_fork p y c1 t1 z c2 t2 : 0 ≤ y < 17 → 0 ≤ z < 17 →
  rep (p ++ [y]) c1 t1 → rep (p ++ [z]) c2 t2 →
  rep p (fullNode (<[Z.to_nat z := c2]> (<[Z.to_nat y := c1]> (replicate 17 Nil))) newFlag)
    (fork y t1 z t2).
Proof.
  intros Hy Hz H1 H2. constructor; [by rewrite !length_insert, !length_replicate| |apply new_flag_ok].
  intros i c t Hc Ht.
  destruct (decide (i = Z.to_nat z)) as [->|Hiz].
  { rewrite list_lookup_insert_eq in Hc by (rewrite length_insert, length_replicate; lia).
    rewrite list_lookup_insert_eq in Ht by (rewrite length_insert, length_replicate; lia).
    simplify_eq. by rewrite Z2Nat.id by lia. }
  rewrite list_lookup_insert_ne in Hc by done. rewrite list_lookup_insert_ne in Ht by done.
  destruct (decide (i = Z.to_nat y)) as [->|Hiy].
  { rewrite list_lookup_insert_eq in Hc by (rewrite length_replicate; lia).
    rewrite list_lookup_insert_eq in Ht by (rewrite length_replicate; lia).
    simplify_eq. by rewrite Z2Nat.id by lia. }
  rewrite list_lookup_insert_ne in Hc by done. rewrite list_lookup_insert_ne in Ht by done.
  apply lookup_replicate in Hc as [-> _]. apply lookup_replicate in Ht as [-> _]. constructor.
Qed.

(** The tree [t'] is [t] with the value for [key]. *)
Record inserted (t : tree) (key v m : bytes) (t' : tree) : Prop := {
  ins_at : at_key t' key;
  ins_full : ∀ cs, t = TFull cs → ∃ cs', t' = TFull cs';
  ins_get : ∀ k, tget t' k = if bool_decide (k = key) then Some (v, m) else tget t k;
}.

Definition inserts (r : result (bool * node)) (p : bytes) (t : tree) (key v m : bytes) : Prop :=
  ∃ d n' t', r = Ok (d, n') ∧ rep p n' t' ∧ (d = false → t' = t) ∧ inserted t key v m t'.

Lemma inserted_short k t key v m t' : node_ok (TShort k t) → at_key t key →
  inserted t key v m t' → inserted (TShort k t) (k ++ key) v m (TShort k t').
Proof.
  intros Hok Hk [Ha Hf Hg]. split; [|done|].
  - inversion Hok as [? v0 m0 Ht|? cs Hne Hn Hok'|]; subst.
    + destruct Hk as [[[|Hbad] _]|[_ ->]]; [done|inversion Hbad|]. rewrite app_nil_r.
      destruct (at_key_nil_iff _ Ha) as [->|(v1 & m1 & ->)]; [|left; split; [right; by constructor|done]].
      specialize (Hg []). by rewrite bool_decide_true in Hg.
    + destruct (Hf cs eq_refl) as [cs' ->].
      destruct Ha as [[[|Hok1] Hterm]|[[|(? & ? & ?)] _]]; try done. left.
      split; [right; by constructor|]. by apply term_key_app.
  - intros K. destruct (decide (k `prefix_of` K)) as [[K' ->]|Hn].
    + rewrite !tget_short_app, Hg. apply (f_equal (λ b : bool, if b then _ else _)).
      apply bool_decide_ext. split; [by intros ->|apply app_inv_head].
    + rewrite !tget_short_None; [|by intros k' ->; apply Hn, prefix_app_r..].
      rewrite bool_decide_false; [done|]. intros ->. by apply Hn, prefix_app_r.
Qed.

(** Replacing a child of a full node. *)
Lemma tget_replace cs x c t' K : 0 ≤ x → cs !! Z.to_nat x = Some c →
  tget (TFull (<[Z.to_nat x := t']> cs)) K =
    match K with y :: K' => if y =? x then tget t' K' else tget (TFull cs) K | [] => None end.
Proof.
  intros Hx Hc. destruct K as [|y K]; [done|]. rewrite !tget_full.
  destruct (Z.leb_spec 0 y), (Z.eqb_spec y x) as [->|]; try lia; try done.
  - by rewrite list_lookup_insert_eq by (by eapply lookup_lt_Some).
  - by rewrite list_lookup_insert_ne by lia.
Qed.

Lemma rep_replace p cs ts x n' t' f : 0 ≤ x → rep p (fullNode cs f) (TFull ts) →
  rep (p ++ [x]) n' t' →
  rep p (fullNode (<[Z.to_nat x := n']> cs) newFlag) (TFull (<[Z.to_nat x := t']> ts)).
Proof.
  intros Hx Hr Hr'. inversion Hr as [| | |? ? ? ? Hlen Hcs _|]; subst.
  constructor; [by rewrite !length_insert| |apply new_flag_ok]. intros i c t Hc Ht.
  apply list_lookup_insert_Some in Hc as [(<- & <- & Hi)|[Hne Hc]].
  - rewrite list_lookup_insert_eq in Ht by lia. simplify_eq. by rewrite Z2Nat.id by lia.
  - rewrite list_lookup_insert_ne in Ht by done. by eapply Hcs.
Qed.

Lemma inserted_full cs x k c v m t' : at_key (TFull cs) (x :: k) → 0 ≤ x < 17 →
  cs !! Z.to_nat x = Some c → inserted c k v m t' →
  inserted (TFull cs) (x :: k) v m (TFull (<[Z.to_nat x := t']> cs)).
Proof.
  intros Hk Hx Hc [Ha Hf Hg]. destruct Hk as [[[|Hok] Hk]|[[|(? & ? & ?)] _]]; try done.
  assert (t' ≠ TNil) as Hnn.
  { intros ->. specialize (Hg k). by rewrite bool_decide_true, tget_nil in Hg. }
  split; [left; split; [right|done]|by eauto|].
  - inversion Hok as [| |? Hlen Hcs Hv (i & j & ci & cj & Hij & Hi & Hni & Hj & Hnj)]; subst.
    constructor; [by rewrite length_insert|..].
    + intros i' c' Hi' Hlt Hne. apply list_lookup_insert_Some in Hi' as [(<- & <- & _)|[? Hi']]; [|by eapply Hcs].
      destruct Ha as [[[|?] _]|[_ ->]]; [done|done|].
      apply term_key_cons in Hk as [[-> _]|[_ ?]]; [lia|by apply term_key_nil in H1].
    + intros c' Hi'. apply list_lookup_insert_Some in Hi' as [(E & <- & _)|[? Hi']]; [|by eapply Hv].
      assert (x = 16) as -> by lia. apply term_key_cons in Hk as [[_ ->]|[[? ?] _]]; [|lia].
      destruct (at_key_nil_iff _ Ha) as [?|?]; [done|by right].
    + assert (∀ a ca, cs !! a = Some ca → ca ≠ TNil →
        ∃ ca', <[Z.to_nat x := t']> cs !! a = Some ca' ∧ ca' ≠ TNil) as Hkeep.
      { intros a ca Hca Hne. destruct (decide (a = Z.to_nat x)) as [->|].
        - exists t'. split; [|done]. apply list_lookup_insert_eq. by eapply lookup_lt_Some.
        - exists ca. by rewrite list_lookup_insert_ne by done. }
      destruct (Hkeep _ _ Hi Hni) as (ci' & ? & ?). destruct (Hkeep _ _ Hj Hnj) as (cj' & ? & ?).
      by exists i, j, ci', cj'.
  - intros K. rewrite (tget_replace _ _ c) by (done || lia). destruct K as [|y K]; [done|].
    destruct (Z.eqb_spec y x) as [->|Hyx].
    + rewrite Hg, tget_full, Hc. destruct (Z.leb_spec 0 x); [|lia]. cbn [mbind option_bind].
      apply (f_equal (λ b : bool, if b then _ else _)). apply bool_decide_ext. split; [by intros ->|by intros [=]].
    + rewrite bool_decide_false; [done|]. by intros [=].
Qed.

(** A leaf or extension that is split by a new key. *)
Lemma insert_split p k c t f l y k' z key' v m :
  rep p (shortNode k c f) (TShort k t) → k = l ++ y :: k' → y ≠ z →
  at_key (TShort k t) (l ++ z :: key') →
  let branch := fullNode (<[Z.to_nat z := graftNode key' (valueNode v m)]>
    (<[Z.to_nat y := graftNode k' c]> (replicate 17 Nil))) newFlag in
  rep p (if (length l =? 0)%nat then branch else shortNode l branch newFlag)
    (graft l (fork y (graft k' t) z (graft key' (TValue v m)))) ∧
  0 ≤ y < 17 ∧ 0 ≤ z < 17 ∧
  inserted (TShort k t) (l ++ z :: key') v m (graft l (fork y (graft k' t) z (graft key' (TValue v m)))).
Proof.
  intros Hr -> Hyz Hk branch. inversion Hr as [| |? ? ? ? ? Hc _| |]; subst.
  destruct Hk as [[[|Hok] Hk]|[[|(? & ? & ?)] _]]; try done.
  pose proof (graft_child _ _ _ _ l Hok eq_refl) as Hc1.
  pose proof (leaf_child v m _ _ _ l Hk eq_refl) as Hc2.
  pose proof (term_key_split _ _ _ Hk) as [Hl _]. pose proof (fork_ok _ _ _ _ Hyz Hc1 Hc2) as Hfork.
  destruct Hc1 as (_ & _ & _ & Hy). destruct Hc2 as (_ & _ & _ & Hz).
  assert (rep (p ++ l) branch (fork y (graft k' t) z (graft key' (TValue v m)))) as Hb.
  { apply rep_fork; [done|done|apply rep_graft|apply rep_graft; constructor].
    rewrite <- !app_assoc. done. }
  split_and!; try lia.
  - destruct l as [|a l]; simpl; [by rewrite app_nil_r in Hb|]. constructor; [done|apply new_flag_ok].
  - split; [left; split; [right|done]|done|].
    + destruct l as [|a l]; [done|]. by apply ok_ext.
    + intros K. apply tget_branch; [lia|lia|done].
Qed.

Lemma insert_short fuel p k c f t key v m :
  rep p (shortNode k c f) (TShort k t) → at_key (TShort k t) key → (2 * length key ≤ fuel)%nat →
  (∀ key', (2 * length key' + 2 ≤ fuel)%nat → at_key t key' →
    inserts (trie_insert db gen fuel c (p ++ k) key' (valueNode v m)) (p ++ k) t key' v m) →
  inserts (trie_insert db gen (S fuel) (shortNode k c f) p key (valueNode v m)) p (TShort k t) key v m.
Proof.
  intros Hr Hk Hfuel IH. inversion Hr as [| |? ? ? ? ? Hc _| |]; subst.
  assert (node_ok (TShort k t) ∧ term_key key) as [Hok Hkey].
  { destruct Hk as [[[|?] ?]|[[|(? & ? & ?)] _]]; done. }
  assert (k ≠ []) as Hk0 by (inversion Hok; subst; [by apply term_not_nil|done]).
  destruct (prefixLen_split key k) as (l & a & b & Ekey & Ek & Hl & Hne).
  assert (∃ x key', key = x :: key') as (x & key0 & Ekey0).
  { destruct key; [by apply term_key_nil in Hkey|eauto]. }
  destruct b as [|y k'].
  - rewrite app_nil_r in Ek. subst l. rewrite Ekey in Hk. apply at_key_short in Hk.
    destruct (IH a) as (d & n' & t' & E & Hr' & Hd & Hi).
    { rewrite Ekey, length_app in Hfuel. destruct k; [done|]. simpl in Hfuel. lia. }
    { done. }
    exists d, (if d then shortNode k n' newFlag else shortNode k c f), (TShort k t').
    split; [|split; [|split]].
    + rewrite Ekey0. cbn [trie_insert]. rewrite <- Ekey0, <- Hl, Nat.eqb_refl, Ekey.
      rewrite take_app_length, drop_app_length, E. by destruct d.
    + destruct d; [by constructor; [|apply new_flag_ok]|]. by rewrite (Hd eq_refl).
    + intros Ed. by rewrite (Hd Ed).
    + rewrite Ekey. by apply inserted_short.
  - destruct a as [|z key']; [rewrite app_nil_r in Ekey; subst; by apply at_key_inside in Hk|].
    assert (y ≠ z) as Hyz by (intros ->; by eapply Hne).
    rewrite Ekey in Hk. destruct (insert_split p k c t f l y k' z key' v m Hr Ek Hyz Hk) as (Hr' & Hy & Hz & Hi).
    eexists true, _, _. split; [|split; [exact Hr'|split; [done|by rewrite Ekey]]].
    destruct fuel as [|fuel]; [rewrite Ekey0 in Hfuel; simpl in Hfuel; lia|].
    rewrite Ekey0. cbn [trie_insert]. rewrite <- Ekey0, <- Hl. subst k key.
    assert (length l =? length (l ++ y :: k') = false)%nat as ->.
    { apply Nat.eqb_neq. rewrite length_app. simpl. lia. }
    rewrite !drop_app_length. cbn [headOf mbind result_bind].
    replace (S (length l)) with (length l + 1)%nat by lia. rewrite !drop_app_add. simpl drop.
    rewrite take_app_length. unfold childAt. rewrite !lookup_replicate_2 by lia.
    destruct k', key'; cbn [mbind result_bind]; by destruct (length l =? 0)%nat.
Qed.

Lemma trie_insert_rep fuel n p key v m t : rep p n t → at_key t key →
  (2 * length key + refCost n ≤ fuel)%nat →
  inserts (trie_insert db gen fuel n p key (valueNode v m)) p t key v m.
Proof.
  revert n p key t. induction fuel as [|fuel IH]; intros n p key t Hr Hk Hf.
  { pose proof (refCost_le n). lia. }
  inversion Hr as [|? v0 m0|? k c f t' Hc Hfl|? cs f ts Hlen Hcs Hfl|? r ? Hl]; subst.
  - exists true, (graftNode key (valueNode v m)), (graft key (TValue v m)). rewrite insert_nil.
    split; [done|]. split; [apply rep_graft; constructor|]. split; [done|]. split; [|done|].
    + destruct Hk as [[_ Hk]|[_ ->]]; [|right; eauto].
      left. split; [right|done]. apply term_not_nil in Hk as Hne. destruct key; [done|]. by constructor.
    + intros k. by rewrite tget_graft, tget_leaf.
  - destruct Hk as [[[|Hok] _]|[_ ->]]; [done|inversion Hok|].
    eexists _, _, (TValue v m). split; [done|]. split; [constructor|]. split.
    + rewrite orb_false_iff, !negb_false_iff, !bool_decide_eq_true. by intros [-> ->].
    + split; [right; eauto|done|]. intros [|]; [by rewrite bool_decide_true|by rewrite bool_decide_false].
  - apply insert_short; [done|done|unfold refCost in Hf; simpl in Hf; lia|].
    intros key' Hle Hk'. apply IH; [done|done|]. pose proof (refCost_le c). lia.
  - destruct (at_key_full _ _ Hk) as (x & k' & ct & -> & Hx & Hlt & Hct & Hk').
    destruct (lookup_lt_is_Some_2 cs (Z.to_nat x)) as [c Hc]; [lia|].
    assert (rep (p ++ [x]) c ct) as Hcr by (rewrite <- (Z2Nat.id x) by lia; by eapply Hcs).
    destruct (IH c (p ++ [x]) k' ct) as (d & n' & t' & E & Hr' & Hd & Hi); try done.
    { unfold refCost in Hf at 1. simpl in Hf. pose proof (refCost_le c). lia. }
    exists d, (if d then fullNode (<[Z.to_nat x := n']> cs) newFlag else fullNode cs f),
      (TFull (<[Z.to_nat x := t']> ts)).
    split; [|split; [|split]].
    + cbn [trie_insert]. unfold childAt. rewrite Hc. cbn [mbind result_bind]. rewrite E. by destruct d.
    + destruct d; [apply (rep_replace _ _ _ _ _ _ f); [lia|done|done]|].
      rewrite (Hd eq_refl). by rewrite list_insert_id.
    + intros Ed. by rewrite (Hd Ed), list_insert_id.
    + by apply (inserted_full _ _ _ ct); [|lia|..].
  - destruct (resolveRef_rep _ _ gen _ _ _ Hl) as (n1 & E & Hr1 & Hi).
    destruct (IH n1 p key t) as (d & n' & t' & E' & Hr' & Hd & Hins); try done.
    { rewrite inner_cost by done. unfold refCost in Hf. simpl in Hf. lia. }
    destruct key as [|x key].
    { apply at_key_nil_iff in Hk. apply loaded_ref_inner in Hl. naive_solver. }
    exists d, (if d then n' else n1), t'. split; [|split; [|done]].
    + cbn [trie_insert]. rewrite E. cbn [mbind result_bind]. rewrite E'. by destruct d.
    + destruct d; [done|]. by rewrite (Hd eq_refl).
Qed.
End operations.
