(* ===== verification/TrieDelete.v ===== *)
(** * Deleting from a trie *)

From S2P Require Import Prelude Bytes External Trie TrieTree TrieRep TrieInsert.

(** ** The only child of a full node *)
Lemma onlyChild_more i cs pos : 0 ≤ pos →
  (onlyChild i cs pos = pos ∧ ∀ j c, cs !! j = Some c → isNil c = true) ∨
  (onlyChild i cs pos = -2 ∧ ∃ j c, cs !! j = Some c ∧ isNil c = false).
Proof.
  intros Hp. revert i. induction cs as [|c cs IH]; intros i; simpl; [left; split; [done|intros j c; by rewrite lookup_nil]|].
  destruct (isNil c) eqn:Ec.
  - destruct (IH (i + 1)) as [[-> Hall]|[-> (j & c' & Hj & Hc')]].
    + left. split; [done|]. intros [|j] c' Hj; simpl in Hj; [congruence|by eapply Hall].
    + right. split; [done|]. by exists (S j), c'.
  - destruct (Z.eqb_spec pos (-1)); [lia|]. right. split; [done|]. by exists 0%nat, c.
Qed.

Lemma onlyChild_spec i cs : 0 ≤ i →
  (onlyChild i cs (-1) = -1 ∧ ∀ j c, cs !! j = Some c → isNil c = true) ∨
  (∃ j c, onlyChild i cs (-1) = i + Z.of_nat j ∧ cs !! j = Some c ∧ isNil c = false ∧
    ∀ j' c', cs !! j' = Some c' → j' ≠ j → isNil c' = true) ∨
  (onlyChild i cs (-1) = -2 ∧ ∃ j j' c c', j ≠ j' ∧ cs !! j = Some c ∧ isNil c = false ∧
    cs !! j' = Some c' ∧ isNil c' = false).
Proof.
  revert i. induction cs as [|c cs IH]; intros i Hi; simpl; [left; split; [done|intros j c; by rewrite lookup_nil]|].
  destruct (isNil c) eqn:Ec.
  - destruct (IH (i + 1) ltac:(lia)) as [[-> Hall]|[(j & c' & -> & Hj & Hc' & Hothers)|
      [-> (j & j' & c' & c'' & Hne & Hrest)]]].
    + left. split; [done|]. intros [|j] c' Hj; simpl in Hj; [congruence|by eapply Hall].
    + right. left. exists (S j), c'. split_and!; [lia|done|done|].
      intros [|j'] c'' Hj' Hne; simpl in Hj'; [congruence|]. eapply Hothers; [done|lia].
    + right. right. split; [done|]. exists (S j), (S j'), c', c''. split; [lia|done].
  - change (-1 =? -1) with true. cbn iota.
    destruct (onlyChild_more (i + 1) cs i Hi) as [[-> Hall]|[-> (j & c' & Hj & Hc')]].
    + right. left. exists 0%nat, c. split_and!; [lia|done|done|].
      intros [|j'] c' Hj Hne; [done|by eapply Hall].
    + right. right. split; [done|]. exists 0%nat, (S j), c, c'. split_and!; done.
Qed.

(** ** Trees *)
Lemma tget_only cs i c K : cs !! i = Some c → (∀ j c', cs !! j = Some c' → j ≠ i → c' = TNil) →
  tget (TFull cs) K = tget (TShort [Z.of_nat i] c) K.
Proof.
  intros Hi Hothers. destruct K as [|x K]; [by rewrite tget_short_None by done|].
  destruct (decide (x = Z.of_nat i)) as [->|Hne].
  - rewrite tget_full_at, Hi. cbn [mbind option_bind]. symmetry. apply (tget_short_app [Z.of_nat i]).
  - rewrite tget_short_None by (intros k ?; simplify_eq/=; lia). rewrite tget_full.
    destruct (Z.leb_spec 0 x); [|done]. destruct (cs !! Z.to_nat x) as [c'|] eqn:E; [|done].
    rewrite (Hothers _ _ E) by lia. done.
Qed.

Lemma tget_short_short k k' c K : tget (TShort (k ++ k') c) K = tget (TShort k (TShort k' c)) K.
Proof.
  destruct (decide (k `prefix_of` K)) as [[K' ->]|Hn].
  - by rewrite tget_short_app, tget_short_under.
  - rewrite !tget_short_None; [done|by intros k0 ->; apply Hn, prefix_app_r|].
    intros k0 ->. apply Hn. rewrite <- app_assoc. by apply prefix_app_r.
Qed.

(** A node behind one more nibble, or several. *)
Lemma node_ok_behind k k' c : k ≠ [] → Forall nibble k → node_ok (TShort k' c) → node_ok (TShort (k ++ k') c).
Proof.
  intros Hk Hn Hok. inversion Hok; subst.
  - apply ok_leaf. by apply term_key_app.
  - apply ok_ext; [by destruct k|by apply Forall_app|done].
Qed.

Record deleted (t : tree) (key : bytes) (t' : tree) : Prop := {
  del_at : at_key t' key;
  del_full : ∀ cs, t = TFull cs → t' ≠ TNil;
  del_get : ∀ k, tget t' k = if bool_decide (k = key) then None else tget t k;
}.

Lemma deleted_same t key : at_key t key → tget t key = None → deleted t key t.
Proof. intros Hk Hn. split; [done|by intros cs ->|]. intros k. case_bool_decide; by subst. Qed.

(** A full node after one of its children changed: as in [node_ok], with one
    child at least. *)
Record full_ok (cs : list tree) : Prop := {
  fo_length : length cs = 17%nat;
  fo_child : ∀ i c, cs !! i = Some c → (i < 16)%nat → c ≠ TNil → node_ok c;
  fo_value : ∀ c, cs !! 16%nat = Some c → c = TNil ∨ ∃ v m, c = TValue v m;
  fo_some : ∃ i c, cs !! i = Some c ∧ c ≠ TNil;
}.

Lemma full_after_delete cs x k c t' : node_ok (TFull cs) → term_key (x :: k) → 0 ≤ x < 17 →
  cs !! Z.to_nat x = Some c → at_key t' k → (k = [] → t' = TNil) → full_ok (<[Z.to_nat x := t']> cs).
Proof.
  intros Hok Hk Hx Hc Ha Hnil.
  inversion Hok as [| |? Hlen Hcs Hv (i & j & ci & cj & Hij & Hi & Hni & Hj & Hnj)]; subst.
  split; [by rewrite length_insert|..].
  - intros i' c' Hi' Hlt Hne. apply list_lookup_insert_Some in Hi' as [(<- & <- & _)|[? Hi']]; [|by eapply Hcs].
    destruct Ha as [[[|?] _]|[_ ->]]; [done|done|]. by rewrite Hnil in Hne.
  - intros c' Hi'. apply list_lookup_insert_Some in Hi' as [(E & <- & _)|[? Hi']]; [|by eapply Hv].
    assert (x = 16) as -> by lia. apply term_key_cons in Hk as [[_ ->]|[[? ?] _]]; [|lia]. left. by apply Hnil.
  - destruct (decide (i = Z.to_nat x)) as [->|]; [exists j, cj|exists i, ci];
      by rewrite list_lookup_insert_ne by congruence.
Qed.

(** ** Nodes *)
Section operations.
Context `{Drlp} `{Crypto} (skip : bool) (db : Database) (gen : Z).
Abbreviation rep := (rep skip db).
Abbreviation newFlag := (newFlag gen).

Lemma rep_behind p k k' c t : rep ((p ++ k) ++ k') c t →
  rep p (shortNode (k ++ k') c newFlag) (TShort (k ++ k') t).
Proof. intros Hr. constructor; [by rewrite app_assoc|apply new_flag_ok]. Qed.

Lemma rep_short_new p k c t : rep (p ++ k) c t → rep p (shortNode k c newFlag) (TShort k t).
Proof. intros Hr. by constructor; [|apply new_flag_ok]. Qed.

Lemma resolve_rep n p t : rep p n t → t ≠ TNil → (∀ v m, t ≠ TValue v m) →
  ∃ n', resolve db gen n p = Ok n' ∧ rep p n' t ∧ inner n' = true.
Proof.
  intros Hr Hn Hv. inversion Hr as [| | | |? r ? Hl]; subst; try done; simpl.
  - by destruct (Hv v m).
  - by eexists.
  - by eexists.
  - by apply (resolveRef_rep skip).
Qed.

Lemma reduceFull_rep p cs ts f : rep p (fullNode cs f) (TFull ts) → full_ok ts →
  ∃ n' t', reduceFull db gen cs p = Ok n' ∧ rep p n' t' ∧ node_ok t' ∧ isRef n' = false ∧
    ∀ K, tget t' K = tget (TFull ts) K.
Proof.
  intros Hr [Hlen Hch Hv (i0 & c0 & Hi0 & Hn0)]. inversion Hr as [| | |? ? ? ? Hl Hcs _|]; subst.
  assert (∀ j c t, cs !! j = Some c → ts !! j = Some t → isNil c = true ↔ t = TNil) as Hnil.
  { intros j c t Hc Ht. eapply rep_nil_iff, Hcs; eauto. }
  assert (∀ j t, ts !! j = Some t → ∃ c, cs !! j = Some c) as Hdom.
  { intros j t Ht. apply lookup_lt_is_Some_2. rewrite Hl. by eapply lookup_lt_Some. }
  unfold reduceFull.
  destruct (onlyChild_spec 0 cs ltac:(lia)) as [[-> Hall]|[(j & c & -> & Hj & Hc & Hothers)|
    [-> (j & j' & c & c' & Hne & Hj & Hc & Hj' & Hc')]]].
  - destruct (Hdom _ _ Hi0) as [c Hc]. by destruct Hn0; eapply Hnil; [| |eapply Hall].
  - destruct (lookup_lt_is_Some_2 ts j) as [t Ht]; [rewrite <- Hl; by eapply lookup_lt_Some|].
    assert (t ≠ TNil) as Htn by (intros E; apply (Hnil j c t Hj Ht) in E; congruence).
    assert (rep (p ++ [Z.of_nat j]) c t) as Hrc by by eapply Hcs.
    assert (∀ K, tget (TShort [Z.of_nat j] t) K = tget (TFull ts) K) as Hg.
    { intros K. symmetry. apply tget_only; [done|]. intros j' t' Ht' Hne.
      destruct (Hdom _ _ Ht') as [c' Hc']. by eapply Hnil, Hothers. }
    pose proof (lookup_lt_Some _ _ _ Ht) as Hjlt.
    destruct (Z.leb_spec 0 (0 + Z.of_nat j)); [|lia]. rewrite Z.add_0_l. unfold childAt.
    rewrite Nat2Z.id, Hj. cbn [mbind result_bind]. destruct (Z.eqb_spec (Z.of_nat j) 16) as [E16|E16].
    + assert (j = 16%nat) as -> by lia. destruct (Hv t Ht) as [|(v & m & ->)]; [done|].
      eexists _, _. split; [done|]. split; [by apply rep_short_new|]. split; [|done].
      apply ok_leaf. by exists [].
    + assert (nibble (Z.of_nat j)) as Hnib by (unfold nibble; lia).
      assert (node_ok t) as Htok by (apply (Hch j); [done|lia|done]). cbn [negb].
      destruct (resolve_rep c _ t Hrc Htn) as (n1 & E & Hr1 & Hi1); [by intros v m ->; inversion Htok|].
      rewrite E. cbn [mbind result_bind].
      inversion Hr1 as [| |? k c1 f1 t1 Hc1 _|? cs1 f1 ts1 _ _ _|]; subst; try done.
      * eexists _, _. split; [done|]. split; [by apply (rep_behind p [Z.of_nat j])|].
        split; [by apply (node_ok_behind [Z.of_nat j]); [|constructor|]|]. split; [done|].
        intros K. by rewrite <- Hg, <- (tget_short_short [Z.of_nat j]).
      * eexists _, _. split; [done|]. split; [by apply rep_short_new|]. split; [|done].
        apply ok_ext; [done|by constructor|done].
  - eexists _, _. split; [done|]. split; [constructor; [done|done|apply new_flag_ok]|]. split; [|done].
    constructor; try done. destruct (lookup_lt_is_Some_2 ts j) as [t Ht]; [rewrite <- Hl; by eapply lookup_lt_Some|].
    destruct (lookup_lt_is_Some_2 ts j') as [t' Ht']; [rewrite <- Hl; by eapply lookup_lt_Some|].
    exists j, j', t, t'. split_and!; try done.
    + intros E. apply (Hnil j c t Hj Ht) in E. congruence.
    + intros E. apply (Hnil j' c' t' Hj' Ht') in E. congruence.
Qed.

Definition deletes (r : result (bool * node)) (p : bytes) (t : tree) (key : bytes) : Prop :=
  ∃ d n' t', r = Ok (d, n') ∧ rep p n' t' ∧ (d = false → t' = t) ∧ (d = true → isRef n' = false) ∧
    deleted t key t'.

(** Deleting below an extension. *)
Lemma deleted_ext k cs a t' n' p : node_ok (TShort k (TFull cs)) → deleted (TFull cs) a t' → a ≠ [] →
  rep (p ++ k) n' t' → isRef n' = false →
  let n1 := match n' with
            | shortNode k' c' _ => shortNode (k ++ k') c' newFlag
            | _ => shortNode k n' newFlag
            end in
  ∃ t1, rep p n1 t1 ∧ deleted (TShort k (TFull cs)) (k ++ a) t1.
Proof.
  intros Hok [Ha Hf Hg] Hna Hr Href n1. inversion Hok as [|? ? Hk0 Hn Hcs|]; subst.
  assert (node_ok t' ∧ term_key a) as [Hok' Hterm].
  { destruct Ha as [[[->|?] ?]|[_ ?]]; [by destruct (Hf cs)|done|done]. }
  assert (∀ K, tget (TShort k t') K =
    if bool_decide (K = k ++ a) then None else tget (TShort k (TFull cs)) K) as Hget.
  { intros K. destruct (decide (k `prefix_of` K)) as [[K' ->]|Hno].
    - rewrite !tget_short_app, Hg. apply (f_equal (λ b : bool, if b then _ else _)).
      apply bool_decide_ext. split; [by intros ->|apply app_inv_head].
    - rewrite !tget_short_None; [by case_bool_decide|by intros k' ->; apply Hno, prefix_app_r..]. }
  assert (∀ t1, node_ok t1 → (∀ K, tget t1 K = tget (TShort k t') K) →
    deleted (TShort k (TFull cs)) (k ++ a) t1) as Hdel.
  { intros t1 Hok1 He. split; [left; split; [by right|by apply term_key_app]|done|].
    intros K. by rewrite He, Hget. }
  inversion Hr as [|? v m|? k1 c1 f1 t1 Hc1 _|? cs1 f1 ts1 _ _ _|]; subst; try done; try by inversion Hok'.
  - exists (TShort (k ++ k1) t1). split; [by apply rep_behind|]. apply Hdel; [by apply node_ok_behind|].
    intros K. apply tget_short_short.
  - exists (TShort k (TFull ts1)). split; [by apply rep_short_new|]. apply Hdel; [by apply ok_ext|done].
Qed.

Lemma delete_short fuel p k c f t key :
  rep p (shortNode k c f) (TShort k t) → at_key (TShort k t) key → (2 * length key ≤ fuel)%nat →
  (∀ key', (2 * length key' + 2 ≤ fuel)%nat → at_key t key' →
    deletes (trie_delete db gen fuel c (p ++ k) key') (p ++ k) t key') →
  deletes (trie_delete db gen (S fuel) (shortNode k c f) p key) p (TShort k t) key.
Proof.
  intros Hr Hk Hfuel IH.
  assert (node_ok (TShort k t) ∧ term_key key) as [Hok Hkey].
  { destruct Hk as [[[|?] ?]|[[|(? & ? & ?)] _]]; done. }
  assert (k ≠ []) as Hk0 by (inversion Hok; subst; [by apply term_not_nil|done]).
  destruct (prefixLen_split key k) as (l & a & b & Ekey & Ek & Hl & Hne). cbn [trie_delete].
  rewrite <- Hl. destruct b as [|y k'].
  2:{ exists false, (shortNode k c f), (TShort k t). split_and!; try done.
      - destruct (Nat.ltb_spec (length l) (length k)); [done|]. subst k. rewrite length_app in *. simpl in *. lia.
      - apply deleted_same; [done|]. apply tget_short_None. intros k0 E. subst. rewrite <- app_assoc in E.
        apply app_inv_head in E. destruct a as [|x a]; [done|]. simplify_eq/=. by eapply Hne. }
  rewrite app_nil_r in Ek. subst l. rewrite Nat.ltb_irrefl. rewrite Ekey in Hk. apply at_key_short in Hk.
  destruct (Nat.eqb_spec (length k) (length key)) as [El|El].
  - assert (a = []) as -> by (apply length_zero_iff_nil; rewrite Ekey, length_app in El; lia).
    exists true, Nil, TNil. split_and!; [done|constructor|done|done|]. rewrite app_nil_r in Ekey. subst key.
    inversion Hok as [? v m Ht|? cs Hne0 Hn Hf|]; subst.
    + split; [left; split; [by left|done]|done|]. intros K. rewrite tget_leaf. by case_bool_decide.
    + apply at_key_nil_iff in Hk as [|(? & ? & ?)]; done.
  - inversion Hok as [? v m Ht|? cs Hne0 Hn Hf|]; subst.
    { destruct Hk as [[[|Hbad] _]|[_ ->]]; [done|inversion Hbad|]. by rewrite app_nil_r in El. }
    destruct (IH a) as (d & n' & t' & E & Hr' & Hd & Href & Hdel); [|done|].
    { rewrite length_app in Hfuel. destruct k; [done|]. simpl in Hfuel. lia. }
    rewrite take_app_length, drop_app_length, E. cbn [mbind result_bind]. destruct d; cbn [negb].
    + destruct (deleted_ext k cs a t' n' p) as (t1 & Hr1 & Hdel1); try done; [by intros ->; rewrite app_nil_r in El|by apply Href|].
      eexists true, _, t1. split; [|split; [exact Hr1|]]; [by destruct n'|]. split_and!; try done. by destruct n'.
    + exists false, (shortNode k c f), (TShort k (TFull cs)). split_and!; try done.
      rewrite (Hd eq_refl) in Hdel. apply deleted_same.
      * left. split; [by right|done].
      * rewrite tget_short_app. pose proof (del_get _ _ _ Hdel a) as Hg. by rewrite bool_decide_true in Hg.
Qed.

Lemma trie_delete_rep fuel n p key t : rep p n t → at_key t key →
  (2 * length key + refCost n ≤ fuel)%nat → deletes (trie_delete db gen fuel n p key) p t key.
Proof.
  revert n p key t. induction fuel as [|fuel IH]; intros n p key t Hr Hk Hf.
  { pose proof (refCost_le n). lia. }
  inversion Hr as [|? v0 m0|? k c f t' Hc Hfl|? cs f ts Hlen Hcs Hfl|? r ? Hl]; subst.
  - exists false, Nil, TNil. split_and!; try done. by apply deleted_same.
  - destruct Hk as [[[|Hok] _]|[_ ->]]; [done|inversion Hok|].
    exists true, Nil, TNil. split_and!; try done; [constructor|]. split; [right; eauto|done|].
    intros K. rewrite tget_value. case_bool_decide; [by subst|]. by destruct K.
  - apply delete_short; [done|done|unfold refCost in Hf; simpl in Hf; lia|].
    intros key' Hle Hk'. apply IH; [done|done|]. pose proof (refCost_le c). lia.
  - destruct (at_key_full _ _ Hk) as (x & k' & ct & -> & Hx & Hlt & Hct & Hk').
    destruct (lookup_lt_is_Some_2 cs (Z.to_nat x)) as [c Hc]; [lia|].
    assert (rep (p ++ [x]) c ct) as Hcr by (rewrite <- (Z2Nat.id x) by lia; by eapply Hcs).
    destruct (IH c (p ++ [x]) k' ct) as (d & n' & t' & E & Hr' & Hd & Href & Hdel); try done.
    { unfold refCost in Hf at 1. simpl in Hf. pose proof (refCost_le c). lia. }
    cbn [trie_delete headOf mbind result_bind tail]. unfold childAt. rewrite Hc. cbn [mbind result_bind].
    rewrite E. cbn [mbind result_bind].
    assert (node_ok (TFull ts) ∧ term_key (x :: k')) as [Hok Hterm].
    { destruct Hk as [[[|?] ?]|[[|(? & ? & ?)] _]]; done. }
    assert (tget ct k' = tget (TFull ts) (x :: k')) as Egt.
    { rewrite tget_full, Hct. by destruct (Z.leb_spec 0 x); [|lia]. }
    destruct d; cbn [negb].
    + destruct (reduceFull_rep p (<[Z.to_nat x := n']> cs) (<[Z.to_nat x := t']> ts) newFlag)
        as (n1 & t1 & E1 & Hr1 & Hok1 & Href1 & Hg1).
      { apply (rep_replace _ _ _ _ _ _ _ _ _ f); [lia|done|done]. }
      { eapply full_after_delete; try done; [apply Hdel|]. intros ->.
        destruct (at_key_nil_iff _ (del_at _ _ _ Hdel)) as [|(v & m & ->)]; [done|].
        pose proof (del_get _ _ _ Hdel []) as Hg. by rewrite bool_decide_true in Hg. }
      exists true, n1, t1. rewrite E1. split_and!; try done. split; [left; split; [by right|done]| |].
      * intros cs0 _ ->. inversion Hok1.
      * intros K. rewrite Hg1, (tget_replace _ _ ct) by (done || lia). destruct K as [|y K]; [done|].
        destruct (Z.eqb_spec y x) as [->|Hyx]; [|by rewrite bool_decide_false by (by intros [=])].
        rewrite (del_get _ _ _ Hdel), tget_full, Hct. destruct (Z.leb_spec 0 x); [|lia]. cbn [mbind option_bind].
        apply (f_equal (λ b : bool, if b then _ else _)). apply bool_decide_ext. split; [by intros ->|by intros [=]].
    + exists false, (fullNode cs f), (TFull ts). split_and!; try done. apply deleted_same; [done|].
      rewrite <- Egt. rewrite (Hd eq_refl) in Hdel. pose proof (del_get _ _ _ Hdel k') as Hg.
      by rewrite bool_decide_true in Hg.
  - destruct (resolveRef_rep _ _ gen _ _ _ Hl) as (n1 & E & Hr1 & Hi).
    destruct (IH n1 p key t) as (d & n' & t' & E' & Hr' & Hd & Href & Hdel); try done.
    { rewrite inner_cost by done. unfold refCost in Hf. simpl in Hf. lia. }
    exists d, (if d then n' else n1), t'. split; [|split; [|split; [done|split; [|done]]]].
    + cbn [trie_delete]. rewrite E. cbn [mbind result_bind]. rewrite E'. by destruct d.
    + destruct d; [done|]. by rewrite (Hd eq_refl).
    + intros ->. by apply Href.
Qed.
End operations.
