(* ===== verification/TrieCodec.v ===== *)
(** * The encodings of keys and nodes

    Reading back a compact key, or a node that was written to the database,
    gives the key or the node's tree back. *)

From S2P Require Import Prelude Bytes External Trie TrieTree TrieRep.

(** ** Nibbles *)
Lemma nibble_check (P : Z → bool) : forallb P (seqZ 0 16) = true → ∀ x, nibble x → P x = true.
Proof.
  rewrite forallb_forall. intros Hall x Hx. apply Hall, list_elem_of_In, elem_of_seqZ.
  unfold nibble in Hx. lia.
Qed.

Lemma nibble_pair a b : nibble a → nibble b →
  let x := Z.lor (wrap8 (Z.shiftl a 4)) b in x / 16 = a ∧ x mod 16 = b.
Proof.
  intros Ha Hb. pose (P := λ a b, let x := Z.lor (wrap8 (Z.shiftl a 4)) b in
    (x / 16 =? a) && (x mod 16 =? b)).
  assert (P a b = true) as HP.
  { apply (nibble_check (P a)); [|done]. revert a Ha.
    apply (nibble_check (λ a, forallb (P a) (seqZ 0 16))). vm_compute. reflexivity. }
  apply andb_true_iff in HP as [H1 H2]. by split; apply Z.eqb_eq.
Qed.

Lemma flag_nibble (term : bool) x : nibble x →
  let b0 := Z.lor (Z.lor (Z.shiftl (if term then 1 else 0) 5) (Z.shiftl 1 4)) x in
  b0 / 16 = (if term then 3 else 1) ∧ b0 mod 16 = x.
Proof.
  intros Hx. pose (P := λ x, let b0 := Z.lor (Z.lor (Z.shiftl (if term then 1 else 0) 5) (Z.shiftl 1 4)) x in
    (b0 / 16 =? (if term then 3 else 1)) && (b0 mod 16 =? x)).
  assert (P x = true) as HP by (apply nibble_check; [destruct term; vm_compute; reflexivity|done]).
  apply andb_true_iff in HP as [H1 H2]. by split; apply Z.eqb_eq.
Qed.

Lemma decodeNibbles_Ok l r : decodeNibbles l = Ok r → Forall nibble l →
  nibblesOf r = l ∧ length l = (2 * length r)%nat.
Proof.
  assert (∀ n l r, (length l ≤ n)%nat → decodeNibbles l = Ok r → Forall nibble l →
    nibblesOf r = l ∧ length l = (2 * length r)%nat) as Hn; [|by eapply Hn].
  clear l r. induction n as [|n IH]; intros [|a [|b l]] r Hlen E Hl; simpl in *; try lia; try done;
    try (by injection E as <-).
  destruct (decodeNibbles l) as [r'|] eqn:Er; [|done]. injection E as <-.
  inversion Hl as [|? ? Ha Hl']; subst. inversion Hl' as [|? ? Hb Hl'']; subst.
  destruct (IH l r') as [E1 E2]; [lia|done|done|]. destruct (nibble_pair a b Ha Hb) as [Ea Eb].
  simpl. rewrite Ea, Eb, E1. split; [done|lia].
Qed.

Lemma decodeNibbles_even l : Nat.even (length l) = true → ∃ r, decodeNibbles l = Ok r.
Proof.
  assert (∀ n l, (length l ≤ n)%nat → Nat.even (length l) = true → ∃ r, decodeNibbles l = Ok r) as Hn;
    [|by eapply Hn].
  clear l. induction n as [|n IH]; intros [|a [|b l]] Hl He; simpl in *; try lia; try (by eexists); try done.
  destruct (IH l) as [r Hr]; [lia|done|]. rewrite Hr. by eexists.
Qed.

(** ** Compact keys *)
Lemma append_compact buf k : appendHexToCompact buf k = Ok (buf ++ compact k).
Proof.
  unfold compact, appendHexToCompact. set (hex := if hasTerm k then removelast k else k).
  destruct (Nat.odd (length hex)) eqn:Eo.
  - destruct (decodeNibbles_even (tail hex)) as [r Hr].
    { destruct hex as [|x hex]; [done|]. by rewrite <- Nat.odd_succ. }
    rewrite Hr. done.
  - destruct (decodeNibbles_even hex) as [r Hr]; [unfold Nat.odd in Eo; by apply negb_false_iff in Eo|].
    rewrite Hr. done.
Qed.

(** The key of a node, with or without the terminator. *)
Definition key_ok (k : bytes) : Prop := Forall nibble k ∨ term_key k.

Lemma hasTerm_nibbles k : Forall nibble k → hasTerm k = false.
Proof.
  intros Hk. unfold hasTerm. apply bool_decide_eq_false. intros E.
  apply last_Some_elem_of in E. rewrite Forall_forall in Hk. specialize (Hk _ E). unfold nibble in Hk. lia.
Qed.

Lemma hasTerm_term k : term_key k → hasTerm k = true.
Proof. intros (l & _ & ->). unfold hasTerm. apply bool_decide_eq_true. by rewrite last_snoc. Qed.

(** The compact form of nibbles [l], with the terminator when [term]. *)
Lemma compact_form (term : bool) l : Forall nibble l → let k := if term then l ++ [16] else l in
  compactToHex (compact k) = k ∧ length (compact k) = Z.to_nat (compactLen k).
Proof.
  intros Hl k. assert (hasTerm k = term) as Ht.
  { unfold k. destruct term; [apply hasTerm_term; by exists l|by apply hasTerm_nibbles]. }
  assert ((if hasTerm k then removelast k else k) = l) as Er.
  { rewrite Ht. unfold k. destruct term; [|done]. rewrite removelast_app by done. by rewrite app_nil_r. }
  assert (compactLen k = Z.of_nat (length l) / 2 + 1) as El.
  { unfold compactLen. rewrite Ht. unfold k. destruct term; [|done]. rewrite length_app. simpl.
    replace (Z.of_nat (length l + 1) - 1) with (Z.of_nat (length l)) by lia. done. }
  unfold compact, appendHexToCompact. rewrite Er, Ht. destruct (Nat.odd (length l)) eqn:Eo.
  - destruct l as [|x l]; [done|]. apply Forall_cons_1 in Hl as [Hx Hl']. cbn [hd tail].
    destruct (decodeNibbles_even l) as [r Hr]; [by rewrite <- Nat.odd_succ|].
    destruct (decodeNibbles_Ok _ _ Hr Hl') as [En Elen]. rewrite Hr. cbn [mbind result_bind app].
    destruct (flag_nibble term x Hx) as [Eq Em]. cbn zeta in Eq, Em.
    unfold compactToHex, keybytesToHex. cbn [nibblesOf app hd]. rewrite Eq, Em, En.
    rewrite El. cbn [length]. rewrite Elen. split.
    + unfold k. destruct term; [done|]. cbn [Z.ltb Z.compare Pos.compare Pos.compare_cont].
      rewrite app_comm_cons, app_comm_cons, removelast_app by done. by rewrite app_nil_r.
    + replace (Z.of_nat (S (2 * length r))) with (1 + Z.of_nat (length r) * 2) by lia.
      rewrite Z.div_add by lia. change (1 / 2) with 0. lia.
  - destruct (decodeNibbles_even l) as [r Hr]; [unfold Nat.odd in Eo; by apply negb_false_iff in Eo|].
    destruct (decodeNibbles_Ok _ _ Hr Hl) as [En Elen]. rewrite Hr. cbn [mbind result_bind app].
    unfold compactToHex, keybytesToHex. cbn [nibblesOf app hd]. rewrite El, En.
    cbn [length]. rewrite Elen. split.
    + unfold k. destruct term; [done|]. change (Z.shiftl 0 5 / 16 <? 2) with true. cbv iota.
      rewrite !app_comm_cons, removelast_app by done. by rewrite app_nil_r.
    + replace (Z.of_nat (2 * length r)) with (Z.of_nat (length r) * 2) by lia.
      rewrite Z.div_mul by lia. lia.
Qed.

Lemma compact_roundtrip k : key_ok k → compactToHex (compact k) = k ∧
  length (compact k) = Z.to_nat (compactLen k).
Proof.
  intros [Hk|(l & Hl & ->)]; [apply (compact_form false k Hk)|apply (compact_form true l Hl)].
Qed.

Lemma compact_inj k k' : key_ok k → key_ok k' → compact k = compact k' → k = k'.
Proof.
  intros Hk Hk' E. destruct (compact_roundtrip k Hk) as [E1 _].
  destruct (compact_roundtrip k' Hk') as [E2 _]. congruence.
Qed.

Lemma compactLen_bound k : 0 ≤ compactLen k ≤ Z.of_nat (length k) / 2 + 1.
Proof.
  unfold compactLen. split; [destruct (hasTerm k) eqn:E|destruct (hasTerm k)].
  - assert (0 < length k)%nat by (unfold hasTerm in E; by destruct k; [|simpl; lia]).
    assert (0 ≤ (Z.of_nat (length k) - 1) / 2) by (apply Z.div_pos; lia). lia.
  - assert (0 ≤ Z.of_nat (length k) / 2) by (apply Z.div_pos; lia). lia.
  - assert ((Z.of_nat (length k) - 1) / 2 ≤ Z.of_nat (length k) / 2) by (apply Z.div_le_mono; lia). lia.
  - lia.
Qed.

(** ** Strings, references, values *)
Lemma uvarint_length x : is64 x → (length (uvarint x) ≤ 10)%nat.
Proof.
  intros _. unfold uvarint. assert (∀ n y, (length (uvarint_fuel n y) ≤ n)%nat) as Hn; [|apply Hn].
  induction n as [|n IH]; intros y; simpl; [done|]. destruct (y <? 128); simpl; [lia|].
  specialize (IH (y / 128)). lia.
Qed.

Definition short_enough (s : bytes) : Prop := Z.of_nat (length s) < max64.

Lemma Uvarint_uvarint x rest : is64 x → Uvarint (uvarint x ++ rest) = Some (x, rest).
Proof.
  intros Hx. unfold Uvarint. rewrite read_uvarint_uvarint by done. cbn [mbind option_bind].
  rewrite length_app. pose proof (uvarint_length x Hx).
  destruct (Nat.leb_spec (length (uvarint x) + length rest - length rest) 10); [|lia].
  destruct (Z.ltb_spec x max64); [done|unfold is64 in Hx; lia].
Qed.

Lemma SplitString_string s rest : short_enough s →
  SplitString ((uvarint (Z.of_nat (length s)) ++ s) ++ rest) = Ok (s, rest).
Proof.
  intros Hs. unfold SplitString. rewrite <- app_assoc.
  rewrite Uvarint_uvarint by (unfold is64, short_enough in *; lia). rewrite length_app.
  destruct (Z.leb_spec (Z.of_nat (length s)) (Z.of_nat (length s + length rest))); [|lia].
  by rewrite Nat2Z.id, take_app_length, drop_app_length.
Qed.

Lemma slice_app n b rest : length b = n → slice n (b ++ rest) = Ok (b, rest).
Proof.
  intros <-. unfold slice. rewrite length_app.
  destruct (Nat.leb_spec (length b) (length b + length rest)); [|lia].
  by rewrite take_app_length, drop_app_length.
Qed.

(** What is left of a reference when hashes are not stored. *)
Definition storedRef (skipHash : bool) (r : refBody) : refBody :=
  if skipHash then MkRef None (rver r) else r.

Lemma from_be_4 x rest : is32 x → ('(v, b) ← slice 4 (be 4 x ++ rest); Ok (from_be v, b)) = Ok (x, rest).
Proof.
  intros Hx. rewrite slice_app by apply be_length. cbn [mbind result_bind].
  rewrite from_be_be, Z.mod_small; [done|]. unfold_int. simpl. unfold is32, max32 in Hx. lia.
Qed.

Lemma decodeRef_encode skipHash r rest : ver_ok (rver r) →
  (skipHash = false → ∃ h, rhash r = Some h ∧ length h = 32%nat) →
  ∃ tag body, refNode_encode r skipHash = tag :: body ∧ Z.land tag 7 = kindRef ∧
    decodeRef (body ++ rest) (Z.shiftr tag 3) = Ok (refNode (storedRef skipHash r), rest).
Proof.
  intros [Hmaj Hmin] Hh. destruct r as [h [maj mi]]. unfold refNode_encode. cbn [rhash rver Major Minor] in *.
  assert (∃ hb, (if skipHash then (0, []) else (attrHasHash, default [] h)) = ((if skipHash then 0 else 1), hb) ∧
    ∀ rest', (if (if skipHash then false else true) then '(h, b) ← slice 32 (hb ++ rest'); Ok (Some h, b) else Ok (None, hb ++ rest'))
      = Ok (rhash (storedRef skipHash (MkRef h (MkVersion maj mi))), rest')) as (hb & -> & Hhb).
  { destruct skipHash; [by exists []|]. destruct (Hh eq_refl) as (h' & -> & Hlen). exists h'. split; [done|].
    intros rest'. by rewrite slice_app. }
  assert (∀ x (a : Z), is32 x → ∃ xb, (if x =? 0 then (0, []) else (a, be 4 x)) = ((if x =? 0 then 0 else a), xb) ∧
    ∀ rest', (if negb (x =? 0) then '(v, b) ← slice 4 (xb ++ rest'); Ok (from_be v, b) else Ok (0, xb ++ rest'))
      = Ok (x, rest')) as Hx.
  { intros x a Hx. destruct (Z.eqb_spec x 0) as [->|]; [by exists []|]. exists (be 4 x). split; [done|].
    intros rest'. by apply from_be_4. }
  destruct (Hx maj attrHasMajor Hmaj) as (mb & -> & Hmb). destruct (Hx mi attrHasMinor Hmin) as (nb & -> & Hnb).
  eexists _, _. split; [done|].
  set (tag := tagOf kindRef _).
  assert (Z.land tag 7 = kindRef ∧ hasAttr (Z.shiftr tag 3) attrHasHash = (if skipHash then false else true) ∧
    hasAttr (Z.shiftr tag 3) attrHasMajor = negb (maj =? 0) ∧
    hasAttr (Z.shiftr tag 3) attrHasMinor = negb (mi =? 0)) as (Hk & H1 & H2 & H3).
  { unfold tag. destruct skipHash, (maj =? 0), (mi =? 0); by vm_compute. }
  split; [done|]. unfold decodeRef. rewrite H1, H2, H3, <- !app_assoc, Hhb. cbn [mbind result_bind].
  rewrite Hmb. cbn [mbind result_bind]. rewrite Hnb. cbn [mbind result_bind]. by destruct skipHash.
Qed.

Lemma decodeValue_encode v m rest : short_enough v → short_enough m → let '(attrs, b) := encodeValue v m in
  (attrs = 0 ∨ attrs = attrHasMeta) ∧ decodeValue (b ++ rest) attrs = Ok (valueNode v m, rest).
Proof.
  intros Hv Hm. unfold encodeValue, decodeValue, AppendString. destruct m as [|x m].
  - split; [by left|]. cbn [app]. rewrite SplitString_string by done. done.
  - split; [by right|]. rewrite app_nil_l, <- app_assoc.
    rewrite SplitString_string by done. cbn [mbind result_bind].
    change (hasAttr attrHasMeta attrHasMeta) with true. cbv iota.
    rewrite SplitString_string by done. done.
Qed.

(** ** Sizes *)
Definition bounded (t : tree) : Prop := ∀ k v m, tget t k = Some (v, m) →
  Z.of_nat (length k) < max32 ∧ short_enough v ∧ short_enough m.

Lemma bounded_short k c : node_ok (TShort k c) → bounded (TShort k c) →
  Z.of_nat (length k) < max32 ∧ bounded c.
Proof.
  intros Hok Hb. split.
  - destruct (node_ok_some _ Hok) as (k' & [v m] & Hx). pose proof (Hb _ _ _ Hx) as [Hl _].
    apply tget_short_Some in Hx as (k0 & -> & _). rewrite length_app in Hl. lia.
  - intros k' v m Hx. rewrite <- (tget_short_app k) in Hx. destruct (Hb _ _ _ Hx) as (Hl & ? & ?).
    rewrite length_app in Hl. split; [lia|done].
Qed.

Lemma bounded_full cs i c : cs !! i = Some c → bounded (TFull cs) → bounded c.
Proof.
  intros Hi Hb k v m Hx. destruct (Hb (Z.of_nat i :: k) v m) as (Hl & ? & ?).
  - rewrite tget_full_at, Hi. done.
  - simpl in Hl. split; [lia|done].
Qed.

Lemma bounded_value v m : bounded (TValue v m) → short_enough v ∧ short_enough m.
Proof. intros Hb. apply (Hb [] v m eq_refl). Qed.

(** ** Nodes *)
Section nodes.
Context `{Drlp} `{Crypto} (skip : bool) (db : Database).
Abbreviation rep := (rep skip db).
Abbreviation loaded := (loaded skip db).

(** A tree below some node. *)
Definition below_ok (t : tree) : Prop := node_ok t ∨ ∃ v m, t = TValue v m.

(** Decoding [b], with anything behind it, yields a node for [t]. *)
Definition reads (p b : bytes) (t : tree) : Prop :=
  b ≠ [] ∧ ∀ g ref rest fuel, (length b ≤ fuel)%nat →
    ∃ n, decodeNode fuel g ref (b ++ rest) = Ok (n, rest) ∧ loaded p n t.

Lemma loaded_storedRef p r t : loaded p (refNode r) t → loaded p (refNode (storedRef skip r)) t.
Proof.
  unfold storedRef. destruct skip eqn:Es; [|done].
  inversion 1 as [| | | |? ? ? blob dn Hb [Hv _] Hd Hi Hl]; subst.
  by econstructor; [|split| | |].
Qed.

Lemma reads_ref p r t : loaded p (refNode r) t →
  reads p (refNode_encode r skip) t ∧
  ∀ g ref rest fuel, (0 < fuel)%nat → ∃ r',
    decodeNode fuel g ref (refNode_encode r skip ++ rest) = Ok (refNode r', rest).
Proof.
  intros Hl0. pose proof Hl0 as Hl1. inversion Hl1 as [| | | |? ? ? blob dn Hb [Hv Hh] Hd Hi Hl]; subst.
  assert (∀ g ref rest fuel, (0 < fuel)%nat →
    decodeNode fuel g ref (refNode_encode r skip ++ rest) = Ok (refNode (storedRef skip r), rest)) as Hdec.
  { intros g ref rest [|fuel] Hf; [lia|].
    destruct (decodeRef_encode skip r rest Hv) as (tag & body & -> & Hk & E).
    { intros Es. destruct (Hh Es) as (h & -> & -> & _). exists (thash t). split; [done|]. apply be_length. }
    simpl. rewrite Hk. exact E. }
  split; [split|].
  - destruct (decodeRef_encode skip r [] Hv) as (tag & body & -> & _); [|done].
    intros Es. destruct (Hh Es) as (h & -> & -> & _). exists (thash t). split; [done|]. apply be_length.
  - intros g ref rest fuel Hf. exists (refNode (storedRef skip r)). split; [|by apply loaded_storedRef].
    apply Hdec. unfold refNode_encode in Hf. repeat case_match; simpl in Hf; lia.
  - intros g ref rest fuel Hf. eexists. by apply Hdec.
Qed.

Lemma reads_nil p : reads p [kindEmpty] TNil.
Proof.
  split; [done|]. intros g ref rest [|fuel] Hf; simpl in Hf; [lia|]. exists Nil. by split; [|constructor].
Qed.

(** The children of a full node. *)
Lemma children_codec cs ts (path : nat → bytes) : length cs = length ts →
  (∀ j c t, cs !! j = Some c → ts !! j = Some t →
    ∃ b k, encodeChild encode skip c = Ok (b, k) ∧ reads (path j) b t) →
  ∃ bs n, encodeChildren encode skip cs = Ok (bs, n) ∧
    ∀ g rest fuel, (length bs ≤ fuel)%nat → ∃ cs',
      decodeChildren (decodeNode fuel g None) (length cs) (bs ++ rest) = Ok (cs', rest) ∧
      length cs' = length ts ∧
      ∀ j c t, cs' !! j = Some c → ts !! j = Some t → loaded (path j) c t.
Proof.
  revert ts path. induction cs as [|c cs IH]; intros [|t ts] path Hlen Hc; try done.
  { exists [], 0. split; [done|]. intros g rest fuel _. exists []. by split. }
  destruct (Hc 0%nat c t) as (b & k & Eb & Hne & Hb); [done|done|].
  destruct (IH ts (λ j, path (S j))) as (bs & n & Ebs & Hbs); [simpl in Hlen; lia|by intros j; apply (Hc (S j))|].
  exists (b ++ bs), (k + n). cbn [encodeChildren]. rewrite Eb. cbn [mbind result_bind]. rewrite Ebs.
  split; [done|]. intros g rest fuel Hf. rewrite length_app in Hf.
  destruct (Hb g None (bs ++ rest) fuel) as (c' & Ec & Hl); [lia|].
  destruct (Hbs g rest fuel) as (cs' & Ecs & Hlen' & Hall); [lia|].
  exists (c' :: cs'). split; [|split; [simpl; lia|]].
  - rewrite <- app_assoc. destruct b as [|tag b]; [done|]. destruct fuel as [|fuel]; [simpl in Hf; lia|].
    cbn [length decodeChildren app].
    replace (if Z.land tag 7 =? kindRef then decodeRef (b ++ bs ++ rest) (Z.shiftr tag 3)
             else decodeNode (S fuel) g None (tag :: b ++ bs ++ rest))
      with (decodeNode (S fuel) g None ((tag :: b) ++ bs ++ rest)).
    + rewrite Ec. cbn [mbind result_bind]. by rewrite Ecs.
    + cbn [decodeNode app]. destruct (Z.eqb_spec (Z.land tag 7) kindRef) as [->|]; done.
  - intros [|j] c0 t0 Hc0 Ht0; simplify_eq/=; [done|by eapply Hall].
Qed.

(** Writing a child: a reference when it is not dirty. *)
Lemma child_codec p c t : rep p c t → t ≠ TNil →
  (isRef c = false → ∃ b, encode c skip = Ok b ∧ reads p b t) →
  ∃ b k ref g d, encodeChild encode skip c = Ok (b, k) ∧ reads p b t ∧ cache c = Ok (ref, g, d) ∧
    (if d : bool then encode c skip else Ok (refNode_encode ref skip)) = Ok b.
Proof.
  intros Hr Hn Henc. inversion Hr as [|? v m|? k c' f t' Hc Hf|? cs f ts Hlen Hcs Hf|? r ? Hl]; subst.
  - done.
  - destruct Henc as (b & Eb & Hb); [done|]. exists b, 0, noRef, 0, true.
    cbn [encodeChild cache mbind result_bind]. rewrite Eb. done.
  - destruct (fdirty f) eqn:Ed; [destruct Henc as (b & Eb & Hb); [done|]|].
    + exists b, 0, (fref f), (fgen f), true. cbn [encodeChild cache mbind result_bind]. rewrite Ed, Eb. done.
    + exists (refNode_encode (fref f) skip), 0, (fref f), (fgen f), false.
      cbn [encodeChild cache mbind result_bind]. rewrite Ed. split_and!; try done. apply reads_ref. by apply Hf.
  - destruct (fdirty f) eqn:Ed; [destruct Henc as (b & Eb & Hb); [done|]|].
    + exists b, 0, (fref f), (fgen f), true. cbn [encodeChild cache mbind result_bind]. rewrite Ed, Eb. done.
    + exists (refNode_encode (fref f) skip), 0, (fref f), (fgen f), false.
      cbn [encodeChild cache mbind result_bind]. rewrite Ed. split_and!; try done. apply reads_ref. by apply Hf.
  - eexists _, 1, r, 0, false. split; [done|]. split; [by apply reads_ref|done].
Qed.

(** The key of a short node. *)
Lemma key_codec k buf : key_ok k → Z.of_nat (length k) < max32 →
  appendHexToCompact (AppendUint32 [] (wrap32 (compactLen k))) k =
    Ok (uvarint (Z.of_nat (length (compact k))) ++ compact k) ∧
  SplitString ((uvarint (Z.of_nat (length (compact k))) ++ compact k) ++ buf) = Ok (compact k, buf).
Proof.
  intros Hk Hlen. destruct (compact_roundtrip k Hk) as [_ El]. pose proof (compactLen_bound k) as Hb.
  assert (Z.of_nat (length k) / 2 < max32) by (apply Z.div_lt_upper_bound; lia).
  assert (wrap32 (compactLen k) = Z.of_nat (length (compact k))) as E.
  { rewrite El, Z2Nat.id by lia. apply wrap32_id. unfold is32. split; [lia|].
    assert (Z.of_nat (length k) / 2 < max32 - 1); [|lia].
    apply Z.div_lt_upper_bound; unfold max32 in *; lia. }
  split.
  - unfold AppendUint32. rewrite append_compact, E. done.
  - apply SplitString_string. unfold short_enough. rewrite El. unfold max64, max32 in *. lia.
Qed.

Lemma node_key_ok k c : node_ok (TShort k c) → key_ok k.
Proof. inversion 1; subst; [by right|by left]. Qed.

Lemma encode_short p k c f t : rep p (shortNode k c f) (TShort k t) → node_ok (TShort k t) →
  bounded (TShort k t) →
  (isRef c = false → ∃ b, encode c skip = Ok b ∧ reads (p ++ k) b t) →
  ∃ b, encode (shortNode k c f) skip = Ok b ∧ reads p b (TShort k t).
Proof.
  intros Hr Hok Hb Henc. destruct (bounded_short _ _ Hok Hb) as [Hlen Hbc].
  pose proof (node_key_ok _ _ Hok) as Hkey. destruct (compact_roundtrip k Hkey) as [Ehex _].
  inversion Hr as [| |? ? ? ? ? Hc _| |]; subst.
  inversion Hok as [? v m Ht|? cs Hne Hn Hf|]; subst; cbn [encode];
    rewrite (proj1 (key_codec k [] Hkey Hlen)); cbn [mbind result_bind].
  - rewrite (hasTerm_term _ Ht).
    assert (c = valueNode v m) as ->.
    { inversion Hc as [| | | |? ? ? Hl]; subst; [done|]. apply loaded_ref_inner in Hl as [(? & ? & ?)|(? & ?)]; done. }
    destruct (bounded_value _ _ Hbc) as [Hv Hm]. pose proof (λ rest, decodeValue_encode v m rest Hv Hm) as Hd.
    destruct (encodeValue v m) as [attrs b]. eexists. split; [done|]. split; [done|].
    intros g ref rest [|fuel] Hfu; [simpl in Hfu; lia|]. destruct (Hd rest) as [Ha Ed].
    assert (Z.land (tagOf kindShort attrs) 7 = kindShort ∧ Z.shiftr (tagOf kindShort attrs) 3 = attrs) as [E1 E2]
      by (destruct Ha as [-> | ->]; by vm_compute).
    cbn [decodeNode app]. rewrite E1, E2. cbn [Z.eqb kindShort kindEmpty kindFull Pos.eqb].
    unfold decodeShort. rewrite <- app_assoc. rewrite (proj2 (key_codec k (b ++ rest) Hkey Hlen)).
    cbn [mbind result_bind]. rewrite Ehex, (hasTerm_term _ Ht), Ed. cbn [mbind result_bind].
    eexists. split; [done|]. constructor. constructor.
  - rewrite (hasTerm_nibbles _ Hn).
    destruct (child_codec (p ++ k) c (TFull cs) Hc ltac:(done) Henc) as (b & k0 & ref0 & g0 & d0 & _ & [Hbn Hrd] & Eca & Ebb).
    rewrite Eca. cbn [mbind result_bind]. rewrite Ebb. eexists. split; [done|]. split; [done|].
    intros g ref rest [|fuel] Hfu; [simpl in Hfu; lia|]. cbn [decodeNode app].
    change (Z.land kindShort 7 =? kindEmpty) with false. change (Z.land kindShort 7 =? kindFull) with false.
    change (Z.land kindShort 7 =? kindShort) with true. cbv iota zeta.
    unfold decodeShort. rewrite <- app_assoc. rewrite (proj2 (key_codec k (b ++ rest) Hkey Hlen)).
    cbn [mbind result_bind]. rewrite Ehex, (hasTerm_nibbles _ Hn).
    destruct (Hrd g None rest fuel) as (n & -> & Hl).
    { simpl in Hfu. rewrite !length_app in Hfu. lia. }
    cbn [mbind result_bind]. eexists. split; [done|]. by constructor.
Qed.

Lemma encode_full p cs f ts : rep p (fullNode cs f) (TFull ts) → node_ok (TFull ts) →
  (∀ j c t, cs !! j = Some c → ts !! j = Some t →
    ∃ b k, encodeChild encode skip c = Ok (b, k) ∧ reads (p ++ [Z.of_nat j]) b t) →
  ∃ b, encode (fullNode cs f) skip = Ok b ∧ reads p b (TFull ts).
Proof.
  intros Hr Hok Henc. inversion Hr as [| | |? ? ? ? Hlen Hcs _|]; subst.
  inversion Hok as [| |? Hl17 _ _ _]; subst.
  destruct (children_codec cs ts (λ j, p ++ [Z.of_nat j]) Hlen Henc) as (bs & n & Ebs & Hbs).
  cbn [encode]. rewrite Ebs. cbn [mbind result_bind]. eexists. split; [done|]. split; [by destruct (4 <? n)|].
  intros g ref rest [|fuel] Hfu; [simpl in Hfu; lia|]. cbn [decodeNode app].
  assert (Z.land (if 4 <? n then tagOf kindFull attrHasManyRef else kindFull) 7 = kindFull) as ->
    by (by destruct (4 <? n); vm_compute).
  change (kindFull =? kindEmpty) with false. change (kindFull =? kindFull) with true. cbv iota zeta.
  destruct (Hbs g rest fuel) as (cs' & Ecs & Hlen' & Hall); [simpl in Hfu; lia|].
  unfold decodeFull. rewrite Hlen, Hl17 in Ecs. rewrite Ecs. cbn [mbind result_bind].
  eexists. split; [done|]. by constructor.
Qed.

Lemma encode_rep p n t : rep p n t → below_ok t → bounded t → isRef n = false →
  ∃ b, encode n skip = Ok b ∧ reads p b t.
Proof.
  induction 1 as [p|p v m|p k c f t Hc IH Hf|p cs f ts Hlen Hcs IH Hf|p r t Hl]; intros Hok Hb Hr; try done.
  - destruct Hok as [Hok|(? & ? & ?)]; [inversion Hok|done].
  - destruct (bounded_value _ _ Hb) as [Hv Hm]. pose proof (λ rest, decodeValue_encode v m rest Hv Hm) as Hd.
    cbn [encode]. destruct (encodeValue v m) as [attrs b]. eexists. split; [done|]. split; [done|].
    intros g ref rest [|fuel] Hfu; [simpl in Hfu; lia|]. destruct (Hd rest) as [Ha Ed].
    assert (Z.land (tagOf kindValue attrs) 7 = kindValue ∧ Z.shiftr (tagOf kindValue attrs) 3 = attrs) as [E1 E2]
      by (destruct Ha as [-> | ->]; by vm_compute).
    cbn [decodeNode app]. rewrite E1, E2. cbn [Z.eqb kindValue kindShort kindEmpty kindFull kindRef Pos.eqb].
    rewrite Ed. eexists. split; [done|]. constructor.
  - destruct Hok as [Hok|(? & ? & ?)]; [|done]. apply encode_short; [by constructor|done|done|].
    apply IH; [|by eapply bounded_short]. inversion Hok; subst; [right; eauto|by left].
  - destruct Hok as [Hok|(? & ? & ?)]; [|done]. apply encode_full; [by constructor|done|].
    intros j c t Hcj Htj. destruct (decide (t = TNil)) as [->|Hn].
    { pose proof (proj2 (rep_nil_iff _ _ _ _ _ (Hcs j c TNil Hcj Htj)) eq_refl) as En.
      destruct c; try done. eexists _, _. split; [done|]. apply reads_nil. }
    destruct (child_codec _ c t (Hcs j c t Hcj Htj) Hn) as (b & k & ? & ? & ? & E & Hrd & _); [|by eauto].
    apply (IH j); [done|done| |by eapply bounded_full]. inversion Hok as [| |? Hl17 Hch Hv _]; subst.
    apply lookup_lt_Some in Htj as Hlt. destruct (decide (j = 16%nat)) as [->|].
    + right. by destruct (Hv t Htj).
    + left. apply (Hch j); [done|lia|done].
Qed.

(** An inner node is not written as a reference. *)
Lemma encode_tag n b : inner n = true → encode n skip = Ok b →
  ∃ tag body, b = tag :: body ∧ Z.land tag 7 ≠ kindRef.
Proof.
  destruct n as [|cs f|k c f|r|v m]; try done; intros _ E; cbn [encode] in E.
  - destruct (encodeChildren _ _ _) as [[b' n]|]; [|done]. injection E as <-.
    eexists _, _. split; [done|]. by destruct (4 <? n).
  - destruct (appendHexToCompact _ k) as [kb|]; [|done]. cbn [mbind result_bind] in E.
    destruct (hasTerm k).
    + destruct c as [| | | |v m]; try done. destruct (encodeValue v m) as [attrs vb] eqn:Ev. injection E as <-.
      eexists _, _. split; [done|]. unfold encodeValue in Ev. by destruct m; injection Ev as <- <-.
    + destruct (cache c) as [[[ref g] d]|]; [|done]. cbn [mbind result_bind] in E.
      destruct (if d then _ else _) as [cb|]; [|done]. injection E as <-. by eexists _, _.
Qed.

Lemma decodeNode_inner fuel g ref tag buf n rest p t :
  decodeNode fuel g ref (tag :: buf) = Ok (n, rest) → Z.land tag 7 ≠ kindRef →
  loaded p n t → node_ok t → inner n = true.
Proof.
  intros E Hk Hl Hok. assert (isRef n = false) as Href.
  { destruct fuel as [|fuel]; [done|]. cbn [decodeNode] in E.
    destruct (_ =? kindEmpty); [by injection E as <- _|].
    destruct (_ =? kindFull).
    { unfold decodeFull in E. destruct (decodeChildren _ _ _) as [[cs b]|]; [|done]. by injection E as <- _. }
    destruct (_ =? kindShort).
    { unfold decodeShort in E. destruct (SplitString _) as [[k b]|]; [|done]. cbn [mbind result_bind] in E.
      destruct (if hasTerm _ then _ else _) as [[c b']|]; [|done]. by injection E as <- _. }
    destruct (Z.eqb_spec (Z.land tag 7) kindRef); [done|]. destruct (_ =? kindValue); [|done].
    by destruct (decodeValue_shape _ _ _ _ E) as (v & m & ->). }
  inversion Hl; subst; try done; inversion Hok.
Qed.
End nodes.
