(* ===== verification/TrieCommit.v ===== *)
(** * Committing a trie

    [store] writes the changed nodes under a version that was not used before;
    what was in the database stays readable, and the trie that is opened from the
    new root stands for the same tree. *)

From S2P Require Import Prelude Bytes External Trie TrieTree TrieRep TrieCodec.

Lemma node_ind' (P : node → Prop) : P Nil → (∀ cs f, Forall P cs → P (fullNode cs f)) →
  (∀ k c f, P c → P (shortNode k c f)) → (∀ r, P (refNode r)) → (∀ v m, P (valueNode v m)) → ∀ n, P n.
Proof.
  intros Hnil Hfull Hshort Href Hval. fix IH 1. intros [|cs f|k c f|r|v m]; [done| |by apply Hshort|done|done].
  apply Hfull. induction cs as [|c cs IHcs]; constructor; [apply IH|apply IHcs].
Qed.

Section commit.
Context `{Drlp} `{Crypto} (skip : bool).
Context (newVer : Version) (ttl : Z) (Hver : ver_ok newVer).
Abbreviation rep := (rep skip).
Abbreviation loaded := (loaded skip).
Abbreviation store := (store newVer ttl skip).

Lemma loaded_mono db db' p n t : db ⊆ db' → loaded db p n t → loaded db' p n t.
Proof.
  intros Hsub. induction 1; try by econstructor; eauto.
  econstructor; [by eapply lookup_weaken|..]; eauto.
Qed.

Lemma flag_mono db db' p f t : db ⊆ db' → flag_ok skip db p f t → flag_ok skip db' p f t.
Proof. intros Hsub [Hd Hh]. split; [|done]. intros Ed. by eapply loaded_mono; [|apply Hd]. Qed.

Lemma rep_mono db db' p n t : db ⊆ db' → rep db p n t → rep db' p n t.
Proof.
  intros Hsub. induction 1.
  - constructor.
  - constructor.
  - constructor; [done|by eapply flag_mono].
  - constructor; [done|eauto|by eapply flag_mono].
  - constructor. by eapply loaded_mono.
Qed.

(** ** Growth of the database below a path *)
Definition grows (p : bytes) (db db' : Database) : Prop :=
  db ⊆ db' ∧ ∀ q v, db !! (q, v) = None → is_Some (db' !! (q, v)) → v = newVer ∧ p `prefix_of` q.

Definition freshAt (p : bytes) (db : Database) : Prop := ∀ q, p `prefix_of` q → db !! (q, newVer) = None.

Lemma grows_refl p db : grows p db db.
Proof. split; [done|]. intros q v -> [? ?]. done. Qed.

Lemma grows_trans p db1 db2 db3 : grows p db1 db2 → grows p db2 db3 → grows p db1 db3.
Proof.
  intros [S1 G1] [S2 G2]. split; [by etrans|]. intros q v Hn Hs.
  destruct (db2 !! (q, v)) eqn:E; [apply G1; [done|by rewrite E]|by apply G2].
Qed.

Lemma grows_up p x db db' : grows (p ++ x) db db' → grows p db db'.
Proof.
  intros [S G]. split; [done|]. intros q v Hn Hs. destruct (G q v Hn Hs) as [-> Hp]. split; [done|].
  etrans; [|done]. by apply prefix_app_r.
Qed.

(** Writing below one path leaves the others fresh. *)
Lemma fresh_after p q db db' : freshAt q db → grows p db db' → (∀ r, p `prefix_of` r → q `prefix_of` r → False) →
  freshAt q db'.
Proof.
  intros Hf [S G] Hdis r Hr. destruct (db' !! (r, newVer)) eqn:E; [|done].
  destruct (G r newVer (Hf r Hr)) as [_ Hp]; [by rewrite E|]. by destruct (Hdis r).
Qed.

Lemma put_grows p db b : db !! (p, newVer) = None → grows p db (<[(p, newVer) := b]> db).
Proof.
  intros Hn. split; [by apply insert_subseteq|]. intros q v Hq Hs.
  destruct (decide ((q, v) = (p, newVer))) as [[= -> ->]|Hne]; [by split|].
  rewrite lookup_insert_ne in Hs by congruence. rewrite Hq in Hs. by destruct Hs.
Qed.

Definition flagsOf (n : node) : nodeFlag :=
  match n with fullNode _ f | shortNode _ _ f => f | _ => newFlag 0 end.

(** ** Writing one node *)
Lemma putNode_ok p n mk t db : inner n = true → mk (flagsOf n) = n → rep db p n t →
  node_ok t → bounded t → db !! (p, newVer) = None →
  (∀ db' f, db ⊆ db' → flag_ok skip db' p f t → rep db' p (mk f) t) →
  (skip = false → is_Some (rhash (fref (flagsOf n)))) →
  ∃ db', putNode newVer skip n p db = Ok (tt, db') ∧ grows p db db' ∧
    rep db' p (mk (storedFlag newVer (flagsOf n))) t.
Proof.
  intros Hi En Hr Hok Hb Hfresh Hmk Hh.
  destruct (encode_rep skip db p n t Hr (or_introl Hok) Hb) as (b & Eb & _ & Hrd); [by destruct n|].
  exists (<[(p, newVer) := b]> db). unfold putNode. unfold mbind, M_bind, lift. rewrite Eb.
  split; [done|]. pose proof (put_grows p db b Hfresh) as Hg. split; [done|].
  assert (flag_ok skip db p (flagsOf n) t) as [_ Hfits] by (by inversion Hr; subst).
  apply Hmk; [apply Hg|]. split; [|done]. intros _.
  assert (∀ g r', ∃ n', mustDecodeNode g r' b = Ok n' ∧ loaded db p n' t ∧ inner n' = true) as Hdec.
  { intros g r'. destruct (Hrd g (Some r') [] (S (length b))) as (n' & E & Hl); [lia|].
    rewrite app_nil_r in E. exists n'. split; [unfold mustDecodeNode; by rewrite E|]. split; [done|].
    destruct (encode_tag skip n b Hi Eb) as (tag & body & -> & Hk). by eapply decodeNode_inner. }
  set (dn := λ g r', match mustDecodeNode g r' b with Ok n' => n' | Err _ => Nil end).
  apply (ld_ref _ _ _ _ _ b dn); cbn [storedFlag fref rver].
  - simpl. by rewrite lookup_insert_eq.
  - split; [done|]. intros Es. destruct (Hh Es) as [h Eh]. exists h. split; [done|]. by apply Hfits.
  - intros g r'. destruct (Hdec g r') as (n' & E & _). unfold dn. by rewrite E.
  - intros g r'. destruct (Hdec g r') as (n' & E & _ & Hn'). unfold dn. by rewrite E.
  - intros g r'. destruct (Hdec g r') as (n' & E & Hl & _). unfold dn. rewrite E.
    by eapply loaded_mono; [apply Hg|].
Qed.

(** ** Children *)
Lemma ageChild_rep gen db p c t : rep db p c t → isDirty c = false → rep db p (ageChild ttl gen c) t.
Proof.
  intros Hr Hd. inversion Hr; subst; simpl in *; try done; case_match; try done; constructor;
    by match goal with Hf : flag_ok _ _ _ _ _ |- _ => apply Hf end.
Qed.

(** What storing a node at [p] does. *)
Definition stores (n : node) (p : bytes) (t : tree) (db : Database) : Prop :=
  ∃ n' db', store n p db = Ok (n', db') ∧ grows p db db' ∧ rep db' p n' t ∧ inner n' = true ∧
    (p = [] → fdirty (flagsOf n') = false ∧
      fref (flagsOf n') = MkRef (rhash (fref (flagsOf n))) newVer).

Lemma path_apart (p q : bytes) i j : p ++ [i] `prefix_of` q → p ++ [j] `prefix_of` q → i = j.
Proof. intros [x ->] [y E]. rewrite <- !app_assoc in E. apply app_inv_head in E. by injection E as ->. Qed.

(** Writing below a longer path leaves the path itself alone. *)
Lemma grows_self p x db db' : x ≠ [] → grows (p ++ x) db db' → db !! (p, newVer) = None →
  db' !! (p, newVer) = None.
Proof.
  intros Hx [S G] Hn. destruct (db' !! (p, newVer)) eqn:E; [|done].
  destruct (G p newVer Hn) as [_ [y Ey]]; [by rewrite E|].
  apply (f_equal length) in Ey. rewrite !length_app in Ey. destruct x; [done|]. simpl in Ey. lia.
Qed.

Lemma storeChildren_ok p gen k cs ts i db : length cs = length ts →
  (∀ j c t, cs !! j = Some c → ts !! j = Some t → rep db (p ++ [i + Z.of_nat j]) c t) →
  (∀ j c t db', cs !! j = Some c → ts !! j = Some t → (j < k)%nat → isDirty c = true →
    rep db' (p ++ [i + Z.of_nat j]) c t → freshAt (p ++ [i + Z.of_nat j]) db' →
    stores c (p ++ [i + Z.of_nat j]) t db') →
  (∀ j, 0 ≤ j → freshAt (p ++ [i + j]) db) → db !! (p, newVer) = None →
  ∃ cs' db', storeChildren ttl store p gen i k cs db = Ok (cs', db') ∧ grows p db db' ∧
    db' !! (p, newVer) = None ∧ length cs' = length ts ∧
    ∀ j c t, cs' !! j = Some c → ts !! j = Some t → rep db' (p ++ [i + Z.of_nat j]) c t.
Proof.
  revert k ts i db. induction cs as [|c cs IH]; intros k [|t ts] i db Hlen Hr Hst Hfr Hp; try done.
  { exists [], db. destruct k; (split_and!; [done|apply grows_refl|done|done|done]). }
  destruct k as [|k].
  { exists (c :: cs), db. split_and!; [done|apply grows_refl|done|done|done]. }
  assert (∃ c' db1, (if isDirty c then store c (p ++ [i]) else mret (ageChild ttl gen c)) db = Ok (c', db1) ∧
    grows (p ++ [i]) db db1 ∧ rep db1 (p ++ [i]) c' t) as (c' & db1 & E1 & G1 & R1).
  { pose proof (Hr 0%nat c t eq_refl eq_refl) as Hr0. rewrite Z.add_0_r in Hr0.
    destruct (isDirty c) eqn:Ed.
    - destruct (Hst 0%nat c t db eq_refl eq_refl) as (c' & db1 & E & G & R & _); rewrite ?Z.add_0_r in *;
        [lia|done|done|rewrite <- (Z.add_0_r i); by apply Hfr|]. by exists c', db1.
    - exists (ageChild ttl gen c), db. split; [done|]. split; [apply grows_refl|]. by apply ageChild_rep. }
  destruct (IH k ts (i + 1) db1) as (cs' & db2 & E2 & G2 & Hp2 & Hlen' & Hall).
  - simpl in Hlen. lia.
  - intros j c0 t0 Hc Ht. replace (i + 1 + Z.of_nat j) with (i + Z.of_nat (S j)) by lia.
    eapply rep_mono; [apply G1|]. by apply (Hr (S j)).
  - intros j c0 t0 db' Hc Ht Hj. replace (i + 1 + Z.of_nat j) with (i + Z.of_nat (S j)) by lia.
    apply (Hst (S j)); [done|done|lia].
  - intros j Hj. eapply fresh_after; [|exact G1|].
    + replace (i + 1 + j) with (i + (j + 1)) by lia. apply Hfr. lia.
    + intros q H1 H2. pose proof (path_apart _ _ _ _ H1 H2). lia.
  - by apply (grows_self p [i] db).
  - exists (c' :: cs'), db2. split_and!; [|eapply grows_trans; [by eapply grows_up|done]|done|simpl; lia|].
    + cbn [storeChildren]. unfold mbind, M_bind in E1 |- *. rewrite E1, E2. done.
    + intros [|j] c0 t0 Hc Ht; simplify_eq/=.
      * rewrite Z.add_0_r. eapply rep_mono; [apply G2|done].
      * replace (i + Z.of_nat (S j)) with (i + 1 + Z.of_nat j) by lia. by eapply Hall.
Qed.

(** ** Nodes *)

(** A node whose children are stored: written, or left to be embedded. *)
Lemma finish_store p n mk f t db0 db (b : bool) : mk f = n → (∀ f', flagsOf (mk f') = f' ∧ inner (mk f') = true) →
  grows p db0 db → db !! (p, newVer) = None → flag_ok skip db0 p f t → node_ok t → bounded t →
  (∀ db' f', db ⊆ db' → flag_ok skip db' p f' t → rep db' p (mk f') t) →
  (b = false → p ≠ []) → (b = true → skip = false → is_Some (rhash (fref f))) →
  ∃ n' db', (if b then putNode newVer skip n p ;; mret (mk (storedFlag newVer f)) else mret n) db = Ok (n', db') ∧
    grows p db0 db' ∧ rep db' p n' t ∧ inner n' = true ∧
    (p = [] → fdirty (flagsOf n') = false ∧ fref (flagsOf n') = MkRef (rhash (fref f)) newVer).
Proof.
  intros <- Hmkf G Hp Hf Hok Hb Hmk Hnb Hh. destruct (Hmkf f) as [Ef Hi].
  assert (rep db p (mk f) t) as Hr by (apply Hmk; [done|eapply flag_mono; [apply G|done]]).
  destruct b.
  - destruct (putNode_ok p (mk f) mk t db) as (db' & E & G' & R'); try done; rewrite ?Ef; try done; [by apply Hh|].
    exists (mk (storedFlag newVer f)), db'. unfold mbind, M_bind. rewrite E.
    split; [done|]. split; [by eapply grows_trans|]. rewrite Ef in R'. split; [done|].
    destruct (Hmkf (storedFlag newVer f)) as [-> ->]. done.
  - exists (mk f), db. split; [done|]. split; [done|]. split; [done|]. split; [done|].
    intros Ep. by destruct (Hnb eq_refl).
Qed.

Lemma store_full_eq cs f p : store (fullNode cs f) p =
  (cs' ← storeChildren ttl store p (fgen f) 0 16%nat cs;
   if bool_decide (p = []) || bool_decide (is_Some (rhash (fref f))) || skip
   then putNode newVer skip (fullNode cs' f) p ;; mret (fullNode cs' (storedFlag newVer f))
   else mret (fullNode cs' f)).
Proof. reflexivity. Qed.

Lemma store_short_eq k c f p : store (shortNode k c f) p =
  (c' ← (if isDirty c then store c (p ++ k) else mret (ageChild ttl (fgen f) c));
   if bool_decide (p = []) || skip
   then putNode newVer skip (shortNode k c' f) p ;; mret (shortNode k c' (storedFlag newVer f))
   else mret (shortNode k c' f)).
Proof. reflexivity. Qed.

Lemma store_ok n : ∀ p t db, rep db p n t → node_ok t → bounded t → inner n = true → freshAt p db →
  (skip = false → p = [] → is_Some (rhash (fref (flagsOf n)))) → stores n p t db.
Proof.
  induction n as [|cs f IH|k c f IH|r|v m] using node_ind'; try done;
    intros p t db Hr Hok Hb _ Hfr Hroot.
  - inversion Hr as [| | |? ? ? ts Hlen Hcs Hf|]; subst. inversion Hok as [| |? Hl17 Hch Hv _]; subst.
    destruct (storeChildren_ok p (fgen f) 16 cs ts 0 db) as (cs' & db1 & E1 & G1 & Hp1 & Hlen' & Hall).
    + done.
    + intros j c t Hc Ht. rewrite Z.add_0_l. by apply Hcs.
    + intros j c t db' Hc Ht Hj Hd Hr' Hfr'. rewrite Forall_lookup in IH.
      assert (t ≠ TNil) as Htn.
      { intros ->. pose proof (proj2 (rep_nil_iff _ _ _ _ _ Hr') eq_refl). by destruct c. }
      apply (IH j c Hc); [done|by apply (Hch j)|by eapply bounded_full|by destruct c|done|].
      intros _ E. by destruct p.
    + intros j Hj q Hq. apply Hfr. etrans; [|done]. by apply prefix_app_r.
    + by apply Hfr.
    + unfold stores. rewrite store_full_eq. unfold mbind at 1, M_bind at 1. rewrite E1.
      apply (finish_store p _ (fullNode cs') f _ db); try done.
      * intros db' f' Hsub Hf'. constructor; [done| |done]. intros j c t Hc Ht.
        rewrite <- (Z.add_0_l (Z.of_nat j)). eapply rep_mono; [done|]. by eapply Hall.
      * intros Eb ->. by rewrite bool_decide_true in Eb.
      * intros Eb Es. rewrite Es, orb_false_r in Eb. apply orb_true_iff in Eb as [Eb|Eb];
          apply bool_decide_eq_true in Eb; [by apply Hroot|done].
  - inversion Hr as [| |? ? ? ? t' Hc Hf| |]; subst. destruct (bounded_short _ _ Hok Hb) as [_ Hbc].
    assert (k ≠ []) as Hk by (inversion Hok; subst; [by apply term_not_nil|done]).
    assert (∃ c' db1, (if isDirty c then store c (p ++ k) else mret (ageChild ttl (fgen f) c)) db = Ok (c', db1) ∧
      grows (p ++ k) db db1 ∧ rep db1 (p ++ k) c' t') as (c' & db1 & E1 & G1 & R1).
    { destruct (isDirty c) eqn:Ed.
      - destruct (IH (p ++ k) t' db) as (c' & db1 & E & G & R & _); try done.
        + inversion Hok; subst; [|done]. inversion Hc; by subst.
        + by destruct c.
        + intros q Hq. apply Hfr. etrans; [|done]. by apply prefix_app_r.
        + intros _ E. by destruct p, k.
        + by exists c', db1.
      - exists (ageChild ttl (fgen f) c), db. split; [done|]. split; [apply grows_refl|]. by apply ageChild_rep. }
    unfold stores. rewrite store_short_eq. unfold mbind at 1, M_bind at 1. rewrite E1.
    apply (finish_store p _ (shortNode k c') f _ db); try done.
    + by eapply grows_up.
    + apply (grows_self p k db); [done|done|by apply Hfr].
    + intros db' f' Hsub Hf'. constructor; [by eapply rep_mono|done].
    + intros Eb ->. by rewrite bool_decide_true in Eb.
    + intros Eb Es. rewrite Es, orb_false_r in Eb. apply bool_decide_eq_true in Eb. by apply Hroot.
Qed.
End commit.

(** ** The root hash

    [hash] computes the hash of the tree a node stands for, whatever part of it
    is in memory and whatever hashes are cached; so the root hash is a function
    of the contents.  Conversely the root hash binds the contents: two tries with
    the same root either have the same contents, or show a collision of the hash
    function. *)
Section hash.
Context `{Drlp} `{Crypto} (db : Database).
Abbreviation rep := (rep false db).

(** ** Hashing a node *)

Lemma embed_large t b : node_ok t → (32 <=? length b)%nat = true → embed t b = drlp_str (blakeBytes b).
Proof. intros Hok Hb. unfold embed. inversion Hok; subst; by rewrite Hb. Qed.

Lemma embed_small t b : (32 <=? length b)%nat = false → embed t b = b.
Proof. intros Hb. unfold embed. destruct t; by rewrite ?Hb. Qed.

(** The parent of [n] encodes it as it encodes the tree [t]. *)
Definition child_encoded (n : node) (t : tree) : Prop :=
  ∃ ref g d, cache n = Ok (ref, g, d) ∧
    (match rhash ref with Some h => Ok (drlp_str h) | None => encodeConsensus n end) = Ok (embed t (tenc t)).

Lemma child_encoded_bytes p n t : rep p n t → child_encoded n t →
  consensusChild encodeConsensus n = Ok (embed t (tenc t)).
Proof.
  intros Hr (ref & g & d & Hc & Hb). destruct n; cbn [consensusChild]; try (by rewrite Hc); [done|].
  injection Hc as <- <- <-. unfold hashNil. destruct (rhash r) as [h|] eqn:Er; [done|].
  inversion Hr as [| | | |? ? ? Hl]; subst. inversion Hl as [| | | |? ? ? ? ? ? [_ Hh] ? ? ?]; subst.
  destruct (Hh eq_refl) as (h & Eh & _). congruence.
Qed.

(** [n] with the hash [ho] of [t], which is none for a small tree. *)
Record hashed_as (force : bool) (n : node) (t : tree) (ho : option bytes) : Prop := {
  ha_hash : node_ok t →
    ho = if (32 <=? length (tenc t))%nat || force then Some (thash t) else None;
  ha_child : force = false → child_encoded n t;
}.

Lemma cached_hashed p n r g d t force h : cache n = Ok (r, g, d) →
  rhash r = Some h → hash_fits p h t → (force = true ↔ p = []) → node_ok t →
  hashed_as force n t (Some h).
Proof.
  intros Hc Hh [-> Hlen] Hp Hok.
  assert ((32 <=? length (tenc t))%nat || force = true) as Hb.
  { destruct Hlen as [E|Hlen]; [by rewrite (proj2 Hp E), orb_true_r|]. by rewrite (proj2 (Nat.leb_le _ _) Hlen). }
  split; [by rewrite Hb|]. intros ->. rewrite orb_false_r in Hb. exists r, g, d. split; [done|].
  rewrite Hh. by rewrite embed_large.
Qed.

Lemma set_hash_flag p f t : flag_ok false db p f t → rhash (fref f) = None →
  (p = [] ∨ (32 ≤ length (tenc t))%nat) → flag_ok false db p (setHash (thash t) f) t.
Proof.
  intros [Hd Hh] Hn Hlen. split.
  - intros E. exfalso. specialize (Hd E). inversion Hd as [| | | |? ? ? ? ? ? [_ Hr] ? ? ?]; subst.
    destruct (Hr eq_refl) as (h & Eh & _). congruence.
  - intros _ h [= <-]. by split.
Qed.

(** A node whose children are hashed. *)
Lemma hashed_ok p n f mk t force : mk f = n → (∀ f', cache (mk f') = Ok (fref f', fgen f', fdirty f')) →
  (∀ f', flag_ok false db p f' t → rep p (mk f') t) → flag_ok false db p f t →
  (force = true ↔ p = []) → node_ok t → encodeConsensus n = Ok (tenc t) → rhash (fref f) = None →
  ∃ ho n', hashed n f mk force = Ok (ho, n') ∧ rep p n' t ∧ hashed_as force n' t ho.
Proof.
  intros <- Hc Hmk Hf Hp Hok He Hn. unfold hashed. rewrite He. cbn [mbind result_bind].
  destruct ((32 <=? length (tenc t))%nat || force) eqn:Eb.
  - assert (p = [] ∨ (32 ≤ length (tenc t))%nat) as Hlen.
    { apply orb_true_iff in Eb as [Eb|Eb]; [right; by apply Nat.leb_le|left; by apply Hp]. }
    eexists _, _. split; [done|]. split; [by apply Hmk, set_hash_flag|].
    eapply (cached_hashed p); [apply Hc|done|by split|done|done].
  - eexists _, _. split; [done|]. split; [by apply Hmk|]. apply orb_false_iff in Eb as [Eb ->].
    split; [by rewrite Eb|]. intros _. exists (fref f), (fgen f), (fdirty f). split; [apply Hc|].
    rewrite Hn, He. by rewrite embed_small.
Qed.

Lemma consensus_short k c f t : child_encoded c t →
  encodeConsensus (shortNode k c f) = Ok (tenc (TShort k t)).
Proof.
  intros (ref & g & d & Hc & Hb). cbn [encodeConsensus]. rewrite append_compact. cbn [mbind result_bind].
  rewrite Hc. cbn [mbind result_bind]. rewrite Hb. done.
Qed.

Lemma consensus_full cs f ts : length cs = length ts →
  (∀ i c t, cs !! i = Some c → ts !! i = Some t → consensusChild encodeConsensus c = Ok (embed t (tenc t))) →
  encodeConsensus (fullNode cs f) = Ok (tenc (TFull ts)).
Proof.
  intros Hlen Hc. cbn [encodeConsensus].
  assert (consensusChildren encodeConsensus cs = Ok (concat (map (λ c, embed c (tenc c)) ts))) as ->; [|done].
  revert ts Hlen Hc. induction cs as [|c cs IH]; intros [|t ts] Hlen Hc; try done.
  cbn [consensusChildren]. rewrite (Hc 0%nat c t) by done. cbn [mbind result_bind].
  rewrite (IH ts); [done|simpl in Hlen; lia|]. intros i c' t'. apply (Hc (S i)).
Qed.

(** Hashing the first [k] children. *)
Lemma hashChildren_ok k cs ts (P : nat → node → tree → Prop) : length cs = length ts →
  (∀ j c t, cs !! j = Some c → ts !! j = Some t → (k ≤ j)%nat ∨ isNil c = true → P j c t) →
  (∀ j c t, cs !! j = Some c → ts !! j = Some t → (j < k)%nat → isNil c = false →
    ∃ ho c', hash c false = Ok (ho, c') ∧ P j c' t) →
  ∃ cs', hashChildren hash k cs = Ok cs' ∧ length cs' = length ts ∧
    ∀ j c t, cs' !! j = Some c → ts !! j = Some t → P j c t.
Proof.
  revert k ts P. induction cs as [|c cs IH]; intros k [|t ts] P Hlen Hrest Hhash; try done.
  { exists []. destruct k; by split. }
  destruct k as [|k].
  { exists (c :: cs). split; [done|]. split; [done|]. intros j c' t' Hc Ht.
    apply (Hrest j); [done|done|left; lia]. }
  cbn [hashChildren].
  assert (∃ c', (if isNil c then Ok Nil else '(_, c') ← hash c false; Ok c') = Ok c' ∧ P 0%nat c' t)
    as (c' & -> & Hc').
  { destruct (isNil c) eqn:En.
    - exists Nil. split; [done|]. apply (Hrest 0%nat); [|done|by right]. by destruct c.
    - destruct (Hhash 0%nat c t) as (ho & c' & -> & Hp); [done|done|lia|done|]. by exists c'. }
  cbn [mbind result_bind]. destruct (IH k ts (λ j, P (S j))) as (cs' & -> & Hlen' & Hall).
  - simpl in Hlen. lia.
  - intros j c0 t0 Hc Ht Hj. apply (Hrest (S j)); [done|done|]. destruct Hj; [left; lia|by right].
  - intros j c0 t0 Hc Ht Hj. apply (Hhash (S j)); [done|done|lia].
  - cbn [mbind result_bind]. exists (c' :: cs'). split; [done|]. split; [simpl; lia|].
    intros [|j] c0 t0 Hc Ht; simplify_eq/=; [done|by eapply Hall].
Qed.

Lemma hash_rep p n t : rep p n t → below_ok t → ∀ force, (force = true ↔ p = []) →
  ∃ ho n', hash n force = Ok (ho, n') ∧ rep p n' t ∧ hashed_as force n' t ho.
Proof.
  induction 1 as [p|p v m|p k c f t Hc IH Hf|p cs f ts Hlen Hcs IH Hf|p r t Hl];
    intros Hok force Hp.
  - destruct Hok as [Hok|(? & ? & ?)]; [inversion Hok|done].
  - exists None, (valueNode v m). split; [done|]. split; [constructor|].
    split; [inversion 1|]. intros _. by exists noRef, 0, true.
  - destruct Hok as [Hok|(? & ? & ?)]; [|done]. cbn [hash].
    destruct (rhash (fref f)) as [h|] eqn:Eh.
    { eexists _, _. split; [done|]. split; [by constructor|]. eapply (cached_hashed p); try done.
      by apply Hf. }
    assert (below_ok t) as Hbt by (inversion Hok; subst; [right; eauto|by left]).
    assert (p ++ k ≠ []) as Hne.
    { assert (k ≠ []) by (inversion Hok; subst; [by apply term_not_nil|done]). by destruct p, k. }
    destruct (IH Hbt false) as (ho & c' & -> & Hr' & Hh); [by split|]. cbn [mbind result_bind].
    apply (hashed_ok p _ f (shortNode k c')); try done; [by intros; constructor|].
    apply consensus_short. by apply Hh.
  - destruct Hok as [Hok|(? & ? & ?)]; [|done]. cbn [hash].
    destruct (rhash (fref f)) as [h|] eqn:Eh.
    { eexists _, _. split; [done|]. split; [by constructor|]. eapply (cached_hashed p); try done.
      by apply Hf. }
    inversion Hok as [| |? Hl17 Hch Hv _]; subst.
    destruct (hashChildren_ok 16 cs ts (λ j c t, rep (p ++ [Z.of_nat j]) c t ∧
      consensusChild encodeConsensus c = Ok (embed t (tenc t)))) as (cs' & -> & Hlen' & Hall); [done|..].
    + intros j c t Hc Ht Hj. pose proof (Hcs j c t Hc Ht) as Hr. split; [done|].
      assert (isNil c = true ∨ j = 16%nat) as [En| ->].
      { apply lookup_lt_Some in Ht as ?. destruct Hj; [right; lia|by left]. }
      * destruct c; try done. apply (rep_nil_iff _ _ _ _ _ Hr) in En. by subst.
      * destruct (Hv t Ht) as [->|(v & m & ->)].
        -- pose proof (proj2 (rep_nil_iff _ _ _ _ _ Hr) eq_refl). by destruct c.
        -- inversion Hr as [| | | |? ? ? Hl]; subst; [done|].
           apply loaded_ref_inner in Hl as [(? & ? & ?)|(? & ?)]; done.
    + intros j c t Hc Ht Hj En. pose proof (Hcs j c t Hc Ht) as Hr.
      assert (t ≠ TNil) as Htn by (intros E; apply (rep_nil_iff _ _ _ _ _ Hr) in E; congruence).
      destruct (IH j c t Hc Ht (or_introl (Hch j t Ht Hj Htn)) false) as (ho & c' & E & Hr' & Hh).
      { split; [done|]. by destruct p. }
      exists ho, c'. split; [done|]. split; [done|]. eapply child_encoded_bytes; [done|]. by apply Hh.
    + cbn [mbind result_bind]. apply (hashed_ok p _ f (fullNode cs')); try done.
      * intros f' Hf'. constructor; [done| |done]. intros i c t Hc Ht. by eapply Hall.
      * apply consensus_full; [done|]. intros i c t Hc Ht. by eapply Hall.
  - eexists _, _. split; [done|]. split; [by constructor|].
    assert (node_ok t) as Hokt.
    { destruct Hok as [|(? & ? & ->)]; [done|]. apply loaded_ref_inner in Hl as [(? & ? & ?)|(? & ?)]; done. }
    inversion Hl as [| | | |? ? ? ? ? ? [_ Hh] ? ? ?]; subst.
    destruct (Hh eq_refl) as (h & Eh & Hfits). rewrite Eh.
    by eapply (cached_hashed p (refNode r) r 0 false).
Qed.
End hash.
