(* ===== verification/TrieCorrect.v ===== *)
(** * Correctness of the trie

    The trie implements a finite map from keys to values with metadata.  The
    abstract specification is a map together with the maps that were committed
    under each version; every operation of the trie, with nodes in memory, in the
    database or both, answers as the map does. *)

From S2P Require Import Prelude Bytes External Trie TrieTree TrieRep TrieInsert TrieDelete.
From S2P Require Import TrieCodec TrieCommit.

(** ** Keys *)
Lemma nibblesOf_nibbles key : Forall is_byte key → Forall nibble (nibblesOf key).
Proof.
  induction 1 as [|b key Hb _ IH]; simpl; [done|]. unfold is_byte, nibble in *.
  constructor; [|constructor; [|done]].
  - split; [apply Z.div_pos; lia|apply Z.div_lt_upper_bound; lia].
  - apply Z.mod_pos_bound. lia.
Qed.

Lemma hex_term key : Forall is_byte key → term_key (keybytesToHex key).
Proof. intros Hk. exists (nibblesOf key). split; [by apply nibblesOf_nibbles|done]. Qed.

Lemma hex_inj key key' : keybytesToHex key = keybytesToHex key' → key = key'.
Proof.
  unfold keybytesToHex. intros E. apply (inj (.++ [16])) in E. revert key' E.
  induction key as [|b key IH]; intros [|b' key'] E; simpl in E; try done.
  injection E as E1 E2 E. rewrite (IH key' E). f_equal.
  rewrite (Z.div_mod b 16), (Z.div_mod b' 16) by lia. by rewrite E1, E2.
Qed.

Lemma hex_length key : length (keybytesToHex key) = (2 * length key + 1)%nat.
Proof.
  unfold keybytesToHex. rewrite length_app. simpl.
  assert (length (nibblesOf key) = 2 * length key)%nat as ->; [|lia].
  induction key as [|b key IH]; simpl; lia.
Qed.

(** ** Contents *)
Abbreviation contents := (gmap (list Z) (list Z * list Z)) (only parsing).

Definition key_fits (key : bytes) : Prop := Forall is_byte key ∧ Z.of_nat (length key) < 2 ^ 31 - 1.
Definition entry_ok (key v w : bytes) : Prop :=
  key_fits key ∧ v ≠ [] ∧ short_enough v ∧ short_enough w.

Record tree_of (t : tree) (m : contents) : Prop := {
  to_ok : tree_ok t;
  to_get : ∀ key, tget t (keybytesToHex key) = m !! key;
  to_keys : ∀ k x, tget t k = Some x → ∃ key, k = keybytesToHex key;
  to_entries : ∀ key v w, m !! key = Some (v, w) → entry_ok key v w;
}.

Lemma tree_of_fun t t' m : tree_of t m → tree_of t' m → t = t'.
Proof.
  intros Ht Ht'. apply tree_ok_ext; [apply Ht|apply Ht'|]. intros k.
  destruct (tget t k) as [x|] eqn:E, (tget t' k) as [x'|] eqn:E'; [|..|done].
  - destruct (to_keys _ _ Ht _ _ E) as [key ->]. rewrite (to_get _ _ Ht) in E. rewrite (to_get _ _ Ht') in E'.
    congruence.
  - destruct (to_keys _ _ Ht _ _ E) as [key ->]. rewrite (to_get _ _ Ht) in E. rewrite (to_get _ _ Ht') in E'.
    congruence.
  - destruct (to_keys _ _ Ht' _ _ E') as [key ->]. rewrite (to_get _ _ Ht) in E. rewrite (to_get _ _ Ht') in E'.
    congruence.
Qed.

Lemma tree_of_empty : tree_of TNil ∅.
Proof. split; [by left|done|done|done]. Qed.

Lemma tree_of_bounded t m : tree_of t m → bounded t.
Proof.
  intros Ht k v w Hx. destruct (to_keys _ _ Ht _ _ Hx) as [key ->]. rewrite (to_get _ _ Ht) in Hx.
  destruct (to_entries _ _ Ht _ _ _ Hx) as ([_ Hk] & _ & Hv & Hw). split; [|done].
  rewrite hex_length. unfold max32. lia.
Qed.

Lemma tree_of_nil t m : tree_of t m → t = TNil ↔ m = ∅.
Proof.
  intros Ht. split.
  - intros ->. apply map_empty. intros key. by rewrite <- (to_get _ _ Ht).
  - intros ->. destruct (to_ok _ _ Ht) as [|Hok]; [done|]. destruct (node_ok_some _ Hok) as (k & x & Hx).
    destruct (to_keys _ _ Ht _ _ Hx) as [key ->]. by rewrite (to_get _ _ Ht) in Hx.
Qed.

Lemma tree_of_insert t t' m key v w : tree_of t m → entry_ok key v w →
  inserted t (keybytesToHex key) v w t' → tree_of t' (<[key := (v, w)]> m).
Proof.
  intros Ht He Hi. pose proof (hex_term _ (proj1 (proj1 He))) as Hk. split.
  - destruct (ins_at _ _ _ _ _ Hi) as [[Hok _]|[_ E]]; [done|]. rewrite E in Hk. by apply term_key_nil in Hk.
  - intros key'. rewrite (ins_get _ _ _ _ _ Hi). case_bool_decide as E.
    + apply hex_inj in E as ->. by rewrite lookup_insert_eq.
    + rewrite lookup_insert_ne by congruence. apply (to_get _ _ Ht).
  - intros k x. rewrite (ins_get _ _ _ _ _ Hi). case_bool_decide as E; [by exists key|apply (to_keys _ _ Ht)].
  - intros key' v' w' Hx. apply lookup_insert_Some in Hx as [[<- [= <- <-]]|[_ Hx]]; [done|].
    by apply (to_entries _ _ Ht).
Qed.

Lemma tree_of_delete t t' m key : tree_of t m → key_fits key →
  deleted t (keybytesToHex key) t' → tree_of t' (delete key m).
Proof.
  intros Ht Hkey Hd. pose proof (hex_term _ (proj1 Hkey)) as Hk. split.
  - destruct (del_at _ _ _ Hd) as [[Hok _]|[_ E]]; [done|]. rewrite E in Hk. by apply term_key_nil in Hk.
  - intros key'. rewrite (del_get _ _ _ Hd). case_bool_decide as E.
    + apply hex_inj in E as ->. by rewrite lookup_delete_eq.
    + rewrite lookup_delete_ne by congruence. apply (to_get _ _ Ht).
  - intros k x. rewrite (del_get _ _ _ Hd). case_bool_decide; [done|apply (to_keys _ _ Ht)].
  - intros key' v' w' Hx. apply lookup_delete_Some in Hx as [_ Hx]. by apply (to_entries _ _ Ht).
Qed.

(** ** The operations on a trie *)
Section operations.
Context `{Drlp} `{Crypto} (skip : bool).

(** The trie [T] over the database [db] holds [m]. *)
Definition holds (db : Database) (T : Trie) (m : contents) : Prop :=
  ∃ t, rep skip db [] (root T) t ∧ tree_of t m.

Lemma root_at_key t m key : tree_of t m → key_fits key → at_key t (keybytesToHex key).
Proof. intros Ht [Hk _]. left. split; [apply Ht|by apply hex_term]. Qed.

Lemma root_fuel n key : (2 * length key + refCost n ≤ keyFuel key)%nat.
Proof. unfold keyFuel. pose proof (refCost_le n). lia. Qed.

Lemma Get_holds db T m key : holds db T m → key_fits key →
  ∃ T', trie_Get db key T = Ok (m !! key, T') ∧ holds db T' m.
Proof.
  intros (t & Hr & Ht) Hk. unfold trie_Get.
  destruct (tryGet_rep skip db (cacheGen T) (keyFuel (keybytesToHex key)) (root T) (keybytesToHex key) 0 t)
    as (n' & d & E & Hr'); [done|by eapply root_at_key|lia|apply root_fuel|].
  rewrite E. cbn [mbind result_bind]. change (drop 0 ?k) with k. rewrite (to_get _ _ Ht).
  eexists. split; [done|]. by exists t.
Qed.

Definition updated (m : contents) (key v w : bytes) : contents :=
  if bool_decide (v ≠ []) then <[key := (v, w)]> m else delete key m.

Lemma Update_holds db T m key v w : holds db T m → key_fits key → short_enough v → short_enough w →
  ∃ T', trie_Update db key v w T = Ok (tt, T') ∧ holds db T' (updated m key v w).
Proof.
  intros (t & Hr & Ht) Hk Hv Hw. unfold trie_Update, updated. case_bool_decide as Ev.
  - destruct (trie_insert_rep skip db (cacheGen T) (keyFuel (keybytesToHex key)) (root T) []
      (keybytesToHex key) v w t) as (d & n' & t' & E & Hr' & _ & Hi);
      [done|by eapply root_at_key|apply root_fuel|].
    rewrite E. eexists. split; [done|]. exists t'. split; [done|].
    by apply (tree_of_insert t).
  - destruct (trie_delete_rep skip db (cacheGen T) (keyFuel (keybytesToHex key)) (root T) []
      (keybytesToHex key) t) as (d & n' & t' & E & Hr' & _ & _ & Hd);
      [done|by eapply root_at_key|apply root_fuel|].
    rewrite E. eexists. split; [done|]. exists t'. split; [done|].
    by apply (tree_of_delete t).
Qed.

Lemma New_empty db : holds db (MkTrie Nil 0 0) ∅.
Proof. exists TNil. split; [constructor|apply tree_of_empty]. Qed.

(** The root that opens the contents [m]. *)
Definition opens (h : bytes) (m : contents) : Prop :=
  if bool_decide (h = emptyRoot) then m = ∅
  else h ≠ zeroHash ∧ m ≠ ∅ ∧ (skip = false → ∃ t, tree_of t m ∧ h = thash t).
End operations.

Section hashing.
Context `{Drlp} `{Crypto}.

Lemma Hash_holds skip db T m : skip = false → holds skip db T m →
  ∃ h T', trie_Hash T = Ok (h, T') ∧ holds skip db T' m ∧ ∃ t, tree_of t m ∧ h = thash t.
Proof.
  intros -> (t & Hr & Ht). unfold trie_Hash. pose proof (rep_nil_iff _ _ _ _ _ Hr) as Hn.
  destruct (to_ok _ _ Ht) as [->|Hok].
  - rewrite (proj2 Hn eq_refl). eexists _, T. split; [done|]. split; [by exists TNil|]. by exists TNil.
  - destruct (isNil (root T)) eqn:En; [rewrite (proj1 Hn eq_refl) in Hok; inversion Hok|].
    destruct (hash_rep db [] (root T) t Hr (or_introl Hok) true) as (ho & n' & -> & Hr' & Hh); [by split|].
    rewrite (ha_hash _ _ _ _ Hh Hok), orb_true_r. eexists _, _. split; [done|]. split; [by exists t|]. by exists t.
Qed.
End hashing.

Section committing.
Context `{Drlp} `{Crypto} (skip : bool).
Abbreviation holds := (holds skip).
Abbreviation opens := (opens skip).

(** The hash of the root is kept in its flags. *)
Lemma hash_root n ho n' : hash n true = Ok (ho, n') → inner n = true →
  inner n' = true ∧ is_Some (rhash (fref (flagsOf n'))).
Proof.
  intros E Hi. destruct n as [|cs f|k c f|r|v m]; try done; cbn [hash] in E;
    (destruct (rhash (fref f)) as [h|] eqn:Eh;
      [injection E as _ <-; simpl; by rewrite Eh|]); unfold hashed in E.
  - destruct (hashChildren hash 16 cs) as [cs'|]; [|done]. cbn [mbind result_bind] in E.
    destruct (encodeConsensus _) as [b|]; [|done]. cbn [mbind result_bind] in E.
    rewrite orb_true_r in E. injection E as _ <-. by split.
  - destruct (hash c false) as [[? c']|]; [|done]. cbn [mbind result_bind] in E.
    destruct (encodeConsensus _) as [b|]; [|done]. cbn [mbind result_bind] in E.
    rewrite orb_true_r in E. injection E as _ <-. by split.
Qed.

Lemma resolve_root db gen n t : rep skip db [] n t → node_ok t →
  ∃ n', resolve db gen n [] = Ok n' ∧ rep skip db [] n' t ∧ inner n' = true.
Proof.
  intros Hr Hok. destruct n as [|cs f|k c f|r|v m]; try by eexists.
  - inversion Hr; subst. inversion Hok.
  - apply resolveRef_rep. by inversion Hr.
  - inversion Hr; subst. inversion Hok.
Qed.

Lemma hash_for_commit db n t : rep skip db [] n t → node_ok t → inner n = true →
  ∃ n', (if skip then Ok n else '(_, n) ← hash n true; Ok n) = Ok n' ∧ rep skip db [] n' t ∧
    inner n' = true ∧ (skip = false → [] = @nil Z → is_Some (rhash (fref (flagsOf n')))).
Proof.
  intros Hr Hok Hi. destruct skip; [by exists n|].
  destruct (hash_rep db [] n t Hr (or_introl Hok) true) as (ho & n' & E & Hr' & _); [by split|].
  destruct (hash_root _ _ _ E Hi) as [Hi' Hh]. rewrite E. by exists n'.
Qed.

Definition version_unused (db : Database) (ver : Version) : Prop := ∀ q, db !! (q, ver) = None.

(** A stored root opens under any reference that [opens] admits. *)
Lemma stored_opens db h ver r t m : loaded skip db [] (refNode r) t → rver r = ver → tree_of t m →
  opens h m → holds db (New h ver) m.
Proof.
  intros Hl <- Ht Ho. unfold opens in Ho. unfold New. case_bool_decide as Ee; simpl.
  { subst m. apply New_empty. }
  destruct Ho as (Hz & _ & Hh). rewrite bool_decide_false by done. exists t. split; [|done].
  apply rep_ref. inversion Hl as [| | | |? ? ? blob dn Hb [Hv _] Hd Hi Hl']; subst.
  apply (ld_ref _ _ _ _ _ blob dn); try done. split; [done|]. intros Es.
  destruct (Hh Es) as (t' & Ht' & ->). rewrite (tree_of_fun _ _ _ Ht' Ht).
  eexists. split; [done|]. split; [done|by left].
Qed.

(** Committing writes the contents under the new version, and nothing else. *)
Lemma Commit_holds db T m ver : holds db T m → ver_ok ver → version_unused db ver →
  ∃ T' db', trie_Commit db ver skip (T, db) = Ok (tt, (T', db')) ∧ holds db' T' m ∧ db ⊆ db' ∧
    (∀ q v, db !! (q, v) = None → is_Some (db' !! (q, v)) → v = ver) ∧
    ∀ h, opens h m → holds db' (New h ver) m.
Proof.
  intros (t & Hr & Ht) Hver Hfresh. unfold trie_Commit. pose proof (rep_nil_iff _ _ _ _ _ Hr) as Hn.
  destruct (isNil (root T)) eqn:En.
  { pose proof (proj1 Hn eq_refl) as ->. exists T, db. split; [done|]. split; [by exists TNil|].
    split; [done|]. split; [intros q v -> [? ?]; done|]. intros h Ho.
    pose proof (proj1 (tree_of_nil _ _ Ht) eq_refl) as ->. unfold opens, New in *.
    case_bool_decide; [apply New_empty|]. by destruct Ho as (_ & ? & _). }
  assert (node_ok t) as Hok.
  { destruct (to_ok _ _ Ht) as [->|]; [|done]. by pose proof (proj2 Hn eq_refl). }
  destruct (resolve_root db (cacheGen T) _ _ Hr Hok) as (n1 & -> & Hr1 & Hi1). cbn [mbind result_bind].
  destruct (hash_for_commit _ _ _ Hr1 Hok Hi1) as (n2 & -> & Hr2 & Hi2 & Hh). cbn [mbind result_bind].
  destruct (store_ok skip ver (cacheTTL T) Hver n2 [] t db) as (n3 & db' & -> & [Hsub G] & Hr3 & Hi3 & Hroot);
    [done|done|by eapply tree_of_bounded|done|by intros q _|done|].
  cbn [mbind result_bind]. eexists _, db'. split; [done|]. split; [by exists t|]. split; [done|].
  split; [intros q v H1 H2; by destruct (G q v H1 H2)|]. intros h Ho. destruct (Hroot eq_refl) as [Hd Ef].
  assert (flag_ok skip db' [] (flagsOf n3) t) as [Hl _] by (by inversion Hr3; subst).
  eapply (stored_opens db' h ver (fref (flagsOf n3))); [by apply Hl|by rewrite Ef|done|done].
Qed.

Lemma holds_mono db db' T m : db ⊆ db' → holds db T m → holds db' T m.
Proof. intros Hs (t & Hr & Ht). exists t. split; [by eapply rep_mono|done]. Qed.
End committing.

(** ** Runs

    Sequences of operations on a trie over a database, and the abstract
    specification they refine: a finite map, with the maps that were committed. *)

(** ** The concrete machine *)
Inductive op :=
  | OGet (key : bytes)
  | OUpdate (key value meta : bytes)
  | OHash
  | OSetCacheTTL (ttl : Z)
  | OCommit (ver : Version)
  | OOpen (h : bytes) (ver : Version).

Inductive answer := ANone | AValue (x : option (bytes * bytes)) | AHash (h : bytes).

Section machine.
Context `{Drlp} `{Crypto} (skip : bool).

Definition perform (o : op) : M (Trie * Database) answer := λ '(T, db),
  match o with
  | OGet key => '(x, T') ← trie_Get db key T; Ok (AValue x, (T', db))
  | OUpdate key value meta => '(_, T') ← trie_Update db key value meta T; Ok (ANone, (T', db))
  | OHash => '(h, T') ← trie_Hash T; Ok (AHash h, (T', db))
  | OSetCacheTTL ttl => Ok (ANone, (SetCacheTTL ttl T, db))
  | OCommit ver => '(_, s) ← trie_Commit db ver skip (T, db); Ok (ANone, s)
  | OOpen h ver => Ok (ANone, (New h ver, db))
  end.

Fixpoint performs (ops : list op) : M (Trie * Database) (list answer) :=
  match ops with
  | [] => mret []
  | o :: ops => a ← perform o; l ← performs ops; mret (a :: l)
  end.

(** ** The specification *)
Record spec := MkSpec { current : contents; committed : gmap Version contents }.

Definition after (o : op) (s : spec) : spec :=
  match o with
  | OUpdate key value meta => MkSpec (updated (current s) key value meta) (committed s)
  | OCommit ver => MkSpec (current s) (<[ver := current s]> (committed s))
  | OOpen _ ver => MkSpec (default ∅ (committed s !! ver)) (committed s)
  | _ => s
  end.

(** What a caller has to respect: byte keys and sizes, a version that was not
    committed yet, roots of committed contents. *)
Definition allowed (o : op) (s : spec) : Prop :=
  match o with
  | OGet key => key_fits key
  | OUpdate key value meta => key_fits key ∧ short_enough value ∧ short_enough meta
  | OHash => skip = false
  | OSetCacheTTL _ => True
  | OCommit ver => ver_ok ver ∧ committed s !! ver = None
  | OOpen h ver => ∃ m, committed s !! ver = Some m ∧ opens skip h m
  end.

Definition answers (o : op) (s : spec) (a : answer) : Prop :=
  match o with
  | OGet key => a = AValue (current s !! key)
  | OHash => ∃ t, tree_of t (current s) ∧ a = AHash (thash t)
  | _ => a = ANone
  end.

Fixpoint all_allowed (ops : list op) (s : spec) : Prop :=
  match ops with [] => True | o :: ops => allowed o s ∧ all_allowed ops (after o s) end.

Fixpoint all_answer (ops : list op) (s : spec) (l : list answer) : Prop :=
  match ops, l with
  | [], [] => True
  | o :: ops, a :: l => answers o s a ∧ all_answer ops (after o s) l
  | _, _ => False
  end.

(** ** The simulation *)
Record simulates (T : Trie) (db : Database) (s : spec) : Prop := {
  sim_current : holds skip db T (current s);
  sim_committed : ∀ ver m h, committed s !! ver = Some m → opens skip h m → holds skip db (New h ver) m;
  sim_versions : ∀ q ver, is_Some (db !! (q, ver)) → is_Some (committed s !! ver);
}.

Lemma simulates_current T T' db s m : simulates T db s → holds skip db T' m →
  simulates T' db (MkSpec m (committed s)).
Proof. intros [_ Hc Hv] Hh. by split. Qed.

Lemma simulates_same T T' db s : simulates T db s → holds skip db T' (current s) → simulates T' db s.
Proof. intros [_ Hc Hv] Hh. by split. Qed.

Lemma commit_simulates T db s T' db' ver : simulates T db s → holds skip db' T' (current s) → db ⊆ db' →
  (∀ q v, db !! (q, v) = None → is_Some (db' !! (q, v)) → v = ver) →
  (∀ h, opens skip h (current s) → holds skip db' (New h ver) (current s)) →
  simulates T' db' (after (OCommit ver) s).
Proof.
  intros [_ Hc Hv] Hh Hsub Hnew Ho. split; simpl; [done|..].
  - intros v m h Hm. apply lookup_insert_Some in Hm as [[<- <-]|[_ Hm]]; [apply Ho|].
    intros Hopen. eapply holds_mono; [done|by apply Hc].
  - intros q v Hs. destruct (decide (v = ver)) as [->|Hne]; [by rewrite lookup_insert_eq|].
    rewrite lookup_insert_ne by done. apply (Hv q). destruct (db !! (q, v)) eqn:E; [done|].
    by destruct (Hnew q v E Hs).
Qed.

Lemma perform_simulates o T db s : simulates T db s → allowed o s →
  ∃ a T' db', perform o (T, db) = Ok (a, (T', db')) ∧ answers o s a ∧ simulates T' db' (after o s).
Proof.
  intros Hs Ha. pose proof (sim_current _ _ _ Hs) as Hh.
  destruct o as [key|key v w| |ttl|ver|h ver]; cbn [perform].
  - destruct (Get_holds skip db T _ key Hh Ha) as (T' & -> & Hh'). eexists _, _, _. split; [done|].
    split; [done|]. by eapply simulates_same.
  - destruct Ha as (Hk & Hv & Hw). destruct (Update_holds skip db T _ key v w Hh Hk Hv Hw) as (T' & -> & Hh').
    eexists _, _, _. split; [done|]. split; [done|]. by eapply simulates_current.
  - destruct (Hash_holds skip db T _ Ha Hh) as (h & T' & -> & Hh' & t & Ht & ->).
    eexists _, _, _. split; [done|]. split; [by exists t|]. by eapply simulates_same.
  - eexists _, _, _. split; [done|]. split; [done|]. by eapply simulates_same.
  - destruct Ha as [Hver Hnew]. destruct (Commit_holds skip db T _ ver Hh Hver) as (T' & db' & -> & Hh' & Hrest).
    { intros q. destruct (db !! (q, ver)) eqn:E; [|done].
      destruct (sim_versions _ _ _ Hs q ver) as [m Hm]; [by rewrite E|congruence]. }
    eexists _, _, _. split; [done|]. split; [done|]. by eapply commit_simulates; [|..]; try apply Hrest.
  - destruct Ha as (m & Hm & Ho). eexists _, _, _. split; [done|]. split; [done|]. simpl. rewrite Hm.
    eapply simulates_current; [done|]. by apply (sim_committed _ _ _ Hs).
Qed.
End machine.
