(* ===== verification/TrieBinding.v ===== *)
(** * What the root hash commits to

    The encodings that are hashed determine the values in the trie: two trees
    with the same root hash hold the same values under the same keys, unless the
    hash function maps two different node encodings of theirs to the same hash. *)

From S2P Require Import Prelude Bytes External Trie TrieTree TrieRep TrieCodec TrieCommit.

(** ** Trees without metadata *)
Fixpoint strip (t : tree) : tree :=
  match t with
  | TNil => TNil
  | TValue v _ => TValue v []
  | TShort k c => TShort k (strip c)
  | TFull cs => TFull (map strip cs)
  end.

Definition bare (x : bytes * bytes) : bytes * bytes := (x.1, []).

Lemma tree_ind' (P : tree → Prop) : P TNil → (∀ cs, Forall P cs → P (TFull cs)) →
  (∀ k c, P c → P (TShort k c)) → (∀ v m, P (TValue v m)) → ∀ t, P t.
Proof.
  intros Hnil Hfull Hshort Hval. fix IH 1. intros [|cs|k c|v m]; [done| |by apply Hshort|done].
  apply Hfull. induction cs as [|c cs IHcs]; constructor; [apply IH|apply IHcs].
Qed.

Lemma strip_get t k : tget (strip t) k = bare <$> tget t k.
Proof.
  revert k. induction t as [|cs IH|k c IH|v m] using tree_ind'; intros key; [done|..|by destruct key].
  - destruct key as [|x key]; [done|]. cbn [strip]. rewrite !tget_full. destruct (0 <=? x); [|done].
    change (map strip cs) with (strip <$> cs). rewrite list_lookup_fmap.
    destruct (cs !! Z.to_nat x) as [c|] eqn:Ec; [|done]. rewrite Forall_lookup in IH. by apply (IH _ c Ec).
  - cbn [strip]. unfold tget; fold tget. case_bool_decide; [apply IH|done].
Qed.

Lemma strip_nil t : strip t = TNil ↔ t = TNil.
Proof. by destruct t. Qed.

Lemma strip_ok t : node_ok t → node_ok (strip t).
Proof.
  induction 1 as [k v m Hk|k cs Hk Hn Hok IH|cs Hlen Hc IH Hv (i & j & ci & cj & Hij & Hi & Hni & Hj & Hnj)].
  - by apply ok_leaf.
  - by apply ok_ext.
  - apply ok_full.
    + by rewrite length_map.
    + intros i' c Hic Hlt Hne. change (map strip cs) with (strip <$> cs) in Hic.
      apply list_lookup_fmap_Some in Hic as (c' & -> & Hic). rewrite strip_nil in Hne. by apply (IH i').
    + intros c Hic. change (map strip cs) with (strip <$> cs) in Hic.
      apply list_lookup_fmap_Some in Hic as (c' & -> & Hic). destruct (Hv c' Hic) as [->|(v & m & ->)]; [by left|].
      right. by exists v, [].
    + exists i, j, (strip ci), (strip cj). change (map strip cs) with (strip <$> cs).
      rewrite !list_lookup_fmap, Hi, Hj, !strip_nil. done.
Qed.

Lemma strip_ext t t' : tree_ok t → tree_ok t' →
  (∀ k, fst <$> tget t k = fst <$> tget t' k) → strip t = strip t'.
Proof.
  intros Ht Ht' He. apply tree_ok_ext.
  - destruct Ht as [->|?]; [by left|right; by apply strip_ok].
  - destruct Ht' as [->|?]; [by left|right; by apply strip_ok].
  - intros k. rewrite !strip_get. specialize (He k). unfold bare.
    destruct (tget t k) as [[v m]|], (tget t' k) as [[v' m']|]; simpl in *; congruence.
Qed.

(** ** Reading encodings back *)
Section binding.
Context `{DrlpSpec} `{CryptoSpec}.

Lemma strip_embed t b : embed (strip t) b = embed t b.
Proof. by destruct t. Qed.

Lemma strip_enc t : tenc (strip t) = tenc t.
Proof.
  induction t as [|cs IH|k c IH|v m] using tree_ind'; [done|..|done]; cbn [strip tenc].
  - f_equal. induction IH as [|c cs Hc _ IHcs]; [done|]. simpl. by rewrite strip_embed, Hc, IHcs.
  - by rewrite strip_embed, IH.
Qed.

Definition encoded (b : bytes) : Prop := ∃ a, b = drlp_str a ∨ b = drlp_list a.

Lemma item_split x y r r' : encoded x → encoded y → x ++ r = y ++ r' → x = y ∧ r = r'.
Proof.
  intros (a & [->| ->]) (b & [->| ->]) E.
  - by apply drlp_str_inj in E as [-> ->].
  - by apply drlp_str_list in E.
  - by apply eq_sym, drlp_str_list in E.
  - by apply drlp_list_inj in E as [-> ->].
Qed.

Lemma item_nonempty x : encoded x → x ≠ [].
Proof.
  intros Hx ->. assert (∀ y, encoded y → y = []) as Hall.
  { intros y Hy. by destruct (item_split [] y y [] Hx Hy) as [<- _]; [by rewrite app_nil_r|]. }
  pose proof (Hall (drlp_str [])) as Ha. pose proof (Hall (drlp_str [0])) as Hb.
  destruct (drlp_str_inj [] [0] [] []) as [? _]; [|done].
  rewrite Ha, Hb; [done|by exists [0]; left|by exists []; left].
Qed.

Lemma items_split l l' : Forall encoded l → Forall encoded l' → concat l = concat l' → l = l'.
Proof.
  intros Hl. revert l'. induction Hl as [|x l Hx Hl IH]; intros [|y l'] Hl' E; simpl in E; [done|..].
  - apply Forall_cons in Hl' as [Hy _]. apply item_nonempty in Hy. by destruct y.
  - apply item_nonempty in Hx. by destruct x.
  - apply Forall_cons in Hl' as [Hy Hl']. apply item_split in E as [-> E]; [|done|done].
    by rewrite (IH l' Hl' E).
Qed.

Lemma tenc_item t : encoded (tenc t).
Proof. destruct t; cbn [tenc]; eexists; eauto. Qed.

Lemma embed_item t : encoded (embed t (tenc t)).
Proof.
  pose proof (tenc_item t) as Hi. unfold embed. destruct t; try done; case_match; try done; eexists; eauto.
Qed.
(** ** Hashes *)

(** The encodings that are hashed, of a tree and of the trees below it. *)
Fixpoint encodings (t : tree) : list bytes :=
  tenc t :: match t with
            | TShort _ c => encodings c
            | TFull cs => flat_map encodings cs
            | _ => []
            end.

(** No two different encodings of the two trees have the same hash. *)
Definition collision_free (t t' : tree) : Prop :=
  ∀ b b', b ∈ encodings t → b' ∈ encodings t' → blake2b b = blake2b b' → b = b'.

Definition values_ok (t : tree) : Prop := ∀ k v m, tget t k = Some (v, m) → v ≠ [].

Lemma enc_self t : tenc t ∈ encodings t.
Proof. destruct t; apply list_elem_of_here. Qed.

Lemma enc_child cs i c b : cs !! i = Some c → b ∈ encodings c → b ∈ encodings (TFull cs).
Proof.
  intros Hc Hb. apply list_elem_of_further, list_elem_of_In, in_flat_map. exists c.
  split; apply list_elem_of_In; [by eapply list_elem_of_lookup_2|done].
Qed.

Lemma free_short k c k' c' : collision_free (TShort k c) (TShort k' c') → collision_free c c'.
Proof. intros Hf b b' Hb Hb'. apply Hf; by apply list_elem_of_further. Qed.

Lemma free_full cs cs' i c c' : collision_free (TFull cs) (TFull cs') → cs !! i = Some c → cs' !! i = Some c' →
  collision_free c c'.
Proof. intros Hf Hc Hc' b b' Hb Hb'. apply Hf; by eapply enc_child. Qed.

Lemma values_short k c : values_ok (TShort k c) → values_ok c.
Proof. intros Hv k' v m Hx. apply (Hv (k ++ k') v m). by rewrite tget_short_app. Qed.

Lemma values_full cs i c : values_ok (TFull cs) → cs !! i = Some c → values_ok c.
Proof. intros Hv Hc k v m Hx. apply (Hv (Z.of_nat i :: k) v m). by rewrite tget_full_at, Hc. Qed.

Lemma blakeBytes_inj t t' : collision_free t t' → thash t = thash t' → tenc t = tenc t'.
Proof.
  intros Hf E. apply Hf; [apply enc_self..|]. apply (be_inj 32); [..|done].
  - pose proof (blake2b_range (tenc t)) as Hr. unfold is256 in Hr. simpl. lia.
  - pose proof (blake2b_range (tenc t')) as Hr. unfold is256 in Hr. simpl. lia.
Qed.

Lemma node_enc_list t : node_ok t → ∃ a, tenc t = drlp_list a.
Proof. destruct 1; cbn [tenc]; eauto. Qed.

Lemma str_not_list a b : drlp_str a ≠ drlp_list b.
Proof. intros E. apply (drlp_str_list a b [] []). by rewrite E. Qed.

Lemma str_inj a b : drlp_str a = drlp_str b → a = b.
Proof. intros E. destruct (drlp_str_inj a b [] []) as [? _]; [by rewrite E|done]. Qed.

Lemma list_inj a b : drlp_list a = drlp_list b → a = b.
Proof. intros E. destruct (drlp_list_inj a b [] []) as [? _]; [by rewrite E|done]. Qed.

(** The encoding of an inner child in its parent determines its own encoding. *)
Lemma embed_inj t t' : node_ok t → node_ok t' → collision_free t t' →
  embed t (tenc t) = embed t' (tenc t') → tenc t = tenc t'.
Proof.
  intros Hok Hok' Hf E. destruct (node_enc_list _ Hok) as [a Ea], (node_enc_list _ Hok') as [a' Ea'].
  destruct (32 <=? length (tenc t))%nat eqn:El, (32 <=? length (tenc t'))%nat eqn:El'.
  - rewrite !embed_large in E by done. by apply blakeBytes_inj, str_inj.
  - rewrite (embed_large t), (embed_small t'), Ea' in E by done. by apply str_not_list in E.
  - rewrite (embed_small t), (embed_large t'), Ea in E by done. by apply eq_sym, str_not_list in E.
  - by rewrite !embed_small in E.
Qed.

Lemma nil_not_embed t : node_ok t → drlp_str [] ≠ embed t (tenc t).
Proof.
  intros Hok E. destruct (node_enc_list _ Hok) as [a Ea]. destruct (32 <=? length (tenc t))%nat eqn:El.
  - rewrite embed_large in E by done. apply str_inj, (f_equal length) in E. unfold blakeBytes in E.
    by rewrite be_length in E.
  - rewrite embed_small, Ea in E by done. by apply str_not_list in E.
Qed.
(** ** Nodes *)
Definition items (t : tree) : list bytes :=
  match t with
  | TShort k c => [drlp_str (compact k); embed c (tenc c)]
  | TFull cs => map (λ c, embed c (tenc c)) cs
  | _ => []
  end.

Lemma node_items t : node_ok t → tenc t = drlp_list (concat (items t)) ∧ Forall encoded (items t).
Proof.
  assert (∀ k, encoded (drlp_str k)) as Hs by (intros k; exists k; by left).
  destruct 1; cbn [tenc items]; simpl concat; rewrite ?app_nil_r; (split; [done|]).
  - repeat constructor; [done|apply (embed_item (TValue v m))].
  - repeat constructor; [done|apply (embed_item (TFull cs))].
  - apply Forall_map, Forall_true. intros c. apply embed_item.
Qed.

Lemma items_inj t t' : node_ok t → node_ok t' → tenc t = tenc t' → items t = items t'.
Proof.
  intros Hok Hok' E. destruct (node_items _ Hok) as [Et Hi], (node_items _ Hok') as [Et' Hi'].
  apply items_split; [done|done|]. apply list_inj. congruence.
Qed.

Lemma term_not_nibbles k : term_key k → Forall nibble k → False.
Proof.
  intros (l & _ & ->) Hn. apply Forall_app in Hn as [_ Hn]. apply Forall_cons in Hn as [Hn _].
  unfold nibble in Hn. lia.
Qed.

(** Children at the same place of two full nodes. *)
Lemma child_inj cs cs' i c c' : node_ok (TFull cs) → node_ok (TFull cs') →
  values_ok (TFull cs) → values_ok (TFull cs') → collision_free (TFull cs) (TFull cs') →
  cs !! i = Some c → cs' !! i = Some c' → embed c (tenc c) = embed c' (tenc c') →
  (node_ok c → node_ok c' → tenc c = tenc c' → strip c = strip c') → strip c = strip c'.
Proof.
  intros Hok Hok' Hvs Hvs' Hf Hc Hc' E IH.
  inversion Hok as [| |? Hlen Hch Hv _]; subst. inversion Hok' as [| |? Hlen' Hch' Hv' _]; subst.
  destruct (decide (i = 16%nat)) as [->|Hi].
  - pose proof (values_full _ _ _ Hvs Hc []) as Hn. pose proof (values_full _ _ _ Hvs' Hc' []) as Hn'.
    destruct (Hv _ Hc) as [->|(v & m & ->)], (Hv' _ Hc') as [->|(v' & m' & ->)]; [done|..];
      apply str_inj in E; subst; [by destruct (Hn' [] m')|by destruct (Hn [] m)|done].
  - assert (i < 16)%nat as Hlt by (apply lookup_lt_Some in Hc; lia).
    destruct (decide (c = TNil)) as [->|Hn], (decide (c' = TNil)) as [->|Hn']; [done|..].
    + by apply nil_not_embed in E; [|by apply (Hch' i)].
    + by apply eq_sym, nil_not_embed in E; [|by apply (Hch i)].
    + pose proof (Hch i c Hc Hlt Hn) as Hokc. pose proof (Hch' i c' Hc' Hlt Hn') as Hokc'.
      apply IH; [done|done|]. apply embed_inj; [done|done|by eapply free_full|done].
Qed.

Lemma node_binding t : node_ok t → ∀ t', node_ok t' → values_ok t → values_ok t' → collision_free t t' →
  tenc t = tenc t' → strip t = strip t'.
Proof.
  induction 1 as [k v m Hk|k cs Hk Hn Hok IH|cs Hlen Hch IH Hv Htwo]; intros t' Hok' Hvs Hvs' Hf E.
  - pose proof (items_inj _ _ (ok_leaf k v m Hk) Hok' E) as Ei.
    destruct Hok' as [k' v' m' Hk'|k' cs' Hk' Hn' Hok'|cs' Hlen' _ _ _].
    + injection Ei as Ek Ev. apply str_inj, compact_inj in Ek as ->; [|by right..].
      apply str_inj in Ev as ->. done.
    + injection Ei as Ek _. apply str_inj, compact_inj in Ek as ->; [|by right|by left].
      by destruct (term_not_nibbles k').
    + apply (f_equal length) in Ei. cbn [items] in Ei. rewrite length_map, Hlen' in Ei. done.
  - pose proof (items_inj _ _ (ok_ext k cs Hk Hn Hok) Hok' E) as Ei.
    destruct Hok' as [k' v' m' Hk'|k' cs' Hk' Hn' Hok'|cs' Hlen' _ _ _].
    + injection Ei as Ek _. apply str_inj, compact_inj in Ek as ->; [|by left|by right].
      by destruct (term_not_nibbles k').
    + injection Ei as Ek Ec. apply str_inj, compact_inj in Ek as ->; [|by left..].
      apply free_short in Hf. apply values_short in Hvs, Hvs'.
      change (TShort k' (strip (TFull cs)) = TShort k' (strip (TFull cs'))).
      rewrite (IH (TFull cs')); [done..|]. by apply embed_inj.
    + apply (f_equal length) in Ei. cbn [items] in Ei. rewrite length_map, Hlen' in Ei. done.
  - assert (node_ok (TFull cs)) as Hok by (by constructor).
    pose proof (items_inj _ _ Hok Hok' E) as Ei.
    destruct Hok' as [k' v' m' Hk'|k' cs' Hk' Hn' Hok'|cs' Hlen' Hch' Hv' Htwo'];
      [apply (f_equal length) in Ei; cbn [items] in Ei; rewrite length_map, Hlen in Ei; done..|].
    cbn [strip items] in *. f_equal. apply list_eq. intros i. change (map strip ?l) with (strip <$> l).
    rewrite !list_lookup_fmap. apply (f_equal (.!! i)) in Ei.
    change (map ?f ?l) with (f <$> l) in Ei. rewrite !list_lookup_fmap in Ei.
    destruct (cs !! i) as [c|] eqn:Hc, (cs' !! i) as [c'|] eqn:Hc'; [|done..]. simpl in Ei |- *. f_equal.
    injection Ei as Ec. eapply (child_inj cs cs' i); try done; [by constructor|].
    intros Hokc Hokc' Et. assert (i < 16)%nat as Hlt.
    { apply lookup_lt_Some in Hc as ?. destruct (decide (i = 16%nat)) as [->|]; [|lia].
      destruct (Hv c Hc) as [->|(v & m & ->)]; inversion Hokc. }
    apply (IH i c Hc Hlt); [by intros ->; inversion Hokc|done| | | |done].
    + by apply (values_full cs i).
    + by apply (values_full cs' i).
    + by apply (free_full cs cs' i).
Qed.

Lemma tree_binding t t' : tree_ok t → tree_ok t' → values_ok t → values_ok t' → collision_free t t' →
  thash t = thash t' → strip t = strip t'.
Proof.
  intros Ht Ht' Hv Hv' Hf E. apply blakeBytes_inj in E; [|done].
  destruct Ht as [->|Hok], Ht' as [->|Hok']; [done|..].
  - destruct (node_enc_list _ Hok') as [a Ea]. rewrite Ea in E. by apply str_not_list in E.
  - destruct (node_enc_list _ Hok) as [a Ea]. rewrite Ea in E. by apply eq_sym, str_not_list in E.
  - by apply node_binding.
Qed.
End binding.
