(* ===== verification/TxRoot.v ===== *)
(** * The transactions root

    [DeriveRoot] puts a list into a trie under its indices; the root hash of the
    transactions of a block determines them. *)

From S2P Require Import Prelude Bytes External Block Tx TxCorrect Receipts.
From S2P Require Import Trie TrieTree TrieRep TrieCodec TrieCorrect TrieBinding.

Section root.
Context `{Rlp} `{Drlp} `{Crypto}.

(** The source compares the length first, as the root of no transaction is
    computed once. *)
Definition Transactions_RootHash (txs : list Transaction) : result bytes :=
  if (length txs =? 0)%nat then DeriveRoot [] else DeriveRoot (map MarshalBinary txs).
End root.

Section lists.
Context `{DrlpSpec} `{CryptoSpec}.

(** The contents of the trie of a list. *)
Fixpoint indexed (i : Z) (l : list bytes) (m : contents) : contents :=
  match l with
  | [] => m
  | b :: l => indexed (i + 1) l (<[drlp_uint i := (b, [])]> m)
  end.

Definition list_fits (l : list bytes) : Prop :=
  Z.of_nat (length l) ≤ max64 ∧ Forall (λ b, b ≠ [] ∧ short_enough b) l.

Lemma uint_key i : is64 i → key_fits (drlp_uint i).
Proof.
  intros Hi. split; [by apply drlp_uint_bytes|]. pose proof (drlp_uint_length i Hi). lia.
Qed.

Lemma addAll_holds l i T m : holds false ∅ T m → 0 ≤ i → i + Z.of_nat (length l) ≤ max64 →
  Forall (λ b, b ≠ [] ∧ short_enough b) l →
  ∃ T', addAll i l T = Ok T' ∧ holds false ∅ T' (indexed i l m).
Proof.
  revert i T m. induction l as [|b l IH]; intros i T m Hh Hi Hlen Hl; [by exists T|].
  apply Forall_cons in Hl as [[Hb Hs] Hl]. simpl in Hlen. cbn [addAll indexed]. unfold addIndexed.
  destruct (Update_holds false ∅ T m (drlp_uint i) b []) as (T' & -> & Hh');
    [done|apply uint_key; unfold is64; lia|done|unfold short_enough, max64; simpl; lia|].
  cbn [mbind result_bind]. unfold updated in Hh'. rewrite bool_decide_true in Hh' by done.
  apply IH; [done|lia|lia|done].
Qed.

Lemma indexed_other i l m key : (∀ j, i ≤ j < i + Z.of_nat (length l) → drlp_uint j ≠ key) →
  indexed i l m !! key = m !! key.
Proof.
  revert i m. induction l as [|b l IH]; intros i m Hk; [done|]. cbn [indexed]. simpl length in Hk.
  rewrite IH by (intros j Hj; apply Hk; lia). rewrite lookup_insert_ne; [done|]. apply Hk. lia.
Qed.

Lemma indexed_lookup i l m j : 0 ≤ i → i + Z.of_nat (length l) ≤ max64 → (j < length l)%nat →
  indexed i l m !! drlp_uint (i + Z.of_nat j) = (λ b, (b, [])) <$> l !! j.
Proof.
  revert i m j. induction l as [|b l IH]; intros i m j Hi Hlen Hj; simpl in Hj, Hlen; [lia|].
  destruct j as [|j]; cbn [indexed].
  - rewrite Z.add_0_r, indexed_other, lookup_insert_eq; [done|]. intros j Hr E.
    apply drlp_uint_inj in E; unfold is64; lia.
  - replace (i + Z.of_nat (S j)) with (i + 1 + Z.of_nat j) by lia. apply IH; lia.
Qed.

Lemma indexed_none l j : Z.of_nat (length l) ≤ j < max64 → indexed 0 l ∅ !! drlp_uint j = None.
Proof.
  intros Hj. rewrite indexed_other; [done|]. intros i Hi E. apply drlp_uint_inj in E; unfold is64; lia.
Qed.

(** Lists of the same values under the same indices are equal. *)
Lemma indexed_inj l l' : Z.of_nat (length l) ≤ max64 → Z.of_nat (length l') ≤ max64 →
  (∀ key, fst <$> indexed 0 l ∅ !! key = fst <$> indexed 0 l' ∅ !! key) → l = l'.
Proof.
  intros Hl Hl' He. apply list_eq. intros i. specialize (He (drlp_uint (0 + Z.of_nat i))).
  destruct (decide (i < length l)%nat) as [Hi|Hi], (decide (i < length l')%nat) as [Hi'|Hi'].
  - rewrite !indexed_lookup in He by lia. destruct (l !! i), (l' !! i); simplify_eq/=; done.
  - rewrite indexed_lookup, indexed_none in He by lia.
    destruct (lookup_lt_is_Some_2 l i Hi) as [b Hb]. by rewrite Hb in He.
  - rewrite indexed_none, indexed_lookup in He by lia.
    destruct (lookup_lt_is_Some_2 l' i Hi') as [b Hb]. by rewrite Hb in He.
  - by rewrite !lookup_ge_None_2 by lia.
Qed.

Lemma DeriveRoot_tree l : list_fits l → ∃ t, tree_of t (indexed 0 l ∅) ∧ DeriveRoot l = Ok (thash t).
Proof.
  intros [Hlen Hl]. unfold DeriveRoot.
  destruct (addAll_holds l 0 (MkTrie Nil 0 0) ∅) as (T & -> & Hh); [apply New_empty|lia|lia|done|].
  cbn [mbind result_bind]. destruct (Hash_holds false ∅ T _ eq_refl Hh) as (h & T' & -> & _ & t & Ht & ->).
  by exists t.
Qed.
End lists.

(** ** Values *)
Lemma tree_of_values t m : tree_of t m → values_ok t.
Proof.
  intros Ht k v w Hx. destruct (to_keys _ _ Ht _ _ Hx) as [key ->]. rewrite (to_get _ _ Ht) in Hx.
  by destruct (to_entries _ _ Ht _ _ _ Hx) as (_ & ? & _).
Qed.

Lemma tree_of_same_values t t' m m' : tree_of t m → tree_of t' m' →
  (∀ k, fst <$> tget t k = fst <$> tget t' k) ↔ (∀ key, fst <$> m !! key = fst <$> m' !! key).
Proof.
  intros Ht Ht'. split; intros He k.
  - by rewrite <- (to_get _ _ Ht), <- (to_get _ _ Ht').
  - destruct (tget t k) as [x|] eqn:E, (tget t' k) as [x'|] eqn:E'; [..|done];
      [destruct (to_keys _ _ Ht _ _ E) as [key ->]..|destruct (to_keys _ _ Ht' _ _ E') as [key ->]];
      specialize (He key); rewrite <- (to_get _ _ Ht), <- (to_get _ _ Ht') in He; by rewrite E, E' in He.
Qed.

Section values.
Context `{DrlpSpec} `{CryptoSpec}.

Lemma strip_values t t' : strip t = strip t' → ∀ k, fst <$> tget t k = fst <$> tget t' k.
Proof.
  intros E k. apply (f_equal (λ t, fst <$> tget t k)) in E. rewrite !strip_get in E.
  unfold bare in E. by destruct (tget t k), (tget t' k).
Qed.

(** The hash is a function of the values, and determines them. *)
Lemma hash_of_values t t' m m' : tree_of t m → tree_of t' m' →
  (∀ key, fst <$> m !! key = fst <$> m' !! key) → thash t = thash t'.
Proof.
  intros Ht Ht' He. unfold thash. rewrite <- (strip_enc t), <- (strip_enc t').
  f_equal. f_equal. apply strip_ext; [apply Ht|apply Ht'|]. by apply (tree_of_same_values t t' m m').
Qed.

Lemma values_of_hash t t' m m' : tree_of t m → tree_of t' m' → collision_free t t' →
  thash t = thash t' → ∀ key, fst <$> m !! key = fst <$> m' !! key.
Proof.
  intros Ht Ht' Hf E. apply (tree_of_same_values t t'); [done|done|]. apply strip_values.
  apply tree_binding; [apply Ht|apply Ht'|by eapply tree_of_values..|done|done].
Qed.
End values.

(** ** The receipts root (receipt.go) *)
Section receipts.
Context `{Rlp} `{Drlp} `{Crypto}.

Definition Receipts_RootHash (rs : list Receipt) : result bytes :=
  if (length rs =? 0)%nat then DeriveRoot [] else DeriveRoot (map Receipt_MarshalBinary rs).
End receipts.
