(* ===== verification/TrieTheorems.v ===== *)
(** * Theorems on the trie

    The refinement of the abstract map by runs of the trie, what the root hash
    says of the contents, and the transactions root. *)

From S2P Require Import Prelude Bytes External Tx TxCorrect.
From S2P Require Import Trie TrieTree TrieRep TrieCodec TrieCorrect TrieBinding TxRoot.

Section refinement.
Context `{Drlp} `{Crypto} (skip : bool).

Lemma performs_simulates ops T db s : simulates skip T db s → all_allowed skip ops s →
  ∃ l T' db', performs skip ops (T, db) = Ok (l, (T', db')) ∧ all_answer ops s l.
Proof.
  revert T db s. induction ops as [|o ops IH]; intros T db s Hs Ha; [by eexists [], T, db|].
  destruct Ha as [Ho Ha]. destruct (perform_simulates skip o T db s Hs Ho) as (a & T' & db' & E & Hans & Hs').
  destruct (IH T' db' (after o s) Hs' Ha) as (l & T'' & db'' & E' & Hl).
  exists (a :: l), T'', db''. cbn [performs]. unfold mbind, M_bind. rewrite E, E'. done.
Qed.

(** C7: the trie is a persistent finite map.  Any sequence of [Get], [Update],
    [Hash], [SetCacheTTL], [Commit] and [New] on an initially empty database,
    with hashes or without, succeeds, and answers as the abstract map does:
    [Get] returns the value last written, [Hash] the hash of the contents'
    canonical tree, and opening the root of a committed version gives back the
    contents at that commit, whatever was written or committed since and
    whichever nodes the cache still holds. *)
Theorem trie_refines_map (ops : list op) :
  all_allowed skip ops (MkSpec ∅ ∅) →
  ∃ l T db, performs skip ops (MkTrie Nil 0 0, ∅) = Ok (l, (T, db)) ∧
    all_answer ops (MkSpec ∅ ∅) l.
Proof.
  apply performs_simulates. split; [apply New_empty|done|].
  intros q ver Hs. by rewrite lookup_empty in Hs; destruct Hs.
Qed.
End refinement.

Section roots.
Context `{RlpSpec} `{DrlpSpec} `{CryptoSpec}.

(** C8: the root hash identifies the values.  Two tries, however they were
    built, loaded or cached, have the same root hash when they hold the same
    values under the same keys (the metadata is not hashed); and when their
    root hashes are equal they hold the same values under the same keys, unless
    two different node encodings among the two tries collide under blake2b. *)
Theorem root_identifies_values (db db' : Database) (T T' : Trie) (m m' : contents) :
  holds false db T m → holds false db' T' m' →
  ∃ h h' T1 T1', trie_Hash T = Ok (h, T1) ∧ trie_Hash T' = Ok (h', T1') ∧
    ((∀ key, fst <$> m !! key = fst <$> m' !! key) → h = h') ∧
    (∀ t t', tree_of t m → tree_of t' m' → collision_free t t' → h = h' →
      ∀ key, fst <$> m !! key = fst <$> m' !! key).
Proof.
  intros Hh Hh'. destruct (Hash_holds false db T m eq_refl Hh) as (h & T1 & E & _ & t & Ht & ->).
  destruct (Hash_holds false db' T' m' eq_refl Hh') as (h' & T1' & E' & _ & t' & Ht' & ->).
  exists (thash t), (thash t'), T1, T1'. split; [done|]. split; [done|].
  split; [by apply hash_of_values|]. intros t1 t1' Ht1 Ht1' Hf Eh.
  rewrite <- (tree_of_fun _ _ _ Ht1 Ht), <- (tree_of_fun _ _ _ Ht1' Ht') in Eh.
  by apply (values_of_hash t1 t1').
Qed.

Lemma marshal_inj tx tx' : tx_wf tx → tx_wf tx' → MarshalBinary tx = MarshalBinary tx' → tx = tx'.
Proof.
  intros Hw Hw' E. destruct (tx_codec tx Hw) as [D _], (tx_codec tx' Hw') as [D' _].
  rewrite E in D. congruence.
Qed.

Lemma marshal_list_inj txs txs' : Forall tx_wf txs → Forall tx_wf txs' →
  map MarshalBinary txs = map MarshalBinary txs' → txs = txs'.
Proof.
  intros Hw. revert txs'. induction Hw as [|tx txs Ht Hw IH]; intros [|tx' txs'] Hw' E; try done.
  injection E as E1 E2. apply Forall_cons in Hw' as [Ht' Hw'].
  by rewrite (marshal_inj tx tx' Ht Ht' E1), (IH txs' Hw' E2).
Qed.

Lemma RootHash_derives txs : Transactions_RootHash txs = DeriveRoot (map MarshalBinary txs).
Proof. by destruct txs. Qed.

(** C28: the transactions root identifies the transactions of a block.
    [RootHash] of well-formed transactions is the hash of the trie of their
    canonical encodings under their RLP indices, and two lists with the same
    root are equal, in order and in length, unless two different node encodings
    of the two tries collide under blake2b. *)
Theorem transactions_root_identifies (txs txs' : list Transaction) :
  Forall tx_wf txs → Forall tx_wf txs' →
  list_fits (map MarshalBinary txs) → list_fits (map MarshalBinary txs') →
  ∃ t t', tree_of t (indexed 0 (map MarshalBinary txs) ∅) ∧
    tree_of t' (indexed 0 (map MarshalBinary txs') ∅) ∧
    Transactions_RootHash txs = Ok (thash t) ∧ Transactions_RootHash txs' = Ok (thash t') ∧
    (collision_free t t' → thash t = thash t' → txs = txs').
Proof.
  intros Hw Hw' Hf Hf'. rewrite !RootHash_derives.
  destruct (DeriveRoot_tree _ Hf) as (t & Ht & ->), (DeriveRoot_tree _ Hf') as (t' & Ht' & ->).
  exists t, t'. do 4 (split; [done|]). intros Hfree E. apply marshal_list_inj; [done|done|].
  apply indexed_inj; [apply Hf|apply Hf'|]. by apply (values_of_hash t t').
Qed.
End roots.

(** ** Instances *)

(** A prefix-free encoding with the laws of [DrlpSpec]: the length in unary. *)
Definition sized (b : bytes) : bytes := replicate (length b) 1 ++ 0 :: b.

Lemma sized_inj a b x y : sized a ++ x = sized b ++ y → a = b ∧ x = y.
Proof.
  unfold sized. intros E. assert (length a = length b) as El.
  { revert E. generalize a at 2, b at 2. generalize (length a) as n, (length b) as k.
    induction n as [|n IH]; intros [|k] a' b' E; simpl in E; try done. injection E as E. f_equal. by eapply IH. }
  rewrite El, <- !app_assoc in E. apply app_inv_head in E. injection E as E. by apply app_inj_1 in E.
Qed.

Definition demo_Drlp : Drlp := {|
  drlp_str b := 128 :: sized b;
  drlp_list b := 192 :: sized b;
  drlp_uint i := be 8 i;
|}.

Lemma demo_DrlpSpec : @DrlpSpec demo_Drlp.
Proof.
  split; simpl.
  - intros a b x y [= E]. by apply sized_inj.
  - intros a b x y [= E]. by apply sized_inj.
  - done.
  - intros i j Hi Hj. unfold is64, max64 in *. apply be_inj; simpl; lia.
  - intros i _. apply be_bytes.
  - intros i _. change (length (be 8 i) ≤ 9)%nat. rewrite be_length. lia.
Qed.

#[local] Existing Instances demo_Drlp demo_DrlpSpec demo_Rlp demo_RlpSpec demo_Crypto demo_CryptoSpec.

Lemma tree_of_leaf key v w : entry_ok key v w →
  tree_of (TShort (keybytesToHex key) (TValue v w)) {[key := (v, w)]}.
Proof.
  intros He. split.
  - right. apply ok_leaf, hex_term, He.
  - intros key'. rewrite tget_leaf. case_bool_decide as E.
    + apply hex_inj in E as ->. by rewrite lookup_singleton_eq.
    + rewrite lookup_singleton_ne by congruence. done.
  - intros k x. rewrite tget_leaf. case_bool_decide as E; [by exists key|done].
  - intros key' v' w' Hx. apply lookup_singleton_Some in Hx as [<- [= <- <-]]. done.
Qed.

Definition leafTree : tree := TShort (keybytesToHex [1; 2]) (TValue [3] [9]).
Definition leafRun : list op :=
  [OUpdate [1; 2] [3] [9]; OCommit (MkVersion 1 0); OUpdate [1; 2] [] []; OGet [1; 2];
   OOpen (thash leafTree) (MkVersion 1 0); OGet [1; 2]; OHash].

Lemma leaf_entry w : short_enough w → entry_ok [1; 2] [3] w.
Proof.
  intros Hw. split; [split; [repeat constructor; lia|simpl; lia]|]. split; [done|]. split; [|done].
  unfold short_enough, max64. simpl. lia.
Qed.

Lemma small_enough (b : bytes) : (length b < 10)%nat → short_enough b.
Proof. unfold short_enough, max64. lia. Qed.

Lemma leafRun_allowed : all_allowed false leafRun (MkSpec ∅ ∅).
Proof.
  assert (key_fits [1; 2]) as Hk by apply (leaf_entry [] (small_enough [] ltac:(simpl; lia))).
  split; [split; [done|split; apply small_enough; simpl; lia]|].
  split; [split; [split; vm_compute; split; discriminate || reflexivity|reflexivity]|].
  split; [split; [done|split; apply small_enough; simpl; lia]|]. split; [done|].
  split; [|by split].
  exists {[ [1; 2] := ([3], [9]) ]}. split; [reflexivity|]. unfold opens.
  rewrite bool_decide_false by (vm_compute; discriminate).
  split; [vm_compute; discriminate|]. split; [vm_compute; discriminate|]. intros _. exists leafTree.
  split; [|reflexivity]. apply tree_of_leaf, leaf_entry, small_enough. simpl. lia.
Qed.

Lemma trie_refines_map_witness :
  ∃ l T db, performs false leafRun (MkTrie Nil 0 0, ∅) = Ok (l, (T, db)) ∧
    all_answer leafRun (MkSpec ∅ ∅) l.
Proof. exact (trie_refines_map false leafRun leafRun_allowed). Defined.

Definition leafTrie (w : bytes) : Trie :=
  MkTrie (shortNode (keybytesToHex [1; 2]) (valueNode [3] w) (newFlag 0)) 0 0.

Lemma leafTrie_holds w : short_enough w → holds false ∅ (leafTrie w) {[ [1; 2] := ([3], w) ]}.
Proof.
  intros Hw. exists (TShort (keybytesToHex [1; 2]) (TValue [3] w)).
  split; [constructor; [constructor|apply new_flag_ok]|]. by apply tree_of_leaf, leaf_entry.
Qed.

(** Tries that differ in their metadata. *)
Lemma root_identifies_values_witness :
  ∃ h h' T T', trie_Hash (leafTrie [9]) = Ok (h, T) ∧ trie_Hash (leafTrie []) = Ok (h', T') ∧ h = h'.
Proof.
  destruct (root_identifies_values ∅ ∅ (leafTrie [9]) (leafTrie [])
    {[ [1; 2] := ([3], [9]) ]} {[ [1; 2] := ([3], []) ]}
    (leafTrie_holds [9] (small_enough [9] ltac:(simpl; lia)))
    (leafTrie_holds [] (small_enough [] ltac:(simpl; lia)))) as (h & h' & T & T' & E & E' & Hsame & _).
  exists h, h', T, T'. split; [exact E|]. split; [exact E'|]. apply Hsame. intros key.
  destruct (decide (key = [1; 2])) as [->|Hne]; [reflexivity|].
  rewrite !lookup_singleton_ne by congruence. reflexivity.
Defined.

Lemma demo_list_fits : list_fits (map MarshalBinary [demo_tx]).
Proof.
  split; [vm_compute; discriminate|]. constructor; [|constructor]. split; [vm_compute; discriminate|].
  vm_compute. reflexivity.
Qed.

Lemma no_list_fits : list_fits (map MarshalBinary []).
Proof. split; [vm_compute; discriminate|constructor]. Qed.

Lemma transactions_root_identifies_witness :
  ∃ t t', Transactions_RootHash [demo_tx] = Ok (thash t) ∧ Transactions_RootHash [] = Ok (thash t') ∧
    (collision_free t t' → thash t ≠ thash t').
Proof.
  destruct (transactions_root_identifies [demo_tx] [] (Forall_cons_2 _ _ _ demo_tx_wf (Forall_nil_2 _))
    (Forall_nil_2 _) demo_list_fits no_list_fits) as (t & t' & _ & _ & E & E' & Hinj).
  exists t, t'. split; [exact E|]. split; [exact E'|]. intros Hf Eh. discriminate (Hinj Hf Eh).
Defined.
