(* ===== verification/AccountState.v ===== *)
(** * Package state: accounts with revisions

    [src/state/state.go], [account.go], [cached_object.go], [stage.go] and
    [stater.go], over the stacked map.  A trie of the database is its contents,
    which is what its own operations promise, found by its name and version; the
    hash of a trie is a parameter.  The caches never forget an entry. *)

From S2P Require Import Prelude Bytes External Thor Block Trie StackedMap.

Abbreviation contents := (gmap (list Z) (list Z * list Z)).

(** ** What else the package calls

    The hash of code, and [rlp.Split], which finds whether an encoded value is a
    list, and the content of it. *)
Class StateEnv := {
  keccak256 : bytes → Bytes32;
  rlp_split : bytes → option (bool * bytes);
  (** the root hash of a trie with the given contents *)
  trieHash : contents → Bytes32;
}.

Section tries.
Context `{StateEnv} `{Crypto} `{Drlp}.

(** ** Tries of the database ([muxdb]) *)
Record MuxDB := MkMuxDB {
  mdTries : gmap (bytes * Version) contents;
  mdCodes : gmap bytes bytes;
}.

(** [mtRoot] is the hash the trie was opened with. *)
Record MTrie := MkMTrie { mtName : bytes; mtRoot : Bytes32; mtContents : result contents }.

Definition AccountTrieName : bytes := [97].
Definition StorageTrieNamePrefix : bytes := [115].

Definition NewTrie (db : MuxDB) (name : bytes) (h : Bytes32) (ver : Version) : MTrie :=
  MkMTrie name h
    (if (h =? from_be emptyRoot) || (h =? 0) then Ok ∅
     else match mdTries db !! (name, ver) with Some m => Ok m | None => Err errMissing end).

Definition mt_Get (t : MTrie) (key : bytes) : result (bytes * bytes) :=
  m ← mtContents t; Ok (default ([], []) (m !! key)).
Definition mt_Update (t : MTrie) (key val meta : bytes) : result MTrie :=
  m ← mtContents t;
  Ok (MkMTrie (mtName t) (mtRoot t)
       (Ok (if (length val =? 0)%nat then delete key m else <[key := (val, meta)]> m))).
Definition mt_Hash (t : MTrie) : Bytes32 :=
  match mtContents t with Ok m => trieHash m | Err _ => mtRoot t end.
(** An empty trie has no node to write. *)
Definition mt_Commit (t : MTrie) (newVer : Version) : M MuxDB unit := λ db,
  m ← mtContents t;
  Ok (tt, if bool_decide (m = ∅) then db
          else MkMuxDB (<[(mtName t, newVer) := m]> (mdTries db)) (mdCodes db)).
End tries.

(** ** Accounts *)
Record AccountMetadata := MkMetadata { StorageID : bytes; StorageMajorVer : Z; StorageMinorVer : Z }.
Definition metadata0 : AccountMetadata := MkMetadata [] 0 0.

Record Account := MkAccount {
  Balance : Z;
  Energy : Z;
  BlockTime : Z;
  Master : bytes;
  CodeHash : bytes;
  StorageRoot : bytes;
}.
#[export] Instance eta_Account : Eta Account := λ a,
  MkAccount (Balance a) (Energy a) (BlockTime a) (Master a) (CodeHash a) (StorageRoot a).

Definition Account_IsEmpty (a : Account) : bool :=
  (Balance a =? 0) && (Energy a =? 0) && (length (Master a) =? 0)%nat && (length (CodeHash a) =? 0)%nat.

Definition bigE18 : Z := 10 ^ 18.

Definition CalcEnergy (a : Account) (blockTime stopTime : Z) : Z :=
  if BlockTime a =? 0 then Energy a else
  if Balance a =? 0 then Energy a else
  if blockTime <=? BlockTime a then Energy a else
  let growth :=
    if BlockTime a <? stopTime then
      let timeDiff := if blockTime <=? stopTime then blockTime -u64 BlockTime a else stopTime -u64 BlockTime a in
      timeDiff * Balance a * EnergyGrowthRate / bigE18
    else 0 in
  Energy a + growth.

Definition emptyAccount : Account := MkAccount 0 0 0 [] [] [].

(** ** Keys and values of the stacked map *)
Inductive skey :=
  | accountKey (addr : Address)
  | codeKey (addr : Address)
  | storageKey (addr : Address) (barrier : Z) (key : Bytes32)
  | storageBarrierKey (addr : Address).
#[export] Instance skey_eq_dec : EqDecision skey.
Proof. solve_decision. Defined.
#[export] Instance skey_countable : Countable skey.
Proof.
  refine (inj_countable'
    (λ k, match k with
          | accountKey a => (0, a, 0, 0) | codeKey a => (1, a, 0, 0)
          | storageKey a b k => (2, a, b, k) | storageBarrierKey a => (3, a, 0, 0)
          end : Z * Z * Z * Z)
    (λ p, match p with
          | (0, a, _, _) => accountKey a | (1, a, _, _) => codeKey a
          | (2, a, b, k) => storageKey a b k | (_, a, _, _) => storageBarrierKey a
          end) _). by intros [].
Defined.

Inductive sval := VAccount (a : Account) | VCode (code : bytes) | VRaw (raw : bytes) | VInt (z : Z).

(** The type assertions on values. *)
Definition as_account (v : sval) : result Account :=
  match v with VAccount a => Ok a | _ => Err (ErrPanic "interface conversion") end.
Definition as_bytes (v : sval) : result bytes :=
  match v with VCode b | VRaw b => Ok b | _ => Err (ErrPanic "interface conversion") end.
Definition as_int (v : sval) : result Z :=
  match v with VInt z => Ok z | _ => Err (ErrPanic "interface conversion") end.

(** An account read from the trie, with what was read of it. *)
Record cachedObject := MkObject {
  coData : Account;
  coMeta : AccountMetadata;
  coCode : bytes;
  coTrie : option MTrie;
  coStorage : gmap Bytes32 bytes;
}.
#[export] Instance eta_cachedObject : Eta cachedObject := λ o,
  MkObject (coData o) (coMeta o) (coCode o) (coTrie o) (coStorage o).
Definition newCachedObject (data : Account) (meta : AccountMetadata) : cachedObject :=
  MkObject data meta [] None ∅.

(** [codeCache], the cache of code by its hash, is one for all states. *)
Record State := MkState {
  stTrie : MTrie;
  stCache : gmap Address cachedObject;
  stMap : StackedMap skey sval;
  codeCache : gmap bytes bytes;
}.
#[export] Instance eta_State : Eta State := λ s, MkState (stTrie s) (stCache s) (stMap s) (codeCache s).

Definition StorageTrieName (sid : bytes) : result bytes :=
  if (length sid =? 0)%nat then Err (ErrPanic "empty storage id") else Ok (StorageTrieNamePrefix ++ sid).

(** [bytes.TrimLeft(b, "\x00")] *)
Fixpoint trimZeros (b : bytes) : bytes :=
  match b with [] => [] | x :: b' => if x =? 0 then trimZeros b' else b end.

(** [thor.BytesToAddress] and [thor.BytesToBytes32] keep the last bytes. *)
Definition BytesToAddress (b : bytes) : Address := from_be (drop (length b - 20) b).
Definition BytesToBytes32 (b : bytes) : Bytes32 := from_be (drop (length b - 32) b).

(** [&Error{err}] *)
Definition stateError (e : error) : error :=
  match e with ErrInternal msg => ErrInternal ("state: " +:+ msg) | e => e end.

Section state.
Context `{Rlp} `{Crypto} `{Drlp} `{StateEnv}.

(** ** Accounts in tries *)
Definition secureKey (k : bytes) : bytes := blakeBytes k.

Definition Account_item (a : Account) : item :=
  rlp_list [rlp_num (Balance a); rlp_num (Energy a); rlp_num (BlockTime a);
            rlp_str (Master a); rlp_str (CodeHash a); rlp_str (StorageRoot a)].
Definition Account_of (i : item) : option Account :=
  fields ← list_of i;
  match fields with
  | [r0; r1; r2; r3; r4; r5] =>
      balance ← num_of r0; energy ← num_of r1; blockTime ← uint_of 64 r2;
      master ← str_of r3; codeHash ← str_of r4; storageRoot ← str_of r5;
      Some (MkAccount balance energy blockTime master codeHash storageRoot)
  | _ => None
  end.
Definition Metadata_item (m : AccountMetadata) : item :=
  rlp_list [rlp_str (StorageID m); rlp_num (StorageMajorVer m); rlp_num (StorageMinorVer m)].
Definition Metadata_of (i : item) : option AccountMetadata :=
  fields ← list_of i;
  match fields with
  | [r0; r1; r2] =>
      sid ← str_of r0; major ← uint_of 32 r1; minor ← uint_of 32 r2; Some (MkMetadata sid major minor)
  | _ => None
  end.

Definition decoded {A} (o : option A) : result A :=
  match o with Some a => Ok a | None => Err (ErrInternal "rlp") end.

Definition loadAccount (trie : MTrie) (addr : Address) : result (Account * AccountMetadata) :=
  '(data, meta) ← mt_Get trie (secureKey (be 20 addr));
  if (length data =? 0)%nat then Ok (emptyAccount, metadata0) else
  a ← decoded (rlp_parse data ≫= Account_of);
  if (0 <? length meta)%nat then am ← decoded (rlp_parse meta ≫= Metadata_of); Ok (a, am)
  else Ok (a, metadata0).

(** Encoding fails on a negative number. *)
Definition saveAccount (trie : MTrie) (addr : Address) (a : Account) (am : AccountMetadata) : result MTrie :=
  if Account_IsEmpty a then mt_Update trie (secureKey (be 20 addr)) [] [] else
  if (Balance a <? 0) || (Energy a <? 0) then Err (ErrInternal "rlp: cannot encode negative *big.Int") else
  let data := rlp_bytes (Account_item a) in
  let mdata := if (0 <? length (StorageRoot a))%nat then rlp_bytes (Metadata_item am) else [] in
  mt_Update trie (secureKey (be 20 addr)) data mdata.

Definition loadStorage (trie : MTrie) (key : Bytes32) : result bytes :=
  '(v, _) ← mt_Get trie (secureKey (be 32 key)); Ok v.
Definition saveStorage (trie : MTrie) (key : Bytes32) (data : bytes) : result MTrie :=
  mt_Update trie (secureKey (be 32 key)) data (trimZeros (be 32 key)).

(** ** Cached objects *)
Section db.
Variable db : MuxDB.

Definition openStorage (sid : bytes) (h : Bytes32) (ver : Version) : result MTrie :=
  name ← StorageTrieName sid; Ok (NewTrie db name h ver).

Definition storageVer (m : AccountMetadata) : Version := MkVersion (StorageMajorVer m) (StorageMinorVer m).

Definition getOrCreateStorageTrie : M cachedObject (option MTrie) :=
  o ← gets coTrie;
  match o with
  | Some t => mret (Some t)
  | None =>
      data ← gets coData;
      if (length (StorageRoot data) =? 0)%nat then mret None else
      meta ← gets coMeta;
      t ← lift (openStorage (StorageID meta) (BytesToBytes32 (StorageRoot data)) (storageVer meta));
      modify (λ co, co <| coTrie := Some t |>);;
      mret (Some t)
  end.

Definition co_GetStorage (key : Bytes32) : M cachedObject bytes :=
  cached ← gets coStorage;
  match cached !! key with
  | Some v => mret v
  | None =>
      t ← getOrCreateStorageTrie;
      match t with
      | None => mret []
      | Some t =>
          v ← lift (loadStorage t key);
          modify (λ co, co <| coStorage := <[key := v]> (coStorage co) |>);;
          mret v
      end
  end.

(** The object's code and the cache of code. *)
Definition co_GetCode : M (cachedObject * gmap bytes bytes) bytes :=
  co ← gets fst;
  if (0 <? length (coCode co))%nat then mret (coCode co) else
  if (0 <? length (CodeHash (coData co)))%nat then
    codes ← gets snd;
    match codes !! CodeHash (coData co) with
    | Some code => mret code
    | None =>
        match mdCodes db !! CodeHash (coData co) with
        | None => fail (ErrInternal "not found")
        | Some code =>
            modify (λ _, (co <| coCode := code |>, <[CodeHash (coData co) := code]> codes));;
            mret code
        end
    end
  else mret [].

(** ** The state *)
Definition NewState (h : Bytes32) (ver : Version) (codes : gmap bytes bytes) : State :=
  MkState (NewTrie db AccountTrieName h ver) ∅ sm_New codes.
Definition Checkout (h : Bytes32) (ver : Version) (s : State) : State := NewState h ver (codeCache s).

Definition getCachedObject (addr : Address) : M State cachedObject :=
  cache ← gets stCache;
  match cache !! addr with
  | Some co => mret co
  | None =>
      trie ← gets stTrie;
      '(a, am) ← lift (loadAccount trie addr);
      let co := newCachedObject a am in
      modify (λ s, s <| stCache := <[addr := co]> (stCache s) |>);;
      mret co
  end.

Definition cacheGetter (key : skey) : M State sval :=
  match key with
  | accountKey addr =>
      obj ← getCachedObject addr; mret (VAccount (coData obj))
  | codeKey addr =>
      obj ← getCachedObject addr;
      codes ← gets codeCache;
      '(code, (obj, codes)) ← lift (co_GetCode (obj, codes));
      modify (λ s, s <| stCache := <[addr := obj]> (stCache s) |> <| codeCache := codes |>);;
      mret (VCode code)
  | storageKey addr barrier key =>
      if negb (barrier =? 0) then mret (VRaw []) else
      obj ← getCachedObject addr;
      '(v, obj) ← lift (co_GetStorage key obj);
      modify (λ s, s <| stCache := <[addr := obj]> (stCache s) |>);;
      mret (VRaw v)
  | storageBarrierKey _ => mret (VInt 0)
  end.

(** [sm.Get] and [sm.Put] *)
Definition smGet (key : skey) : M State sval :=
  sm ← gets stMap;
  o ← lift (sm_Get key sm);
  match o with Some v => mret v | None => cacheGetter key end.
Definition smPut (key : skey) (value : sval) : M State unit :=
  sm ← gets stMap;
  sm ← lift (Put key value sm);
  modify (λ s, s <| stMap := sm |>).

Definition getAccount (addr : Address) : M State Account :=
  v ← smGet (accountKey addr); lift (as_account v).
Definition getAccountCopy (addr : Address) : M State Account := getAccount addr.
Definition updateAccount (addr : Address) (acc : Account) : M State unit := smPut (accountKey addr) (VAccount acc).

Definition getStorageBarrier (addr : Address) : M State Z :=
  v ← smGet (storageBarrierKey addr); lift (as_int v).
Definition setStorageBarrier (addr : Address) (barrier : Z) : M State unit :=
  smPut (storageBarrierKey addr) (VInt barrier).

Definition GetBalance (addr : Address) : M State Z :=
  acc ← map_err stateError (getAccount addr); mret (Balance acc).
Definition SetBalance (addr : Address) (balance : Z) : M State unit :=
  cpy ← map_err stateError (getAccountCopy addr);
  updateAccount addr (cpy <| Balance := balance |>).

Definition GetEnergy (addr : Address) (blockTime stopTime : Z) : M State Z :=
  acc ← map_err stateError (getAccount addr); mret (CalcEnergy acc blockTime stopTime).
Definition SetEnergy (addr : Address) (energy blockTime : Z) : M State unit :=
  cpy ← map_err stateError (getAccountCopy addr);
  updateAccount addr (cpy <| Energy := energy |> <| BlockTime := blockTime |>).

Definition GetMaster (addr : Address) : M State Address :=
  acc ← map_err stateError (getAccount addr); mret (BytesToAddress (Master acc)).
Definition SetMaster (addr master : Address) : M State unit :=
  cpy ← map_err stateError (getAccountCopy addr);
  updateAccount addr (cpy <| Master := if IsZero master then [] else be 20 master |>).

Definition GetRawStorage (addr : Address) (key : Bytes32) : M State bytes :=
  barrier ← getStorageBarrier addr;
  data ← map_err stateError (smGet (storageKey addr barrier key));
  lift (as_bytes data).
Definition SetRawStorage (addr : Address) (key : Bytes32) (raw : bytes) : M State unit :=
  barrier ← getStorageBarrier addr;
  smPut (storageKey addr barrier key) (VRaw raw).

Definition GetStorage (addr : Address) (key : Bytes32) : M State Bytes32 :=
  raw ← map_err stateError (GetRawStorage addr key);
  if (length raw =? 0)%nat then mret 0 else
  match rlp_split raw with
  | None => fail (stateError (ErrInternal "rlp"))
  | Some (isList, content) =>
      if isList : bool then mret (blake2b raw) else mret (BytesToBytes32 content)
  end.
Definition SetStorage (addr : Address) (key value : Bytes32) : M State unit :=
  if value =? 0 then SetRawStorage addr key []
  else SetRawStorage addr key (rlp_bytes (rlp_str (trimZeros (be 32 value)))).

Definition EncodeStorage (addr : Address) (key : Bytes32) (enc : result bytes) : M State unit :=
  raw ← map_err stateError (lift enc);
  SetRawStorage addr key raw.
Definition DecodeStorage {A} (addr : Address) (key : Bytes32) (dec : bytes → result A) : M State A :=
  raw ← map_err stateError (GetRawStorage addr key);
  map_err stateError (lift (dec raw)).

Definition GetCode (addr : Address) : M State bytes :=
  v ← map_err stateError (smGet (codeKey addr)); lift (as_bytes v).
Definition GetCodeHash (addr : Address) : M State Bytes32 :=
  acc ← map_err stateError (getAccount addr); mret (BytesToBytes32 (CodeHash acc)).
Definition SetCode (addr : Address) (code : bytes) : M State unit :=
  codeHash ← (if (0 <? length code)%nat then
                smPut (codeKey addr) (VCode code);;
                let h := be 32 (keccak256 code) in
                modify (λ s, s <| codeCache := <[h := code]> (codeCache s) |>);;
                mret h
              else smPut (codeKey addr) (VCode []);; mret []);
  cpy ← map_err stateError (getAccountCopy addr);
  updateAccount addr (cpy <| CodeHash := codeHash |>).

Definition Exists (addr : Address) : M State bool :=
  acc ← map_err stateError (getAccount addr); mret (negb (Account_IsEmpty acc)).
Definition Delete (addr : Address) : M State unit :=
  smPut (codeKey addr) (VCode []);;
  updateAccount addr emptyAccount;;
  barrier ← getStorageBarrier addr;
  setStorageBarrier addr (barrier + 1).

Definition NewCheckpoint : M State nat := λ s,
  let '(rev, sm) := Push (stMap s) in Ok (rev, s <| stMap := sm |>).
Definition RevertTo (revision : nat) : M State unit :=
  sm ← gets stMap;
  sm ← lift (PopTo revision sm);
  modify (λ s, s <| stMap := sm |>).

(** One journal entry of [BuildStorageTrie]. *)
Definition storageEntry (addr : Address) (barrier : Z) (t : MTrie) (kv : skey * sval) : result MTrie :=
  match kv with
  | (storageKey a b key, v) =>
      if (b =? barrier) && (a =? addr) then raw ← as_bytes v; saveStorage t key raw else Ok t
  | _ => Ok t
  end.

Fixpoint foldR {A B} (f : B → A → result B) (b : B) (l : list A) : result B :=
  match l with [] => Ok b | a :: l => b ← f b a; foldR f b l end.

Definition BuildStorageTrie (addr : Address) : M State MTrie :=
  obj ← map_err stateError (getCachedObject addr);
  t ← (if (0 <? length (StorageRoot (coData obj)))%nat then
         lift (openStorage (StorageID (coMeta obj)) (BytesToBytes32 (StorageRoot (coData obj))) (storageVer (coMeta obj)))
       else mret (NewTrie db [] 0 (MkVersion 0 0)));
  barrier ← getStorageBarrier addr;
  sm ← gets stMap;
  map_err stateError (lift (foldR (storageEntry addr barrier) t (Journal sm))).

(** ** Staging *)
Record changed := MkChanged {
  chData : Account;
  chMeta : AccountMetadata;
  chStorage : gmap Bytes32 bytes;
  chBase : option MTrie;
}.
#[export] Instance eta_changed : Eta changed := λ c, MkChanged (chData c) (chMeta c) (chStorage c) (chBase c).

(** The variables of [Stage]. *)
Record staging := MkStaging {
  sgChanges : gmap Address changed;
  sgCodes : gmap Bytes32 bytes;
  sgCount : Z;
}.
#[export] Instance eta_staging : Eta staging := λ g, MkStaging (sgChanges g) (sgCodes g) (sgCount g).

(** The result of [Stage]: the root, and what its commit function captures. *)
Record Stage := MkStage {
  sgRoot : Bytes32;
  sgCommitCodes : gmap Bytes32 bytes;
  sgTries : list MTrie;
  sgNewVer : Version;
}.

Definition getChanged (addr : Address) (g : staging) : M State changed :=
  match sgChanges g !! addr with
  | Some c => mret c
  | None =>
      co ← map_err stateError (getCachedObject addr);
      mret (MkChanged (coData co) (coMeta co) ∅ (coTrie co))
  end.

Definition newStorageID (newVer : Version) (count : Z) : bytes :=
  be 4 (Major newVer) ++ uvarint (Minor newVer) ++ uvarint count.

Definition stageEntry (newVer : Version) (g : staging) (kv : skey * sval) : M State staging :=
  match kv with
  | (accountKey addr, v) =>
      c ← getChanged addr g;
      a ← lift (as_account v);
      mret (g <| sgChanges := <[addr := c <| chData := a |>]> (sgChanges g) |>)
  | (codeKey _, v) =>
      code ← lift (as_bytes v);
      mret (if (0 <? length code)%nat then g <| sgCodes := <[keccak256 code := code]> (sgCodes g) |> else g)
  | (storageKey addr _ key, v) =>
      c ← getChanged addr g;
      raw ← lift (as_bytes v);
      let c := c <| chStorage := <[key := raw]> (chStorage c) |> in
      if (length (StorageID (chMeta c)) =? 0)%nat then
        let meta := MkMetadata (newStorageID newVer (sgCount g)) (StorageMajorVer (chMeta c)) (StorageMinorVer (chMeta c)) in
        mret (g <| sgChanges := <[addr := c <| chMeta := meta |>]> (sgChanges g) |>
                <| sgCount := sgCount g +u64 1 |>)
      else mret (g <| sgChanges := <[addr := c]> (sgChanges g) |>)
  | (storageBarrierKey addr, v) =>
      c ← getChanged addr g;
      mret (g <| sgChanges := <[addr := MkChanged (chData c) metadata0 ∅ None]> (sgChanges g) |>)
  end.

(** The maps are visited in an arbitrary order. *)
Definition stageAccount (newVer : Version) (acc : MTrie * list MTrie) (ac : Address * changed)
    : result (MTrie * list MTrie) :=
  let '(trieCpy, tries) := acc in
  let '(addr, c) := ac in
  if negb (Account_IsEmpty (chData c)) && (0 <? size (chStorage c))%nat then
    sTrie ← (if chBase c is Some t then Ok t
             else openStorage (StorageID (chMeta c)) (BytesToBytes32 (StorageRoot (chData c))) (storageVer (chMeta c)));
    sTrie ← foldR (λ t kv, saveStorage t kv.1 kv.2) sTrie (map_to_list (chStorage c));
    let data := (chData c) <| StorageRoot := be 32 (mt_Hash sTrie) |> in
    let meta := MkMetadata (StorageID (chMeta c)) (Major newVer) (Minor newVer) in
    trieCpy ← saveAccount trieCpy addr data meta;
    Ok (trieCpy, tries ++ [sTrie])
  else
    trieCpy ← saveAccount trieCpy addr (chData c) (chMeta c);
    Ok (trieCpy, tries).

Definition state_Stage (newVer : Version) : M State Stage :=
  sm ← gets stMap;
  g ← map_err stateError (foldM (stageEntry newVer) (MkStaging ∅ ∅ 0) (Journal sm));
  trie ← gets stTrie;
  '(trieCpy, tries) ← map_err stateError (lift (foldR (stageAccount newVer) (trie, []) (map_to_list (sgChanges g))));
  mret (MkStage (mt_Hash trieCpy) (sgCodes g) (tries ++ [trieCpy]) newVer).
End db.

Definition Stage_Hash (st : Stage) : Bytes32 := sgRoot st.

Definition putCode (db : MuxDB) (hc : Bytes32 * bytes) : MuxDB :=
  MkMuxDB (mdTries db) (<[be 32 hc.1 := hc.2]> (mdCodes db)).

Definition Stage_Commit (st : Stage) : M MuxDB Bytes32 :=
  modify (λ db, foldl putCode db (map_to_list (sgCommitCodes st)));;
  foldM (λ _ t, map_err stateError (mt_Commit t (sgNewVer st))) tt (sgTries st);;
  mret (Stage_Hash st).
End state.
