(* ===== verification/StateSpec.v ===== *)
(** * The state as a stack of worlds

    What [src/state] promises: a world gives every address its account, code and
    storage; the operations write to the topmost world, a checkpoint copies it
    and reverting drops worlds.  A world is read off a journal over the base
    that the database has. *)

From S2P Require Import Prelude Bytes External Thor Block BlockCorrect Trie StackedMap AccountState.

Definition is160 (a : Z) : Prop := 0 ≤ a < 2 ^ 160.

(** What the state relies on.  The hash of code is injective on the code that
    occurs, which [isCode] describes. *)
Class StateEnvSpec `{Rlp} `{Crypto} `{Drlp} `{StateEnv} (isCode : bytes → Prop) : Prop := {
  keccak_range : ∀ c, is256 (keccak256 c);
  isCode_nil : isCode [];
  keccak_inj : ∀ c c', isCode c → isCode c' → keccak256 c = keccak256 c' → c = c';
  address_hash_inj : ∀ a b, is160 a → is160 b → blake2b (be 20 a) = blake2b (be 20 b) → a = b;
  slot_hash_inj : ∀ a b, is256 a → is256 b → blake2b (be 32 a) = blake2b (be 32 b) → a = b;
  rlp_bytes_nonempty : ∀ i, rlp_bytes i ≠ [];
  rlp_split_str : ∀ b, rlp_split (rlp_bytes (rlp_str b)) = Some (false, b);
  rlp_split_list : ∀ l, ∃ b, rlp_split (rlp_bytes (rlp_list l)) = Some (true, b);
  trieHash_range : ∀ m, is256 (trieHash m);
  trieHash_nonzero : ∀ m, trieHash m ≠ 0;
  trieHash_empty : ∀ m, trieHash m = from_be emptyRoot ↔ m = ∅;
}.

Abbreviation jrnl := (list (skey * sval)).

(** ** Worlds *)
Record world := MkWorld {
  acct : Address → Account;
  code : Address → bytes;
  slot : Address → Bytes32 → bytes;
}.

Definition upd {A} (a : Z) (x : A) (f : Z → A) : Z → A := λ b, if b =? a then x else f b.
Lemma upd_eq {A} a (x : A) f : upd a x f a = x.
Proof. unfold upd. by rewrite Z.eqb_refl. Qed.
Lemma upd_ne {A} a b (x : A) f : b ≠ a → upd a x f b = f b.
Proof. unfold upd. intros. by rewrite (proj2 (Z.eqb_neq b a)). Qed.

Definition w_account (a : Address) (v : Account) (w : world) : world :=
  MkWorld (upd a v (acct w)) (code w) (slot w).
Definition w_code (a : Address) (c : bytes) (w : world) : world :=
  MkWorld (acct w) (upd a c (code w)) (slot w).
Definition w_slot (a : Address) (k : Bytes32) (raw : bytes) (w : world) : world :=
  MkWorld (acct w) (code w) (upd a (upd k raw (slot w a)) (slot w)).
Definition w_delete (a : Address) (w : world) : world :=
  MkWorld (upd a emptyAccount (acct w)) (upd a [] (code w)) (upd a (λ _, []) (slot w)).

(** Worlds that cannot be told apart. *)
Record same (w w' : world) : Prop := {
  same_acct : ∀ a, acct w a = acct w' a;
  same_code : ∀ a, code w a = code w' a;
  same_slot : ∀ a k, slot w a k = slot w' a k;
}.
#[export] Instance same_equivalence : Equivalence same.
Proof.
  split.
  - by intros w.
  - intros w w' []. by split.
  - intros w1 w2 w3 [] []. split; intros; etrans; eauto.
Qed.

Section spec.
Context `{HRlp : Rlp} `{HCrypto : Crypto} `{HDrlp : Drlp} `{HEnv : StateEnv}.
Context {isCode : bytes → Prop} `{!StateEnvSpec isCode}.

Definition codeHashOf (c : bytes) : bytes := if (0 <? length c)%nat then be 32 (keccak256 c) else [].

(** ** The base

    [loaded]: the world that a trie of the database holds, with the metadata of
    each account. *)
Section base.
Variable db : MuxDB.

Definition openedStorage (a : Account) (am : AccountMetadata) : result MTrie :=
  openStorage db (StorageID am) (BytesToBytes32 (StorageRoot a)) (storageVer am).

Record loaded_at (trie : MTrie) (addr : Address) (a : Account) (am : AccountMetadata) (c : bytes)
    (st : Bytes32 → bytes) : Prop := {
  at_account : loadAccount trie addr = Ok (a, am);
  at_codeHash : CodeHash a = codeHashOf c;
  at_isCode : isCode c;
  at_code : c ≠ [] → mdCodes db !! codeHashOf c = Some c;
  at_noMeta : StorageRoot a = [] → am = metadata0;
  at_noStorage : StorageRoot a = [] → ∀ k, is256 k → st k = [];
  at_storage : StorageRoot a ≠ [] → ∃ t m, openedStorage a am = Ok t ∧ mtContents t = Ok m ∧
    ∀ k, is256 k → st k = (default ([], []) (m !! secureKey (be 32 k))).1;
}.

Definition loaded (trie : MTrie) (w : world) (metaOf : Address → AccountMetadata) : Prop :=
  ∀ a, is160 a → loaded_at trie a (acct w a) (metaOf a) (code w a) (slot w a).

Variable trie0 : MTrie.
Variable w0 : world.
Variable metaOf : Address → AccountMetadata.
Hypothesis Hbase : loaded trie0 w0 metaOf.

(** The invariant of the caches. *)
Record object_ok (addr : Address) (co : cachedObject) : Prop := {
  object_data : coData co = acct w0 addr;
  object_meta : coMeta co = metaOf addr;
  object_code : coCode co = [] ∨ coCode co = code w0 addr;
  object_trie : ∀ t, coTrie co = Some t → StorageRoot (acct w0 addr) ≠ [] ∧
    openedStorage (acct w0 addr) (metaOf addr) = Ok t;
  object_storage : ∀ k v, is256 k → coStorage co !! k = Some v → v = slot w0 addr k;
}.

Record caches_ok (s : State) : Prop := {
  caches_trie : stTrie s = trie0;
  caches_objects : ∀ addr co, is160 addr → stCache s !! addr = Some co → object_ok addr co;
  caches_codes : ∀ h c, codeCache s !! h = Some c → c ≠ [] ∧ isCode c ∧ h = codeHashOf c;
}.

(** [reads]: a read leaves the map alone and keeps the invariant. *)
Definition reads {A} (m : M State A) (s : State) (v : A) : Prop :=
  ∃ s', m s = Ok (v, s') ∧ stMap s' = stMap s ∧ caches_ok s'.

Lemma codeHashOf_length c : (0 <? length (codeHashOf c))%nat = (0 <? length c)%nat.
Proof. unfold codeHashOf. destruct c as [|x c]; [done|]. cbn -[be]. by rewrite be_length. Qed.

Lemma codeHashOf_inj c c' : isCode c → isCode c' → codeHashOf c = codeHashOf c' → c = c'.
Proof.
  intros Hc Hc' E. pose proof (f_equal length E) as El. unfold codeHashOf in *.
  destruct c as [|x c], c' as [|x' c']; cbn -[be] in *; rewrite ?be_length in El; try done.
  apply be_inj in E; [by apply keccak_inj|..]; apply keccak_range.
Qed.

Lemma getCachedObject_ok addr s : is160 addr → caches_ok s →
  ∃ co s', getCachedObject addr s = Ok (co, s') ∧ object_ok addr co ∧ stMap s' = stMap s ∧
    codeCache s' = codeCache s ∧ caches_ok s'.
Proof.
  intros Ha Hs. pose proof Hs as [Ht Ho Hc]. unfold getCachedObject, gets, mbind, M_bind.
  destruct (stCache s !! addr) as [co|] eqn:E; [exists co, s; by eauto 7|].
  unfold lift. rewrite Ht, (at_account _ _ _ _ _ _ (Hbase addr Ha)). eexists _, _. split; [done|].
  assert (object_ok addr (newCachedObject (acct w0 addr) (metaOf addr))) as Hok by (split; naive_solver).
  split; [done|]. split; [done|]. split; [done|]. split; [done| |done].
  intros addr' co'. simpl. intros Ha' [[-> <-]|[_ ?]]%lookup_insert_Some; eauto.
Qed.

Lemma co_GetStorage_ok addr co k : is160 addr → is256 k → object_ok addr co →
  ∃ co', co_GetStorage db k co = Ok (slot w0 addr k, co') ∧ object_ok addr co'.
Proof.
  intros Ha Hk Hco. pose proof (Hbase addr Ha) as [_ _ _ _ _ Hno Hst].
  unfold co_GetStorage, getOrCreateStorageTrie, gets, lift, modify, mbind, M_bind, mret, M_ret.
  destruct (coStorage co !! k) as [v|] eqn:E.
  { exists co. split; [|done]. by rewrite (object_storage _ _ Hco k v Hk E). }
  assert (∀ t co1, object_ok addr co1 → StorageRoot (acct w0 addr) ≠ [] →
    openedStorage (acct w0 addr) (metaOf addr) = Ok t →
    loadStorage t k = Ok (slot w0 addr k) ∧
    object_ok addr (co1 <| coStorage := <[k := slot w0 addr k]> (coStorage co1) |>)) as Hload.
  { intros t co1 Hco1 Hroot Et. destruct (Hst Hroot) as (t' & m & Et' & Em & Hm).
    assert (t' = t) as -> by congruence. split.
    - unfold loadStorage, mt_Get. rewrite Em. cbn [mbind result_bind]. rewrite Hm by done.
      by destruct (default ([], []) _).
    - destruct Hco1 as [? ? ? ? Hs]. split; try done. simpl.
      intros k' v Hk' [[-> <-]|[_ ?]]%lookup_insert_Some; eauto. }
  destruct (coTrie co) as [t|] eqn:Et.
  { destruct (object_trie _ _ Hco t Et) as [Hroot Ho]. destruct (Hload t co Hco Hroot Ho) as [-> Hco']. by eauto. }
  rewrite (object_data _ _ Hco). destruct (Nat.eqb_spec (length (StorageRoot (acct w0 addr))) 0) as [El|El].
  { exists co. apply nil_length_inv in El. by rewrite (Hno El) by done. }
  assert (StorageRoot (acct w0 addr) ≠ []) as Hroot by (intros E0; rewrite E0 in El; done).
  destruct (Hst Hroot) as (t & m & Eo & _). unfold openedStorage in Eo. rewrite (object_meta _ _ Hco), Eo.
  destruct (Hload t (co <| coTrie := Some t |>)) as [-> Hco']; [|done..|by eauto].
  destruct Hco as [? ? ? ? ?]. split; try done. simpl. intros t' [= <-]. done.
Qed.

Lemma co_GetCode_ok addr co codes : is160 addr → object_ok addr co →
  (∀ h c, codes !! h = Some c → c ≠ [] ∧ isCode c ∧ h = codeHashOf c) →
  ∃ co' codes', co_GetCode db (co, codes) = Ok (code w0 addr, (co', codes')) ∧ object_ok addr co' ∧
    (∀ h c, codes' !! h = Some c → c ≠ [] ∧ isCode c ∧ h = codeHashOf c).
Proof.
  intros Ha Hco Hcodes. pose proof (Hbase addr Ha) as [_ Hh Hic Hc _ _ _].
  unfold co_GetCode, gets, modify, mbind, M_bind, mret, M_ret, fail. simpl.
  rewrite (object_data _ _ Hco), Hh, codeHashOf_length.
  destruct (Nat.ltb_spec 0 (length (coCode co))) as [Hl|Hl].
  { exists co, codes. destruct (object_code _ _ Hco) as [E|<-]; [rewrite E in Hl; simpl in Hl; lia|done]. }
  destruct (Nat.ltb_spec 0 (length (code w0 addr))) as [Hl'|Hl'].
  2: { exists co, codes. assert (code w0 addr = []) as -> by (apply nil_length_inv; lia). done. }
  assert (code w0 addr ≠ []) as Hne by (intros E; rewrite E in Hl'; simpl in Hl'; lia).
  cbn [snd]. destruct (codes !! codeHashOf (code w0 addr)) as [c|] eqn:E.
  - destruct (Hcodes _ _ E) as (_ & Hic' & Ehash). apply codeHashOf_inj in Ehash as Ec; [|done..].
    rewrite Ec. by exists co, codes.
  - rewrite (Hc Hne). eexists _, _. split; [done|]. split.
    + destruct Hco. split; try done. by right.
    + intros h c. intros [[<- <-]|[_ ?]]%lookup_insert_Some; eauto.
Qed.

(** The base value of each key. *)
Definition baseVal (key : skey) : sval :=
  match key with
  | accountKey a => VAccount (acct w0 a)
  | codeKey a => VCode (code w0 a)
  | storageKey a b k => VRaw (if b =? 0 then slot w0 a k else [])
  | storageBarrierKey _ => VInt 0
  end.

Definition key_ok (key : skey) : Prop :=
  match key with
  | accountKey a | codeKey a | storageBarrierKey a => is160 a
  | storageKey a _ k => is160 a ∧ is256 k
  end.

Lemma caches_update addr co codes s : caches_ok s → object_ok addr co →
  (∀ h c, codes !! h = Some c → c ≠ [] ∧ isCode c ∧ h = codeHashOf c) →
  caches_ok (s <| stCache := <[addr := co]> (stCache s) |> <| codeCache := codes |>).
Proof.
  intros [? Ho ?] Hco ?. split; [done| |done]. simpl. intros a co' Ha.
  intros [[<- <-]|[_ ?]]%lookup_insert_Some; eauto.
Qed.

Lemma cacheGetter_ok key s : key_ok key → caches_ok s → reads (cacheGetter db key) s (baseVal key).
Proof.
  intros Hk Hs. destruct key as [addr|addr|addr barrier k|addr]; simpl in Hk |- *.
  - destruct (getCachedObject_ok addr s Hk Hs) as (co & s' & E & Hco & Hm & _ & Hs').
    exists s'. unfold mbind, M_bind. rewrite E. unfold mret, M_ret. by rewrite (object_data _ _ Hco).
  - destruct (getCachedObject_ok addr s Hk Hs) as (co & s' & E & Hco & Hm & _ & Hs').
    destruct (co_GetCode_ok addr co (codeCache s') Hk Hco (caches_codes _ Hs')) as (co' & codes' & Ec & Hco' & Hcodes).
    eexists. unfold mbind, M_bind. rewrite E. unfold gets, lift. rewrite Ec.
    split; [done|]. split; [done|]. by apply caches_update.
  - destruct (Z.eqb_spec barrier 0) as [->|Hb]; simpl; [|by exists s].
    destruct Hk as [Ha Hk]. destruct (getCachedObject_ok addr s Ha Hs) as (co & s' & E & Hco & Hm & _ & Hs').
    destruct (co_GetStorage_ok addr co k Ha Hk Hco) as (co' & Ec & Hco').
    eexists. unfold mbind, M_bind. rewrite E. unfold lift. rewrite Ec.
    split; [done|]. split; [done|]. apply (caches_update addr co' (codeCache s')); [done..|apply Hs'].
  - by exists s.
Qed.

(** ** The world of a journal *)
Definition val (J : jrnl) (key : skey) : sval := default (baseVal key) (replay J !! key).
Definition bar (J : jrnl) (a : Address) : Z := match val J (storageBarrierKey a) with VInt z => z | _ => 0 end.
Definition world_of (J : jrnl) : world := MkWorld
  (λ a, match val J (accountKey a) with VAccount v => v | _ => emptyAccount end)
  (λ a, match val J (codeKey a) with VCode c => c | _ => [] end)
  (λ a k, match val J (storageKey a (bar J a) k) with VRaw r => r | _ => [] end).

(** The entries that one operation writes. *)
Definition put_account (a : Address) (v : Account) : jrnl := [(accountKey a, VAccount v)].
Definition put_storage (J : jrnl) (a : Address) (k : Bytes32) (raw : bytes) : jrnl :=
  [(storageKey a (bar J a) k, VRaw raw)].
Definition put_code (J : jrnl) (a : Address) (c : bytes) : jrnl :=
  [(codeKey a, VCode c); (accountKey a, VAccount ((acct (world_of J) a) <| CodeHash := codeHashOf c |>))].
Definition put_delete (J : jrnl) (a : Address) : jrnl :=
  [(codeKey a, VCode []); (accountKey a, VAccount emptyAccount); (storageBarrierKey a, VInt (bar J a + 1))].

Inductive wfJ : jrnl → Prop :=
  | wf_nil : wfJ []
  | wf_account J a v : wfJ J → is160 a → CodeHash v = CodeHash (acct (world_of J) a) →
      StorageRoot v = StorageRoot (acct (world_of J) a) → wfJ (J ++ put_account a v)
  | wf_storage J a k raw : wfJ J → is160 a → is256 k → wfJ (J ++ put_storage J a k raw)
  | wf_code J a c : wfJ J → is160 a → isCode c → wfJ (J ++ put_code J a c)
  | wf_delete J a : wfJ J → is160 a → wfJ (J ++ put_delete J a).

Lemma val_app J J' key : val (J ++ J') key = default (val J key) (replay J' !! key).
Proof.
  unfold val. rewrite replay_app. destruct (replay J' !! key) as [v|] eqn:E.
  - by rewrite (lookup_union_Some_l _ _ _ _ E).
  - by rewrite lookup_union_r.
Qed.

Lemma val_snoc J key v key' : val (J ++ [(key, v)]) key' = if decide (key = key') then v else val J key'.
Proof.
  rewrite val_app. change (replay [(key, v)]) with (<[key := v]> (∅ : gmap skey sval)).
  case_decide as E; [by subst; rewrite lookup_insert_eq|by rewrite lookup_insert_ne].
Qed.

Lemma snoc2 {A} (l : list A) x y : l ++ [x; y] = (l ++ [x]) ++ [y].
Proof. by rewrite <- app_assoc. Qed.
Lemma snoc3 {A} (l : list A) x y z : l ++ [x; y; z] = ((l ++ [x]) ++ [y]) ++ [z].
Proof. by rewrite <- !app_assoc. Qed.

Definition typed (kv : skey * sval) : Prop :=
  match kv with
  | (accountKey _, VAccount _) | (codeKey _, VCode _) | (storageKey _ _ _, VRaw _) | (storageBarrierKey _, VInt _) => True
  | _ => False
  end.

Lemma val_typed J key : Forall typed J → typed (key, val J key).
Proof.
  induction J as [|[key' v] J IH] using rev_ind; intros HJ; [by destruct key|].
  apply Forall_app in HJ as [HJ [Hv _]%Forall_cons]. rewrite val_snoc. case_decide; [by subst|by apply IH].
Qed.

Lemma val_account J a : Forall typed J → val J (accountKey a) = VAccount (acct (world_of J) a).
Proof. intros HJ. apply (val_typed J (accountKey a)) in HJ. simpl. by destruct (val J (accountKey a)). Qed.
Lemma val_code J a : Forall typed J → val J (codeKey a) = VCode (code (world_of J) a).
Proof. intros HJ. apply (val_typed J (codeKey a)) in HJ. simpl. by destruct (val J (codeKey a)). Qed.
Lemma val_bar J a : Forall typed J → val J (storageBarrierKey a) = VInt (bar J a).
Proof. intros HJ. apply (val_typed J (storageBarrierKey a)) in HJ. unfold bar. by destruct (val J (storageBarrierKey a)). Qed.
Lemma val_slot J a k : Forall typed J → val J (storageKey a (bar J a) k) = VRaw (slot (world_of J) a k).
Proof.
  intros HJ. apply (val_typed J (storageKey a (bar J a) k)) in HJ. simpl.
  by destruct (val J (storageKey a (bar J a) k)).
Qed.

Lemma wfJ_typed J : wfJ J → Forall typed J.
Proof. induction 1; [done|..]; apply Forall_app; (split; [done|]); repeat constructor. Qed.

(** The barriers after an operation. *)
Definition not_barrier (key : skey) : Prop := match key with storageBarrierKey _ => False | _ => True end.

Lemma bar_snoc J key v a : not_barrier key → bar (J ++ [(key, v)]) a = bar J a.
Proof. intros Hkey. unfold bar. rewrite val_snoc. by rewrite decide_False by (intros ->; done). Qed.

Lemma bar_delete J a a' : bar (J ++ put_delete J a) a' = if decide (a = a') then bar J a + 1 else bar J a'.
Proof.
  unfold put_delete. rewrite snoc3. unfold bar at 1. rewrite val_snoc.
  destruct (decide (a = a')) as [<-|Hne]; [by rewrite decide_True|].
  rewrite decide_False by congruence. rewrite !val_snoc. by rewrite !decide_False.
Qed.

(** Entries one by one: storage is written behind the current barrier, and a
    barrier is the next one. *)
Definition entry_ok (J : jrnl) (e : skey * sval) : Prop :=
  typed e ∧ key_ok e.1 ∧
  match e with
  | (storageKey a b _, _) => b = bar J a
  | (storageBarrierKey a, VInt z) => z = bar J a + 1
  | (codeKey _, VCode c) => isCode c
  | _ => True
  end.

Inductive entries : jrnl → Prop :=
  | entries_nil : entries []
  | entries_snoc J e : entries J → entry_ok J e → entries (J ++ [e]).

Lemma wfJ_entries J : wfJ J → entries J.
Proof.
  induction 1 as [|J a v HJ IH Ha _ _|J a k raw HJ IH Ha Hk|J a c HJ IH Ha Hc|J a HJ IH Ha]; [constructor|..].
  - by apply entries_snoc.
  - by apply entries_snoc.
  - unfold put_code. rewrite snoc2. by repeat apply entries_snoc.
  - unfold put_delete. rewrite snoc3. repeat apply entries_snoc; try done; [split_and!; try done; apply isCode_nil|].
    split_and!; [done..|]. by rewrite !bar_snoc.
Qed.

Lemma entries_typed J : entries J → Forall typed J.
Proof. induction 1 as [|J e _ IH [He _]]; [done|]. apply Forall_app. by split; [|constructor]. Qed.

(** Nothing is written ahead of the barrier. *)
Lemma entries_barrier J : entries J →
  (∀ a, 0 ≤ bar J a) ∧ ∀ a b k, bar J a < b → replay J !! storageKey a b k = None.
Proof.
  induction 1 as [|J [key v] _ [IH1 IH2] (Ht & _ & He)]; [done|].
  destruct key as [a|a|a b k|a].
  - split; intros a'; rewrite bar_snoc by done; [done|]. intros b k Hb. rewrite replay_snoc, lookup_insert_ne by done. auto.
  - split; intros a'; rewrite bar_snoc by done; [done|]. intros b k Hb. rewrite replay_snoc, lookup_insert_ne by done. auto.
  - split; intros a'; rewrite bar_snoc by done; [done|]. intros b' k' Hb. rewrite replay_snoc, lookup_insert_ne; [auto|].
    intros [= -> -> ->]. lia.
  - destruct v as [| | |z]; try done. subst z.
    assert (∀ a', bar (J ++ [(storageBarrierKey a, VInt (bar J a + 1))]) a' =
      if decide (a = a') then bar J a + 1 else bar J a') as Hbar.
    { intros a'. unfold bar at 1. rewrite val_snoc. destruct (decide (a = a')) as [<-|]; [by rewrite decide_True|].
      by rewrite decide_False by congruence. }
    split; intros a'; rewrite Hbar; [case_decide; [specialize (IH1 a); lia|done]|].
    intros b k Hb. rewrite replay_snoc, lookup_insert_ne by done. apply IH2. case_decide; [subst; lia|done].
Qed.

Lemma wfJ_barrier J : wfJ J → (∀ a, 0 ≤ bar J a) ∧ ∀ a b k, bar J a < b → val J (storageKey a b k) = VRaw [].
Proof.
  intros [H1 H2]%wfJ_entries%entries_barrier. split; [done|]. intros a b k Hb. unfold val. rewrite H2 by done.
  simpl. specialize (H1 a). by rewrite (proj2 (Z.eqb_neq b 0)) by lia.
Qed.

(** ** The worlds after an operation *)
Ltac world_cases :=
  unfold upd; repeat match goal with
  | |- context [decide (?x = ?y)] => destruct (decide (x = y)); simplify_eq
  | |- context [?x =? ?y] => destruct (Z.eqb_spec x y); simplify_eq
  end; try done.

Lemma world_account J a v : same (world_of (J ++ put_account a v)) (w_account a v (world_of J)).
Proof.
  unfold put_account. split; simpl.
  - intros a'. rewrite val_snoc. world_cases.
  - intros a'. rewrite val_snoc. world_cases.
  - intros a' k. rewrite bar_snoc, val_snoc by done. world_cases.
Qed.

Lemma world_storage J a k raw : same (world_of (J ++ put_storage J a k raw)) (w_slot a k raw (world_of J)).
Proof.
  unfold put_storage. split; simpl.
  - intros a'. rewrite val_snoc. world_cases.
  - intros a'. rewrite val_snoc. world_cases.
  - intros a' k'. rewrite bar_snoc, val_snoc by done. world_cases.
Qed.

Lemma world_code J a c : same (world_of (J ++ put_code J a c))
  (w_account a ((acct (world_of J) a) <| CodeHash := codeHashOf c |>) (w_code a c (world_of J))).
Proof.
  unfold put_code. rewrite snoc2. split; simpl.
  - intros a'. rewrite !val_snoc. world_cases.
  - intros a'. rewrite !val_snoc. world_cases.
  - intros a' k. rewrite !bar_snoc, !val_snoc by done. world_cases.
Qed.

Lemma world_delete J a : wfJ J → same (world_of (J ++ put_delete J a)) (w_delete a (world_of J)).
Proof.
  intros [_ HJ]%wfJ_barrier. split; simpl; unfold put_delete.
  - intros a'. rewrite snoc3, !val_snoc. world_cases.
  - intros a'. rewrite snoc3, !val_snoc. world_cases.
  - intros a' k. fold (put_delete J a). rewrite bar_delete. unfold put_delete. rewrite snoc3, !val_snoc.
    rewrite !decide_False by done. unfold upd. destruct (decide (a = a')) as [<-|Hne].
    + rewrite Z.eqb_refl. by rewrite HJ by lia.
    + by rewrite (proj2 (Z.eqb_neq a' a)).
Qed.
End base.
End spec.
