(* ===== verification/StateCorrect.v ===== *)
(** * The operations of the state implement the worlds

    Every operation of [src/state/state.go] on a state whose journals stand for
    a stack of worlds succeeds, returns what the topmost world has and leaves the
    stack that the operation on worlds gives. *)

From S2P Require Import Prelude Bytes External Thor Block BlockCorrect Trie StackedMap AccountState StateSpec.

(** ** Sequences of operations *)
Inductive state_op :=
  | OpBalance (a : Address) (v : Z)
  | OpEnergy (a : Address) (e t : Z)
  | OpMaster (a m : Address)
  | OpRaw (a : Address) (k : Bytes32) (raw : bytes)
  | OpStorage (a : Address) (k v : Bytes32)
  | OpCode (a : Address) (c : bytes)
  | OpDelete (a : Address)
  | OpCheckpoint
  | OpRevert (n : nat).

Section ops.
Context `{Rlp} `{Crypto} `{Drlp} `{StateEnv}.

Definition state_perform (db : MuxDB) (o : state_op) : M State unit :=
  match o with
  | OpBalance a v => SetBalance db a v
  | OpEnergy a e t => SetEnergy db a e t
  | OpMaster a m => SetMaster db a m
  | OpRaw a k raw => SetRawStorage db a k raw
  | OpStorage a k v => SetStorage db a k v
  | OpCode a c => SetCode db a c
  | OpDelete a => Delete db a
  | OpCheckpoint => NewCheckpoint;; mret tt
  | OpRevert n => RevertTo n
  end.

Fixpoint state_run (db : MuxDB) (ops : list state_op) : M State unit :=
  match ops with [] => mret tt | o :: ops => state_perform db o;; state_run db ops end.

(** The same on a world. *)
Definition storedWord (v : Bytes32) : bytes :=
  if v =? 0 then [] else rlp_bytes (rlp_str (trimZeros (be 32 v))).

Definition world_perform (o : state_op) (w : world) : world :=
  match o with
  | OpBalance a v => w_account a ((acct w a) <| Balance := v |>) w
  | OpEnergy a e t => w_account a ((acct w a) <| Energy := e |> <| BlockTime := t |>) w
  | OpMaster a m => w_account a ((acct w a) <| Master := if IsZero m then [] else be 20 m |>) w
  | OpRaw a k raw => w_slot a k raw w
  | OpStorage a k v => w_slot a k (storedWord v) w
  | OpCode a c => w_account a ((acct w a) <| CodeHash := codeHashOf c |>) (w_code a c w)
  | OpDelete a => w_delete a w
  | OpCheckpoint | OpRevert _ => w
  end.

(** On a stack of worlds. *)
Definition worlds_perform (ws : list world) (o : state_op) : list world :=
  match o, ws with
  | OpCheckpoint, w :: ws => w :: w :: ws
  | OpRevert n, ws => drop (length ws - n) ws
  | o, w :: ws => world_perform o w :: ws
  | _, [] => []
  end.

Definition op_ok (isCode : bytes → Prop) (o : state_op) : Prop :=
  match o with
  | OpBalance a _ | OpEnergy a _ _ | OpDelete a => is160 a
  | OpMaster a m => is160 a ∧ is160 m
  | OpRaw a k _ => is160 a ∧ is256 k
  | OpStorage a k v => is160 a ∧ is256 k ∧ is256 v
  | OpCode a c => is160 a ∧ isCode c
  | OpCheckpoint => True
  | OpRevert n => (1 ≤ n)%nat
  end.
End ops.

Section correct.
Context `{HRlp : Rlp} `{HCrypto : Crypto} `{HDrlp : Drlp} `{HEnv : StateEnv}.
Context {isCode : bytes → Prop} `{HSpec : !StateEnvSpec isCode}.
Variable db : MuxDB.
Variable trie0 : MTrie.
Variable w0 : world.
Variable metaOf : Address → AccountMetadata.
Hypothesis Hbase : loaded (isCode := isCode) db trie0 w0 metaOf.

Local Abbreviation val := (val w0) (only parsing).
Local Abbreviation bar := (bar w0) (only parsing).
Local Abbreviation world_of := (world_of w0) (only parsing).
Local Abbreviation wfJ := (wfJ (isCode := isCode) w0) (only parsing).

(** The state [s] has the journal [J] on top of [Js]. *)
Record on (s : State) (J : jrnl) (Js : list jrnl) : Prop := {
  on_map : implements (stMap s) (J :: Js);
  on_caches : caches_ok (isCode := isCode) db trie0 w0 metaOf s;
  on_typed : Forall typed J;
}.

(** [m] returns [v] and leaves the journal [J]. *)
Definition gives {A} (m : M State A) (s : State) (v : A) (J : jrnl) (Js : list jrnl) : Prop :=
  ∃ s', m s = Ok (v, s') ∧ on s' J Js.

Lemma gives_bind {A B} (m : M State A) (f : A → M State B) s v v' J J' Js : gives m s v J Js →
  (∀ s', on s' J Js → gives (f v) s' v' J' Js) → gives (m ≫= f) s v' J' Js.
Proof.
  intros (s' & E & Hs') Hf. destruct (Hf s' Hs') as (s'' & E' & Hs''). exists s''. split; [|done].
  unfold mbind, M_bind. by rewrite E.
Qed.

Lemma gives_ret {A} (v : A) s J Js : on s J Js → gives (mret v) s v J Js.
Proof. intros. by exists s. Qed.
Lemma gives_lift {A} (r : result A) v s J Js : r = Ok v → on s J Js → gives (lift r) s v J Js.
Proof. intros -> Hs. by exists s. Qed.
Lemma gives_err {A} (m : M State A) f s v J Js : gives m s v J Js → gives (map_err f m) s v J Js.
Proof. intros (s' & E & Hs'). exists s'. split; [|done]. unfold map_err. by rewrite E. Qed.

Lemma smGet_gives key s J Js : key_ok key → on s J Js → gives (smGet db key) s (val J key) J Js.
Proof.
  intros Hk [Hm Hc Ht]. unfold gives, smGet, gets, lift, mbind, M_bind. rewrite (Get_ok _ _ _ key Hm).
  unfold StateSpec.val. destruct (replay J !! key) as [v|]; [by exists s|].
  destruct (cacheGetter_ok db trie0 w0 metaOf Hbase key s Hk Hc) as (s' & E & Em & Hc'). exists s'.
  split; [done|]. split; [by rewrite Em|done..].
Qed.

Lemma smPut_gives key v s J Js : typed (key, v) → on s J Js → gives (smPut key v) s tt (J ++ [(key, v)]) Js.
Proof.
  intros Hv [Hm Hc Ht]. unfold gives, smPut, gets, lift, modify, mbind, M_bind.
  destruct (Put_ok _ _ _ key v Hm) as (sm' & -> & Hm'). eexists. split; [done|]. split; [done| |].
  - by destruct Hc.
  - apply Forall_app. by split; [|constructor].
Qed.

Lemma getAccount_gives a s J Js : is160 a → on s J Js → gives (getAccount db a) s (acct (world_of J) a) J Js.
Proof.
  intros Ha Hs. eapply gives_bind; [by apply smGet_gives|]. intros s' Hs'. apply gives_lift; [|done].
  by rewrite val_account by apply Hs'.
Qed.

Lemma barrier_gives a s J Js : is160 a → on s J Js → gives (getStorageBarrier db a) s (bar J a) J Js.
Proof.
  intros Ha Hs. eapply gives_bind; [by apply smGet_gives|]. intros s' Hs'. apply gives_lift; [|done].
  by rewrite val_bar by apply Hs'.
Qed.

(** ** Reads *)
Lemma account_reads {A} (f : Account → A) a s J Js : is160 a → on s J Js →
  gives (acc ← map_err stateError (getAccount db a); mret (f acc)) s (f (acct (world_of J) a)) J Js.
Proof.
  intros Ha Hs. eapply gives_bind; [by apply gives_err, getAccount_gives|]. intros. by apply gives_ret.
Qed.

Lemma GetCode_gives a s J Js : is160 a → on s J Js → gives (GetCode db a) s (code (world_of J) a) J Js.
Proof.
  intros Ha Hs. eapply gives_bind; [by apply gives_err, smGet_gives|]. intros s' Hs'. apply gives_lift; [|done].
  by rewrite val_code by apply Hs'.
Qed.

Lemma GetRawStorage_gives a k s J Js : is160 a → is256 k → on s J Js →
  gives (GetRawStorage db a k) s (slot (world_of J) a k) J Js.
Proof.
  intros Ha Hk Hs. eapply gives_bind; [by apply barrier_gives|]. intros s' Hs'.
  eapply gives_bind; [by apply gives_err, smGet_gives|]. intros s'' Hs''. apply gives_lift; [|done].
  by rewrite val_slot by apply Hs''.
Qed.

(** The 32-byte value of a raw one: lists stand for their hash. *)
Definition word_of (raw : bytes) : result Bytes32 :=
  if (length raw =? 0)%nat then Ok 0 else
  match rlp_split raw with
  | None => Err (stateError (ErrInternal "rlp"))
  | Some (true, _) => Ok (blake2b raw)
  | Some (false, content) => Ok (BytesToBytes32 content)
  end.

Lemma GetStorage_gives a k s J Js v : is160 a → is256 k → on s J Js → word_of (slot (world_of J) a k) = Ok v →
  gives (GetStorage db a k) s v J Js.
Proof.
  intros Ha Hk Hs Hv. eapply gives_bind; [by apply gives_err, GetRawStorage_gives|]. intros s' Hs'.
  unfold word_of in Hv. destruct (length _ =? 0)%nat; [injection Hv as <-; by apply gives_ret|].
  destruct (rlp_split _) as [[[] content]|]; [| |done]; injection Hv as <-; by apply gives_ret.
Qed.

(** ** Writes *)
Lemma account_writes (f : Account → Account) a s J Js : is160 a → on s J Js →
  gives (cpy ← map_err stateError (getAccountCopy db a); updateAccount a (f cpy)) s tt
    (J ++ put_account a (f (acct (world_of J) a))) Js.
Proof.
  intros Ha Hs. eapply gives_bind; [by apply gives_err, getAccount_gives|]. intros. by apply smPut_gives.
Qed.

Lemma SetRawStorage_gives a k raw s J Js : is160 a → on s J Js →
  gives (SetRawStorage db a k raw) s tt (J ++ put_storage w0 J a k raw) Js.
Proof.
  intros Ha Hs. eapply gives_bind; [by apply barrier_gives|]. intros s' Hs'. by apply smPut_gives.
Qed.

Lemma on_codes s J Js h c : on s J Js → c ≠ [] → isCode c → h = codeHashOf c →
  on (s <| codeCache := <[h := c]> (codeCache s) |>) J Js.
Proof.
  intros [Hm [Ht Ho Hc] Hty] Hne Hic Eh. split; [done| |done]. split; [done..|]. simpl.
  intros h' c'. intros [[<- <-]|[_ ?]]%lookup_insert_Some; eauto.
Qed.

Lemma SetCode_gives a c s J Js : is160 a → isCode c → on s J Js →
  gives (SetCode db a c) s tt (J ++ put_code w0 J a c) Js.
Proof.
  intros Ha Hc Hs. unfold put_code. rewrite snoc2.
  assert (acct (world_of J) a = acct (world_of (J ++ [(codeKey a, VCode c)])) a) as ->.
  { simpl. by rewrite val_snoc, decide_False. }
  apply gives_bind with (v := codeHashOf c) (J := J ++ [(codeKey a, VCode c)]);
    [|intros; by apply account_writes].
  unfold codeHashOf. destruct (Nat.ltb_spec 0 (length c)) as [Hl|Hl].
  - eapply gives_bind; [by apply smPut_gives|]. intros s' Hs'.
    eexists. split; [done|]. apply on_codes; [done|by intros ->; simpl in Hl; lia|done|].
    unfold codeHashOf. by rewrite (proj2 (Nat.ltb_lt 0 (length c))).
  - assert (c = []) as -> by (apply nil_length_inv; lia).
    eapply gives_bind; [by apply smPut_gives|]. intros s' Hs'. by apply gives_ret.
Qed.

Lemma Delete_gives a s J Js : is160 a → on s J Js → gives (Delete db a) s tt (J ++ put_delete w0 J a) Js.
Proof.
  intros Ha Hs. unfold put_delete. rewrite snoc3.
  assert (bar J a = bar ((J ++ [(codeKey a, VCode [])]) ++ [(accountKey a, VAccount emptyAccount)]) a) as ->.
  { by rewrite !bar_snoc. }
  eapply gives_bind; [by apply smPut_gives|]. intros s1 Hs1.
  eapply gives_bind; [by apply smPut_gives|]. intros s2 Hs2.
  eapply gives_bind; [by apply barrier_gives|]. intros s3 Hs3. by apply smPut_gives.
Qed.

(** ** Stacks of worlds *)
Definition stands (J : jrnl) (w : world) : Prop := wfJ J ∧ same (world_of J) w.

Definition represents (s : State) (ws : list world) : Prop :=
  caches_ok (isCode := isCode) db trie0 w0 metaOf s ∧
  ∃ Js, implements (stMap s) Js ∧ Forall2 stands Js ws.

Definition op_writes (o : state_op) : Prop := match o with OpCheckpoint | OpRevert _ => False | _ => True end.

(** One write, on the topmost journal. *)
Lemma write_gives o s J Js w : op_writes o → op_ok isCode o → on s J Js → stands J w →
  ∃ J', gives (state_perform db o) s tt J' Js ∧ stands J' (world_perform o w).
Proof.
  intros Hw Hok Hs [HJ Hsame].
  assert (∀ f a, is160 a → (∀ x, CodeHash (f x) = CodeHash x) → (∀ x, StorageRoot (f x) = StorageRoot x) →
    stands (J ++ put_account a (f (acct (world_of J) a))) (w_account a (f (acct w a)) w)) as Hacct.
  { intros f a Ha Hc Hr. split; [by apply wf_account|]. etrans; [apply world_account|].
    destruct Hsame as [E1 E2 E3]. split; cbn [acct code slot w_account w_slot w_code w_delete]; intros; rewrite ?E1, ?E2, ?E3; [|done..].
    unfold upd. by destruct (_ =? _). }
  assert (∀ a k raw, is160 a → is256 k → stands (J ++ put_storage w0 J a k raw) (w_slot a k raw w)) as Hraw.
  { intros a k raw Ha Hk. split; [by apply wf_storage|]. etrans; [apply world_storage|].
    destruct Hsame as [E1 E2 E3]. split; cbn [acct code slot w_account w_slot w_code w_delete]; intros; [done..|]. unfold upd.
    destruct (_ =? _); [destruct (_ =? _)|]; eauto. }
  destruct o as [a v|a e t|a m|a k raw|a k v|a c|a| |]; simpl in Hok |- *; try done.
  - eexists. split; [by apply (account_writes (λ x, x <| Balance := v |>))|].
    by apply (Hacct (λ x, x <| Balance := v |>)).
  - eexists. split; [by apply (account_writes (λ x, x <| Energy := e |> <| BlockTime := t |>))|].
    by apply (Hacct (λ x, x <| Energy := e |> <| BlockTime := t |>)).
  - destruct Hok. eexists. split; [by apply (account_writes (λ x, x <| Master := _ |>))|].
    by apply (Hacct (λ x, x <| Master := if IsZero m then [] else be 20 m |>)).
  - destruct Hok. eexists. split; [by apply SetRawStorage_gives|by apply Hraw].
  - destruct Hok as (? & ? & ?). exists (J ++ put_storage w0 J a k (storedWord v)). split; [|by apply Hraw].
    unfold SetStorage, storedWord. destruct (v =? 0); by apply SetRawStorage_gives.
  - destruct Hok. eexists. split; [by apply SetCode_gives|]. split; [by apply wf_code|].
    etrans; [apply world_code|]. destruct Hsame as [E1 E2 E3]. split; cbn [acct code slot w_account w_slot w_code w_delete]; intros; rewrite ?E1, ?E2, ?E3; [| |done];
      unfold upd; by destruct (_ =? _).
  - eexists. split; [by apply Delete_gives|]. split; [by apply wf_delete|].
    etrans; [by eapply world_delete|]. destruct Hsame as [E1 E2 E3]. split; cbn [acct code slot w_account w_slot w_code w_delete]; intros; unfold upd; destruct (_ =? _); auto.
Qed.

Lemma step_represents o s w ws : op_ok isCode o → represents s (w :: ws) →
  ∃ s' w' ws', state_perform db o s = Ok (tt, s') ∧ worlds_perform (w :: ws) o = w' :: ws' ∧ represents s' (w' :: ws').
Proof.
  intros Hok (Hc & JJ & Hi & HJJ). destruct (Forall2_cons_inv_r _ _ _ _ HJJ) as (J & Js & HJ & HJs & ->).
  assert (op_writes o → ∃ s', state_perform db o s = Ok (tt, s') ∧ represents s' (world_perform o w :: ws)) as Hwrite.
  { intros Hw. destruct (write_gives o s J Js w Hw Hok) as (J' & (s' & E & Hs') & HJ'); [|done|].
    - split; [done..|]. by eapply wfJ_typed, HJ.
    - exists s'. split; [done|]. split; [apply Hs'|]. exists (J' :: Js). split; [apply Hs'|by constructor]. }
  destruct o as [a v|a e t|a m|a k raw|a k v|a c|a| |n];
    try (destruct (Hwrite I) as (s' & E & Hs'); eexists _, _, _; by split_and!).
  - destruct (Push_ok _ _ _ Hi) as [_ Hi']. exists (s <| stMap := (Push (stMap s)).2 |>), w, (w :: ws).
    split; [|split; [done|split; [|exists (J :: J :: Js); split; [exact Hi'|by constructor]]]].
    + unfold state_perform, NewCheckpoint, mbind, M_bind. destruct (Push (stMap s)). done.
    + by destruct Hc.
  - simpl in Hok. destruct (PopTo_ok _ _ n Hi) as (sm' & E & Hi'). simpl length in *.
    pose proof (Forall2_length _ _ _ HJs) as Hl. rewrite Hl in Hi'.
    apply (Forall2_drop _ _ _ (S (length ws) - n)) in HJJ.
    destruct (drop (S (length ws) - n) (w :: ws)) as [|w' ws'] eqn:Ed.
    { apply (f_equal length) in Ed. rewrite length_drop in Ed. simpl in Ed. lia. }
    eexists _, w', ws'. split; [unfold state_perform, RevertTo, gets, lift, mbind, M_bind; by rewrite E|].
    split; [done|]. split; [by destruct Hc|]. by eexists.
Qed.
End correct.
