(* ===== verification/StateStage.v ===== *)
(** * Staging and committing a state

    [Stage] folds the journal into the accounts, storage and code that changed,
    writes them into copies of the tries, and its commit function writes the
    tries and the code to the database. *)

From S2P Require Import Prelude Bytes External Thor Block BlockCorrect Trie StackedMap.
From S2P Require Import AccountState StateSpec StateCorrect.

Section stage.
Context `{HRlp : Rlp} `{!RlpSpec} `{HCrypto : Crypto} `{!CryptoSpec} `{HDrlp : Drlp} `{HEnv : StateEnv}.
Context {isCode : bytes → Prop} `{HSpec : !StateEnvSpec isCode}.

(** ** Storage tries *)
Definition slotOf (m : contents) (k : Bytes32) : bytes := (default ([], []) (m !! secureKey (be 32 k))).1.

Lemma secureKey_slot k k' : is256 k → is256 k' → secureKey (be 32 k) = secureKey (be 32 k') → k = k'.
Proof.
  intros Hk Hk' E. unfold secureKey, blakeBytes in E.
  apply be_inj in E; [by apply slot_hash_inj in E|apply blake2b_range..].
Qed.
Lemma secureKey_address a a' : is160 a → is160 a' → secureKey (be 20 a) = secureKey (be 20 a') → a = a'.
Proof.
  intros Ha Ha' E. unfold secureKey, blakeBytes in E.
  apply be_inj in E; [by apply address_hash_inj in E|apply blake2b_range..].
Qed.

(** Saving storage into a trie. *)
Lemma save_slots l t m : mtContents t = Ok m → Forall is256 l.*1 → NoDup l.*1 →
  ∃ t' m', foldR (λ t kv, saveStorage t kv.1 kv.2) t l = Ok t' ∧ mtName t' = mtName t ∧ mtContents t' = Ok m' ∧
    ∀ k, is256 k → slotOf m' k = default (slotOf m k) ((list_to_map l : gmap Bytes32 bytes) !! k).
Proof.
  revert t m. induction l as [|[k v] l IH]; intros t m Hm Hl Hnd; [by exists t, m|].
  apply Forall_cons in Hl as [Hk Hl]. apply NoDup_cons in Hnd as [Hnk Hnd]. cbn [foldR fst snd].
  set (m1 := if (length v =? 0)%nat then delete (secureKey (be 32 k)) m
             else <[secureKey (be 32 k) := (v, trimZeros (be 32 k))]> m).
  assert (saveStorage t k v = Ok (MkMTrie (mtName t) (mtRoot t) (Ok m1))) as ->.
  { unfold saveStorage, mt_Update. by rewrite Hm. }
  cbn [mbind result_bind].
  assert (∀ k', is256 k' → slotOf m1 k' = if decide (k = k') then v else slotOf m k') as Hm1.
  { intros k' Hk'. unfold m1, slotOf. destruct (decide (k = k')) as [<-|Hne].
    - destruct (Nat.eqb_spec (length v) 0) as [El|El]; [|by rewrite lookup_insert_eq].
      apply nil_length_inv in El as ->. by rewrite lookup_delete_eq.
    - assert (secureKey (be 32 k) ≠ secureKey (be 32 k')) as Hne' by (intros E; by apply Hne, secureKey_slot).
      destruct (length v =? 0)%nat; [by rewrite lookup_delete_ne|by rewrite lookup_insert_ne]. }
  destruct (IH (MkMTrie (mtName t) (mtRoot t) (Ok m1)) m1 eq_refl Hl Hnd) as (t' & m' & E & En & Em & Hm').
  exists t', m'. split; [done|]. split; [done|]. split; [done|]. intros k' Hk'. rewrite (Hm' k' Hk'), Hm1 by done.
  simpl. destruct (decide (k = k')) as [<-|Hne].
  - rewrite lookup_insert_eq. rewrite not_elem_of_list_to_map_1 by done. done.
  - by rewrite lookup_insert_ne.
Qed.

(** ** The trie of accounts *)
Definition storable (a : Account) : Prop := 0 ≤ Balance a ∧ 0 ≤ Energy a ∧ is64 (BlockTime a).

Lemma Account_of_item a : storable a → Account_of (Account_item a) = Some a.
Proof.
  intros (Hb & He & Ht). unfold Account_of, Account_item. rewrite list_of_list. cbn [mbind option_bind].
  rewrite !num_of_num, uint_of_num by ulia. cbn [mbind option_bind]. rewrite !str_of_str. by destruct a.
Qed.

Definition metadata_fits (m : AccountMetadata) : Prop := is32 (StorageMajorVer m) ∧ is32 (StorageMinorVer m).

Lemma Metadata_of_item m : metadata_fits m → Metadata_of (Metadata_item m) = Some m.
Proof.
  intros [Hj Hn]. unfold Metadata_of, Metadata_item. rewrite list_of_list. cbn [mbind option_bind].
  rewrite str_of_str. cbn [mbind option_bind]. rewrite !uint_of_num by ulia. by destruct m.
Qed.

(** What [loadAccount] finds in a trie with the contents [m]. *)
Definition load_in (m : contents) (addr : Address) : result (Account * AccountMetadata) :=
  loadAccount (MkMTrie [] 0 (Ok m)) addr.

Lemma loadAccount_in t m addr : mtContents t = Ok m → loadAccount t addr = load_in m addr.
Proof. intros E. unfold load_in, loadAccount, mt_Get. by rewrite E. Qed.

Lemma load_in_agree m m' addr : m !! secureKey (be 20 addr) = m' !! secureKey (be 20 addr) →
  load_in m addr = load_in m' addr.
Proof. intros E. unfold load_in, loadAccount, mt_Get. cbn [mtContents mbind result_bind]. by rewrite E. Qed.

Lemma item_length i : (length (rlp_bytes i) =? 0)%nat = false.
Proof. pose proof (rlp_bytes_nonempty i). by destruct (rlp_bytes i). Qed.

(** The account that is read back after a save. *)
Definition stored (a : Account) (am : AccountMetadata) : Account * AccountMetadata :=
  if Account_IsEmpty a then (emptyAccount, metadata0)
  else (a, if (0 <? length (StorageRoot a))%nat then am else metadata0).

Lemma saveAccount_ok t m addr a am : mtContents t = Ok m → storable a → metadata_fits am →
  ∃ m', saveAccount t addr a am = Ok (MkMTrie (mtName t) (mtRoot t) (Ok m')) ∧
    load_in m' addr = Ok (stored a am) ∧
    ∀ key, key ≠ secureKey (be 20 addr) → m' !! key = m !! key.
Proof.
  intros Em Ha Ham. unfold saveAccount, mt_Update, stored. rewrite Em. cbn [mbind result_bind].
  destruct (Account_IsEmpty a).
  { eexists. split; [done|]. unfold load_in, loadAccount, mt_Get. cbn [mtContents mbind result_bind length Nat.eqb].
    split; [by rewrite lookup_delete_eq|]. intros key Hkey. by rewrite lookup_delete_ne. }
  destruct Ha as (Hb & He & Ht). rewrite (proj2 (Z.ltb_ge (Balance a) 0)), (proj2 (Z.ltb_ge (Energy a) 0)) by done.
  cbn [orb]. rewrite item_length. eexists. split; [done|]. split; [|intros key Hkey; by rewrite lookup_insert_ne].
  unfold load_in, loadAccount, mt_Get. cbn [mtContents mbind result_bind]. rewrite lookup_insert_eq.
  cbn [default from_option id]. rewrite item_length, rlp_parse_bytes. cbn [mbind option_bind].
  rewrite Account_of_item by done. cbn [decoded mbind result_bind].
  destruct (0 <? length (StorageRoot a))%nat; [|done].
  replace (0 <? length (rlp_bytes (Metadata_item am)))%nat with true
    by (pose proof (item_length (Metadata_item am)) as E; by destruct (length (rlp_bytes _))).
  rewrite rlp_parse_bytes. cbn [mbind option_bind]. by rewrite Metadata_of_item.
Qed.

(** ** Folding the journal *)
Section journal.
Variable db : MuxDB.
Variable trie0 : MTrie.
Variable w0 : world.
Variable metaOf : Address → AccountMetadata.
Hypothesis Hbase : loaded (isCode := isCode) db trie0 w0 metaOf.
Variable newVer : Version.
Hypothesis Hfresh : ∀ a n, is160 a → StorageID (metaOf a) ≠ newStorageID newVer n.

Local Abbreviation val := (val w0) (only parsing).
Local Abbreviation bar := (bar w0) (only parsing).
Local Abbreviation world_of := (world_of w0) (only parsing).
Local Abbreviation wfJ := (wfJ (isCode := isCode) w0) (only parsing).
Local Abbreviation entries := (entries (isCode := isCode) w0) (only parsing).

(** What the accounts of a world have of the base and of the code. *)
Lemma wfJ_accounts J : wfJ J → ∀ a, is160 a →
  StorageRoot (acct (world_of J) a) = (if bar J a =? 0 then StorageRoot (acct w0 a) else []) ∧
  CodeHash (acct (world_of J) a) = codeHashOf (code (world_of J) a) ∧ isCode (code (world_of J) a).
Proof.
  induction 1 as [|J a v HJ IH Ha Ec Er|J a k raw HJ IH Ha Hk|J a c HJ IH Ha Hc|J a HJ IH Ha]; intros a' Ha'.
  - by destruct (Hbase a' Ha').
  - destruct (world_account w0 J a v) as [E1 E2 _]. rewrite E1, E2. unfold put_account. rewrite bar_snoc by done.
    cbn [acct code w_account]. unfold upd. destruct (Z.eqb_spec a' a) as [->|]; [|by apply IH].
    destruct (IH a Ha) as (H1 & H2 & H3). by rewrite Er, Ec.
  - destruct (world_storage w0 J a k raw) as [E1 E2 _]. rewrite E1, E2. unfold put_storage. rewrite bar_snoc by done.
    by apply IH.
  - destruct (world_code w0 J a c) as [E1 E2 _]. rewrite E1, E2. unfold put_code. rewrite snoc2, !bar_snoc by done.
    cbn [acct code w_account w_code]. unfold upd. destruct (Z.eqb_spec a' a) as [->|]; [|by apply IH].
    split_and!; [apply (IH a Ha)|done..].
  - destruct (world_delete w0 J a HJ) as [E1 E2 _]. rewrite E1, E2, bar_delete.
    cbn [acct code w_delete]. unfold upd. destruct (Z.eqb_spec a' a) as [->|Hne].
    + rewrite decide_True by done. split_and!; [|done|apply isCode_nil].
      destruct (entries_barrier w0 J (wfJ_entries w0 J HJ)) as [H1 _]. specialize (H1 a).
      by rewrite (proj2 (Z.eqb_neq (bar J a + 1) 0)) by lia.
    + rewrite decide_False by done. by apply IH.
Qed.

(** Code is only put along with the account. *)
Lemma wfJ_code J a : wfJ J → replay J !! accountKey a = None → replay J !! codeKey a = None.
Proof.
  induction 1 as [|J a' v HJ IH _ _ _|J a' k raw HJ IH _ _|J a' c HJ IH _ _|J a' HJ IH _]; [done|..].
  - unfold put_account. rewrite replay_snoc. intros [? _]%lookup_insert_None. rewrite lookup_insert_ne by done. auto.
  - unfold put_storage. rewrite replay_snoc. intros [? _]%lookup_insert_None. rewrite lookup_insert_ne by done. auto.
  - unfold put_code. rewrite snoc2, !replay_snoc. intros [[? _]%lookup_insert_None Hne]%lookup_insert_None.
    rewrite lookup_insert_ne by done. rewrite lookup_insert_ne by congruence. auto.
  - unfold put_delete. rewrite snoc3, !replay_snoc.
    intros [[[? _]%lookup_insert_None Hne]%lookup_insert_None _]%lookup_insert_None.
    rewrite !lookup_insert_ne by congruence. auto.
Qed.

Definition rawOf (v : sval) : bytes := match v with VRaw r => r | _ => [] end.

(** The metadata that the storage of [a] starts from. *)
Definition baseMeta (J : jrnl) (a : Address) : AccountMetadata := if bar J a =? 0 then metaOf a else metadata0.
Definition freshMeta (n : Z) : AccountMetadata := MkMetadata (newStorageID newVer n) 0 0.

Record changed_ok (J : jrnl) (count : Z) (a : Address) (c : changed) : Prop := {
  changed_data : chData c = acct (world_of J) a;
  changed_storage : ∀ k, chStorage c !! k = rawOf <$> replay J !! storageKey a (bar J a) k;
  changed_base : ∀ t, chBase c = Some t → bar J a = 0 ∧ StorageRoot (acct w0 a) ≠ [] ∧
    openedStorage db (acct w0 a) (metaOf a) = Ok t;
  changed_meta : (chMeta c = baseMeta J a ∧ (StorageID (baseMeta J a) ≠ [] ∨ chStorage c = ∅)) ∨
    (StorageID (baseMeta J a) = [] ∧ ∃ n, 0 ≤ n < count ∧ chMeta c = freshMeta n);
}.

Definition untouched (J : jrnl) (a : Address) : Prop :=
  replay J !! accountKey a = None ∧ replay J !! storageBarrierKey a = None ∧
  ∀ b k, replay J !! storageKey a b k = None.

Record staged (J : jrnl) (g : staging) : Prop := {
  staged_touched : ∀ a c, sgChanges g !! a = Some c → is160 a ∧ changed_ok J (sgCount g) a c;
  staged_untouched : ∀ a, sgChanges g !! a = None → untouched J a;
  staged_codes : ∀ h c, sgCodes g !! h = Some c → h = keccak256 c ∧ isCode c ∧ c ≠ [];
  staged_code : ∀ a c, replay J !! codeKey a = Some (VCode c) → c ≠ [] → sgCodes g !! keccak256 c = Some c;
  staged_ids : ∀ a b c c' n, is64 n → sgChanges g !! a = Some c → sgChanges g !! b = Some c' →
    chMeta c = freshMeta n → chMeta c' = freshMeta n → a = b;
  staged_count : 0 ≤ sgCount g ≤ Z.of_nat (length J);
}.

Lemma newStorageID_inj n n' : is64 n → is64 n' → newStorageID newVer n = newStorageID newVer n' → n = n'.
Proof.
  unfold newStorageID. intros Hn Hn' E. apply app_inv_head, app_inv_head in E.
  rewrite <- (app_nil_r (uvarint n)), <- (app_nil_r (uvarint n')) in E.
  by apply uvarint_app_inj in E as [? _].
Qed.

Lemma newStorageID_nonempty n : newStorageID newVer n ≠ [].
Proof. unfold newStorageID. intros E. apply (f_equal length) in E. rewrite length_app, be_length in E. done. Qed.

(** An account that is looked at for the first time is as in the base. *)
Lemma untouched_ok J a co count : untouched J a → object_ok db w0 metaOf a co →
  changed_ok J count a (MkChanged (coData co) (coMeta co) ∅ (coTrie co)).
Proof.
  intros (U1 & U2 & U3) [Hd Hm _ Ht _].
  assert (bar J a = 0) as Hb by (unfold StateSpec.bar, StateSpec.val; by rewrite U2).
  split; simpl.
  - unfold StateSpec.val. by rewrite U1.
  - intros k. by rewrite U3.
  - intros t Et. split; [done|]. by apply Ht.
  - left. unfold baseMeta. rewrite Hb. simpl. auto.
Qed.

Lemma getChanged_ok J g a s : caches_ok (isCode := isCode) db trie0 w0 metaOf s → staged J g → is160 a →
  ∃ c s', getChanged a g s = Ok (c, s') ∧ changed_ok J (sgCount g) a c ∧
    (∀ n, chMeta c = freshMeta n → sgChanges g !! a = Some c) ∧
    caches_ok (isCode := isCode) db trie0 w0 metaOf s' ∧ stMap s' = stMap s.
Proof.
  intros Hs Hg Ha. unfold getChanged. destruct (sgChanges g !! a) as [c|] eqn:E.
  { exists c, s. destruct (staged_touched _ _ Hg a c E). by split_and!. }
  destruct (getCachedObject_ok db trie0 w0 metaOf Hbase a s Ha Hs) as (co & s' & Eo & Hco & Hm & _ & Hs').
  exists (MkChanged (coData co) (coMeta co) ∅ (coTrie co)), s'.
  unfold map_err, mbind, M_bind. rewrite Eo. split; [done|]. split; [apply untouched_ok; [by eapply staged_untouched|done]|].
  split_and!; [|done..]. simpl. intros n En. rewrite (object_meta _ _ _ _ _ Hco) in En.
  by destruct (Hfresh a n Ha); rewrite En.
Qed.

(** ** One entry *)
Definition key_addr (key : skey) : Address :=
  match key with accountKey a | codeKey a | storageKey a _ _ | storageBarrierKey a => a end.

Lemma replay_other (J : jrnl) key v key' : key_addr key' ≠ key_addr key → replay (J ++ [(key, v)]) !! key' = replay J !! key'.
Proof. intros Hne. rewrite replay_snoc, lookup_insert_ne; [done|]. by intros ->. Qed.

Lemma bar_other J key v a : key_addr key ≠ a → bar (J ++ [(key, v)]) a = bar J a.
Proof. intros Hne. unfold StateSpec.bar, StateSpec.val. by rewrite replay_other. Qed.

Lemma changed_other J key v a c count count' : key_addr key ≠ a → count ≤ count' →
  changed_ok J count a c → changed_ok (J ++ [(key, v)]) count' a c.
Proof.
  intros Hne Hle [Hd Hs Hb Hm]. split.
  - rewrite Hd. cbn [acct StateSpec.world_of]. unfold StateSpec.val. by rewrite replay_other.
  - intros k. rewrite Hs, bar_other by done. by rewrite replay_other.
  - by rewrite bar_other.
  - unfold baseMeta. rewrite bar_other by done. destruct Hm as [|(? & n & Hn & ?)]; [by left|].
    right. split; [done|]. exists n. split; [lia|done].
Qed.

Lemma untouched_other J key v a : key_addr key ≠ a → untouched J a → untouched (J ++ [(key, v)]) a.
Proof.
  intros Hne (U1 & U2 & U3). split_and!; [by rewrite replay_other..|]. intros b k. by rewrite replay_other.
Qed.

(** The fresh metadata of an account has a number below the count. *)
Lemma fresh_below J g b c n : Z.of_nat (length J) < max64 → staged J g → is64 n → sgChanges g !! b = Some c →
  chMeta c = freshMeta n → n < sgCount g.
Proof.
  intros HJ Hg Hn E En. destruct (staged_touched _ _ Hg b c E) as [Hb [_ _ _ Hm]].
  pose proof (staged_count _ _ Hg). destruct Hm as [[Hm _]|(_ & n' & Hn' & Hm)].
  - rewrite En in Hm. apply (f_equal StorageID) in Hm. unfold baseMeta in Hm. simpl in Hm.
    destruct (bar J b =? 0); [by destruct (Hfresh b n Hb)|by destruct (newStorageID_nonempty n)].
  - rewrite En in Hm. apply (f_equal StorageID), newStorageID_inj in Hm; [lia|done|ulia].
Qed.

Lemma staged_put J g key v c count : Z.of_nat (length J) < max64 → staged J g → is160 (key_addr key) →
  (∀ x, key ≠ codeKey x) → changed_ok (J ++ [(key, v)]) count (key_addr key) c →
  sgCount g ≤ count ≤ Z.of_nat (length J) + 1 →
  (∀ n, is64 n → chMeta c = freshMeta n → n = sgCount g ∨
    ∃ c0, sgChanges g !! key_addr key = Some c0 ∧ chMeta c0 = freshMeta n) →
  staged (J ++ [(key, v)]) (MkStaging (<[key_addr key := c]> (sgChanges g)) (sgCodes g) count).
Proof.
  intros HJ Hg Ha Hkey Hc Hcount Hmeta. pose proof (staged_count _ _ Hg) as Hge.
  assert (∀ b c' n, is64 n → b ≠ key_addr key → sgChanges g !! b = Some c' → chMeta c = freshMeta n → chMeta c' = freshMeta n → False) as Hid.
  { intros b c' n Hn Hne Eb En En'. destruct (Hmeta n Hn En) as [->|(c0 & E0 & En0)].
    - assert (sgCount g < sgCount g); [|lia]. eapply fresh_below; eauto.
    - apply Hne. eapply staged_ids; eauto. }
  split; simpl.
  - intros a c'. intros [[<- <-]|[Hne E]]%lookup_insert_Some; [done|].
    destruct (staged_touched _ _ Hg a c' E). split; [done|]. eapply changed_other; [done| |done]. lia.
  - intros a. intros [E Hne]%lookup_insert_None. apply untouched_other; [done|]. by eapply staged_untouched.
  - apply Hg.
  - intros a c'. rewrite replay_snoc, lookup_insert_ne by apply Hkey. by apply Hg.
  - intros a b ca cb n Hn. intros [[<- <-]|[Hne E]]%lookup_insert_Some [[<- <-]|[Hne' E']]%lookup_insert_Some En En'; [done|..].
    + destruct (Hid b cb n); eauto.
    + destruct (Hid a ca n); eauto.
    + by eapply staged_ids.
  - rewrite length_app. simpl. lia.
Qed.

Lemma baseMeta_nil J a : is160 a → StorageID (baseMeta J a) = [] → baseMeta J a = metadata0.
Proof.
  unfold baseMeta. intros Ha. destruct (bar J a =? 0); [|done]. intros E.
  destruct (Hbase a Ha) as [_ _ _ _ Hno _ Hst]. apply Hno.
  destruct (StorageRoot (acct w0 a)) as [|x l] eqn:Er; [done|]. destruct (Hst) as (t & m & Eo & _); [done|].
  unfold openedStorage, openStorage, StorageTrieName in Eo. by rewrite E in Eo.
Qed.

Lemma acct_snoc J key v a : (∀ a, key ≠ accountKey a) → acct (world_of (J ++ [(key, v)])) a = acct (world_of J) a.
Proof. intros Hne. cbn [acct StateSpec.world_of]. by rewrite val_snoc, decide_False by apply Hne. Qed.

Lemma changed_account J count a c v : changed_ok J count a c →
  changed_ok (J ++ [(accountKey a, VAccount v)]) count a (c <| chData := v |>).
Proof.
  intros [Hd Hs Hb Hm]. split; unfold baseMeta; rewrite ?bar_snoc by done; [|intros k|done..].
  - simpl. by rewrite val_snoc, decide_True.
  - rewrite replay_snoc, lookup_insert_ne by done. apply Hs.
Qed.

Lemma changed_slot J count a c k raw meta count' : changed_ok J count a c → count ≤ count' →
  (meta = chMeta c ∧ StorageID meta ≠ [] ∨
   StorageID (chMeta c) = [] ∧ ∃ n, 0 ≤ n < count' ∧ meta = freshMeta n) → 
  changed_ok (J ++ [(storageKey a (bar J a) k, VRaw raw)]) count' a
    (MkChanged (chData c) meta (<[k := raw]> (chStorage c)) (chBase c)).
Proof.
  intros [Hd Hs Hb Hm] Hle Hmeta. split; simpl; unfold baseMeta; rewrite ?bar_snoc by done; [|intros k'|done..|].
  - rewrite Hd. symmetry. by apply acct_snoc.
  - rewrite replay_snoc. destruct (decide (k = k')) as [<-|Hne]; [by rewrite !lookup_insert_eq|].
    rewrite !lookup_insert_ne by congruence. apply Hs.
  - fold (baseMeta J a). destruct Hmeta as [[-> Hid]|[Hnil Hmeta]].
    + destruct Hm as [[Hm _]|(Hnil & n & Hn & Hm)]; [left; split; [done|left; by rewrite <- Hm]|].
      right. split; [done|]. exists n. split; [lia|done].
    + right. split; [|done]. destruct Hm as [[Hm _]|(Hb' & _)]; [by rewrite <- Hm|done].
Qed.

Lemma changed_barrier J count a c : entries J → changed_ok J count a c →
  changed_ok (J ++ [(storageBarrierKey a, VInt (bar J a + 1))]) count a (MkChanged (chData c) metadata0 ∅ None).
Proof.
  intros [H1 H2]%entries_barrier [Hd Hs Hb Hm]. specialize (H1 a).
  assert (bar (J ++ [(storageBarrierKey a, VInt (bar J a + 1))]) a = bar J a + 1) as Eb.
  { unfold StateSpec.bar at 1. by rewrite val_snoc, decide_True. }
  split; simpl; unfold baseMeta; rewrite ?Eb; [|intros k|done|].
  - rewrite Hd. symmetry. by apply acct_snoc.
  - rewrite replay_snoc, lookup_insert_ne by done. by rewrite H2 by lia.
  - left. rewrite (proj2 (Z.eqb_neq (bar J a + 1) 0)) by lia. auto.
Qed.

Lemma staged_addCode J g a c : entries J → isCode c → staged J g →
  staged (J ++ [(codeKey a, VCode c)])
    (if (0 <? length c)%nat then g <| sgCodes := <[keccak256 c := c]> (sgCodes g) |> else g).
Proof.
  intros HJ Hc Hg.
  assert (∀ b c' count, changed_ok J count b c' → changed_ok (J ++ [(codeKey a, VCode c)]) count b c') as Hch.
  { intros b c' count [Hd Hs Hb Hm]. split; unfold baseMeta; rewrite ?bar_snoc by done; [|intros k|done..].
    - rewrite Hd. symmetry. by apply acct_snoc.
    - rewrite replay_snoc, lookup_insert_ne by done. apply Hs. }
  assert (∀ b, untouched J b → untouched (J ++ [(codeKey a, VCode c)]) b) as Hun.
  { intros b (U1 & U2 & U3). split_and!; [| |intros b' k]; by rewrite replay_snoc, lookup_insert_ne. }
  pose proof (staged_count _ _ Hg) as Hcount.
  destruct (Nat.ltb_spec 0 (length c)) as [Hl|Hl]; (split; simpl; rewrite ?length_app; simpl;
    [intros b c' E; destruct (staged_touched _ _ Hg b c' E); by eauto|intros b E; apply Hun; by eapply staged_untouched| | | |lia]);
    try by apply Hg.
  - intros h c'. intros [[<- <-]|[_ E]]%lookup_insert_Some; [|by apply Hg].
    split_and!; [done..|]. intros ->. simpl in Hl. lia.
  - intros b c'. rewrite replay_snoc. intros [[_ [= ->]]|[_ E]]%lookup_insert_Some Hne; [by rewrite lookup_insert_eq|].
    pose proof (staged_code _ _ Hg b c' E Hne) as E'. destruct (decide (keccak256 c = keccak256 c')) as [Eh|]; [|by rewrite lookup_insert_ne].
    rewrite Eh, lookup_insert_eq. f_equal. apply keccak_inj; [done| |done]. by destruct (staged_codes _ _ Hg _ _ E') as (_ & ? & _).
  - intros b c'. rewrite replay_snoc. intros [[_ [= ->]]|[_ E]]%lookup_insert_Some Hne; [|by eapply staged_code].
    destruct c'; [done|simpl in Hl; lia].
Qed.

Lemma stageEntry_ok J g e s : Z.of_nat (length J) < max64 - 1 → entries J → entry_ok (isCode := isCode) w0 J e →
  staged J g → caches_ok (isCode := isCode) db trie0 w0 metaOf s →
  ∃ g' s', stageEntry newVer g e s = Ok (g', s') ∧ staged (J ++ [e]) g' ∧
    caches_ok (isCode := isCode) db trie0 w0 metaOf s' ∧ stMap s' = stMap s.
Proof.
  intros HJl HJ (Ht & Hk & He) Hg Hs. pose proof (staged_count _ _ Hg) as Hcount.
  assert (Z.of_nat (length J) < max64) as HJl' by lia.
  destruct e as [[a|a|a b k|a] [v|c|raw|z]]; try done; cbn [key_ok fst] in Hk; cbn [stageEntry].
  - destruct (getChanged_ok J g a s Hs Hg Hk) as (c & s' & E & Hc & Hf & Hs' & Em).
    eexists _, s'. unfold mbind, M_bind. rewrite E. split; [done|]. split; [|done].
    apply (staged_put J g (accountKey a) _ _ (sgCount g)); [done..| |lia|]; [by apply changed_account|].
    simpl. intros n Hn En. right. eauto.
  - eexists _, s. split; [done|]. split; [|done]. by apply staged_addCode.
  - destruct Hk as [Ha Hk]. subst b. destruct (getChanged_ok J g a s Hs Hg Ha) as (c & s' & E & Hc & Hf & Hs' & Em).
    unfold mbind, M_bind. rewrite E. cbn [lift as_bytes chMeta].
    destruct (Nat.eqb_spec (length (StorageID (chMeta c))) 0) as [El|El].
    + assert (StorageID (chMeta c) = []) as Hnil by (by apply nil_length_inv).
      assert (chMeta c = metadata0) as Em0.
      { destruct (changed_meta _ _ _ _ Hc) as [[Hm _]|(_ & n & _ & Hm)].
        - rewrite Hm in Hnil |- *. by apply baseMeta_nil.
        - rewrite Hm in Hnil. by destruct (newStorageID_nonempty n). }
      eexists _, s'. split; [cbn [set_field]; simpl; rewrite Em0; done|]. split; [|done].
      rewrite wrap64_id by ulia.
      apply (staged_put J g (storageKey a (bar J a) k) _ _ (sgCount g + 1)); [done..| |lia|].
      * apply (changed_slot J (sgCount g) a c k raw (freshMeta (sgCount g))); [done|lia|]. right. split; [done|]. exists (sgCount g). split; [lia|done].
      * simpl. intros n Hn En. left. apply (f_equal StorageID), newStorageID_inj in En; [done|ulia|done].
    + eexists _, s'. split; [simpl; rewrite (proj2 (Nat.eqb_neq _ _) El); done|]. split; [|done].
      apply (staged_put J g (storageKey a (bar J a) k) _ _ (sgCount g)); [done..| |lia|].
      * apply (changed_slot J (sgCount g) a c k raw (chMeta c)); [done|lia|]. left. split; [done|]. intros E0. by rewrite E0 in El.
      * simpl. intros n Hn En. right. eauto.
  - destruct (getChanged_ok J g a s Hs Hg Hk) as (c & s' & E & Hc & Hf & Hs' & Em). subst z.
    eexists _, s'. unfold mbind, M_bind. rewrite E. split; [done|]. split; [|done].
    apply (staged_put J g (storageBarrierKey a) _ _ (sgCount g)); [done..| |lia|]; [by eapply changed_barrier|].
    simpl. intros n _ En. apply (f_equal StorageID) in En. by destruct (newStorageID_nonempty n).
Qed.

(** ** The whole journal *)
Lemma foldM_snoc {S A B} (f : B → A → M S B) b l x s :
  foldM f b (l ++ [x]) s = match foldM f b l s with Ok (b', s') => f b' x s' | Err e => Err e end.
Proof.
  revert b s. induction l as [|y l IH]; intros b s; simpl; unfold mbind, M_bind.
  - by destruct (f b x s) as [[]|].
  - destruct (f b y s) as [[b' s']|]; [apply IH|done].
Qed.

Lemma stage_fold J s : entries J → Z.of_nat (length J) < max64 → caches_ok (isCode := isCode) db trie0 w0 metaOf s →
  ∃ g s', foldM (stageEntry newVer) (MkStaging ∅ ∅ 0) J s = Ok (g, s') ∧ staged J g ∧
    caches_ok (isCode := isCode) db trie0 w0 metaOf s' ∧ stMap s' = stMap s.
Proof.
  intros HJ HJl Hs. induction HJ as [|J e HJ IH He].
  { exists (MkStaging ∅ ∅ 0), s. split; [done|]. split; [|done]. by split. }
  rewrite length_app in HJl. simpl in HJl. destruct IH as (g & s1 & E & Hg & Hs1 & Em1); [lia|].
  destruct (stageEntry_ok J g e s1) as (g' & s2 & E2 & Hg' & Hs2 & Em2); [lia|done..|].
  exists g', s2. rewrite foldM_snoc, E. split_and!; [done..|]. by rewrite Em2.
Qed.

Lemma entries_key J key v : entries J → replay J !! key = Some v → key_ok key.
Proof.
  induction 1 as [|J [key' v'] HJ IH (_ & Hk & _)]; [done|]. rewrite replay_snoc.
  intros [[<- _]|[_ ?]]%lookup_insert_Some; auto.
Qed.

(** ** Writing an account *)
Lemma opened_id a t : openedStorage db (acct w0 a) (metaOf a) = Ok t →
  StorageID (metaOf a) ≠ [] ∧ mtName t = StorageTrieNamePrefix ++ StorageID (metaOf a).
Proof.
  unfold openedStorage, openStorage, StorageTrieName. destruct (StorageID (metaOf a)); [done|].
  cbn [length Nat.eqb mbind result_bind]. intros [= <-]. done.
Qed.

(** The storage trie that the changes go into. *)
Lemma initial_storage J count a c : wfJ J → is160 a → changed_ok J count a c → chStorage c ≠ ∅ →
  ∃ t m, (if chBase c is Some t then Ok t
          else openStorage db (StorageID (chMeta c)) (BytesToBytes32 (StorageRoot (chData c))) (storageVer (chMeta c))) = Ok t ∧
    mtName t = StorageTrieNamePrefix ++ StorageID (chMeta c) ∧ mtContents t = Ok m ∧
    ∀ k, is256 k → slotOf m k = if bar J a =? 0 then slot w0 a k else [].
Proof.
  intros HJ Ha [Hd Hst Hb Hm] Hne. destruct (wfJ_accounts J HJ a Ha) as [Hroot _]. rewrite <- Hd in Hroot.
  destruct (Hbase a Ha) as [_ _ _ _ Hnometa Hnost Hopen].
  assert (∀ t, bar J a = 0 → openedStorage db (acct w0 a) (metaOf a) = Ok t → chMeta c = metaOf a) as Hmeta.
  { intros t Hbar [Hid _]%opened_id. unfold baseMeta in Hm. rewrite Hbar in Hm. simpl in Hm.
    destruct Hm as [[Hm _]|[E _]]; [done|by destruct Hid]. }
  destruct (chBase c) as [t|].
  { destruct (Hb t eq_refl) as (Hbar & Hr & Eo). destruct (Hopen Hr) as (t' & m & Eo' & Em & Hslots).
    assert (t' = t) as -> by congruence. exists t, m. rewrite (Hmeta t Hbar Eo), Hbar.
    destruct (opened_id a t Eo) as [_ En]. split_and!; [done..|]. simpl. intros k Hk. by rewrite Hslots. }
  destruct Hm as [[Hm [Hid|E]]|(Hid & n & Hn & Hm)]; [|by destruct Hne|].
  - unfold baseMeta in Hid, Hm. destruct (Z.eqb_spec (bar J a) 0) as [Hbar|]; [|done].
    assert (StorageRoot (acct w0 a) ≠ []) as Hr by (intros E; by rewrite (Hnometa E) in Hid).
    destruct (Hopen Hr) as (t & m & Eo & Em & Hslots). destruct (opened_id a t Eo) as [_ En]. exists t, m.
    rewrite Hm, Hroot. split_and!; [done..|]. intros k Hk. by rewrite Hslots.
  - assert (StorageRoot (chData c) = [] ∧ (bar J a = 0 → ∀ k, is256 k → slot w0 a k = [])) as [Er Hslots].
    { unfold baseMeta in Hid. rewrite Hroot. destruct (Z.eqb_spec (bar J a) 0) as [Hbar|]; [|done].
      assert (StorageRoot (acct w0 a) = []) as E; [|by auto].
      destruct (StorageRoot (acct w0 a)) as [|x l] eqn:E; [done|]. destruct Hopen as (t & m & [Hid' _]%opened_id & _); done. }
    exists (NewTrie db (StorageTrieNamePrefix ++ newStorageID newVer n) 0 (MkVersion 0 0)), ∅. rewrite Hm, Er.
    split; [|split_and!; [done| |]].
    + unfold openStorage, StorageTrieName, freshMeta. cbn [StorageID].
      destruct (newStorageID newVer n) eqn:E; [by destruct (newStorageID_nonempty n)|]. cbn [length Nat.eqb mbind result_bind]. reflexivity.
    + unfold NewTrie. cbn [mtContents]. by rewrite Z.eqb_refl, orb_true_r.
    + intros k Hk. unfold slotOf. rewrite lookup_empty. cbn [default from_option fst]. destruct (Z.eqb_spec (bar J a) 0); [by rewrite Hslots|done].
Qed.
End journal.
End stage.

(** ** What a stage writes *)
Section commit.
Context `{HRlp : Rlp} `{!RlpSpec} `{HCrypto : Crypto} `{!CryptoSpec} `{HDrlp : Drlp} `{HEnv : StateEnv}.
Context {isCode : bytes → Prop} `{HSpec : !StateEnvSpec isCode}.
Variable db : MuxDB.
Variable trie0 : MTrie.
Variable w0 : world.
Variable metaOf : Address → AccountMetadata.
Hypothesis Hbase : loaded (isCode := isCode) db trie0 w0 metaOf.
Variable newVer : Version.
Hypothesis Hver : is32 (Major newVer) ∧ is32 (Minor newVer).

Local Abbreviation bar := (bar w0) (only parsing).
Local Abbreviation world_of := (world_of w0) (only parsing).
Local Abbreviation wfJ := (wfJ (isCode := isCode) w0) (only parsing).
Local Abbreviation changed_ok := (changed_ok db w0 metaOf newVer) (only parsing).

(** ** One account *)
Section account.
Variable J : jrnl.
Hypothesis HJ : wfJ J.

(** What is written for a change: the account and metadata that are read back,
    and the storage trie. *)
Inductive written (a : Address) (c : changed) : Account → AccountMetadata → option MTrie → Prop :=
  | written_empty : Account_IsEmpty (chData c) = true → written a c emptyAccount metadata0 None
  | written_data : Account_IsEmpty (chData c) = false → chStorage c = ∅ →
      written a c (chData c) (if (0 <? length (StorageRoot (chData c)))%nat then chMeta c else metadata0) None
  | written_storage t ms : Account_IsEmpty (chData c) = false → chStorage c ≠ ∅ →
      mtName t = StorageTrieNamePrefix ++ StorageID (chMeta c) → mtContents t = Ok ms →
      (∀ k, is256 k → slotOf ms k = slot (world_of J) a k) →
      written a c ((chData c) <| StorageRoot := be 32 (trieHash ms) |>)
        (MkMetadata (StorageID (chMeta c)) (Major newVer) (Minor newVer)) (Some t).

Definition opt_list {A} (o : option A) : list A := match o with Some x => [x] | None => [] end.

Lemma loaded_fits a : is160 a → metadata_fits (metaOf a).
Proof.
  intros Ha. destruct (Hbase a Ha) as [E _ _ _ _ _ _]. unfold loadAccount in E.
  destruct (mt_Get trie0 (secureKey (be 20 a))) as [[data meta]|]; [|done]. cbn [mbind result_bind] in E.
  destruct (length data =? 0)%nat; [injection E as _ <-; done|].
  destruct (decoded (rlp_parse data ≫= Account_of)) as [acc|]; [|done]. cbn [mbind result_bind] in E.
  destruct (0 <? length meta)%nat; [|injection E as _ <-; done].
  unfold decoded in E. destruct (rlp_parse meta) as [i|]; [|done]. cbn [mbind option_bind] in E.
  unfold Metadata_of in E. destruct (list_of i) as [[|r0 [|r1 [|r2 []]]]|]; try done. cbn [mbind option_bind] in E.
  destruct (str_of r0) as [sid|]; [|done]. cbn [mbind option_bind] in E. unfold uint_of in E.
  destruct (num_of r1) as [z1|] eqn:E1; [|done]. cbn [mbind option_bind] in E.
  destruct (Z.ltb_spec z1 (2 ^ 32)); [|done]. cbn [mbind option_bind] in E.
  destruct (num_of r2) as [z2|] eqn:E2; [|done]. cbn [mbind option_bind] in E.
  destruct (Z.ltb_spec z2 (2 ^ 32)); [|done]. injection E as _ <-.
  apply num_of_inv in E1 as [? _], E2 as [? _]. split; simpl; ulia.
Qed.

Lemma changed_fits count a c : is160 a → changed_ok J count a c → metadata_fits (chMeta c).
Proof.
  intros Ha [_ _ _ Hm]. destruct Hm as [[-> _]|(_ & n & _ & ->)]; [|done].
  unfold baseMeta. destruct (bar J a =? 0); [by apply loaded_fits|done].
Qed.

Lemma stageAccount_ok count a c t m tries : is160 a → changed_ok J count a c → storable (acct (world_of J) a) →
  mtContents t = Ok m →
  ∃ m' a' am' tr, stageAccount db newVer (t, tries) (a, c) = Ok (MkMTrie (mtName t) (mtRoot t) (Ok m'), tries ++ opt_list tr) ∧
    written a c a' am' tr ∧ load_in m' a = Ok (a', am') ∧
    ∀ key, key ≠ secureKey (be 20 a) → m' !! key = m !! key.
Proof.
  intros Ha Hc Hst Em. pose proof (changed_fits count a c Ha Hc) as Hfits. unfold stageAccount.
  rewrite <- (changed_data _ _ _ _ _ _ _ _ Hc) in Hst.
  destruct (Account_IsEmpty (chData c)) eqn:Ee; cbn [negb andb].
  { destruct (saveAccount_ok t m a (chData c) (chMeta c) Em Hst Hfits) as (m' & -> & Hl & Hm').
    exists m', emptyAccount, metadata0, None. cbn [mbind result_bind opt_list]. rewrite app_nil_r.
    unfold stored in Hl. rewrite Ee in Hl. split_and!; [done|by apply written_empty|done..]. }
  destruct (decide (chStorage c = ∅)) as [E0|Hne].
  { rewrite E0, map_size_empty. cbn [Nat.ltb Nat.leb].
    destruct (saveAccount_ok t m a (chData c) (chMeta c) Em Hst Hfits) as (m' & -> & Hl & Hm').
    unfold stored in Hl. rewrite Ee in Hl. eexists m', _, _, None. cbn [mbind result_bind opt_list]. rewrite app_nil_r.
    split_and!; [done|by apply written_data|done..]. }
  assert ((0 <? size (chStorage c))%nat = true) as ->.
  { apply Nat.ltb_lt. destruct (size (chStorage c)) eqn:E; [by apply map_size_empty_inv in E|lia]. }
  destruct (initial_storage db trie0 w0 metaOf Hbase newVer J count a c HJ Ha Hc Hne) as (st & ms0 & -> & En & Ems & Hslots).
  cbn [mbind result_bind].
  destruct (save_slots (map_to_list (chStorage c)) st ms0 Ems) as (st' & ms & -> & En' & Ems' & Hms).
  { apply Forall_forall. intros k ([k' v] & -> & Hkv)%list_elem_of_fmap. apply elem_of_map_to_list in Hkv. simpl.
    rewrite (changed_storage _ _ _ _ _ _ _ _ Hc) in Hkv. apply fmap_Some in Hkv as (x & Hx & _).
    by destruct (entries_key w0 J _ _ (wfJ_entries w0 J HJ) Hx). }
  { apply NoDup_fst_map_to_list. }
  cbn [mbind result_bind]. rewrite list_to_map_to_list in Hms. set (a' := (chData c) <| StorageRoot := _ |>).
  destruct (saveAccount_ok t m a a' (MkMetadata (StorageID (chMeta c)) (Major newVer) (Minor newVer)) Em Hst Hver)
    as (m' & -> & Hl & Hm').
  assert (mt_Hash st' = trieHash ms) as Eh by (unfold mt_Hash; by rewrite Ems').
  exists m', a', (MkMetadata (StorageID (chMeta c)) (Major newVer) (Minor newVer)), (Some st').
  split; [done|]. split; [|split; [|done]].
  - subst a'. rewrite Eh. apply written_storage; [done..|by rewrite En', En|done|].
    intros k Hk. rewrite Hms, Hslots by done. rewrite (changed_storage _ _ _ _ _ _ _ _ Hc k).
    cbn [slot StateSpec.world_of]. unfold StateSpec.val. by destruct (replay J !! _).
  - rewrite Hl. unfold stored. replace (Account_IsEmpty a') with (Account_IsEmpty (chData c)) by done. rewrite Ee.
    subst a'. simpl StorageRoot. by rewrite be_length.
Qed.

(** ** All accounts *)
Definition change_ok (count : Z) (ac : Address * changed) : Prop := is160 ac.1 ∧ changed_ok J count ac.1 ac.2.

Lemma stageAccounts_ok count l t m tries : (∀ a, is160 a → storable (acct (world_of J) a)) →
  Forall (change_ok count) l → NoDup l.*1 → mtContents t = Ok m →
  ∃ m' trs, foldR (stageAccount db newVer) (t, tries) l = Ok (MkMTrie (mtName t) (mtRoot t) (Ok m'), tries ++ trs) ∧
    (∀ a c, (a, c) ∈ l → ∃ a' am' tr, written a c a' am' tr ∧ load_in m' a = Ok (a', am') ∧ ∀ x, tr = Some x → x ∈ trs) ∧
    (∀ a, is160 a → a ∉ l.*1 → load_in m' a = load_in m a) ∧
    (∀ x, x ∈ trs → ∃ a c a' am', (a, c) ∈ l ∧ written a c a' am' (Some x)) ∧
    ((∀ a c a' c', (a, c) ∈ l → (a', c') ∈ l → chStorage c ≠ ∅ → chStorage c' ≠ ∅ →
       StorageID (chMeta c) = StorageID (chMeta c') → a = a') → NoDup (map mtName trs)).
Proof.
  intros Hst. revert t m tries. induction l as [|[a c] l IH]; intros t m tries Hl Hnd Em.
  { exists m, []. rewrite app_nil_r. split_and!; [destruct t; simpl in *; by subst|set_solver..|].
    intros _. constructor. }
  apply Forall_cons in Hl as [[Ha Hc] Hl]. apply NoDup_cons in Hnd as [Hna Hnd]. cbn [foldR].
  destruct (stageAccount_ok count a c t m tries Ha Hc (Hst a Ha) Em) as (m1 & a1 & am1 & tr & -> & Hw & Hload & Hm1).
  cbn [mbind result_bind].
  destruct (IH (MkMTrie (mtName t) (mtRoot t) (Ok m1)) m1 (tries ++ opt_list tr) Hl Hnd eq_refl)
    as (m' & trs & E & Hin & Hout & Htrs & Hnames).
  exists m', (opt_list tr ++ trs). rewrite E, app_assoc. split; [done|].
  assert (∀ b, is160 b → b ≠ a → load_in m1 b = load_in m b) as Hother.
  { intros b Hb Hne. apply load_in_agree, Hm1. intros E'. by apply Hne, secureKey_address. }
  split_and!.
  - intros b cb [[= -> ->]|Hb]%elem_of_cons.
    + exists a1, am1, tr. split; [done|]. split; [by rewrite Hout|]. intros x ->. set_solver.
    + destruct (Hin b cb Hb) as (a' & am' & tr' & ? & ? & Hx). exists a', am', tr'. split_and!; [done..|].
      intros x Ex. specialize (Hx x Ex). set_solver.
  - intros b Hb Hnb. rewrite fmap_cons in Hnb. apply not_elem_of_cons in Hnb as [? ?].
    rewrite Hout by done. by apply Hother.
  - intros x [Hx|Hx]%elem_of_app.
    + destruct tr as [y|]; simpl in Hx; [|by apply not_elem_of_nil in Hx]. apply list_elem_of_singleton in Hx as ->.
      exists a, c, a1, am1. split; [constructor|done].
    + destruct (Htrs x Hx) as (b & cb & a' & am' & ? & ?). exists b, cb, a', am'. split; [by constructor|done].
  - intros Hids. rewrite map_app. apply NoDup_app. split_and!.
    + destruct tr; simpl; [apply NoDup_singleton|constructor].
    + intros name Hn1 Hn2. destruct tr as [y|]; simpl in Hn1; [|by apply not_elem_of_nil in Hn1].
      apply list_elem_of_singleton in Hn1 as ->. apply list_elem_of_fmap in Hn2 as (x & Ex & Hx).
      destruct (Htrs x Hx) as (b & cb & a' & am' & Hb & Hwb).
      inversion Hw as [| |? ? ? Hs1 En1]; inversion Hwb as [| |? ? ? Hs2 En2]; subst. apply Hna.
      rewrite En1, En2 in Ex. apply app_inv_head in Ex. rewrite (Hids a c b cb); [|by constructor|by constructor|done..].
      apply list_elem_of_fmap. by exists (b, cb).
    + apply Hnames. intros b cb b' cb' H1 H2. apply Hids; by constructor.
Qed.
End account.

End commit.

(** ** Writing the tries *)
Lemma commit_tries `{StateEnv} (newVer : Version) trs d : NoDup (map mtName trs) → Forall (λ t, ∃ m, mtContents t = Ok m) trs →
  ∃ d', foldM (λ _ t, map_err stateError (mt_Commit t newVer)) tt trs d = Ok (tt, d') ∧ mdCodes d' = mdCodes d ∧
    (∀ t m, t ∈ trs → mtContents t = Ok m → m ≠ ∅ → mdTries d' !! (mtName t, newVer) = Some m) ∧
    (∀ name v, v ≠ newVer ∨ name ∉ map mtName trs → mdTries d' !! (name, v) = mdTries d !! (name, v)).
Proof.
  revert d. induction trs as [|t trs IH]; intros d Hnd Hok; [exists d; split_and!; [done..|set_solver|done]|].
  cbn [map] in Hnd. apply NoDup_cons in Hnd as [Hnt Hnd]. apply Forall_cons in Hok as [[m Em] Hok]. cbn [foldM].
  set (d1 := if bool_decide (m = ∅) then d else MkMuxDB (<[(mtName t, newVer) := m]> (mdTries d)) (mdCodes d)).
  assert (map_err stateError (mt_Commit t newVer) d = Ok (tt, d1)) as E1.
  { unfold map_err, mt_Commit. by rewrite Em. }
  destruct (IH d1 Hnd Hok) as (d' & E & Ec & Hin & Hout). exists d'. unfold mbind, M_bind. rewrite E1.
  split; [done|]. split; [rewrite Ec; unfold d1; by case_bool_decide|]. split.
  - intros t' m' [->|Ht]%elem_of_cons Em' Hne; [|by eapply Hin]. assert (m' = m) as -> by congruence.
    rewrite Hout by (by right). unfold d1. rewrite bool_decide_eq_false_2 by done. simpl. by rewrite lookup_insert_eq.
  - intros name v Hnv. cbn [map] in Hnv. rewrite Hout by set_solver. unfold d1. case_bool_decide; [done|]. simpl.
    rewrite lookup_insert_ne; [done|]. intros [= <- <-]. destruct Hnv as [?|Hn]; [done|]. apply Hn. constructor.
Qed.
