(* ===== verification/StateReopen.v ===== *)
(** * Reopening a committed state

    A committed state opened again is the world it had when it was staged, and
    the states committed before are still there. *)

From S2P Require Import Prelude Bytes External Thor Block BlockCorrect Trie StackedMap.
From S2P Require Import AccountState StateSpec StateCorrect StateStage.

Definition ver_ok (v : Version) : Prop := is32 (Major v) ∧ is32 (Minor v).

Lemma newStorageID_version v v' n n' : ver_ok v → ver_ok v' → newStorageID v n = newStorageID v' n' → v = v'.
Proof.
  intros [Hj Hn] [Hj' Hn'] E. unfold newStorageID in E. apply app_inj_1 in E as [E1 E2]; [|by rewrite !be_length].
  apply be_inj in E1; [|ulia..]. apply uvarint_app_inj in E2 as [E2 _]; [|ulia..]. destruct v, v'. simpl in *. by subst.
Qed.

Section reopen.
Context `{HRlp : Rlp} `{!RlpSpec} `{HCrypto : Crypto} `{!CryptoSpec} `{HDrlp : Drlp} `{HEnv : StateEnv}.
Context {isCode : bytes → Prop} `{HSpec : !StateEnvSpec isCode}.

Local Abbreviation loaded := (loaded (isCode := isCode)) (only parsing).

(** ** What stays in a database *)
Record extends (db db' : MuxDB) : Prop := {
  ext_tries : ∀ name v m, mdTries db !! (name, v) = Some m → mdTries db' !! (name, v) = Some m;
  ext_codes : ∀ c, c ≠ [] → isCode c → mdCodes db !! codeHashOf c = Some c → mdCodes db' !! codeHashOf c = Some c;
}.

Lemma NewTrie_extends db db' name h v m : extends db db' →
  mtContents (NewTrie db name h v) = Ok m → mtContents (NewTrie db' name h v) = Ok m.
Proof.
  intros [Ht _]. unfold NewTrie. cbn [mtContents]. destruct (_ || _); [done|].
  destruct (mdTries db !! (name, v)) as [m'|] eqn:E; [|done]. by rewrite (Ht _ _ _ E).
Qed.

Lemma opened_extends db db' a am t m : extends db db' → openedStorage db a am = Ok t → mtContents t = Ok m →
  ∃ t', openedStorage db' a am = Ok t' ∧ mtContents t' = Ok m.
Proof.
  intros Hext. unfold openedStorage, openStorage. destruct (StorageTrieName (StorageID am)) as [name|]; [|done].
  cbn [mbind result_bind]. intros [= <-] Em. eexists. split; [done|]. by eapply NewTrie_extends.
Qed.

Lemma loaded_at_extends db db' t t' a acc am c st : extends db db' → loadAccount t' a = loadAccount t a →
  loaded_at (isCode := isCode) db t a acc am c st → loaded_at (isCode := isCode) db' t' a acc am c st.
Proof.
  intros Hext El [H1 H2 H3 H4 H5 H6 H7]. split; [by rewrite El|done..| |done|done|].
  - intros Hne. apply (ext_codes _ _ Hext); auto.
  - intros Hr. destruct (H7 Hr) as (s & m & Eo & Em & Hm). destruct (opened_extends db db' acc am s m Hext Eo Em) as (s' & ? & ?).
    by exists s', m.
Qed.

Lemma loaded_contents db t w metaOf : loaded db t w metaOf → ∃ m, mtContents t = Ok m.
Proof.
  intros Hl. destruct (Hl 0) as [E _ _ _ _ _ _]; [unfold is160; lia|]. unfold loadAccount, mt_Get in E.
  destruct (mtContents t) as [m|]; [by exists m|done].
Qed.

Lemma loaded_extends db db' h v w metaOf : extends db db' →
  loaded db (NewTrie db AccountTrieName h v) w metaOf → loaded db' (NewTrie db' AccountTrieName h v) w metaOf.
Proof.
  intros Hext Hl a Ha. destruct (loaded_contents _ _ _ _ Hl) as [m Em].
  eapply loaded_at_extends; [done| |by apply Hl]. rewrite !(loadAccount_in _ m); [done|done|]. by eapply NewTrie_extends.
Qed.

(** ** The code of a stage *)
Lemma putCodes l d : NoDup l.*1 → Forall (λ hc, is256 hc.1) l →
  mdTries (foldl putCode d l) = mdTries d ∧
  (∀ h c, (h, c) ∈ l → mdCodes (foldl putCode d l) !! be 32 h = Some c) ∧
  (∀ hb, (∀ h c, (h, c) ∈ l → be 32 h ≠ hb) → mdCodes (foldl putCode d l) !! hb = mdCodes d !! hb).
Proof.
  revert d. induction l as [|[h c] l IH]; intros d Hnd Hl; [split_and!; [done|set_solver|done]|].
  apply NoDup_cons in Hnd as [Hn Hnd]. apply Forall_cons in Hl as [Hh Hl]. cbn [foldl].
  destruct (IH (putCode d (h, c)) Hnd Hl) as (IH1 & IH2 & IH3). split_and!; [done|..].
  - intros h' c' [[= -> ->]|Hin]%elem_of_cons; [|by apply IH2]. rewrite IH3; [simpl; by rewrite lookup_insert_eq|].
    intros h2 c2 Hin E. apply be_inj in E; [|by apply (proj1 (Forall_forall _ _) Hl _ Hin)|done].
    apply Hn, list_elem_of_fmap. exists (h2, c2). by subst.
  - intros hb Hhb. rewrite IH3 by (intros; eapply Hhb; by constructor). simpl. apply lookup_insert_ne.
    eapply Hhb. constructor.
Qed.

(** ** The invariant of a committed state

    [vers] are the versions the database has used: a storage trie is named after
    the version that made it, and no two accounts share one. *)
Record well_stored (db : MuxDB) (vers : gset Version) (h : Bytes32) (ver : Version) (w : world)
    (metaOf : Address → AccountMetadata) : Prop := {
  ws_loaded : loaded db (NewTrie db AccountTrieName h ver) w metaOf;
  ws_empty : ∀ a, is160 a → Account_IsEmpty (acct w a) = true → acct w a = emptyAccount;
  ws_ids : ∀ a b, is160 a → is160 b → StorageID (metaOf a) ≠ [] → StorageID (metaOf a) = StorageID (metaOf b) → a = b;
  ws_made : ∀ a, is160 a → StorageID (metaOf a) ≠ [] → ∃ v n, v ∈ vers ∧ StorageID (metaOf a) = newStorageID v n;
  ws_tries : ∀ name v m, mdTries db !! (name, v) = Some m → v ∈ vers;
  ws_versions : ∀ v, v ∈ vers → ver_ok v;
}.

Lemma ws_fresh db vers h ver w metaOf newVer : well_stored db vers h ver w metaOf → ver_ok newVer → newVer ∉ vers →
  ∀ a n, is160 a → StorageID (metaOf a) ≠ newStorageID newVer n.
Proof.
  intros Hw Hv Hn a n Ha E. destruct (ws_made _ _ _ _ _ _ Hw a Ha) as (v & n' & Hin & E').
  - rewrite E. apply newStorageID_nonempty.
  - rewrite E in E'. apply newStorageID_version in E'; [by subst|done|]. by eapply ws_versions.
Qed.

(** What staging keeps of a world: an empty account loses its storage. *)
Definition settled_at (w w' : world) (a : Address) : Prop :=
  if Account_IsEmpty (acct w a) then acct w' a = emptyAccount ∧ code w' a = [] ∧ ∀ k, is256 k → slot w' a k = []
  else Balance (acct w' a) = Balance (acct w a) ∧ Energy (acct w' a) = Energy (acct w a) ∧
    BlockTime (acct w' a) = BlockTime (acct w a) ∧ Master (acct w' a) = Master (acct w a) ∧
    CodeHash (acct w' a) = CodeHash (acct w a) ∧ code w' a = code w a ∧
    ∀ k, is256 k → slot w' a k = slot w a k.
Definition settled (w w' : world) : Prop := ∀ a, is160 a → settled_at w w' a.

(** A trie is found again under its hash. *)
Lemma NewTrie_hash d name m v : (m ≠ ∅ → mdTries d !! (name, v) = Some m) →
  mtContents (NewTrie d name (trieHash m) v) = Ok m.
Proof.
  intros Hm. unfold NewTrie. cbn [mtContents]. rewrite (proj2 (Z.eqb_neq (trieHash m) 0)), orb_false_r by apply trieHash_nonzero.
  destruct (Z.eqb_spec (trieHash m) (from_be emptyRoot)) as [E|E].
  - apply trieHash_empty in E as ->. done.
  - rewrite Hm; [done|]. intros ->. by apply E, trieHash_empty.
Qed.

Lemma BytesToBytes32_be z : is256 z → BytesToBytes32 (be 32 z) = z.
Proof.
  intros Hz. unfold BytesToBytes32. rewrite be_length, drop_0, from_be_be. apply Z.mod_small. unfold is256 in Hz. lia.
Qed.

Lemma codeHashOf_nil c : codeHashOf c = [] → c = [].
Proof. intros E. pose proof (codeHashOf_length c) as El. rewrite E in El. by destruct c. Qed.

Lemma empty_codeHash a : Account_IsEmpty a = true → CodeHash a = [].
Proof. unfold Account_IsEmpty. intros E. apply andb_true_iff in E as [_ E]. apply Nat.eqb_eq in E. by apply nil_length_inv. Qed.

Section staged.
Variables (db : MuxDB) (vers : gset Version) (h : Bytes32) (ver : Version).
Variables (w0 : world) (metaOf : Address → AccountMetadata).
Hypothesis Hws : well_stored db vers h ver w0 metaOf.
Variable newVer : Version.
Hypothesis Hver : ver_ok newVer.
Hypothesis Hnew : newVer ∉ vers.
Variable J : jrnl.
Hypothesis HJ : wfJ (isCode := isCode) w0 J.
Hypothesis HJl : Z.of_nat (length J) < max64.

Local Abbreviation trie0 := (NewTrie db AccountTrieName h ver) (only parsing).
Local Abbreviation W := (world_of w0 J) (only parsing).
Hypothesis Hstorable : ∀ a, is160 a → storable (acct W a).

(** The storage of a change has the identifier it had, or a new one. *)
Lemma changed_id g b c : staged (isCode := isCode) db w0 metaOf newVer J g → sgChanges g !! b = Some c →
  chStorage c ≠ ∅ → is160 b ∧
    ((StorageID (metaOf b) ≠ [] ∧ StorageID (chMeta c) = StorageID (metaOf b)) ∨
     ∃ n, 0 ≤ n < sgCount g ∧ chMeta c = freshMeta newVer n).
Proof.
  intros Hg Eb Hneb. destruct (staged_touched _ _ _ _ _ _ Hg b c Eb) as [Hb [_ _ _ Hm]]. split; [done|].
  destruct Hm as [[Hm [Hid|?]]|(_ & Hn)]; [left|done|by right].
  unfold baseMeta in *. destruct (_ =? 0); [by rewrite Hm|done].
Qed.

(** Storage tries of different accounts have different names. *)
Lemma staged_names g a c a' c' : staged (isCode := isCode) db w0 metaOf newVer J g →
  sgChanges g !! a = Some c → sgChanges g !! a' = Some c' → chStorage c ≠ ∅ → chStorage c' ≠ ∅ →
  StorageID (chMeta c) = StorageID (chMeta c') → a = a'.
Proof.
  intros Hg E E' Hne Hne' Eid. pose proof (ws_fresh _ _ _ _ _ _ _ Hws Hver Hnew) as Hfresh.
  pose proof (staged_count _ _ _ _ _ _ Hg) as Hcount.
  destruct (changed_id g a c Hg E Hne) as [Ha [[Hid Hm]|(n & Hn & Hm)]], (changed_id g a' c' Hg E' Hne') as [Ha' [[Hid' Hm']|(n' & Hn' & Hm')]].
  - apply (ws_ids _ _ _ _ _ _ Hws); [done..|congruence].
  - rewrite Hm, Hm' in Eid. by destruct (Hfresh a n' Ha).
  - rewrite Hm, Hm' in Eid. symmetry in Eid. by destruct (Hfresh a' n Ha').
  - rewrite Hm, Hm' in Eid. apply newStorageID_inj in Eid as ->; [|ulia..].
    eapply (staged_ids _ _ _ _ _ _ Hg a a' c c' n'); [ulia|done..].
Qed.

(** The stage of a state with the journal [J]. *)
Record stages (g : staging) (m' : contents) (trs : list MTrie) (m0 : contents) : Prop := {
  stages_g : staged (isCode := isCode) db w0 metaOf newVer J g;
  stages_base : mtContents trie0 = Ok m0;
  stages_in : ∀ a c, sgChanges g !! a = Some c → ∃ a' am' tr,
    written w0 newVer J a c a' am' tr ∧ load_in m' a = Ok (a', am') ∧ ∀ x, tr = Some x → x ∈ trs;
  stages_out : ∀ a, is160 a → sgChanges g !! a = None → load_in m' a = load_in m0 a;
  stages_tries : ∀ x, x ∈ trs → ∃ a c a' am', sgChanges g !! a = Some c ∧ written w0 newVer J a c a' am' (Some x);
  stages_names : NoDup (map mtName trs);
}.

Definition stage_of (g : staging) (m' : contents) (trs : list MTrie) : Stage :=
  MkStage (trieHash m') (sgCodes g) (trs ++ [MkMTrie AccountTrieName h (Ok m')]) newVer.

Lemma state_Stage_ok s Js : on (isCode := isCode) db trie0 w0 metaOf s J Js →
  ∃ g m' trs m0 s', state_Stage db newVer s = Ok (stage_of g m' trs, s') ∧ stages g m' trs m0.
Proof.
  intros [Hi Hc _]. pose proof (ws_loaded _ _ _ _ _ _ Hws) as Hl. destruct (loaded_contents _ _ _ _ Hl) as [m0 Em0].
  destruct (stage_fold db trie0 w0 metaOf Hl newVer (ws_fresh _ _ _ _ _ _ _ Hws Hver Hnew) J s
    (wfJ_entries w0 J HJ) HJl Hc) as (g & s1 & Eg & Hg & Hc1 & Em1).
  destruct (stageAccounts_ok db trie0 w0 metaOf Hl newVer Hver J HJ (sgCount g) (map_to_list (sgChanges g)) trie0 m0 [])
    as (m' & trs & El & Hin & Hout & Htrs & Hnames); [done| |apply NoDup_fst_map_to_list|done|].
  { apply Forall_forall. intros [a c] Hac%elem_of_map_to_list. by apply (staged_touched _ _ _ _ _ _ Hg). }
  exists g, m', trs, m0, s1. split.
  - unfold state_Stage, gets, mbind, M_bind, map_err, lift. rewrite (Journal_ok _ _ _ Hi), Eg, (caches_trie _ _ _ _ _ Hc1), El.
    done.
  - split; [done..| | | |].
    + intros a c E. apply Hin. by apply elem_of_map_to_list.
    + intros a Ha E. apply Hout; [done|]. intros ([a' c] & -> & Hac)%list_elem_of_fmap.
      apply elem_of_map_to_list in Hac. simpl in E. congruence.
    + intros x Hx. destruct (Htrs x Hx) as (a & c & a' & am' & Hac & Hw). exists a, c, a', am'.
      by rewrite <- elem_of_map_to_list.
    + apply Hnames. intros a c a' c' H1%elem_of_map_to_list H2%elem_of_map_to_list. by eapply staged_names.
Qed.

(** The database after the commit. *)
Record commits (g : staging) (m' : contents) (trs : list MTrie) (db' : MuxDB) : Prop := {
  commits_extends : extends db db';
  commits_new : ∀ name v m, mdTries db' !! (name, v) = Some m → v ∈ {[newVer]} ∪ vers;
  commits_tries : ∀ t m, t ∈ trs → mtContents t = Ok m → m ≠ ∅ → mdTries db' !! (mtName t, newVer) = Some m;
  commits_accounts : m' ≠ ∅ → mdTries db' !! (AccountTrieName, newVer) = Some m';
  commits_codes : ∀ hc c, sgCodes g !! hc = Some c → mdCodes db' !! be 32 hc = Some c;
}.

Lemma Stage_Commit_ok g m' trs m0 : stages g m' trs m0 →
  ∃ db', Stage_Commit (stage_of g m' trs) db = Ok (trieHash m', db') ∧ commits g m' trs db'.
Proof.
  intros [Hg _ _ _ Htrs Hnames].
  assert (∀ hc c, (hc, c) ∈ map_to_list (sgCodes g) → hc = keccak256 c ∧ isCode c ∧ c ≠ []) as Hcodes.
  { intros hc c E%elem_of_map_to_list. by apply (staged_codes _ _ _ _ _ _ Hg). }
  destruct (putCodes (map_to_list (sgCodes g)) db) as (P1 & P2 & P3); [apply NoDup_fst_map_to_list| |].
  { apply Forall_forall. intros [hc c] E. destruct (Hcodes hc c E) as [-> _]. apply keccak_range. }
  destruct (commit_tries newVer (trs ++ [MkMTrie AccountTrieName h (Ok m')]) (foldl putCode db (map_to_list (sgCodes g))))
    as (db' & E & Ec & Hin & Hout).
  { rewrite map_app. apply NoDup_app. split_and!; [done| |apply NoDup_singleton].
    intros name Hname E%list_elem_of_singleton. apply list_elem_of_fmap in Hname as (x & -> & Hx).
    destruct (Htrs x Hx) as (a & c & a' & am' & _ & Hw). inversion Hw as [| |? ? ? ? En]; subst. by rewrite En in E. }
  { apply Forall_app. split; [|by constructor; [eauto|]]. apply Forall_forall. intros x Hx.
    destruct (Htrs x Hx) as (a & c & a' & am' & _ & Hw). inversion Hw; subst. by eexists. }
  exists db'. split.
  { unfold Stage_Commit, modify, mbind, M_bind, stage_of, Stage_Hash. cbn [sgCommitCodes sgTries sgNewVer sgRoot]. by rewrite E. }
  assert (∀ name m, mdTries db !! (name, newVer) ≠ Some m) as Hno.
  { intros name m Em. by apply Hnew, (ws_tries _ _ _ _ _ _ Hws) with (name := name) (m := m). }
  split.
  - split.
    + intros name v m Em. rewrite Hout, P1; [done|]. left. intros ->. by eapply Hno.
    + intros c Hne Hc Em. rewrite Ec. destruct (decide (is_Some (sgCodes g !! keccak256 c))) as [[c' E']|Hnone].
      * destruct (staged_codes _ _ _ _ _ _ Hg _ _ E') as (Eh & Hc' & _). apply keccak_inj in Eh as <-; [|done..].
        unfold codeHashOf. destruct c as [|x c]; [done|]. cbn [length Nat.ltb Nat.leb]. apply P2. by apply elem_of_map_to_list.
      * rewrite P3; [done|]. intros hc c' Hin' Eh. destruct (Hcodes hc c' Hin') as (-> & Hc' & Hne').
        apply elem_of_map_to_list in Hin'. unfold codeHashOf in Eh. destruct c as [|x c]; [done|].
        cbn [length Nat.ltb Nat.leb] in Eh. apply be_inj in Eh; [|apply keccak_range..]. apply Hnone. rewrite <- Eh. by eexists.
  - intros name v m Em. destruct (decide (v = newVer)) as [->|Hne]; [set_solver|].
    rewrite Hout, P1 in Em by (by left). apply elem_of_union_r. by eapply (ws_tries _ _ _ _ _ _ Hws).
  - intros t m Ht Em Hne. apply Hin; [set_solver|done..].
  - intros Hne. apply (Hin (MkMTrie AccountTrieName h (Ok m')) m'); [set_solver|done..].
  - intros hc c E'. rewrite Ec. apply P2. by apply elem_of_map_to_list.
Qed.

(** ** The new world *)
Definition reopened (m' : contents) : world := MkWorld
  (λ a, match load_in m' a with Ok (x, _) => x | Err _ => emptyAccount end)
  (λ a, if Account_IsEmpty (acct W a) then [] else code W a)
  (λ a k, if Account_IsEmpty (acct W a) then [] else slot W a k).
Definition reopenedMeta (m' : contents) (a : Address) : AccountMetadata :=
  match load_in m' a with Ok (_, am) => am | Err _ => metadata0 end.

(** What holds of one account after the commit. *)
Record reopens (g : staging) (m' : contents) (db' : MuxDB) (a : Address) : Prop := {
  reopens_loaded : loaded_at (isCode := isCode) db' (NewTrie db' AccountTrieName (trieHash m') newVer) a
    (acct (reopened m') a) (reopenedMeta m' a) (code (reopened m') a) (slot (reopened m') a);
  reopens_settled : settled_at W (reopened m') a;
  reopens_empty : Account_IsEmpty (acct (reopened m') a) = true → acct (reopened m') a = emptyAccount;
  reopens_id : StorageID (reopenedMeta m' a) = [] ∨ StorageID (reopenedMeta m' a) = StorageID (metaOf a) ∨
    ∃ c, sgChanges g !! a = Some c ∧ chStorage c ≠ ∅ ∧ StorageID (reopenedMeta m' a) = StorageID (chMeta c);
}.

Lemma reopen_loads g m' trs db' a x : commits g m' trs db' → load_in m' a = Ok x →
  loadAccount (NewTrie db' AccountTrieName (trieHash m') newVer) a = Ok x.
Proof.
  intros Hc Ex. rewrite (loadAccount_in _ m'); [done|]. apply NewTrie_hash. by apply (commits_accounts _ _ _ _ Hc).
Qed.

(** The code of an account is in the database. *)
Lemma reopen_code g m' trs db' m0 a : stages g m' trs m0 → commits g m' trs db' → is160 a → code W a ≠ [] →
  mdCodes db' !! codeHashOf (code W a) = Some (code W a).
Proof.
  intros Hst Hc Ha Hne. destruct (wfJ_accounts db trie0 w0 metaOf (ws_loaded _ _ _ _ _ _ Hws) J HJ a Ha) as (_ & _ & Hic).
  destruct (replay J !! codeKey a) as [v|] eqn:E.
  - pose proof (val_code w0 J a (wfJ_typed w0 J HJ)) as Ev. unfold StateSpec.val in Ev. rewrite E in Ev. simpl in Ev.
    assert (v = VCode (code W a)) as -> by done.
    pose proof (staged_code _ _ _ _ _ _ (stages_g _ _ _ _ Hst) a (code W a) E Hne) as Eg.
    apply (commits_codes _ _ _ _ Hc) in Eg. unfold codeHashOf. destruct (code W a) eqn:Ec; [done|]. done.
  - assert (code W a = code w0 a) as Ec by (cbn [code StateSpec.world_of]; unfold StateSpec.val; by rewrite E).
    rewrite Ec in *. apply (ext_codes _ _ (commits_extends _ _ _ _ Hc)); [done..|].
    by apply (at_code _ _ _ _ _ _ _ (ws_loaded _ _ _ _ _ _ Hws a Ha)).
Qed.

(** An account without an entry in the journal. *)
Lemma reopen_untouched g m' trs db' m0 a : stages g m' trs m0 → commits g m' trs db' → is160 a →
  sgChanges g !! a = None → reopens g m' db' a.
Proof.
  intros Hst Hc Ha E. pose proof (ws_loaded _ _ _ _ _ _ Hws) as Hl. pose proof (Hl a Ha) as Hat.
  destruct (staged_untouched _ _ _ _ _ _ (stages_g _ _ _ _ Hst) a E) as (U1 & U2 & U3).
  assert (bar w0 J a = 0) as Hb by (unfold StateSpec.bar, StateSpec.val; by rewrite U2).
  assert (acct W a = acct w0 a) as Ea by (cbn [acct StateSpec.world_of]; unfold StateSpec.val; by rewrite U1).
  assert (code W a = code w0 a) as Ec.
  { cbn [code StateSpec.world_of]. unfold StateSpec.val. by rewrite (wfJ_code _ _ _ HJ U1). }
  assert (∀ k, slot W a k = slot w0 a k) as Es.
  { intros k. cbn [slot StateSpec.world_of]. unfold StateSpec.val. rewrite U3, Hb. done. }
  assert (load_in m' a = Ok (acct w0 a, metaOf a)) as El.
  { rewrite (stages_out _ _ _ _ Hst a Ha E), <- (at_account _ _ _ _ _ _ _ Hat). symmetry.
    apply loadAccount_in. apply (stages_base _ _ _ _ Hst). }
  assert (Account_IsEmpty (acct w0 a) = true → code w0 a = [] ∧ ∀ k, is256 k → slot w0 a k = []) as Hempty.
  { intros He. split.
    - apply codeHashOf_nil. rewrite <- (at_codeHash _ _ _ _ _ _ _ Hat). by apply empty_codeHash.
    - apply (at_noStorage _ _ _ _ _ _ _ Hat). by rewrite (ws_empty _ _ _ _ _ _ Hws a Ha He). }
  assert (code (reopened m') a = code w0 a ∧ ∀ k, is256 k → slot (reopened m') a k = slot w0 a k) as [Ec' Es'].
  { cbn [code slot reopened]. rewrite Ea, Ec. destruct (Account_IsEmpty (acct w0 a)); [|by auto].
    destruct Hempty as [-> Hs]; [done|]. split; [done|]. intros k Hk. by rewrite Hs. }
  assert (acct (reopened m') a = acct w0 a ∧ reopenedMeta m' a = metaOf a) as [Ea' Em'].
  { unfold reopenedMeta. cbn [acct reopened]. by rewrite El. }
  split; rewrite ?Ea', ?Em', ?Ec'; [| |by apply (ws_empty _ _ _ _ _ _ Hws)|by right; left].
  - assert (loaded_at (isCode := isCode) db' (NewTrie db' AccountTrieName (trieHash m') newVer) a (acct w0 a)
      (metaOf a) (code w0 a) (slot w0 a)) as [H1 H2 H3 H4 H5 H6 H7].
    { eapply loaded_at_extends; [apply Hc| |exact Hat]. rewrite (at_account _ _ _ _ _ _ _ Hat). by eapply reopen_loads. }
    split; [done..| |].
    + intros Hr k Hk. rewrite Es' by done. by apply H6.
    + intros Hr. destruct (H7 Hr) as (t & m & ? & ? & Hm). exists t, m. split_and!; [done..|].
      intros k Hk. rewrite Es' by done. by apply Hm.
  - unfold settled_at. rewrite Ea, Ea', Ec'. destruct (Account_IsEmpty (acct w0 a)) eqn:Ee.
    + destruct Hempty as [Hcn Hs]; [done|]. split_and!; [by apply (ws_empty _ _ _ _ _ _ Hws)|done|].
      intros k Hk. rewrite Es' by done. by apply Hs.
    + split_and!; [done..|]. intros k Hk. by rewrite Es', Es.
Qed.

(** An account whose data changed. *)
Lemma reopen_data g m' trs db' m0 a c : stages g m' trs m0 → commits g m' trs db' → sgChanges g !! a = Some c →
  Account_IsEmpty (acct W a) = false → chStorage c = ∅ →
  load_in m' a = Ok (acct W a, if (0 <? length (StorageRoot (acct W a)))%nat then chMeta c else metadata0) →
  reopens g m' db' a.
Proof.
  intros Hst Hc E He Hs El. pose proof (ws_loaded _ _ _ _ _ _ Hws) as Hl.
  destruct (staged_touched _ _ _ _ _ _ (stages_g _ _ _ _ Hst) a c E) as [Ha Hch].
  destruct (wfJ_accounts db trie0 w0 metaOf Hl J HJ a Ha) as (Hroot & Hhash & Hic).
  destruct (Hl a Ha) as [_ _ _ _ Hnometa Hnost Hopen].
  assert (∀ k, slot W a k = if bar w0 J a =? 0 then slot w0 a k else []) as Es.
  { intros k. pose proof (changed_storage _ _ _ _ _ _ _ _ Hch k) as Ek. rewrite Hs, lookup_empty in Ek.
    cbn [slot StateSpec.world_of]. unfold StateSpec.val. by destruct (replay J !! _). }
  assert (StorageRoot (acct W a) ≠ [] → chMeta c = metaOf a ∧ bar w0 J a = 0) as Hmeta.
  { rewrite Hroot. destruct (Z.eqb_spec (bar w0 J a) 0) as [Hb|]; [|done]. intros Hr. split; [|done].
    destruct (Hopen Hr) as (t & m & [Hid _]%opened_id & _).
    destruct (changed_meta _ _ _ _ _ _ _ _ Hch) as [[Hm _]|[Hm _]]; unfold baseMeta in Hm; rewrite Hb in Hm; done. }
  assert (acct (reopened m') a = acct W a ∧ code (reopened m') a = code W a ∧ slot (reopened m') a = slot W a) as (Ea & Ec & Esl).
  { cbn [acct code slot reopened]. by rewrite El, He. }
  assert (reopenedMeta m' a = if (0 <? length (StorageRoot (acct W a)))%nat then metaOf a else metadata0) as Em.
  { unfold reopenedMeta. rewrite El. destruct (StorageRoot (acct W a)) eqn:Er; [done|]. simpl. by apply Hmeta. }
  split; rewrite ?Ea, ?Ec, ?Esl; [| |by rewrite He|].
  - split.
    + rewrite Em. pose proof (reopen_loads _ _ _ _ _ _ Hc El) as ->. do 2 f_equal.
      destruct (StorageRoot (acct W a)) eqn:Er; [done|]. simpl. by apply Hmeta.
    + done.
    + done.
    + by eapply reopen_code.
    + intros Er. by rewrite Em, Er.
    + intros Er k Hk. rewrite Es. rewrite Hroot in Er. destruct (_ =? 0); [by apply Hnost|done].
    + intros Hr. destruct (Hmeta Hr) as [_ Hb]. rewrite Em. rewrite Hb, Z.eqb_refl in Hroot.
      replace (0 <? length (StorageRoot (acct W a)))%nat with true by (destruct (StorageRoot (acct W a)); done).
      rewrite Hroot in Hr. destruct (Hopen Hr) as (t & m & Eo & Ems & Hm).
      destruct (opened_extends db db' _ _ t m (commits_extends _ _ _ _ Hc) Eo Ems) as (t' & Eo' & Ems').
      exists t', m. unfold openedStorage in *. rewrite Hroot. split_and!; [done..|].
      intros k Hk. rewrite Es, Hb. simpl. by apply Hm.
  - unfold settled_at. rewrite He, Ea, Ec, Esl. by split_and!.
  - rewrite Em. destruct (0 <? _)%nat; [by right; left|by left].
Qed.

(** An account whose storage changed. *)
Lemma reopen_storage g m' trs db' m0 a c t ms : stages g m' trs m0 → commits g m' trs db' → sgChanges g !! a = Some c →
  Account_IsEmpty (acct W a) = false → chStorage c ≠ ∅ →
  mtName t = StorageTrieNamePrefix ++ StorageID (chMeta c) → mtContents t = Ok ms → t ∈ trs →
  (∀ k, is256 k → slotOf ms k = slot W a k) →
  load_in m' a = Ok ((acct W a) <| StorageRoot := be 32 (trieHash ms) |>,
                     MkMetadata (StorageID (chMeta c)) (Major newVer) (Minor newVer)) →
  reopens g m' db' a.
Proof.
  intros Hst Hc E He Hs En Ems Ht Hslots El. pose proof (ws_loaded _ _ _ _ _ _ Hws) as Hl.
  destruct (staged_touched _ _ _ _ _ _ (stages_g _ _ _ _ Hst) a c E) as [Ha Hch].
  destruct (wfJ_accounts db trie0 w0 metaOf Hl J HJ a Ha) as (Hroot & Hhash & Hic).
  set (a' := (acct W a) <| StorageRoot := be 32 (trieHash ms) |>) in *.
  assert (acct (reopened m') a = a' ∧ code (reopened m') a = code W a ∧ slot (reopened m') a = slot W a) as (Ea & Ec & Esl).
  { cbn [acct code slot reopened]. by rewrite El, He. }
  assert (reopenedMeta m' a = MkMetadata (StorageID (chMeta c)) (Major newVer) (Minor newVer)) as Em.
  { unfold reopenedMeta. by rewrite El. }
  assert (StorageRoot a' ≠ []) as Hr.
  { unfold a'. simpl StorageRoot. intros E0. apply (f_equal length) in E0. by rewrite be_length in E0. }
  split; rewrite ?Ea, ?Ec, ?Esl, ?Em; [| |unfold a'; unfold Account_IsEmpty in *; simpl in *; by rewrite He|].
  - split; [by eapply reopen_loads|done|done|by eapply reopen_code|done|done|]. intros _.
    unfold openedStorage, openStorage. cbn [StorageID].
    assert (StorageTrieName (StorageID (chMeta c)) = Ok (mtName t)) as ->.
    { rewrite En. unfold StorageTrieName. destruct (StorageID (chMeta c)) eqn:Eid; [|done]. exfalso.
      destruct (changed_meta _ _ _ _ _ _ _ _ Hch) as [[Hm [Hid|?]]|(_ & n & _ & Hm)]; [by rewrite <- Hm in Hid|done|].
      rewrite Hm in Eid. by apply newStorageID_nonempty in Eid. }
    cbn [mbind result_bind]. eexists _, ms. split; [done|]. split; [|intros k Hk; by rewrite <- Hslots].
    unfold a'. simpl StorageRoot. rewrite BytesToBytes32_be by apply trieHash_range.
    replace (storageVer (MkMetadata (StorageID (chMeta c)) (Major newVer) (Minor newVer))) with newVer by (by destruct newVer).
    apply NewTrie_hash. intros Hne. by apply (commits_tries _ _ _ _ Hc t).
  - unfold settled_at. rewrite He, Ea, Ec, Esl. by split_and!.
  - right; right. by exists c.
Qed.

(** An account that changed. *)
Lemma reopen_touched g m' trs db' m0 a c : stages g m' trs m0 → commits g m' trs db' →
  sgChanges g !! a = Some c → reopens g m' db' a.
Proof.
  intros Hst Hc E. destruct (staged_touched _ _ _ _ _ _ (stages_g _ _ _ _ Hst) a c E) as [Ha Hch].
  pose proof (changed_data _ _ _ _ _ _ _ _ Hch) as Hd.
  destruct (stages_in _ _ _ _ Hst a c E) as (a' & am' & tr & Hw & El & Htr).
  destruct Hw as [He|He Hs|t ms He Hs En Ems Hslots]; rewrite Hd in *;
    [|by eapply reopen_data|by eapply reopen_storage; eauto].
  assert (acct (reopened m') a = emptyAccount ∧ reopenedMeta m' a = metadata0) as [Ea' Em'].
  { unfold reopenedMeta. cbn [acct reopened]. by rewrite El. }
  assert (code (reopened m') a = []) as Ec' by (cbn [code reopened]; by rewrite He).
  assert (∀ k, slot (reopened m') a k = []) as Es' by (intros k; cbn [slot reopened]; by rewrite He).
  split; rewrite ?Ea', ?Em', ?Ec'; [|unfold settled_at; rewrite He; by split_and!|done|by left].
  split; try done; [by eapply reopen_loads|]. apply isCode_nil.
Qed.

(** ** The invariant again *)
Lemma reopens_all g m' trs db' m0 a : stages g m' trs m0 → commits g m' trs db' → is160 a → reopens g m' db' a.
Proof.
  intros Hst Hc Ha. destruct (sgChanges g !! a) as [c|] eqn:E; [by eapply reopen_touched|by eapply reopen_untouched].
Qed.

Lemma reopened_id g m' trs db' m0 a : stages g m' trs m0 → commits g m' trs db' → is160 a →
  StorageID (reopenedMeta m' a) ≠ [] →
  StorageID (reopenedMeta m' a) = StorageID (metaOf a) ∨
  ∃ c n, sgChanges g !! a = Some c ∧ chMeta c = freshMeta newVer n ∧ is64 n ∧
    StorageID (reopenedMeta m' a) = newStorageID newVer n.
Proof.
  intros Hst Hc Ha Hne. destruct (reopens_id _ _ _ _ (reopens_all _ _ _ _ _ a Hst Hc Ha)) as [?|[?|(c & E & Hs & Eid)]];
    [done|by left|].
  destruct (changed_id g a c (stages_g _ _ _ _ Hst) E Hs) as [_ [[_ E']|(n & Hn & Em)]]; [left; congruence|].
  right. exists c, n. pose proof (staged_count _ _ _ _ _ _ (stages_g _ _ _ _ Hst)).
  split_and!; [done..|ulia|]. by rewrite Eid, Em.
Qed.

Lemma reopen_well_stored g m' trs db' m0 : stages g m' trs m0 → commits g m' trs db' →
  well_stored db' ({[newVer]} ∪ vers) (trieHash m') newVer (reopened m') (reopenedMeta m').
Proof.
  intros Hst Hc. pose proof (ws_fresh _ _ _ _ _ _ _ Hws Hver Hnew) as Hfresh. split.
  - intros a Ha. by eapply reopens_loaded, reopens_all.
  - intros a Ha. by eapply reopens_empty, reopens_all.
  - intros a b Ha Hb Hne Eid. assert (StorageID (reopenedMeta m' b) ≠ []) as Hne' by congruence.
    destruct (reopened_id _ _ _ _ _ a Hst Hc Ha Hne) as [E|(c & n & E & Em & Hn & E')],
      (reopened_id _ _ _ _ _ b Hst Hc Hb Hne') as [E1|(c1 & n1 & E1 & Em1 & Hn1 & E1')].
    + apply (ws_ids _ _ _ _ _ _ Hws); congruence.
    + destruct (Hfresh a n1 Ha). congruence.
    + destruct (Hfresh b n Hb). congruence.
    + assert (n = n1) as -> by (apply (newStorageID_inj newVer); [done..|congruence]).
      by eapply (staged_ids _ _ _ _ _ _ (stages_g _ _ _ _ Hst)).
  - intros a Ha Hne. destruct (reopened_id _ _ _ _ _ a Hst Hc Ha Hne) as [E|(c & n & _ & _ & _ & E)].
    + rewrite E in Hne |- *. destruct (ws_made _ _ _ _ _ _ Hws a Ha Hne) as (v & n & Hv & En).
      exists v, n. split; [set_solver|done].
    + exists newVer, n. split; [set_solver|done].
  - intros name v m. apply (commits_new _ _ _ _ Hc).
  - intros v [->%elem_of_singleton|Hv]%elem_of_union; [done|]. by eapply ws_versions.
Qed.

Lemma reopen_settled g m' trs db' m0 : stages g m' trs m0 → commits g m' trs db' → settled W (reopened m').
Proof. intros Hst Hc a Ha. by eapply reopens_settled, reopens_all. Qed.
End staged.
End reopen.
