(* ===== verification/StateTheorems.v ===== *)
(** * Theorems on the state *)

From S2P Require Import Prelude Bytes External Thor Block BlockCorrect Trie StackedMap.
From S2P Require Import AccountState StateSpec StateCorrect StateStage StateReopen.

(** [m] returns [v]. *)
Definition returns {A} (m : M State A) (s : State) (v : A) : Prop := ∃ s', m s = Ok (v, s').

Section theorems.
Context `{HRlp : Rlp} `{!RlpSpec} `{HCrypto : Crypto} `{!CryptoSpec} `{HDrlp : Drlp} `{HEnv : StateEnv}.
Context {isCode : bytes → Prop} `{HSpec : !StateEnvSpec isCode}.

Definition codes_ok (codes : gmap bytes bytes) : Prop :=
  ∀ h c, codes !! h = Some c → c ≠ [] ∧ isCode c ∧ h = codeHashOf c.

(** A new state stands for the world of its trie. *)
Lemma NewState_represents db h ver codes w0 metaOf : codes_ok codes →
  represents (isCode := isCode) db (NewTrie db AccountTrieName h ver) w0 metaOf (NewState db h ver codes) [w0].
Proof.
  intros Hcodes. split; [split; done|]. exists [[]]. split; [apply New_ok|]. constructor; [|constructor].
  split; [constructor|]. by split.
Qed.

Lemma run_represents db trie0 w0 metaOf ops s w ws : loaded (isCode := isCode) db trie0 w0 metaOf →
  Forall (op_ok isCode) ops → represents (isCode := isCode) db trie0 w0 metaOf s (w :: ws) →
  ∃ s' w' ws', state_run db ops s = Ok (tt, s') ∧ foldl worlds_perform (w :: ws) ops = w' :: ws' ∧
    represents (isCode := isCode) db trie0 w0 metaOf s' (w' :: ws').
Proof.
  intros Hl. revert s w ws. induction ops as [|o ops IH]; intros s w ws Hops Hs; [by exists s, w, ws|].
  apply Forall_cons in Hops as [Ho Hops].
  destruct (step_represents db trie0 w0 metaOf Hl o s w ws Ho Hs) as (s1 & w1 & ws1 & E1 & Ew1 & Hs1).
  destruct (IH s1 w1 ws1 Hops Hs1) as (s2 & w2 & ws2 & E2 & Ew2 & Hs2). exists s2, w2, ws2.
  cbn [state_run foldl]. unfold mbind, M_bind. by rewrite E1, Ew1.
Qed.

(** What the readers of a state return in a world. *)
Record reads_world (db : MuxDB) (s : State) (w : world) (a : Address) : Prop := {
  rw_balance : returns (GetBalance db a) s (Balance (acct w a));
  rw_energy : ∀ t stop, returns (GetEnergy db a t stop) s (CalcEnergy (acct w a) t stop);
  rw_master : returns (GetMaster db a) s (BytesToAddress (Master (acct w a)));
  rw_exists : returns (Exists db a) s (negb (Account_IsEmpty (acct w a)));
  rw_codeHash : returns (GetCodeHash db a) s (BytesToBytes32 (CodeHash (acct w a)));
  rw_code : returns (GetCode db a) s (code w a);
  rw_raw : ∀ k, is256 k → returns (GetRawStorage db a k) s (slot w a k);
  rw_storage : ∀ k v, is256 k → word_of (slot w a k) = Ok v → returns (GetStorage db a k) s v;
}.

Lemma represents_reads db trie0 w0 metaOf s w ws a : loaded (isCode := isCode) db trie0 w0 metaOf →
  represents (isCode := isCode) db trie0 w0 metaOf s (w :: ws) → is160 a → reads_world db s w a.
Proof.
  intros Hl (Hc & JJ & Hi & HJJ) Ha. destruct (Forall2_cons_inv_r _ _ _ _ HJJ) as (J & Js & [HJ Hsame] & _ & ->).
  assert (on (isCode := isCode) db trie0 w0 metaOf s J Js) as Hon by (split; [done..|by eapply wfJ_typed]).
  assert (∀ A (m : M State A) v, gives (isCode := isCode) db trie0 w0 metaOf m s v J Js → returns m s v) as Hg.
  { intros A m v (s' & E & _). by exists s'. }
  destruct Hsame as [Ea Ec Es]. specialize (Ea a). specialize (Ec a). specialize (Es a).
  split; rewrite <- ?Ea, <- ?Ec; intros; try rewrite <- Es; apply Hg.
  - by apply (account_reads db trie0 w0 metaOf Hl Balance).
  - by apply (account_reads db trie0 w0 metaOf Hl (λ x, CalcEnergy x t stop)).
  - by apply (account_reads db trie0 w0 metaOf Hl (λ x, BytesToAddress (Master x))).
  - by apply (account_reads db trie0 w0 metaOf Hl (λ x, negb (Account_IsEmpty x))).
  - by apply (account_reads db trie0 w0 metaOf Hl (λ x, BytesToBytes32 (CodeHash x))).
  - by apply GetCode_gives.
  - by apply GetRawStorage_gives.
  - apply GetStorage_gives; [done..|]. by rewrite Es.
Qed.

(** A 32-byte value is read back. *)
Lemma trimZeros_from_be b : from_be (trimZeros b) = from_be b.
Proof.
  induction b as [|x b IH]; [done|]. simpl. destruct (Z.eqb_spec x 0) as [->|]; [|done].
  rewrite IH, from_be_cons. lia.
Qed.

Lemma trimZeros_length b : (length (trimZeros b) ≤ length b)%nat.
Proof. induction b as [|x b IH]; [done|]. simpl. destruct (x =? 0); simpl; lia. Qed.

Lemma word_of_stored v : is256 v → word_of (storedWord v) = Ok v.
Proof.
  intros Hv. unfold word_of, storedWord. destruct (Z.eqb_spec v 0) as [->|Hne]; [done|].
  rewrite item_length, rlp_split_str. unfold BytesToBytes32.
  pose proof (trimZeros_length (be 32 v)) as Hl. rewrite be_length in Hl.
  replace (length (trimZeros (be 32 v)) - 32)%nat with 0%nat by lia.
  rewrite drop_0, trimZeros_from_be, from_be_be. f_equal. apply Z.mod_small. unfold is256 in Hv. lia.
Qed.

(** C12: Any sequence of writes, deletions, checkpoints and reverts on a state
    opened on a committed root succeeds, and its readers then return exactly what
    the topmost of the stack of worlds has that the same sequence gives: the
    balance, energy, master, code and storage last written since the revision
    reverted to, nothing of an account that was deleted, and the committed values
    otherwise; a 32-byte value that was stored is read back. *)
Theorem state_refines_worlds (db : MuxDB) (h : Bytes32) (ver : Version) (codes : gmap bytes bytes)
    (w0 : world) (metaOf : Address → AccountMetadata) (ops : list state_op) :
  loaded (isCode := isCode) db (NewTrie db AccountTrieName h ver) w0 metaOf → codes_ok codes →
  Forall (op_ok isCode) ops →
  ∃ s w ws, state_run db ops (NewState db h ver codes) = Ok (tt, s) ∧
    foldl worlds_perform [w0] ops = w :: ws ∧
    (∀ a, is160 a → reads_world db s w a) ∧ ∀ v, is256 v → word_of (storedWord v) = Ok v.
Proof.
  intros Hl Hcodes Hops.
  destruct (run_represents db _ w0 metaOf ops _ w0 [] Hl Hops (NewState_represents db h ver codes w0 metaOf Hcodes))
    as (s & w & ws & E & Ew & Hs).
  exists s, w, ws. split_and!; [done..| |apply word_of_stored]. intros a Ha. by eapply represents_reads.
Qed.

(** C11: Staging a state and committing the stage succeeds when its accounts can be
    encoded, and the committed root opened again is the world of the state:
    accounts, code and storage are the same, except that an empty account loses
    its storage.  The new state again satisfies what the next one relies on (no two
    accounts share a storage trie, all tries are found), and every state committed
    before still has its world. *)
Theorem state_commit_reopens (db : MuxDB) (vers : gset Version) (h : Bytes32) (ver newVer : Version)
    (codes : gmap bytes bytes) (w0 w : world) (ws : list world) (metaOf : Address → AccountMetadata)
    (ops : list state_op) (s : State) :
  well_stored (isCode := isCode) db vers h ver w0 metaOf → codes_ok codes → Forall (op_ok isCode) ops →
  ver_ok newVer → newVer ∉ vers →
  state_run db ops (NewState db h ver codes) = Ok (tt, s) → foldl worlds_perform [w0] ops = w :: ws →
  Z.of_nat (length (Journal (stMap s))) < max64 → (∀ a, is160 a → storable (acct w a)) →
  ∃ st s' root db' w' metaOf',
    state_Stage db newVer s = Ok (st, s') ∧ Stage_Commit st db = Ok (root, db') ∧ root = Stage_Hash st ∧
    well_stored (isCode := isCode) db' ({[newVer]} ∪ vers) root newVer w' metaOf' ∧ settled w w' ∧
    ∀ h1 ver1 w1 meta1, loaded (isCode := isCode) db (NewTrie db AccountTrieName h1 ver1) w1 meta1 →
      loaded (isCode := isCode) db' (NewTrie db' AccountTrieName h1 ver1) w1 meta1.
Proof.
  intros Hws Hcodes Hops Hver Hnew Erun Efold HJl Hst. pose proof (ws_loaded _ _ _ _ _ _ Hws) as Hl.
  destruct (run_represents db _ w0 metaOf ops _ w0 [] Hl Hops (NewState_represents db h ver codes w0 metaOf Hcodes))
    as (s1 & w1 & ws1 & E1 & Ew1 & Hc & JJ & Hi & HJJ). rewrite Erun in E1. injection E1 as <-.
  rewrite Efold in Ew1. injection Ew1 as <- <-. destruct (Forall2_cons_inv_r _ _ _ _ HJJ) as (J & Js & [HJ Hsame] & _ & ->).
  rewrite (Journal_ok _ _ _ Hi) in HJl.
  assert (∀ a, is160 a → storable (acct (world_of w0 J) a)) as Hst' by (intros a Ha; rewrite (same_acct _ _ Hsame); auto).
  assert (on (isCode := isCode) db (NewTrie db AccountTrieName h ver) w0 metaOf s J Js) as Hon
    by (split; [done..|by eapply wfJ_typed]).
  destruct (state_Stage_ok db vers h ver w0 metaOf Hws newVer Hver Hnew J HJ HJl Hst' s Js Hon)
    as (g & m' & trs & m0 & s' & Es & Hstages).
  destruct (Stage_Commit_ok db vers h ver w0 metaOf Hws newVer Hver Hnew J HJ HJl Hst' g m' trs m0 Hstages) as (db' & Ec & Hcommits).
  eexists _, s', _, db', _, _. split; [exact Es|]. split; [exact Ec|]. split; [done|]. split; [by eapply reopen_well_stored|].
  split.
  - intros a Ha. unfold settled_at. rewrite <- (same_acct _ _ Hsame), <- (same_code _ _ Hsame).
    assert (∀ k, slot w a k = slot (world_of w0 J) a k) as Eslot by (intros k; by rewrite (same_slot _ _ Hsame)).
    pose proof (reopen_settled _ _ _ _ _ _ Hws newVer Hver Hnew J HJ g m' trs db' m0 Hstages Hcommits a Ha) as Hset.
    unfold settled_at in Hset. destruct (Account_IsEmpty _); [done|]. destruct Hset as (? & ? & ? & ? & ? & ? & Hslots).
    split_and!; [done..|]. intros k Hk. rewrite Eslot. by apply Hslots.
  - intros h1 ver1 w1 meta1. apply loaded_extends. apply Hcommits.
Qed.

(** ** The storage trie for inspection *)
Lemma foldR_snoc {A B} (f : B → A → result B) b l x : foldR f b (l ++ [x]) = (b' ← foldR f b l; f b' x).
Proof.
  revert b. induction l as [|y l IH]; intros b; simpl; [by destruct (f b x)|]. destruct (f b y); [apply IH|done].
Qed.

(** The fold over a journal saves what it has behind the barrier [b]. *)
Lemma storage_fold w0 J a b t m : entries (isCode := isCode) w0 J → mtContents t = Ok m →
  ∃ t' m', foldR (storageEntry a b) t J = Ok t' ∧ mtContents t' = Ok m' ∧
    ∀ k, is256 k → slotOf m' k = default (slotOf m k) (rawOf <$> replay J !! storageKey a b k).
Proof.
  intros HJ Em. induction HJ as [|J [key v] HJ IH (Hty & Hk & _)]; [by exists t, m|].
  destruct IH as (t1 & m1 & E1 & Em1 & Hm1).
  assert ((∀ k, key ≠ storageKey a b k) → storageEntry a b t1 (key, v) = Ok t1 →
    ∃ t' m', foldR (storageEntry a b) t (J ++ [(key, v)]) = Ok t' ∧ mtContents t' = Ok m' ∧
    ∀ k, is256 k → slotOf m' k = default (slotOf m k) (rawOf <$> replay (J ++ [(key, v)]) !! storageKey a b k)) as Hskip.
  { intros Hne Ee. exists t1, m1. rewrite foldR_snoc, E1. cbn [mbind result_bind]. split_and!; [done..|].
    intros k' Hk'. rewrite replay_snoc, lookup_insert_ne by apply Hne. by apply Hm1. }
  destruct key as [a'|a'|a' b' k|a']; try by apply Hskip.
  destruct (decide (a' = a ∧ b' = b)) as [[-> ->]|Hne].
  2: { apply Hskip; [naive_solver|]. simpl. destruct (Z.eqb_spec b' b), (Z.eqb_spec a' a); naive_solver. }
  destruct v as [| |raw|]; try done. destruct Hk as [_ Hk].
  destruct (save_slots [(k, raw)] t1 m1 Em1) as (t2 & m2 & E2 & _ & Em2 & Hm2); [by constructor|apply NoDup_singleton|].
  exists t2, m2. rewrite foldR_snoc, E1. cbn [mbind result_bind storageEntry]. rewrite !Z.eqb_refl.
  cbn [andb as_bytes mbind result_bind]. cbn [foldR fst snd] in E2.
  split; [destruct (saveStorage t1 k raw); [exact E2|done]|]. split; [done|].
  intros k' Hk'. rewrite (Hm2 k' Hk'), replay_snoc. destruct (decide (k = k')) as [<-|Hkk].
  - simpl. by rewrite !lookup_insert_eq.
  - rewrite lookup_insert_ne by congruence. simpl. rewrite lookup_insert_ne by done. rewrite lookup_empty. simpl. by apply Hm1.
Qed.

Lemma replay_notin (J : jrnl) key : (∀ v, (key, v) ∉ J) → replay J !! key = None.
Proof.
  induction J as [|[key' v] J IH] using rev_ind; [done|]. intros Hn. rewrite replay_snoc, lookup_insert_ne.
  - apply IH. intros v' Hv'. apply (Hn v'). set_solver.
  - intros <-. apply (Hn v). set_solver.
Qed.

Lemma NewTrie_empty db name v : mtContents (NewTrie db name 0 v) = Ok ∅.
Proof. unfold NewTrie. cbn [mtContents]. by rewrite Z.eqb_refl, orb_true_r. Qed.

(** [BuildStorageTrie] gives the storage of an account, when it was not deleted
    since the state was opened. *)
Lemma BuildStorageTrie_slots db trie0 w0 metaOf s w ws a : loaded (isCode := isCode) db trie0 w0 metaOf →
  represents (isCode := isCode) db trie0 w0 metaOf s (w :: ws) → is160 a →
  (∀ v, (storageBarrierKey a, v) ∉ Journal (stMap s)) →
  ∃ t s' m, BuildStorageTrie db a s = Ok (t, s') ∧ mtContents t = Ok m ∧ ∀ k, is256 k → slotOf m k = slot w a k.
Proof.
  intros Hl (Hc & JJ & Hi & HJJ) Ha Hno. destruct (Forall2_cons_inv_r _ _ _ _ HJJ) as (J & Js & [HJ Hsame] & _ & ->).
  rewrite (Journal_ok _ _ _ Hi) in Hno. apply replay_notin in Hno.
  assert (bar w0 J a = 0) as Hb by (unfold bar, val; by rewrite Hno).
  destruct (getCachedObject_ok db trie0 w0 metaOf Hl a s Ha Hc) as (co & s1 & E1 & Hco & Em1 & _ & Hc1).
  destruct (Hl a Ha) as [_ _ _ _ _ Hnost Hopen].
  assert (∃ t m, (if (0 <? length (StorageRoot (acct w0 a)))%nat then lift (openedStorage db (acct w0 a) (metaOf a))
    else mret (NewTrie db [] 0 (MkVersion 0 0))) s1 = Ok (t, s1) ∧ mtContents t = Ok m ∧
    ∀ k, is256 k → slotOf m k = slot w0 a k) as (t & m & Et & Em & Hm).
  { destruct (StorageRoot (acct w0 a)) as [|x l] eqn:Er.
    - exists (NewTrie db [] 0 (MkVersion 0 0)), ∅. split; [done|]. split; [apply NewTrie_empty|].
      intros k Hk. by rewrite Hnost.
    - destruct Hopen as (t & m & Eo & Em & Hm); [done|]. exists t, m. cbn [length Nat.ltb Nat.leb]. unfold lift. rewrite Eo.
      split_and!; [done..|]. intros k Hk. by rewrite Hm. }
  assert (on (isCode := isCode) db trie0 w0 metaOf s1 J Js) as Hon by (split; [by rewrite Em1|done|by eapply wfJ_typed]).
  destruct (barrier_gives db trie0 w0 metaOf Hl a s1 J Js Ha Hon) as (s2 & E2 & Hon2).
  destruct (storage_fold w0 J a (bar w0 J a) t m (wfJ_entries w0 J HJ) Em) as (t' & m' & E3 & Em' & Hm').
  exists t', s2, m'. split; [|split; [done|]].
  - unfold BuildStorageTrie, map_err, mbind, M_bind. rewrite E1, (object_data _ _ _ _ _ Hco), (object_meta _ _ _ _ _ Hco).
    unfold openedStorage in Et. rewrite Et, E2. unfold gets. rewrite (Journal_ok _ _ _ (on_map _ _ _ _ _ _ _ Hon2)).
    unfold lift. by rewrite E3.
  - intros k Hk. rewrite (Hm' k Hk), (Hm k Hk), <- (same_slot _ _ Hsame). cbn [slot world_of]. unfold val.
    rewrite Hb. destruct (replay J !! storageKey a 0 k) as [v|]; [by destruct v|done].
Qed.
End theorems.

(** ** Instances *)

(** A hash that is injective on the encodings of addresses and slots. *)
Definition state_Crypto : Crypto := {|
  blake2b b := (from_be b + 1) mod 2 ^ 256;
  pubOf k := k;
  pubkeyToAddress p := p mod 2 ^ 160;
  sign k _ := k :: replicate 64 0;
  sigToPub _ s := list.head s;
  vrf_prove _ a := (a, replicate 81 0);
  vrf_verify _ a _ := Some a;
|}.

Lemma state_CryptoSpec : @CryptoSpec state_Crypto.
Proof. split; try done. intros b. apply Z.mod_pos_bound. lia. Qed.

Definition demoCode (c : bytes) : Prop := c = [] ∨ c = [96; 1].

Definition state_Drlp : Drlp := {| drlp_str b := 128 :: b; drlp_list b := 192 :: b; drlp_uint i := be 8 i |}.

#[local] Existing Instances state_Crypto state_CryptoSpec state_Drlp.

Definition state_Env `{Rlp} : StateEnv := {|
  keccak256 c := if bool_decide (c = [96; 1]) then 7 else 5;
  rlp_split b := i ← rlp_parse b; match str_of i with Some s => Some (false, s) | None => Some (true, []) end;
  trieHash m := if bool_decide (m = ∅) then 129 else 1;
|}.
#[local] Existing Instance state_Env.

Lemma hash_inj n a b : 0 ≤ a < 256 ^ Z.of_nat n → 0 ≤ b < 256 ^ Z.of_nat n → (n ≤ 32)%nat →
  blake2b (be n a) = blake2b (be n b) → a = b.
Proof.
  intros Ha Hb Hn E. cbn [blake2b state_Crypto] in E. rewrite !from_be_be, !(Z.mod_small _ (256 ^ _)) in E by done.
  assert (256 ^ Z.of_nat n ≤ 2 ^ 256) as Hle.
  { change (2 ^ 256) with (256 ^ 32). apply Z.pow_le_mono_r; lia. }
  destruct (decide (a + 1 = 2 ^ 256)) as [E1|], (decide (b + 1 = 2 ^ 256)) as [E2|]; [lia|..].
  - rewrite E1, Z.mod_same, Z.mod_small in E by lia. lia.
  - rewrite E2, Z.mod_same, Z.mod_small in E by lia. lia.
  - rewrite !Z.mod_small in E by lia. lia.
Qed.

Lemma state_EnvSpec `{!Rlp} `{!RlpSpec} : (∀ i, rlp_bytes i ≠ []) → StateEnvSpec demoCode.
Proof.
  intros Hne. split.
  - intros c. cbn [keccak256 state_Env]. unfold is256. case_bool_decide; lia.
  - by left.
  - intros c c' [->| ->] [->| ->]; done.
  - intros a b Ha Hb. apply (hash_inj 20 a b); [done|done|lia].
  - intros a b Ha Hb. apply (hash_inj 32 a b); [done|done|lia].
  - done.
  - intros b. cbn [rlp_split state_Env]. rewrite rlp_parse_bytes. cbn [mbind option_bind]. by rewrite str_of_str.
  - intros l. exists []. cbn [rlp_split state_Env]. rewrite rlp_parse_bytes. cbn [mbind option_bind].
    destruct (str_of (rlp_list l)) eqn:E; [|done]. by apply str_of_inv, rlp_list_str in E.
  - intros m. cbn [trieHash state_Env]. unfold is256. case_bool_decide; lia.
  - intros m. cbn [trieHash state_Env]. by case_bool_decide.
  - intros m. replace (from_be emptyRoot) with 129 by (vm_compute; reflexivity).
    cbn [trieHash state_Env]. by case_bool_decide.
Qed.
(** The empty database. *)
Definition db0 : MuxDB := MkMuxDB ∅ ∅.
Definition world0 : world := MkWorld (λ _, emptyAccount) (λ _, []) (λ _ _, []).

Lemma db0_well_stored `{!Rlp} : well_stored (isCode := demoCode) db0 ∅ 0 (MkVersion 0 0) world0 (λ _, metadata0).
Proof.
  split; try done. intros a Ha. split; try done. by left.
Qed.

#[local] Existing Instances demo_Rlp demo_RlpSpec.

Lemma demo_EnvSpec : StateEnvSpec demoCode.
Proof. by apply state_EnvSpec. Qed.
#[local] Existing Instance demo_EnvSpec.

Definition demoOps : list state_op :=
  [OpBalance 1 100; OpCode 1 [96; 1]; OpStorage 1 5 9; OpCheckpoint; OpDelete 1; OpBalance 2 7; OpRevert 1; OpEnergy 3 50 10].

Lemma demoOps_ok : Forall (op_ok demoCode) demoOps.
Proof.
  unfold demoOps. rewrite !Forall_cons. cbn [op_ok]. unfold is160, is256. split_and!; try lia; try done. by right.
Qed.

Lemma state_refines_worlds_witness :
  ∃ s, state_run db0 demoOps (NewState db0 0 (MkVersion 0 0) ∅) = Ok (tt, s) ∧
    returns (GetBalance db0 1) s 100 ∧ returns (GetStorage db0 1 5) s 9 ∧ returns (Exists db0 2) s false.
Proof.
  destruct (state_refines_worlds (isCode := demoCode) db0 0 (MkVersion 0 0) ∅ world0 (λ _, metadata0) demoOps)
    as (s & w & ws & E & Ew & Hr & Hv).
  - apply db0_well_stored.
  - intros h c Hc. by rewrite lookup_empty in Hc.
  - apply demoOps_ok.
  - exists s. split; [exact E|]. injection Ew as <- _. split_and!.
    + apply (rw_balance _ _ _ _ (Hr 1 ltac:(unfold is160; lia))).
    + apply (rw_storage _ _ _ _ (Hr 1 ltac:(unfold is160; lia))); [unfold is256; lia|]. apply (Hv 9). unfold is256; lia.
    + apply (rw_exists _ _ _ _ (Hr 2 ltac:(unfold is160; lia))).
Defined.

Definition demoState : State :=
  match state_run db0 demoOps (NewState db0 0 (MkVersion 0 0) ∅) with
  | Ok (_, s) => s
  | Err _ => NewState db0 0 (MkVersion 0 0) ∅
  end.

Lemma state_commit_reopens_witness :
  ∃ st s' db', state_Stage db0 (MkVersion 1 0) demoState = Ok (st, s') ∧
    Stage_Commit st db0 = Ok (Stage_Hash st, db') ∧ ∃ w' metaOf',
    well_stored (isCode := demoCode) db' {[MkVersion 1 0]} (Stage_Hash st) (MkVersion 1 0) w' metaOf' ∧
    Balance (acct w' 1) = 100 ∧ code w' 1 = [96; 1] ∧ slot w' 1 5 = storedWord 9.
Proof.
  destruct (state_commit_reopens (isCode := demoCode) db0 ∅ 0 (MkVersion 0 0) (MkVersion 1 0) ∅ world0
    (default world0 (head (foldl worlds_perform [world0] demoOps))) [] (λ _, metadata0) demoOps demoState)
    as (st & s' & root & db' & w' & metaOf' & Es & Ec & -> & Hws & Hset & _).
  - apply db0_well_stored.
  - intros h c Hc. by rewrite lookup_empty in Hc.
  - apply demoOps_ok.
  - unfold ver_ok, is32, max32. simpl. lia.
  - set_solver.
  - vm_compute. reflexivity.
  - reflexivity.
  - vm_compute. reflexivity.
  - intros a _. unfold storable, is64, max64. cbn. unfold upd. cbn.
    destruct (a =? 3); [cbn; lia|]. destruct (a =? 1); cbn; lia.
  - exists st, s', db'. split; [exact Es|]. split; [exact Ec|]. exists w', metaOf'. rewrite (right_id_L ∅ (∪)) in Hws.
    split; [exact Hws|]. destruct (Hset 1) as (E1 & _ & _ & _ & _ & E2 & E3); [unfold is160; lia|].
    split; [exact E1|]. split; [exact E2|]. apply E3. unfold is256. lia.
Defined.

(** A deleted account still has its committed storage in [BuildStorageTrie],
    while its slots read empty: account 1 of the database that [demoState] is
    committed to. *)
Definition demoStage : option (Stage * MuxDB) :=
  match state_Stage db0 (MkVersion 1 0) demoState with
  | Ok (st, _) => match Stage_Commit st db0 with Ok (_, db') => Some (st, db') | Err _ => None end
  | Err _ => None
  end.

(** Slot 5 as [GetRawStorage] and as the trie has it. *)
Definition demoDeleted : result (bytes * bytes) :=
  match demoStage with
  | Some (st, db') =>
      '(_, s) ← Delete db' 1 (NewState db' (Stage_Hash st) (MkVersion 1 0) ∅);
      '(raw, _) ← GetRawStorage db' 1 5 s;
      '(t, _) ← BuildStorageTrie db' 1 s;
      m ← mtContents t;
      Ok (raw, slotOf m 5)
  | None => Err ErrFuel
  end.

Lemma BuildStorageTrie_after_Delete : demoDeleted = Ok ([], storedWord 9).
Proof. vm_compute. reflexivity. Qed.
