(* ===== verification/Consensus.v ===== *)
(** * Package consensus: validating blocks

    [src/consensus/consensus.go], [validator.go], [poa_validator.go] and
    [pos_validator.go], with the candidate list of
    [src/scheduler/candidates.go].  The state is the staker, the authority list
    and the rest of the accounts; executing a transaction, distributing the
    block reward and hashing the state are operations of the runtime, which is a
    parameter.  A failed validation keeps the changes to the validator's own
    caches, as the source does: a computation is a function from the caches to
    the caches and a result. *)

From S2P Require Import Prelude Bytes External Thor Block Tx ChainRepo Scheduler.
From S2P Require Import Authority Validation Storage Repository ValidationService Staker Housekeep.
From S2P Require Import Trie TxRoot.

(** ** The runtime *)
Record BlockContext := MkContext {
  bcBeneficiary : Address;
  bcSigner : Address;
  bcNumber : Z;
  bcTime : Z;
  bcGasLimit : Z;
  bcTotalScore : Z;
  bcBaseFee : option Z;
}.

Record State (X : Type) := MkState {
  sStaker : Staker;
  sAuthority : Authority;
  sRest : X;
}.
Arguments MkState {X} _ _ _.
Arguments sStaker {X} _.
Arguments sAuthority {X} _.
Arguments sRest {X} _.
#[export] Instance eta_State X : Eta (State X) := λ s, MkState (sStaker s) (sAuthority s) (sRest s).

(** What the consensus code calls of packages [runtime], [state], [params] and
    [energy]. *)
Class Runtime `{Rlp} (X : Type) := {
  GetBalance : X → Address → Z;
  ProposerEndorsement : X → Z;
  LegacyTxBaseGasPrice : X → Z;
  runtime_New : BlockContext → State X → State X;
  ExecuteTransaction : ChainRepo → Bytes32 → BlockContext → Transaction → State X → result (Receipt * State X);
  DistributeRewards : Z → Address → Address → Z → State X → result (State X);
  Stage_Hash : State X → Bytes32;
}.

(** ** Schedulers behind one interface ([scheduler.Scheduler]) *)
Section interface.
Context `{CFG : Config} `{Crypto} `{Sampling}.

Inductive sched :=
  | SchedV1 (s : PoASchedulerV1)
  | SchedV2 (s : PoASchedulerV2)
  | SchedPoS (s : PoSScheduler).

Definition sched_Schedule (fuel : nat) (s : sched) (nowTime : Z) : result Z :=
  match s with
  | SchedV1 s => v1_Schedule fuel s nowTime
  | SchedV2 s => v2_Schedule s nowTime
  | SchedPoS s => pos_Schedule s nowTime
  end.

Definition sched_IsTheTime (s : sched) (newBlockTime : Z) : result bool :=
  match s with
  | SchedV1 s => v1_IsTheTime s newBlockTime
  | SchedV2 s => v2_IsTheTime s newBlockTime
  | SchedPoS s => pos_IsTheTime s newBlockTime
  end.

Definition sched_Updates (s : sched) (newBlockTime : Z) : result (list Proposer * Z) :=
  match s with
  | SchedV1 s => v1_Updates s newBlockTime
  | SchedV2 s => Ok (v2_Updates s newBlockTime)
  | SchedPoS s => Ok (pos_Updates s newBlockTime)
  end.
End interface.

(** ** Candidates (scheduler/candidates.go)

    The source shares the list between copies and clones it before it is
    changed; the copies here are values. *)
Record candidates := MkCandidates {
  cdList : list Candidate;
  cdMasters : gmap Address nat;
  cdEndorsors : gmap Address bool;
  cdSatisfied : list nat;
}.
#[export] Instance eta_candidates : Eta candidates := λ c,
  MkCandidates (cdList c) (cdMasters c) (cdEndorsors c) (cdSatisfied c).

Fixpoint indexMasters (i : nat) (l : list Candidate) (m : gmap Address nat) : gmap Address nat :=
  match l with [] => m | c :: l => indexMasters (S i) l (<[NodeMaster c := i]> m) end.

Definition NewCandidates (l : list Candidate) : candidates :=
  MkCandidates l (indexMasters 0 l ∅) (foldl (λ m c, <[cEndorsor c := true]> m) ∅ l) [].

(** The indices of the first candidates with the required balance. *)
Fixpoint satisfy (checkBalance : Address → Address → result bool) (limit : Z) (i : nat)
    (l : list Candidate) (satisfied : list nat) : result (list nat) :=
  match l with
  | [] => Ok satisfied
  | c :: l =>
      if Z.of_nat (length satisfied) <? limit then
        hasBalance ← checkBalance (NodeMaster c) (cEndorsor c);
        satisfy checkBalance limit (S i) l (if hasBalance : bool then satisfied ++ [i] else satisfied)
      else Ok satisfied
  end.

Fixpoint proposersAt (l : list Candidate) (idx : list nat) : result (list Proposer) :=
  match idx with
  | [] => Ok []
  | i :: idx =>
      match l !! i with
      | None => Err (ErrPanic "index out of range")
      | Some c => ps ← proposersAt l idx; Ok (MkProposer (NodeMaster c) (cActive c) 0 :: ps)
      end
  end.

(** [mbp] is the governance parameter for the number of proposers. *)
Definition Pick (mbp : Z) (checkBalance : Address → Address → result bool) (c : candidates)
    : result (list Proposer * candidates) :=
  satisfied ← (if (length (cdSatisfied c) =? 0)%nat
               then satisfy checkBalance (GetMaxBlockProposers mbp true) 0 (cdList c) []
               else Ok (cdSatisfied c));
  ps ← proposersAt (cdList c) satisfied;
  Ok (ps, c <| cdSatisfied := satisfied |>).

(** [None] where the source returns false. *)
Definition candidates_Update (addr : Address) (active : bool) (c : candidates) : option candidates :=
  i ← cdMasters c !! addr;
  x ← cdList c !! i;
  Some (c <| cdList := <[i := MkCandidate (NodeMaster x) (cEndorsor x) (cIdentity x) active]> (cdList c) |>).

Definition IsEndorsor (addr : Address) (c : candidates) : bool := default false (cdEndorsors c !! addr).
Definition InvalidateCache (c : candidates) : candidates := c <| cdSatisfied := [] |>.

(** ** The validator *)

Definition kresult {S A} (r : result A) : K S A := λ s, (s, r).
Definition kmodify {S} (f : S → S) : K S unit := λ s, (f s, Ok tt).
Definition kreject {S} (b : bool) (msg : string) : K S unit := λ s,
  (s, if b then Err (ErrInternal msg) else Ok tt).

(** Entries of the validators cache. *)
Inductive cacheEntry := CCandidates (c : candidates) | CLeaders (l : list Leader).

Record Consensus := MkConsensus {
  cSeeder : gmap Bytes32 bytes;
  validatorsCache : gmap Bytes32 cacheEntry;
}.
#[export] Instance eta_Consensus : Eta Consensus := λ c, MkConsensus (cSeeder c) (validatorsCache c).

(** The cachers of the two validators. *)
Inductive cacher :=
  | poaCacher (c : candidates)
  | posCacher (leaderGroup : list Leader)
  | noOpCacher.

(** Addresses of the builtin contracts: their names. *)
Definition AuthorityAddress : Address := from_be (map (λ c, Z.of_N (Ascii.N_of_ascii c)) (String.list_ascii_of_string "Authority")).
Definition ParamsAddress : Address := from_be (map (λ c, Z.of_N (Ascii.N_of_ascii c)) (String.list_ascii_of_string "Params")).
Definition StakerAddress : Address := from_be (map (λ c, Z.of_N (Ascii.N_of_ascii c)) (String.list_ascii_of_string "Staker")).

Definition errFutureBlock : error := ErrInternal "block in the future".

Section consensus.
Context `{CFG : Config} `{Rlp} `{Drlp} `{Crypto} `{Sampling} `{SM : SafeMath} `{SMM : SafeMulOp}.
Context {X : Type} `{!Runtime X}.
Context (forkConfig : ForkConfig).

(** The features of a block's transactions. *)
Definition featuresAt (number : Z) : Z :=
  if VIP191 forkConfig <=? number then Z.lor 0 DelegationFeature else 0.

(** [SyncPOS] in front of a block: when it fails, the state is reverted and the
    status is what was set before the failure. *)
Definition syncPOS (number : Z) (st : State X) : SyncStatus * State X :=
  match zoom sStaker (SyncPOS (HAYABUSA forkConfig) number) st with
  | Ok (status, st') => (status, st')
  | Err _ =>
      match IsPoSActive (sStaker st) with
      | Ok (active, _) => (MkSyncStatus active false, st)
      | Err _ => (MkSyncStatus false false, st)
      end
  end.

(** The [BalanceChecker] of a block. *)
Definition balanceCheck (number : Z) (st : State X) (validator endorser : Address) : result bool :=
  '(b, _) ← TransitionPeriodBalanceCheck (HAYABUSA forkConfig) number (ProposerEndorsement (sRest st))
              (GetBalance (sRest st) endorser) validator endorser (sStaker st);
  Ok b.

(** The value chained into the next proof. *)
Definition alphaOf (parent : Header) : result bytes :=
  parentBeta ← Beta parent;
  Ok (if (length parentBeta =? 0)%nat then be 32 (StateRoot parent) else parentBeta).

Definition check (b : bool) (msg : string) : result unit :=
  if b then Err (ErrInternal msg) else Ok tt.

Definition validateBlockHeader (header parent : Header) (nowTimestamp : Z) : result unit :=
  check (Timestamp header <=? Timestamp parent) "block timestamp behind parents" ;;
  check (negb ((Timestamp header -u64 Timestamp parent) mod BlockInterval =? 0)) "block interval not rounded" ;;
  (if nowTimestamp +u64 BlockInterval <? Timestamp header then Err errFutureBlock else Ok tt) ;;
  check (GasLimit header <? GasUsed header) "block gas used exceeds limit" ;;
  check (TotalScore header <=? TotalScore parent) "block total score invalid" ;;
  check (negb (GasLimit_IsValid (GasLimit header) (GasLimit parent))) "block gas limit invalid" ;;
  (if Header_Number header <? VIP214 forkConfig then
     check (0 <? length (Alpha (Extension header)))%nat "alpha should be empty before VIP214" ;;
     check (negb (length (Signature header) =? 65)%nat) "block signature length invalid"
   else
     check (negb (length (Signature header) =? ComplexSigSize)%nat) "block signature length invalid" ;;
     alpha ← alphaOf parent;
     check (negb (bool_decide (Alpha (Extension header) = alpha))) "block alpha invalid" ;;
     _ ← Beta header; Ok tt) ;;
  check ((Header_Number header <? FINALITY forkConfig) && COM (Extension header))
    "COM should not set before fork FINALITY" ;;
  if Header_Number header <? GALACTICA forkConfig then
    check (bool_decide (BaseFee (Extension header) ≠ None)) "baseFee should not set before fork GALACTICA"
  else
    match BaseFee (Extension header) with
    | None => Err (ErrInternal "baseFee is missing")
    | Some baseFee =>
        expectedBaseFee ← CalcBaseFee parent forkConfig;
        match expectedBaseFee with
        | None => Err (ErrPanic "nil base fee")
        | Some expected => check (negb (baseFee =? expected)) "block baseFee invalid"
        end
    end.

(** ** The body *)
Context (IsOriginBlocked : Address → bool).

Definition validateTx (repo : ChainRepo) (header : Header) (tr : Transaction) : result unit :=
  let number := Header_Number header in
  origin ← Tx_Origin tr;
  check ((BLOCKLIST forkConfig <=? number) && IsOriginBlocked origin) "tx origin blocked got packed" ;;
  delegator ← Tx_Delegator tr;
  check ((BLOCKLIST forkConfig <=? number) && match delegator with Some d => IsOriginBlocked d | None => false end)
    "tx delegator blocked got packed" ;;
  check (negb (Tx_ChainTag tr =? ChainTag repo)) "tx chain tag mismatch" ;;
  check (number <? BlockRef_Number (Tx_BlockRef tr)) "tx ref future block" ;;
  check (IsExpired tr number) "tx expired" ;;
  check ((number <? GALACTICA forkConfig) && negb (Tx_Type tr =? TypeLegacy)) "transaction type not supported" ;;
  TestFeatures tr (TxsFeatures header).

Fixpoint validateTxs (repo : ChainRepo) (header : Header) (txs : list Transaction) : result unit :=
  match txs with
  | [] => Ok tt
  | tr :: txs => validateTx repo header tr ;; validateTxs repo header txs
  end.

Definition validateBlockBody (repo : ChainRepo) (blk : block) : result unit :=
  root ← Transactions_RootHash (blkTxs blk);
  check (negb (TxsRoot (blkHeader blk) =? from_be root)) "block txs root mismatch" ;;
  validateTxs repo (blkHeader blk) (blkTxs blk).

(** ** The proposer *)

(** Seeds are kept once they are computed. *)
Definition seedFor (repo : ChainRepo) (parentID : Bytes32) : K Consensus bytes := λ c,
  match Generate repo parentID (cSeeder c) with
  | Ok (seed, cache) => (c <| cSeeder := cache |>, Ok seed)
  | Err e => (c, Err e)
  end.

(** The updates, in the state and in the list in memory. *)
Fixpoint updateCandidates (updates : list Proposer) (cand : candidates) (A : Authority)
    : result (candidates * Authority) :=
  match updates with
  | [] => Ok (cand, A)
  | u :: updates =>
      '(_, A') ← Authority_Update (pAddress u) (pActive u) A;
      match candidates_Update (pAddress u) (pActive u) cand with
      | None => Err (ErrPanic "something wrong with candidates list")
      | Some cand' => updateCandidates updates cand' A'
      end
  end.

Definition candidatesFor (parentID : Bytes32) (A : Authority) : K Consensus candidates := λ c,
  match validatorsCache c !! parentID with
  | Some (CCandidates cand) => (c, Ok cand)
  | Some (CLeaders _) => (c, Err (ErrPanic "interface conversion"))
  | None => (c, '(l, _) ← AllCandidates A; Ok (NewCandidates l))
  end.

Definition validateAuthorityProposer (repo : ChainRepo) (header parent : Header) (st : State X)
    : K Consensus (cacher * State X) :=
  signer ← kresult (Header_Signer header);
  cand ← candidatesFor (ID parent) (sAuthority st);
  '(proposers, cand) ← kresult (Pick (maxBlockProposersParam (sStaker st))
                                  (balanceCheck (Header_Number header) st) cand);
  sched ← (if Header_Number header <? VIP214 forkConfig
           then kresult (s ← NewPoASchedulerV1 signer proposers (Header_Number parent) (Timestamp parent);
                         Ok (SchedV1 s))
           else seed ← seedFor repo (ParentID header);
                kresult (s ← NewPoASchedulerV2 signer proposers (Header_Number parent) (Timestamp parent) seed;
                         Ok (SchedV2 s)));
  isTime ← kresult (sched_IsTheTime sched (Timestamp header));
  kreject (negb isTime) "block timestamp unscheduled" ;;
  '(updates, score) ← kresult (sched_Updates sched (Timestamp header));
  kreject (negb (TotalScore parent +u64 score =? TotalScore header)) "block total score invalid" ;;
  '(cand, A) ← kresult (updateCandidates updates cand (sAuthority st));
  mret (poaCacher cand, st <| sAuthority := A |>).

Definition leaderProposers (leaders : list Leader) : list Proposer :=
  map (λ l, MkProposer (Leader_Address l) (Leader_Active l) (Leader_Weight l)) leaders.

Fixpoint setOnline (number : Z) (updates : list Proposer) : M Staker unit :=
  match updates with
  | [] => mret tt
  | u :: updates => SetOnline (pAddress u) number (pActive u) ;; setOnline number updates
  end.

(** The beneficiary the contract has for the signer: the last one set. *)
Definition stakeBeneficiary (signer : Address) (leaders : list Leader) : option Address :=
  foldl (λ b l, if (Leader_Address l =? signer) && bool_decide (Leader_Beneficiary l ≠ None)
                then Leader_Beneficiary l else b) None leaders.

Definition leadersFor (parentID : Bytes32) (s : Staker) : K Consensus (list Leader) := λ c,
  let leaders := match validatorsCache c !! parentID with Some (CLeaders l) => l | _ => [] end in
  (c, if (length leaders =? 0)%nat then '(l, _) ← LeaderGroup s; Ok l else Ok leaders).

Definition validateStakingProposer (repo : ChainRepo) (header parent : Header) (st : State X)
    : K Consensus (cacher * State X) :=
  signer ← kresult (Header_Signer header);
  seed ← seedFor repo (ParentID header);
  leaders ← leadersFor (ParentID header) (sStaker st);
  '(_, totalWeight, _) ← kresult (LockedStake (sStaker st));
  s ← kresult (NewPoSScheduler signer (leaderProposers leaders) (Header_Number parent) (Timestamp parent)
                 seed totalWeight);
  let sched := SchedPoS s in
  isTime ← kresult (sched_IsTheTime sched (Timestamp header));
  kreject (negb isTime) "block timestamp unscheduled" ;;
  '(updates, score) ← kresult (sched_Updates sched (Timestamp header));
  kreject (negb (TotalScore parent +u64 score =? TotalScore header)) "block total score invalid" ;;
  kreject (match stakeBeneficiary signer leaders with
           | Some b => negb (b =? hBeneficiary header) | None => false end) "stake beneficiary mismatch" ;;
  '(_, s') ← kresult (setOnline (Header_Number header) updates (sStaker st));
  mret (if (0 <? length updates)%nat then noOpCacher else posCacher leaders, st <| sStaker := s' |>).

(** ** Execution *)
Definition contextOf (header : Header) (signer : Address) : BlockContext :=
  MkContext (hBeneficiary header) signer (Header_Number header) (Timestamp header) (GasLimit header)
    (TotalScore header) (BaseFee (Extension header)).

(** Transactions processed in this block, with whether they reverted. *)
Definition findDep (repo : ChainRepo) (parentID : Bytes32) (processedTxs : gmap Bytes32 bool) (txID : Bytes32)
    : result (bool * bool) :=
  match processedTxs !! txID with
  | Some reverted => Ok (true, reverted)
  | None =>
      match GetTransactionMeta repo parentID txID with
      | Ok meta => Ok (true, tmReverted meta)
      | Err e => if IsNotFound e then Ok (false, false) else Err e
      end
  end.

Definition hasTx (repo : ChainRepo) (parentID : Bytes32) (processedTxs : gmap Bytes32 bool)
    (txid : Bytes32) (txBlockRef : Z) : result bool :=
  match processedTxs !! txid with
  | Some _ => Ok true
  | None => HasTransaction repo parentID txid txBlockRef
  end.

Record executed := MkExecuted {
  exState : State X;
  exReceipts : list Receipt;
  exGasUsed : Z;
  exProcessed : gmap Bytes32 bool;
}.

Definition executeTx (repo : ChainRepo) (parentID : Bytes32) (ctx : BlockContext) (tr : Transaction)
    (x : executed) : result executed :=
  found ← hasTx repo parentID (exProcessed x) (Tx_ID tr) (BlockRef_Number (Tx_BlockRef tr));
  check found "tx already exists" ;;
  match Tx_DependsOn tr with
  | None => Ok tt
  | Some dep =>
      '(found, reverted) ← findDep repo parentID (exProcessed x) dep;
      check (negb found) "tx dep broken" ;;
      check reverted "tx dep reverted"
  end ;;
  '(receipt, st) ← ExecuteTransaction repo parentID ctx tr (exState x);
  Ok (MkExecuted st (exReceipts x ++ [receipt]) (exGasUsed x +u64 rcGasUsed receipt)
        (<[Tx_ID tr := rcReverted receipt]> (exProcessed x))).

Fixpoint executeTxs (repo : ChainRepo) (parentID : Bytes32) (ctx : BlockContext) (txs : list Transaction)
    (x : executed) : result executed :=
  match txs with
  | [] => Ok x
  | tr :: txs => x' ← executeTx repo parentID ctx tr x; executeTxs repo parentID ctx txs x'
  end.

(** Receipts roots of old blocks that were computed wrongly, by block id. *)
Context (correctReceiptsRoots : gmap Bytes32 Bytes32).

Definition verifyBlock (repo : ChainRepo) (blk : block) (st : State X) (posActive : bool)
    : result (State X * list Receipt) :=
  let header := blkHeader blk in
  let signer := match Header_Signer header with Ok a => a | Err _ => 0 end in
  let ctx := contextOf header signer in
  x ← executeTxs repo (ParentID header) ctx (blkTxs blk) (MkExecuted (runtime_New ctx st) [] 0 ∅);
  check (negb (GasUsed header =? exGasUsed x)) "block gas used mismatch" ;;
  root ← Receipts_RootHash (exReceipts x);
  check (negb (ReceiptsRoot header =? from_be root) &&
         negb (bool_decide (correctReceiptsRoots !! ID header = Some (from_be root))))
    "block receipts root mismatch" ;;
  st' ← (if posActive then
           _ ← ContractBalanceCheck 0 (sStaker (exState x));
           DistributeRewards (Timestamp header) (hBeneficiary header) signer (Header_Number header) (exState x)
         else Ok (exState x));
  check (negb (StateRoot header =? Stage_Hash st')) "block state root mismatch" ;;
  Ok (st', exReceipts x).

(** ** The caches after a block *)
Context (BeneficiarySetID : Bytes32).

Definition eventsOf (receipts : list Receipt) : list Event :=
  receipts ≫= λ r, rcOutputs r ≫= outEvents.
Definition transfersOf (receipts : list Receipt) : list Transfer :=
  receipts ≫= λ r, rcOutputs r ≫= outTransfers.

(** Whether the leader group has to be read again; an event without topics is
    out of range. *)
Fixpoint beneficiarySet (evs : list Event) : result bool :=
  match evs with
  | [] => Ok false
  | ev :: evs =>
      if evAddress ev =? StakerAddress then
        match evTopics ev with
        | [] => Err (ErrPanic "index out of range")
        | topic :: _ => if topic =? BeneficiarySetID then Ok true else beneficiarySet evs
        end
      else beneficiarySet evs
  end.

Definition Handle (c : cacher) (header : Header) (receipts : list Receipt) : result (option cacheEntry) :=
  match c with
  | noOpCacher => Ok None
  | posCacher leaderGroup =>
      changed ← beneficiarySet (eventsOf receipts);
      Ok (if changed : bool then None else Some (CLeaders leaderGroup))
  | poaCacher cand =>
      if existsb (λ ev, evAddress ev =? AuthorityAddress) (eventsOf receipts) then Ok None else
      let hasEndorsorEvent :=
        existsb (λ ev, ((HAYABUSA forkConfig <=? Header_Number header) && (evAddress ev =? StakerAddress)) ||
                       (evAddress ev =? ParamsAddress)) (eventsOf receipts) ||
        existsb (λ t, IsEndorsor (trSender t) cand || IsEndorsor (trRecipient t) cand) (transfersOf receipts) in
      Ok (Some (CCandidates (if hasEndorsorEvent then InvalidateCache cand else cand)))
  end.

(** The cache keeps the recently used entries. *)
Context (evict : gmap Bytes32 cacheEntry → gmap Bytes32 cacheEntry).

Definition validate (repo : ChainRepo) (st : State X) (blk : block) (parent : Header) (nowTimestamp : Z)
    : K Consensus (State X * list Receipt) :=
  let header := blkHeader blk in
  kresult (validateBlockHeader header parent nowTimestamp) ;;
  let '(status, st) := syncPOS (Header_Number header) st in
  (if SyncUpdates status
   then kmodify (λ c, c <| validatorsCache := delete (ID parent) (validatorsCache c) |>) else mret tt) ;;
  '(cacher, st) ← (if SyncActive status then validateStakingProposer repo header parent st
                   else validateAuthorityProposer repo header parent st);
  kresult (validateBlockBody repo blk) ;;
  '(st', receipts) ← kresult (verifyBlock repo blk st (SyncActive status));
  cachedEntry ← kresult (Handle cacher header receipts);
  match cachedEntry with
  | None => mret tt
  | Some e => kmodify (λ c, c <| validatorsCache := evict (<[ID header := e]> (validatorsCache c)) |>)
  end ;;
  mret (st', receipts).

(** [st] is the state at the root of the parent block. *)
Definition Process (repo : ChainRepo) (st : State X) (parentSummary : BlockSummary) (blk : block)
    (nowTimestamp : Z) : K Consensus (State X * list Receipt) :=
  let header := blkHeader blk in
  kreject (negb (TxsFeatures header =? featuresAt (Header_Number header))) "block txs features invalid" ;;
  validate repo st blk (sumHeader parentSummary) nowTimestamp.

(** The runtime to execute the transactions of a stored block again; [stateAt]
    gives the state at the root of a block. *)
Definition NewRuntimeForReplay (stateAt : BlockSummary → State X) (repo : ChainRepo) (header : Header)
    (skipValidation : bool) : K Consensus (BlockContext * State X) :=
  signer ← kresult (Header_Signer header);
  parentSummary ← kresult (match GetBlockSummary repo (ParentID header) with
                           | Ok s => Ok s
                           | Err e => Err (if IsNotFound e then ErrInternal "parent block is missing" else e)
                           end);
  let st := stateAt parentSummary in
  let ctx := contextOf header signer in
  if skipValidation then mret (ctx, runtime_New ctx st) else
  '(status, st) ← kresult (zoom sStaker (SyncPOS (HAYABUSA forkConfig) (Header_Number header)) st);
  '(_, st) ← (if SyncActive status then validateStakingProposer repo header (sumHeader parentSummary) st
              else validateAuthorityProposer repo header (sumHeader parentSummary) st);
  mret (ctx, runtime_New ctx st).
End consensus.
