(* ===== verification/EnergyToken.v ===== *)
(** * The energy token and the governance parameters

    [src/builtin/energy/energy.go] and [src/builtin/params/params.go] over the
    account state, with the transfer of tokens of [src/runtime/runtime.go], which
    settles the energy of both sides.  The staker that shares in the rewards is
    behind the interface the source gives it. *)

From S2P Require Import Prelude Bytes External Thor Block Trie Staker Consensus StackedMap AccountState.

Definition ascii_bytes (s : string) : bytes :=
  map (λ c, Z.of_N (Ascii.N_of_ascii c)) (String.list_ascii_of_string s).

Definition maxUint64 : Z := max64 - 1.
Definition EnergyAddress : Address := from_be (ascii_bytes "Energy").

(** Keys of governance parameters. *)
Definition KeyRewardRatio : Bytes32 := from_be (ascii_bytes "reward-ratio").
Definition KeyValidatorRewardPercentage : Bytes32 := from_be (ascii_bytes "validator-reward-percentage").
Definition KeyLegacyTxBaseGasPrice : Bytes32 := from_be (ascii_bytes "base-gas-price").
Definition KeyCurveFactor : Bytes32 := from_be (ascii_bytes "curve-factor").
Definition KeyDelegatorContractAddress : Bytes32 := from_be (ascii_bytes "delegator-contract-address").
Definition InitialValidatorRewardPercentage : Z := 30.
Definition InitialCurveFactor : Z := 76800.

(** [decoded = (decoded << 8) | uint64(b)] *)
Definition shiftIn (decoded b : Z) : Z := Z.lor (wrap64 (Z.shiftl decoded 8)) b.

Definition decodeUint64 (encoded : bytes) : result Z :=
  match encoded with
  | [] => Err (ErrInternal "EOF")
  | b :: rest =>
      if b <? 128 then Ok b else
      if b <? 184 then
        let size := b - 128 in
        if 8 <? size then Err (ErrInternal "rlp: uint overflow") else
        if Z.of_nat (length encoded) <? 1 + size then Err (ErrInternal "rlp: unexpected EOF") else
        if size =? 0 then Ok 0 else
        if size =? 1 then Ok (default 0 (list.head rest)) else
        Ok (foldl shiftIn 0 (take (Z.to_nat size) rest))
      else if b <? 192 then Err (ErrInternal "rlp: uint overflow")
      else Err (ErrInternal "rlp: expected string")
  end.

Record initialSupply := MkInitialSupply { isToken : Z; isEnergy : Z; isBlockTime : Z }.
Record totalAddSub := MkTotalAddSub { TotalAdd : Z; TotalSub : Z }.

(** [Energy]: the block time and the cached stop time of an instance. *)
Record energy := MkEnergy { eBlockTime : Z; eStopTime : Z }.
#[export] Instance eta_energy : Eta energy := λ e, MkEnergy (eBlockTime e) (eStopTime e).
Definition NewEnergy (blockTime : Z) : energy := MkEnergy blockTime 0.

(** The interface to the staker. *)
Class staker (T : Type) := {
  st_LockedStake : M T (Z * Z);
  st_HasDelegations : Address → M T bool;
  st_IncreaseDelegatorsReward : Address → Z → Z → M T unit;
}.
#[export] Instance staker_Staker : staker Staker := {|
  st_LockedStake := LockedStake;
  st_HasDelegations := HasDelegations;
  st_IncreaseDelegatorsReward := IncreaseDelegatorsReward;
|}.

(** What the methods of an instance work on. *)
Record ES (T : Type) := MkES { esState : State; esEnergy : energy; esStaker : T }.
Arguments MkES {T}.
Arguments esState {T}.
Arguments esEnergy {T}.
Arguments esStaker {T}.
#[export] Instance eta_ES {T} : Eta (ES T) := λ x, MkES (esState x) (esEnergy x) (esStaker x).

Section energy.
Context `{Rlp} `{Crypto} `{Drlp} `{StateEnv}.
Variable db : MuxDB.

(** ** Parameters *)
Definition errNegative : error := ErrInternal "rlp: cannot encode negative *big.Int".

Definition bigOf (raw : bytes) : result Z :=
  if (length raw =? 0)%nat then Ok 0 else decoded (rlp_parse raw ≫= num_of).

Definition params_Get (key : Bytes32) : M State Z := DecodeStorage db ParamsAddress key bigOf.
Definition params_Set (key : Bytes32) (value : Z) : M State unit :=
  EncodeStorage db ParamsAddress key
    (if value =? 0 then Ok [] else if value <? 0 then Err errNegative else Ok (rlp_bytes (rlp_num value))).

(** ** The token *)
Definition initialSupplyKey : Bytes32 := blake2b (ascii_bytes "initial-supply").
Definition totalAddSubKey : Bytes32 := blake2b (ascii_bytes "total-add-sub").
Definition issuedKey : Bytes32 := blake2b (ascii_bytes "issued").
Definition growthStopTimeKey : Bytes32 := blake2b (ascii_bytes "growth-stop-time").

Definition initialSupply_item (i : initialSupply) : item :=
  rlp_list [rlp_num (isToken i); rlp_num (isEnergy i); rlp_num (isBlockTime i)].
Definition initialSupply_of (i : item) : option initialSupply :=
  fields ← list_of i;
  match fields with
  | [r0; r1; r2] => token ← num_of r0; energy ← num_of r1; time ← uint_of 64 r2; Some (MkInitialSupply token energy time)
  | _ => None
  end.
Definition totalAddSub_item (t : totalAddSub) : item := rlp_list [rlp_num (TotalAdd t); rlp_num (TotalSub t)].
Definition totalAddSub_of (i : item) : option totalAddSub :=
  fields ← list_of i;
  match fields with [r0; r1] => add ← num_of r0; sub ← num_of r1; Some (MkTotalAddSub add sub) | _ => None end.

(** Decoding a slot; an empty one has the initial value. *)
Definition initialSupplyOf (raw : bytes) : result initialSupply :=
  if (length raw =? 0)%nat then Ok (MkInitialSupply 0 0 0) else decoded (rlp_parse raw ≫= initialSupply_of).
Definition totalAddSubOf (raw : bytes) : result totalAddSub :=
  if (length raw =? 0)%nat then Ok (MkTotalAddSub 0 0) else decoded (rlp_parse raw ≫= totalAddSub_of).
Definition stopTimeOf (raw : bytes) : result Z := if (length raw =? 0)%nat then Ok 0 else decodeUint64 raw.

Section methods.
Context {T : Type}.

Definition getInitialSupply : M (ES T) initialSupply :=
  zoom esState (DecodeStorage db EnergyAddress initialSupplyKey initialSupplyOf).

Definition getIssued : M (ES T) Z := zoom esState (DecodeStorage db EnergyAddress issuedKey bigOf).

Definition getTotalAddSub : M (ES T) totalAddSub :=
  zoom esState (DecodeStorage db EnergyAddress totalAddSubKey totalAddSubOf).

Definition setTotalAddSub (total : totalAddSub) : M (ES T) unit :=
  zoom esState (EncodeStorage db EnergyAddress totalAddSubKey
    (if (TotalAdd total <? 0) || (TotalSub total <? 0) then Err errNegative else Ok (rlp_bytes (totalAddSub_item total)))).

Definition SetInitialSupply (token en : Z) : M (ES T) unit :=
  e ← gets esEnergy;
  zoom esState (EncodeStorage db EnergyAddress initialSupplyKey
    (if (token <? 0) || (en <? 0) then Err errNegative
     else Ok (rlp_bytes (initialSupply_item (MkInitialSupply token en (eBlockTime e)))))).

Definition TokenTotalSupply : M (ES T) Z := init ← getInitialSupply; mret (isToken init).

Definition GetEnergyGrowthStopTime : M (ES T) Z :=
  e ← gets esEnergy;
  if negb (eStopTime e =? 0) then mret (eStopTime e) else
  time ← zoom esState (DecodeStorage db EnergyAddress growthStopTimeKey stopTimeOf);
  let stop := if time =? 0 then maxUint64 else time in
  modify (λ x, x <| esEnergy := (esEnergy x) <| eStopTime := stop |> |>);;
  mret stop.

Definition TotalSupply : M (ES T) Z :=
  init ← getInitialSupply;
  let acc := MkAccount (isToken init) (isEnergy init) (isBlockTime init) [] [] [] in
  stopTime ← GetEnergyGrowthStopTime;
  e ← gets esEnergy;
  let grown := CalcEnergy acc (eBlockTime e) stopTime in
  issued ← getIssued;
  mret (grown + issued).

Definition TotalBurned : M (ES T) Z :=
  total ← getTotalAddSub; mret (TotalSub total - TotalAdd total).

Definition energy_Get (addr : Address) : M (ES T) Z :=
  stopTime ← GetEnergyGrowthStopTime;
  e ← gets esEnergy;
  zoom esState (GetEnergy db addr (eBlockTime e) stopTime).

Definition energy_Add (addr : Address) (amount : Z) : M (ES T) unit :=
  if amount =? 0 then mret tt else
  eng ← energy_Get addr;
  total ← getTotalAddSub;
  setTotalAddSub (MkTotalAddSub (TotalAdd total + amount) (TotalSub total));;
  e ← gets esEnergy;
  zoom esState (SetEnergy db addr (eng + amount) (eBlockTime e)).

Definition energy_Sub (addr : Address) (amount : Z) : M (ES T) bool :=
  if amount =? 0 then mret true else
  eng ← energy_Get addr;
  if eng <? amount then mret false else
  total ← getTotalAddSub;
  setTotalAddSub (MkTotalAddSub (TotalAdd total) (TotalSub total + amount));;
  e ← gets esEnergy;
  zoom esState (SetEnergy db addr (eng - amount) (eBlockTime e));;
  mret true.

Definition StopEnergyGrowth : M (ES T) unit :=
  ts ← GetEnergyGrowthStopTime;
  if negb (ts =? maxUint64) then mret tt else
  e ← gets esEnergy;
  zoom esState (EncodeStorage db EnergyAddress growthStopTimeKey (Ok (rlp_bytes (rlp_num (eBlockTime e)))));;
  modify (λ x, x <| esEnergy := (esEnergy x) <| eStopTime := eBlockTime e |> |>).

Definition addIssued (issued : Z) : M (ES T) unit :=
  total ← getIssued;
  let total := total + issued in
  zoom esState (EncodeStorage db EnergyAddress issuedKey
    (if total <? 0 then Err errNegative else Ok (rlp_bytes (rlp_num total)))).

(** ** Rewards *)
Context `{!staker T}.

Definition CalculateRewards : M (ES T) Z :=
  '(totalStaked, _) ← zoom esStaker st_LockedStake;
  let sqrtStake := Z.sqrt totalStaked * bigE18 in
  curveFactor ← zoom esState (params_Get KeyCurveFactor);
  let curveFactor := if wrap64 curveFactor =? 0 then InitialCurveFactor else curveFactor in
  mret (1 * curveFactor * sqrtStake / NumberOfBlocksPerYear).

(** The part that goes to the delegators, when the signer has any. *)
Definition rewardDelegators (signer : Address) (reward proposerReward currentBlock : Z) : M (ES T) unit :=
  val ← zoom esState (params_Get KeyDelegatorContractAddress);
  let addr := val mod 2 ^ 160 in
  addrEng ← energy_Get addr;
  let delegationReward := reward - proposerReward in
  zoom esStaker (st_IncreaseDelegatorsReward signer delegationReward currentBlock);;
  e ← gets esEnergy;
  zoom esState (SetEnergy db addr (addrEng + delegationReward) (eBlockTime e)).

Definition DistributeRewards (beneficiary signer : Address) (currentBlock : Z) : M (ES T) unit :=
  reward ← CalculateRewards;
  hasDelegations ← zoom esStaker (st_HasDelegations signer);
  perc ← zoom esState (params_Get KeyValidatorRewardPercentage);
  let perc := if wrap64 perc =? 0 then InitialValidatorRewardPercentage else perc in
  let shared := hasDelegations && (perc <? 100) in
  let proposerReward := if shared then reward * perc / 100 else reward in
  when shared (rewardDelegators signer reward proposerReward currentBlock);;
  beneficiaryEng ← energy_Get beneficiary;
  e ← gets esEnergy;
  zoom esState (SetEnergy db beneficiary (beneficiaryEng + proposerReward) (eBlockTime e));;
  addIssued reward.
End methods.

(** ** Transfers of tokens (runtime.go) *)

(** [builtin.Energy.Native(state, blockTime)], used for one call. *)
Definition nativeEnergy {A} (blockTime : Z) (m : M (ES unit) A) : M State A := λ s,
  match m (MkES s (NewEnergy blockTime) tt) with
  | Ok (a, x) => Ok (a, esState x)
  | Err e => Err e
  end.

Definition SubBalance (addr : Address) (amount : Z) : M State unit :=
  if amount =? 0 then mret tt else
  balance ← GetBalance db addr; SetBalance db addr (balance - amount).
Definition AddBalance (addr : Address) (amount : Z) : M State unit :=
  if amount =? 0 then mret tt else
  balance ← GetBalance db addr; SetBalance db addr (balance + amount).

Definition CanTransfer (addr : Address) (amount : Z) : M State bool :=
  balance ← GetBalance db addr; mret (amount <=? balance).

(** The log entry of a transfer is left out. *)
Definition evm_Transfer (blockTime : Z) (sender recipient : Address) (amount : Z) : M State unit :=
  if amount =? 0 then mret tt else
  senderEnergy ← nativeEnergy blockTime (energy_Get sender);
  recipientEnergy ← nativeEnergy blockTime (energy_Get recipient);
  SetEnergy db sender senderEnergy blockTime;;
  SetEnergy db recipient recipientEnergy blockTime;;
  SubBalance sender amount;;
  AddBalance recipient amount.

(** Self-destruction: the energy and the tokens go to the receiver, and the vm
    deletes the contract. *)
Definition OnSuicideContract (blockTime : Z) (contractAddr tokenReceiver : Address) : M State unit :=
  en ← nativeEnergy blockTime (energy_Get contractAddr);
  bal ← GetBalance db contractAddr;
  when (negb (bal =? 0) || negb (en =? 0))
    (receiverEnergy ← nativeEnergy blockTime (energy_Get tokenReceiver);
     SetEnergy db tokenReceiver (receiverEnergy + en) blockTime);;
  when (negb (bal =? 0)) (AddBalance tokenReceiver bal).

Definition Suicide (addr : Address) : M State bool :=
  exist ← Exists db addr;
  if negb exist then mret false else
  Delete db addr;;
  mret true.
End energy.
