(* ===== verification/EnergySupply.v ===== *)
(** * The supply of energy

    Energy grows with the tokens of an account and is settled, rounded down, when
    the account is touched.  The energy of any set of accounts never exceeds the
    supply that the token reports, less what it reports as burned. *)

From S2P Require Import Prelude Bytes External Thor Block BlockCorrect Trie Staker Consensus StackedMap AccountState.
From S2P Require Import StateSpec StateCorrect StateStage StateReopen StateTheorems EnergyToken.

(** ** Sums over sets of accounts *)
Lemma lsum_subset (f : Z → Z) k S : NoDup k → (∀ a, a ∈ k → a ∈ S) → (∀ a, a ∈ S → 0 ≤ f a) → lsum f k ≤ lsum f S.
Proof.
  intros Hk Hsub Hf. destruct (submseteq_Permutation k S) as [r Hr]; [by apply NoDup_submseteq|].
  rewrite (lsum_perm f S (k ++ r)), lsum_app by done.
  assert (0 ≤ lsum f r); [|lia]. apply lsum_nonneg. intros a Ha. apply Hf. rewrite Hr. set_solver.
Qed.

Lemma lsum_ext (f g : Z → Z) l : (∀ a, a ∈ l → f a = g a) → lsum f l = lsum g l.
Proof. induction l as [|a l IH]; intros E; [done|]. simpl. rewrite (E a), IH; set_solver. Qed.

Lemma lsum_cons (f : Z → Z) a l : lsum f (a :: l) = f a + lsum f l.
Proof. done. Qed.

(** Changing a function on a set [S] moves the bound on all its sums as far as
    the sum over [S]. *)
Lemma lsum_moves (P : Z → Prop) (f f' : Z → Z) S B d : NoDup S → Forall P S → (∀ a, P a → 0 ≤ f a) → (∀ a, P a → 0 ≤ f' a) →
  (∀ a, P a → a ∉ S → f' a = f a) → lsum f' S ≤ lsum f S + d →
  (∀ l, NoDup l → Forall P l → lsum f l ≤ B) → ∀ l, NoDup l → Forall P l → lsum f' l ≤ B + d.
Proof.
  intros HS HP Hf Hf' Heq Hd HB l Hl HPl. set (r := filter (λ a, a ∉ S) l).
  rewrite Forall_forall in HP, HPl.
  assert (lsum f' l = lsum f' (filter (λ a, a ∈ S) l) + lsum f' r) as E1 by apply (lsum_filter f' l (λ a, a ∈ S)).
  assert (lsum f' (filter (λ a, a ∈ S) l) ≤ lsum f' S) as E2.
  { apply lsum_subset; [by apply NoDup_filter|intros a Ha%list_elem_of_filter; tauto|auto]. }
  assert (lsum f' r = lsum f r) as E3.
  { apply lsum_ext. intros a [? ?]%list_elem_of_filter. auto. }
  assert (lsum f (S ++ r) ≤ B) as E4.
  { apply HB; [|apply Forall_app; split; apply Forall_forall; [done|intros a [_ ?]%list_elem_of_filter; auto]].
    apply NoDup_app. split_and!; [done| |by apply NoDup_filter]. intros a Ha [? ?]%list_elem_of_filter. done. }
  rewrite lsum_app in E4. lia.
Qed.

Lemma lsum_zero (f : Z → Z) l : (∀ a, a ∈ l → f a = 0) → lsum f l = 0.
Proof.
  intros Hf. induction l as [|a l IH]; [done|]. rewrite lsum_cons, IH, Hf by set_solver. done.
Qed.

Lemma lsum_scale c (f : Z → Z) l : lsum (λ a, c * f a) l = c * lsum f l.
Proof. induction l as [|a l IH]; [simpl; lia|]. rewrite !lsum_cons, IH. lia. Qed.

(** What is nonzero only on [S] sums to no more anywhere. *)
Lemma lsum_cover (P : Z → Prop) (f : Z → Z) S l : Forall P S → (∀ a, P a → 0 ≤ f a) → (∀ a, P a → a ∉ S → f a = 0) →
  NoDup l → Forall P l → lsum f l ≤ lsum f S.
Proof.
  intros HS Hf Hout Hl HP. rewrite (lsum_filter f l (λ a, a ∈ S)). rewrite Forall_forall in HS, HP.
  rewrite (lsum_zero f (filter (λ a, a ∉ S) l)) by (intros a [? ?]%list_elem_of_filter; auto). rewrite Z.add_0_r.
  apply lsum_subset; [by apply NoDup_filter|intros a Ha%list_elem_of_filter; tauto|auto].
Qed.

(** ** The energy of an account, in parts of 10^-18 *)
Definition growing (stop T bt : Z) : Z := if bt =? 0 then 0 else Z.max 0 (Z.min T stop - bt).
Definition scaled (stop T : Z) (x : Account) : Z :=
  AccountState.bigE18 * Energy x + growing stop T (BlockTime x) * Balance x * EnergyGrowthRate.
Definition account_ok (T : Z) (x : Account) : Prop := 0 ≤ Balance x ∧ 0 ≤ Energy x ∧ 0 ≤ BlockTime x ≤ T.

Lemma growing_nonneg stop T bt : 0 ≤ growing stop T bt.
Proof. unfold growing. destruct (bt =? 0); lia. Qed.

Lemma CalcEnergy_scaled stop T x : account_ok T x → is64 T → is64 stop →
  CalcEnergy x T stop = scaled stop T x / AccountState.bigE18.
Proof.
  intros (Hb & He & Ht) HT Hs. unfold CalcEnergy, scaled, growing.
  assert (∀ g, (AccountState.bigE18 * Energy x + g) / AccountState.bigE18 = Energy x + g / AccountState.bigE18) as Hdiv.
  { intros g. rewrite Z.mul_comm, Z.add_comm, Z.div_add by (unfold AccountState.bigE18; lia). lia. }
  destruct (Z.eqb_spec (BlockTime x) 0); [rewrite Hdiv, !Z.mul_0_l, Zdiv_0_l; lia|].
  destruct (Z.eqb_spec (Balance x) 0) as [E0|]; [rewrite Hdiv, E0, Z.mul_0_r, Z.mul_0_l, Zdiv_0_l; lia|].
  rewrite Hdiv. destruct (Z.leb_spec T (BlockTime x)) as [Hle|Hlt].
  { replace (Z.max 0 (Z.min T stop - BlockTime x)) with 0 by lia. rewrite !Z.mul_0_l, Zdiv_0_l. lia. }
  f_equal. destruct (Z.ltb_spec (BlockTime x) stop) as [Hlt'|Hge].
  2: { replace (Z.max 0 (Z.min T stop - BlockTime x)) with 0 by lia. done. }
  f_equal. f_equal. f_equal. destruct (Z.leb_spec T stop).
  - rewrite wrap64_id by ulia. lia.
  - rewrite wrap64_id by ulia. lia.
Qed.

Lemma scaled_nonneg stop T x : account_ok T x → 0 ≤ scaled stop T x.
Proof.
  intros (Hb & He & Ht). unfold scaled, EnergyGrowthRate, AccountState.bigE18.
  pose proof (growing_nonneg stop T (BlockTime x)). nia.
Qed.

Lemma CalcEnergy_nonneg stop T x : account_ok T x → is64 T → is64 stop → 0 ≤ CalcEnergy x T stop.
Proof.
  intros Hx HT Hs. rewrite CalcEnergy_scaled by done. apply Z.div_pos; [by apply scaled_nonneg|unfold AccountState.bigE18; lia].
Qed.

(** An account touched at [T] no longer has anything growing. *)
Lemma scaled_touched stop T x : BlockTime x = T → scaled stop T x = AccountState.bigE18 * Energy x.
Proof. intros <-. unfold scaled, growing. destruct (_ =? 0); [lia|]. replace (Z.max 0 _) with 0 by lia. lia. Qed.

Lemma CalcEnergy_touched stop T x : BlockTime x = T → CalcEnergy x T stop = Energy x.
Proof. intros <-. unfold CalcEnergy. rewrite Z.leb_refl. by repeat destruct (_ =? _). Qed.

(** Settling rounds down. *)
Lemma settle_scaled stop T x : account_ok T x → is64 T → is64 stop →
  AccountState.bigE18 * CalcEnergy x T stop ≤ scaled stop T x.
Proof. intros. rewrite CalcEnergy_scaled by done. apply Z.mul_div_le. unfold AccountState.bigE18. lia. Qed.

(** Growth is what the tokens bring in the time that passes. *)
Lemma scaled_later stop T T' x : account_ok T x → T ≤ T' →
  scaled stop T' x ≤ scaled stop T x + (Z.min T' stop - Z.min T stop) * Balance x * EnergyGrowthRate.
Proof.
  intros (Hb & He & Ht) HT. unfold scaled, growing, EnergyGrowthRate. destruct (Z.eqb_spec (BlockTime x) 0); [nia|].
  assert (Z.max 0 (Z.min T' stop - BlockTime x) ≤ Z.max 0 (Z.min T stop - BlockTime x) + (Z.min T' stop - Z.min T stop)) by lia.
  nia.
Qed.

(** ** Unsigned integers in RLP *)
Definition uint_len (t : Z) : nat := Z.to_nat (Z.log2 t / 8) + 1.
Definition uint_bytes (t : Z) : bytes :=
  if t =? 0 then [128] else if t <? 128 then [t] else (128 + Z.of_nat (uint_len t)) :: be (uint_len t) t.

(** What the token relies on: [rlp] encodes a 64-bit integer as the shortest
    string of its bytes, and the four slots have different keys. *)
Class EnergySpec `{Rlp} `{Crypto} : Prop := {
  rlp_uint_bytes : ∀ t, is64 t → rlp_bytes (rlp_num t) = uint_bytes t;
  energy_keys : NoDup [initialSupplyKey; totalAddSubKey; issuedKey; growthStopTimeKey];
}.

Lemma uint_len_spec t : 0 < t → is64 t → (uint_len t ≤ 8)%nat ∧ t < 256 ^ Z.of_nat (uint_len t) ∧ (128 ≤ t → (1 ≤ uint_len t)%nat).
Proof.
  intros Hp Ht. unfold uint_len. pose proof (Z.log2_spec t Hp) as [Hlo Hhi]. pose proof (Z.log2_nonneg t) as Hn.
  assert (Z.log2 t < 64) as Hl by (apply Z.log2_lt_pow2; [done|unfold_int; lia]).
  split; [|split; [|lia]].
  - assert (Z.log2 t / 8 < 8) by (apply Z.div_lt_upper_bound; lia). lia.
  - rewrite Nat2Z.inj_add, Z2Nat.id by (apply Z.div_pos; lia). change 256 with (2 ^ 8). rewrite <- Z.pow_mul_r by (try apply Z.add_nonneg_nonneg; try apply Z.div_pos; lia).
    eapply Z.lt_le_trans; [exact Hhi|]. apply Z.pow_le_mono_r; [lia|].
    pose proof (Z.div_mod (Z.log2 t) 8 ltac:(lia)). pose proof (Z.mod_pos_bound (Z.log2 t) 8 ltac:(lia)). lia.
Qed.

Lemma shiftIn_id acc b : 0 ≤ acc < 2 ^ 56 → is_byte b → shiftIn acc b = acc * 256 + b.
Proof.
  intros Ha Hb. unfold shiftIn. rewrite Z.shiftl_mul_pow2 by lia. change (2 ^ 8) with 256.
  rewrite wrap64_id by (unfold_int; lia). unfold is_byte in Hb.
  rewrite <- Z.add_lor_land. replace (Z.land (acc * 256) b) with 0; [lia|]. symmetry.
  apply Z.bits_inj'. intros i Hi. rewrite Z.land_spec, Z.bits_0. change 256 with (2 ^ 8).
  destruct (Z.ltb_spec i 8).
  - by rewrite Z.mul_pow2_bits_low by lia.
  - rewrite (Z.bits_above_log2 b i), andb_false_r; [done|lia|].
    destruct (decide (b = 0)) as [->|]; [simpl; lia|]. apply Z.log2_lt_pow2; [lia|].
    eapply Z.lt_le_trans; [apply Hb|]. change 256 with (2 ^ 8). apply Z.pow_le_mono_r; lia.
Qed.

Lemma shiftIn_from_be l acc : Forall is_byte l → 0 ≤ acc → acc * 256 ^ Z.of_nat (length l) + from_be l < 2 ^ 64 →
  foldl shiftIn acc l = acc * 256 ^ Z.of_nat (length l) + from_be l.
Proof.
  revert acc. induction l as [|b l IH]; intros acc Hl Hacc Hlt; [unfold from_be; simpl; lia|].
  apply Forall_cons in Hl as [Hb Hl]. rewrite from_be_cons in *. cbn [foldl length] in *.
  rewrite Nat2Z.inj_succ, Z.pow_succ_r in * by lia. pose proof (from_be_range l Hl) as Hr.
  assert (1 ≤ 256 ^ Z.of_nat (length l)) by (pose proof (Z.pow_pos_nonneg 256 (Z.of_nat (length l))); lia).
  unfold is_byte in Hb. rewrite shiftIn_id; [|nia|done]. rewrite IH; [lia|done|lia|nia].
Qed.

Lemma decodeUint64_bytes t : is64 t → decodeUint64 (uint_bytes t) = Ok t.
Proof.
  intros Ht. unfold uint_bytes. destruct (Z.eqb_spec t 0) as [->|Hne]; [done|].
  destruct (Z.ltb_spec t 128) as [Hlt|Hge]; [unfold decodeUint64; by rewrite (proj2 (Z.ltb_lt t 128))|].
  destruct (uint_len_spec t) as (H8 & Hpow & H1); [unfold_int; lia|done|]. specialize (H1 Hge).
  set (n := uint_len t) in *. unfold decodeUint64.
  rewrite (proj2 (Z.ltb_ge (128 + Z.of_nat n) 128)), (proj2 (Z.ltb_lt (128 + Z.of_nat n) 184)) by lia.
  replace (128 + Z.of_nat n - 128) with (Z.of_nat n) by lia. rewrite (proj2 (Z.ltb_ge 8 (Z.of_nat n))) by lia.
  cbn [length]. rewrite be_length, (proj2 (Z.ltb_ge _ (1 + Z.of_nat n))) by lia.
  rewrite (proj2 (Z.eqb_neq (Z.of_nat n) 0)) by lia. rewrite Nat2Z.id, take_ge by (rewrite be_length; lia).
  destruct (Z.eqb_spec (Z.of_nat n) 1) as [E1|].
  - assert (n = 1%nat) as E by lia. rewrite E in *. f_equal. change ((t / 1) mod 256 = t). rewrite Z.div_1_r. apply Z.mod_small. unfold_int. lia.
  - f_equal. rewrite shiftIn_from_be; rewrite ?from_be_be, ?Z.mod_small; unfold_int; try lia. apply be_bytes.
Qed.

Section books.
Context `{HRlp : Rlp} `{!RlpSpec} `{HCrypto : Crypto} `{!CryptoSpec} `{HDrlp : Drlp} `{HEnv : StateEnv}.
Context {isCode : bytes → Prop} `{HSpec : !StateEnvSpec isCode} `{HE : !EnergySpec}.

Definition w_energy (a : Address) (e t : Z) (w : world) : world :=
  w_account a ((acct w a) <| Energy := e |> <| BlockTime := t |>) w.
Definition w_balance (a : Address) (b : Z) (w : world) : world := w_account a ((acct w a) <| Balance := b |>) w.
Definition w_total (a b : Z) (w : world) : world :=
  w_slot EnergyAddress totalAddSubKey (rlp_bytes (totalAddSub_item (MkTotalAddSub a b))) w.
Definition w_stop (t : Z) (w : world) : world := w_slot EnergyAddress growthStopTimeKey (rlp_bytes (rlp_num t)) w.
Definition w_issued (z : Z) (w : world) : world := w_slot EnergyAddress issuedKey (rlp_bytes (rlp_num z)) w.

(** ** The ledger of the token

    What the four slots of the contract say; [lStop] is 0 until growth stops. *)
Record ledger := MkLedger { lInit : initialSupply; lAdd : Z; lSub : Z; lIssued : Z; lStop : Z }.
Definition stopAt (L : ledger) : Z := if lStop L =? 0 then maxUint64 else lStop L.

Record has_ledger (w : world) (L : ledger) : Prop := {
  hl_init : initialSupplyOf (slot w EnergyAddress initialSupplyKey) = Ok (lInit L);
  hl_total : totalAddSubOf (slot w EnergyAddress totalAddSubKey) = Ok (MkTotalAddSub (lAdd L) (lSub L));
  hl_issued : bigOf (slot w EnergyAddress issuedKey) = Ok (lIssued L);
  hl_stop : stopTimeOf (slot w EnergyAddress growthStopTimeKey) = Ok (lStop L);
}.

Lemma EnergyAddress_ok : is160 EnergyAddress.
Proof. unfold is160. split; [done|]. vm_compute. done. Qed.
Lemma ParamsAddress_ok : is160 ParamsAddress.
Proof. unfold is160. split; [done|]. vm_compute. done. Qed.

Lemma key_range (b : bytes) : is256 (blake2b b).
Proof. apply blake2b_range. Qed.

Lemma bigOf_num z : 0 ≤ z → bigOf (rlp_bytes (rlp_num z)) = Ok z.
Proof. intros Hz. unfold bigOf. rewrite item_length, rlp_parse_bytes. cbn [mbind option_bind]. by rewrite num_of_num. Qed.

Lemma totalAddSubOf_item t : 0 ≤ TotalAdd t → 0 ≤ TotalSub t → totalAddSubOf (rlp_bytes (totalAddSub_item t)) = Ok t.
Proof.
  intros Ha Hb. unfold totalAddSubOf. rewrite item_length, rlp_parse_bytes. cbn [mbind option_bind].
  unfold totalAddSub_of, totalAddSub_item. rewrite list_of_list. cbn [mbind option_bind].
  rewrite !num_of_num by done. by destruct t.
Qed.

Lemma stopTimeOf_num t : is64 t → stopTimeOf (rlp_bytes (rlp_num t)) = Ok t.
Proof. intros Ht. unfold stopTimeOf. rewrite item_length, rlp_uint_bytes by done. by apply decodeUint64_bytes. Qed.

Lemma bigOf_nonneg raw z : bigOf raw = Ok z → 0 ≤ z.
Proof.
  unfold bigOf. destruct (_ =? _)%nat; [by intros [= <-]|]. destruct (rlp_parse raw); [|done]. cbn [mbind option_bind].
  destruct (num_of _) eqn:E; [|done]. intros [= <-]. by apply num_of_inv in E as [? _].
Qed.

(** Slots of the contract are apart. *)
Lemma slot_other w k k' raw : k ≠ k' → slot (w_slot EnergyAddress k raw w) EnergyAddress k' = slot w EnergyAddress k'.
Proof. intros Hne. cbn [slot w_slot]. by rewrite upd_eq, upd_ne by done. Qed.
Lemma slot_same w a k raw : slot (w_slot a k raw w) a k = raw.
Proof. cbn [slot w_slot]. by rewrite !upd_eq. Qed.

Lemma keys_apart : initialSupplyKey ≠ totalAddSubKey ∧ initialSupplyKey ≠ issuedKey ∧ initialSupplyKey ≠ growthStopTimeKey ∧
  totalAddSubKey ≠ issuedKey ∧ totalAddSubKey ≠ growthStopTimeKey ∧ issuedKey ≠ growthStopTimeKey.
Proof. pose proof energy_keys as Hk. rewrite !NoDup_cons in Hk. set_solver. Qed.

Lemma ledger_total w L a b : has_ledger w L → 0 ≤ a → 0 ≤ b →
  has_ledger (w_slot EnergyAddress totalAddSubKey (rlp_bytes (totalAddSub_item (MkTotalAddSub a b))) w)
    (MkLedger (lInit L) a b (lIssued L) (lStop L)).
Proof.
  intros [H1 H2 H3 H4] Ha Hb. destruct keys_apart as (K1 & K2 & K3 & K4 & K5 & K6).
  split; rewrite ?slot_other by done; try done. rewrite slot_same. by apply totalAddSubOf_item.
Qed.

Lemma ledger_issued w L z : has_ledger w L → 0 ≤ z →
  has_ledger (w_slot EnergyAddress issuedKey (rlp_bytes (rlp_num z)) w) (MkLedger (lInit L) (lAdd L) (lSub L) z (lStop L)).
Proof.
  intros [H1 H2 H3 H4] Hz. destruct keys_apart as (K1 & K2 & K3 & K4 & K5 & K6).
  split; rewrite ?slot_other by done; try done. rewrite slot_same. by apply bigOf_num.
Qed.

Lemma ledger_stop w L t : has_ledger w L → is64 t →
  has_ledger (w_slot EnergyAddress growthStopTimeKey (rlp_bytes (rlp_num t)) w) (MkLedger (lInit L) (lAdd L) (lSub L) (lIssued L) t).
Proof.
  intros [H1 H2 H3 H4] Ht. destruct keys_apart as (K1 & K2 & K3 & K4 & K5 & K6).
  split; rewrite ?slot_other by done; try done. rewrite slot_same. by apply stopTimeOf_num.
Qed.

Lemma ledger_slots w w' L : has_ledger w L → (∀ k, slot w' EnergyAddress k = slot w EnergyAddress k) → has_ledger w' L.
Proof. intros [H1 H2 H3 H4] E. split; by rewrite E. Qed.

(** ** The invariant

    [d] is energy handed out that the ledger does not have yet. *)
Definition tot (L : ledger) : Z := lIssued L + lAdd L - lSub L.
Definition bound (T : Z) (L : ledger) : Z :=
  AccountState.bigE18 * (isEnergy (lInit L) + tot L) +
  growing (stopAt L) T (isBlockTime (lInit L)) * isToken (lInit L) * EnergyGrowthRate.

Record ledger_ok (T : Z) (L : ledger) : Prop := {
  lo_nonneg : 0 ≤ isToken (lInit L) ∧ 0 ≤ isEnergy (lInit L) ∧ 0 ≤ lAdd L ∧ 0 ≤ lSub L ∧ 0 ≤ lIssued L;
  lo_times : 0 < isBlockTime (lInit L) ≤ T;
  lo_range : is64 T ∧ is64 (stopAt L);
}.

Record supply_ok (T : Z) (w : world) (L : ledger) (d : Z) : Prop := {
  so_ledger : has_ledger w L;
  so_ok : ledger_ok T L;
  so_accounts : ∀ a, is160 a → account_ok T (acct w a);
  so_tokens : ∀ l, NoDup l → Forall is160 l → lsum (λ a, Balance (acct w a)) l ≤ isToken (lInit L);
  so_energy : ∀ l, NoDup l → Forall is160 l →
    lsum (λ a, scaled (stopAt L) T (acct w a)) l ≤ bound T L + AccountState.bigE18 * d;
}.

Lemma supply_change T w L d w' L' S δ : supply_ok T w L d → NoDup S → Forall is160 S →
  (∀ a, is160 a → a ∉ S → acct w' a = acct w a) → (∀ a, a ∈ S → account_ok T (acct w' a)) →
  lsum (λ a, Balance (acct w' a)) S ≤ lsum (λ a, Balance (acct w a)) S →
  lsum (λ a, scaled (stopAt L) T (acct w' a)) S ≤ lsum (λ a, scaled (stopAt L) T (acct w a)) S + AccountState.bigE18 * δ →
  has_ledger w' L' → ledger_ok T L' → lInit L' = lInit L → stopAt L' = stopAt L →
  supply_ok T w' L' (d + δ + tot L - tot L').
Proof.
  intros [HL Hok Hacc Htok Hen] HS HP Hout Hin Hbal Hsc HL' Hok' Ei Es.
  assert (∀ a, is160 a → account_ok T (acct w' a)) as Hacc'.
  { intros a Ha. destruct (decide (a ∈ S)); [by apply Hin|]. rewrite Hout by done. by apply Hacc. }
  split; [done..| |].
  - intros l Hl HPl. rewrite Ei. rewrite <- (Z.add_0_r (isToken (lInit L))).
    apply (lsum_moves is160 (λ a, Balance (acct w a)) (λ a, Balance (acct w' a)) S); try done; [..|lia].
    + intros a Ha. apply (Hacc a Ha).
    + intros a Ha. apply (Hacc' a Ha).
    + intros a Ha HaS. by rewrite Hout.
  - intros l Hl HPl. rewrite Es.
    replace (bound T L' + AccountState.bigE18 * (d + δ + tot L - tot L')) with
      (bound T L + AccountState.bigE18 * d + AccountState.bigE18 * δ) by (unfold bound; rewrite Ei, Es; lia).
    apply (lsum_moves is160 (λ a, scaled (stopAt L) T (acct w a)) (λ a, scaled (stopAt L) T (acct w' a)) S); try done.
    + intros a Ha. by apply scaled_nonneg, Hacc.
    + intros a Ha. by apply scaled_nonneg, Hacc'.
    + intros a Ha HaS. by rewrite Hout.
Qed.

(** Touching an account. *)
Lemma w_energy_ledger w L a e t : has_ledger w L → has_ledger (w_energy a e t w) L.
Proof. intros HL. eapply ledger_slots; [done|]. done. Qed.

Lemma supply_touch T w L d a δ : supply_ok T w L d → is160 a →
  0 ≤ CalcEnergy (acct w a) T (stopAt L) + δ →
  supply_ok T (w_energy a (CalcEnergy (acct w a) T (stopAt L) + δ) T w) L (d + δ).
Proof.
  intros Hs Ha Hpos. pose proof Hs as [HL [Hnn Ht [HT Hst]] Hacc _ _]. pose proof (Hacc a Ha) as Hok.
  replace (d + δ) with (d + δ + tot L - tot L) by lia.
  apply (supply_change T w L d _ L [a]); try done; [apply NoDup_singleton|by constructor|..].
  - intros b Hb Hne. cbn [acct w_energy w_account]. rewrite upd_ne by set_solver. done.
  - intros b ->%list_elem_of_singleton. cbn [acct w_energy w_account]. rewrite upd_eq. destruct Hok as (? & ? & ?).
    split_and!; simpl; lia.
  - simpl. unfold upd. rewrite Z.eqb_refl. simpl. lia.
  - simpl lsum. unfold w_energy, w_account. cbn [acct]. rewrite upd_eq. rewrite scaled_touched by done. simpl Energy.
    pose proof (settle_scaled (stopAt L) T (acct w a) Hok HT Hst). lia.
  - by apply w_energy_ledger.
Qed.

(** The ledger alone changes. *)
Lemma supply_books T w L d w' L' : supply_ok T w L d → (∀ a, acct w' a = acct w a) → has_ledger w' L' → ledger_ok T L' →
  lInit L' = lInit L → stopAt L' = stopAt L → supply_ok T w' L' (d + tot L - tot L').
Proof.
  intros Hs Ha HL' Hok' Ei Es. replace (d + tot L - tot L') with (d + 0 + tot L - tot L') by lia.
  apply (supply_change T w L d w' L' [] 0); try done; [by apply NoDup_nil_2|].
  intros a Hin. by apply not_elem_of_nil in Hin.
Qed.

(** Time passes. *)
Lemma supply_later T T' w L d : supply_ok T w L d → T ≤ T' → is64 T' → supply_ok T' w L d.
Proof.
  intros [HL [Hnn Ht [HT Hst]] Hacc Htok Hen] Hle HT'. split; [done| | |done|].
  - split; [done|lia|done].
  - intros a Ha. destruct (Hacc a Ha) as (? & ? & ?). split_and!; lia.
  - intros l Hl HPl. set (m := Z.min T' (stopAt L) - Z.min T (stopAt L)).
    assert (lsum (λ a, scaled (stopAt L) T' (acct w a)) l ≤ lsum (λ a, scaled (stopAt L) T (acct w a)) l +
      m * lsum (λ a, Balance (acct w a)) l * EnergyGrowthRate) as Hgrow.
    { clear Hl Htok Hen. induction l as [|a l IH]; [simpl; lia|]. apply Forall_cons in HPl as [Ha HPl]. rewrite !lsum_cons.
      pose proof (scaled_later (stopAt L) T T' (acct w a) (Hacc a Ha) Hle). specialize (IH HPl). fold m in H1. lia. }
    pose proof (Htok l Hl HPl) as Htl. pose proof (Hen l Hl HPl) as Hel.
    assert (0 ≤ m) as Hm by (unfold m; lia).
    assert (bound T' L = bound T L + (growing (stopAt L) T' (isBlockTime (lInit L)) - growing (stopAt L) T (isBlockTime (lInit L)))
      * isToken (lInit L) * EnergyGrowthRate) as Eb by (unfold bound; lia).
    assert (growing (stopAt L) T' (isBlockTime (lInit L)) - growing (stopAt L) T (isBlockTime (lInit L)) = m) as Em.
    { unfold growing, m. destruct (Z.eqb_spec (isBlockTime (lInit L)) 0); lia. }
    rewrite Eb, Em. unfold EnergyGrowthRate in *. nia.
Qed.

(** Growth stops at the current time. *)
Lemma supply_stop T w L d : supply_ok T w L d → stopAt L = maxUint64 →
  supply_ok T (w_stop T w) (MkLedger (lInit L) (lAdd L) (lSub L) (lIssued L) T) d.
Proof.
  intros [HL [Hnn Ht [HT Hst]] Hacc Htok Hen] Es. set (L' := MkLedger _ _ _ _ _).
  assert (stopAt L' = T) as Es' by (unfold stopAt, L'; simpl; by rewrite (proj2 (Z.eqb_neq T 0)) by lia).
  assert (∀ t, growing T T t = growing maxUint64 T t) as Eg.
  { intros t. unfold growing, maxUint64. unfold_int. destruct (t =? 0); [done|]. f_equal. lia. }
  split; [by apply ledger_stop|split; [done..|by rewrite Es']|done|done|].
  intros l Hl HPl. unfold bound. rewrite Es', Eg.
  rewrite (lsum_ext _ (λ a, scaled (stopAt L) T (acct w a))); [|intros a _; unfold scaled; by rewrite Es, Eg].
  rewrite <- Es. by apply Hen.
Qed.

(** Tokens move between accounts that were touched. *)
Lemma supply_transfer T w L d s r amount : supply_ok T w L d → is160 s → is160 r →
  BlockTime (acct w s) = T → BlockTime (acct w r) = T → 0 ≤ amount ≤ Balance (acct w s) →
  let w1 := w_balance s (Balance (acct w s) - amount) w in
  supply_ok T (w_balance r (Balance (acct w1 r) + amount) w1) L d.
Proof.
  intros Hs Hsa Hra Hts Htr Hamt w1. pose proof Hs as [HL Hok Hacc _ _].
  pose proof (Hacc s Hsa) as (Bs & Es & Ts). pose proof (Hacc r Hra) as (Br & Er & Tr).
  set (w2 := w_balance r _ w1).
  assert (∀ a, acct w2 a = if a =? r then (acct w1 r) <| Balance := Balance (acct w1 r) + amount |> else acct w1 a) as E2 by done.
  assert (∀ a, acct w1 a = if a =? s then (acct w s) <| Balance := Balance (acct w s) - amount |> else acct w a) as E1 by done.
  replace d with (d + 0 + tot L - tot L) by lia.
  assert (has_ledger w2 L) as HL2 by (by eapply ledger_slots).
  destruct (decide (s = r)) as [<-|Hne].
  - assert (acct w2 s = acct w s) as E.
    { rewrite E2, Z.eqb_refl, E1, Z.eqb_refl. simpl. replace (_ - _ + _) with (Balance (acct w s)) by lia. by destruct (acct w s). }
    apply (supply_change T w L d _ L [s]); try done; [apply NoDup_singleton|by constructor|..].
    + intros a Ha Hn. assert (a ≠ s) by set_solver. by rewrite E2, (proj2 (Z.eqb_neq a s)), E1, (proj2 (Z.eqb_neq a s)).
    + intros a ->%list_elem_of_singleton. rewrite E. by apply Hacc.
    + cbn [lsum foldr]. rewrite E. lia.
    + cbn [lsum foldr]. rewrite E. lia.
  - assert (acct w2 s = (acct w s) <| Balance := Balance (acct w s) - amount |>) as Es2.
    { rewrite E2, (proj2 (Z.eqb_neq s r)), E1, Z.eqb_refl by done. done. }
    assert (acct w2 r = (acct w r) <| Balance := Balance (acct w r) + amount |>) as Er2.
    { rewrite E2, Z.eqb_refl, E1, (proj2 (Z.eqb_neq r s)) by done. done. }
    apply (supply_change T w L d _ L [s; r]); try done.
    + apply NoDup_cons. split; [set_solver|apply NoDup_singleton].
    + apply Forall_cons. split; [done|by apply Forall_singleton].
    + intros a Ha Hn. assert (a ≠ s ∧ a ≠ r) as [? ?] by set_solver.
      by rewrite E2, (proj2 (Z.eqb_neq a r)), E1, (proj2 (Z.eqb_neq a s)).
    + intros a [->|[->|[]%elem_of_nil]%elem_of_cons]%elem_of_cons; rewrite ?Es2, ?Er2; split_and!; simpl; lia.
    + cbn [lsum foldr]. rewrite Es2, Er2. simpl. lia.
    + cbn [lsum foldr]. rewrite Es2, Er2. rewrite !scaled_touched by done. simpl Energy. lia.
Qed.

(** A contract is destroyed: its energy [en] and tokens [bal] go to [r]. *)
Definition w_inherit (T stop : Z) (c r : Address) (w : world) : world :=
  let en := CalcEnergy (acct w c) T stop in
  let bal := Balance (acct w c) in
  let w1 := if negb (bal =? 0) || negb (en =? 0) then w_energy r (CalcEnergy (acct w r) T stop + en) T w else w in
  if bal =? 0 then w1 else w_balance r (Balance (acct w1 r) + bal) w1.

Lemma inherit_other T stop c r w a : a ≠ r → acct (w_inherit T stop c r w) a = acct w a.
Proof.
  intros Hne. unfold w_inherit, w_energy, w_balance. destruct (Balance (acct w c) =? 0), (CalcEnergy (acct w c) T stop =? 0);
    cbn [negb orb acct w_account]; by rewrite ?upd_ne by done.
Qed.

Lemma inherit_slots T stop c r w a k : slot (w_inherit T stop c r w) a k = slot w a k.
Proof. unfold w_inherit. by destruct (Balance (acct w c) =? 0), (CalcEnergy (acct w c) T stop =? 0). Qed.

Lemma inherit_heir T stop c r w : account_ok T (acct w c) → account_ok T (acct w r) → is64 T → is64 stop →
  let x := acct (w_inherit T stop c r w) r in
  account_ok T x ∧ Balance x = Balance (acct w r) + Balance (acct w c) ∧
  scaled stop T x ≤ scaled stop T (acct w r) + AccountState.bigE18 * CalcEnergy (acct w c) T stop.
Proof.
  intros Hc Hr HT Hst. pose proof (CalcEnergy_nonneg stop T _ Hc HT Hst). pose proof (CalcEnergy_nonneg stop T _ Hr HT Hst).
  pose proof (settle_scaled stop T _ Hr HT Hst). destruct Hc as (Bc & Ec & Tc). pose proof Hr as (Br & Er & Tr).
  unfold w_inherit. cbv zeta. destruct (Z.eqb_spec (Balance (acct w c)) 0) as [E0|]; [destruct (Z.eqb_spec (CalcEnergy (acct w c) T stop) 0) as [E1|]|];
    cbn [negb orb]; unfold w_energy, w_balance; cbn [acct w_account]; rewrite ?upd_eq.
  - split_and!; [done|lia|lia].
  - rewrite scaled_touched by done. split_and!; [split_and!; simpl; lia|simpl; lia|simpl Energy; lia].
  - rewrite scaled_touched by done. split_and!; [split_and!; simpl; lia|simpl; lia|simpl Energy; lia].
Qed.

Lemma supply_destroy T w L d c r : supply_ok T w L d → is160 c → is160 r → c ≠ EnergyAddress →
  supply_ok T (w_delete c (w_inherit T (stopAt L) c r w)) L d.
Proof.
  intros Hs Hc Hr Hne. pose proof Hs as [HL Hok Hacc _ _]. pose proof Hok as [_ Ht [HT Hst]].
  set (w1 := w_inherit T (stopAt L) c r w). assert (account_ok T emptyAccount) as Hempty by (split_and!; simpl; lia).
  assert (has_ledger (w_delete c w1) L) as HL'.
  { eapply ledger_slots; [done|]. intros k. cbn [slot w_delete]. rewrite upd_ne by done. apply inherit_slots. }
  pose proof (Hacc c Hc) as Hac. pose proof (scaled_nonneg (stopAt L) T _ Hac) as Hsc.
  pose proof (settle_scaled (stopAt L) T _ Hac HT Hst) as Hse.
  assert (acct (w_delete c w1) c = emptyAccount) as Ec by (cbn [acct w_delete]; apply upd_eq).
  assert (scaled (stopAt L) T emptyAccount = 0) as E0 by (unfold scaled; simpl; lia).
  replace d with (d + 0 + tot L - tot L) by lia. destruct (decide (c = r)) as [<-|Hcr].
  - apply (supply_change T w L d _ L [c]); try done; [apply NoDup_singleton|by constructor|..].
    + intros a Ha Hn. cbn [acct w_delete]. assert (a ≠ c) by set_solver. rewrite upd_ne by done. by apply inherit_other.
    + intros a ->%list_elem_of_singleton. by rewrite Ec.
    + cbn [lsum foldr]. rewrite Ec. destruct Hac as (? & _). simpl Balance. lia.
    + cbn [lsum foldr]. rewrite Ec, E0. lia.
  - destruct (inherit_heir T (stopAt L) c r w Hac (Hacc r Hr) HT Hst) as (Hx & HxB & Hxs). fold w1 in Hx, HxB, Hxs.
    assert (acct (w_delete c w1) r = acct w1 r) as Er by (cbn [acct w_delete]; by rewrite upd_ne).
    apply (supply_change T w L d _ L [c; r]); try done.
    + apply NoDup_cons. split; [set_solver|apply NoDup_singleton].
    + apply Forall_cons. split; [done|by apply Forall_singleton].
    + intros a Ha Hn. assert (a ≠ c ∧ a ≠ r) as [? ?] by set_solver. cbn [acct w_delete]. rewrite upd_ne by done. by apply inherit_other.
    + intros a [->|[->|[]%elem_of_nil]%elem_of_cons]%elem_of_cons; [by rewrite Ec|by rewrite Er].
    + cbn [lsum foldr]. rewrite Ec, Er, HxB. simpl Balance. lia.
    + cbn [lsum foldr]. rewrite Ec, Er, E0. lia.
Qed.

(** The energy of any set of accounts is within the supply. *)
Definition initialAccount (L : ledger) : Account :=
  MkAccount (isToken (lInit L)) (isEnergy (lInit L)) (isBlockTime (lInit L)) [] [] [].

Lemma supply_total T w L l : supply_ok T w L 0 → NoDup l → Forall is160 l →
  lsum (λ a, CalcEnergy (acct w a) T (stopAt L)) l ≤
  CalcEnergy (initialAccount L) T (stopAt L) + lIssued L - (lSub L - lAdd L).
Proof.
  intros [HL [Hnn Ht [HT Hst]] Hacc _ Hen] Hl HP.
  rewrite CalcEnergy_scaled; [|split_and!; simpl; lia|done..].
  assert (AccountState.bigE18 * lsum (λ a, CalcEnergy (acct w a) T (stopAt L)) l ≤ lsum (λ a, scaled (stopAt L) T (acct w a)) l) as Hsum.
  { clear Hl Hen. induction l as [|a l IH]; [simpl; lia|]. apply Forall_cons in HP as [Ha HP]. specialize (IH HP). rewrite !lsum_cons.
    pose proof (settle_scaled (stopAt L) T (acct w a) (Hacc a Ha) HT Hst). lia. }
  pose proof (Hen l Hl HP) as Hb. unfold bound, tot in Hb. unfold scaled at 1, initialAccount. cbn [Energy BlockTime Balance].
  set (g := growing _ _ _ * _ * _) in *. set (S := lsum _ l) in *.
  assert (S - (lIssued L - (lSub L - lAdd L)) ≤ (AccountState.bigE18 * isEnergy (lInit L) + g) / AccountState.bigE18); [|lia].
  apply Z.div_le_lower_bound; [unfold AccountState.bigE18; lia|]. lia.
Qed.
End books.

(** ** Operations on worlds *)
Section supply.
Context `{HRlp : Rlp} `{!RlpSpec} `{HCrypto : Crypto} `{!CryptoSpec} `{HDrlp : Drlp} `{HEnv : StateEnv}.
Context {isCode : bytes → Prop} `{HSpec : !StateEnvSpec isCode} `{HE : !EnergySpec}.
Variable db : MuxDB.
Variable trie0 : MTrie.
Variable w0 : world.
Variable metaOf : Address → AccountMetadata.
Hypothesis Hbase : loaded (isCode := isCode) db trie0 w0 metaOf.

Local Abbreviation represents := (represents (isCode := isCode) db trie0 w0 metaOf) (only parsing).

(** [m] takes the world [w] to [w'] and returns [v]. *)
Definition sacts {A} (m : M State A) (w : world) (v : A) (w' : world) : Prop :=
  ∀ s ws, represents s (w :: ws) → ∃ s', m s = Ok (v, s') ∧ represents s' (w' :: ws).

Lemma sacts_bind {A B} (m : M State A) (f : A → M State B) w v w1 v2 w2 :
  sacts m w v w1 → sacts (f v) w1 v2 w2 → sacts (m ≫= f) w v2 w2.
Proof.
  intros Hm Hf s ws Hs. destruct (Hm s ws Hs) as (s1 & E1 & Hs1). destruct (Hf s1 ws Hs1) as (s2 & E2 & Hs2).
  exists s2. split; [|done]. unfold mbind, M_bind. by rewrite E1.
Qed.

Lemma sacts_ret {A} (v : A) w : sacts (mret v) w v w.
Proof. intros s ws Hs. by exists s. Qed.

Lemma sacts_err {A} (m : M State A) f w v w' : sacts m w v w' → sacts (map_err f m) w v w'.
Proof. intros Hm s ws Hs. destruct (Hm s ws Hs) as (s1 & E1 & Hs1). exists s1. split; [|done]. unfold map_err. by rewrite E1. Qed.

Lemma sacts_lift {A} (r : result A) v w : r = Ok v → sacts (lift r) w v w.
Proof. intros -> s ws Hs. by exists s. Qed.

Lemma sacts_write o w : op_writes o → op_ok isCode o → sacts (state_perform db o) w tt (world_perform o w).
Proof.
  intros Ho Hok s ws Hs. destruct (step_represents db trie0 w0 metaOf Hbase o s w ws Hok Hs) as (s' & w' & ws' & E & Ew & Hs').
  exists s'. split; [done|]. destruct o; try done; by injection Ew as <- <-.
Qed.

(** Readers. *)
Lemma sacts_read {A} (m : M State A) (f : world → A) w : (∀ w1 w2, same w1 w2 → f w1 = f w2) →
  (∀ s J Js, on (isCode := isCode) db trie0 w0 metaOf s J Js →
     gives (isCode := isCode) db trie0 w0 metaOf m s (f (world_of w0 J)) J Js) →
  sacts m w (f w) w.
Proof.
  intros Hf Hm s ws (Hc & JJ & Hi & HJJ). destruct (Forall2_cons_inv_r _ _ _ _ HJJ) as (J & Js & [HJ Hsame] & HJs & ->).
  destruct (Hm s J Js) as (s' & E & Hs'); [split; [done..|by eapply wfJ_typed]|]. exists s'. rewrite <- (Hf _ _ Hsame).
  split; [done|]. split; [apply Hs'|]. exists (J :: Js). split; [apply Hs'|]. by constructor.
Qed.

Lemma sacts_account {A} (f : Account → A) a w : is160 a →
  sacts (acc ← map_err stateError (getAccount db a); mret (f acc)) w (f (acct w a)) w.
Proof.
  intros Ha. apply (sacts_read _ (λ w, f (acct w a))); [intros ? ? E; by rewrite (same_acct _ _ E)|].
  intros. by apply account_reads.
Qed.

Lemma GetBalance_acts a w : is160 a → sacts (GetBalance db a) w (Balance (acct w a)) w.
Proof. apply (sacts_account Balance). Qed.
Lemma Exists_acts a w : is160 a → sacts (Exists db a) w (negb (Account_IsEmpty (acct w a))) w.
Proof. apply (sacts_account (λ x, negb (Account_IsEmpty x))). Qed.
Lemma GetEnergy_acts a t stop w : is160 a → sacts (GetEnergy db a t stop) w (CalcEnergy (acct w a) t stop) w.
Proof. apply (sacts_account (λ x, CalcEnergy x t stop)). Qed.

Lemma GetRawStorage_acts a k w : is160 a → is256 k → sacts (GetRawStorage db a k) w (slot w a k) w.
Proof.
  intros Ha Hk. apply (sacts_read _ (λ w, slot w a k)); [intros ? ? E; by rewrite (same_slot _ _ E)|].
  intros. by apply GetRawStorage_gives.
Qed.

Lemma DecodeStorage_acts {A} a k (dec : bytes → result A) v w : is160 a → is256 k → dec (slot w a k) = Ok v →
  sacts (DecodeStorage db a k dec) w v w.
Proof.
  intros Ha Hk Hv. eapply sacts_bind; [by apply sacts_err, GetRawStorage_acts|]. by apply sacts_err, sacts_lift.
Qed.

Lemma EncodeStorage_acts a k raw w : is160 a → is256 k → sacts (EncodeStorage db a k (Ok raw)) w tt (w_slot a k raw w).
Proof.
  intros Ha Hk. eapply sacts_bind; [by apply sacts_err, sacts_lift|]. by apply (sacts_write (OpRaw a k raw)).
Qed.

Lemma SetEnergy_acts a e t w : is160 a → sacts (SetEnergy db a e t) w tt (w_energy a e t w).
Proof. intros Ha. by apply (sacts_write (OpEnergy a e t)). Qed.
Lemma SetBalance_acts a b w : is160 a → sacts (SetBalance db a b) w tt (w_balance a b w).
Proof. intros Ha. by apply (sacts_write (OpBalance a b)). Qed.
Lemma Delete_acts a w : is160 a → sacts (Delete db a) w tt (w_delete a w).
Proof. intros Ha. by apply (sacts_write (OpDelete a)). Qed.

(** ** The methods of the token *)
Section methods.
Context {T : Type}.

Definition eacts {A} (m : M (ES T) A) (w : world) (e : energy) (k : T) (v : A) (w' : world) (e' : energy) (k' : T) : Prop :=
  ∀ s ws, represents s (w :: ws) → ∃ s', m (MkES s e k) = Ok (v, MkES s' e' k') ∧ represents s' (w' :: ws).

Lemma eacts_bind {A B} (m : M (ES T) A) (f : A → M (ES T) B) w e k v w1 e1 k1 v2 w2 e2 k2 :
  eacts m w e k v w1 e1 k1 → eacts (f v) w1 e1 k1 v2 w2 e2 k2 → eacts (m ≫= f) w e k v2 w2 e2 k2.
Proof.
  intros Hm Hf s ws Hs. destruct (Hm s ws Hs) as (s1 & E1 & Hs1). destruct (Hf s1 ws Hs1) as (s2 & E2 & Hs2).
  exists s2. split; [|done]. unfold mbind, M_bind. by rewrite E1.
Qed.
Lemma eacts_ret {A} (v : A) w e k : eacts (mret v) w e k v w e k.
Proof. intros s ws Hs. by exists s. Qed.
Lemma eacts_state {A} (m : M State A) w e k v w' : sacts m w v w' → eacts (zoom esState m) w e k v w' e k.
Proof. intros Hm s ws Hs. destruct (Hm s ws Hs) as (s1 & E1 & Hs1). exists s1. split; [|done]. unfold zoom. simpl. by rewrite E1. Qed.
Lemma eacts_energy w e k : eacts (gets esEnergy) w e k e w e k.
Proof. intros s ws Hs. by exists s. Qed.
Lemma eacts_staker {A} (m : M T A) w e k v k' : m k = Ok (v, k') → eacts (zoom esStaker m) w e k v w e k'.
Proof. intros Hm s ws Hs. exists s. split; [|done]. unfold zoom. simpl. by rewrite Hm. Qed.

(** The stop time is cached in the instance. *)
Definition fresh_ok (e : energy) (L : ledger) : Prop := eStopTime e = 0 ∨ eStopTime e = stopAt L.
Definition known (e : energy) (L : ledger) : energy := MkEnergy (eBlockTime e) (stopAt L).

Lemma stopAt_nonzero L : stopAt L ≠ 0.
Proof. unfold stopAt, maxUint64. destruct (Z.eqb_spec (lStop L) 0); [unfold_int; lia|done]. Qed.

Lemma stop_acts w e k L : has_ledger w L → fresh_ok e L →
  eacts (GetEnergyGrowthStopTime db) w e k (stopAt L) w (known e L) k.
Proof.
  intros HL He. unfold GetEnergyGrowthStopTime. eapply eacts_bind; [apply eacts_energy|]. pose proof (stopAt_nonzero L) as Hnz.
  destruct He as [->|E].
  - simpl. eapply eacts_bind.
    { apply eacts_state, DecodeStorage_acts; [apply EnergyAddress_ok|apply key_range|apply HL]. }
    intros s ws Hs. exists s. split; [|done]. done.
  - rewrite E, (proj2 (Z.eqb_neq (stopAt L) 0)) by done. simpl.
    assert (known e L = e) as -> by (unfold known; rewrite <- E; by destruct e). apply eacts_ret.
Qed.

Lemma energy_Get_acts w e k L a : has_ledger w L → fresh_ok e L → is160 a →
  eacts (energy_Get db a) w e k (CalcEnergy (acct w a) (eBlockTime e) (stopAt L)) w (known e L) k.
Proof.
  intros HL He Ha. eapply eacts_bind; [by apply stop_acts|]. eapply eacts_bind; [apply eacts_energy|].
  by apply eacts_state, GetEnergy_acts.
Qed.

Lemma getTotal_acts w e k L : has_ledger w L → eacts (getTotalAddSub db) w e k (MkTotalAddSub (lAdd L) (lSub L)) w e k.
Proof. intros HL. apply eacts_state, DecodeStorage_acts; [apply EnergyAddress_ok|apply key_range|apply HL]. Qed.
Lemma getIssued_acts w e k L : has_ledger w L → eacts (getIssued db) w e k (lIssued L) w e k.
Proof. intros HL. apply eacts_state, DecodeStorage_acts; [apply EnergyAddress_ok|apply key_range|apply HL]. Qed.
Lemma getInitial_acts w e k L : has_ledger w L → eacts (getInitialSupply db) w e k (lInit L) w e k.
Proof. intros HL. apply eacts_state, DecodeStorage_acts; [apply EnergyAddress_ok|apply key_range|apply HL]. Qed.

Lemma setTotal_acts w e k a b : 0 ≤ a → 0 ≤ b → eacts (setTotalAddSub db (MkTotalAddSub a b)) w e k tt (w_total a b w) e k.
Proof.
  intros Ha Hb. apply eacts_state. simpl TotalAdd. simpl TotalSub. rewrite (proj2 (Z.ltb_ge a 0)), (proj2 (Z.ltb_ge b 0)) by done.
  apply EncodeStorage_acts; [apply EnergyAddress_ok|apply key_range].
Qed.

Lemma TotalSupply_acts w e k L : has_ledger w L → fresh_ok e L →
  eacts (TotalSupply db) w e k
    (CalcEnergy (MkAccount (isToken (lInit L)) (isEnergy (lInit L)) (isBlockTime (lInit L)) [] [] []) (eBlockTime e) (stopAt L) + lIssued L)
    w (known e L) k.
Proof.
  intros HL He. eapply eacts_bind; [by apply getInitial_acts|]. eapply eacts_bind; [by apply stop_acts|].
  eapply eacts_bind; [apply eacts_energy|]. eapply eacts_bind; [by apply getIssued_acts|]. apply eacts_ret.
Qed.

Lemma TotalBurned_acts w e k L : has_ledger w L → eacts (TotalBurned db) w e k (lSub L - lAdd L) w e k.
Proof. intros HL. eapply eacts_bind; [by apply getTotal_acts|]. apply eacts_ret. Qed.

Lemma energy_Add_acts w e k L a amount : has_ledger w L → fresh_ok e L → is160 a → amount ≠ 0 →
  0 ≤ lAdd L + amount → 0 ≤ lSub L →
  eacts (energy_Add db a amount) w e k tt
    (w_energy a (CalcEnergy (acct w a) (eBlockTime e) (stopAt L) + amount) (eBlockTime e) (w_total (lAdd L + amount) (lSub L) w))
    (known e L) k.
Proof.
  intros HL He Ha Hne Hadd Hsub. unfold energy_Add. rewrite (proj2 (Z.eqb_neq amount 0)) by done.
  eapply eacts_bind; [by apply energy_Get_acts|]. eapply eacts_bind; [by apply getTotal_acts|].
  eapply eacts_bind; [by apply setTotal_acts|]. eapply eacts_bind; [apply eacts_energy|]. by apply eacts_state, SetEnergy_acts.
Qed.

Lemma energy_Sub_acts w e k L a amount : has_ledger w L → fresh_ok e L → is160 a → amount ≠ 0 →
  0 ≤ lAdd L → 0 ≤ lSub L + amount →
  let eng := CalcEnergy (acct w a) (eBlockTime e) (stopAt L) in
  eacts (energy_Sub db a amount) w e k (amount <=? eng)
    (if amount <=? eng then w_energy a (eng - amount) (eBlockTime e) (w_total (lAdd L) (lSub L + amount) w) else w)
    (known e L) k.
Proof.
  intros HL He Ha Hne Hadd Hsub eng. unfold energy_Sub. rewrite (proj2 (Z.eqb_neq amount 0)) by done.
  eapply eacts_bind; [by apply energy_Get_acts|]. fold eng. rewrite Z.ltb_antisym.
  destruct (amount <=? eng); cbn [negb]; [|apply eacts_ret]. eapply eacts_bind; [by apply getTotal_acts|].
  eapply eacts_bind; [by apply setTotal_acts|]. eapply eacts_bind; [apply eacts_energy|].
  eapply eacts_bind; [by apply eacts_state, SetEnergy_acts|]. apply eacts_ret.
Qed.

Lemma StopEnergyGrowth_acts w e k L : has_ledger w L → fresh_ok e L →
  eacts (StopEnergyGrowth db) w e k tt (if stopAt L =? maxUint64 then w_stop (eBlockTime e) w else w)
    (if stopAt L =? maxUint64 then MkEnergy (eBlockTime e) (eBlockTime e) else known e L) k.
Proof.
  intros HL He. unfold StopEnergyGrowth. eapply eacts_bind; [by apply stop_acts|].
  destruct (stopAt L =? maxUint64); cbn [negb]; [|apply eacts_ret]. eapply eacts_bind; [apply eacts_energy|].
  eapply eacts_bind; [apply eacts_state, EncodeStorage_acts; [apply EnergyAddress_ok|apply key_range]|].
  intros s ws Hs. by exists s.
Qed.

Lemma addIssued_acts w e k L z : has_ledger w L → 0 ≤ lIssued L + z →
  eacts (addIssued db z) w e k tt (w_issued (lIssued L + z) w) e k.
Proof.
  intros HL Hz. eapply eacts_bind; [by apply getIssued_acts|]. apply eacts_state.
  rewrite (proj2 (Z.ltb_ge (lIssued L + z) 0)) by done. apply EncodeStorage_acts; [apply EnergyAddress_ok|apply key_range].
Qed.
End methods.
End supply.
