(* ===== verification/EnergyTheorems.v ===== *)
(** * Energy stays within the supply

    Transfers of energy and tokens, gas payments, rewards, self-destructions and
    the end of growth, in any order. *)

From S2P Require Import Prelude Bytes External Thor Block BlockCorrect Trie Staker Consensus StackedMap AccountState.
From S2P Require Import StateSpec StateCorrect StateStage StateReopen StateTheorems EnergyToken EnergySupply.

(** ** Sequences of operations *)
Inductive energy_op :=
  | EoAdd (a : Address) (amount : Z)
  | EoSub (a : Address) (amount : Z)
  | EoTransfer (s r : Address) (amount : Z)
  | EoDestroy (c r : Address)
  | EoReward (beneficiary signer : Address) (currentBlock : Z)
  | EoStop.

(** An error of the staker behind the interface. *)
Definition staker_fails {T} `{staker T} (e : error) : Prop :=
  (∃ k : T, st_LockedStake k = Err e) ∨ (∃ (k : T) a, st_HasDelegations a k = Err e) ∨
  ∃ (k : T) a r n, st_IncreaseDelegatorsReward a r n k = Err e.

Section run.
Context `{Rlp} `{Crypto} `{Drlp} `{StateEnv}.
Variable db : MuxDB.
Context {T : Type} `{!staker T}.

(** A call of a new instance at block time [t]. *)
Definition onInstance {A} (t : Z) (m : M (ES T) A) : M (State * T) A := λ '(s, k),
  match m (MkES s (NewEnergy t) k) with
  | Ok (a, x) => Ok (a, (esState x, esStaker x))
  | Err e => Err e
  end.
Definition onState {A} (m : M State A) : M (State * T) A := λ '(s, k),
  match m s with Ok (a, s) => Ok (a, (s, k)) | Err e => Err e end.

Definition energy_perform (t : Z) (o : energy_op) : M (State * T) unit :=
  match o with
  | EoAdd a amount => onInstance t (energy_Add db a amount)
  | EoSub a amount => onInstance t (energy_Sub db a amount;; mret tt)
  | EoTransfer s r amount => onState (ok ← CanTransfer db s amount; when ok (evm_Transfer db t s r amount))
  | EoDestroy c r => onState (OnSuicideContract db t c r;; Suicide db c;; mret tt)
  | EoReward beneficiary signer n => onInstance t (DistributeRewards db beneficiary signer n)
  | EoStop => onInstance t (StopEnergyGrowth db)
  end.

Fixpoint energy_run (ops : list (Z * energy_op)) : M (State * T) unit :=
  match ops with [] => mret tt | (t, o) :: ops => energy_perform t o;; energy_run ops end.
End run.

Definition eop_ok (o : energy_op) : Prop :=
  match o with
  | EoAdd a amount | EoSub a amount => is160 a ∧ 0 ≤ amount
  | EoTransfer s r amount => is160 s ∧ is160 r ∧ 0 ≤ amount
  | EoDestroy c r => is160 c ∧ is160 r ∧ c ≠ EnergyAddress ∧ c ≠ ParamsAddress
  | EoReward beneficiary signer _ => is160 beneficiary ∧ is160 signer
  | EoStop => True
  end.

(** Block times do not decrease. *)
Fixpoint times_ok (T0 : Z) (ops : list (Z * energy_op)) : Prop :=
  match ops with [] => True | (t, o) :: ops => T0 ≤ t ∧ is64 t ∧ eop_ok o ∧ times_ok t ops end.
Definition lastTime (T0 : Z) (ops : list (Z * energy_op)) : Z := default T0 (last ops.*1).
Lemma lastTime_cons T0 t o ops : lastTime T0 ((t, o) :: ops) = lastTime t ops.
Proof. unfold lastTime. rewrite fmap_cons, last_cons. by destruct (last ops.*1). Qed.

Section theorems.
Context `{HRlp : Rlp} `{!RlpSpec} `{HCrypto : Crypto} `{!CryptoSpec} `{HDrlp : Drlp} `{HEnv : StateEnv}.
Context {isCode : bytes → Prop} `{HSpec : !StateEnvSpec isCode} `{HE : !EnergySpec}.
Variable db : MuxDB.
Variable trie0 : MTrie.
Variable w0 : world.
Variable metaOf : Address → AccountMetadata.
Hypothesis Hbase : loaded (isCode := isCode) db trie0 w0 metaOf.
Context {T : Type} `{!staker T}.

Local Abbreviation represents := (represents (isCode := isCode) db trie0 w0 metaOf) (only parsing).
Local Abbreviation sacts := (sacts (isCode := isCode) db trie0 w0 metaOf) (only parsing).
Local Abbreviation eacts := (eacts (isCode := isCode) db trie0 w0 metaOf) (only parsing).

(** The parameters that rewards depend on can be read. *)
Definition params_ok (w : world) : Prop := ∀ key, key ∈ [KeyCurveFactor; KeyValidatorRewardPercentage; KeyDelegatorContractAddress] →
  ∃ v, bigOf (slot w ParamsAddress key) = Ok v.

Lemma params_slots w w' : params_ok w → (∀ k, slot w' ParamsAddress k = slot w ParamsAddress k) → params_ok w'.
Proof. intros Hp E key Hk. rewrite E. by apply Hp. Qed.

Lemma params_energy w k raw : params_ok w → params_ok (w_slot EnergyAddress k raw w).
Proof. intros Hp. eapply params_slots; [done|]. intros k'. cbn [slot w_slot]. by rewrite upd_ne. Qed.

Lemma params_Get_acts w key : params_ok w → key ∈ [KeyCurveFactor; KeyValidatorRewardPercentage; KeyDelegatorContractAddress] →
  ∃ v, 0 ≤ v ∧ sacts (params_Get db key) w v w.
Proof.
  intros Hp Hk. destruct (Hp key Hk) as [v Hv]. exists v. split; [by eapply bigOf_nonneg|].
  apply DecodeStorage_acts; [done|apply ParamsAddress_ok| |done].
  repeat (apply elem_of_cons in Hk as [->|Hk]; [unfold is256; split; [vm_compute; done|vm_compute; done]|]).
  by apply elem_of_nil in Hk.
Qed.

(** ** Transfers *)
Lemma native_acts {A} t (m : M (ES unit) A) w v w' e' : eacts m w (NewEnergy t) tt v w' e' tt → sacts (nativeEnergy t m) w v w'.
Proof.
  intros Hm s ws Hs. destruct (Hm s ws Hs) as (s' & E & Hs'). exists s'. split; [|done]. unfold nativeEnergy. by rewrite E.
Qed.

Lemma native_Get_acts t w L a : has_ledger w L → is160 a →
  sacts (nativeEnergy t (energy_Get db a)) w (CalcEnergy (acct w a) t (stopAt L)) w.
Proof. intros HL Ha. eapply native_acts. apply energy_Get_acts; [done..|by left|done]. Qed.

Definition w_transfer (t stop : Z) (s r : Address) (amount : Z) (w : world) : world :=
  let w1 := w_energy s (CalcEnergy (acct w s) t stop) t w in
  let w2 := w_energy r (CalcEnergy (acct w r) t stop) t w1 in
  let w3 := w_balance s (Balance (acct w2 s) - amount) w2 in
  w_balance r (Balance (acct w3 r) + amount) w3.

Lemma evm_Transfer_acts t w L s r amount : has_ledger w L → is160 s → is160 r → amount ≠ 0 →
  sacts (evm_Transfer db t s r amount) w tt (w_transfer t (stopAt L) s r amount w).
Proof.
  intros HL Hs Hr Hne. unfold evm_Transfer, SubBalance, AddBalance. rewrite (proj2 (Z.eqb_neq amount 0)) by done.
  eapply sacts_bind; [by apply native_Get_acts|]. eapply sacts_bind; [by apply native_Get_acts|].
  eapply sacts_bind; [by apply SetEnergy_acts|]. eapply sacts_bind; [by apply SetEnergy_acts|].
  eapply sacts_bind; [eapply sacts_bind; [by apply GetBalance_acts|by apply SetBalance_acts]|].
  eapply sacts_bind; [by apply GetBalance_acts|by apply SetBalance_acts].
Qed.

Lemma transfer_supply t w L s r amount : supply_ok t w L 0 → is160 s → is160 r → 0 ≤ amount ≤ Balance (acct w s) →
  supply_ok t (w_transfer t (stopAt L) s r amount w) L 0.
Proof.
  intros Hok Hs Hr Hamt. unfold w_transfer. cbv zeta. pose proof Hok as [HL [_ _ [Ht Hst]] Hacc _ _].
  set (w1 := w_energy s _ t w).
  assert (supply_ok t w1 L 0) as Hok1.
  { pose proof (supply_touch t w L 0 s 0 Hok Hs) as Hx. rewrite !Z.add_0_r in Hx. apply Hx. by apply CalcEnergy_nonneg; [apply Hacc|..]. }
  assert (CalcEnergy (acct w r) t (stopAt L) = CalcEnergy (acct w1 r) t (stopAt L)) as ->.
  { unfold w1, w_energy. cbn [acct w_account]. unfold upd. destruct (Z.eqb_spec r s) as [->|]; [|done].
    symmetry. by apply CalcEnergy_touched. }
  set (w2 := w_energy r _ t w1).
  assert (supply_ok t w2 L 0) as Hok2.
  { pose proof (supply_touch t w1 L 0 r 0 Hok1 Hr) as Hx. rewrite !Z.add_0_r in Hx. apply Hx.
    apply CalcEnergy_nonneg; [by apply (so_accounts _ _ _ _ Hok1)|done..]. }
  assert (BlockTime (acct w2 r) = t) as Hbr by (unfold w2, w_energy; cbn [acct w_account]; by rewrite upd_eq).
  assert (BlockTime (acct w2 s) = t ∧ Balance (acct w2 s) = Balance (acct w s)) as [Hbs Ebs].
  { unfold w2, w_energy. cbn [acct w_account]. unfold upd. destruct (Z.eqb_spec s r) as [->|].
    - split; [done|]. simpl. unfold w1, w_energy. cbn [acct w_account]. by rewrite upd_eq.
    - unfold w1, w_energy. cbn [acct w_account]. by rewrite upd_eq. }
  apply supply_transfer; [done..|lia].
Qed.

(** ** Self-destruction *)
Lemma OnSuicide_acts t w L c r : has_ledger w L → is160 c → is160 r →
  sacts (OnSuicideContract db t c r) w tt (w_inherit t (stopAt L) c r w).
Proof.
  intros HL Hc Hr. eapply sacts_bind; [by apply native_Get_acts|]. eapply sacts_bind; [by apply GetBalance_acts|].
  unfold w_inherit. cbv zeta. set (en := CalcEnergy (acct w c) t (stopAt L)). set (bal := Balance (acct w c)).
  eapply sacts_bind with (v := tt) (w1 := if negb (bal =? 0) || negb (en =? 0) then w_energy r (CalcEnergy (acct w r) t (stopAt L) + en) t w else w).
  - destruct (negb (bal =? 0) || negb (en =? 0)); [|apply sacts_ret].
    eapply sacts_bind; [by apply native_Get_acts|by apply SetEnergy_acts].
  - destruct (Z.eqb_spec bal 0) as [E|E]; [apply sacts_ret|]. cbn [negb when]. unfold AddBalance.
    rewrite (proj2 (Z.eqb_neq bal 0)) by done. eapply sacts_bind; [by apply GetBalance_acts|by apply SetBalance_acts].
Qed.

(** Nothing is inherited from an empty account. *)
Lemma inherit_empty t stop c r w : Account_IsEmpty (acct w c) = true → w_inherit t stop c r w = w.
Proof.
  unfold Account_IsEmpty. intros E. repeat rewrite andb_true_iff in E. destruct E as [[[E1 E2] _] _].
  apply Z.eqb_eq in E1, E2. assert (CalcEnergy (acct w c) t stop = 0) as Ec.
  { unfold CalcEnergy. rewrite E1, E2. by destruct (BlockTime (acct w c) =? 0). }
  unfold w_inherit. cbv zeta. by rewrite E1, Ec.
Qed.

Lemma CalcEnergy_least stop t x : account_ok t x → is64 t → is64 stop → Energy x ≤ CalcEnergy x t stop.
Proof.
  intros Hx Ht Hst. rewrite CalcEnergy_scaled by done. destruct Hx as (Hb & He & _). apply Z.div_le_lower_bound.
  - unfold AccountState.bigE18. lia.
  - unfold scaled, EnergyGrowthRate. pose proof (growing_nonneg stop t (BlockTime x)). nia.
Qed.

Lemma inherit_self t stop c w : account_ok t (acct w c) → is64 t → is64 stop →
  Account_IsEmpty (acct w c) = false → Account_IsEmpty (acct (w_inherit t stop c c w) c) = false.
Proof.
  intros Hok Ht Hst. pose proof (CalcEnergy_least stop t _ Hok Ht Hst). destruct Hok as (Hb & He & _).
  unfold w_inherit. cbv zeta. set (x := acct w c) in *. unfold Account_IsEmpty, w_energy, w_balance.
  destruct (Z.eqb_spec (Balance x) 0) as [E0|E0]; [destruct (Z.eqb_spec (CalcEnergy x t stop) 0) as [E1|E1]|]; cbn [negb orb acct w_account];
    rewrite ?upd_eq; fold x; simpl.
  - by rewrite E0.
  - rewrite (proj2 (Z.eqb_neq (CalcEnergy x t stop + CalcEnergy x t stop) 0)) by lia. by rewrite andb_false_r.
  - by rewrite (proj2 (Z.eqb_neq (Balance x + Balance x) 0)) by lia.
Qed.

(** The account after it was inherited from still exists, unless it was empty. *)
Lemma destroy_acts t w L c r : supply_ok t w L 0 → params_ok w → is160 c → is160 r → c ≠ EnergyAddress → c ≠ ParamsAddress →
  ∃ w', sacts (OnSuicideContract db t c r;; Suicide db c;; mret tt) w tt w' ∧ supply_ok t w' L 0 ∧ params_ok w'.
Proof.
  intros Hok Hp Hc Hr Hne Hnp. pose proof (so_ledger _ _ _ _ Hok) as HL. set (w1 := w_inherit t (stopAt L) c r w).
  assert (∀ v w', sacts (Suicide db c) w1 v w' → sacts (OnSuicideContract db t c r;; Suicide db c;; mret tt) w tt w') as Hseq.
  { intros v w' Hx. eapply sacts_bind; [by apply OnSuicide_acts|]. eapply sacts_bind; [done|apply sacts_ret]. }
  destruct (Account_IsEmpty (acct w1 c)) eqn:E.
  - exists w1. split; [|split].
    + apply (Hseq false). eapply sacts_bind; [by apply Exists_acts|]. rewrite E. cbn [negb]. apply sacts_ret.
    + destruct (Account_IsEmpty (acct w c)) eqn:E0; [unfold w1; by rewrite inherit_empty|].
      destruct (decide (c = r)) as [<-|Hcr]; [|unfold w1 in E; rewrite inherit_other in E by done; congruence].
      destruct Hok as [_ [_ _ [Ht Hst]] Hacc _ _].
      pose proof (inherit_self t (stopAt L) c w (Hacc c Hc) Ht Hst E0) as Ex. unfold w1 in E. congruence.
    + eapply params_slots; [done|]. intros k. apply inherit_slots.
  - exists (w_delete c w1). split; [|split].
    + apply (Hseq true). eapply sacts_bind; [by apply Exists_acts|]. rewrite E. cbn [negb].
      eapply sacts_bind; [by apply Delete_acts|apply sacts_ret].
    + by apply supply_destroy.
    + eapply params_slots; [done|]. intros k. cbn [slot w_delete]. rewrite upd_ne by done. apply inherit_slots.
Qed.

(** ** Rewards

    [m] either ends with [Q], or with an error of the staker. *)
Definition etries {A} (m : M (ES T) A) (w : world) (e : energy) (k : T) (Q : A → world → energy → T → Prop) : Prop :=
  ∀ s ws, represents s (w :: ws) →
  match m (MkES s e k) with
  | Ok (v, x) => ∃ w', represents (esState x) (w' :: ws) ∧ Q v w' (esEnergy x) (esStaker x)
  | Err err => staker_fails (T := T) err
  end.

Lemma etries_bind {A B} (m : M (ES T) A) (f : A → M (ES T) B) w e k Q : 
  etries m w e k (λ v w1 e1 k1, etries (f v) w1 e1 k1 Q) → etries (m ≫= f) w e k Q.
Proof.
  intros Hm s ws Hs. specialize (Hm s ws Hs). unfold mbind, M_bind. destruct (m (MkES s e k)) as [[v [s1 e1 k1]]|]; [|done].
  destruct Hm as (w1 & Hw1 & Hf). by apply Hf.
Qed.

Lemma etries_eacts {A} (m : M (ES T) A) w e k v w' e' k' (Q : A → world → energy → T → Prop) :
  eacts m w e k v w' e' k' → Q v w' e' k' → etries m w e k Q.
Proof. intros Hm HQ s ws Hs. destruct (Hm s ws Hs) as (s' & -> & Hs'). by exists w'. Qed.

Lemma etries_staker {A} (m : M T A) w e k (Q : A → world → energy → T → Prop) :
  (∀ v k', Q v w e k') → (∀ err, m k = Err err → staker_fails (T := T) err) → etries (zoom esStaker m) w e k Q.
Proof.
  intros HQ Hf s ws Hs. unfold zoom. simpl. destruct (m k) as [[v k']|err] eqn:E; [|by apply Hf]. by exists w.
Qed.

Lemma rewards_tries w e k Q : params_ok w → (∀ reward k', 0 ≤ reward → Q reward w e k') → etries (CalculateRewards db) w e k Q.
Proof.
  intros Hp HQ. unfold CalculateRewards. apply etries_bind. apply etries_staker; [|intros err Hx; left; by eexists].
  intros [staked wt] k'. apply etries_bind. destruct (params_Get_acts w KeyCurveFactor Hp) as (v & Hv & Hacts); [set_solver|].
  eapply etries_eacts; [by apply eacts_state|]. eapply etries_eacts; [apply eacts_ret|]. apply HQ.
  assert (0 ≤ if wrap64 v =? 0 then InitialCurveFactor else v) as Hcf by (destruct (_ =? 0); [done|lia]).
  pose proof (Z.sqrt_nonneg staked). apply Z.div_pos; [|done].
  repeat apply Z.mul_nonneg_nonneg; try lia.
Qed.

Lemma ledger_issued_ok t L z : ledger_ok t L → 0 ≤ z → ledger_ok t (MkLedger (lInit L) (lAdd L) (lSub L) z (lStop L)).
Proof. intros [(? & ? & ? & ? & ?) Ht Hr] Hz. by split. Qed.

Lemma DistributeRewards_tries w L t k b signer n : supply_ok t w L 0 → params_ok w → is160 b →
  etries (DistributeRewards db b signer n) w (NewEnergy t) k (λ _ w' _ _, ∃ L', supply_ok t w' L' 0 ∧ params_ok w').
Proof.
  intros Hok Hp Hb. unfold DistributeRewards. apply etries_bind. apply rewards_tries; [done|]. intros reward k1 Hrew.
  apply etries_bind. apply etries_staker; [|intros err Hx; right; left; by eexists _, _]. intros has k2. apply etries_bind.
  destruct (params_Get_acts w KeyValidatorRewardPercentage Hp) as (perc & Hperc & Hacts); [set_solver|].
  eapply etries_eacts; [by apply eacts_state|]. set (p := if wrap64 perc =? 0 then _ else _).
  assert (0 ≤ p) as Hp0 by (unfold p; destruct (_ =? 0); [done|lia]).
  set (shared := has && (p <? 100)). set (pr := if shared then _ else _).
  assert (0 ≤ pr ≤ reward) as Hpr.
  { unfold pr. destruct shared eqn:Es; [|lia]. unfold shared in Es. apply andb_true_iff in Es as [_ Es%Z.ltb_lt].
    split; [apply Z.div_pos; nia|]. apply Z.div_le_upper_bound; nia. }
  assert (∀ w1 e1 k3 d, supply_ok t w1 L d → d + pr = reward → params_ok w1 → fresh_ok e1 L → eBlockTime e1 = t →
    etries (beneficiaryEng ← energy_Get db b; e ← gets esEnergy;
            zoom esState (SetEnergy db b (beneficiaryEng + pr) (eBlockTime e));; addIssued db reward) w1 e1 k3
      (λ _ w' _ _, ∃ L', supply_ok t w' L' 0 ∧ params_ok w')) as Hend.
  { intros w1 e1 k3 d Hok1 Hd Hp1 Hf1 He1. subst t. pose proof Hok1 as [HL1 Hlo _ _ _].
    pose proof Hlo as [(_ & _ & _ & _ & Hiss) _ _].
    apply etries_bind. eapply etries_eacts; [by apply energy_Get_acts|]. apply etries_bind.
    eapply etries_eacts; [apply eacts_energy|]. apply etries_bind.
    eapply etries_eacts; [by apply eacts_state, SetEnergy_acts|].
    eapply etries_eacts; [apply addIssued_acts; [done|by apply w_energy_ledger|lia]|].
    eexists (MkLedger (lInit L) (lAdd L) (lSub L) (lIssued L + reward) (lStop L)).
    split; [|by apply params_energy; eapply params_slots].
    assert (supply_ok (eBlockTime e1) (w_energy b (CalcEnergy (acct w1 b) (eBlockTime e1) (stopAt L) + pr) (eBlockTime e1) w1) L (d + pr)) as Hok2.
    { apply supply_touch; [done..|]. destruct Hok1 as [_ [_ _ [? ?]] Hacc _ _].
      pose proof (CalcEnergy_nonneg (stopAt L) (eBlockTime e1) (acct w1 b) (Hacc b Hb)). ulia. }
    replace 0 with (d + pr + tot L - tot (MkLedger (lInit L) (lAdd L) (lSub L) (lIssued L + reward) (lStop L))) by (unfold tot; simpl; lia).
    eapply supply_books; [exact Hok2|done| |apply ledger_issued_ok; [done|lia]|done|done].
    apply ledger_issued; [apply Hok2|lia]. }
  apply etries_bind. destruct shared; cbn [when].
  - unfold rewardDelegators. apply etries_bind. 
    destruct (params_Get_acts w KeyDelegatorContractAddress Hp) as (val & Hval & Hacts2); [set_solver|].
    eapply etries_eacts; [by apply eacts_state|]. set (addr := val mod 2 ^ 160).
    assert (is160 addr) as Haddr by (apply Z.mod_pos_bound; lia). pose proof Hok as [HL [_ _ [Ht Hst]] Hacc _ _].
    apply etries_bind. eapply etries_eacts; [by apply energy_Get_acts; [..|by left|]|]. apply etries_bind.
    apply etries_staker; [|intros err Hx; right; right; by eexists _, _, _, _]. intros [] k3. apply etries_bind.
    eapply etries_eacts; [apply eacts_energy|]. eapply etries_eacts; [by apply eacts_state, SetEnergy_acts|].
    eapply (Hend _ _ _ (0 + (reward - pr))); [|lia| |by right|done].
    + apply supply_touch; [done..|]. pose proof (CalcEnergy_nonneg (stopAt L) t (acct w addr) (Hacc addr Haddr) Ht Hst). simpl. lia.
    + by eapply params_slots.
  - eapply etries_eacts; [apply eacts_ret|]. eapply (Hend w _ _ 0); [done|unfold pr; lia|done|by left|done].
Qed.

(** ** Any operation *)
Definition stays (t : Z) (w : world) : Prop := ∃ L, supply_ok t w L 0 ∧ params_ok w.

Lemma instance_stays {A} t (m : M (ES T) A) w s ws k (P : world → Prop) : represents s (w :: ws) →
  etries m w (NewEnergy t) k (λ _ w' _ _, P w') →
  match onInstance t m (s, k) with
  | Ok (_, (s', k')) => ∃ w', represents s' (w' :: ws) ∧ P w'
  | Err e => staker_fails (T := T) e
  end.
Proof. intros Hs Hm. specialize (Hm s ws Hs). unfold onInstance. by destruct (m _) as [[v x]|]. Qed.

Lemma state_stays {A} (m : M State A) w s ws (k : T) v w' (P : world → Prop) : represents s (w :: ws) → sacts m w v w' → P w' →
  match onState m (s, k) with
  | Ok (_, (s', k')) => ∃ w', represents s' (w' :: ws) ∧ P w'
  | Err e => staker_fails (T := T) e
  end.
Proof. intros Hs Hm HP. destruct (Hm s ws Hs) as (s' & E & Hs'). unfold onState. rewrite E. by exists w'. Qed.

Lemma ledger_total_ok t L a b : ledger_ok t L → 0 ≤ a → 0 ≤ b → ledger_ok t (MkLedger (lInit L) a b (lIssued L) (lStop L)).
Proof. intros [(? & ? & ? & ? & ?) Ht Hr] Ha Hb. by split. Qed.

(** The books and an account change by the same amount. *)
Lemma booked t w L a δ add sub : supply_ok t w L 0 → is160 a → 0 ≤ CalcEnergy (acct w a) t (stopAt L) + δ →
  0 ≤ add → 0 ≤ sub → add - sub = lAdd L - lSub L + δ →
  supply_ok t (w_energy a (CalcEnergy (acct w a) t (stopAt L) + δ) t (w_total add sub w))
    (MkLedger (lInit L) add sub (lIssued L) (lStop L)) 0.
Proof.
  intros Hok Ha Hpos Hadd Hsub Hd. set (L' := MkLedger _ _ _ _ _).
  assert (supply_ok t (w_total add sub w) L' (0 + tot L - tot L')) as Hbooks.
  { eapply supply_books; [exact Hok|done|by apply ledger_total; [apply Hok|..]|by apply ledger_total_ok; [apply Hok|..]|done|done]. }
  pose proof (supply_touch t _ L' _ a δ Hbooks Ha Hpos) as Hx.
  replace (0 + tot L - tot L' + δ) with 0 in Hx by (unfold tot, L'; simpl; lia). exact Hx.
Qed.

Lemma perform_stays t o s k w ws : eop_ok o → stays t w → represents s (w :: ws) →
  match energy_perform db t o (s, k) with
  | Ok (_, (s', k')) => ∃ w', represents s' (w' :: ws) ∧ stays t w'
  | Err e => staker_fails (T := T) e
  end.
Proof.
  intros Ho (L & Hok & Hp) Hs. pose proof Hok as [HL [(_ & _ & Hadd & Hsub & _) _ [Ht Hst]] Hacc _ _].
  destruct o as [a amount|a amount|sd r amount|c r|b signer n|]; cbn [energy_perform eop_ok] in *.
  - destruct Ho as [Ha Hamt]. apply instance_stays with (w := w); [done|]. destruct (decide (amount = 0)) as [->|Hne].
    { eapply etries_eacts; [apply eacts_ret|]. by exists L. }
    eapply etries_eacts; [apply energy_Add_acts; [done|done|by left|done|done|lia|lia]|]. eexists. split.
    + apply booked; [done..| |lia|lia|lia]. pose proof (CalcEnergy_nonneg (stopAt L) t _ (Hacc a Ha) Ht Hst). simpl. lia.
    + by apply (params_slots (w_total (lAdd L + amount) (lSub L) w)); [apply params_energy|].
  - destruct Ho as [Ha Hamt]. apply instance_stays with (w := w); [done|]. apply etries_bind. destruct (decide (amount = 0)) as [->|Hne].
    { eapply etries_eacts; [apply eacts_ret|]. eapply etries_eacts; [apply eacts_ret|]. by exists L. }
    eapply etries_eacts; [apply energy_Sub_acts; [done|done|by left|done|done|lia|lia]|]. eapply etries_eacts; [apply eacts_ret|].
    simpl eBlockTime. destruct (Z.leb_spec amount (CalcEnergy (acct w a) t (stopAt L))) as [Hle|]; [|by exists L].
    eexists. split.
    + rewrite <- Z.add_opp_r. apply booked; [done..|lia|lia|lia|lia].
    + by apply (params_slots (w_total (lAdd L) (lSub L + amount) w)); [apply params_energy|].
  - destruct Ho as (Hsd & Hr & Hamt). destruct (decide (amount = 0)) as [->|Hne].
    { eapply state_stays; [done| |by exists L]. eapply sacts_bind; [eapply sacts_bind; [by apply GetBalance_acts|apply sacts_ret]|].
      destruct (_ <=? _); [apply sacts_ret|apply sacts_ret]. }
    eapply state_stays with (w' := if amount <=? Balance (acct w sd) then w_transfer t (stopAt L) sd r amount w else w); [done| |].
    + eapply sacts_bind; [eapply sacts_bind; [by apply GetBalance_acts|apply sacts_ret]|].
      destruct (_ <=? _); cbn [when]; [by apply evm_Transfer_acts|apply sacts_ret].
    + destruct (Z.leb_spec amount (Balance (acct w sd))); [|by exists L]. exists L. split; [by apply transfer_supply|].
      by eapply params_slots.
  - destruct Ho as (Hc & Hr & Hne & Hnp). destruct (destroy_acts t w L c r) as (w' & Hacts & Hok' & Hp'); [done..|].
    eapply state_stays; [done..|]. by exists L.
  - destruct Ho as [Hb _]. eapply instance_stays; [done|]. by eapply DistributeRewards_tries.
  - eapply instance_stays; [done|]. eapply etries_eacts; [apply StopEnergyGrowth_acts; [done|done|by left]|]. cbn [NewEnergy eBlockTime].
    destruct (Z.eqb_spec (stopAt L) maxUint64) as [E|]; [|by exists L]. eexists. split; [by apply supply_stop|by apply params_energy].
Qed.

Lemma run_stays ops t0 s k w ws : times_ok t0 ops → is64 t0 → stays t0 w → represents s (w :: ws) →
  match energy_run db ops (s, k) with
  | Ok (_, (s', k')) => ∃ w', represents s' (w' :: ws) ∧ stays (lastTime t0 ops) w'
  | Err e => staker_fails (T := T) e
  end.
Proof.
  revert t0 s k w. induction ops as [|[t o] ops IH]; intros t0 s k w Hops Ht0 Hst Hs; [by exists w|].
  destruct Hops as (Hle & Ht & Ho & Hops). destruct Hst as (L & Hok & Hp).
  assert (stays t w) as Hst by (exists L; split; [by eapply supply_later|done]). cbn [energy_run].
  pose proof (perform_stays t o s k w ws Ho Hst Hs) as Hx. unfold mbind, M_bind.
  destruct (energy_perform db t o (s, k)) as [[[] [s1 k1]]|]; [|done]. destruct Hx as (w1 & Hs1 & Hst1).
  specialize (IH t s1 k1 w1 Hops Ht Hst1 Hs1). destruct (energy_run db ops (s1, k1)) as [[[] [s2 k2]]|]; [|done].
  destruct IH as (w2 & Hs2 & Hst2). exists w2. split; [done|]. by rewrite lastTime_cons.
Qed.

(** C13: Over any sequence of energy transfers, gas payments, token transfers,
    block rewards and contract destructions at block times that do not go back,
    and of the end of energy growth, the energy of any set of accounts as [Get]
    reports it sums to no more than [TotalSupply] less [TotalBurned], at the last
    block time and at any later one.  No operation fails unless the staker behind
    the reward does. *)
Theorem energy_within_supply (t0 : Z) (s : State) (w : world) (ws : list world) (L : ledger) (k : T) (ops : list (Z * energy_op)) :
  represents s (w :: ws) → supply_ok t0 w L 0 → params_ok w → times_ok t0 ops →
  match energy_run db ops (s, k) with
  | Err e => staker_fails (T := T) e
  | Ok (_, (s', _)) => ∀ t l, lastTime t0 ops ≤ t → is64 t → NoDup l → Forall is160 l →
      ∃ supply burned f, returns (nativeEnergy t (TotalSupply db)) s' supply ∧
        returns (nativeEnergy t (TotalBurned db)) s' burned ∧
        (∀ a, a ∈ l → returns (nativeEnergy t (energy_Get db a)) s' (f a)) ∧ lsum f l ≤ supply - burned
  end.
Proof.
  intros Hs Hok Hp Hops. pose proof (lo_range _ _ (so_ok _ _ _ _ Hok)) as [Ht0 _].
  pose proof (run_stays ops t0 s k w ws Hops Ht0 (ex_intro _ L (conj Hok Hp)) Hs) as Hrun.
  destruct (energy_run db ops (s, k)) as [[[] [s' k']]|]; [|done]. destruct Hrun as (w' & Hs' & L' & Hok' & _).
  intros t l Hle Ht Hl HP. pose proof (supply_later _ t _ _ _ Hok' Hle Ht) as Hlater. pose proof (so_ledger _ _ _ _ Hok') as HL.
  assert (∀ A (m : M State A) v, sacts m w' v w' → returns m s' v) as Hret.
  { intros A m v Hm. destruct (Hm s' ws Hs') as (s1 & E & _). by exists s1. }
  eexists _, _, (λ a, CalcEnergy (acct w' a) t (stopAt L')). split_and!.
  - apply Hret. eapply native_acts. apply (TotalSupply_acts _ _ _ _ Hbase _ _ _ L'); [done|by left].
  - apply Hret. eapply native_acts. by apply (TotalBurned_acts _ _ _ _ Hbase _ _ _ L').
  - intros a Ha. apply Hret, native_Get_acts; [done|]. by eapply Forall_forall in HP.
  - by apply supply_total.
Qed.
End theorems.

(** ** A genesis *)

(** What genesis hands out is what its supply says: the accounts of [S] have all
    tokens and energy there are, as of [t0]. *)
Lemma supply_genesis `{Rlp} `{Crypto} t0 w S :
  let L := MkLedger (MkInitialSupply (lsum (λ a, Balance (acct w a)) S) (lsum (λ a, Energy (acct w a)) S) t0) 0 0 0 0 in
  has_ledger w L → 0 < t0 → is64 t0 → NoDup S → Forall is160 S →
  (∀ a, is160 a → account_ok t0 (acct w a)) → (∀ a, a ∈ S → BlockTime (acct w a) = t0) →
  (∀ a, is160 a → a ∉ S → Balance (acct w a) = 0 ∧ Energy (acct w a) = 0) → supply_ok t0 w L 0.
Proof.
  intros L HL Hpos Ht HS HP Hacc HtS Hout.
  assert (∀ a, a ∈ S → account_ok t0 (acct w a)) as HaccS by (intros a Ha; apply Hacc; by eapply Forall_forall in HP).
  assert (0 ≤ lsum (λ a, Balance (acct w a)) S) as HB by (apply lsum_nonneg; intros a Ha; by apply HaccS).
  assert (0 ≤ lsum (λ a, Energy (acct w a)) S) as HE by (apply lsum_nonneg; intros a Ha; by apply HaccS).
  split; [done| |done|..].
  - split; cbn [isToken isEnergy isBlockTime lInit lAdd lSub lIssued L]; [lia|lia|]. split; [done|].
    unfold stopAt, maxUint64. simpl. unfold_int. lia.
  - intros l Hl HPl. apply (lsum_cover is160 (λ a, Balance (acct w a)) S l); try done.
    + intros a Ha. by apply Hacc.
    + intros a Ha HaS. by apply Hout.
  - intros l Hl HPl. assert (bound t0 L = lsum (λ a, scaled (stopAt L) t0 (acct w a)) S) as ->.
    { rewrite (lsum_ext _ (λ a, AccountState.bigE18 * Energy (acct w a))) by (intros a Ha; by apply scaled_touched, HtS).
      rewrite lsum_scale. unfold bound, tot, growing. cbn [isToken isEnergy isBlockTime lInit lAdd lSub lIssued L].
      rewrite (proj2 (Z.eqb_neq t0 0)) by lia. replace (Z.max 0 _) with 0 by lia. lia. }
    rewrite Z.mul_0_r, Z.add_0_r. apply (lsum_cover is160 (λ a, scaled (stopAt L) t0 (acct w a)) S l); try done.
    + intros a Ha. by apply scaled_nonneg, Hacc.
    + intros a Ha HaS. destruct (Hout a Ha HaS) as [E1 E2]. unfold scaled. rewrite E1, E2. lia.
Qed.

(** ** Instances *)

(** The encoding of [demo_Rlp], except that 64-bit integers are written the way
    [rlp] does. *)
Definition leaf_bytes (b : bytes) : bytes :=
  match demo_num_of b with
  | Some t => if t <? max64 then uint_bytes t else 184 :: put_tokens [inr b]
  | None => 184 :: put_tokens [inr b]
  end.
Definition energy_Rlp : Rlp := {|
  item := demo_tree;
  rlp_str := GenLeaf;
  rlp_list := GenNode 0;
  rlp_num z := GenLeaf (demo_num z);
  str_of i := match i with GenLeaf b => Some b | _ => None end;
  list_of i := match i with GenNode 0 l => Some l | _ => None end;
  num_of i := match i with GenLeaf b => demo_num_of b | _ => None end;
  rlp_bytes i := match i with GenLeaf b => leaf_bytes b | GenNode _ _ => 192 :: put_tokens (gen_tree_to_list i) end;
  rlp_parse b :=
    match b with
    | [] => None
    | c :: l => if c <? 184 then match decodeUint64 b with Ok t => Some (GenLeaf (demo_num t)) | Err _ => None end
                else get_tokens (length l) l ≫= gen_tree_of_list []
    end;
|}.

Lemma demo_num_of_inv b t : demo_num_of b = Some t → 0 ≤ t ∧ b = demo_num t.
Proof. destruct b as [|c b]; simpl; [by intros [= <-]|]. case_bool_decide as E; [|done]. intros [= <-]. split; [lia|done]. Qed.

Lemma uint_bytes_head t : is64 t → ∃ c l, uint_bytes t = c :: l ∧ c < 184.
Proof.
  intros Ht. unfold uint_bytes. destruct (Z.eqb_spec t 0); [by eexists _, _|]. destruct (Z.ltb_spec t 128).
  - eexists _, _. split; [done|lia].
  - destruct (uint_len_spec t) as [? _]; [unfold is64 in Ht; lia|done|]. eexists _, _. split; [done|lia].
Qed.

Lemma energy_RlpSpec : @RlpSpec energy_Rlp.
Proof.
  pose proof demo_RlpSpec as [H1 H2 H3 H4 H5 H6 H7 H8 H9 _ _]. split; try done.
  - intros i. assert (∀ t : demo_tree, get_tokens (length (put_tokens (gen_tree_to_list t))) (put_tokens (gen_tree_to_list t))
      ≫= gen_tree_of_list [] = Some t) as Ht.
    { intros t. rewrite get_put_tokens by done. simpl. by rewrite <- (app_nil_r (gen_tree_to_list t)), gen_tree_of_to_list. }
    destruct i as [b|n l]; cbn [rlp_bytes rlp_parse energy_Rlp]; [|apply Ht].
    unfold leaf_bytes. destruct (demo_num_of b) as [t|] eqn:Eb; [|apply (Ht (GenLeaf b))].
    destruct (Z.ltb_spec t max64) as [Hlt|]; [|apply (Ht (GenLeaf b))]. apply demo_num_of_inv in Eb as [Hpos ->].
    destruct (uint_bytes_head t) as (c & l & E & Hc); [done|]. pose proof (decodeUint64_bytes t (conj Hpos Hlt)) as Hd.
    rewrite E in Hd |- *. rewrite (proj2 (Z.ltb_lt c 184)), Hd by done. done.
  - intros l. eexists _, _. split; [done|lia].
Qed.

#[local] Existing Instances energy_Rlp energy_RlpSpec state_Crypto state_CryptoSpec state_Drlp state_Env.

Lemma energy_EnvSpec : StateEnvSpec demoCode.
Proof.
  apply state_EnvSpec. intros [b|n l]; [|done]. cbn [rlp_bytes energy_Rlp]. unfold leaf_bytes.
  destruct (demo_num_of b) as [t|] eqn:E; [|done]. destruct (Z.ltb_spec t max64) as [Hlt|]; [|done].
  apply demo_num_of_inv in E as [Hpos _]. by destruct (uint_bytes_head t (conj Hpos Hlt)) as (c & l & -> & _).
Qed.

Lemma energy_EnergySpec : EnergySpec.
Proof.
  split; [|by apply (bool_decide_unpack _); vm_compute].
  intros t [Hpos Ht]. cbn [rlp_bytes rlp_num energy_Rlp]. unfold leaf_bytes.
  pose proof (num_of_num (RlpSpec := demo_RlpSpec) t Hpos) as E. cbn [num_of rlp_num demo_Rlp] in E.
  by rewrite E, (proj2 (Z.ltb_lt t max64)).
Qed.
#[local] Existing Instances energy_EnvSpec energy_EnergySpec.

Definition energy_staker : staker unit := {|
  st_LockedStake := mret (25000000, 50000000);
  st_HasDelegations a := mret (a =? 4);
  st_IncreaseDelegatorsReward _ _ _ := mret tt;
|}.
#[local] Existing Instance energy_staker.

(** Two accounts with tokens, and a third with energy only. *)
Definition genesisOps : list state_op :=
  [OpBalance 1 (1000 * AccountState.bigE18); OpEnergy 1 1000000 100; OpBalance 2 (2000 * AccountState.bigE18); OpEnergy 2 0 100;
   OpEnergy 3 7 100;
   OpRaw EnergyAddress initialSupplyKey (rlp_bytes (initialSupply_item (MkInitialSupply (3000 * AccountState.bigE18) 1000007 100)))].
Definition genesisWorld : world := foldl (λ w o, world_perform o w) world0 genesisOps.
Definition genesisState : State :=
  match state_run db0 genesisOps (NewState db0 0 (MkVersion 0 0) ∅) with
  | Ok (_, s) => s
  | Err _ => NewState db0 0 (MkVersion 0 0) ∅
  end.
Definition genesisLedger : ledger := MkLedger (MkInitialSupply (3000 * AccountState.bigE18) 1000007 100) 0 0 0 0.

Lemma genesis_worlds : foldl worlds_perform [world0] genesisOps = [genesisWorld].
Proof. reflexivity. Qed.

Lemma genesis_represents :
  represents (isCode := demoCode) db0 (NewTrie db0 AccountTrieName 0 (MkVersion 0 0)) world0 (λ _, metadata0) genesisState [genesisWorld].
Proof.
  destruct (run_represents (isCode := demoCode) db0 _ world0 (λ _, metadata0) genesisOps
    (NewState db0 0 (MkVersion 0 0) ∅) world0 []
    (ws_loaded _ _ _ _ _ _ db0_well_stored)) as (s & w & ws & E & Ew & Hs); [| |].
  - unfold genesisOps. rewrite !Forall_cons. cbn [op_ok].
    split_and!; [unfold is160; lia..|exact EnergyAddress_ok|exact (key_range _)|by constructor].
  - apply NewState_represents. intros h c Hc. by rewrite lookup_empty in Hc.
  - rewrite genesis_worlds in Ew. injection Ew as <- <-. unfold genesisState. rewrite E. exact Hs.
Qed.

Lemma genesis_other a : a ∉ [1; 2; 3] → acct genesisWorld a = emptyAccount.
Proof.
  intros Hn. rewrite !not_elem_of_cons in Hn. destruct Hn as (H1 & H2 & H3 & _).
  unfold genesisWorld, genesisOps. cbn [foldl world_perform acct w_slot w_account]. unfold upd.
  by rewrite (proj2 (Z.eqb_neq a 1)), (proj2 (Z.eqb_neq a 2)), (proj2 (Z.eqb_neq a 3)).
Qed.

Lemma genesis_supply : supply_ok 100 genesisWorld genesisLedger 0.
Proof.
  apply (supply_genesis 100 genesisWorld [1; 2; 3]); [|lia|unfold_int; lia| | |..].
  - split; vm_compute; reflexivity.
  - by apply (bool_decide_unpack _); vm_compute.
  - rewrite !Forall_cons. split_and!; [unfold is160; lia..|done].
  - intros a _. destruct (decide (a ∈ [1; 2; 3])) as [Ha|Ha]; [|rewrite genesis_other by done; unfold account_ok; simpl; lia].
    rewrite !elem_of_cons in Ha. destruct Ha as [->|[->|[->|[]%elem_of_nil]]]; vm_compute; split_and!; discriminate.
  - intros a. rewrite !elem_of_cons. intros [->|[->|[->|[]%elem_of_nil]]]; reflexivity.
  - intros a _ Hn. by rewrite genesis_other.
Qed.

Definition demoEnergyOps : list (Z * energy_op) :=
  [(110, EoSub 1 50); (110, EoAdd 3 50); (120, EoTransfer 1 2 (5 * AccountState.bigE18)); (130, EoReward 5 4 7);
   (140, EoDestroy 2 3); (150, EoStop)].

Definition demoEnergy : State :=
  match energy_run db0 demoEnergyOps (genesisState, tt) with Ok (_, (s, _)) => s | Err _ => genesisState end.

Lemma energy_within_supply_witness :
  energy_run db0 demoEnergyOps (genesisState, tt) = Ok (tt, (demoEnergy, tt)) ∧
  ∃ supply burned f, returns (nativeEnergy 200 (TotalSupply db0)) demoEnergy supply ∧
    returns (nativeEnergy 200 (TotalBurned db0)) demoEnergy burned ∧
    (∀ a, a ∈ [0; 1; 2; 3; 5] → returns (nativeEnergy 200 (energy_Get db0 a)) demoEnergy (f a)) ∧
    lsum f [0; 1; 2; 3; 5] ≤ supply - burned.
Proof.
  assert (energy_run db0 demoEnergyOps (genesisState, tt) = Ok (tt, (demoEnergy, tt))) as E by (vm_compute; reflexivity).
  split; [exact E|].
  pose proof (energy_within_supply db0 _ world0 (λ _, metadata0) (ws_loaded _ _ _ _ _ _ db0_well_stored) 100 genesisState
    genesisWorld [] genesisLedger tt demoEnergyOps genesis_represents genesis_supply) as Hx.
  rewrite E in Hx. apply Hx.
  - intros key Hk. rewrite !elem_of_cons in Hk. exists 0. destruct Hk as [->|[->|[->|[]%elem_of_nil]]]; vm_compute; reflexivity.
  - cbn [demoEnergyOps times_ok eop_ok]. unfold is160, is64, max64. split_and!; try lia; done.
  - vm_compute. discriminate.
  - unfold is64, max64. lia.
  - by apply (bool_decide_unpack _); vm_compute.
  - rewrite !Forall_cons. split_and!; [unfold is160; lia..|done].
Defined.
