(* ===== verification/Runtime.v ===== *)
(** * Executing transactions

    [src/runtime/resolved_tx.go] and the transaction executor of
    [src/runtime/runtime.go], with the credits and sponsors of
    [src/builtin/prototype].  What the EVM does for one clause is a parameter. *)

From S2P Require Import Prelude Bytes External Thor Block Tx ChainRepo Trie Staker Consensus StackedMap AccountState EnergyToken.

Definition PrototypeAddress : Address := from_be (ascii_bytes "Prototype").

(** ** Credits ([prototype/types.go]) *)
Record creditPlan := MkCreditPlan { cpCredit : Z; cpRecoveryRate : Z }.
Definition creditPlan_IsEmpty (u : creditPlan) : bool := (cpCredit u =? 0) && (cpRecoveryRate u =? 0).

Record userObject := MkUserObject { uoUsedCredit : Z; uoBlockTime : Z }.
Definition userObject_IsEmpty (u : userObject) : bool := (uoUsedCredit u =? 0) && (uoBlockTime u =? 0).

Definition userObject_Credit (u : userObject) (plan : creditPlan) (blockTime : Z) : Z :=
  if uoUsedCredit u =? 0 then cpCredit plan else
  let used := if blockTime <=? uoBlockTime u then uoUsedCredit u
              else uoUsedCredit u - (blockTime -u64 uoBlockTime u) * cpRecoveryRate plan in
  if used <=? 0 then cpCredit plan else
  if cpCredit plan <=? used then 0 else cpCredit plan - used.

Section prototype.
Context `{Rlp} `{Crypto} `{Drlp} `{StateEnv}.
Variable db : MuxDB.

(** ** The binding of a contract ([prototype.go])

    [self] is the contract the binding is of. *)
Definition userKey (self user : Address) : Bytes32 := blake2b (be 20 self ++ be 20 user ++ ascii_bytes "user").
Definition creditPlanKey (self : Address) : Bytes32 := blake2b (be 20 self ++ ascii_bytes "credit-plan").
Definition sponsorKey (self sponsor : Address) : Bytes32 := blake2b (be 20 self ++ be 20 sponsor ++ ascii_bytes "sponsor").
Definition curSponsorKey (self : Address) : Bytes32 := blake2b (be 20 self ++ ascii_bytes "cur-sponsor").

Definition userObject_item (u : userObject) : item := rlp_list [rlp_num (uoUsedCredit u); rlp_num (uoBlockTime u)].
Definition userObjectOf (raw : bytes) : result userObject :=
  if (length raw =? 0)%nat then Ok (MkUserObject 0 0) else
  decoded (i ← rlp_parse raw; fields ← list_of i;
    match fields with [r0; r1] => used ← num_of r0; time ← uint_of 64 r1; Some (MkUserObject used time) | _ => None end).
Definition creditPlan_item (u : creditPlan) : item := rlp_list [rlp_num (cpCredit u); rlp_num (cpRecoveryRate u)].
Definition creditPlanOf (raw : bytes) : result creditPlan :=
  if (length raw =? 0)%nat then Ok (MkCreditPlan 0 0) else
  decoded (i ← rlp_parse raw; fields ← list_of i;
    match fields with [r0; r1] => credit ← num_of r0; rate ← num_of r1; Some (MkCreditPlan credit rate) | _ => None end).
Definition flagOf (raw : bytes) : result bool :=
  if (length raw =? 0)%nat then Ok false else
  decoded (n ← rlp_parse raw ≫= num_of; if n =? 0 then Some false else if n =? 1 then Some true else None).

Definition getUserObject (self user : Address) : M State userObject :=
  DecodeStorage db PrototypeAddress (userKey self user) userObjectOf.
Definition setUserObject (self user : Address) (uo : userObject) : M State unit :=
  EncodeStorage db PrototypeAddress (userKey self user)
    (if userObject_IsEmpty uo then Ok [] else
     if uoUsedCredit uo <? 0 then Err errNegative else Ok (rlp_bytes (userObject_item uo))).
Definition getCreditPlan (self : Address) : M State creditPlan :=
  DecodeStorage db PrototypeAddress (creditPlanKey self) creditPlanOf.
Definition setCreditPlan (self : Address) (cp : creditPlan) : M State unit :=
  EncodeStorage db PrototypeAddress (creditPlanKey self)
    (if creditPlan_IsEmpty cp then Ok [] else
     if (cpCredit cp <? 0) || (cpRecoveryRate cp <? 0) then Err errNegative else Ok (rlp_bytes (creditPlan_item cp))).

Definition IsUser (self user : Address) : M State bool :=
  uo ← getUserObject self user; mret (negb (userObject_IsEmpty uo)).
Definition AddUser (self user : Address) (blockTime : Z) : M State unit := setUserObject self user (MkUserObject 0 blockTime).
Definition RemoveUser (self user : Address) : M State unit := setUserObject self user (MkUserObject 0 0).

Definition UserCredit (self user : Address) (blockTime : Z) : M State Z :=
  uo ← getUserObject self user;
  if userObject_IsEmpty uo then mret 0 else
  cp ← getCreditPlan self;
  mret (userObject_Credit uo cp blockTime).

Definition SetUserCredit (self user : Address) (credit blockTime : Z) : M State unit :=
  up ← getCreditPlan self;
  let used := cpCredit up - credit in
  let used := if used <? 0 then 0 else used in
  setUserObject self user (MkUserObject used blockTime).

Definition CreditPlan (self : Address) : M State (Z * Z) :=
  cp ← getCreditPlan self; mret (cpCredit cp, cpRecoveryRate cp).
Definition SetCreditPlan (self : Address) (credit recoveryRate : Z) : M State unit :=
  setCreditPlan self (MkCreditPlan credit recoveryRate).

Definition Sponsor (self sponsor : Address) (flag : bool) : M State unit :=
  EncodeStorage db PrototypeAddress (sponsorKey self sponsor)
    (if negb flag then Ok [] else Ok (rlp_bytes (rlp_num 1))).
Definition IsSponsor (self sponsor : Address) : M State bool :=
  DecodeStorage db PrototypeAddress (sponsorKey self sponsor) flagOf.
Definition SelectSponsor (self sponsor : Address) : M State unit :=
  SetStorage db PrototypeAddress (curSponsorKey self) sponsor.
Definition CurrentSponsor (self : Address) : M State Address :=
  val ← GetStorage db PrototypeAddress (curSponsorKey self);
  mret (val mod 2 ^ 160).
End prototype.

(** ** Resolving a transaction *)
Record ResolvedTransaction `{Rlp} := MkResolved {
  rTx : Transaction;
  rOrigin : Address;
  rDelegator : option Address;
  rIntrinsicGas : Z;
  rClauses : list Clause;
}.

(** The values of the clauses are summed up from [sumValue]. *)
Fixpoint checkValues (sumValue : Z) (clauses : list Clause) : result unit :=
  match clauses with
  | [] => Ok tt
  | c :: clauses =>
      if Value c <? 0 then Err (ErrInternal "clause with negative value") else
      let sumValue := sumValue + Value c in
      if 2 ^ 256 <=? sumValue then Err (ErrInternal "tx value too large") else
      checkValues sumValue clauses
  end.

(** [BitLen() > 256] *)
Definition tooLong (z : Z) : bool := 2 ^ 256 <=? Z.abs z.

Definition checkFees `{Rlp} (t : Transaction) : result unit :=
  if Tx_Type t =? TypeLegacy then Ok tt else
  if Tx_MaxFeePerGas t <? 0 then Err (ErrInternal "max fee per gas must be positive") else
  if Tx_MaxPriorityFeePerGas t <? 0 then Err (ErrInternal "max priority fee per gas must be positive") else
  if tooLong (Tx_MaxFeePerGas t) then Err (ErrInternal "max fee per gas higher than 2^256-1") else
  if tooLong (Tx_MaxPriorityFeePerGas t) then Err (ErrInternal "max priority fee per gas higher than 2^256-1") else
  if Tx_MaxFeePerGas t <? Tx_MaxPriorityFeePerGas t then Err (ErrInternal "maxFeePerGas is less than maxPriorityFeePerGas")
  else Ok tt.

Definition ResolveTransaction `{Rlp} `{Crypto} `{SafeMath} `{SafeMulOp} (trx : Transaction) : result ResolvedTransaction :=
  origin ← Tx_Origin trx;
  intrinsicGas ← IntrinsicGas (Tx_Clauses trx);
  if Tx_Gas trx <? intrinsicGas then Err (ErrInternal "intrinsic gas exceeds provided gas") else
  delegator ← Tx_Delegator trx;
  _ ← checkValues 0 (Tx_Clauses trx);
  _ ← checkFees trx;
  Ok (MkResolved _ trx origin delegator intrinsicGas (Tx_Clauses trx)).

Fixpoint sameTo (firstTo : Address) (clauses : list Clause) : option Address :=
  match clauses with
  | [] => Some firstTo
  | c :: clauses =>
      match To c with
      | None => None
      | Some to => if negb (to =? firstTo) then None else sameTo firstTo clauses
      end
  end.

Definition CommonTo `{Rlp} (r : ResolvedTransaction) : option Address :=
  match rClauses r with
  | [] => None
  | c :: clauses => match To c with None => None | Some firstTo => sameTo firstTo clauses end
  end.

(** ** Buying gas *)
Section gas.
Context `{Rlp} `{Crypto} `{Drlp} `{StateEnv}.
Variable db : MuxDB.

(** A call of an instance of the token that is kept for later calls. *)
Definition onEnergy {A} (e : energy) (m : M (ES unit) A) : M State (A * energy) := λ s,
  match m (MkES s e tt) with
  | Ok (a, x) => Ok ((a, esEnergy x), esState x)
  | Err err => Err err
  end.

Record purchase := MkPurchase {
  puLegacyTxBaseGasPrice : Z;
  puEffectiveGasPrice : Z;
  puPayer : Address;
  puPrepaid : Z;
  puReturnGas : Z → M State unit;
}.

Definition errInsufficient : error := ErrInternal "insufficient energy".

(** [doReturnGas], with the instance [e] of the token that the closure holds. *)
Definition doReturnGas (e : energy) (payer : Address) (price rgas : Z) : M State Z :=
  let returnedEnergy := rgas * price in
  onEnergy e (energy_Add db payer returnedEnergy);;
  mret returnedEnergy.

Definition returnPlain (e : energy) (payer : Address) (price rgas : Z) : M State unit :=
  doReturnGas e payer price rgas;; mret tt.

(** [doReturnGasAndSetCredit] *)
Definition returnCredit (e : energy) (payer : Address) (price : Z) (self origin : Address) (prepaid credit blockTime rgas : Z) : M State unit :=
  returnedEnergy ← doReturnGas e payer price rgas;
  let usedEnergy := prepaid - returnedEnergy in
  SetUserCredit db self origin (credit - usedEnergy) blockTime.

(** The sponsor or the common receiver pays, if the origin has credit there. *)
Definition buyOnCredit (e : energy) (base price prepaid : Z) (origin : Address) (commonTo : option Address) (blockTime : Z) : M State (option purchase * energy) :=
  match commonTo with
  | None => mret (None, e)
  | Some to =>
      credit ← UserCredit db to origin blockTime;
      if credit <? prepaid then mret (None, e) else
      sponsor ← CurrentSponsor db to;
      isSponsor ← IsSponsor db to sponsor;
      '(ok, e) ← (if isSponsor : bool then onEnergy e (energy_Sub db sponsor prepaid) else mret (false, e));
      if ok : bool then
        mret (Some (MkPurchase base price sponsor prepaid (returnCredit e sponsor price to origin prepaid credit blockTime)), e)
      else
      '(sufficient, e) ← onEnergy e (energy_Sub db to prepaid);
      if sufficient : bool then
        mret (Some (MkPurchase base price to prepaid (returnCredit e to price to origin prepaid credit blockTime)), e)
      else mret (None, e)
  end.

Definition BuyGas (r : ResolvedTransaction) (blockTime : Z) (baseFee : option Z) : M State purchase :=
  base ← params_Get db KeyLegacyTxBaseGasPrice;
  price ← lift (EffectiveGasPrice (rTx r) baseFee base);
  reject (match baseFee with Some fee => price <? fee | None => false end) (ErrInternal "gas price is less than block base fee");;
  let e := NewEnergy blockTime in
  let prepaid := Tx_Gas (rTx r) * price in
  match rDelegator r with
  | Some delegator =>
      '(sufficient, e) ← onEnergy e (energy_Sub db delegator prepaid);
      if sufficient : bool then mret (MkPurchase base price delegator prepaid (returnPlain e delegator price))
      else fail errInsufficient
  | None =>
      '(bought, e) ← buyOnCredit e base price prepaid (rOrigin r) (CommonTo r) blockTime;
      match bought with
      | Some p => mret p
      | None =>
          '(sufficient, e) ← onEnergy e (energy_Sub db (rOrigin r) prepaid);
          if sufficient : bool then mret (MkPurchase base price (rOrigin r) prepaid (returnPlain e (rOrigin r) price))
          else fail errInsufficient
      end
  end.
End gas.

(** ** Executing *)
Record TransactionContext := MkTxContext {
  tcID : Bytes32;
  tcOrigin : Address;
  tcGasPayer : Address;
  tcGasPrice : Z;
  tcProvedWork : Z;
  tcBlockRef : bytes;
  tcExpiration : Z;
  tcClauseCount : Z;
}.

(** [runtime.Output] *)
Record ClauseOutput := MkClauseOutput {
  coData : bytes;
  coEvents : list Event;
  coTransfers : list Transfer;
  coLeftOverGas : Z;
  coRefundGas : Z;
  coVMErr : option error;
  coContractAddress : option Address;
}.

(** What [evm.Create] and [evm.Call] do in the EVM that [newEVM] sets up for a
    clause: the data, the gas left and the error of the vm (and the address of a new
    contract), with the refund and the logs that the [StateDB] has then. *)
Record vmResult := MkVmResult {
  vrData : bytes;
  vrLeftOverGas : Z;
  vrErr : option error;
  vrRefund : Z;
  vrEvents : list Event;
  vrTransfers : list Transfer;
}.
Class Evm := {
  evm_Create : BlockContext → TransactionContext → Z → Address → bytes → Z → Z → M State (vmResult * Address);
  evm_Call : BlockContext → TransactionContext → Z → Address → Address → bytes → Z → Z → M State vmResult;
}.

(** Built-in contracts that a fork brings. *)
Class Builtins := {
  PrecompiledShanghai : list Address;
  PrecompiledIstanbul : list Address;
  PrecompiledByzantium : list Address;
  ExtensionV2 : bytes;
  ExtensionV3 : bytes;
  StakerBytecodes : bytes;
}.
Definition ExtensionAddress : Address := from_be (ascii_bytes "Extension").
Definition StakerAddress : Address := from_be (ascii_bytes "Staker").
Definition EmptyRuntimeBytecode : bytes := [96; 96; 96; 64; 82; 96; 2; 86].

Section execute.
Context `{Config} `{Rlp} `{Crypto} `{Drlp} `{StateEnv} `{SafeMath} `{SafeMulOp} `{Evm}.
Variable db : MuxDB.
Variable repo : ChainRepo.
Variable headID : Bytes32.
Variable ctx : BlockContext.
Variable forkConfig : ForkConfig.

Definition ToContext (r : ResolvedTransaction) (gasPrice : Z) (gasPayer : Address) (blockNumber : Z) : result TransactionContext :=
  provedWork ← ProvedWork (rTx r) blockNumber (GetBlockID repo headID);
  Ok (MkTxContext (Tx_ID (rTx r)) (rOrigin r) gasPayer gasPrice provedWork (Tx_BlockRef (rTx r)) (Tx_Expiration (rTx r))
    (wrap32 (Z.of_nat (length (rClauses r))))).

(** [runtime.New]: the state changes of a fork. *)
Definition NewRuntime `{Builtins} : M State unit :=
  let number := bcNumber ctx in
  let precompiled := if GALACTICA forkConfig =? number then PrecompiledShanghai
                     else if ETH_IST forkConfig =? number then PrecompiledIstanbul
                     else if number =? 0 then PrecompiledByzantium else [] in
  foldM (λ _ addr, SetCode db addr EmptyRuntimeBytecode) tt precompiled;;
  (if GALACTICA forkConfig =? number then SetCode db ExtensionAddress ExtensionV3
   else when (VIP191 forkConfig =? number) (SetCode db ExtensionAddress ExtensionV2));;
  when (HAYABUSA forkConfig =? number)
    (SetCode db StakerAddress StakerBytecodes;; nativeEnergy (bcTime ctx) (StopEnergyGrowth db)).

(** A panic of the EVM is an error of the clause. *)
Definition PrepareClause (clause : Clause) (clauseIndex gas : Z) (txCtx : TransactionContext) : M State ClauseOutput :=
  '(r, contractAddr) ←
    match To clause with
    | None => '(r, caddr) ← evm_Create ctx txCtx clauseIndex (tcOrigin txCtx) (Data clause) gas (Value clause); mret (r, Some caddr)
    | Some to => r ← evm_Call ctx txCtx clauseIndex (tcOrigin txCtx) to (Data clause) gas (Value clause); mret (r, None)
    end;
  mret (MkClauseOutput (vrData r) (vrEvents r) (vrTransfers r) (vrLeftOverGas r) (vrRefund r) (vrErr r) contractAddr).

(** What the closures of a [TransactionExecutor] share. *)
Record executor := MkExecutor {
  exResolved : ResolvedTransaction;
  exPurchase : purchase;
  exTxCtx : TransactionContext;
  exCheckpoint : nat;
  exLeftOverGas : Z;
  exTxOutputs : list Output;
  exReverted : bool;
  exFinalized : bool;
}.

#[local] Instance eta_executor : Eta executor := λ x, MkExecutor (exResolved x) (exPurchase x) (exTxCtx x) (exCheckpoint x)
  (exLeftOverGas x) (exTxOutputs x) (exReverted x) (exFinalized x).

Definition HasNextClause (x : executor) : bool :=
  negb (exReverted x) && (length (exTxOutputs x) <? length (rClauses (exResolved x)))%nat.

Definition PrepareTransaction (trx : Transaction) : M State executor :=
  resolvedTx ← lift (ResolveTransaction trx);
  p ← BuyGas db resolvedTx (bcTime ctx) (bcBaseFee ctx);
  txCtx ← lift (ToContext resolvedTx (puEffectiveGasPrice p) (puPayer p) (bcNumber ctx));
  let leftOverGas := Tx_Gas trx -u64 rIntrinsicGas resolvedTx in
  checkpoint ← NewCheckpoint;
  mret (MkExecutor resolvedTx p txCtx checkpoint leftOverGas [] false false).

(** [PrepareNext] and the call of what it returns. *)
Definition execNext (x : executor) : M State (Z * ClauseOutput * executor) :=
  let i := length (exTxOutputs x) in
  match rClauses (exResolved x) !! i with
  | None => fail (ErrPanic "index out of range")
  | Some clause =>
      output ← PrepareClause clause (wrap32 (Z.of_nat i)) (exLeftOverGas x) (exTxCtx x);
      let gasUsed := exLeftOverGas x -u64 coLeftOverGas output in
      let refund := Z.min (gasUsed / 2) (coRefundGas output) in
      let leftOverGas := coLeftOverGas output +u64 refund in
      match coVMErr output with
      | Some _ =>
          RevertTo (exCheckpoint x);;
          mret (gasUsed, output, x <| exLeftOverGas := leftOverGas |> <| exReverted := true |> <| exTxOutputs := [] |>)
      | None =>
          mret (gasUsed, output, x <| exLeftOverGas := leftOverGas |>
            <| exTxOutputs := exTxOutputs x ++ [MkOutput (coEvents output) (coTransfers output)] |>)
      end
  end.

(** The reward: by the reward ratio before GALACTICA, the priority fee after. *)
Definition txReward (x : executor) (trx : Transaction) (gasUsed : Z) : M State Z :=
  let base := puLegacyTxBaseGasPrice (exPurchase x) in
  if bcNumber ctx <? GALACTICA forkConfig then
    provedWork ← lift (ProvedWork trx (bcNumber ctx -u32 1) (GetBlockID repo headID));
    overallGasPrice ← lift (OverallGasPrice trx base provedWork);
    rewardRatio ← params_Get db KeyRewardRatio;
    mret (gasUsed * overallGasPrice * rewardRatio / bigE18)
  else
    match bcBaseFee ctx with
    | None => fail (ErrPanic "nil base fee")
    | Some baseFee =>
        priorityFeePerGas ← lift (EffectivePriorityFeePerGas trx baseFee base (tcProvedWork (exTxCtx x)));
        mret (priorityFeePerGas * gasUsed)
    end.

Definition Finalize (x : executor) : M State (Receipt * executor) :=
  if HasNextClause x then fail (ErrInternal "not all clauses processed") else
  if exFinalized x then fail (ErrInternal "already finalized") else
  let trx := rTx (exResolved x) in
  let p := exPurchase x in
  let gasUsed := Tx_Gas trx -u64 exLeftOverGas x in
  let paid := gasUsed * puEffectiveGasPrice p in
  puReturnGas p (exLeftOverGas x);;
  reward ← txReward x trx gasUsed;
  nativeEnergy (bcTime ctx) (energy_Add db (bcBeneficiary ctx) reward);;
  mret (MkReceipt (Tx_Type trx) gasUsed (puPayer p) paid reward (exReverted x) (exTxOutputs x), x <| exFinalized := true |>).

Fixpoint execAll (fuel : nat) (x : executor) : M State executor :=
  if negb (HasNextClause x) then mret x else
  match fuel with
  | O => fail ErrFuel
  | S fuel => '(_, _, x) ← execNext x; execAll fuel x
  end.

Definition runtime_ExecuteTransaction (trx : Transaction) : M State Receipt :=
  x ← PrepareTransaction trx;
  x ← execAll (length (Tx_Clauses trx)) x;
  '(receipt, _) ← Finalize x;
  mret receipt.
End execute.
