(* ===== verification/RuntimeCorrect.v ===== *)
(** * A transaction pays for its gas

    The worlds a transaction goes through: the payer is charged for all the gas,
    the clauses run, and the rest is returned.  What the EVM may do to a world are
    the callbacks of the runtime and writes that leave the books of the token
    alone. *)

From S2P Require Import Prelude Bytes External Thor Block BlockCorrect Tx TxCorrect ChainRepo Trie Staker Consensus StackedMap AccountState.
From S2P Require Import StateSpec StateCorrect StateStage StateReopen StateTheorems EnergyToken EnergySupply EnergyTheorems Runtime.

Section worlds.
Context `{HRlp : Rlp} `{!RlpSpec} `{HCrypto : Crypto} `{!CryptoSpec} `{HDrlp : Drlp} `{HEnv : StateEnv}.
Context {isCode : bytes → Prop} `{HSpec : !StateEnvSpec isCode} `{HE : !EnergySpec}.

(** The energy of [a] changes by [δ], with the books of the token. *)
Definition pays (t : Z) (a : Address) (δ : Z) (w w' : world) : Prop :=
  (δ = 0 ∧ w' = w) ∨
  ∃ L add sub, has_ledger w L ∧ 0 ≤ CalcEnergy (acct w a) t (stopAt L) + δ ∧ 0 ≤ add ∧ 0 ≤ sub ∧
    add - sub = lAdd L - lSub L + δ ∧
    w' = w_energy a (CalcEnergy (acct w a) t (stopAt L) + δ) t (w_total add sub w).

(** The keys of the books. *)
Definition ledgerKeys : list Bytes32 := [initialSupplyKey; totalAddSubKey; issuedKey; growthStopTimeKey].

(** Writes that are not the business of the token. *)
Definition quiet (o : state_op) : Prop :=
  match o with
  | OpRaw a k _ | OpStorage a k _ => a ≠ ParamsAddress ∧ (a = EnergyAddress → k ∉ ledgerKeys)
  | OpMaster _ _ | OpCode _ _ => True
  | _ => False
  end.

(** What the EVM does to a world at block time [t]: writes of contracts and
    native methods, new parameters, transfers, energy moved by the token contract,
    contracts destroyed. *)
Inductive evm_step (t : Z) (w : world) : world → Prop :=
  | ev_write o : quiet o → op_ok isCode o → evm_step t w (world_perform o w)
  | ev_param k v : is256 k → 0 ≤ v →
      evm_step t w (w_slot ParamsAddress k (if v =? 0 then [] else rlp_bytes (rlp_num v)) w)
  | ev_energy a δ w' : is160 a → pays t a δ w w' → evm_step t w w'
  | ev_transfer L s r amount : has_ledger w L → is160 s → is160 r → 0 ≤ amount ≤ Balance (acct w s) →
      evm_step t w (w_transfer t (stopAt L) s r amount w)
  | ev_destroy L c r : has_ledger w L → is160 c → is160 r → c ≠ EnergyAddress → c ≠ ParamsAddress →
      evm_step t w (w_delete c (w_inherit t (stopAt L) c r w)).

Definition stopSlot (w : world) : bytes := slot w EnergyAddress growthStopTimeKey.

(** The books stay right and the end of growth stays where it is. *)
Definition keeps (t : Z) (w w' : world) : Prop := stays t w' ∧ stopSlot w' = stopSlot w.

Lemma ledger_unique w L L' : has_ledger w L → has_ledger w L' → L = L'.
Proof.
  intros [H1 H2 H3 H4] [H1' H2' H3' H4']. rewrite H1 in H1'. rewrite H2 in H2'. rewrite H3 in H3'. rewrite H4 in H4'.
  destruct L, L'. simpl in *. by simplify_eq.
Qed.

Lemma pays_keeps t a δ w w' : stays t w → is160 a → pays t a δ w w' → keeps t w w'.
Proof.
  intros (L & Hok & Hp) Ha [[-> ->]|(L' & add & sub & HL & Hpos & Hadd & Hsub & Ed & ->)]; [split; [by exists L|done]|].
  assert (L' = L) as -> by (eapply ledger_unique; [done|apply Hok]). split.
  - eexists. split; [by apply booked|]. by apply (params_slots (w_total add sub w)); [apply params_energy|].
  - unfold stopSlot, w_total. cbn [w_energy w_account slot]. apply slot_other. apply keys_apart.
Qed.

(** Only what is energy and tokens matters. *)
Lemma supply_same t w L d w' : supply_ok t w L d → has_ledger w' L →
  (∀ a, Balance (acct w' a) = Balance (acct w a) ∧ Energy (acct w' a) = Energy (acct w a) ∧ BlockTime (acct w' a) = BlockTime (acct w a)) →
  supply_ok t w' L d.
Proof.
  intros [_ Hlo Hacc Htok Hen] HL E. split; [done..| | |].
  - intros a Ha. unfold account_ok. destruct (E a) as (-> & -> & ->). by apply Hacc.
  - intros l Hl HP. rewrite (lsum_ext _ (λ a, Balance (acct w a))) by (intros a _; apply E). by apply Htok.
  - intros l Hl HP. rewrite (lsum_ext _ (λ a, scaled (stopAt L) t (acct w a))); [by apply Hen|].
    intros a _. unfold scaled. by destruct (E a) as (-> & -> & ->).
Qed.

Lemma slot_elsewhere w a k raw k' : (a = EnergyAddress → k ∉ ledgerKeys) → k' ∈ ledgerKeys →
  slot (w_slot a k raw w) EnergyAddress k' = slot w EnergyAddress k'.
Proof.
  intros Hk Hk'. cbn [slot w_slot]. destruct (decide (a = EnergyAddress)) as [->|Hne].
  - rewrite upd_eq, upd_ne; [done|]. intros ->. by apply Hk.
  - by rewrite upd_ne by done.
Qed.

Lemma ledger_elsewhere w w' L : has_ledger w L → (∀ k, k ∈ ledgerKeys → slot w' EnergyAddress k = slot w EnergyAddress k) →
  has_ledger w' L.
Proof. intros [H1 H2 H3 H4] E. unfold ledgerKeys in E. split; rewrite E by set_solver; done. Qed.

(** A write keeps the books when it leaves their slots alone, and the numbers of
    the accounts. *)
Lemma write_keeps t w w' : stays t w → (∀ k, k ∈ ledgerKeys → slot w' EnergyAddress k = slot w EnergyAddress k) →
  params_ok w' →
  (∀ a, Balance (acct w' a) = Balance (acct w a) ∧ Energy (acct w' a) = Energy (acct w a) ∧ BlockTime (acct w' a) = BlockTime (acct w a)) →
  keeps t w w'.
Proof.
  intros (L & Hok & Hp) Hs Hp' Ha. split.
  - exists L. split; [|done]. eapply supply_same; [done| |done]. eapply ledger_elsewhere; [apply Hok|done].
  - apply Hs. unfold ledgerKeys. set_solver.
Qed.

Lemma quiet_keeps t w o : quiet o → stays t w → keeps t w (world_perform o w).
Proof.
  intros Hq Hst. pose proof Hst as (L & _ & Hp).
  assert (∀ a k raw, a ≠ ParamsAddress ∧ (a = EnergyAddress → k ∉ ledgerKeys) → keeps t w (w_slot a k raw w)) as Hslot.
  { intros a k raw [Hnp Hk]. apply write_keeps; [done| | |done].
    - intros k' Hk'. by apply slot_elsewhere.
    - eapply params_slots; [done|]. intros k'. cbn [slot w_slot]. by rewrite upd_ne. }
  destruct o as [a v|a e t'|a m|a k raw|a k v|a c|a| |n]; try done; cbn [quiet world_perform] in *; [|by apply Hslot..|].
  - apply write_keeps; [done..|]. intros a'. cbn [acct w_account]. unfold upd. destruct (Z.eqb_spec a' a) as [->|]; done.
  - apply write_keeps; [done..|]. intros a'. cbn [acct w_account w_code]. unfold upd. destruct (Z.eqb_spec a' a) as [->|]; done.
Qed.

Lemma step_keeps t w w' : evm_step t w w' → stays t w → keeps t w w'.
Proof.
  intros Hstep Hst. pose proof Hst as (L & Hok & Hp). destruct Hstep as [o Hq _|k v Hk Hv|a δ w' Ha Hpay|L' s r amount HL Hs Hr Hamt|L' c r HL Hc Hr Hne Hnp].
  - by apply quiet_keeps.
  - apply write_keeps; [done| | |done].
    + intros k' _. cbn [slot w_slot]. by rewrite upd_ne.
    + intros key Hkey. cbn [slot w_slot]. rewrite upd_eq. unfold upd. destruct (key =? k); [|by apply Hp].
      exists v. destruct (Z.eqb_spec v 0) as [->|]; [done|]. by apply bigOf_num.
  - by eapply pays_keeps.
  - assert (L' = L) as -> by (eapply ledger_unique; [done|apply Hok]). split; [|done].
    exists L. split; [by apply transfer_supply|by eapply params_slots].
  - assert (L' = L) as -> by (eapply ledger_unique; [done|apply Hok]). split.
    + exists L. split; [by apply supply_destroy|]. eapply params_slots; [done|]. intros k. cbn [slot w_delete].
      rewrite upd_ne by done. apply inherit_slots.
    + unfold stopSlot. cbn [slot w_delete]. rewrite upd_ne by done. apply inherit_slots.
Qed.

Lemma steps_keep t w w' : rtc (evm_step t) w w' → stays t w → keeps t w w'.
Proof.
  induction 1 as [w|w w1 w2 Hstep _ IH]; intros Hst; [by split|].
  destruct (step_keeps t w w1 Hstep Hst) as [Hst1 E1]. destruct (IH Hst1) as [Hst2 E2]. split; [done|congruence].
Qed.

(** Energy comes back, and the credit of a user may be written. *)
Definition returned (t : Z) (a : Address) (δ : Z) (w w' : world) : Prop :=
  ∃ w1, pays t a δ w w1 ∧ (w' = w1 ∨ ∃ k raw, is256 k ∧ w' = w_slot PrototypeAddress k raw w1).

Lemma returned_keeps t a δ w w' : stays t w → is160 a → returned t a δ w w' → keeps t w w'.
Proof.
  intros Hst Ha (w1 & Hpay & Hw'). destruct (pays_keeps t a δ w w1 Hst Ha Hpay) as [Hst1 E1].
  destruct Hw' as [->|(k & raw & Hk & ->)]; [done|].
  destruct (quiet_keeps t w1 (OpRaw PrototypeAddress k raw)) as [Hst2 E2]; [|done|].
  - split; [done|]. by intros E.
  - split; [exact Hst2|]. etrans; [exact E2|exact E1].
Qed.
End worlds.

(** ** What payments change *)
Section effects.
Context `{HRlp : Rlp} `{!RlpSpec} `{HCrypto : Crypto} `{!CryptoSpec} `{HDrlp : Drlp} `{HEnv : StateEnv}.
Context {isCode : bytes → Prop} `{HSpec : !StateEnvSpec isCode} `{HE : !EnergySpec}.

(** Energy changes by [d], and nothing else but the storage of the two contracts
    that keep books. *)
Record effect (t stop : Z) (d : Address → Z) (w w' : world) : Prop := {
  ef_energy : ∀ b, CalcEnergy (acct w' b) t stop = CalcEnergy (acct w b) t stop + d b;
  ef_balance : ∀ b, Balance (acct w' b) = Balance (acct w b);
  ef_code : ∀ b, code w' b = code w b;
  ef_slot : ∀ b k, b ≠ EnergyAddress → b ≠ PrototypeAddress → slot w' b k = slot w b k;
}.

Lemma effect_trans t stop d1 d2 w w1 w2 : effect t stop d1 w w1 → effect t stop d2 w1 w2 → effect t stop (λ b, d1 b + d2 b) w w2.
Proof.
  intros [H1 H2 H3 H4] [H1' H2' H3' H4']. split; intros.
  - rewrite H1', H1. lia.
  - by rewrite H2', H2.
  - by rewrite H3', H3.
  - by rewrite H4', H4.
Qed.

Lemma pays_effect t a δ w w' L : has_ledger w L → pays t a δ w w' → effect t (stopAt L) (λ b, if b =? a then δ else 0) w w'.
Proof.
  intros HL [[-> ->]|(L' & add & sub & HL' & _ & _ & _ & _ & ->)].
  - split; try done. intros b. destruct (b =? a); lia.
  - rewrite (ledger_unique _ _ _ HL' HL). unfold w_energy, w_total. split; cbn [acct code slot w_account w_slot].
    + intros b. unfold upd. destruct (Z.eqb_spec b a) as [->|]; [|lia]. by rewrite CalcEnergy_touched.
    + intros b. unfold upd. destruct (Z.eqb_spec b a) as [->|]; done.
    + done.
    + intros b k Hne _. by rewrite upd_ne.
Qed.

Lemma returned_effect t a δ w w' L : has_ledger w L → returned t a δ w w' → effect t (stopAt L) (λ b, if b =? a then δ else 0) w w'.
Proof.
  intros HL (w1 & Hpay & Hw'). pose proof (pays_effect t a δ w w1 L HL Hpay) as [H1 H2 H3 H4].
  destruct Hw' as [->|(k & raw & _ & ->)]; [by split|]. split; cbn [acct code slot w_slot]; try done.
  intros b k' Hb Hb'. rewrite upd_ne by done. by apply H4.
Qed.

Lemma stopAt_same w L w' L' : has_ledger w L → has_ledger w' L' → stopSlot w' = stopSlot w → stopAt L' = stopAt L.
Proof.
  intros HL HL' E. apply hl_stop in HL, HL'. unfold stopSlot in E. rewrite E, HL in HL'. injection HL' as HL'. unfold stopAt. by rewrite HL'.
Qed.
End effects.

(** ** Reading and paying *)
Section moves.
Context `{HRlp : Rlp} `{!RlpSpec} `{HCrypto : Crypto} `{!CryptoSpec} `{HDrlp : Drlp} `{HEnv : StateEnv}.
Context {isCode : bytes → Prop} `{HSpec : !StateEnvSpec isCode} `{HE : !EnergySpec}.
Variable db : MuxDB.
Variable trie0 : MTrie.
Variable w0 : world.
Variable metaOf : Address → AccountMetadata.
Hypothesis Hbase : loaded (isCode := isCode) db trie0 w0 metaOf.

Local Abbreviation represents := (represents (isCode := isCode) db trie0 w0 metaOf) (only parsing).
Local Abbreviation sacts := (sacts (isCode := isCode) db trie0 w0 metaOf) (only parsing).

(** An error that is not for lack of fuel. *)
Definition stops {A} (r : result A) : Prop := r ≠ Err ErrFuel.

(** [m] ends with [Q] or stops with an error. *)
Definition moves {A} (m : M State A) (w : world) (Q : A → world → Prop) : Prop :=
  ∀ s ws, represents s (w :: ws) →
  match m s with
  | Ok (v, s') => ∃ w', represents s' (w' :: ws) ∧ Q v w'
  | Err e => e ≠ ErrFuel
  end.

Lemma moves_bind {A B} (m : M State A) (f : A → M State B) w Q :
  moves m w (λ v w1, moves (f v) w1 Q) → moves (m ≫= f) w Q.
Proof.
  intros Hm s ws Hs. specialize (Hm s ws Hs). unfold mbind, M_bind. destruct (m s) as [[v s1]|]; [|done].
  destruct Hm as (w1 & Hs1 & Hf). by apply Hf.
Qed.

Lemma moves_sacts {A} (m : M State A) w v w' (Q : A → world → Prop) : sacts m w v w' → Q v w' → moves m w Q.
Proof. intros Hm HQ s ws Hs. destruct (Hm s ws Hs) as (s' & -> & Hs'). by exists w'. Qed.

Lemma moves_ret {A} (v : A) w (Q : A → world → Prop) : Q v w → moves (mret v) w Q.
Proof. intros HQ s ws Hs. by exists w. Qed.

Lemma moves_fail {A} e w (Q : A → world → Prop) : e ≠ ErrFuel → moves (fail e) w Q.
Proof. by intros He s ws Hs. Qed.

Lemma moves_lift {A} (r : result A) w (Q : A → world → Prop) : stops r → (∀ v, r = Ok v → Q v w) → moves (lift r) w Q.
Proof. intros Hr HQ s ws Hs. unfold lift. destruct r; [exists w; auto|]. intros ->. by apply Hr. Qed.

Lemma moves_err {A} (m : M State A) w Q : moves m w Q → moves (map_err stateError m) w Q.
Proof.
  intros Hm s ws Hs. specialize (Hm s ws Hs). unfold map_err. destruct (m s) as [[v s']|e]; [done|]. by destruct e.
Qed.

Lemma moves_weaken {A} (m : M State A) w (Q Q' : A → world → Prop) : moves m w Q → (∀ v w', Q v w' → Q' v w') → moves m w Q'.
Proof.
  intros Hm HQ s ws Hs. specialize (Hm s ws Hs). destruct (m s) as [[v s']|]; [|done]. destruct Hm as (w' & ? & ?). eauto.
Qed.

Lemma decoded_stops {A} (o : option A) : stops (decoded o).
Proof. unfold stops, decoded. by destruct o. Qed.

Lemma moves_decode {A} a k (dec : bytes → result A) w (Q : A → world → Prop) : is160 a → is256 k → stops (dec (slot w a k)) →
  (∀ v, dec (slot w a k) = Ok v → Q v w) → moves (DecodeStorage db a k dec) w Q.
Proof.
  intros Ha Hk Hd HQ. apply moves_bind. eapply moves_sacts; [apply sacts_err; by apply GetRawStorage_acts|].
  by apply moves_err, moves_lift.
Qed.

(** ** Prototype *)
Lemma PrototypeAddress_ok : is160 PrototypeAddress.
Proof. unfold is160. split; [done|]. vm_compute. done. Qed.

Lemma creditPlan_moves self w (Q : creditPlan → world → Prop) : (∀ v, Q v w) → moves (getCreditPlan db self) w Q.
Proof.
  intros HQ. apply moves_decode; [apply PrototypeAddress_ok|apply key_range| |auto].
  unfold creditPlanOf. destruct (_ =? _)%nat; [done|apply decoded_stops].
Qed.

Lemma UserCredit_moves self user t w (Q : Z → world → Prop) : (∀ v, Q v w) → moves (UserCredit db self user t) w Q.
Proof.
  intros HQ. apply moves_bind. apply moves_decode; [apply PrototypeAddress_ok|apply key_range| |].
  { unfold userObjectOf. destruct (_ =? _)%nat; [done|apply decoded_stops]. }
  intros uo _. destruct (userObject_IsEmpty uo); [by apply moves_ret|]. apply moves_bind, creditPlan_moves. intros cp. by apply moves_ret.
Qed.

Lemma CurrentSponsor_moves self w (Q : Z → world → Prop) : (∀ v, is160 v → Q v w) → moves (CurrentSponsor db self) w Q.
Proof.
  intros HQ. apply moves_bind. unfold GetStorage. apply moves_bind.
  eapply moves_sacts; [apply sacts_err; apply GetRawStorage_acts; [done|apply PrototypeAddress_ok|apply key_range]|].
  assert (∀ v, moves (mret (v mod 2 ^ 160)) w Q) as Hend by (intros v; apply moves_ret, HQ, Z.mod_pos_bound; lia).
  destruct (_ =? _)%nat; [by apply moves_ret|]. destruct (rlp_split _) as [[[] content]|]; [by apply moves_ret..|by apply moves_fail].
Qed.

Lemma IsSponsor_moves self sponsor w (Q : bool → world → Prop) : (∀ v, Q v w) → moves (IsSponsor db self sponsor) w Q.
Proof.
  intros HQ. apply moves_decode; [apply PrototypeAddress_ok|apply key_range| |auto].
  unfold flagOf. destruct (_ =? _)%nat; [done|apply decoded_stops].
Qed.

Lemma SetUserCredit_moves self user credit t w (Q : unit → world → Prop) :
  (∀ k raw, is256 k → Q tt (w_slot PrototypeAddress k raw w)) → moves (SetUserCredit db self user credit t) w Q.
Proof.
  intros HQ. apply moves_bind, creditPlan_moves. intros cp. unfold setUserObject. set (used := if _ <? 0 then _ else _).
  assert (∀ raw, moves (EncodeStorage db PrototypeAddress (userKey self user) (Ok raw)) w Q) as Hend.
  { intros raw. eapply moves_sacts; [apply EncodeStorage_acts; [done|apply PrototypeAddress_ok|apply key_range]|]. apply HQ, key_range. }
  destruct (userObject_IsEmpty _); [apply Hend|]. cbn [uoUsedCredit]. destruct (Z.ltb_spec used 0); [|apply Hend].
  apply moves_bind, moves_err, moves_lift; done.
Qed.

(** ** Paying *)

(** An instance of the token at block time [t] that knows no other end of growth
    than the world has. *)
Definition inst_ok (t : Z) (e : energy) (w : world) : Prop := eBlockTime e = t ∧ ∀ L, has_ledger w L → fresh_ok e L.

Lemma inst_new t w : inst_ok t (NewEnergy t) w.
Proof. split; [done|]. intros L _. by left. Qed.

Lemma inst_same t e w w' L : inst_ok t e w → has_ledger w L → stopSlot w' = stopSlot w → inst_ok t e w'.
Proof.
  intros [Ht He] HL E. split; [done|]. intros L' HL'. destruct (He L HL) as [|Hs]; [by left|right]. rewrite Hs.
  symmetry. by eapply stopAt_same.
Qed.

Lemma onEnergy_acts {A} (m : M (ES unit) A) w e v w' e' :
  eacts (isCode := isCode) db trie0 w0 metaOf m w e tt v w' e' tt → sacts (onEnergy e m) w (v, e') w'.
Proof. intros Hm s ws Hs. destruct (Hm s ws Hs) as (s' & E & Hs'). exists s'. split; [|done]. unfold onEnergy. by rewrite E. Qed.

Lemma known_ok t e w L w' : inst_ok t e w → has_ledger w L → stopSlot w' = stopSlot w → inst_ok t (known e L) w'.
Proof.
  intros [Ht He] HL E. apply (inst_same t _ w _ L); [|done..]. split; [done|]. intros L' HL'. right.
  by rewrite (ledger_unique _ _ _ HL' HL).
Qed.

Lemma sub_moves t e w a amount (Q : bool * energy → world → Prop) : stays t w → inst_ok t e w → is160 a → 0 ≤ amount →
  (∀ e' w', pays t a (- amount) w w' → inst_ok t e' w' → Q (true, e') w') →
  (∀ e', inst_ok t e' w → Q (false, e') w) →
  moves (onEnergy e (energy_Sub db a amount)) w Q.
Proof.
  intros Hst He Ha Hamt HQ1 HQ2. pose proof Hst as (L & Hok & Hp). pose proof (so_ledger _ _ _ _ Hok) as HL.
  destruct (decide (amount = 0)) as [->|Hne].
  { eapply moves_sacts; [apply onEnergy_acts, eacts_ret|]. apply HQ1; [by left|done]. }
  pose proof (lo_nonneg _ _ (so_ok _ _ _ _ Hok)) as (_ & _ & Hadd & Hsub & _).
  eapply moves_sacts; [apply onEnergy_acts; apply (energy_Sub_acts _ _ _ _ Hbase w e tt L); [done|by apply He|done|done|lia|lia]|].
  destruct He as [Ht He]. rewrite Ht. destruct (Z.leb_spec amount (CalcEnergy (acct w a) t (stopAt L))) as [Hle|Hgt].
  - assert (pays t a (- amount) w (w_energy a (CalcEnergy (acct w a) t (stopAt L) - amount) t (w_total (lAdd L) (lSub L + amount) w))) as Hpay.
    { right. exists L, (lAdd L), (lSub L + amount). split_and!; [done|lia..|]. by rewrite Z.add_opp_r. }
    apply HQ1; [done|]. eapply known_ok; [done..|]. by apply (pays_keeps t a (- amount)).
  - apply HQ2. by eapply known_ok.
Qed.

Lemma add_moves t e w a amount (Q : unit * energy → world → Prop) : stays t w → inst_ok t e w → is160 a → 0 ≤ amount →
  (∀ e' w', pays t a amount w w' → Q (tt, e') w') →
  moves (onEnergy e (energy_Add db a amount)) w Q.
Proof.
  intros Hst He Ha Hamt HQ. pose proof Hst as (L & Hok & Hp). pose proof Hok as [HL [(_ & _ & Hadd & Hsub & _) _ [Ht' Hst']] Hacc _ _].
  destruct (decide (amount = 0)) as [->|Hne].
  { eapply moves_sacts; [apply onEnergy_acts, eacts_ret|]. apply HQ. by left. }
  eapply moves_sacts; [apply onEnergy_acts; apply (energy_Add_acts _ _ _ _ Hbase w e tt L); [done|by apply He|done|done|lia|lia]|].
  destruct He as [Ht He]. rewrite Ht. apply HQ. right. exists L, (lAdd L + amount), (lSub L). split_and!; [done| |lia..|done].
  pose proof (CalcEnergy_nonneg (stopAt L) t _ (Hacc a Ha) Ht' Hst'). lia.
Qed.

(** ** Buying gas *)
(** What a purchase can give back later. *)
Definition refunds (t : Z) (p : purchase) (w1 : world) : Prop := ∀ rgas w2, 0 ≤ rgas → stays t w2 → stopSlot w2 = stopSlot w1 →
  moves (puReturnGas p rgas) w2 (λ _ w3, returned t (puPayer p) (rgas * puEffectiveGasPrice p) w2 w3).

Definition purchased (t : Z) (prepaid : Z) (p : purchase) (w w1 : world) : Prop :=
  is160 (puPayer p) ∧ puPrepaid p = prepaid ∧ pays t (puPayer p) (- prepaid) w w1 ∧ refunds t p w1.

Lemma doReturn_moves t e w1 L w2 payer price rgas (Q : Z → world → Prop) : inst_ok t e w1 → has_ledger w1 L →
  is160 payer → 0 ≤ price → 0 ≤ rgas → stays t w2 → stopSlot w2 = stopSlot w1 →
  (∀ w', pays t payer (rgas * price) w2 w' → Q (rgas * price) w') → moves (doReturnGas db e payer price rgas) w2 Q.
Proof.
  intros He HL Ha Hp Hr Hst E HQ. apply moves_bind. apply (add_moves t); [done|by eapply inst_same|done|nia|].
  intros e' w' Hpay. apply moves_ret. auto.
Qed.

Lemma plain_refunds t e w1 L base payer price prepaid : inst_ok t e w1 → has_ledger w1 L → is160 payer → 0 ≤ price →
  refunds t (MkPurchase base price payer prepaid (returnPlain db e payer price)) w1.
Proof.
  intros He HL Ha Hp rgas w2 Hr Hst E. apply moves_bind. eapply doReturn_moves; [done..|].
  intros w' Hpay. apply moves_ret. exists w'. by split; [|left].
Qed.

Lemma credit_refunds t e w1 L base payer price prepaid self origin credit : inst_ok t e w1 → has_ledger w1 L → is160 payer → 0 ≤ price →
  refunds t (MkPurchase base price payer prepaid (returnCredit db e payer price self origin prepaid credit t)) w1.
Proof.
  intros He HL Ha Hp rgas w2 Hr Hst E. apply moves_bind. eapply doReturn_moves; [done..|].
  intros w' Hpay. apply SetUserCredit_moves. intros k raw Hk. exists w'. split; [done|]. right. by exists k, raw.
Qed.

Lemma pays_ledger t a δ w w' : stays t w → is160 a → pays t a δ w w' → ∃ L, has_ledger w' L.
Proof. intros Hst Ha Hpay. destruct (pays_keeps t a δ w w' Hst Ha Hpay) as [(L & Hok & _) _]. exists L. apply Hok. Qed.

Lemma credit_moves t e w base price prepaid origin commonTo (Q : option purchase * energy → world → Prop) :
  stays t w → inst_ok t e w → 0 ≤ price → 0 ≤ prepaid → (∀ to, commonTo = Some to → is160 to) →
  (∀ e', inst_ok t e' w → Q (None, e') w) →
  (∀ p e' w', is_Some commonTo → puLegacyTxBaseGasPrice p = base → puEffectiveGasPrice p = price → purchased t prepaid p w w' → Q (Some p, e') w') →
  moves (buyOnCredit db e base price prepaid origin commonTo t) w Q.
Proof.
  intros Hst He Hprice Hpre Hto HQ1 HQ2. unfold buyOnCredit. destruct commonTo as [to|]; [|by apply moves_ret, HQ1].
  specialize (Hto to eq_refl). apply moves_bind, UserCredit_moves. intros credit. destruct (credit <? prepaid); [by apply moves_ret, HQ1|].
  apply moves_bind, CurrentSponsor_moves. intros sponsor Hsp. apply moves_bind, IsSponsor_moves. intros isSponsor.
  assert (∀ e1, inst_ok t e1 w → moves ('(sufficient, e) ← onEnergy e1 (energy_Sub db to prepaid);
      if sufficient : bool then
        mret (Some (MkPurchase base price to prepaid (returnCredit db e to price to origin prepaid credit t)), e)
      else mret (None, e)) w Q) as Hto'.
  { intros e1 He1. apply moves_bind. apply (sub_moves t); [done..| |].
    - intros e' w' Hpay He'. apply moves_ret. destruct (pays_ledger t to _ w w' Hst Hto Hpay) as [L' HL'].
      apply HQ2; [done..|]. split_and!; [done..|by eapply credit_refunds].
    - intros e' He'. by apply moves_ret, HQ1. }
  apply moves_bind. destruct isSponsor; [|apply moves_ret; by apply Hto'].
  apply (sub_moves t); [done..| |].
  - intros e' w' Hpay He'. apply moves_ret. destruct (pays_ledger t sponsor _ w w' Hst Hsp Hpay) as [L' HL'].
    apply HQ2; [done..|]. split_and!; [done..|by eapply credit_refunds].
  - intros e' He'. by apply Hto'.
Qed.
End moves.

(** ** Facts on a transaction *)
Section tx_facts.
Context `{CFG : Config} `{HRlp : Rlp} `{HCrypto : Crypto} `{!CryptoSpec} `{SMS : SafeMathSpec} `{SMM : SafeMulSpec}.

Definition tx_ok (t : Transaction) : Prop :=
  is64 (Tx_Gas t) ∧ Forall (λ c, Z.of_nat (length (Data c)) < max64) (Tx_Clauses t) ∧
  Forall (λ c, ∀ to, To c = Some to → is160 to) (Tx_Clauses t) ∧
  match t with Legacy l => 0 ≤ lGasPriceCoef l | DynamicFee _ => True end.

Lemma stops_ok {A} (v : A) : stops (Ok v).
Proof. done. Qed.
Lemma stops_bind {A B} (r : result A) (f : A → result B) : stops r → (∀ v, r = Ok v → stops (f v)) → stops (r ≫= f).
Proof. unfold stops. intros Hr Hf. destruct r; cbn [mbind result_bind]; [by apply Hf|]. intros E. apply Hr. congruence. Qed.
Lemma stops_if {A} (b : bool) (r1 r2 : result A) : stops r1 → stops r2 → stops (if b then r1 else r2).
Proof. by destruct b. Qed.

Lemma Origin_stops t : stops (Tx_Origin t).
Proof. unfold Tx_Origin. apply stops_if; [done|]. by destruct (sigToPub _ _). Qed.

Lemma Delegator_stops t : stops (Tx_Delegator t).
Proof.
  unfold Tx_Delegator. apply stops_if; [done|]. apply stops_if; [done|]. apply stops_bind; [apply Origin_stops|].
  intros o _. by destruct (sigToPub _ _).
Qed.

Lemma clausesGas_stops total cs : stops (clausesGas total cs).
Proof.
  revert total. induction cs as [|c cs IH]; intros total; [done|]. cbn [clausesGas]. apply stops_bind.
  - unfold dataGas. apply stops_if; [done|]. destruct (SafeMul _ _) as [? []]; [done|]. destruct (SafeMul _ _) as [? []]; [done|].
    by destruct (SafeAdd _ _) as [? []].
  - intros g _. destruct (SafeAdd total g) as [? []]; [done|]. destruct (SafeAdd _ _) as [? []]; [done|]. apply IH.
Qed.

Lemma checkValues_stops sum cs : stops (checkValues sum cs).
Proof.
  revert sum. induction cs as [|c cs IH]; intros sum; [done|]. cbn [checkValues]. apply stops_if; [done|]. apply stops_if; [done|]. apply IH.
Qed.

Lemma checkFees_stops t : stops (checkFees t).
Proof. unfold checkFees. by repeat apply stops_if. Qed.

Lemma Resolve_stops t : stops (ResolveTransaction t).
Proof.
  unfold ResolveTransaction. apply stops_bind; [apply Origin_stops|]. intros o _. apply stops_bind.
  { unfold IntrinsicGas. apply stops_if; [done|apply clausesGas_stops]. }
  intros g _. apply stops_if; [done|]. apply stops_bind; [apply Delegator_stops|]. intros d _.
  apply stops_bind; [apply checkValues_stops|]. intros _ _. apply stops_bind; [apply checkFees_stops|]. done.
Qed.

Lemma ProvedWork_stops t n getID : (∀ k, stops (getID k)) → stops (ProvedWork t n getID).
Proof.
  intros Hid. unfold ProvedWork. destruct t as [l|d]; [|done]. apply stops_if; [done|]. apply stops_if; [done|].
  apply stops_bind; [apply Hid|]. intros id _. case_bool_decide; [|done]. unfold UnprovedWork.
  destruct (Tx_Origin _); [|done]. unfold evaluateWork. by apply stops_if.
Qed.

Lemma ProvedWork_nonneg t n getID work : ProvedWork t n getID = Ok work → 0 ≤ work.
Proof.
  unfold ProvedWork. destruct t as [l|d]; [|by intros [= <-]].
  destruct (_ <=? _); [by intros [= <-]|]. destruct (_ <? _); [by intros [= <-]|].
  destruct (getID _); [|done]. cbn [mbind result_bind]. case_bool_decide; [|by intros [= <-]]. unfold UnprovedWork.
  destruct (Tx_Origin _); [|by intros [= <-]]. unfold evaluateWork. set (r := blake2b _).
  assert (is256 r) as Hr by apply blake2b_range. destruct (Z.eqb_spec r 0); [done|]. intros [= <-].
  apply Z.div_pos; unfold is256 in Hr; lia.
Qed.

Lemma GetBlockID_stops repo h k : stops (GetBlockID repo h k).
Proof. unfold GetBlockID, GetBlockSummary. destruct (hdrStore repo !! h); [|done]. cbn [mbind result_bind]. by destruct (_ !! _). Qed.

(** What resolving checks. *)
Record resolved (t : Transaction) (r : ResolvedTransaction) : Prop := {
  re_tx : rTx r = t;
  re_clauses : rClauses r = Tx_Clauses t;
  re_origin : Tx_Origin t = Ok (rOrigin r);
  re_delegator : Tx_Delegator t = Ok (rDelegator r);
  re_gas : IntrinsicGas (Tx_Clauses t) = Ok (rIntrinsicGas r);
  re_enough : rIntrinsicGas r ≤ Tx_Gas t;
  re_values : Forall (λ c, 0 ≤ Value c) (Tx_Clauses t);
  re_fees : checkFees t = Ok tt;
}.

Lemma checkValues_ok sum cs : checkValues sum cs = Ok tt → Forall (λ c, 0 ≤ Value c) cs.
Proof.
  revert sum. induction cs as [|c cs IH]; intros sum; [by constructor|]. cbn [checkValues].
  destruct (Z.ltb_spec (Value c) 0); [done|]. destruct (_ <=? _); [done|]. intros Hc. constructor; [done|by eapply IH].
Qed.

Lemma Resolve_ok t r : ResolveTransaction t = Ok r → resolved t r.
Proof.
  unfold ResolveTransaction. destruct (Tx_Origin t) as [o|] eqn:Eo; [|done]. cbn [mbind result_bind].
  destruct (IntrinsicGas _) as [g|] eqn:Eg; [|done]. cbn [mbind result_bind]. destruct (Z.ltb_spec (Tx_Gas t) g) as [|Hle]; [done|].
  destruct (Tx_Delegator t) as [d|] eqn:Ed; [|done]. cbn [mbind result_bind]. destruct (checkValues _ _) as [[]|] eqn:Ev; [|done]. cbn [mbind result_bind].
  destruct (checkFees t) as [[]|] eqn:Ef; [|done]. cbn [mbind result_bind]. intros [= <-]. apply checkValues_ok in Ev. by split.
Qed.

Lemma intrinsic_nonneg t g : tx_ok t → IntrinsicGas (Tx_Clauses t) = Ok g → 0 ≤ g.
Proof.
  intros (_ & Hd & _) Hg. unfold IntrinsicGas in Hg. destruct (length _ =? 0)%nat; [by injection Hg as <-|].
  rewrite clausesGas_spec in Hg by done. cbv zeta in Hg.
  pose proof (sumZ_nonneg clauseCost (Tx_Clauses t) clauseCost_nonneg). destruct (_ <? _); [|done]. injection Hg as <-. unfold TxGas. lia.
Qed.

Lemma sameTo_in to cs to' : sameTo to cs = Some to' → to' = to.
Proof.
  induction cs as [|c cs IH]; simpl; [by intros [= <-]|]. destruct (To c); [|done]. by destruct (negb _).
Qed.

Lemma CommonTo_ok t r to : tx_ok t → resolved t r → CommonTo r = Some to → is160 to.
Proof.
  intros (_ & _ & Hto & _) Hr. unfold CommonTo. rewrite (re_clauses _ _ Hr). destruct (Tx_Clauses t) as [|c cs]; [done|].
  apply Forall_cons in Hto as [Hc _]. destruct (To c) as [a|] eqn:E; [|done]. intros ->%sameTo_in. by apply Hc.
Qed.

(** ** Prices *)
Lemma checkFees_dynamic d : checkFees (DynamicFee d) = Ok tt → 0 ≤ dMaxFeePerGas d ∧ 0 ≤ dMaxPriorityFeePerGas d.
Proof.
  unfold checkFees. change (Tx_Type (DynamicFee d) =? TypeLegacy) with false. cbn [Tx_MaxFeePerGas Tx_MaxPriorityFeePerGas].
  destruct (Z.ltb_spec (dMaxFeePerGas d) 0); [done|]. by destruct (Z.ltb_spec (dMaxPriorityFeePerGas d) 0).
Qed.

Lemma legacy_price_nonneg l base : 0 ≤ lGasPriceCoef l → 0 ≤ base → 0 ≤ legacy_gasPrice l base.
Proof. intros. unfold legacy_gasPrice. pose proof (Z.div_pos (lGasPriceCoef l * base) 255). nia. Qed.

Lemma price_nonneg t baseFee base price : tx_ok t → checkFees t = Ok tt → 0 ≤ base → (∀ f, baseFee = Some f → 0 ≤ f) →
  EffectiveGasPrice t baseFee base = Ok price → 0 ≤ price.
Proof.
  intros (_ & _ & _ & Hc) Hf Hb Hbf. destruct t as [l|d]; cbn [EffectiveGasPrice].
  - intros [= <-]. by apply legacy_price_nonneg.
  - apply checkFees_dynamic in Hf as [? ?]. destruct baseFee as [f|]; [|done]. specialize (Hbf f eq_refl). intros [= <-]. lia.
Qed.

Lemma Effective_stops t baseFee base : stops (EffectiveGasPrice t baseFee base).
Proof. destruct t; [done|]. by destruct baseFee. Qed.

Lemma workToGas_nonneg work n : 0 ≤ work → 0 ≤ workToGas work n.
Proof.
  intros Hw. unfold workToGas, workPerGas. assert (0 ≤ work / 1000) as Hg by (apply Z.div_pos; lia).
  destruct (_ =? 0); [done|]. set (months := _ / 30). set (gas := if negb _ then _ else _).
  assert (0 ≤ gas) as Hgas.
  { unfold gas. destruct (negb _); [|done]. pose proof (Z.pow_nonneg 100 months). pose proof (Z.pow_nonneg 104 months).
    destruct (decide (104 ^ months = 0)) as [->|]; [by rewrite Zdiv_0_r|]. apply Z.div_pos; nia. }
  destruct (_ <=? gas); [by unfold max64|done].
Qed.

Lemma Overall_stops t base work : stops (OverallGasPrice t base work).
Proof. unfold OverallGasPrice. destruct t; [|done]. by repeat apply stops_if. Qed.

Lemma Overall_least l base work price : is64 (lGas l) → 0 ≤ base → 0 ≤ work → OverallGasPrice (Legacy l) base work = Ok price →
  legacy_gasPrice l base ≤ price.
Proof.
  intros Hg Hb Hw. unfold OverallGasPrice. destruct (work =? 0); [by intros [= <-]|].
  pose proof (workToGas_nonneg work (BlockRef_Number (Tx_BlockRef (Legacy l))) Hw) as Hn. set (wgas := workToGas _ _) in *.
  destruct (wgas =? 0); [by intros [= <-]|]. destruct (Z.eqb_spec (lGas l) 0); [done|]. intros [= <-].
  assert (0 ≤ if lGas l <? wgas then lGas l else wgas) by (destruct (_ <? _); [apply Hg|done]).
  pose proof (Z.div_pos ((if lGas l <? wgas then lGas l else wgas) * base) (lGas l)). unfold is64 in Hg. nia.
Qed.

Lemma Overall_nonneg t base work price : tx_ok t → checkFees t = Ok tt → 0 ≤ base → 0 ≤ work →
  OverallGasPrice t base work = Ok price → 0 ≤ price.
Proof.
  intros (Hg & _ & _ & Hc) Hf Hb Hw E. destruct t as [l|d].
  - pose proof (Overall_least l base work price Hg Hb Hw E). pose proof (legacy_price_nonneg l base Hc Hb). lia.
  - apply checkFees_dynamic in Hf as [? ?]. by injection E as <-.
Qed.

Lemma Priority_stops t fee base work : stops (EffectivePriorityFeePerGas t fee base work).
Proof.
  unfold EffectivePriorityFeePerGas. apply stops_bind; [|by intros [? ?] _]. destruct t; [|done].
  apply stops_bind; [apply Overall_stops|done].
Qed.

(** What is paid beyond the base fee, at least; a dynamic fee exactly. *)
Lemma Priority_least t fee base work price p : tx_ok t → 0 ≤ fee → 0 ≤ base → 0 ≤ work →
  EffectiveGasPrice t (Some fee) base = Ok price → fee ≤ price → EffectivePriorityFeePerGas t fee base work = Ok p →
  price - fee ≤ p ∧ (Tx_Type t ≠ TypeLegacy → p = price - fee).
Proof.
  intros (Hg & _ & _ & Hc) Hfee Hb Hw Ep Hle. unfold EffectivePriorityFeePerGas. destruct t as [l|d]; cbn [EffectiveGasPrice] in Ep.
  - injection Ep as <-. destruct (OverallGasPrice _ _ _) as [o|] eqn:Eo; [|done]. cbn [mbind result_bind]. intros [= <-].
    pose proof (Overall_least l base work o Hg Hb Hw Eo). split; [lia|done].
  - injection Ep as <-. cbn [mbind result_bind]. intros [= <-]. split; [lia|]. lia.
Qed.
End tx_facts.

(** ** Executing the clauses *)
Section clauses.
Context `{CFG : Config} `{HRlp : Rlp} `{!RlpSpec} `{HCrypto : Crypto} `{!CryptoSpec} `{HDrlp : Drlp} `{HEnv : StateEnv}.
Context `{SMS : SafeMathSpec} `{SMM : SafeMulSpec}.
Context {isCode : bytes → Prop} `{HSpec : !StateEnvSpec isCode} `{HE : !EnergySpec}.
Variable db : MuxDB.
Variable trie0 : MTrie.
Variable w0 : world.
Variable metaOf : Address → AccountMetadata.
Hypothesis Hbase : loaded (isCode := isCode) db trie0 w0 metaOf.

Local Abbreviation represents := (represents (isCode := isCode) db trie0 w0 metaOf) (only parsing).
Local Abbreviation evm_step := (evm_step (isCode := isCode)) (only parsing).

(** A computation of the EVM with [gas] to spend: it goes through the callbacks of
    the runtime, keeps the revisions it was called on, and may add its own. *)
Definition conducts {A} (t gas : Z) (m : M State A) (out : A → vmResult) : Prop :=
  ∀ s w ws, stays t w → represents s (w :: ws) →
  match m s with
  | Ok (v, s') => 0 ≤ vrLeftOverGas (out v) ≤ gas ∧ 0 ≤ vrRefund (out v) ∧
      ∃ w' vs, represents s' (w' :: vs ++ ws) ∧ rtc (evm_step t) w w'
  | Err e => e ≠ ErrFuel
  end.

Class EvmSpec `{Evm} (ctx : BlockContext) : Prop := {
  evm_Create_conducts : ∀ txCtx i caller data gas value, is64 gas → is160 caller → 0 ≤ value →
    conducts (bcTime ctx) gas (evm_Create ctx txCtx i caller data gas value) fst;
  evm_Call_conducts : ∀ txCtx i caller to data gas value, is64 gas → is160 caller → is160 to → 0 ≤ value →
    conducts (bcTime ctx) gas (evm_Call ctx txCtx i caller to data gas value) id;
}.

Context `{HEvm : Evm} (ctx : BlockContext) `{!EvmSpec ctx}.
Local Abbreviation t := (bcTime ctx) (only parsing).

Lemma checkpoint_ok s w ws : represents s (w :: ws) →
  ∃ s', NewCheckpoint s = Ok (S (length ws), s') ∧ represents s' (w :: w :: ws).
Proof.
  intros (Hc & JJ & Hi & HJJ). destruct (Forall2_cons_inv_r _ _ _ _ HJJ) as (J & Js & HJ & HJs & ->).
  destruct (Push_ok _ _ _ Hi) as [E Hi']. exists (s <| stMap := (Push (stMap s)).2 |>). split.
  - unfold NewCheckpoint. destruct (Push (stMap s)) as [rev sm]. simpl in E. by rewrite E, (Forall2_length _ _ _ HJs).
  - split; [by destruct Hc|]. exists (J :: J :: Js). split; [exact Hi'|by constructor].
Qed.

Lemma revert_ok s w vs w1 ws : represents s (w :: vs ++ w1 :: ws) →
  ∃ s', RevertTo (S (length ws)) s = Ok (tt, s') ∧ represents s' (w1 :: ws).
Proof.
  intros Hs. destruct (step_represents db trie0 w0 metaOf Hbase (OpRevert (S (length ws))) s w (vs ++ w1 :: ws))
    as (s' & w' & ws' & E & Ew & Hs'); [simpl; lia|done|].
  exists s'. split; [exact E|]. cbn [worlds_perform] in Ew.
  replace (length (w :: vs ++ w1 :: ws) - S (length ws))%nat with (length (w :: vs)) in Ew by (simpl; rewrite length_app; simpl; lia).
  change (w :: vs ++ w1 :: ws) with ((w :: vs) ++ w1 :: ws) in Ew. rewrite drop_app_length in Ew. by injection Ew as <- <-.
Qed.

Definition clause_ok (c : Clause) : Prop := 0 ≤ Value c ∧ ∀ to, To c = Some to → is160 to.

Lemma clause_conducts c i gas txCtx s w ws : clause_ok c → is64 gas → is160 (tcOrigin txCtx) → stays t w → represents s (w :: ws) →
  match PrepareClause ctx c i gas txCtx s with
  | Ok (o, s') => 0 ≤ coLeftOverGas o ≤ gas ∧ 0 ≤ coRefundGas o ∧ ∃ w' vs, represents s' (w' :: vs ++ ws) ∧ rtc (evm_step t) w w'
  | Err e => e ≠ ErrFuel
  end.
Proof.
  intros [Hv Hto] Hg Ho Hst Hs. unfold PrepareClause, mbind, M_bind. destruct (To c) as [to|].
  - pose proof (evm_Call_conducts txCtx i (tcOrigin txCtx) to (Data c) gas (Value c) Hg Ho (Hto to eq_refl) Hv s w ws Hst Hs) as Hx.
    by destruct (evm_Call _ _ _ _ _ _ _ _ s) as [[r s']|].
  - pose proof (evm_Create_conducts txCtx i (tcOrigin txCtx) (Data c) gas (Value c) Hg Ho Hv s w ws Hst Hs) as Hx.
    by destruct (evm_Create _ _ _ _ _ _ _ s) as [[[r a] s']|].
Qed.

(** What stays fixed while clauses are executed. *)
Definition fixed (x x' : executor) : Prop :=
  exResolved x' = exResolved x ∧ exPurchase x' = exPurchase x ∧ exTxCtx x' = exTxCtx x ∧ exCheckpoint x' = exCheckpoint x ∧
  exFinalized x' = exFinalized x ∧ 0 ≤ exLeftOverGas x' ≤ exLeftOverGas x.

(** All clauses were executed, or one failed and nothing of them is left. *)
Definition executed (x' : executor) (w1 : world) (ws : list world) (s' : State) : Prop :=
  (exReverted x' = true ∧ exTxOutputs x' = [] ∧ represents s' (w1 :: ws)) ∨
  (exReverted x' = false ∧ length (exTxOutputs x') = length (rClauses (exResolved x')) ∧
   ∃ w' vs, represents s' (w' :: vs ++ w1 :: ws) ∧ rtc (evm_step t) w1 w').

Definition ready (x : executor) (ws : list world) : Prop :=
  exReverted x = false ∧ exCheckpoint x = S (length ws) ∧ is64 (exLeftOverGas x) ∧ is160 (tcOrigin (exTxCtx x)) ∧
  Forall clause_ok (rClauses (exResolved x)).

Lemma refund_bounds left lo refund : 0 ≤ lo ≤ left → is64 left → 0 ≤ refund →
  0 ≤ lo +u64 Z.min ((left -u64 lo) / 2) refund ≤ left.
Proof.
  intros Hlo Hl Hr. rewrite (wrap64_id (left - lo)) by ulia.
  assert (0 ≤ (left - lo) / 2 ≤ left - lo) as Hd.
  { split; [apply Z.div_pos; lia|]. apply Z.div_le_upper_bound; lia. }
  rewrite wrap64_id by ulia. lia.
Qed.

Lemma execNext_ok x s w vs w1 ws : ready x ws → (length (exTxOutputs x) < length (rClauses (exResolved x)))%nat →
  stays t w1 → rtc (evm_step t) w1 w → represents s (w :: vs ++ w1 :: ws) →
  match execNext ctx x s with
  | Ok ((_, x'), s') => fixed x x' ∧
      ((exReverted x' = true ∧ exTxOutputs x' = [] ∧ represents s' (w1 :: ws)) ∨
       (exReverted x' = false ∧ length (exTxOutputs x') = S (length (exTxOutputs x)) ∧
        ∃ w' vs', represents s' (w' :: vs' ++ w1 :: ws) ∧ rtc (evm_step t) w1 w'))
  | Err e => e ≠ ErrFuel
  end.
Proof.
  intros (Hrev & Hcp & Hleft & Ho & Hcs) Hlt Hst Hrtc Hs. unfold execNext.
  destruct (lookup_lt_is_Some_2 _ _ Hlt) as [c Hc]. rewrite Hc.
  assert (clause_ok c) as Hok by (by eapply Forall_lookup_1).
  destruct (steps_keep t w1 w Hrtc Hst) as [Hstw _].
  pose proof (clause_conducts c (wrap32 (Z.of_nat (length (exTxOutputs x)))) (exLeftOverGas x) (exTxCtx x) s w (vs ++ w1 :: ws)
    Hok Hleft Ho Hstw Hs) as Hx.
  unfold mbind at 1, M_bind at 1. destruct (PrepareClause _ _ _ _ _ s) as [[o s1]|]; [|done].
  destruct Hx as (Hlo & Href & w' & vs' & Hs1 & Hrtc'). rewrite app_assoc in Hs1.
  pose proof (refund_bounds _ _ _ Hlo Hleft Href) as Hb. cbv zeta. destruct (coVMErr o).
  - destruct (revert_ok s1 w' (vs' ++ vs) w1 ws Hs1) as (s2 & E2 & Hs2). unfold mbind, M_bind. rewrite Hcp, E2.
    split; [split_and!; try done; apply Hb|]. by left.
  - split; [split_and!; try done; apply Hb|]. right. simpl. split; [done|]. split; [rewrite length_app; simpl; lia|].
    exists w', (vs' ++ vs). split; [done|]. by etrans.
Qed.

Lemma execAll_ok fuel x s w vs w1 ws : ready x ws → (length (exTxOutputs x) ≤ length (rClauses (exResolved x)))%nat →
  (length (rClauses (exResolved x)) ≤ fuel + length (exTxOutputs x))%nat →
  stays t w1 → rtc (evm_step t) w1 w → represents s (w :: vs ++ w1 :: ws) →
  match execAll ctx fuel x s with
  | Ok (x', s') => fixed x x' ∧ executed x' w1 ws s'
  | Err e => e ≠ ErrFuel
  end.
Proof.
  revert x s w vs. induction fuel as [|fuel IH]; intros x s w vs Hr Hle Hf Hst Hrtc Hs; cbn [execAll];
    unfold HasNextClause; pose proof Hr as (Hrev & Hcp & Hleft & Ho & Hcs); rewrite Hrev; cbn [negb andb].
  - destruct (Nat.ltb_spec (length (exTxOutputs x)) (length (rClauses (exResolved x)))); [lia|]. cbn [negb].
    split; [unfold is64 in Hleft; split_and!; (done || lia)|]. right. split; [done|]. split; [lia|]. by exists w, vs.
  - destruct (Nat.ltb_spec (length (exTxOutputs x)) (length (rClauses (exResolved x)))) as [Hlt|]; cbn [negb].
    2: { split; [unfold is64 in Hleft; split_and!; (done || lia)|]. right. split; [done|]. split; [lia|]. by exists w, vs. }
    pose proof (execNext_ok x s w vs w1 ws Hr Hlt Hst Hrtc Hs) as Hn. unfold mbind, M_bind.
    destruct (execNext ctx x s) as [[[[g o] x1] s1]|]; [|done]. destruct Hn as [Hfix Hcase].
    pose proof Hfix as (E1 & E2 & E3 & E4 & E5 & E6).
    destruct Hcase as [(Hrev1 & Hout1 & Hs1)|(Hrev1 & Hout1 & w' & vs' & Hs1 & Hrtc1)].
    + assert (execAll ctx fuel x1 s1 = Ok (x1, s1)) as ->.
      { destruct fuel; cbn [execAll]; unfold HasNextClause; by rewrite Hrev1. }
      split; [done|]. by left.
    + assert (ready x1 ws) as Hr1.
      { split_and!; [done|congruence|unfold is64 in *; lia|by rewrite E3|by rewrite E1]. }
      specialize (IH x1 s1 w' vs' Hr1). rewrite E1, Hout1 in IH. specialize (IH ltac:(lia) ltac:(lia) Hst Hrtc1 Hs1).
      destruct (execAll ctx fuel x1 s1) as [[x2 s2]|]; [|done]. destruct IH as [(F1 & F2 & F3 & F4 & F5 & F6) Hex].
      split; [|done]. split_and!; [congruence..|lia|lia].
Qed.

(** ** The purchase *)
Hypothesis Hfee : ∀ f, bcBaseFee ctx = Some f → 0 ≤ f.
Hypothesis Haddr : ∀ pub, is160 (pubkeyToAddress pub).

Lemma Origin_is160 trx a : Tx_Origin trx = Ok a → is160 a.
Proof. unfold Tx_Origin. destruct (negb _); [done|]. destruct (sigToPub _ _); [|done]. intros [= <-]. apply Haddr. Qed.

Lemma Delegator_is160 trx a : Tx_Delegator trx = Ok (Some a) → is160 a.
Proof.
  unfold Tx_Delegator. destruct (negb _); [done|]. destruct (negb _); [done|]. destruct (Tx_Origin trx); [|done].
  cbn [mbind result_bind]. destruct (sigToPub _ _); [|done]. intros [= <-]. apply Haddr.
Qed.

Record bought (r : ResolvedTransaction) (p : purchase) (w w1 : world) : Prop := {
  bo_base : 0 ≤ puLegacyTxBaseGasPrice p;
  bo_price : EffectiveGasPrice (rTx r) (bcBaseFee ctx) (puLegacyTxBaseGasPrice p) = Ok (puEffectiveGasPrice p);
  bo_nonneg : 0 ≤ puEffectiveGasPrice p;
  bo_fee : ∀ f, bcBaseFee ctx = Some f → f ≤ puEffectiveGasPrice p;
  bo_purchased : purchased (isCode := isCode) db trie0 w0 metaOf t (Tx_Gas (rTx r) * puEffectiveGasPrice p) p w w1;
  bo_delegator : ∀ d, rDelegator r = Some d → puPayer p = d;
  bo_origin : rDelegator r = None → CommonTo r = None → puPayer p = rOrigin r;
}.

Local Abbreviation moves := (moves (isCode := isCode) db trie0 w0 metaOf) (only parsing).

Lemma params_moves key w (Q : Z → world → Prop) : is256 key → (∀ v, 0 ≤ v → Q v w) → moves (params_Get db key) w Q.
Proof.
  intros Hk HQ. apply moves_decode; [done|apply ParamsAddress_ok|done| |].
  - unfold bigOf. apply stops_if; [done|apply decoded_stops].
  - intros v Hv. apply HQ. by eapply bigOf_nonneg.
Qed.

Lemma plain_moves base price prepaid payer e w (Q : purchase → world → Prop) : stays t w → 0 ≤ price → 0 ≤ prepaid →
  is160 payer → inst_ok t e w →
  (∀ p w1, puLegacyTxBaseGasPrice p = base → puEffectiveGasPrice p = price → puPayer p = payer →
     purchased (isCode := isCode) db trie0 w0 metaOf t prepaid p w w1 → Q p w1) →
  moves ('(sufficient, e) ← onEnergy e (energy_Sub db payer prepaid);
    if sufficient : bool then mret (MkPurchase base price payer prepaid (returnPlain db e payer price))
    else fail errInsufficient) w Q.
Proof.
  intros Hst Hp Hpre Hpayer He HQ. apply moves_bind. apply (sub_moves db trie0 w0 metaOf Hbase t); [done..| |].
  - intros e' w' Hpay He'. apply moves_ret. destruct (pays_ledger t payer _ w w' Hst Hpayer Hpay) as [L' HL'].
    apply HQ; [done..|]. split_and!; [done..|by eapply plain_refunds].
  - intros e' _. by apply moves_fail.
Qed.

Lemma BuyGas_moves trx r w : tx_ok trx → resolved trx r → stays t w → moves (BuyGas db r t (bcBaseFee ctx)) w (λ p w1, bought r p w w1).
Proof.
  intros Htx Hr Hst. unfold BuyGas. rewrite (re_tx _ _ Hr).
  assert (is160 (rOrigin r)) as Ho by (eapply Origin_is160, re_origin, Hr).
  apply moves_bind, params_moves; [unfold is256; split; [vm_compute; done|vm_compute; done]|]. intros base Hb.
  apply moves_bind, moves_lift; [apply Effective_stops|]. intros price Eprice.
  assert (0 ≤ price) as Hp by (eapply price_nonneg; [done|apply Hr|done..]).
  assert (0 ≤ Tx_Gas trx * price) as Hpre by (destruct Htx as [[? _] _]; nia).
  assert (∀ p w1, puLegacyTxBaseGasPrice p = base → puEffectiveGasPrice p = price → (∀ f, bcBaseFee ctx = Some f → f ≤ price) →
    purchased (isCode := isCode) db trie0 w0 metaOf t (Tx_Gas trx * price) p w w1 →
    (∀ d, rDelegator r = Some d → puPayer p = d) → (rDelegator r = None → CommonTo r = None → puPayer p = rOrigin r) →
    bought r p w w1) as Hbought.
  { intros p w1 E1 E2 Hf Hpur Hd Hor. split; rewrite ?E1, ?E2, ?(re_tx _ _ Hr); done. }
  assert (∀ (m : M State purchase), ((∀ f, bcBaseFee ctx = Some f → f ≤ price) → moves m w (λ p w1, bought r p w w1)) →
    moves (reject (match bcBaseFee ctx with Some fee => price <? fee | None => false end) (ErrInternal "gas price is less than block base fee");; m) w
      (λ p w1, bought r p w w1)) as Hrej.
  { intros m Hm. apply moves_bind. unfold reject. destruct (bcBaseFee ctx) as [f|]; [|apply moves_ret, Hm; done].
    destruct (Z.ltb_spec price f); [by apply moves_fail|]. apply moves_ret, Hm. by intros f' [= <-]. }
  apply Hrej. clear Hrej. intros Hf. destruct (rDelegator r) as [d|] eqn:Ed.
  - apply plain_moves; [done|done|done| |apply inst_new|].
    + eapply Delegator_is160. rewrite <- Ed. apply Hr.
    + intros p w1 E1 E2 E3 Hpur. apply Hbought; [done..| |done]. intros d' [= <-]. done.
  - apply moves_bind. apply (credit_moves db trie0 w0 metaOf Hbase t); [done|apply inst_new|done|done| | |].
    + intros to. by eapply CommonTo_ok.
    + intros e' He'. apply plain_moves; [done..|]. intros p w1 E1 E2 E3 Hpur. by apply Hbought.
    + intros p e' w' [to Hto] E1 E2 Hpur. apply moves_ret. apply Hbought; [done..|]. intros _. by rewrite Hto.
Qed.

(** ** The receipt *)
Variable repo : ChainRepo.
Variable headID : Bytes32.
Variable forkConfig : ForkConfig.

Definition reward_ok (trx : Transaction) (price gasUsed reward : Z) : Prop :=
  0 ≤ reward ∧ (GALACTICA forkConfig ≤ bcNumber ctx → ∀ f, bcBaseFee ctx = Some f →
    (price - f) * gasUsed ≤ reward ∧ (Tx_Type trx ≠ TypeLegacy → reward = (price - f) * gasUsed)).

Lemma reward_moves trx r p w w1 x gasUsed w2 (Q : Z → world → Prop) : tx_ok trx → resolved trx r → bought r p w w1 →
  exPurchase x = p → 0 ≤ tcProvedWork (exTxCtx x) → 0 ≤ gasUsed →
  (∀ reward, reward_ok trx (puEffectiveGasPrice p) gasUsed reward → Q reward w2) →
  moves (txReward db repo headID ctx forkConfig x trx gasUsed) w2 Q.
Proof.
  intros Htx Hr Hbo Ep Hwork Hg HQ. pose proof (re_fees _ _ Hr) as Hfees. pose proof (re_tx _ _ Hr) as Etx.
  unfold txReward. rewrite Ep. destruct (Z.ltb_spec (bcNumber ctx) (GALACTICA forkConfig)) as [Hlt|Hge].
  - apply moves_bind, moves_lift; [apply ProvedWork_stops; intros; apply GetBlockID_stops|]. intros work Ework.
    apply moves_bind, moves_lift; [apply Overall_stops|]. intros overall Eov.
    pose proof (Overall_nonneg trx _ work overall Htx Hfees (bo_base _ _ _ _ Hbo) (ProvedWork_nonneg _ _ _ _ Ework) Eov).
    apply moves_bind, params_moves; [unfold is256; split; [vm_compute; done|vm_compute; done]|]. intros ratio Hratio.
    apply moves_ret, HQ. split; [|lia]. apply Z.div_pos; [nia|done].
  - destruct (bcBaseFee ctx) as [f|] eqn:Ef; [|by apply moves_fail].
    apply moves_bind, moves_lift; [apply Priority_stops|]. intros fee Efee. apply moves_ret, HQ.
    pose proof (bo_fee _ _ _ _ Hbo f Ef) as Hle. pose proof (bo_price _ _ _ _ Hbo) as Hprice. rewrite Ef, Etx in Hprice.
    destruct (Priority_least trx f _ _ _ fee Htx (Hfee f eq_refl) (bo_base _ _ _ _ Hbo) Hwork Hprice Hle Efee) as [Hleast Hexact].
    split; [nia|]. intros _ f' Ef'. rewrite Ef in Ef'. injection Ef' as <-. split; [nia|]. intros Hdyn. rewrite (Hexact Hdyn). lia.
Qed.

Lemma native_add_moves w a amount (Q : unit → world → Prop) : stays t w → is160 a → 0 ≤ amount →
  (∀ w', pays t a amount w w' → Q tt w') → moves (nativeEnergy t (energy_Add db a amount)) w Q.
Proof.
  intros Hst Ha Hamt HQ s ws Hs.
  pose proof (add_moves db trie0 w0 metaOf Hbase t (NewEnergy t) w a amount (λ _ w', pays t a amount w w') Hst (inst_new t w) Ha Hamt
    (λ _ _ Hpay, Hpay) s ws Hs) as Hx.
  unfold onEnergy in Hx. unfold nativeEnergy. destruct (energy_Add db a amount _) as [[[] y]|]; [|done].
  destruct Hx as (w' & Hs' & Hpay). exists w'. eauto.
Qed.

(** The receipt of an execution that is over. *)
Definition settles (trx : Transaction) (p : purchase) (x : executor) (w2 : world) (rc : Receipt) (w' : world) : Prop :=
  rcGasUsed rc = Tx_Gas trx - exLeftOverGas x ∧ rcGasPayer rc = puPayer p ∧ rcPaid rc = rcGasUsed rc * puEffectiveGasPrice p ∧
  rcReverted rc = exReverted x ∧ rcOutputs rc = exTxOutputs x ∧ rcType rc = Tx_Type trx ∧
  reward_ok trx (puEffectiveGasPrice p) (rcGasUsed rc) (rcReward rc) ∧
  ∃ w3, returned t (puPayer p) (exLeftOverGas x * puEffectiveGasPrice p) w2 w3 ∧ pays t (bcBeneficiary ctx) (rcReward rc) w3 w'.

Hypothesis Hben : is160 (bcBeneficiary ctx).

Lemma Finalize_moves trx r p w w1 x w2 : tx_ok trx → resolved trx r → bought r p w w1 →
  exResolved x = r → exPurchase x = p → exFinalized x = false → HasNextClause x = false → 0 ≤ tcProvedWork (exTxCtx x) →
  0 ≤ exLeftOverGas x ≤ Tx_Gas trx → stays t w2 → stopSlot w2 = stopSlot w1 →
  moves (Finalize db repo headID ctx forkConfig x) w2 (λ '(rc, _) w', settles trx p x w2 rc w').
Proof.
  intros Htx Hr Hbo Er Ep Hfin Hnext Hwork Hleft Hst Hstop. unfold Finalize. rewrite Hnext, Hfin, Er, Ep, (re_tx _ _ Hr).
  destruct (bo_purchased _ _ _ _ Hbo) as (Hpayer & _ & _ & Hrefund).
  assert (Tx_Gas trx -u64 exLeftOverGas x = Tx_Gas trx - exLeftOverGas x) as Eused by (destruct Htx as [? _]; apply wrap64_id; ulia).
  apply moves_bind. eapply moves_weaken; [apply Hrefund; [lia|done..]|]. intros [] w3 Hret.
  destruct (returned_keeps t _ _ w2 w3 Hst Hpayer Hret) as [Hst3 _].
  apply moves_bind. eapply reward_moves; [done..|rewrite Eused; lia|]. intros reward Hrew.
  apply moves_bind. apply native_add_moves; [done|done|apply Hrew|]. intros w' Hpay. apply moves_ret.
  unfold settles. cbn [rcGasUsed rcGasPayer rcPaid rcReverted rcOutputs rcType rcReward].
  split_and!; try done. by exists w3.
Qed.

(** What a receipt says of the worlds between: [w1] after the purchase, [w2] after
    the clauses, [w'] at the end. *)
Record accounted (trx : Transaction) (rc : Receipt) (w w1 w2 w' : world) (gas0 price : Z) : Prop := {
  ac_intrinsic : IntrinsicGas (Tx_Clauses trx) = Ok gas0;
  ac_gas : gas0 ≤ rcGasUsed rc ≤ Tx_Gas trx;
  ac_paid : rcPaid rc = rcGasUsed rc * price;
  ac_address : is160 (rcGasPayer rc);
  ac_payer : match Tx_Delegator trx with Ok (Some d) => rcGasPayer rc = d | _ => True end;
  ac_charged : pays t (rcGasPayer rc) (- (Tx_Gas trx * price)) w w1;
  ac_clauses : if rcReverted rc then w2 = w1 ∧ rcOutputs rc = []
               else rtc (evm_step t) w1 w2 ∧ length (rcOutputs rc) = length (Tx_Clauses trx);
  ac_settled : ∃ w3, returned t (rcGasPayer rc) ((Tx_Gas trx - rcGasUsed rc) * price) w2 w3 ∧
                     pays t (bcBeneficiary ctx) (rcReward rc) w3 w';
  ac_reward : reward_ok trx price (rcGasUsed rc) (rcReward rc);
}.

Lemma Prepare_ok trx s w ws : tx_ok trx → stays t w → represents s (w :: ws) →
  match PrepareTransaction db repo headID ctx trx s with
  | Err e => e ≠ ErrFuel
  | Ok (x, s1) => ∃ r p w1, resolved trx r ∧ bought r p w w1 ∧ exResolved x = r ∧ exPurchase x = p ∧ exFinalized x = false ∧
      exTxOutputs x = [] ∧ ready x ws ∧ exLeftOverGas x = Tx_Gas trx - rIntrinsicGas r ∧ 0 ≤ rIntrinsicGas r ∧
      0 ≤ tcProvedWork (exTxCtx x) ∧ represents s1 (w1 :: w1 :: ws)
  end.
Proof.
  intros Htx Hst Hs. unfold PrepareTransaction. unfold mbind at 1, M_bind at 1, lift at 1.
  pose proof (Resolve_stops trx) as Hstop. destruct (ResolveTransaction trx) as [r|e] eqn:Er; [|by intros ->].
  apply Resolve_ok in Er. unfold mbind at 1, M_bind at 1.
  pose proof (BuyGas_moves trx r w Htx Er Hst s ws Hs) as Hb. destruct (BuyGas _ _ _ _ s) as [[p s1]|]; [|done].
  destruct Hb as (w1 & Hs1 & Hbo). unfold mbind at 1, M_bind at 1, lift at 1. unfold ToContext.
  pose proof (ProvedWork_stops (rTx r) (bcNumber ctx) (GetBlockID repo headID) ltac:(intros; apply GetBlockID_stops)) as Hps.
  destruct (ProvedWork _ _ _) as [work|e] eqn:Ework; cbn [mbind result_bind]; [|by intros ->].
  unfold mbind, M_bind. destruct (checkpoint_ok s1 w1 ws Hs1) as (s2 & E2 & Hs2). rewrite E2.
  pose proof (intrinsic_nonneg trx _ Htx (re_gas _ _ Er)) as Hi. pose proof (re_enough _ _ Er) as Hen. destruct Htx as (Hg & _ & Hto & _).
  assert (Tx_Gas trx -u64 rIntrinsicGas r = Tx_Gas trx - rIntrinsicGas r) as Eleft by (apply wrap64_id; ulia).
  exists r, p, w1. split_and!; try done; [|by eapply ProvedWork_nonneg].
  split_and!; try done; simpl.
  - rewrite Eleft. unfold is64 in *. lia.
  - eapply Origin_is160, re_origin, Er.
  - rewrite (re_clauses _ _ Er). apply Forall_and. split; [apply Er|done].
Qed.

Lemma executed_done x w1 ws s : executed x w1 ws s → HasNextClause x = false.
Proof.
  intros [(Hrev & _)|(_ & Hl & _)]; unfold HasNextClause; [by rewrite Hrev|]. rewrite Hl, Nat.ltb_irrefl. apply andb_false_r.
Qed.

Lemma Finalize_ok trx r p w w1 x0 x w2 us s : tx_ok trx → resolved trx r → stays t w → bought r p w w1 →
  exResolved x0 = r → exPurchase x0 = p → exFinalized x0 = false → exLeftOverGas x0 = Tx_Gas trx - rIntrinsicGas r →
  0 ≤ rIntrinsicGas r → 0 ≤ tcProvedWork (exTxCtx x0) → fixed x0 x → HasNextClause x = false →
  (if exReverted x then w2 = w1 ∧ exTxOutputs x = []
   else rtc (evm_step t) w1 w2 ∧ length (exTxOutputs x) = length (rClauses (exResolved x))) →
  represents s (w2 :: us) →
  match Finalize db repo headID ctx forkConfig x s with
  | Err e => e ≠ ErrFuel
  | Ok ((rc, _), s') => ∃ w' gas0 price, accounted trx rc w w1 w2 w' gas0 price ∧ represents s' (w' :: us) ∧ stays t w'
  end.
Proof.
  intros Htx Hr Hst Hbo Er0 Ep0 Hf0 Hl0 Hi Hwork (Er & Ep & Ec & _ & Hf & Hleft) Hnext Hcl Hs.
  pose proof (bo_purchased _ _ _ _ Hbo) as (Hpayer & _ & Hcharge & _).
  destruct (pays_keeps t _ _ w w1 Hst Hpayer Hcharge) as [Hst1 _].
  assert (rtc (evm_step t) w1 w2) as Hrtc by (destruct (exReverted x); [by destruct Hcl as [-> _]|apply Hcl]).
  destruct (steps_keep t w1 w2 Hrtc Hst1) as [Hst2 Hstop]. pose proof (re_enough _ _ Hr) as Hen.
  pose proof (Finalize_moves trx r p w w1 x w2 Htx Hr Hbo ltac:(congruence) ltac:(congruence) ltac:(congruence) Hnext
    ltac:(by rewrite Ec) ltac:(lia) Hst2 Hstop s us Hs) as Hx.
  destruct (Finalize _ _ _ _ _ x s) as [[[rc x'] s']|]; [|done]. destruct Hx as (w' & Hs' & Hset).
  destruct Hset as (Eused & Epayer & Epaid & Erev & Eout & _ & Hrew & w3 & Hret & Hpay).
  exists w', (rIntrinsicGas r), (puEffectiveGasPrice p). split; [|split; [done|]].
  - split.
    + apply Hr.
    + lia.
    + done.
    + by rewrite Epayer.
    + rewrite (re_delegator _ _ Hr). destruct (rDelegator r) as [d|] eqn:Ed; [|done]. rewrite Epayer. by apply (bo_delegator _ _ _ _ Hbo).
    + rewrite Epayer. by rewrite (re_tx _ _ Hr) in Hcharge.
    + rewrite Erev, Eout. destruct (exReverted x); [done|]. rewrite Er, Er0, (re_clauses _ _ Hr) in Hcl. done.
    + exists w3. rewrite Epayer, Eused. replace (Tx_Gas trx - (Tx_Gas trx - exLeftOverGas x)) with (exLeftOverGas x) by lia. done.
    + done.
  - destruct (returned_keeps t _ _ w2 w3 Hst2 Hpayer Hret) as [Hst3 _]. by apply (pays_keeps t _ _ w3 w' Hst3 Hben Hpay).
Qed.

Lemma execute_accounted (trx : Transaction) (s : State) (w : world) (ws : list world) :
  tx_ok trx → stays t w → represents s (w :: ws) →
  match runtime_ExecuteTransaction db repo headID ctx forkConfig trx s with
  | Err e => e ≠ ErrFuel
  | Ok (rc, s') => ∃ w1 w2 w' vs gas0 price, accounted trx rc w w1 w2 w' gas0 price ∧
      represents s' (w' :: vs ++ ws) ∧ stays t w'
  end.
Proof.
  intros Htx Hst Hs. unfold runtime_ExecuteTransaction. pose proof (Prepare_ok trx s w ws Htx Hst Hs) as Hp.
  unfold mbind, M_bind. destruct (PrepareTransaction _ _ _ _ trx s) as [[x0 s1]|]; [|done].
  destruct Hp as (r & p & w1 & Hr & Hbo & Er & Ep & Hf & Hout & Hready & Hl & Hi & Hwork & Hs1).
  pose proof (bo_purchased _ _ _ _ Hbo) as (Hpayer & _ & Hcharge & _).
  destruct (pays_keeps t _ _ w w1 Hst Hpayer Hcharge) as [Hst1 _].
  assert (rClauses (exResolved x0) = Tx_Clauses trx) as Ecl by (rewrite Er; apply Hr).
  pose proof (execAll_ok (length (Tx_Clauses trx)) x0 s1 w1 [] w1 ws Hready) as Hx. rewrite Hout, Ecl in Hx.
  specialize (Hx ltac:(simpl; lia) ltac:(lia) Hst1 ltac:(done) Hs1).
  destruct (execAll _ _ x0 s1) as [[x s2]|]; [|done]. destruct Hx as [Hfix Hex]. pose proof (executed_done _ _ _ _ Hex) as Hnext.
  pose proof (λ w2 us, Finalize_ok trx r p w w1 x0 x w2 us s2 Htx Hr Hst Hbo Er Ep Hf Hl Hi Hwork Hfix Hnext) as Hfin.
  destruct Hex as [(Hrev & Hnil & Hs2)|(Hrev & Hlen & w2 & vs & Hs2 & Hrtc)]; rewrite Hrev in Hfin.
  - specialize (Hfin w1 ws (conj eq_refl Hnil) Hs2). destruct (Finalize _ _ _ _ _ x s2) as [[[rc x'] s']|]; [|done].
    destruct Hfin as (w' & gas0 & price & Hac & Hs' & Hst'). by exists w1, w1, w', [], gas0, price.
  - specialize (Hfin w2 (vs ++ w1 :: ws) (conj Hrtc Hlen) Hs2). destruct (Finalize _ _ _ _ _ x s2) as [[[rc x'] s']|]; [|done].
    destruct Hfin as (w' & gas0 & price & Hac & Hs' & Hst'). exists w1, w2, w', (vs ++ [w1]), gas0, price.
    rewrite <- app_assoc. done.
Qed.

(** C14: Executing a transaction on a state with right books succeeds or reports an
    error (the loop over the clauses ends).  On success the gas used is at least the
    intrinsic gas and at most what the transaction provides; the payer, who is the
    delegator if there is one, is charged for all the gas before the clauses run
    and gets back the price of what they leave, so that it pays [rcPaid]; if a
    clause fails nothing of any clause is left, and otherwise there is an output
    for each; the beneficiary gets the reward, which from GALACTICA on is at least
    what the price has over the base fee, and exactly that for a dynamic fee.  The
    books of the energy token are right again.  Assumed: the state is on a loaded
    database, the base fee is not negative, addresses have 160 bits, and the EVM
    conducts itself ([EvmSpec]): it returns no more gas than it got and changes the
    state by the callbacks of the runtime and by writes that leave the books of the
    token alone. *)
Theorem transaction_pays_for_gas (trx : Transaction) (s : State) (w : world) (ws : list world) :
  tx_ok trx → stays t w → represents s (w :: ws) →
  match runtime_ExecuteTransaction db repo headID ctx forkConfig trx s with
  | Err e => e ≠ ErrFuel
  | Ok (rc, s') => ∃ w1 w2 w' vs gas0 price, accounted trx rc w w1 w2 w' gas0 price ∧
      represents s' (w' :: vs ++ ws) ∧ stays t w'
  end.
Proof. apply execute_accounted. Qed.

Lemma get_returns s w ws L a : represents s (w :: ws) → has_ledger w L → is160 a →
  returns (nativeEnergy t (energy_Get db a)) s (CalcEnergy (acct w a) t (stopAt L)).
Proof.
  intros Hs HL Ha. destruct (native_Get_acts db trie0 w0 metaOf Hbase t w L a HL Ha s ws Hs) as (s' & E & _). by exists s'.
Qed.

(** The worlds before and after a transaction that was reverted. *)
Lemma reverted_effect trx rc w w1 w2 w' gas0 price L : accounted trx rc w w1 w2 w' gas0 price → rcReverted rc = true →
  stays t w → has_ledger w L → ∃ L', has_ledger w' L' ∧ stopAt L' = stopAt L ∧
  effect t (stopAt L) (λ a, (if a =? rcGasPayer rc then - rcPaid rc else 0) + (if a =? bcBeneficiary ctx then rcReward rc else 0)) w w'.
Proof.
  intros [_ _ Hpaid Haddr' _ Hcharge Hcl (w3 & Hret & Hrew) _] Hrev Hst HL. rewrite Hrev in Hcl. destruct Hcl as [-> _].
  destruct (pays_keeps t _ _ w w1 Hst Haddr' Hcharge) as [Hst1 E1]. destruct (returned_keeps t _ _ w1 w3 Hst1 Haddr' Hret) as [Hst3 E3].
  destruct (pays_keeps t _ _ w3 w' Hst3 Hben Hrew) as [Hst' E'].
  assert (∀ w4, stays t w4 → ∃ L4, has_ledger w4 L4) as Hled by (intros w4 (L4 & Hok & _); exists L4; apply Hok).
  destruct (Hled w1 Hst1) as [L1 HL1]. destruct (Hled w3 Hst3) as [L3 HL3]. destruct (Hled w' Hst') as [L' HL'].
  pose proof (stopAt_same _ _ _ _ HL HL1 E1) as S1. pose proof (stopAt_same _ _ _ _ HL1 HL3 E3) as S3.
  pose proof (stopAt_same _ _ _ _ HL3 HL' E') as S'. exists L'. split; [done|]. split; [congruence|].
  pose proof (pays_effect _ _ _ _ _ _ HL Hcharge) as F1. pose proof (returned_effect _ _ _ _ _ _ HL1 Hret) as F3.
  pose proof (pays_effect _ _ _ _ _ _ HL3 Hrew) as F'. rewrite S1 in F3. rewrite S3, S1 in F'.
  destruct (effect_trans _ _ _ _ _ _ _ (effect_trans _ _ _ _ _ _ _ F1 F3) F') as [G1 G2 G3 G4]. split; [|done..].
  intros b. rewrite G1, Hpaid. destruct (b =? rcGasPayer rc); lia.
Qed.

(** C15: A transaction whose clause fails costs its gas and nothing else: the energy
    of every account is what it was, less [rcPaid] for the payer and plus the reward
    for the beneficiary, and balances, code and storage are what they were, except
    the storage of the contracts of the energy token and of user credits.  The
    database, the base fee, addresses and the EVM are as for a transaction that
    succeeds: loaded, not negative, of 160 bits, and [EvmSpec]. *)
Theorem failed_clause_costs_gas (trx : Transaction) (s s' : State) (w : world) (ws : list world) (rc : Receipt) (a : Address) :
  tx_ok trx → stays t w → represents s (w :: ws) →
  runtime_ExecuteTransaction db repo headID ctx forkConfig trx s = Ok (rc, s') → rcReverted rc = true → is160 a →
  rcOutputs rc = [] ∧
  ∃ before, returns (nativeEnergy t (energy_Get db a)) s before ∧
    returns (nativeEnergy t (energy_Get db a)) s'
      (before - (if a =? rcGasPayer rc then rcPaid rc else 0) + (if a =? bcBeneficiary ctx then rcReward rc else 0)) ∧
    (∃ balance, returns (GetBalance db a) s balance ∧ returns (GetBalance db a) s' balance) ∧
    (∃ c, returns (GetCode db a) s c ∧ returns (GetCode db a) s' c) ∧
    (a ≠ EnergyAddress → a ≠ PrototypeAddress → ∀ k, is256 k →
       ∃ raw, returns (GetRawStorage db a k) s raw ∧ returns (GetRawStorage db a k) s' raw).
Proof.
  intros Htx Hst Hs E Hrev Ha. pose proof (execute_accounted trx s w ws Htx Hst Hs) as Hx. rewrite E in Hx.
  destruct Hx as (w1 & w2 & w' & vs & gas0 & price & Hac & Hs' & Hst'). pose proof (ac_clauses _ _ _ _ _ _ _ _ Hac) as Hcl.
  rewrite Hrev in Hcl. destruct Hcl as [_ Hout]. split; [done|]. pose proof Hst as (L & Hok & _). pose proof (so_ledger _ _ _ _ Hok) as HL.
  destruct (reverted_effect _ _ _ _ _ _ _ _ L Hac Hrev Hst HL) as (L' & HL' & Estop & [G1 G2 G3 G4]).
  pose proof (represents_reads db trie0 w0 metaOf s w ws a Hbase Hs Ha) as R.
  pose proof (represents_reads db trie0 w0 metaOf s' w' (vs ++ ws) a Hbase Hs' Ha) as R'.
  exists (CalcEnergy (acct w a) t (stopAt L)). split_and!.
  - by eapply get_returns.
  - pose proof (get_returns s' w' _ L' a Hs' HL' Ha) as Hget. rewrite Estop, G1 in Hget.
    replace (_ - _ + _) with (CalcEnergy (acct w a) t (stopAt L) +
      ((if a =? rcGasPayer rc then - rcPaid rc else 0) + (if a =? bcBeneficiary ctx then rcReward rc else 0)))
      by (destruct (a =? rcGasPayer rc); lia). done.
  - exists (Balance (acct w a)). split; [apply R|]. rewrite <- (G2 a). apply R'.
  - exists (code w a). split; [apply R|]. rewrite <- (G3 a). apply R'.
  - intros Hne Hnp k Hk. exists (slot w a k). split; [by apply R|]. rewrite <- (G4 a k) by done. by apply R'.
Qed.
End clauses.

(** ** Witnesses

    Account 1 sends 5 tokens to account 2 with a dynamic fee, in a block with a base
    fee of 2.  The EVM moves the tokens, and fails after that when the clause has
    data. *)
#[local] Existing Instances energy_Rlp energy_RlpSpec state_Crypto state_CryptoSpec state_Drlp state_Env energy_EnvSpec energy_EnergySpec.
#[local] Existing Instances go_SafeMath go_SafeMathSpec demo_SafeMul demo_SafeMulSpec.

Definition run_Evm : Evm := {|
  evm_Create _ _ _ _ _ _ _ := mret (MkVmResult [] 0 (Some (ErrInternal "no contracts")) 0 [] [], 0);
  evm_Call ctx _ _ caller to data gas value :=
    ok ← CanTransfer db0 caller value;
    if negb ok then mret (MkVmResult [] gas (Some (ErrInternal "insufficient balance for transfer")) 0 [] []) else
    evm_Transfer db0 (bcTime ctx) caller to value;;
    mret (match data with
          | [] => MkVmResult [] gas None 0 [] []
          | _ => MkVmResult [] 0 (Some (ErrInternal "execution reverted")) 0 [] []
          end);
|}.
#[local] Existing Instance run_Evm.

Abbreviation run_trie := (NewTrie db0 AccountTrieName 0 (MkVersion 0 0)).
Abbreviation run_represents' := (represents (isCode := demoCode) db0 run_trie world0 (λ _, metadata0)).

Definition run_base : loaded (isCode := demoCode) db0 run_trie world0 (λ _, metadata0) := ws_loaded _ _ _ _ _ _ db0_well_stored.

(** A transfer moves the world as the runtime's callback says. *)
Lemma run_call_acts ctx txCtx i caller to data gas value w L : has_ledger w L → is160 caller → is160 to → 0 ≤ value →
  ∃ v w', sacts (isCode := demoCode) db0 run_trie world0 (λ _, metadata0) (evm_Call ctx txCtx i caller to data gas value) w v w' ∧
    (vrLeftOverGas v = gas ∨ vrLeftOverGas v = 0) ∧ vrRefund v = 0 ∧ rtc (evm_step (isCode := demoCode) (bcTime ctx)) w w'.
Proof.
  intros HL Hc Ht Hv. cbn [evm_Call run_Evm]. destruct (Z.leb_spec value (Balance (acct w caller))) as [Hle|Hgt].
  - exists (match data with [] => MkVmResult [] gas None 0 [] [] | _ => MkVmResult [] 0 (Some (ErrInternal "execution reverted")) 0 [] [] end),
      (if value =? 0 then w else w_transfer (bcTime ctx) (stopAt L) caller to value w). split; [|split; [|split]].
    + eapply sacts_bind; [eapply sacts_bind; [by apply (GetBalance_acts _ _ _ _ run_base)|apply sacts_ret]|].
      rewrite (proj2 (Z.leb_le _ _)) by lia. cbn [negb]. eapply sacts_bind; [|apply sacts_ret].
      destruct (Z.eqb_spec value 0) as [->|Hne]; [apply sacts_ret|by apply (evm_Transfer_acts _ _ _ _ run_base)].
    + destruct data; [by left|by right].
    + by destruct data.
    + destruct (value =? 0); [apply rtc_refl|]. apply rtc_once. by apply (ev_transfer _ _ L).
  - exists (MkVmResult [] gas (Some (ErrInternal "insufficient balance for transfer")) 0 [] []), w. split; [|split; [by left|split; [done|apply rtc_refl]]].
    eapply sacts_bind; [eapply sacts_bind; [by apply (GetBalance_acts _ _ _ _ run_base)|apply sacts_ret]|].
    rewrite (proj2 (Z.leb_gt _ _)) by lia. apply sacts_ret.
Qed.

Lemma run_EvmSpec ctx : EvmSpec (isCode := demoCode) db0 run_trie world0 (λ _, metadata0) ctx.
Proof.
  split.
  - intros txCtx i caller data gas value [? ?] _ _ s w ws _ Hs. cbn. split; [lia|]. split; [done|]. exists w, []. split; [done|apply rtc_refl].
  - intros txCtx i caller to data gas value [? ?] Hc Ht Hv s w ws (L & Hok & _) Hs.
    destruct (run_call_acts ctx txCtx i caller to data gas value w L) as (v & w' & Ha & Hg & Hr & Hst); try done; [apply Hok|].
    destruct (Ha s ws Hs) as (s' & E & Hs'). rewrite E. unfold id. rewrite Hr. split; [lia|]. split; [done|]. by exists w', [].
Qed.

Definition run_config : Config := MkConfig 10 2 8 100 4 4 8 16 2 2.
#[local] Existing Instance run_config.

Definition run_ctx : BlockContext := MkContext 3 7 1 100 10000000 1 (Some 2).
Definition run_header : Header := MkHeader 0 0 0 0 0 0 (MkTxsRootFeatures 0 0) 0 0 [] (MkExtension [] false None).
Definition run_repo : ChainRepo := MkChainRepo ∅ ∅ ∅ ∅ ∅ (MkBlockSummary run_header [] 0 0) 0.
Definition run_tx (data : bytes) : Transaction :=
  DynamicFee (MkDynamicFee 1 0 10 [MkClause (Some 2) (5 * AccountState.bigE18) data] 1 3 30000 None 0 (MkReserved 0 []) (1 :: replicate 64 0)).
Definition run_execute (data : bytes) : result (Receipt * State) :=
  runtime_ExecuteTransaction db0 run_repo 0 run_ctx SoloFork (run_tx data) genesisState.

Definition run_state (data : bytes) : State := match run_execute data with Ok (_, s) => s | Err _ => genesisState end.
Definition run_receipt (gasUsed : Z) (reverted : bool) : Receipt :=
  MkReceipt 81 gasUsed 1 (3 * gasUsed) gasUsed reverted (if reverted then [] else [MkOutput [] []]).

Lemma run_succeeds : run_execute [] = Ok (run_receipt 21000 false, run_state []).
Proof. vm_compute. reflexivity. Qed.
Lemma run_fails : run_execute [1] = Ok (run_receipt 30000 true, run_state [1]).
Proof. vm_compute. reflexivity. Qed.

Lemma run_tx_ok data : Z.of_nat (length data) < max64 → tx_ok (run_tx data).
Proof.
  intros Hd. unfold tx_ok, run_tx. cbn [Tx_Gas Tx_Clauses dGas dClauses]. split; [unfold_int; lia|].
  split; [by repeat constructor|]. split; [|done]. rewrite Forall_cons. split; [|done]. intros a [= <-]. unfold is160. lia.
Qed.

Lemma genesis_stays : stays 100 genesisWorld.
Proof.
  exists genesisLedger. split; [exact genesis_supply|]. intros key Hk. rewrite !elem_of_cons in Hk. exists 0.
  destruct Hk as [->|[->|[->|[]%elem_of_nil]]]; vm_compute; reflexivity.
Qed.

Lemma run_fee f : bcBaseFee run_ctx = Some f → 0 ≤ f.
Proof. intros [= <-]. lia. Qed.
Lemma run_address pub : is160 (pubkeyToAddress pub).
Proof. apply Z.mod_pos_bound. lia. Qed.
Lemma run_beneficiary : is160 (bcBeneficiary run_ctx).
Proof. unfold is160. cbn [bcBeneficiary run_ctx]. lia. Qed.

Lemma transaction_pays_for_gas_witness :
  run_execute [] = Ok (run_receipt 21000 false, run_state []) ∧
  ∃ w1 w2 w' vs gas0 price,
    accounted (isCode := demoCode) run_ctx SoloFork (run_tx []) (run_receipt 21000 false) genesisWorld w1 w2 w' gas0 price ∧
    run_represents' (run_state []) (w' :: vs ++ []) ∧ stays 100 w'.
Proof.
  split; [exact run_succeeds|].
  pose proof (transaction_pays_for_gas db0 run_trie world0 (λ _, metadata0) run_base run_ctx (EvmSpec0 := run_EvmSpec run_ctx)
    run_fee run_address run_repo 0 SoloFork run_beneficiary (run_tx []) genesisState genesisWorld []
    (run_tx_ok [] eq_refl) genesis_stays genesis_represents) as Hx.
  change (runtime_ExecuteTransaction db0 run_repo 0 run_ctx SoloFork (run_tx []) genesisState) with (run_execute []) in Hx.
  rewrite run_succeeds in Hx. exact Hx.
Defined.

Lemma failed_clause_costs_gas_witness :
  run_execute [1] = Ok (run_receipt 30000 true, run_state [1]) ∧
  ∃ before, returns (nativeEnergy 100 (energy_Get db0 1)) genesisState before ∧
    returns (nativeEnergy 100 (energy_Get db0 1)) (run_state [1]) (before - 90000 + 0) ∧
    ∃ balance, returns (GetBalance db0 1) genesisState balance ∧ returns (GetBalance db0 1) (run_state [1]) balance.
Proof.
  split; [exact run_fails|].
  destruct (failed_clause_costs_gas db0 run_trie world0 (λ _, metadata0) run_base run_ctx (EvmSpec0 := run_EvmSpec run_ctx)
    run_fee run_address run_repo 0 SoloFork run_beneficiary (run_tx [1]) genesisState (run_state [1]) genesisWorld []
    (run_receipt 30000 true) 1 (run_tx_ok [1] eq_refl) genesis_stays genesis_represents run_fails eq_refl)
    as (_ & before & H1 & H2 & H3 & _); [unfold is160; lia|].
  exists before. split; [exact H1|]. split; [exact H2|exact H3].
Defined.
