(* ===== verification/Packer.v ===== *)
(** * Package packer: building blocks

    [src/packer/packer.go], [poa_scheduler.go], [pos_scheduler.go] and [flow.go],
    with the builder of [src/block/builder.go] and the loop over the
    transactions in [src/cmd/thor/node/packer_loop.go].  A flow carries the state
    it executes on. *)

From S2P Require Import Prelude Bytes External Thor Block Tx ChainRepo Scheduler.
From S2P Require Import Authority Validation Storage Repository ValidationService Staker Housekeep.
From S2P Require Import Trie TxRoot Consensus.

Record Packer := MkPacker {
  nodeMaster : Address;
  pkBeneficiary : option Address;
  targetGasLimit : Z;
  minTxPriorityFee : Z;
}.

#[export] Instance eta_Packer : Eta Packer := λ p,
  MkPacker (nodeMaster p) (pkBeneficiary p) (targetGasLimit p) (minTxPriorityFee p).

Definition SetTargetGasLimit (gl : Z) (p : Packer) : Packer := p <| targetGasLimit := gl |>.

Definition packer_gasLimit (p : Packer) (parentGasLimit : Z) : Z :=
  if negb (targetGasLimit p =? 0) then GasLimit_Qualify (targetGasLimit p) parentGasLimit else parentGasLimit.

Definition errGasLimitReached : error := ErrInternal "gas limit reached".
Definition errTxNotAdoptableNow : error := ErrInternal "tx not adoptable now".
Definition errTxNotAdoptableForever : error := ErrInternal "tx not adoptable forever".
Definition errKnownTx : error := ErrInternal "known tx".
Definition badTxError (msg : string) : error := ErrRevert msg.

Section packer.
Context `{CFG : Config} `{Rlp} `{Drlp} `{Crypto} `{Sampling} `{SM : SafeMath} `{SMM : SafeMulOp}.
Context {X : Type} `{!Runtime X}.
Context (forkConfig : ForkConfig) (IsOriginBlocked : Address → bool).

Record Flow := MkFlow {
  fParent : Header;
  fContext : BlockContext;
  fState : State X;
  fProcessedTxs : gmap Bytes32 bool;
  fGasUsed : Z;
  fTxs : list Transaction;
  fReceipts : list Receipt;
  fFeatures : Z;
  fPosActive : bool;
}.

(** ** Scheduling *)
Definition packSeed (repo : ChainRepo) (parentID : Bytes32) (seeds : gmap Bytes32 bytes) : result bytes :=
  '(seed, _) ← Generate repo parentID seeds; Ok seed.

Fixpoint updateAuthority (updates : list Proposer) : M Authority unit :=
  match updates with
  | [] => mret tt
  | u :: updates => _ ← Authority_Update (pAddress u) (pActive u); updateAuthority updates
  end.

Definition poaBeneficiary (p : Packer) (candidates : list Candidate) : Address :=
  match pkBeneficiary p with
  | Some b => b
  | None => foldl (λ b c, if NodeMaster c =? nodeMaster p then cEndorsor c else b) 0 candidates
  end.

(** The beneficiary, the time and the score of the new block, and the state. *)
Definition schedulePOA (fuel : nat) (repo : ChainRepo) (seeds : gmap Bytes32 bytes) (p : Packer)
    (parent : Header) (nowTimestamp : Z) (st : State X) : result (Address * Z * Z * State X) :=
  let number := Header_Number parent +u32 1 in
  let maxBlockProposers := GetMaxBlockProposers (maxBlockProposersParam (sStaker st)) true in
  '(candidates, _) ← Candidates (balanceCheck forkConfig number st) maxBlockProposers (sAuthority st);
  let proposers := map (λ c, MkProposer (NodeMaster c) (cActive c) 0) candidates in
  sched ← (if number <? VIP214 forkConfig
           then s ← NewPoASchedulerV1 (nodeMaster p) proposers (Header_Number parent) (Timestamp parent);
                Ok (SchedV1 s)
           else seed ← packSeed repo (ID parent) seeds;
                s ← NewPoASchedulerV2 (nodeMaster p) proposers (Header_Number parent) (Timestamp parent) seed;
                Ok (SchedV2 s));
  newBlockTime ← sched_Schedule fuel sched nowTimestamp;
  '(updates, score) ← sched_Updates sched newBlockTime;
  '(_, A) ← updateAuthority updates (sAuthority st);
  Ok (poaBeneficiary p candidates, newBlockTime, score, st <| sAuthority := A |>).

Definition posBeneficiary (p : Packer) (leaders : list Leader) : Address :=
  foldl (λ b l, if Leader_Address l =? nodeMaster p then
                  match Leader_Beneficiary l, pkBeneficiary p with
                  | Some b, _ => b
                  | None, Some b => b
                  | None, None => Leader_Endorser l
                  end
                else b) 0 leaders.

Definition schedulePOS (fuel : nat) (repo : ChainRepo) (seeds : gmap Bytes32 bytes) (p : Packer)
    (parent : Header) (nowTimestamp : Z) (st : State X) : result (Address * Z * Z * State X) :=
  seed ← packSeed repo (ID parent) seeds;
  '(leaderGroup, _) ← LeaderGroup (sStaker st);
  '(_, weight, _) ← LockedStake (sStaker st);
  s ← NewPoSScheduler (nodeMaster p) (leaderProposers leaderGroup) (Header_Number parent) (Timestamp parent)
        seed weight;
  newBlockTime ← sched_Schedule fuel (SchedPoS s) nowTimestamp;
  '(updates, score) ← sched_Updates (SchedPoS s) newBlockTime;
  '(_, s') ← setOnline (Header_Number parent +u32 1) updates (sStaker st);
  Ok (posBeneficiary p leaderGroup, newBlockTime, score, st <| sStaker := s' |>).

(** [st] is the state at the root of the parent; [seeds] the cache of seeds. *)
Definition Schedule (fuel : nat) (repo : ChainRepo) (seeds : gmap Bytes32 bytes) (p : Packer)
    (st : State X) (parent : Header) (nowTimestamp : Z) : result Flow :=
  let number := Header_Number parent +u32 1 in
  let '(status, st) := syncPOS forkConfig number st in
  '(beneficiary, newBlockTime, score, st) ←
    (if SyncActive status then schedulePOS fuel repo seeds p parent nowTimestamp st
     else schedulePOA fuel repo seeds p parent nowTimestamp st);
  baseFee ← CalcBaseFee parent forkConfig;
  let ctx := MkContext beneficiary (nodeMaster p) number newBlockTime (packer_gasLimit p (GasLimit parent))
               (TotalScore parent +u64 score) baseFee in
  Ok (MkFlow parent ctx (runtime_New ctx st) ∅ 0 [] [] (featuresAt forkConfig number) (SyncActive status)).

(** ** A flow with a designated time ([Mock])

    The beneficiary may be missing; the score is that of the active proposers. *)
Definition mockPOS (p : Packer) (leaders : list Leader) (totalWeight : Z) : result (option Address * Z) :=
  let onlineWeight := foldl (λ w l, if Leader_Active l then w +u64 Leader_Weight l else w) 0 leaders in
  let beneficiary :=
    foldl (λ b l, if Leader_Address l =? nodeMaster p then
                    match Leader_Beneficiary l, b with
                    | Some b', _ => Some b'
                    | None, None => Some (Leader_Endorser l)
                    | None, Some _ => b
                    end
                  else b) (pkBeneficiary p) leaders in
  if totalWeight =? 0 then Err (ErrPanic "integer divide by zero") else
  Ok (beneficiary, (onlineWeight *u64 MaxPosScore) / totalWeight).

Definition mockPOA (p : Packer) (authorities : list Candidate) : option Address * Z :=
  (foldl (λ b c, match b with
                 | None => if NodeMaster c =? nodeMaster p then Some (cEndorsor c) else None
                 | Some _ => b
                 end) (pkBeneficiary p) authorities,
   foldl (λ n c, if cActive c then n +u64 1 else n) 0 authorities).

Definition Mock (p : Packer) (st : State X) (parent : Header) (targetTime gasLimit : Z)
    : result (Flow * bool) :=
  let number := Header_Number parent +u32 1 in
  '(status, st) ← zoom sStaker (SyncPOS (HAYABUSA forkConfig) number) st;
  '(beneficiary, score) ←
    (if SyncActive status then
       '(leaders, _) ← LeaderGroup (sStaker st);
       '(_, totalWeight, _) ← LockedStake (sStaker st);
       mockPOS p leaders totalWeight
     else
       '(authorities, _) ← Candidates (balanceCheck forkConfig number st) InitialMaxBlockProposers (sAuthority st);
       Ok (mockPOA p authorities));
  match beneficiary with
  | None => Err (ErrInternal "no beneficiary set, cannot pack block")
  | Some beneficiary =>
      let gl := if gasLimit =? 0 then packer_gasLimit p (GasLimit parent) else gasLimit in
      baseFee ← (if GALACTICA forkConfig <=? number then CalcBaseFee parent forkConfig else Ok None);
      let ctx := MkContext beneficiary (nodeMaster p) number targetTime gl (TotalScore parent +u64 score) baseFee in
      Ok (MkFlow parent ctx (runtime_New ctx st) ∅ 0 [] [] (featuresAt forkConfig number) (SyncActive status),
          SyncActive status)
  end.

(** ** Adopting transactions *)

(** After Galactica. *)
Definition validateTxFee (repo : ChainRepo) (p : Packer) (t : Transaction) (f : Flow) : result unit :=
  let legacyTxBaseGasPrice := LegacyTxBaseGasPrice (sRest (fState f)) in
  provedWork ← ProvedWork t (bcNumber (fContext f)) (GetBlockID repo (ID (fParent f)));
  effectiveGasPrice ← EffectiveGasPrice t (bcBaseFee (fContext f)) legacyTxBaseGasPrice;
  match bcBaseFee (fContext f) with
  | None => Err (ErrPanic "nil base fee")
  | Some baseFee =>
      if effectiveGasPrice <? baseFee then Err errTxNotAdoptableNow else
      if minTxPriorityFee p <=? 0 then Ok tt else
      fee ← EffectivePriorityFeePerGas t baseFee legacyTxBaseGasPrice provedWork;
      if fee <? minTxPriorityFee p then Err (badTxError "effective priority fee too low") else Ok tt
  end.

(** The conditions on the transaction itself. *)
Definition adoptable (repo : ChainRepo) (p : Packer) (t : Transaction) (f : Flow) : result unit :=
  let number := bcNumber (fContext f) in
  let origin := match Tx_Origin t with Ok a => a | Err _ => 0 end in
  if (BLOCKLIST forkConfig <=? number) && IsOriginBlocked origin then Err (badTxError "tx origin blocked") else
  match Tx_Delegator t with
  | Err _ => Err (badTxError "delegator cannot be extracted")
  | Ok delegator =>
      if (BLOCKLIST forkConfig <=? number) &&
         match delegator with Some d => IsOriginBlocked d | None => false end
      then Err (badTxError "tx delegator blocked") else
      match TestFeatures t (fFeatures f) with
      | Err _ => Err (badTxError "features")
      | Ok _ =>
          if negb (Tx_ChainTag t =? ChainTag repo) then Err (badTxError "chain tag mismatch") else
          if number <? BlockRef_Number (Tx_BlockRef t) then Err errTxNotAdoptableNow else
          if IsExpired t number then Err (badTxError "expired") else
          if bcGasLimit (fContext f) <? fGasUsed f +u64 Tx_Gas t then
            if fGasUsed f +u64 TxGas +u64 ClauseGas <=? bcGasLimit (fContext f)
            then Err errTxNotAdoptableNow else Err errGasLimitReached
          else
          if number <? GALACTICA forkConfig then
            if negb (Tx_Type t =? TypeLegacy) then Err (badTxError "invalid tx type") else Ok tt
          else validateTxFee repo p t f
      end
  end.

(** A failed execution is reverted; the flow is then as before. *)
Definition Adopt (repo : ChainRepo) (p : Packer) (t : Transaction) : M Flow unit := λ f,
  adoptable repo p t f ;;
  found ← hasTx repo (ID (fParent f)) (fProcessedTxs f) (Tx_ID t) (BlockRef_Number (Tx_BlockRef t));
  if found : bool then Err errKnownTx else
  match Tx_DependsOn t with
  | None => Ok tt
  | Some dependsOn =>
      '(found, reverted) ← findDep repo (ID (fParent f)) (fProcessedTxs f) dependsOn;
      if negb found then Err errTxNotAdoptableNow else
      if reverted : bool then Err errTxNotAdoptableForever else Ok tt
  end ;;
  match ExecuteTransaction repo (ID (fParent f)) (fContext f) t (fState f) with
  | Err _ => Err (badTxError "execution")
  | Ok (receipt, st) =>
      Ok (tt, MkFlow (fParent f) (fContext f) st (<[Tx_ID t := rcReverted receipt]> (fProcessedTxs f))
                (fGasUsed f +u64 rcGasUsed receipt) (fTxs f ++ [t]) (fReceipts f ++ [receipt])
                (fFeatures f) (fPosActive f))
  end.

(** The loop over the executable transactions of the pool. *)
Fixpoint adoptAll (repo : ChainRepo) (p : Packer) (txs : list Transaction) (f : Flow) : Flow :=
  match txs with
  | [] => f
  | t :: txs =>
      match Adopt repo p t f with
      | Ok (_, f') => adoptAll repo p txs f'
      | Err e => if bool_decide (e = errGasLimitReached) then f else adoptAll repo p txs f
      end
  end.

(** ** Packing *)

(** The builder of package block, with every field set. *)
Definition Build (f : Flow) (stateRoot : Bytes32) (com : bool) (alpha : bytes) : result block :=
  receiptsRoot ← Receipts_RootHash (fReceipts f);
  txsRoot ← Transactions_RootHash (fTxs f);
  let ctx := fContext f in
  Ok (MkBlock (MkHeader (ID (fParent f)) (bcTime ctx) (bcGasLimit ctx) (bcBeneficiary ctx) (fGasUsed f)
                 (bcTotalScore ctx) (MkTxsRootFeatures (from_be txsRoot) (fFeatures f)) stateRoot
                 (from_be receiptsRoot) [] (MkExtension alpha com (bcBaseFee ctx))) (fTxs f)).

(** [block.WithSignature] *)
Definition signed (b : block) (sig : bytes) : block := MkBlock (withSignature sig (blkHeader b)) (blkTxs b).

Definition Pack (p : Packer) (privateKey : Z) (shouldVote : bool) (f : Flow)
    : result (block * State X * list Receipt) :=
  let number := bcNumber (fContext f) in
  let master := pubkeyToAddress (pubOf privateKey) in
  if negb (nodeMaster p =? master) then Err (ErrInternal "private key mismatch") else
  st ← (if fPosActive f
        then DistributeRewards (bcTime (fContext f)) (bcBeneficiary (fContext f)) master number (fState f)
        else Ok (fState f));
  let com := (FINALITY forkConfig <=? number) && shouldVote in
  if number <? VIP214 forkConfig then
    b ← Build f (Stage_Hash st) com [];
    Ok (signed b (sign privateKey (Header_SigningHash (blkHeader b))), st, fReceipts f)
  else
    alpha ← alphaOf (fParent f);
    b ← Build f (Stage_Hash st) com alpha;
    let ec := sign privateKey (Header_SigningHash (blkHeader b)) in
    let '(_, proof) := vrf_prove privateKey alpha in
    sig ← NewComplexSignature ec proof;
    Ok (signed b sig, st, fReceipts f).
End packer.
