(* ===== verification/PackerSched.v ===== *)
(** * The schedulers, as the packer and the validator use them

    The time a scheduler picks is one it accepts; its updates name listed
    proposers only; its score is positive. *)

From Stdlib Require Import Permutation.
From S2P Require Import Prelude Bytes External Thor Block Tx ChainRepo Scheduler SchedulerCorrect.
From S2P Require Import LinkedList Authority Consensus Packer.

Section sched.
Context `{CFG : Config} (HT : 0 < BlockInterval < 2 ^ 32) `{Crypto} `{Sampling}.
Abbreviation T := BlockInterval.

(** The scheduler [s] was made for [a] among the proposers [ps]. *)
Inductive sched_for (a : Address) (ps : list Proposer) (num parent : Z) : sched → Prop :=
  | for_v1 s : NewPoASchedulerV1 a ps num parent = Ok s → sched_for a ps num parent (SchedV1 s)
  | for_v2 s seed : NewPoASchedulerV2 a ps num parent seed = Ok s → sched_for a ps num parent (SchedV2 s)
  | for_pos s seed tw : NewPoSScheduler a ps num parent seed tw = Ok s → sched_for a ps num parent (SchedPoS s).

Lemma v1_fields a ps num parent s : NewPoASchedulerV1 a ps num parent = Ok s →
  v1_parentBlockTime s = parent ∧ v1_actives s = participants a ps ∧
  v1_proposer s ∈ participants a ps ∧ pAddress (v1_proposer s) = a ∧
  listedProposer a ps = Some (v1_proposer s).
Proof.
  unfold NewPoASchedulerV1. destruct (listedProposer a ps) as [q|] eqn:E; [|done]. intros [= <-].
  destruct (listedProposer_in a ps q E) as [Hin Ha]. done.
Qed.

(** ** The time *)
Lemma v1_time fuel s t0 t : v1_tryFrom fuel s t0 = Ok t → 0 ≤ t0 →
  t0 + Z.of_nat fuel * T < max64 →
  ∃ i, 0 ≤ i ∧ t = t0 + i * T ∧ i < Z.of_nat fuel ∧
    ∃ q, v1_whoseTurn s t = Ok q ∧ pAddress q = pAddress (v1_proposer s).
Proof.
  revert t0. induction fuel as [|fuel IH]; intros t0 E Ht0 Hmax; [done|]. cbn [v1_tryFrom] in E.
  destruct (v1_whoseTurn s t0) as [q|] eqn:Eq; [|done]. cbn [mbind result_bind] in E.
  destruct (Z.eqb_spec (pAddress q) (pAddress (v1_proposer s))) as [Ea|].
  - injection E as <-. exists 0. split_and!; [lia|lia|lia|]. by exists q.
  - rewrite wrap64_id in E by (unfold_int; nia).
    destruct (IH (t0 + T) E) as (i & Hi & -> & Hlt & Hq); [nia|nia|].
    exists (i + 1). split_and!; [lia|lia|lia|]. done.
Qed.

Lemma order_time order a ps parent now t : order ≡ₚ pAddress <$> participants a ps → a ∈ pAddress <$> ps →
  times_fit parent now (length ps) → scheduleIn order a parent now = Ok t →
  parent < t ∧ t < max64 ∧ isScheduledIn order parent t a = Ok true.
Proof.
  intros Hperm Ha Hfit E. destruct (scheduled_order HT order a ps parent now Hperm Ha Hfit)
    as (t' & E' & _ & Hlt & Hmax & Hs & _).
  rewrite E in E'. injection E' as <-. split; [done|]. split; [|done].
  destruct Hfit as (_ & _ & Hfit). nia.
Qed.

(** A time that is scheduled is a slot. *)
Lemma scheduled_slot order a parent t : order ≠ [] → 0 ≤ parent → t < max64 →
  isScheduledIn order parent t a = Ok true → ∃ j, 1 ≤ j ∧ t = parent + j * T.
Proof.
  intros Hne Hp Ht Hs. destruct (slot_or_not HT parent t Hp) as [(j & Hj & ->)|Hno]; [by exists j|].
  by rewrite (isScheduledIn_other HT) in Hs.
Qed.

Lemma sched_time fuel a ps num parent s now t : sched_for a ps num parent s →
  times_fit parent now (fuel + length ps) → sched_Schedule fuel s now = Ok t →
  sched_IsTheTime s t = Ok true ∧ t < max64 ∧ ∃ j, 1 ≤ j ∧ t = parent + j * T.
Proof.
  intros Hs Hfit E. assert (times_fit parent now (length ps)) as Hfit' by (apply (times_fit_le HT _ _ (fuel + length ps)%nat); [lia|done]).
  pose proof (proj1 Hfit) as Hp0.
  destruct Hs as [s Es|s seed Es|s seed tw Es]; cbn [sched_Schedule sched_IsTheTime] in *.
  - destruct (v1_fields _ _ _ _ _ Es) as (Ep & _). unfold v1_Schedule in E. rewrite Ep in E.
    destruct (firstSlot_spec HT parent now _ Hfit) as (k & Hk & Ek & _ & Hlt & _). rewrite Ek in E.
    destruct Hfit as (Hp & _ & Hfit). destruct (v1_time _ _ _ _ E) as (i & Hi & -> & Hif & q & Eq & Ea);
      [nia|nia|].
    unfold v1_IsTheTime. rewrite Ep. destruct (Z.leb_spec (parent + k * T + i * T) parent); [nia|].
    rewrite wrap64_id by (unfold_int; nia).
    replace (parent + k * T + i * T - parent) with ((k + i) * T) by lia. rewrite Z.mod_mul by lia.
    cbn [negb Z.eqb]. rewrite Eq. cbn [mbind result_bind]. rewrite Ea, Z.eqb_refl.
    split; [done|]. split; [nia|]. exists (k + i). split; [lia|lia].
  - pose proof (v2_addresses _ _ _ _ _ _ Es) as Hperm. unfold NewPoASchedulerV2 in Es.
    destruct (listedProposer a ps) as [q|] eqn:Eq; [|done]. destruct (listedProposer_in _ _ _ Eq) as [Hq Ea].
    assert (a ∈ pAddress <$> ps) as Ha.
    { apply list_elem_of_fmap. exists q. split; [done|]. by eapply participants_sub. }
    injection Es as <-. unfold v2_Schedule, v2_IsTheTime, v2_IsScheduled in *. simpl in *. rewrite Ea in *.
    destruct (order_time _ _ _ _ _ _ Hperm Ha Hfit' E) as (Hlt & Hmax & Hs).
    split; [done|]. split; [done|]. eapply scheduled_slot; [|done|done|done].
    intros En. rewrite En in Hperm. apply Permutation_nil, fmap_nil_inv in Hperm. rewrite Hperm in Hq. set_solver.
  - pose proof (pos_addresses _ _ _ _ _ _ _ Es) as Hperm. unfold NewPoSScheduler in Es.
    destruct (listedProposer a ps) as [q|] eqn:Eq; [|done]. destruct (listedProposer_in _ _ _ Eq) as [Hq Ea].
    assert (a ∈ pAddress <$> ps) as Ha.
    { apply list_elem_of_fmap. exists q. split; [done|]. by eapply participants_sub. }
    injection Es as <-. unfold pos_Schedule, pos_IsTheTime, pos_IsScheduled in *. simpl in *. rewrite Ea in *.
    destruct (order_time _ _ _ _ _ _ Hperm Ha Hfit' E) as (Hlt & Hmax & Hs).
    split; [done|]. split; [done|]. eapply scheduled_slot; [|done|done|done].
    intros En. rewrite En in Hperm. apply Permutation_nil, fmap_nil_inv in Hperm. rewrite Hperm in Hq. set_solver.
Qed.

(** ** The updates *)
Lemma v1_turn_in s t q : v1_whoseTurn s t = Ok q → q ∈ v1_actives s.
Proof.
  unfold v1_whoseTurn. case_match; [done|]. destruct (v1_actives s !! _) as [q'|] eqn:E; [|done].
  intros [= ->]. by eapply list_elem_of_lookup_2.
Qed.

(** The proposers to deactivate are others that take part. *)
Definition others_in (s : PoASchedulerV1) (m : gmap Address Proposer) : Prop :=
  ∀ a q, m !! a = Some q → pAddress q = a ∧ q ∈ v1_actives s ∧ a ≠ pAddress (v1_proposer s).

Lemma v1_missed_in fuel s t m m' : v1_missed fuel s t m = Ok m' → others_in s m → others_in s m'.
Proof.
  revert t m. induction fuel as [|fuel IH]; intros t m E Hm; cbn [v1_missed] in E; [by injection E as <-|].
  destruct (v1_parentBlockTime s <? t); [|by injection E as <-].
  destruct (v1_whoseTurn s t) as [q|] eqn:Eq; [|done]. cbn [mbind result_bind] in E.
  apply (IH _ _ E). destruct (Z.eqb_spec (pAddress q) (pAddress (v1_proposer s))) as [|Hne]; [done|].
  intros a q' Hq. apply lookup_insert_Some in Hq as [[<- <-]|[_ Hq]]; [|by apply Hm].
  split; [done|]. split; [by eapply v1_turn_in|done].
Qed.

Lemma participants_listed a ps q : q ∈ participants a ps → pAddress q ∈ pAddress <$> ps.
Proof. intros Hq. apply list_elem_of_fmap. exists q. split; [done|]. by eapply participants_sub. Qed.

Lemma missedIn_sub {A} (order : list A) p t i x : x ∈ missedIn p t i order → x ∈ order.
Proof.
  revert i. induction order as [|y l IH]; intros i Hx; [done|]. cbn [missedIn] in Hx.
  case_match; [by apply not_elem_of_nil in Hx|].
  apply elem_of_cons in Hx as [->|Hx]; [apply list_elem_of_here|]. apply list_elem_of_further. by eapply IH.
Qed.

(** Updates of others, and of the proposer itself when it was inactive. *)
Lemma updates_listed (ps us : list Proposer) (b : bool) (self : Proposer) :
  (∀ u, u ∈ us → pAddress u ∈ pAddress <$> ps) → pAddress self ∈ pAddress <$> ps →
  ∀ u, u ∈ (if b then us ++ [self] else us) → pAddress u ∈ pAddress <$> ps.
Proof.
  intros Hus Hself u Hu. destruct b; [|by apply Hus].
  apply elem_of_app in Hu as [Hu|Hu]; [by apply Hus|]. by apply list_elem_of_singleton in Hu as ->.
Qed.

Lemma v1_updates_listed a ps num parent s t us sc : NewPoASchedulerV1 a ps num parent = Ok s →
  v1_Updates s t = Ok (us, sc) → ∀ u, u ∈ us → pAddress u ∈ pAddress <$> ps.
Proof.
  intros Es E. destruct (v1_fields _ _ _ _ _ Es) as (_ & Ea & Hp & _). unfold v1_Updates in E.
  destruct (v1_missed _ s _ ∅) as [m|] eqn:Em; [|done]. injection E as <- _.
  apply v1_missed_in in Em; [|done]. apply updates_listed; [|exact (participants_listed a ps _ Hp)].
  intros u Hu. apply list_elem_of_fmap in Hu as ([k q] & -> & Hk). apply elem_of_map_to_list in Hk.
  destruct (Em k q Hk) as (_ & Hq & _). rewrite Ea in Hq. exact (participants_listed a ps q Hq).
Qed.

Lemma v2_updates_listed a ps num parent seed s t : NewPoASchedulerV2 a ps num parent seed = Ok s →
  ∀ u, u ∈ (v2_Updates s t).1 → pAddress u ∈ pAddress <$> ps.
Proof.
  intros Es. pose proof (v2_addresses _ _ _ _ _ _ Es) as Hperm.
  assert (v2_proposer s ∈ participants a ps) as Hp.
  { unfold NewPoASchedulerV2 in Es. destruct (listedProposer a ps) as [q|] eqn:Eq; [|done].
    injection Es as <-. by destruct (listedProposer_in _ _ _ Eq). }
  unfold v2_Updates. cbn [fst]. apply updates_listed; [|exact (participants_listed a ps _ Hp)].
  intros u Hu. apply list_elem_of_fmap in Hu as (x & -> & Hx). apply list_elem_of_filter in Hx as [_ Hx].
  apply missedIn_sub in Hx. rewrite Hperm in Hx. apply list_elem_of_fmap in Hx as (q & -> & Hq).
  exact (participants_listed a ps q Hq).
Qed.

(** ** The score *)
Lemma v1_score a ps num parent s t us sc : NoDup (pAddress <$> ps) → Z.of_nat (length ps) < max64 →
  NewPoASchedulerV1 a ps num parent = Ok s → v1_Updates s t = Ok (us, sc) →
  0 < sc ≤ Z.of_nat (length ps).
Proof.
  intros Hnd Hlen Es E. destruct (v1_fields _ _ _ _ _ Es) as (_ & Ea & Hp & Epa & _). unfold v1_Updates in E.
  destruct (v1_missed _ s _ ∅) as [m|] eqn:Em; [|done]. injection E as _ <-.
  apply v1_missed_in in Em; [|done]. pose proof (participants_length a ps) as Hle.
  pose proof (participants_NoDup a ps Hnd) as Hndp. rewrite Ea.
  assert (size m < length (participants a ps))%nat as Hlt.
  { rewrite <- size_dom. rewrite <- (length_fmap pAddress).
    rewrite <- (size_list_to_set (C := gset Z) (pAddress <$> participants a ps)) by done.
    apply subset_size. split.
    - intros x Hx. apply elem_of_dom in Hx as [q Hq]. destruct (Em x q Hq) as (<- & Hin & _).
      apply elem_of_list_to_set, list_elem_of_fmap. rewrite Ea in Hin. by exists q.
    - intros Hsub. assert (a ∈ dom m) as Hin.
      { apply Hsub, elem_of_list_to_set, list_elem_of_fmap. exists (v1_proposer s). by rewrite Epa. }
      apply elem_of_dom in Hin as [q Hq]. destruct (Em a q Hq) as (_ & _ & Hne). by rewrite Epa in Hne. }
  rewrite wrap64_id by ulia. lia.
Qed.

Lemma v2_score a ps num parent seed s j : NoDup (pAddress <$> ps) → Z.of_nat (length ps) < max64 →
  0 ≤ parent → 1 ≤ j → parent + j * T < max64 → NewPoASchedulerV2 a ps num parent seed = Ok s →
  0 < (v2_Updates s (parent + j * T)).2 ≤ Z.of_nat (length ps).
Proof.
  intros Hnd Hlen Hp Hj Hmax Es. pose proof (v2_addresses _ _ _ _ _ _ Es) as Hperm.
  destruct (updates_v2 HT _ _ _ _ _ _ _ Hnd Hlen Hp Hj Hmax Es) as [[Hd _] ->].
  set (D := deactivated _) in *. split.
  - assert (a ∈ filter (λ x, x ∉ D) (v2_shuffled s)) as Hin.
    { unfold NewPoASchedulerV2 in Es. destruct (listedProposer a ps) as [q|] eqn:Eq; [|done].
      destruct (listedProposer_in _ _ _ Eq) as [Hq Eqa]. apply list_elem_of_filter. split.
      - rewrite Hd. injection Es as <-. simpl. rewrite Eqa. tauto.
      - rewrite Hperm. apply list_elem_of_fmap. by exists q. }
    destruct (filter _ (v2_shuffled s)); [by apply not_elem_of_nil in Hin|simpl; lia].
  - pose proof (length_filter (λ x, x ∉ D) (v2_shuffled s)) as Hle.
    assert (length (v2_shuffled s) = length (participants a ps)) as El by (by rewrite Hperm, length_fmap).
    pose proof (participants_length a ps). lia.
Qed.
End sched.

(** ** Candidates and seeds

    The packer reads the candidates from the authority contract; the validator
    keeps a list in memory, with the indices of the endorsed candidates.  Where
    the list in memory agrees with the contract, both get the same proposers, and
    the validator can apply every update of the scheduler.  Both get the same
    seed whatever their caches hold. *)

(** ** Seeds *)
Section seeds.
Context `{CFG : Config} `{Rlp} `{Crypto}.

(** A cache of seeds holds the beta of the blocks of the repository. *)
Definition seeds_ok (r : ChainRepo) (seeds : gmap Bytes32 bytes) : Prop :=
  ∀ id v, seeds !! id = Some v →
    ∃ summary, GetBlockSummary r id = Ok summary ∧ Beta (sumHeader summary) = Ok v.

Lemma Generate_any r id seeds seeds' v c : seeds_ok r seeds → seeds_ok r seeds' →
  Generate r id seeds = Ok (v, c) → ∃ c', Generate r id seeds' = Ok (v, c') ∧ seeds_ok r c'.
Proof.
  intros Hs Hs'. unfold Generate, mbind, M_bind, lift, gets, modify, mret, M_ret.
  case_match; [intros [= <- <-]; eauto|].
  destruct (GetBlockID r id _) as [sid|]; [|done]. cbn [mbind result_bind].
  intros E. assert (∃ summary, GetBlockSummary r sid = Ok summary ∧ Beta (sumHeader summary) = Ok v) as
    (summary & Esum & Eb).
  { destruct (seeds !! sid) as [w|] eqn:Ew; [injection E as <- <-; by apply Hs|].
    destruct (GetBlockSummary r sid) as [summary|] eqn:Esum; [|done]. cbn [mbind result_bind] in E.
    destruct (Beta (sumHeader summary)) as [w|] eqn:Eb; [|done]. injection E as <- <-. by exists summary. }
  destruct (seeds' !! sid) as [w'|] eqn:Ew'.
  - destruct (Hs' _ _ Ew') as (s' & E1 & E2). assert (w' = v) as -> by congruence. eauto.
  - rewrite Esum. cbn [mbind result_bind]. rewrite Eb. eexists. split; [done|].
    intros i w [[<- <-]|[_ Hi]]%lookup_insert_Some; [by exists summary|by apply Hs'].
Qed.
End seeds.

(** ** Proposers *)
Definition toProposer (c : Candidate) : Proposer := MkProposer (NodeMaster c) (cActive c) 0.

Lemma proposersAt_snoc l idx i c ps : proposersAt l idx = Ok ps → l !! i = Some c →
  proposersAt l (idx ++ [i]) = Ok (ps ++ [toProposer c]).
Proof.
  revert ps. induction idx as [|j idx IH]; intros ps E Hi; simpl in *.
  - injection E as <-. by rewrite Hi.
  - destruct (l !! j); [|done]. destruct (proposersAt l idx) as [ps'|]; [|done]. injection E as <-.
    rewrite (IH ps' eq_refl Hi). done.
Qed.

(** The picked indices name the candidates the contract reports. *)
Lemma satisfy_pick chk lim A L pre l acc idx cands :
  L = candidateOf A <$> pre ++ l → length idx = length acc → proposersAt L idx = Ok (toProposer <$> acc) →
  pick chk lim A acc l = Ok cands →
  ∃ idx', satisfy chk lim (length pre) (candidateOf A <$> l) idx = Ok idx' ∧
    proposersAt L idx' = Ok (toProposer <$> cands).
Proof.
  revert pre acc idx. induction l as [|a l IH]; intros pre acc idx EL Elen Eidx E; simpl in *.
  { injection E as <-. by exists idx. }
  rewrite Elen, Z.leb_antisym in *. destruct (_ <? lim); simpl in *; [|injection E as <-; by exists idx].
  destruct (chk a _) as [ok|]; [|done]. cbn [mbind result_bind] in *.
  assert (length (pre ++ [a]) = S (length pre)) as Ep by (rewrite length_app; simpl; lia).
  rewrite <- Ep. eapply IH; [by rewrite <- app_assoc| | |done].
  - destruct ok; [rewrite !length_app; simpl; lia|done].
  - destruct ok; [|done]. rewrite fmap_app. apply proposersAt_snoc; [done|].
    subst L. rewrite list_lookup_fmap, list_lookup_middle by done. done.
Qed.

(** ** Updates *)
Lemma indexMasters_lookup i l m a j : indexMasters i l m !! a = Some j →
  m !! a = Some j ∨ (i ≤ j < i + length l)%nat.
Proof.
  revert i m. induction l as [|c l IH]; intros i m E; simpl in *; [by left|].
  apply IH in E as [E|E]; [|right; lia]. apply lookup_insert_Some in E as [[_ <-]|[_ E]]; [right; lia|by left].
Qed.

Lemma indexMasters_some i l m a : is_Some (m !! a) ∨ a ∈ NodeMaster <$> l → is_Some (indexMasters i l m !! a).
Proof.
  revert i m. induction l as [|c l IH]; intros i m Ha; simpl; [destruct Ha; [done|set_solver]|].
  apply IH. rewrite lookup_insert. simpl in Ha. case_decide; [left; eauto|].
  destruct Ha as [Ha|Ha]; [by left|]. apply elem_of_cons in Ha as [->|Ha]; [done|by right].
Qed.

(** The masters indexed in memory are those of the list. *)
Definition masters_ok (c : candidates) : Prop :=
  (∀ a, a ∈ NodeMaster <$> cdList c → is_Some (cdMasters c !! a)) ∧
  ∀ a i, cdMasters c !! a = Some i → (i < length (cdList c))%nat.

Lemma NewCandidates_masters l : masters_ok (NewCandidates l).
Proof.
  split; simpl.
  - intros a Ha. apply indexMasters_some. by right.
  - intros a i E. apply indexMasters_lookup in E as [E|E]; [by rewrite lookup_empty in E|lia].
Qed.

Lemma candidates_Update_ok a b c : masters_ok c → a ∈ NodeMaster <$> cdList c →
  ∃ c', candidates_Update a b c = Some c' ∧ masters_ok c' ∧ NodeMaster <$> cdList c' = NodeMaster <$> cdList c.
Proof.
  intros [Hs Hi] Ha. unfold candidates_Update. destruct (Hs a Ha) as [i Ei]. rewrite Ei. cbn [mbind option_bind].
  destruct (lookup_lt_is_Some_2 (cdList c) i (Hi a i Ei)) as [x Ex]. rewrite Ex. cbn [mbind option_bind].
  eexists. split; [done|]. destruct c as [l m e s]. simpl in *.
  assert (NodeMaster <$> <[i := MkCandidate (NodeMaster x) (cEndorsor x) (cIdentity x) b]> l = NodeMaster <$> l) as El.
  { rewrite list_fmap_insert. apply list_insert_id. by rewrite list_lookup_fmap, Ex. }
  unfold masters_ok. simpl. rewrite El, length_insert. done.
Qed.

Lemma updateCandidates_ok us c A A' : masters_ok c → (∀ u, u ∈ us → pAddress u ∈ NodeMaster <$> cdList c) →
  updateAuthority us A = Ok (tt, A') → ∃ c', updateCandidates us c A = Ok (c', A').
Proof.
  revert c A. induction us as [|u us IH]; intros c A Hc Hus E.
  - injection E as <-. by exists c.
  - cbn [updateAuthority updateCandidates] in *. unfold mbind at 1, M_bind in E.
    destruct (Authority_Update (pAddress u) (pActive u) A) as [[b A1]|]; [|done]. cbn [mbind result_bind] in *.
    destruct (candidates_Update_ok (pAddress u) (pActive u) c Hc) as (c1 & -> & Hc1 & E1); [apply Hus; set_solver|].
    apply IH; [done| |done]. intros u' Hu'. rewrite E1. apply Hus. set_solver.
Qed.

(** ** The list in memory *)
Section coherent.
Context (checkBalance : Address → Address → result bool) (limit : Z).

(** [c] lists the candidates of [A], and its picked indices are up to date. *)
Record coherent (A : Authority) (c : candidates) : Prop := {
  co_list : ∀ l, auth_list A l → cdList c = candidateOf A <$> l;
  co_masters : masters_ok c;
  co_satisfied : cdSatisfied c = [] ∨ satisfy checkBalance limit 0 (cdList c) [] = Ok (cdSatisfied c);
}.

Lemma coherent_new A l : auth_list A l → coherent A (NewCandidates (candidateOf A <$> l)).
Proof.
  intros HA. split; [|apply NewCandidates_masters|by left].
  intros l' HA'. simpl. pose proof (AllCandidates_spec l A HA) as E1. pose proof (AllCandidates_spec l' A HA') as E2.
  congruence.
Qed.
End coherent.

Lemma Pick_ok mbp chk A l c cands : auth_list A l → coherent chk (GetMaxBlockProposers mbp true) A c →
  pick chk (GetMaxBlockProposers mbp true) A [] l = Ok cands →
  ∃ c', Pick mbp chk c = Ok (map toProposer cands, c') ∧ masters_ok c' ∧ cdList c' = cdList c.
Proof.
  intros HA [El Hm Hs] E. specialize (El l HA).
  destruct (satisfy_pick chk (GetMaxBlockProposers mbp true) A (cdList c) [] l [] [] cands) as (idx & Ei & Ep);
    [done|done|done|done|]. simpl in Ei. rewrite <- El in Ei. unfold Pick.
  assert ((if (length (cdSatisfied c) =? 0)%nat then satisfy chk (GetMaxBlockProposers mbp true) 0 (cdList c) []
           else Ok (cdSatisfied c)) = Ok idx) as ->.
  { destruct (Nat.eqb_spec (length (cdSatisfied c)) 0); [done|].
    destruct Hs as [Hs|Hs]; [by rewrite Hs in n|congruence]. }
  cbn [mbind result_bind]. rewrite Ep. cbn [mbind result_bind]. eexists. split; [done|]. by destruct c.
Qed.

Lemma pick_sub chk lim A acc l cands : pick chk lim A acc l = Ok cands →
  ∃ l', cands = acc ++ (candidateOf A <$> l') ∧ l' `sublist_of` l.
Proof.
  revert acc. induction l as [|a l IH]; intros acc E; simpl in *.
  { injection E as <-. exists []. by rewrite app_nil_r. }
  case_match; [injection E as <-; exists []; rewrite app_nil_r; split; [done|apply sublist_nil_l]|].
  destruct (chk a _) as [ok|]; [|done]. cbn [mbind result_bind] in E.
  apply IH in E as (l' & -> & Hl). destruct ok.
  - exists (a :: l'). rewrite <- app_assoc. split; [done|by constructor].
  - exists l'. split; [done|by constructor].
Qed.

(** The proposers are distinct candidates. *)
Lemma pick_masters chk lim A l cands : auth_list A l → pick chk lim A [] l = Ok cands →
  NoDup (pAddress <$> map toProposer cands) ∧
  (∀ a, a ∈ pAddress <$> map toProposer cands → a ∈ NodeMaster <$> (candidateOf A <$> l)) ∧
  (length cands ≤ length l)%nat.
Proof.
  intros HA E. apply pick_sub in E as (l' & -> & Hl). simpl.
  assert (pAddress <$> map toProposer (candidateOf A <$> l') = l') as ->.
  { clear. induction l' as [|a l' IH]; simpl; [done|]. f_equal. exact IH. }
  assert (NodeMaster <$> (candidateOf A <$> l) = l) as ->.
  { clear. induction l as [|a l IH]; simpl; [done|]. f_equal. exact IH. }
  split; [eapply sublist_NoDup; [apply (al_nodup _ _ HA)|done]|].
  split; [intros a Ha; eapply elem_of_sublist; eauto|].
  rewrite length_fmap. by apply sublist_length.
Qed.
