(* ===== verification/PackerStake.v ===== *)
(** * The staker under the packer and the validator

    In every state of the staker that block processing meets, the leader group
    and the total weight are read without error, the balance check passes, and a
    leader's block scores at least one: the smallest weight of a leader is more
    than one ten-thousandth of the largest possible total. *)

From S2P Require Import Prelude Bytes External Thor Block Tx ChainRepo Scheduler SchedulerCorrect.
From S2P Require Import Stakes GlobalStats Aggregation Validation Delegation Storage LinkedList RenewalList.
From S2P Require Import Repository ValidationService Staker StakerInv StakerOps Housekeep TransitionInv StakerNative StakerWorld StakerChain StakerCorrect.
From S2P Require Import Authority Consensus PackerSched.

Section stake.
Context `{SMS : SafeMathSpec} `{CFG : Config} (OK : config_ok CFG).

(** The staker's invariant at block [number], with at most 101 leaders. *)
Definition staker_fine (number : Z) (s : Staker) : Prop :=
  ∃ x, view_of s x ∧ Inv (λ _, number) x ∧ funded s 0 ∧ (length (vA x) ≤ 101)%nat.

Lemma fine_balance number s : staker_fine number s → ContractBalanceCheck 0 s = Ok (tt, s).
Proof.
  intros (x & Hx & HI & Hf & _). pose proof (Inv_stats HI) as Hst. rewrite <- (vo_stats _ _ Hx) in Hst.
  pose proof (wp_ContractBalanceCheck 0 (λ u s', s' = s) never s Hst Hf eq_refl) as Hw. unfold wp in Hw.
  destruct (ContractBalanceCheck 0 s) as [[[] s']|]; [by subst|done].
Qed.

Definition minWeight : Z := MinStakeVET.
Definition maxWeight : Z := 3 * MaxStakeVET.

Lemma leader_weight number s x a v : view_of s x → Inv (λ _, number) x → a ∈ vA x →
  valsOf s !! a = Some v → minWeight ≤ ValWeight v ≤ maxWeight.
Proof.
  intros Hx HI Ha Hv. pose proof (vlocal_strip _ _ _ _ (Inv_vlocal _ _ _ _ HI (view_val _ _ _ _ Hx Hv))) as Hl.
  pose proof (proj1 (l_active _ _ _ _ Hl) Ha) as Hs. destruct (vlocal_active _ _ _ _ Hl Hs) as [Hok _].
  destruct (vlocal_amounts _ _ _ _ Hl) as [? [_ Hmax] [Hlk _]]. unfold maxWeight, minWeight. split; [|lia].
  destruct Hok as [_ ? _ Hmin _ _ (m & Hm & -> & _) _].
  pose proof (af_locked _ (vlocal_agg_facts _ _ _ _ Hl)).
  assert (LockedVET v ≤ calcWeight (LockedVET v) m); [|lia].
  unfold vLocked in *. consts. unfold Multiplier, MultiplierWithDelegations in Hm.
  destruct Hm as [->| ->]; [rewrite calcWeight_100|rewrite calcWeight_200]; lia.
Qed.

(** ** The leader group *)
Record leaders_ok (ls : list Leader) (totalWeight : Z) : Prop := {
  lo_nodup : NoDup (Leader_Address <$> ls);
  lo_weights : ∀ l, l ∈ ls → minWeight ≤ Leader_Weight l ≤ maxWeight;
  lo_length : (length ls ≤ 101)%nat;
  lo_total : totalWeight = sumWeights ls;
}.

Lemma leaders_addresses s (l : list Address) : (∀ a, a ∈ l → is_Some (valsOf s !! a)) →
  Leader_Address <$> omap (λ a, leaderOf a <$> (valsOf s !! a)) l = l.
Proof.
  induction l as [|a l IH]; intros Hl; [done|]. destruct (Hl a) as [v Hv]; [set_solver|].
  simpl. rewrite Hv. simpl. f_equal. apply IH. set_solver.
Qed.

Lemma fine_leaders number s : staker_fine number s →
  ∃ ls vet tw, LeaderGroup s = Ok (ls, s) ∧ LockedStake s = Ok ((vet, tw), s) ∧ leaders_ok ls tw.
Proof.
  intros (x & Hx & HI & _ & Hseats).
  assert (∀ a, a ∈ vA x → is_Some (valsOf s !! a)) as Hin.
  { intros a. apply (dll_lookup _ _ a (repr_active _ _ _ _ _ (vo_repr _ _ Hx))). }
  eexists _, (VET (lockedOf (globalStatsService s))), (Weight (lockedOf (globalStatsService s))).
  split; [by apply view_leaders|]. split.
  { unfold LockedStake, GetLockedStake, getLocked, zoom, mbind, M_bind, gets, lockedOf.
    destruct s as [? [[]] ? ? ? ? ?]; done. }
  split.
  - rewrite leaders_addresses by done. by destruct (view_nodup _ _ Hx).
  - intros l Hl. apply list_elem_of_omap in Hl as (a & Ha & Hl).
    destruct (valsOf s !! a) as [v|] eqn:Hv; [|done]. injection Hl as <-. simpl. by eapply leader_weight.
  - rewrite <- (length_fmap Leader_Address), leaders_addresses by done. done.
  - by eapply view_weights.
Qed.

Lemma leaders_sum ls : lsum pWeight (leaderProposers ls) = sumWeights ls.
Proof. induction ls as [|l ls IH]; [done|]. simpl. unfold lsum in *. simpl. by rewrite IH. Qed.

Lemma sumWeights_max ls : (∀ l, l ∈ ls → minWeight ≤ Leader_Weight l ≤ maxWeight) →
  0 ≤ sumWeights ls ≤ Z.of_nat (length ls) * maxWeight.
Proof.
  induction ls as [|l ls IH]; intros Hw; [simpl; lia|]. cbn [sumWeights foldr length].
  destruct (Hw l) as [Hmin Hmax]; [set_solver|]. fold (sumWeights ls). unfold minWeight, maxWeight in *. consts.
  destruct IH; [set_solver|]. lia.
Qed.

Lemma lsum_filter_le {A} (f : A → Z) (P : A → Prop) `{!∀ x, Decision (P x)} (l : list A) :
  (∀ x, x ∈ l → 0 ≤ f x) → lsum f (filter P l) ≤ lsum f l.
Proof.
  intros Hf. rewrite (lsum_filter f l P).
  assert (0 ≤ lsum f (filter (λ x, ¬ P x) l)); [|lia].
  apply lsum_nonneg. intros x [_ Hx]%list_elem_of_filter. by apply Hf.
Qed.

Lemma pos_score `{Crypto} `{Sampling} (HT : 0 < BlockInterval < 2 ^ 32) ls tw a num parent seed j sch :
  leaders_ok ls tw → NewPoSScheduler a (leaderProposers ls) num parent seed tw = Ok sch →
  0 ≤ parent → 1 ≤ j → parent + j * BlockInterval < max64 →
  0 < (pos_Updates sch (parent + j * BlockInterval)).2 ≤ MaxPosScore.
Proof.
  intros [Hnd Hw Hlen ->] Es Hp Hj Hmax. pose proof (sumWeights_max ls Hw) as Htot.
  set (ps := leaderProposers ls) in *.
  assert (pAddress <$> ps = Leader_Address <$> ls) as Eaddr by (unfold ps, leaderProposers; by rewrite <- list_fmap_compose).
  assert (∀ p, p ∈ ps → minWeight ≤ pWeight p) as Hpw.
  { intros p Hpp. unfold ps, leaderProposers in Hpp. apply list_elem_of_fmap in Hpp as (l & -> & Hl). apply (Hw l Hl). }
  assert (∀ p, p ∈ ps → 0 ≤ pWeight p) as Hpos by (intros p Hpp; specialize (Hpw p Hpp); unfold minWeight in Hpw; consts; lia).
  assert (∀ p, p ∈ participants a ps → 0 ≤ pWeight p) as Hpos' by (intros p Hpp; by eapply Hpos, participants_sub).
  pose proof (lsum_filter_le pWeight (λ p, Is_true (pActive p || (pAddress p =? a))) ps Hpos) as Hsub.
  fold (participants a ps) in Hsub. unfold ps in Hsub at 2. rewrite leaders_sum in Hsub.
  assert (sumWeights ls ≤ 101 * maxWeight) as Hm by (unfold maxWeight in *; consts; lia).
  destruct (listedProposer a ps) as [q|] eqn:Eq; [|unfold NewPoSScheduler in Es; by rewrite Eq in Es].
  destruct (listedProposer_in _ _ _ Eq) as [Hq Eqa].
  assert (minWeight ≤ sumWeights ls) as Htw.
  { pose proof (lsum_elem pWeight (participants a ps) q Hpos' Hq). pose proof (Hpw q (participants_sub _ _ _ Hq)). lia. }
  destruct (updates_pos HT ps a num parent seed (sumWeights ls) j sch) as [[Hd _] ->];
    try done; [by rewrite Eaddr|unfold MaxPosScore, maxWeight in *; consts; ulia|unfold minWeight in Htw; consts; lia|].
  set (D := deactivated _) in *. set (kept := filter (λ p, pAddress p ∉ D) (participants a ps)).
  assert (lsum pWeight kept ≤ sumWeights ls) as Hk by (etrans; [by apply lsum_filter_le|done]).
  assert (minWeight ≤ lsum pWeight kept) as Hk'.
  { etrans; [apply (Hpw q (participants_sub _ _ _ Hq))|]. apply lsum_elem.
    - intros p [_ Hpp]%list_elem_of_filter. by apply Hpos'.
    - apply list_elem_of_filter. split; [|done]. rewrite Hd.
      assert (pAddress (pos_proposer sch) = a) as ->; [|tauto].
      unfold NewPoSScheduler in Es. rewrite Eq in Es. by injection Es as <-. }
  unfold MaxPosScore, minWeight, maxWeight in *. consts. split.
  - apply Z.div_str_pos. lia.
  - apply Z.div_le_upper_bound; lia.
Qed.

(** ** The staker at a block *)
Context (hayabusa : Z) (Hhay : block_ok hayabusa).

(** At most 101 validators are active, and the limit in force is at most 101. *)
Record seats_ok (s : Staker) : Prop := {
  seats_active : activeCount s ≤ InitialMaxBlockProposers;
  seats_limit : GetMaxBlockProposers (maxBlockProposersParam s) false ≤ InitialMaxBlockProposers;
}.

(** [s] is the staker of a chain at block [number], with at most 101 seats. *)
Definition staker_at (number : Z) (s : Staker) : Prop :=
  seats_ok s ∧
  ∃ n w, reachable hayabusa n w ∧ n < maxUint256 ∧ wStaker w = s ∧ wBlock w = number.

Lemma at_fine number s : staker_at number s → staker_fine number s.
Proof.
  intros [[Ha _] (n & w & Hr & Hn & <- & <-)].
  destruct (reachable_good OK hayabusa Hhay n 0 w Hr) as [x [[Hx ? ? ? ? ? ?] ?]]; [done|lia|].
  exists x. split_and!; try done. rewrite (view_active _ _ Hx) in Ha. unfold InitialMaxBlockProposers in Ha. lia.
Qed.

Lemma at_sync number s : staker_at number s → block_ok (number + 1) →
  ∃ status s', SyncPOS hayabusa (number + 1) s = Ok (status, s') ∧ staker_at (number + 1) s'.
Proof.
  intros [[Ha Hl] (n & w & Hr & Hn & <- & <-)] Hb.
  destruct (reachable_good OK hayabusa Hhay n 0 w Hr) as [x Hg]; [done|lia|].
  pose proof (view_active _ _ (wi_view _ _ _ _ (g_world _ _ _ _ Hg))) as Ex. rewrite Ex in Ha.
  pose proof (good_block OK hayabusa Hhay 0 w x Hg Hb) as Hw. unfold wp in Hw.
  destruct (SyncPOS hayabusa (wBlock w + 1) (wStaker w)) as [[st s']|e] eqn:E.
  2: { destruct Hw as [_ Hc]. unfold InitialMaxBlockProposers in Ha. lia. }
  destruct Hw as (x' & _ & [Hx' _ Hk Hs _]). exists st, s'. split; [done|]. split.
  { split; [rewrite (view_active _ _ Hx'); lia|by rewrite (kf_param _ _ Hk)]. }
  exists (n + 0), (w <| wStaker := s' |> <| wBlock := wBlock w + 1 |>).
  split; [|split; [lia|done]]. eapply reach_step; [done|]. by eapply step_block.
Qed.

Lemma at_online number us s s' : staker_at number s → setOnline number us s = Ok (tt, s') → staker_at number s'.
Proof.
  revert s. induction us as [|u us IH]; intros s Hs E; [by injection E as <-|].
  cbn [setOnline] in E. unfold mbind at 1, M_bind in E.
  destruct (SetOnline (pAddress u) number (pActive u) s) as [[[] s1]|] eqn:E1; [|done]. apply (IH s1); [|done].
  destruct Hs as [[Ha Hl] (n & w & Hr & Hn & <- & <-)]. split.
  { destruct (reachable_good OK hayabusa Hhay n 0 w Hr) as [x Hg]; [done|lia|].
    destruct (wp_Ok _ _ _ _ _ _ (good_online hayabusa 0 (pAddress u) (pActive u) w x Hg) E1)
      as (x' & [[Hx' _ _ _ _ _ _] _] & EA & [= Ep _ _]). simpl in Hx'.
    rewrite (view_active _ _ (wi_view _ _ _ _ (g_world _ _ _ _ Hg))) in Ha.
    split; [by rewrite (view_active _ _ Hx'), EA|by rewrite Ep]. }
  exists (n + 0), (w <| wStaker := s1 |>).
  split; [|split; [lia|done]]. eapply reach_step; [done|]. by eapply step_online.
Qed.
End stake.
