(* ===== verification/PackerExec.v ===== *)
(** * Adopted transactions, executed again by the validator

    What the packer and the validator rely on of the runtime, and the relation
    between a flow and the validator's execution: the transactions a flow has
    adopted are valid for the header it will pack, and executing them one after
    another gives the flow's state, receipts and gas. *)

From S2P Require Import Prelude Bytes External Thor Block BlockCorrect Tx ChainRepo Scheduler.
From S2P Require Import Staker Authority Trie TxRoot Consensus Packer PackerStake.

Section exec.
Context `{SMS : SafeMathSpec} `{CFG : Config} `{Rlp} `{Drlp} `{Crypto} `{Sampling} `{SMM : SafeMulOp}.
Context {X : Type} `{!Runtime X} (hayabusa : Z).

(** What the runtime promises: a transaction that executes has an origin and
    uses at most the gas it provides; it changes the staker by calls of the
    contract, which emits events with topics only; a runtime is made without
    touching the staker. *)
Class RuntimeSpec : Prop := {
  exec_origin r id ctx t (st : State X) rc st' :
    ExecuteTransaction r id ctx t st = Ok (rc, st') → ∃ a, Tx_Origin t = Ok a;
  exec_gas r id ctx t (st : State X) rc st' :
    ExecuteTransaction r id ctx t st = Ok (rc, st') → 0 ≤ rcGasUsed rc ≤ Tx_Gas t;
  exec_staker r id ctx t (st : State X) rc st' :
    ExecuteTransaction r id ctx t st = Ok (rc, st') →
    staker_at hayabusa (bcNumber ctx) (sStaker st) → staker_at hayabusa (bcNumber ctx) (sStaker st');
  exec_topics r id ctx t (st : State X) rc st' :
    ExecuteTransaction r id ctx t st = Ok (rc, st') →
    ∀ ev, ev ∈ eventsOf [rc] → evAddress ev = StakerAddress → evTopics ev ≠ [];
  new_staker ctx (st : State X) : sStaker (runtime_New ctx st) = sStaker st;
}.

Context `{!RuntimeSpec} (forkConfig : ForkConfig) (IsOriginBlocked : Address → bool).
Abbreviation Flow := (Flow (X := X)).
Implicit Types (f : Flow).

Lemma executeTxs_app r id ctx txs1 txs2 (x : executed) :
  executeTxs r id ctx (txs1 ++ txs2) x = x' ← executeTxs r id ctx txs1 x; executeTxs r id ctx txs2 x'.
Proof.
  revert x. induction txs1 as [|t txs1 IH]; intros x; [done|]. cbn [app executeTxs].
  destruct (executeTx r id ctx t x) as [x'|]; [|done]. cbn [mbind result_bind]. apply IH.
Qed.

Lemma validateTxs_app r h txs1 txs2 :
  validateTxs forkConfig IsOriginBlocked r h (txs1 ++ txs2) =
  (validateTxs forkConfig IsOriginBlocked r h txs1 ;; validateTxs forkConfig IsOriginBlocked r h txs2).
Proof.
  induction txs1 as [|t txs1 IH]; [done|]. cbn [app validateTxs]. rewrite IH.
  by destruct (validateTx _ _ r h t).
Qed.

Lemma adoptable_valid r p t f a h : adoptable forkConfig IsOriginBlocked r p t f = Ok tt →
  Tx_Origin t = Ok a → Header_Number h = bcNumber (fContext f) → TxsFeatures h = fFeatures f →
  validateTx forkConfig IsOriginBlocked r h t = Ok tt.
Proof.
  intros E Ea En Ef. unfold adoptable in E. unfold validateTx. rewrite Ea, En, Ef in *. cbn [mbind result_bind].
  destruct (_ && IsOriginBlocked a); [done|]. destruct (Tx_Delegator t) as [d|]; [|done].
  cbn [check mbind result_bind]. destruct (_ && _); [done|]. destruct (TestFeatures t _) as [[]|]; [|done].
  cbn [check mbind result_bind]. destruct (negb (Tx_ChainTag t =? _)); [done|].
  destruct (_ <? BlockRef_Number _); [done|]. destruct (IsExpired t _); [done|].
  destruct (bcGasLimit _ <? _); [by case_match|].
  cbn [check mbind result_bind]. destruct (_ <? GALACTICA _); [|done]. by destruct (negb (Tx_Type t =? _)).
Qed.

Lemma adoptable_gas r p t f : adoptable forkConfig IsOriginBlocked r p t f = Ok tt →
  fGasUsed f +u64 Tx_Gas t ≤ bcGasLimit (fContext f).
Proof.
  unfold adoptable. intros E. destruct (_ && IsOriginBlocked _); [done|]. destruct (Tx_Delegator t); [|done].
  destruct (_ && _); [done|]. destruct (TestFeatures t _); [|done]. destruct (negb (Tx_ChainTag t =? _)); [done|].
  destruct (_ <? BlockRef_Number _); [done|]. destruct (IsExpired t _); [done|].
  destruct (Z.ltb_spec (bcGasLimit (fContext f)) (fGasUsed f +u64 Tx_Gas t)); [by case_match|lia].
Qed.

(** What a successful adoption did. *)
Lemma Adopt_inv r p t f f' : Adopt forkConfig IsOriginBlocked r p t f = Ok (tt, f') →
  adoptable forkConfig IsOriginBlocked r p t f = Ok tt ∧
  ∃ rc st, ExecuteTransaction r (ID (fParent f)) (fContext f) t (fState f) = Ok (rc, st) ∧
    f' = MkFlow (fParent f) (fContext f) st (<[Tx_ID t := rcReverted rc]> (fProcessedTxs f))
           (fGasUsed f +u64 rcGasUsed rc) (fTxs f ++ [t]) (fReceipts f ++ [rc]) (fFeatures f) (fPosActive f) ∧
    executeTx r (ID (fParent f)) (fContext f) t
      (MkExecuted (fState f) (fReceipts f) (fGasUsed f) (fProcessedTxs f)) =
    Ok (MkExecuted (fState f') (fReceipts f') (fGasUsed f') (fProcessedTxs f')).
Proof.
  unfold Adopt, executeTx. intros E. destruct (adoptable _ _ r p t f) as [[]|]; [|done]. split; [done|].
  cbn [mbind result_bind exProcessed exState exReceipts exGasUsed] in *.
  destruct (hasTx _ _ _ _ _) as [[]|]; [done| |done]. cbn [check mbind result_bind] in *.
  assert (∀ (u : result unit) (g : unit → result (unit * Flow)), u ≫= g = Ok (tt, f') → u = Ok tt) as Hb
    by (by intros [[]|]).
  pose proof (Hb _ _ E) as Ed. rewrite Ed in E. cbn [mbind result_bind] in E.
  destruct (ExecuteTransaction _ _ _ t _) as [[rc st]|]; [|done]. injection E as <-.
  exists rc, st. split; [done|]. split; [done|]. cbn [fState fReceipts fGasUsed fProcessedTxs].
  destruct (Tx_DependsOn t) as [d|]; [|done].
  destruct (findDep _ _ _ d) as [[[] []]|]; done.
Qed.

(** ** The flow and the execution *)
Record flow_ok (r : ChainRepo) (f0 f : Flow) : Prop := {
  fo_parent : fParent f = fParent f0;
  fo_context : fContext f = fContext f0;
  fo_features : fFeatures f = fFeatures f0;
  fo_pos : fPosActive f = fPosActive f0;
  fo_exec : executeTxs r (ID (fParent f0)) (fContext f0) (fTxs f) (MkExecuted (fState f0) [] 0 ∅) =
            Ok (MkExecuted (fState f) (fReceipts f) (fGasUsed f) (fProcessedTxs f));
  fo_valid : ∀ h, Header_Number h = bcNumber (fContext f0) → TxsFeatures h = fFeatures f0 →
             validateTxs forkConfig IsOriginBlocked r h (fTxs f) = Ok tt;
  fo_gas : 0 ≤ fGasUsed f ≤ bcGasLimit (fContext f0);
  fo_staker : staker_at hayabusa (bcNumber (fContext f0)) (sStaker (fState f));
  fo_topics : ∀ ev, ev ∈ eventsOf (fReceipts f) → evAddress ev = StakerAddress → evTopics ev ≠ [];
}.

Lemma Adopt_ok r p t f0 f f' : flow_ok r f0 f → 0 ≤ Tx_Gas t →
  Tx_Gas t + bcGasLimit (fContext f0) < max64 →
  Adopt forkConfig IsOriginBlocked r p t f = Ok (tt, f') → flow_ok r f0 f'.
Proof.
  intros [Ep Ec Ef Epos Ex Hv Hg Hs Ht] Htg Hmax E.
  destruct (Adopt_inv _ _ _ _ _ E) as (Ea & rc & st & Ee & -> & Er). destruct (exec_origin _ _ _ _ _ _ _ Ee) as [a Eo].
  pose proof (adoptable_gas _ _ _ _ Ea) as Hgas. pose proof (exec_gas _ _ _ _ _ _ _ Ee) as Hrc.
  rewrite Ec in Hgas. rewrite wrap64_id in Hgas by ulia.
  split; cbn [fParent fContext fFeatures fPosActive fTxs fState fReceipts fGasUsed fProcessedTxs]; try done.
  - rewrite executeTxs_app, Ex. cbn [mbind result_bind executeTxs]. rewrite <- Ep, <- Ec, Er. done.
  - intros h Hn Hf. rewrite validateTxs_app, Hv by done. cbn [mbind result_bind validateTxs].
    rewrite (adoptable_valid r p t f a h Ea Eo); [done|by rewrite Ec|by rewrite Ef].
  - rewrite wrap64_id by ulia. lia.
  - rewrite <- Ec. eapply exec_staker; [exact Ee|]. by rewrite Ec.
  - intros ev Hev. unfold eventsOf in Hev. rewrite bind_app in Hev. apply elem_of_app in Hev as [Hev|Hev];
      [by apply Ht|]. by eapply exec_topics.
Qed.

Lemma adoptAll_ok r p txs f0 f : flow_ok r f0 f →
  (∀ t, t ∈ txs → 0 ≤ Tx_Gas t ∧ Tx_Gas t + bcGasLimit (fContext f0) < max64) →
  flow_ok r f0 (adoptAll forkConfig IsOriginBlocked r p txs f).
Proof.
  revert f. induction txs as [|t txs IH]; intros f Hf Htx; [done|]. cbn [adoptAll].
  destruct (Htx t) as [Htg Hmax]; [set_solver|].
  assert (∀ t, t ∈ txs → 0 ≤ Tx_Gas t ∧ Tx_Gas t + bcGasLimit (fContext f0) < max64) as Htx' by set_solver.
  destruct (Adopt _ _ r p t f) as [[[] f']|e] eqn:E.
  - apply IH; [|done]. by eapply Adopt_ok.
  - case_bool_decide; [done|by apply IH].
Qed.
End exec.

(** ** The header of a packed block *)
Section header.
Context `{CFG : Config} `{Rlp} `{Drlp} `{Crypto} `{!CryptoSpec} `{Sampling} `{SM : SafeMath} `{SMM : SafeMulOp}.
Context {X : Type} `{!Runtime X} (forkConfig : ForkConfig).

(** ** Signatures *)
Lemma signed_pubkey h k rest : Signature h = sign k (Header_SigningHash h) ++ rest →
  Header_pubkey h = Ok (pubOf k).
Proof.
  intros E. pose proof (sign_length k (Header_SigningHash h)) as Hl. unfold Header_pubkey, ecdsaPart.
  rewrite E, length_app, Hl. destruct (Nat.ltb_spec (65 + length rest) 65); [lia|].
  rewrite take_app_length' by done. by rewrite sigToPub_sign.
Qed.

Lemma signed_signer h k rest : Signature h = sign k (Header_SigningHash h) ++ rest → Header_Number h ≠ 0 →
  Header_Signer h = Ok (pubkeyToAddress (pubOf k)).
Proof.
  intros E Hn. unfold Header_Signer. rewrite (proj2 (Z.eqb_neq _ _) Hn). by rewrite (signed_pubkey h k rest E).
Qed.

Lemma signed_beta h k : Signature h = sign k (Header_SigningHash h) ++ (vrf_prove k (Alpha (Extension h))).2 →
  ∃ beta, Beta h = Ok beta.
Proof.
  intros E. unfold Beta. case_match; [eauto|]. rewrite (signed_pubkey h k _ E).
  pose proof (sign_length k (Header_SigningHash h)) as Hl. pose proof (vrf_proof_length k (Alpha (Extension h))) as Hp.
  unfold proofPart. rewrite E, length_app, Hl, Hp. cbn [Nat.eqb Nat.add ComplexSigSize negb mbind result_bind].
  rewrite drop_app_length' by done. rewrite vrf_verify_prove. eauto.
Qed.

(** ** What [Pack] builds *)
Definition packedHeader (f : Flow (X := X)) (st : State X) (com : bool) (alpha rroot troot sig : bytes) : Header :=
  let ctx := fContext f in
  MkHeader (ID (fParent f)) (bcTime ctx) (bcGasLimit ctx) (bcBeneficiary ctx) (fGasUsed f) (bcTotalScore ctx)
    (MkTxsRootFeatures (from_be troot) (fFeatures f)) (Stage_Hash st) (from_be rroot) sig
    (MkExtension alpha com (bcBaseFee ctx)).

Lemma packed_number h parent : ParentID h = ID parent → Header_Number h = Header_Number parent +u32 1.
Proof. intros E. unfold Header_Number at 1. by rewrite E, Number_ID. Qed.

(** The signature, with the proof of randomness from VIP-214 on. *)
Definition signed_by (key : Z) (parent h : Header) : Prop :=
  if Header_Number h <? VIP214 forkConfig
  then Alpha (Extension h) = [] ∧ Signature h = sign key (Header_SigningHash h)
  else alphaOf parent = Ok (Alpha (Extension h)) ∧
       Signature h = sign key (Header_SigningHash h) ++ (vrf_prove key (Alpha (Extension h))).2.

Record packed (p : Packer) (key : Z) (f : Flow (X := X)) (b : block) (st : State X) (rroot troot : bytes) : Prop := {
  pk_master : nodeMaster p = pubkeyToAddress (pubOf key);
  pk_rewards : (if fPosActive f
                then DistributeRewards (bcTime (fContext f)) (bcBeneficiary (fContext f)) (nodeMaster p)
                       (bcNumber (fContext f)) (fState f)
                else Ok (fState f)) = Ok st;
  pk_receipts : Receipts_RootHash (fReceipts f) = Ok rroot;
  pk_txs : Transactions_RootHash (fTxs f) = Ok troot;
  pk_block : ∃ com alpha sig,
    b = MkBlock (packedHeader f st com alpha rroot troot sig) (fTxs f) ∧
    (bcNumber (fContext f) < FINALITY forkConfig → com = false);
  pk_signed : signed_by key (fParent f) (blkHeader b);
}.

Lemma Pack_inv p key vote f b st rs : Pack forkConfig p key vote f = Ok (b, st, rs) →
  bcNumber (fContext f) = Header_Number (fParent f) +u32 1 →
  rs = fReceipts f ∧ ∃ rroot troot, packed p key f b st rroot troot.
Proof.
  intros E En. unfold Pack in E. destruct (Z.eqb_spec (nodeMaster p) (pubkeyToAddress (pubOf key))) as [Em|]; [|done].
  cbn [negb] in E. rewrite <- Em in E.
  destruct (if fPosActive f then _ else _) as [st1|] eqn:Er; [|done]. cbn [mbind result_bind] in E.
  set (com := _ && vote) in E.
  assert (bcNumber (fContext f) < FINALITY forkConfig → com = false) as Hcom.
  { intros Hlt. unfold com. by rewrite (proj2 (Z.leb_gt _ _) Hlt). }
  destruct (bcNumber (fContext f) <? VIP214 forkConfig) eqn:Ev.
  - unfold Build in E. destruct (Receipts_RootHash _) as [rroot|] eqn:Err; [|done].
    destruct (Transactions_RootHash _) as [troot|] eqn:Etr; [|done]. cbn [mbind result_bind] in E.
    injection E as <- <- <-. split; [done|]. exists rroot, troot. split; try done; [by do 3 eexists|].
    unfold signed_by. rewrite (packed_number _ (fParent f)) by done. rewrite <- En, Ev. done.
  - destruct (alphaOf (fParent f)) as [alpha|] eqn:Ea; [|done]. cbn [mbind result_bind] in E.
    unfold Build in E. destruct (Receipts_RootHash _) as [rroot|] eqn:Err; [|done].
    destruct (Transactions_RootHash _) as [troot|] eqn:Etr; [|done]. cbn [mbind result_bind] in E.
    destruct (vrf_prove key alpha) as [beta proof] eqn:Eproof. unfold NewComplexSignature in E.
    assert (length proof = 81%nat) as Hproof by (change proof with ((beta, proof).2); rewrite <- Eproof; apply vrf_proof_length).
    rewrite sign_length, Hproof in E. cbn [negb Nat.eqb mbind result_bind] in E.
    injection E as <- <- <-. split; [done|]. exists rroot, troot. split; try done; [by do 3 eexists|].
    unfold signed_by. rewrite (packed_number _ (fParent f)) by done. rewrite <- En, Ev. split; [done|]. simpl. by rewrite Eproof.
Qed.

Lemma CalcBaseFee_nil parent fee : CalcBaseFee parent forkConfig = Ok fee →
  fee = None ↔ Header_Number parent +u32 1 < GALACTICA forkConfig.
Proof.
  unfold CalcBaseFee. destruct (Z.ltb_spec (Header_Number parent +u32 1) (GALACTICA forkConfig)).
  - by intros [= <-].
  - intros E. split; [intros ->|lia]. repeat (case_match; try done).
Qed.

Lemma packer_gasLimit_ok p parent : MinGasLimit ≤ GasLimit parent → is64 (GasLimit parent) →
  is64 (targetGasLimit p) →
  GasLimit_IsValid (packer_gasLimit p (GasLimit parent)) (GasLimit parent) = true.
Proof.
  intros Hm Hp Ht. unfold packer_gasLimit. destruct (negb _); [by apply Qualify_valid|].
  unfold GasLimit_IsValid. rewrite (proj2 (Z.ltb_ge _ _)) by done. rewrite Z.ltb_irrefl, Z.sub_diag.
  apply Z.leb_le. change (wrap64 0) with 0. apply Z.div_pos; [ulia|done].
Qed.

(** ** The header is valid *)
Record follows (parent h : Header) (key : Z) : Prop := {
  fw_number : Header_Number h = Header_Number parent +u32 1;
  fw_time : 0 ≤ Timestamp parent ∧ ∃ j, 1 ≤ j ∧ Timestamp h = Timestamp parent + j * BlockInterval ∧
              Timestamp h < max64;
  fw_gas : GasUsed h ≤ GasLimit h;
  fw_limit : GasLimit_IsValid (GasLimit h) (GasLimit parent) = true;
  fw_score : TotalScore parent < TotalScore h;
  fw_com : Header_Number h < FINALITY forkConfig → COM (Extension h) = false;
  fw_fee : CalcBaseFee parent forkConfig = Ok (BaseFee (Extension h));
  fw_signed : signed_by key parent h;
}.

Lemma validateBlockHeader_ok h parent key now : 0 < BlockInterval → follows parent h key →
  Timestamp h ≤ now +u64 BlockInterval → validateBlockHeader forkConfig h parent now = Ok tt.
Proof.
  intros HT [En (Hp & j & Hj & Et & Hmax) Hg Hl Hs Hc Hf Hsg] Hnow. unfold validateBlockHeader, check.
  rewrite (proj2 (Z.leb_gt (Timestamp h) (Timestamp parent))) by nia. cbn [mbind result_bind].
  rewrite (wrap64_id (Timestamp h - Timestamp parent)) by (unfold_int; nia). replace (Timestamp h - Timestamp parent) with (j * BlockInterval) by lia.
  rewrite Z.mod_mul by lia. cbn [negb Z.eqb mbind result_bind].
  rewrite (proj2 (Z.ltb_ge (now +u64 BlockInterval) (Timestamp h))) by lia. cbn [mbind result_bind].
  rewrite (proj2 (Z.ltb_ge (GasLimit h) (GasUsed h))) by lia. cbn [mbind result_bind].
  rewrite (proj2 (Z.leb_gt (TotalScore h) (TotalScore parent))) by lia. cbn [mbind result_bind]. rewrite Hl. cbn [negb mbind result_bind].
  match goal with |- mbind _ ?m = _ => assert (m = Ok tt) as -> end.
  { unfold signed_by in Hsg. destruct (Header_Number h <? VIP214 forkConfig).
    - destruct Hsg as [-> ->]. rewrite sign_length. done.
    - destruct Hsg as [Ea Esig]. rewrite Ea, Esig, length_app, sign_length, vrf_proof_length.
      cbn [negb Nat.eqb ComplexSigSize Nat.add mbind result_bind].
      rewrite bool_decide_eq_true_2 by done. cbn [negb mbind result_bind].
      by destruct (signed_beta h key Esig) as [beta ->]. }
  cbn [mbind result_bind]. assert ((Header_Number h <? FINALITY forkConfig) && COM (Extension h) = false) as ->.
  { destruct (Z.ltb_spec (Header_Number h) (FINALITY forkConfig)); [|done]. by rewrite Hc. }
  cbn [mbind result_bind]. pose proof (CalcBaseFee_nil _ _ Hf) as Hnil. rewrite <- En in Hnil. rewrite Hf.
  destruct (Z.ltb_spec (Header_Number h) (GALACTICA forkConfig)) as [Hlt|Hge].
  - rewrite (proj2 Hnil) by done. done.
  - destruct (BaseFee (Extension h)) as [fee|]; [|by pose proof (proj1 Hnil eq_refl); lia].
    cbn [mbind result_bind]. by rewrite Z.eqb_refl.
Qed.
End header.
