(* ===== verification/PackerCorrect.v ===== *)
(** * Packed blocks are accepted

    A block that the packer schedules, fills and signs passes the validation of
    every other node, with the same state and receipts, whatever the caches of
    the validator hold. *)

From S2P Require Import Prelude Bytes External Thor Block BlockCorrect Tx ChainRepo Scheduler SchedulerCorrect.
From S2P Require Import Validation ValidationService Staker StakerOps Housekeep LinkedList Authority Trie TxRoot Consensus.
From S2P Require Import Packer PackerSched PackerStake PackerExec.

(** ** Computations of the validator *)
Lemma kbind_Ok {S A B} (m : K S A) (f : A → K S B) s s' a : m s = (s', Ok a) → (m ≫= f) s = f a s'.
Proof. intros E. unfold mbind, K_bind. by rewrite E. Qed.

Lemma kreject_false {S} msg (s : S) : kreject false msg s = (s, Ok tt).
Proof. done. Qed.

Lemma Ok_pair {A B} (x : A * B) a b : Ok x = Ok (a, b) → a = x.1 ∧ b = x.2.
Proof. by intros [= ->]. Qed.

(** Step over the first computation, whose result is known. *)
Ltac kstep := erewrite kbind_Ok by (unfold kresult, kreject; cbn [negb]; reflexivity || eassumption || (f_equal; eassumption)).

(** ** Beneficiaries *)
Lemma beneficiary_other p a ls b0 : a ∉ Leader_Address <$> ls → a = nodeMaster p →
  foldl (λ b l, if Leader_Address l =? nodeMaster p then
                  match Leader_Beneficiary l, pkBeneficiary p with
                  | Some b, _ => b | None, Some b => b | None, None => Leader_Endorser l end
                else b) b0 ls = b0.
Proof.
  intros Ha ->. induction ls as [|l ls IH]; [done|]. cbn [foldl]. simpl in Ha.
  rewrite (proj2 (Z.eqb_neq _ _)) by set_solver. apply IH. set_solver.
Qed.

Lemma stakeBeneficiary_other a ls b0 : a ∉ Leader_Address <$> ls →
  foldl (λ b l, if (Leader_Address l =? a) && bool_decide (Leader_Beneficiary l ≠ None)
                then Leader_Beneficiary l else b) b0 ls = b0.
Proof.
  intros Ha. induction ls as [|l ls IH]; [done|]. cbn [foldl]. simpl in Ha.
  rewrite (proj2 (Z.eqb_neq _ _)) by set_solver. apply IH. set_solver.
Qed.

Lemma posBeneficiary_ok p ls : NoDup (Leader_Address <$> ls) →
  match stakeBeneficiary (nodeMaster p) ls with
  | Some b => negb (b =? posBeneficiary p ls) | None => false end = false.
Proof.
  unfold stakeBeneficiary, posBeneficiary. induction ls as [|l ls IH]; intros Hnd; [done|].
  simpl in Hnd. apply NoDup_cons in Hnd as [Hl Hnd]. cbn [foldl].
  destruct (Z.eqb_spec (Leader_Address l) (nodeMaster p)) as [E|_]; [|by apply IH].
  rewrite E in Hl. rewrite (beneficiary_other p _ ls _ Hl eq_refl), (stakeBeneficiary_other _ ls _ Hl).
  destruct (Leader_Beneficiary l) as [b|]; [|done]. simpl. by rewrite Z.eqb_refl.
Qed.

(** ** The proposer *)
Section proposer.
Context `{SMS : SafeMathSpec} `{CFG : Config} `{Rlp} `{Drlp} `{Crypto} `{!CryptoSpec} `{Sampling} `{SMM : SafeMulOp}.
Context (OK : config_ok CFG) (HT : 0 < BlockInterval < 2 ^ 32) {X : Type} `{!Runtime X} (forkConfig : ForkConfig).
Implicit Types (st : State X).

(** The header has what the packer scheduled. *)
Record scheduled (p : Packer) (parent h : Header) (beneficiary t score : Z) : Prop := {
  sc_signer : Header_Signer h = Ok (nodeMaster p);
  sc_parent : ParentID h = ID parent;
  sc_time : Timestamp h = t;
  sc_score : TotalScore h = TotalScore parent +u64 score;
  sc_beneficiary : hBeneficiary h = beneficiary;
}.

(** The time is a slot after the parent, and the block scores. *)
Definition slot_ok (parent : Header) (bound t score : Z) : Prop :=
  (∃ j, 1 ≤ j ∧ t = Timestamp parent + j * BlockInterval) ∧ t < max64 ∧ 0 < score ≤ bound.

Lemma seedFor_ok repo seeds id v c : seeds_ok repo seeds → seeds_ok repo (cSeeder c) →
  packSeed repo id seeds = Ok v →
  ∃ c', seedFor repo id c = (c', Ok v) ∧ validatorsCache c' = validatorsCache c.
Proof.
  intros Hs Hc E. unfold packSeed in E. destruct (Generate repo id seeds) as [[v' s']|] eqn:Eg; [|done].
  injection E as ->. destruct (Generate_any _ _ _ _ _ _ Hs Hc Eg) as (c' & E' & _).
  unfold seedFor. rewrite E'. eexists. split; [done|]. by destruct c.
Qed.

(** The candidates a validator has in memory for a block. *)
Definition candidates_ok (number : Z) (parentID : Bytes32) st (c : Consensus) : Prop :=
  match validatorsCache c !! parentID with
  | None => True
  | Some (CLeaders _) => False
  | Some (CCandidates cand) =>
      coherent (balanceCheck forkConfig number st) (GetMaxBlockProposers (maxBlockProposersParam (sStaker st)) true)
        (sAuthority st) cand
  end.

Lemma candidatesFor_ok number id st c l : auth_list (sAuthority st) l → candidates_ok number id st c →
  ∃ cand, candidatesFor id (sAuthority st) c = (c, Ok cand) ∧
    coherent (balanceCheck forkConfig number st) (GetMaxBlockProposers (maxBlockProposersParam (sStaker st)) true)
      (sAuthority st) cand.
Proof.
  intros HA. unfold candidates_ok, candidatesFor. destruct (validatorsCache c !! id) as [[cand|]|]; [by exists cand|done|].
  intros _. rewrite (AllCandidates_spec l _ HA). cbn [mbind result_bind]. eexists. split; [done|].
  by apply coherent_new.
Qed.

(** The scheduler of a proof-of-authority block, for the packer and for the
    validator. *)
Lemma authority_sched repo seeds a ps parent h sch (c : Consensus) : seeds_ok repo seeds → seeds_ok repo (cSeeder c) →
  ParentID h = ID parent →
  (if Header_Number parent +u32 1 <? VIP214 forkConfig
   then s ← NewPoASchedulerV1 a ps (Header_Number parent) (Timestamp parent); Ok (SchedV1 s)
   else seed ← packSeed repo (ID parent) seeds;
        s ← NewPoASchedulerV2 a ps (Header_Number parent) (Timestamp parent) seed; Ok (SchedV2 s)) = Ok sch →
  sched_for a ps (Header_Number parent) (Timestamp parent) sch ∧ (∀ s, sch ≠ SchedPoS s) ∧
  (∀ t us sc, sched_Updates sch t = Ok (us, sc) → ∀ u, u ∈ us → pAddress u ∈ pAddress <$> ps) ∧
  ∃ c', (if Header_Number h <? VIP214 forkConfig
         then kresult (s ← NewPoASchedulerV1 a ps (Header_Number parent) (Timestamp parent); Ok (SchedV1 s))
         else seed ← seedFor repo (ParentID h);
              kresult (s ← NewPoASchedulerV2 a ps (Header_Number parent) (Timestamp parent) seed; Ok (SchedV2 s))) c
        = (c', Ok sch) ∧ validatorsCache c' = validatorsCache c.
Proof.
  intros Hs Hc Ep E. rewrite (packed_number h parent Ep), Ep. destruct (_ <? VIP214 forkConfig).
  - destruct (NewPoASchedulerV1 _ _ _ _) as [s|] eqn:Es; [|done]. injection E as <-.
    split; [by constructor|]. split; [done|]. split; [|by exists c]. intros t us sc. by eapply v1_updates_listed.
  - destruct (packSeed repo (ID parent) seeds) as [seed|] eqn:Eseed; [|done]. cbn [mbind result_bind] in E.
    destruct (NewPoASchedulerV2 _ _ _ _ seed) as [s|] eqn:Es; [|done]. injection E as <-.
    split; [by econstructor|]. split; [done|]. split.
    + intros t us sc Eu. cbn [sched_Updates] in Eu. apply Ok_pair in Eu as [-> _].
      by eapply v2_updates_listed.
    + destruct (seedFor_ok repo seeds (ID parent) seed c Hs Hc Eseed) as (c' & E' & Ec). exists c'.
      rewrite (kbind_Ok _ _ _ _ _ E'). unfold kresult. rewrite Es. done.
Qed.

Lemma authority_score a ps num parent sch t us sc : sched_for a ps num parent sch →
  (∀ s, sch ≠ SchedPoS s) → NoDup (pAddress <$> ps) → Z.of_nat (length ps) < max64 → 0 ≤ parent →
  (∃ j, 1 ≤ j ∧ t = parent + j * BlockInterval) → t < max64 → sched_Updates sch t = Ok (us, sc) →
  0 < sc ≤ Z.of_nat (length ps).
Proof.
  intros [s Es|s seed Es|s seed tw Es] Hpos Hnd Hl Hp (j & Hj & ->) Hmax E; [| |by edestruct Hpos].
  - eapply v1_score; [exact Hnd|exact Hl|exact Es|exact E].
  - cbn [sched_Updates] in E. apply Ok_pair in E as [_ ->]. eapply (v2_score HT); [exact Hnd|exact Hl|exact Hp|exact Hj|exact Hmax|exact Es].
Qed.


Lemma validateAuthorityProposer_ok fuel repo seeds p parent h now st c l ben t score st' :
  seeds_ok repo seeds → seeds_ok repo (cSeeder c) → auth_list (sAuthority st) l →
  candidates_ok (Header_Number parent +u32 1) (ID parent) st c →
  times_fit (Timestamp parent) now (fuel + length l) → Z.of_nat (length l) < max64 →
  scheduled p parent h ben t score →
  schedulePOA forkConfig fuel repo seeds p parent now st = Ok (ben, t, score, st') →
  slot_ok parent (Z.of_nat (length l)) t score ∧
  ∃ cand c', validateAuthorityProposer forkConfig repo h parent st c = (c', Ok (poaCacher cand, st')).
Proof.
  intros Hs Hc HA Hcand Hfit Hlen [Esig Epar Etime Escore _] E.
  unfold schedulePOA in E. rewrite (Candidates_spec _ _ l _ HA) in E.
  destruct (pick _ _ _ [] l) as [cands|] eqn:Ec; [|done]. cbn [lift mbind result_bind] in E.
  destruct (pick_masters _ _ _ _ _ HA Ec) as (Hnd & Hin & Hle).
  fold toProposer in E. set (ps := map toProposer cands) in *.
  destruct (if _ <? VIP214 forkConfig then _ else _) as [sch|] eqn:Esch; [|done]. cbn [mbind result_bind] in E.
  destruct (sched_Schedule fuel sch now) as [t'|] eqn:Et; [|done]. cbn [mbind result_bind] in E.
  destruct (sched_Updates sch t') as [[us sc]|] eqn:Eu; [|done]. cbn [mbind result_bind] in E.
  destruct (updateAuthority us _) as [[[] A']|] eqn:EA; [|done]. injection E as <- <- <- <-.
  destruct (authority_sched repo seeds (nodeMaster p) ps parent h sch c Hs Hc Epar Esch)
    as (Hfor & Hnot & Hus & c' & Ek & _).
  assert (length ps = length cands) as Elen by apply length_map.
  destruct (sched_time HT fuel _ ps _ _ sch now t' Hfor) as (Htime & Hmax & Hslot);
    [apply (times_fit_le HT _ _ (fuel + length l)%nat); [lia|done]|done|].
  assert (0 < sc ≤ Z.of_nat (length ps)) as Hsc.
  { eapply authority_score; [exact Hfor|exact Hnot|exact Hnd|lia|apply Hfit|exact Hslot|exact Hmax|exact Eu]. }
  split; [split; [done|split; [done|lia]]|].
  destruct (candidatesFor_ok _ (ID parent) st c l HA Hcand) as (cand & Ecand & Hco).
  destruct (Pick_ok _ _ _ l cand cands HA Hco Ec) as (cand' & Epick & Hm & El).
  destruct (updateCandidates_ok us cand' (sAuthority st) A' Hm) as [cand2 E2]; [|done|].
  { intros u Hu. rewrite El, (co_list _ _ _ _ Hco l HA). apply Hin. by eapply Hus. }
  exists cand2, c'. unfold validateAuthorityProposer.
  rewrite (kbind_Ok _ _ c c (nodeMaster p)) by (unfold kresult; by rewrite Esig).
  rewrite (kbind_Ok _ _ c c cand) by done.
  rewrite (packed_number h parent Epar) at 1.
  rewrite (kbind_Ok _ _ c c (ps, cand')) by (unfold kresult; by rewrite Epick).
  rewrite (kbind_Ok _ _ c c' sch) by exact Ek.
  rewrite (kbind_Ok _ _ c' c' true) by (unfold kresult; by rewrite Etime, Htime).
  rewrite (kbind_Ok _ _ c' c' tt) by done.
  rewrite (kbind_Ok _ _ c' c' (us, sc)) by (unfold kresult; by rewrite Etime, Eu).
  rewrite Escore, Z.eqb_refl. rewrite (kbind_Ok _ _ c' c' tt) by done.
  by rewrite (kbind_Ok _ _ c' c' (cand2, A')) by (unfold kresult; by rewrite E2).
Qed.

(** The leader group a validator has in memory for a block. *)
Definition leaders_cached (parentID : Bytes32) st (c : Consensus) : Prop :=
  match validatorsCache c !! parentID with
  | Some (CLeaders ls) => ls = [] ∨ ∃ s, LeaderGroup (sStaker st) = Ok (ls, s)
  | _ => True
  end.

Lemma leadersFor_ok id st c ls s : leaders_cached id st c → LeaderGroup (sStaker st) = Ok (ls, s) →
  leadersFor id (sStaker st) c = (c, Ok ls).
Proof.
  unfold leaders_cached, leadersFor. intros Hc E. rewrite E. f_equal. cbn [mbind result_bind].
  destruct (validatorsCache c !! id) as [[|ls']|]; [done| |done].
  destruct Hc as [->|[s' E']]; [done|]. assert (ls' = ls) as -> by congruence. by case_match.
Qed.

Lemma validateStakingProposer_ok fuel repo seeds p parent h now st c ben t score st' number :
  seeds_ok repo seeds → seeds_ok repo (cSeeder c) → staker_fine number (sStaker st) →
  leaders_cached (ID parent) st c → times_fit (Timestamp parent) now (fuel + 101) →
  scheduled p parent h ben t score →
  schedulePOS fuel repo seeds p parent now st = Ok (ben, t, score, st') →
  slot_ok parent MaxPosScore t score ∧
  ∃ ch c', validateStakingProposer repo h parent st c = (c', Ok (ch, st')) ∧ (∀ cand, ch ≠ poaCacher cand).
Proof.
  intros Hs Hc Hfine Hlead Hfit [Esig Epar Etime Escore Eben] E.
  destruct (fine_leaders OK number (sStaker st) Hfine) as (ls & vet & tw & El & Ew & Hok).
  unfold schedulePOS in E. destruct (packSeed repo (ID parent) seeds) as [seed|] eqn:Eseed; [|done].
  cbn [mbind result_bind] in E. rewrite El, Ew in E. cbn [mbind result_bind] in E.
  destruct (NewPoSScheduler _ _ _ _ seed tw) as [sch|] eqn:Esch; [|done]. cbn [mbind result_bind] in E.
  destruct (sched_Schedule fuel (SchedPoS sch) now) as [t'|] eqn:Et; [|done]. cbn [mbind result_bind] in E.
  destruct (sched_Updates (SchedPoS sch) t') as [[us sc]|] eqn:Eu; [|done]. cbn [mbind result_bind] in E.
  destruct (setOnline _ us (sStaker st)) as [[[] s']|] eqn:Eo; [|done]. injection E as <- <- <- <-.
  destruct (sched_time HT fuel (nodeMaster p) (leaderProposers ls) (Header_Number parent) (Timestamp parent)
              (SchedPoS sch) now t') as (Htime & Hmax & Hslot); [by econstructor| |done|].
  { apply (times_fit_le HT _ _ (fuel + 101)%nat); [|done]. unfold leaderProposers. rewrite length_map.
    pose proof (lo_length _ _ Hok). lia. }
  split.
  { split; [done|]. split; [done|]. destruct Hslot as (j & Hj & ->).
    cbn [sched_Updates] in Eu. apply Ok_pair in Eu as [_ ->].
    eapply (pos_score OK HT); [exact Hok|exact Esch|apply Hfit|exact Hj|exact Hmax]. }
  destruct (seedFor_ok repo seeds (ID parent) seed c Hs Hc Eseed) as (c' & Ek & Ecache).
  assert (leaders_cached (ID parent) st c') as Hlead' by (unfold leaders_cached; by rewrite Ecache).
  eexists _, c'. split.
  - unfold validateStakingProposer. rewrite Epar, (packed_number h parent Epar).
    rewrite (kbind_Ok _ _ c c (nodeMaster p)) by (unfold kresult; by rewrite Esig).
    rewrite (kbind_Ok _ _ c c' seed) by done.
    rewrite (kbind_Ok _ _ c' c' ls) by (by eapply leadersFor_ok).
    rewrite (kbind_Ok _ _ c' c' (vet, tw, sStaker st)) by (unfold kresult; by rewrite Ew).
    rewrite (kbind_Ok _ _ c' c' sch) by (unfold kresult; by rewrite Esch). cbn zeta.
    rewrite (kbind_Ok _ _ c' c' true) by (unfold kresult; by rewrite Etime, Htime).
    rewrite (kbind_Ok _ _ c' c' tt) by done.
    rewrite (kbind_Ok _ _ c' c' (us, sc)) by (unfold kresult; by rewrite Etime, Eu).
    rewrite Escore, Z.eqb_refl. rewrite (kbind_Ok _ _ c' c' tt) by done.
    rewrite Eben, posBeneficiary_ok by apply (lo_nodup _ _ Hok). rewrite (kbind_Ok _ _ c' c' tt) by done.
    by rewrite (kbind_Ok _ _ c' c' (tt, s')) by (unfold kresult; by rewrite Eo).
  - intros cand. by destruct (_ <? _)%nat.
Qed.
End proposer.

(** ** Execution *)
Section execution.
Context `{SMS : SafeMathSpec} `{CFG : Config} `{Rlp} `{Drlp} `{Crypto} `{!CryptoSpec} `{Sampling} `{SMM : SafeMulOp}.
Context {X : Type} `{!Runtime X} (OK : config_ok CFG) (hayabusa : Z) (Hhay : block_ok hayabusa).
Context (forkConfig : ForkConfig) (IsOriginBlocked : Address → bool) (correctReceiptsRoots : gmap Bytes32 Bytes32).

Lemma contextOf_packed f st com alpha rroot troot sig a : bcSigner (fContext f) = a →
  bcNumber (fContext f) = Header_Number (fParent f) +u32 1 →
  contextOf (packedHeader (X := X) f st com alpha rroot troot sig) a = fContext f.
Proof.
  intros Ea En. unfold contextOf. rewrite (packed_number _ (fParent f)) by done. simpl.
  rewrite <- En, <- Ea. by destruct (fContext f).
Qed.

(** The validator executes the block to the packer's state. *)
Lemma verifyBlock_ok repo p key f0 f b st0 st rroot troot :
  flow_ok hayabusa forkConfig IsOriginBlocked repo f0 f → packed forkConfig p key f b st rroot troot →
  Header_Signer (blkHeader b) = Ok (nodeMaster p) → bcSigner (fContext f) = nodeMaster p →
  bcNumber (fContext f) = Header_Number (fParent f) +u32 1 → fState f0 = runtime_New (fContext f) st0 →
  verifyBlock correctReceiptsRoots repo b st0 (fPosActive f) = Ok (st, fReceipts f).
Proof.
  intros Hf Hp Esig Ea En E0. destruct Hp as [_ Er Err Etr (com & alpha & sig & -> & _) _]. destruct Hf as [Ep Ec Ef Epos Ex _ _ Hs _].
  unfold verifyBlock. rewrite Esig. cbn [blkHeader blkTxs] in *. rewrite (contextOf_packed f st) by done.
  rewrite <- E0, Ec. cbn [packedHeader ParentID]. rewrite Ep, Ex. cbn [mbind result_bind exGasUsed exReceipts exState].
  unfold check. cbn [GasUsed]. rewrite Z.eqb_refl. cbn [negb mbind result_bind]. rewrite Err. cbn [mbind result_bind ReceiptsRoot].
  rewrite Z.eqb_refl. cbn [negb andb mbind result_bind].
  assert (∀ h, ParentID h = ID (fParent f0) → Header_Number h = bcNumber (fContext f)) as Hnum.
  { intros h Eh. rewrite En, Ep. by apply packed_number. }
  rewrite Hnum by (simpl; by rewrite Ep). cbn [Timestamp hBeneficiary].
  rewrite (fine_balance (bcNumber (fContext f0))) by (by eapply (at_fine OK)).
  cbn [packedHeader Timestamp hBeneficiary StateRoot].
  destruct (fPosActive f); cbn [mbind result_bind]; [rewrite Er|injection Er as ->]; cbn [mbind result_bind];
    by rewrite Z.eqb_refl.
Qed.
End execution.

(** ** The caches *)
Lemma beneficiarySet_ok id evs : (∀ ev, ev ∈ evs → evAddress ev = StakerAddress → evTopics ev ≠ []) →
  ∃ b, beneficiarySet id evs = Ok b.
Proof.
  induction evs as [|ev evs IH]; intros Ht; [by exists false|]. cbn [beneficiarySet].
  destruct IH as [b Eb]; [set_solver|]. destruct (Z.eqb_spec (evAddress ev) StakerAddress) as [E|]; [|by exists b].
  destruct (evTopics ev) as [|topic ts] eqn:Et; [exfalso; by eapply (Ht ev); [set_solver| |]|].
  destruct (topic =? id); eauto.
Qed.

Lemma Handle_ok forkConfig id ch h rs : (∀ ev, ev ∈ eventsOf rs → evAddress ev = StakerAddress → evTopics ev ≠ []) →
  ∃ e, Handle forkConfig id ch h rs = Ok e.
Proof.
  intros Ht. destruct ch as [cand|ls|]; cbn [Handle]; [case_match; eauto| |eauto].
  destruct (beneficiarySet_ok id _ Ht) as [b ->]. eauto.
Qed.
