(* ===== verification/PackerDemo.v ===== *)
(** * A packed block, evaluated

    A runtime whose transactions count themselves, and a staking block with one
    transaction on the repository of [ChainDemo] and the staker of [Scenario]. *)

From S2P Require Import Prelude Bytes External Thor Block BlockCorrect Tx ChainRepo ChainRepoInv ChainDemo.
From S2P Require Import Scheduler SchedulerCorrect Chain Validation ValidationService Staker StakerOps StakerNative.
From S2P Require Import StakerWorld StakerChain Scenario LinkedList Authority Trie TxRoot TrieTheorems Consensus.
From S2P Require Import Packer PackerStake PackerExec.

#[export] Existing Instances demo_Rlp demo_Crypto demo_CryptoSpec demo_Drlp demo_Sampling demo_SafeMul.

(** Every transaction with an origin uses its gas and emits nothing. *)
#[export] Instance demo_Runtime : Runtime Z := {|
  GetBalance _ _ := 10;
  ProposerEndorsement _ := 5;
  LegacyTxBaseGasPrice _ := 10 ^ 15;
  runtime_New _ st := st;
  ExecuteTransaction _ _ _ t st :=
    origin ← Tx_Origin t;
    if Tx_Gas t <? 0 then Err (ErrInternal "gas") else
    Ok (MkReceipt (Tx_Type t) (Tx_Gas t) origin 0 0 false [], st <| sRest := sRest st + 1 |>);
  DistributeRewards _ _ _ _ st := Ok (st <| sRest := sRest st + 1000 |>);
  Stage_Hash st := sRest st;
|}.

#[export] Instance demo_RuntimeSpec hayabusa : RuntimeSpec hayabusa.
Proof.
  split; cbn [ExecuteTransaction demo_Runtime runtime_New]; [| | | |done];
    intros r id ctx t st rc st' E; destruct (Tx_Origin t) as [a|]; try done; cbn [mbind result_bind] in E;
    destruct (Z.ltb_spec (Tx_Gas t) 0); try done; injection E as <- <-; simpl; try done.
  - by exists a.
  - intros ev Hev. by apply not_elem_of_nil in Hev.
Qed.

Definition demo_forks3 : ForkConfig := MkForkConfig 0 0 0 0 0 0 0 3.
Definition demo_parent : Header := blkHeader demo_b2.
Definition demo_world : World := at_ activation.
Definition demo_state : State Z := MkState (wStaker demo_world) (wAuthority demo_world) 0.
Definition demo_packer : Packer := MkPacker 7 (Some 99) 25000000 0.
Definition demo_new_tx : Transaction :=
  Legacy (MkLegacy (ChainTag demo_repo) 0 720 [] 0 21000 None 2 (MkReserved 0 []) (7 :: replicate 64 0)).

Definition demo_none (_ : Address) : bool := false.

(** The result of a computation followed by another, if both succeed. *)
Definition attempt {A B} (r : result A) (g : A → result B) : option B :=
  match r with Ok x => match g x with Ok y => Some y | Err _ => None end | Err _ => None end.

Lemma attempt_Some {A B} (r : result A) (g : A → result B) : is_Some (attempt r g) →
  ∀ d, ∃ x, r = Ok x ∧ g x = Ok (default d (attempt r g)).
Proof.
  unfold attempt. intros [y Hy] d. destruct r as [x|]; [|done]. exists x. split; [done|].
  by destruct (g x).
Qed.

(** What is packed. *)
Definition demo_packed : option (block * State Z * list Receipt) :=
  attempt (Schedule demo_forks3 4 demo_repo ∅ demo_packer demo_state demo_parent 25)
    (λ f, Pack demo_forks3 demo_packer 7 true
            (adoptAll demo_forks3 demo_none demo_repo demo_packer [demo_new_tx] f)).
Definition demo_result : block * State Z * list Receipt := default (demo_b2, demo_state, []) demo_packed.
#[local] Strategy expand [demo_packed demo_result].

Lemma demo_packed_some : is_Some demo_packed.
Proof. apply (bool_decide_eq_true_1 (is_Some demo_packed)). vm_compute. reflexivity. Qed.

Lemma demo_scheduled : ∃ f,
  Schedule demo_forks3 4 demo_repo ∅ demo_packer demo_state demo_parent 25 = Ok f ∧
  Pack demo_forks3 demo_packer 7 true
    (adoptAll demo_forks3 demo_none demo_repo demo_packer [demo_new_tx] f) = Ok demo_result.
Proof. exact (attempt_Some _ _ demo_packed_some (demo_b2, demo_state, [])). Qed.

Lemma demo_staker_at : staker_at (HAYABUSA demo_forks3) (Header_Number demo_parent) (sStaker demo_state).
Proof.
  split; [split; apply Z.leb_le; vm_compute; reflexivity|].
  exists (costs activation), demo_world. split; [apply at_reachable; vm_compute; reflexivity|].
  split; [vm_compute; reflexivity|]. split; [reflexivity|]. vm_compute. reflexivity.
Qed.

Lemma demo_auth_list : auth_list (sAuthority demo_state) [7; 8].
Proof.
  assert (sAuthority demo_state = wAuthority world0) as -> by (vm_compute; reflexivity). split; try done.
  - repeat constructor; set_solver.
  - simpl. split; [|split; [|done]]; eexists; split; [by vm_compute| |by vm_compute|]; done.
  - intros a e He. cbn [world0 wAuthority entries] in He. by apply lookup_insert_Some in He as [[_ <-]|[_ [_ <-]%lookup_singleton_Some]].
  - intros a e Ha He. cbn [world0 wAuthority entries] in He. apply lookup_insert_Some in He as [[<- _]|[_ [<- _]%lookup_singleton_Some]]; set_solver.
Qed.
