(* ===== verification/PackerTheorems.v ===== *)
(** * A packed block passes validation

    The theorem that joins the packer and the consensus: what [Schedule], [Adopt]
    and [Pack] produce on top of a parent block, [Process] accepts, with the state
    and the receipts the packer computed. *)

From S2P Require Import Prelude Bytes External Thor Block BlockCorrect Tx ChainRepo Scheduler SchedulerCorrect.
From S2P Require Import Validation ValidationService Staker StakerOps Housekeep LinkedList Authority Trie TxRoot Consensus.
From S2P Require Import Packer PackerSched PackerStake PackerExec PackerCorrect.
From S2P Require Import StakerChain Scenario ChainDemo TrieTheorems PackerDemo.

Section accepted.
Context `{SMS : SafeMathSpec} `{CFG : Config} `{Rlp} `{Drlp} `{Crypto} `{!CryptoSpec} `{Sampling} `{SMM : SafeMulOp}.
Context (OK : config_ok CFG) (HT : 0 < BlockInterval < 2 ^ 32) {X : Type} `{!Runtime X} (forkConfig : ForkConfig).
Context (Hhay : block_ok (HAYABUSA forkConfig)) `{!RuntimeSpec (HAYABUSA forkConfig)}.
Context (IsOriginBlocked : Address → bool) (correctReceiptsRoots : gmap Bytes32 Bytes32).
Context (BeneficiarySetID : Bytes32) (evict : gmap Bytes32 cacheEntry → gmap Bytes32 cacheEntry).
Implicit Types (st : State X).

(** The parent block and the transactions are within the machine integers. *)
Record packable (p : Packer) (parent : Header) (listed : nat) (txs : list Transaction) : Prop := {
  pb_score : 0 ≤ TotalScore parent ∧ TotalScore parent + Z.of_nat listed + MaxPosScore < max64;
  pb_limit : MinGasLimit ≤ GasLimit parent ∧ is64 (GasLimit parent) ∧ is64 (targetGasLimit p);
  pb_txs : ∀ t, t ∈ txs → 0 ≤ Tx_Gas t ∧ Tx_Gas t + packer_gasLimit p (GasLimit parent) < max64;
}.

(** The caches of a validator agree with the repository and with the state of
    the parent block, once the staker is synchronised. *)
Definition validator_ok (repo : ChainRepo) (parent : Header) st (c : Consensus) : Prop :=
  seeds_ok repo (cSeeder c) ∧
  let '(status, st1) := syncPOS forkConfig (Header_Number parent +u32 1) st in
  SyncUpdates status = false →
  if SyncActive status then leaders_cached (ID parent) st1 c
  else candidates_ok forkConfig (Header_Number parent +u32 1) (ID parent) st1 c.

Lemma no_cache_ok repo parent st : validator_ok repo parent st (MkConsensus ∅ ∅).
Proof.
  split; [done|]. destruct (syncPOS _ _ st) as [status st1]. intros _. unfold leaders_cached, candidates_ok.
  cbn [validatorsCache]. rewrite lookup_empty. by destruct (SyncActive status).
Qed.

(** ** The steps of the packer *)
Lemma Schedule_inv fuel repo seeds p st parent now f0 :
  Schedule forkConfig fuel repo seeds p st parent now = Ok f0 →
  let number := Header_Number parent +u32 1 in
  let '(status, st1) := syncPOS forkConfig number st in
  ∃ ben t score st2 fee,
    (if SyncActive status then schedulePOS fuel repo seeds p parent now st1
     else schedulePOA forkConfig fuel repo seeds p parent now st1) = Ok (ben, t, score, st2) ∧
    CalcBaseFee parent forkConfig = Ok fee ∧
    let ctx := MkContext ben (nodeMaster p) number t (packer_gasLimit p (GasLimit parent))
                 (TotalScore parent +u64 score) fee in
    f0 = MkFlow parent ctx (runtime_New ctx st2) ∅ 0 [] [] (featuresAt forkConfig number) (SyncActive status).
Proof.
  unfold Schedule. cbn zeta. destruct (syncPOS _ _ st) as [status st1]. intros E.
  destruct (if SyncActive status then _ else _) as [[[[ben t] score] st2]|]; [|done]. cbn [mbind result_bind] in E.
  destruct (CalcBaseFee parent forkConfig) as [fee|]; [|done]. injection E as <-. by exists ben, t, score, st2, fee.
Qed.

Lemma syncPOS_at number st : staker_at (HAYABUSA forkConfig) number (sStaker st) → block_ok (number + 1) →
  ∃ status s', syncPOS forkConfig (number + 1) st = (status, st <| sStaker := s' |>) ∧
    staker_at (HAYABUSA forkConfig) (number + 1) s'.
Proof.
  intros Hat Hb. destruct (at_sync OK _ Hhay number (sStaker st) Hat Hb) as (status & s' & E & Hat').
  exists status, s'. split; [|done]. unfold syncPOS, zoom. by rewrite E.
Qed.

Lemma scheduled_staker fuel repo seeds p parent now (active : bool) st ben t score st2 :
  staker_at (HAYABUSA forkConfig) (Header_Number parent +u32 1) (sStaker st) →
  (if active then schedulePOS fuel repo seeds p parent now st
   else schedulePOA forkConfig fuel repo seeds p parent now st) = Ok (ben, t, score, st2) →
  staker_at (HAYABUSA forkConfig) (Header_Number parent +u32 1) (sStaker st2).
Proof.
  intros Hat E. destruct active.
  - unfold schedulePOS in E. destruct (packSeed _ _ _); [|done]. cbn [mbind result_bind] in E.
    destruct (LeaderGroup _) as [[ls s1]|]; [|done]. cbn [mbind result_bind] in E.
    destruct (LockedStake _) as [[[vet tw] s2]|]; [|done]. cbn [mbind result_bind] in E.
    destruct (NewPoSScheduler _ _ _ _ _ _) as [sch|]; [|done]. cbn [mbind result_bind] in E.
    destruct (sched_Schedule _ _ _); [|done]. cbn [mbind result_bind] in E.
    destruct (sched_Updates _ _) as [[us sc]|]; [|done]. cbn [mbind result_bind] in E.
    destruct (setOnline _ us _) as [[[] s']|] eqn:Eo; [|done]. injection E as _ _ _ <-. by eapply at_online.
  - unfold schedulePOA in E. destruct (Candidates _ _ _) as [[cs ?]|]; [|done]. cbn [mbind result_bind] in E.
    destruct (if _ <? VIP214 forkConfig then _ else _) as [sch|]; [|done]. cbn [mbind result_bind] in E.
    destruct (sched_Schedule _ _ _); [|done]. cbn [mbind result_bind] in E.
    destruct (sched_Updates _ _) as [[us sc]|]; [|done]. cbn [mbind result_bind] in E.
    destruct (updateAuthority us _) as [[[] A]|]; [|done]. injection E as _ _ _ <-. done.
Qed.

(** The proposer's part of [validate], after the staker is synchronised. *)
Lemma proposer_ok fuel repo seeds p parent h now st c l ben t score st2 status st1 :
  syncPOS forkConfig (Header_Number parent +u32 1) st = (status, st1) →
  staker_at (HAYABUSA forkConfig) (Header_Number parent +u32 1) (sStaker st1) →
  seeds_ok repo seeds → validator_ok repo parent st c → auth_list (sAuthority st1) l →
  times_fit (Timestamp parent) now (fuel + length l + 101) → Z.of_nat (length l) < max64 →
  scheduled p parent h ben t score →
  (if SyncActive status then schedulePOS fuel repo seeds p parent now st1
   else schedulePOA forkConfig fuel repo seeds p parent now st1) = Ok (ben, t, score, st2) →
  slot_ok parent (Z.of_nat (length l) + MaxPosScore) t score ∧
  ∃ ch c', (if SyncActive status then validateStakingProposer repo h parent st1
            else validateAuthorityProposer forkConfig repo h parent st1)
             (if SyncUpdates status
              then c <| validatorsCache := delete (ID parent) (validatorsCache c) |> else c) = (c', Ok (ch, st2)).
Proof.
  intros Esync Hat Hs [Hc Hcache] HA Hfit Hlen Hsch E. rewrite Esync in Hcache.
  set (c1 := if SyncUpdates status then _ else c).
  assert (seeds_ok repo (cSeeder c1)) as Hc1 by (unfold c1; by destruct (SyncUpdates status), c).
  assert (if SyncActive status then leaders_cached (ID parent) st1 c1
          else candidates_ok forkConfig (Header_Number parent +u32 1) (ID parent) st1 c1) as Hcache1.
  { unfold c1. destruct (SyncUpdates status); [|by apply Hcache]. unfold leaders_cached, candidates_ok.
    destruct c. simpl. rewrite lookup_delete_eq. by destruct (SyncActive status). }
  destruct (SyncActive status).
  - destruct (validateStakingProposer_ok OK HT fuel repo seeds p parent h now st1 c1 ben t score st2
                (Header_Number parent +u32 1)) as ((Hslot & Hmax & Hscore) & ch & c' & Ev & _); try done.
    + by apply (at_fine OK _ Hhay).
    + apply (times_fit_le HT _ _ (fuel + length l + 101)%nat); [lia|done].
    + split; [|by exists ch, c']. split; [done|]. split; [done|]. lia.
  - destruct (validateAuthorityProposer_ok HT forkConfig fuel repo seeds p parent h now st1 c1 l ben t score st2)
      as ((Hslot & Hmax & Hscore) & cand & c' & Ev); try done.
    + apply (times_fit_le HT _ _ (fuel + length l + 101)%nat); [lia|done].
    + split; [|by exists (poaCacher cand), c']. split; [done|]. split; [done|]. unfold MaxPosScore. lia.
Qed.

Lemma signed_by_signer key parent h : signed_by forkConfig key parent h → Header_Number h ≠ 0 →
  Header_Signer h = Ok (pubkeyToAddress (pubOf key)).
Proof.
  unfold signed_by. intros Hs Hn. destruct (_ <? VIP214 forkConfig); destruct Hs as [_ Hs].
  - eapply (signed_signer h key []); [by rewrite app_nil_r|done].
  - by eapply signed_signer.
Qed.

(** A new flow is the start of the validator's execution. *)
Lemma flow_start repo f0 : fTxs f0 = [] → fReceipts f0 = [] → fGasUsed f0 = 0 → fProcessedTxs f0 = ∅ →
  0 ≤ bcGasLimit (fContext f0) → staker_at (HAYABUSA forkConfig) (bcNumber (fContext f0)) (sStaker (fState f0)) →
  flow_ok (X := X) (HAYABUSA forkConfig) forkConfig IsOriginBlocked repo f0 f0.
Proof.
  intros Et Er Eg Ep Hl Hs. split; try done; rewrite ?Et, ?Er, ?Eg, ?Ep; try done.
  intros ev Hev. by apply not_elem_of_nil in Hev.
Qed.

Lemma IsValid_min g parent : GasLimit_IsValid g parent = true → MinGasLimit ≤ g.
Proof. unfold GasLimit_IsValid. destruct (Z.ltb_spec g MinGasLimit); [done|lia]. Qed.

(** The packed header follows its parent. *)
Lemma packed_follows p key parent (f : Flow (X := X)) b st rroot troot bound score :
  packed forkConfig p key f b st rroot troot → fParent f = parent →
  fContext f = MkContext (bcBeneficiary (fContext f)) (nodeMaster p) (Header_Number parent +u32 1)
                 (bcTime (fContext f)) (packer_gasLimit p (GasLimit parent)) (TotalScore parent +u64 score)
                 (bcBaseFee (fContext f)) →
  CalcBaseFee parent forkConfig = Ok (bcBaseFee (fContext f)) →
  0 ≤ fGasUsed f ≤ bcGasLimit (fContext f) → slot_ok parent bound (bcTime (fContext f)) score →
  0 ≤ Timestamp parent → 0 ≤ TotalScore parent → TotalScore parent + bound < max64 →
  MinGasLimit ≤ GasLimit parent ∧ is64 (GasLimit parent) ∧ is64 (targetGasLimit p) →
  follows forkConfig parent (blkHeader b) key.
Proof.
  intros Hp Epar Ectx Efee Hgas ((j & Hj & Et) & Hmax & Hscore) Ht0 Hs0 Hsmax (Hl1 & Hl2 & Hl3).
  pose proof (pk_signed _ _ _ _ _ _ _ _ Hp) as Hsig. destruct (pk_block _ _ _ _ _ _ _ _ Hp) as (com & alpha & sig & -> & Hcom).
  rewrite Epar in Hsig. cbn [blkHeader] in *.
  assert (Header_Number (packedHeader f st com alpha rroot troot sig) = Header_Number parent +u32 1) as En
    by (apply packed_number; simpl; by rewrite Epar).
  split; try done.
  - split; [done|]. by exists j.
  - apply Hgas.
  - cbn [packedHeader GasLimit]. rewrite Ectx. cbn [bcGasLimit]. by apply packer_gasLimit_ok.
  - cbn [packedHeader TotalScore]. rewrite Ectx. cbn [bcTotalScore]. rewrite wrap64_id by ulia. lia.
  - cbn [packedHeader Extension COM]. rewrite En. intros Hlt. apply Hcom. by rewrite Ectx.
Qed.

Lemma packed_body repo p key f0 f b st rroot troot :
  flow_ok (X := X) (HAYABUSA forkConfig) forkConfig IsOriginBlocked repo f0 f →
  packed forkConfig p key f b st rroot troot → bcNumber (fContext f0) = Header_Number (fParent f) +u32 1 →
  validateBlockBody forkConfig IsOriginBlocked repo b = Ok tt.
Proof.
  intros Hf Hp En. destruct Hp as [_ _ _ Etr (com & alpha & sig & -> & _) _]. unfold validateBlockBody.
  cbn [blkTxs blkHeader]. rewrite Etr. cbn [mbind result_bind]. unfold check, TxsRoot, packedHeader.
  cbn [TxsRootFeatures Root]. rewrite Z.eqb_refl. cbn [negb mbind result_bind].
  apply (fo_valid _ _ _ _ _ _ Hf).
  - rewrite En. by apply packed_number.
  - apply (fo_features _ _ _ _ _ _ Hf).
Qed.

(** [validate], from its parts. *)
Lemma validate_ok repo st blk parent now c status st1 ch st2 st' rs c' :
  validateBlockHeader forkConfig (blkHeader blk) parent now = Ok tt →
  syncPOS forkConfig (Header_Number (blkHeader blk)) st = (status, st1) →
  (if SyncActive status then validateStakingProposer repo (blkHeader blk) parent st1
   else validateAuthorityProposer forkConfig repo (blkHeader blk) parent st1)
    (if SyncUpdates status
     then c <| validatorsCache := delete (ID parent) (validatorsCache c) |> else c) = (c', Ok (ch, st2)) →
  validateBlockBody forkConfig IsOriginBlocked repo blk = Ok tt →
  verifyBlock correctReceiptsRoots repo blk st2 (SyncActive status) = Ok (st', rs) →
  (∀ ev, ev ∈ eventsOf rs → evAddress ev = StakerAddress → evTopics ev ≠ []) →
  ∃ c'', validate forkConfig IsOriginBlocked correctReceiptsRoots BeneficiarySetID evict repo st blk parent now c =
         (c'', Ok (st', rs)).
Proof.
  intros Eh Es Ep Eb Ev Ht. destruct (Handle_ok forkConfig BeneficiarySetID ch (blkHeader blk) rs Ht) as [e Ee].
  unfold validate. rewrite (kbind_Ok _ _ c c tt) by (unfold kresult; by rewrite Eh). rewrite Es.
  rewrite (kbind_Ok _ _ c (if SyncUpdates status
     then c <| validatorsCache := delete (ID parent) (validatorsCache c) |> else c) tt) by (by destruct (SyncUpdates status)).
  rewrite (kbind_Ok _ _ _ c' (ch, st2)) by (by destruct (SyncActive status)).
  rewrite (kbind_Ok _ _ c' c' tt) by (unfold kresult; by rewrite Eb).
  rewrite (kbind_Ok _ _ c' c' (st', rs)) by (unfold kresult; by rewrite Ev).
  rewrite (kbind_Ok _ _ c' c' e) by (unfold kresult; by rewrite Ee).
  destruct e; by eexists.
Qed.

(** What scheduling on a parent block gives. *)
Lemma Schedule_start fuel repo seeds p st parent now f0 :
  staker_at (HAYABUSA forkConfig) (Header_Number parent) (sStaker st) → block_ok (Header_Number parent + 1) →
  MinGasLimit ≤ GasLimit parent ∧ is64 (GasLimit parent) ∧ is64 (targetGasLimit p) →
  Schedule forkConfig fuel repo seeds p st parent now = Ok f0 →
  let number := Header_Number parent +u32 1 in
  ∃ status s1 ben t score st2 fee,
    let st1 := st <| sStaker := s1 |> in
    let ctx := MkContext ben (nodeMaster p) number t (packer_gasLimit p (GasLimit parent))
                 (TotalScore parent +u64 score) fee in
    number = Header_Number parent + 1 ∧ syncPOS forkConfig number st = (status, st1) ∧
    staker_at (HAYABUSA forkConfig) number s1 ∧
    (if SyncActive status then schedulePOS fuel repo seeds p parent now st1
     else schedulePOA forkConfig fuel repo seeds p parent now st1) = Ok (ben, t, score, st2) ∧
    CalcBaseFee parent forkConfig = Ok fee ∧
    fContext f0 = ctx ∧ fParent f0 = parent ∧ fState f0 = runtime_New ctx st2 ∧
    fFeatures f0 = featuresAt forkConfig number ∧ fPosActive f0 = SyncActive status ∧
    flow_ok (HAYABUSA forkConfig) forkConfig IsOriginBlocked repo f0 f0.
Proof.
  intros Hat Hb (Hl1 & Hl2 & Hl3) Esch number.
  assert (number = Header_Number parent + 1) as En by (apply wrap32_id; unfold block_ok in Hb; ulia).
  destruct (syncPOS_at _ st Hat Hb) as (status & s1 & Esync & Hat1). rewrite <- En in Esync, Hat1.
  pose proof (Schedule_inv _ _ _ _ _ _ _ _ Esch) as Hinv. cbn zeta in Hinv. fold number in Hinv. rewrite Esync in Hinv.
  destruct Hinv as (ben & t & score & st2 & fee & E2 & Efee & Ef0).
  exists status, s1, ben, t, score, st2, fee. cbn zeta. set (ctx := MkContext _ _ _ _ _ _ _) in *.
  do 5 (split; [done|]). do 5 (split; [by rewrite Ef0|]).
  apply flow_start; rewrite Ef0; try done; cbn [fContext ctx bcGasLimit bcNumber fState].
  - pose proof (IsValid_min _ _ (packer_gasLimit_ok p parent Hl1 Hl2 Hl3)). unfold MinGasLimit in *. lia.
  - rewrite (new_staker (HAYABUSA forkConfig)).
    exact (scheduled_staker _ _ _ _ _ _ (SyncActive status) (st <| sStaker := s1 |>) _ _ _ _ Hat1 E2).
Qed.

(** C9: A block that the packer schedules, fills with transactions and packs on
    a parent block is accepted by every validator that processes it in time,
    with the packer's state and receipts: whatever fork the block is under, with
    authority or staking proposers, and whatever the validator's caches hold as
    long as they agree with the chain.  The staker of the parent is one that the
    chain reaches with at most 101 active validators and a proposer limit of at
    most 101 ([staker_at]); executing transactions is assumed to keep it so. *)
Theorem packed_block_accepted fuel repo seeds p key vote txs st parent now c now' l f0 b st' rs :
  staker_at (HAYABUSA forkConfig) (Header_Number parent) (sStaker st) → block_ok (Header_Number parent + 1) →
  auth_list (sAuthority st) l → packable p parent (length l) txs →
  times_fit (Timestamp parent) now (fuel + length l + 101) →
  seeds_ok repo seeds → validator_ok repo parent st c →
  Schedule forkConfig fuel repo seeds p st parent now = Ok f0 →
  Pack forkConfig p key vote (adoptAll forkConfig IsOriginBlocked repo p txs f0) = Ok (b, st', rs) →
  Timestamp (blkHeader b) ≤ now' +u64 BlockInterval →
  ∀ summary, sumHeader summary = parent →
  ∃ c', Process forkConfig IsOriginBlocked correctReceiptsRoots BeneficiarySetID evict repo st summary b now' c =
        (c', Ok (st', rs)).
Proof.
  intros Hat Hb HA [[Hs0 Hsmax] Hlim Htxs] Hfit Hseeds Hval Esch Epack Hnow summary Esum.
  destruct (Schedule_start _ _ _ _ _ _ _ _ Hat Hb Hlim Esch)
    as (status & s1 & ben & t & score & st2 & fee & En & Esync & Hat1 & E2 & Efee & Ectx & Epar & Est & Efeat & Epos & Hstart).
  set (ctx := MkContext _ _ _ _ _ _ _) in *.
  pose proof (adoptAll_ok _ forkConfig IsOriginBlocked repo p txs f0 f0 Hstart) as Hf.
  rewrite Ectx in Hf. specialize (Hf Htxs). set (f := adoptAll _ _ _ _ _ _) in *.
  pose proof (fo_context _ _ _ _ _ _ Hf) as Ec. pose proof (fo_parent _ _ _ _ _ _ Hf) as Ep.
  rewrite Ectx in Ec. rewrite Epar in Ep.
  destruct (Pack_inv _ _ _ _ _ _ _ _ Epack) as (-> & rroot & troot & Hp); [by rewrite Ec, Ep|].
  assert (ParentID (blkHeader b) = ID parent) as Epid.
  { destruct (pk_block _ _ _ _ _ _ _ _ Hp) as (? & ? & ? & -> & _). simpl. by rewrite Ep. }
  pose proof (packed_number _ _ Epid) as Enum.
  assert (Header_Signer (blkHeader b) = Ok (nodeMaster p)) as Esig.
  { rewrite (pk_master _ _ _ _ _ _ _ _ Hp). eapply signed_by_signer; [apply (pk_signed _ _ _ _ _ _ _ _ Hp)|].
    rewrite Enum, En. pose proof (Header_Number_range parent). unfold block_ok in Hb. ulia. }
  assert (scheduled p parent (blkHeader b) ben t score) as Hsc.
  { destruct (pk_block _ _ _ _ _ _ _ _ Hp) as (? & ? & ? & -> & _). cbn [blkHeader] in *.
    split; simpl; rewrite ?Ec; done. }
  destruct (proposer_ok fuel repo seeds p parent (blkHeader b) now st c l ben t score st2 status _ Esync Hat1
    Hseeds Hval HA Hfit) as (Hslot & ch & c' & Eprop);
    [unfold MaxPosScore in Hsmax; lia|done|done|].
  destruct (validate_ok repo st b parent now' c status (st <| sStaker := s1 |>) ch st2 st' (fReceipts f) c') as [c'' Ev].
  - eapply (validateBlockHeader_ok forkConfig _ _ key); [lia| |done].
    apply (packed_follows p key parent f b st' rroot troot (Z.of_nat (length l) + MaxPosScore) score);
      rewrite ?Ec; try done; [|apply Hfit|lia].
    pose proof (fo_gas _ _ _ _ _ _ Hf) as Hg. by rewrite Ectx in Hg.
  - by rewrite Enum.
  - exact Eprop.
  - eapply packed_body; [exact Hf|exact Hp|]. by rewrite Ectx, Ep.
  - rewrite <- Epos, <- (fo_pos _ _ _ _ _ _ Hf).
    eapply (verifyBlock_ok OK (HAYABUSA forkConfig) Hhay); [exact Hf|exact Hp|exact Esig|by rewrite Ec|by rewrite Ec, Ep|].
    by rewrite Ec.
  - apply (fo_topics _ _ _ _ _ _ Hf).
  - exists c''. unfold Process. rewrite Esum. rewrite (kbind_Ok _ _ c c tt); [done|].
    destruct (pk_block _ _ _ _ _ _ _ _ Hp) as (? & ? & ? & E & _).
    assert (TxsFeatures (blkHeader b) = featuresAt forkConfig (Header_Number (blkHeader b))) as ->.
    { rewrite Enum, <- Efeat, <- (fo_features _ _ _ _ _ _ Hf). by rewrite E. }
    by rewrite Z.eqb_refl.
Qed.
End accepted.

(** ** A staking block *)
Lemma demo_packable : packable demo_packer demo_parent 2 [demo_new_tx].
Proof.
  split.
  - vm_compute. split; [discriminate|reflexivity].
  - vm_compute. repeat split; discriminate.
  - intros t Ht. apply list_elem_of_singleton in Ht as ->. vm_compute. split; [discriminate|reflexivity].
Qed.

Lemma packed_block_accepted_witness :
  blkTxs demo_result.1.1 = [demo_new_tx] ∧ ∃ c,
    Process demo_forks3 demo_none ∅ 0 id demo_repo demo_state (MkBlockSummary demo_parent [] 0 0)
      demo_result.1.1 31 (MkConsensus ∅ ∅) = (c, Ok (demo_result.1.2, demo_result.2)).
Proof.
  split; [vm_compute; reflexivity|]. destruct demo_scheduled as (f & Es & Ep).
  rewrite (surjective_pairing demo_result), (surjective_pairing demo_result.1) in Ep.
  refine (packed_block_accepted short_config_ok _ demo_forks3 _ demo_none ∅ 0 id 4 demo_repo ∅ demo_packer 7 true
    [demo_new_tx] demo_state demo_parent 25 (MkConsensus ∅ ∅) 31 [7; 8] f demo_result.1.1 demo_result.1.2 demo_result.2
    demo_staker_at _ demo_auth_list demo_packable _ _ (no_cache_ok _ _ _ _) Es Ep _ (MkBlockSummary demo_parent [] 0 0) eq_refl).
  - vm_compute. split; reflexivity.
  - vm_compute. split; [discriminate|reflexivity].
  - vm_compute. split; [discriminate|reflexivity].
  - vm_compute. split; [discriminate|]. split; [discriminate|reflexivity].
  - intros i v Hi. exfalso. rewrite lookup_empty in Hi. discriminate.
  - vm_compute. discriminate.
Defined.
