(* ===== verification/ConsensusCaches.v ===== *)
(** * The caches of a validator

    Validating a block gives the same result, acceptance or error, whatever the
    seeds, candidates and leader groups the validator has kept, as long as they
    agree with the chain. *)

From S2P Require Import Prelude Bytes External Thor Block Tx ChainRepo Scheduler SchedulerCorrect.
From S2P Require Import Validation ValidationService Staker StakerOps Housekeep LinkedList Authority Trie TxRoot Consensus.
From S2P Require Import Packer PackerSched PackerExec PackerCorrect PackerTheorems.
From S2P Require Import StakerChain Scenario ChainDemo TrieTheorems PackerDemo.

(** ** Computations that agree *)

(** From any two caches in [I], both computations fail alike or give values
    related by [R], and their caches are in [I] again. *)
Definition agree {S A} (I : S → Prop) (R : A → A → Prop) (m m' : K S A) : Prop :=
  ∀ c c', I c → I c' →
  match m c, m' c' with
  | (d, Ok a), (d', Ok a') => R a a' ∧ I d ∧ I d'
  | (_, Err e), (_, Err e') => e = e'
  | _, _ => False
  end.

Section agree.
Context {S : Type} (I : S → Prop).

Lemma agree_bind {A B} (R : A → A → Prop) (R' : B → B → Prop) (m m' : K S A) (f f' : A → K S B) :
  agree I R m m' → (∀ a a', R a a' → agree I R' (f a) (f' a')) → agree I R' (m ≫= f) (m' ≫= f').
Proof.
  intros Hm Hf c c' Hc Hc'. specialize (Hm c c' Hc Hc'). unfold mbind, K_bind.
  destruct (m c) as [d [a|e]], (m' c') as [d' [a'|e']]; try done. destruct Hm as (HR & Hd & Hd').
  by apply Hf.
Qed.

Lemma agree_result {A} (r : result A) : agree I eq (kresult r) (kresult r).
Proof. intros c c' Hc Hc'. unfold kresult. by destruct r. Qed.

Lemma agree_known {A} (r : result A) : agree I (λ a a', a = a' ∧ r = Ok a) (kresult r) (kresult r).
Proof. intros c c' Hc Hc'. unfold kresult. by destruct r. Qed.

Lemma agree_reject b msg : agree I eq (kreject (S := S) b msg) (kreject b msg).
Proof. intros c c' Hc Hc'. unfold kreject. by destruct b. Qed.

Lemma agree_ret {A} (R : A → A → Prop) (a a' : A) : R a a' → agree I R (mret a) (mret a').
Proof. intros HR c c' Hc Hc'. done. Qed.

Lemma agree_eq {A B} (R' : B → B → Prop) (m : K S A) (f f' : A → K S B) :
  agree I eq m m → (∀ a, agree I R' (f a) (f' a)) → agree I R' (m ≫= f) (m ≫= f').
Proof. intros Hm Hf. eapply agree_bind; [exact Hm|]. by intros a ? <-. Qed.

Lemma agree_of_result {A} (R : A → A → Prop) (r r' : result A) :
  match r, r' with Ok a, Ok a' => R a a' | Err e, Err e' => e = e' | _, _ => False end →
  agree I R (kresult r) (kresult r').
Proof. intros HR c c' Hc Hc'. unfold kresult. by destruct r, r'. Qed.

(** The result, when the rest no longer reads the caches. *)
Lemma agree_last {A B} (R : A → A → Prop) (m m' : K S A) (f f' : A → K S B) c c' :
  agree I R m m' → I c → I c' → (∀ a a' d d', R a a' → (f a d).2 = (f' a' d').2) →
  ((m ≫= f) c).2 = ((m' ≫= f') c').2.
Proof.
  intros Hm Hc Hc' Hf. specialize (Hm c c' Hc Hc'). unfold mbind, K_bind.
  destruct (m c) as [d [a|e]], (m' c') as [d' [a'|e']]; try done; [by apply Hf, Hm|by subst].
Qed.
End agree.

Lemma kmodify_if {S B} (b : bool) (g : S → S) (f : unit → K S B) c :
  ((if b then kmodify g else mret tt) ≫= f) c = f tt (if b then g c else c).
Proof. by destruct b. Qed.

Lemma kresult_snd {S A B} (r : result A) (f f' : A → K S B) c c' :
  (∀ a, (f a c).2 = (f' a c').2) → ((kresult r ≫= f) c).2 = ((kresult r ≫= f') c').2.
Proof. intros Hf. unfold mbind, K_bind, kresult. destruct r; [apply Hf|done]. Qed.

(** ** Seeds *)
Section seeds.
Context `{CFG : Config} `{Rlp} `{Crypto}.

Lemma Generate_agree r id s s' : seeds_ok r s → seeds_ok r s' →
  match Generate r id s, Generate r id s' with
  | Ok (v, c), Ok (v', c') => v = v' ∧ seeds_ok r c ∧ seeds_ok r c'
  | Err e, Err e' => e = e'
  | _, _ => False
  end.
Proof.
  intros Hs Hs'. destruct (Generate r id s) as [[v c]|e] eqn:E.
  - destruct (Generate_any r id s s' v c Hs Hs' E) as (c' & -> & Hc').
    destruct (Generate_any r id s s v c Hs Hs E) as (c2 & E2 & Hc2). rewrite E in E2. by injection E2 as <-.
  - destruct (Generate r id s') as [[v' c']|e'] eqn:E'.
    { destruct (Generate_any r id s' s v' c' Hs' Hs E') as (c2 & E2 & _). congruence. }
    revert E E'. unfold Generate, mbind, M_bind, lift, gets, modify, mret, M_ret. case_match; [done|].
    destruct (GetBlockID r id _) as [sid|]; [|congruence]. cbn [mbind result_bind].
    destruct (s !! sid); [done|]. destruct (s' !! sid); [done|].
    destruct (GetBlockSummary r sid) as [summary|]; [|congruence]. cbn [mbind result_bind].
    destruct (Beta (sumHeader summary)); congruence.
Qed.
End seeds.

(** ** The proposer *)
Section proposer.
Context `{SMS : SafeMathSpec} `{CFG : Config} `{Rlp} `{Drlp} `{Crypto} `{Sampling} `{SMM : SafeMulOp}.
Context {X : Type} `{!Runtime X} (forkConfig : ForkConfig).
Implicit Types (st : State X).

(** The caches for a block on [parentID], for each kind of proposer. *)
Definition cache_inv (repo : ChainRepo) (active : bool) (number : Z) (parentID : Bytes32) st (c : Consensus) : Prop :=
  seeds_ok repo (cSeeder c) ∧
  if active then leaders_cached parentID st c else candidates_ok forkConfig number parentID st c.

Lemma seedFor_agree repo active number parentID st id :
  agree (cache_inv repo active number parentID st) eq (seedFor repo id) (seedFor repo id).
Proof.
  intros c c' [Hs Hc] [Hs' Hc']. unfold seedFor. pose proof (Generate_agree repo id _ _ Hs Hs') as Hg.
  destruct (Generate repo id (cSeeder c)) as [[v s]|], (Generate repo id (cSeeder c')) as [[v' s']|]; try done.
  destruct Hg as (<- & Hv & Hv'). split; [done|]. split; (split; [by destruct c, c'|]); by destruct active, c, c'.
Qed.

(** The picked proposers and the list do not depend on what was kept. *)
Definition same_list (A : Authority) (l : list Address) (c : candidates) : Prop :=
  cdList c = candidateOf A <$> l ∧ masters_ok c.

Lemma Pick_agree mbp chk A l c c' : auth_list A l →
  coherent chk (GetMaxBlockProposers mbp true) A c → coherent chk (GetMaxBlockProposers mbp true) A c' →
  match Pick mbp chk c, Pick mbp chk c' with
  | Ok (ps, d), Ok (ps', d') => ps = ps' ∧ same_list A l d ∧ same_list A l d'
  | Err e, Err e' => e = e'
  | _, _ => False
  end.
Proof.
  intros HA Hc Hc'.
  assert (∀ c, coherent chk (GetMaxBlockProposers mbp true) A c →
    Pick mbp chk c = (satisfied ← satisfy chk (GetMaxBlockProposers mbp true) 0 (candidateOf A <$> l) [];
                      ps ← proposersAt (candidateOf A <$> l) satisfied; Ok (ps, c <| cdSatisfied := satisfied |>))) as HP.
  { intros d [El _ Hs]. rewrite <- (El l HA). unfold Pick.
    destruct (Nat.eqb_spec (length (cdSatisfied d)) 0) as [E|E]; [done|].
    destruct Hs as [Hs|Hs]; [by rewrite Hs in E|]. by rewrite Hs. }
  rewrite (HP c Hc), (HP c' Hc'). destruct (satisfy _ _ _ _ _) as [idx|]; [|done]. cbn [mbind result_bind].
  destruct (proposersAt _ idx) as [ps|]; [|done]. cbn [mbind result_bind]. split; [done|].
  destruct Hc as [El Hm _], Hc' as [El' Hm' _]. specialize (El l HA). specialize (El' l HA).
  split; [by destruct c|by destruct c'].
Qed.

Lemma candidatesFor_agree repo number id st l : auth_list (sAuthority st) l →
  agree (cache_inv repo false number id st)
    (λ c c', let mbp := GetMaxBlockProposers (maxBlockProposersParam (sStaker st)) true in
             coherent (balanceCheck forkConfig number st) mbp (sAuthority st) c ∧
             coherent (balanceCheck forkConfig number st) mbp (sAuthority st) c')
    (candidatesFor id (sAuthority st)) (candidatesFor id (sAuthority st)).
Proof.
  intros HA c c' [Hs Hc] [Hs' Hc'].
  destruct (candidatesFor_ok forkConfig number id st c l HA Hc) as (cand & -> & Hco).
  by destruct (candidatesFor_ok forkConfig number id st c' l HA Hc') as (cand' & -> & Hco').
Qed.

Lemma updateCandidates_agree A0 l us c c' A : same_list A0 l c → same_list A0 l c' →
  (∀ u, u ∈ us → pAddress u ∈ NodeMaster <$> (candidateOf A0 <$> l)) →
  match updateCandidates us c A, updateCandidates us c' A with
  | Ok (_, A1), Ok (_, A1') => A1 = A1'
  | Err e, Err e' => e = e'
  | _, _ => False
  end.
Proof.
  intros [El Hm] [El' Hm'] Hus.
  assert (∀ us d A, masters_ok d → (∀ u, u ∈ us → pAddress u ∈ NodeMaster <$> cdList d) →
    match updateCandidates us d A with Ok (_, A1) => updateAuthority us A = Ok (tt, A1)
                                     | Err e => updateAuthority us A = Err e end) as HU.
  { clear. induction us as [|u us IH]; intros d A Hm Hus; [done|]. cbn [updateCandidates updateAuthority].
    unfold mbind, M_bind, result_bind. destruct (Authority_Update (pAddress u) (pActive u) A) as [[b A1]|];
      cbn [mbind result_bind]; [|done].
    destruct (candidates_Update_ok (pAddress u) (pActive u) d Hm) as (d1 & -> & Hm1 & E1); [apply Hus; set_solver|].
    apply IH; [done|]. intros u' Hu'. rewrite E1. apply Hus. set_solver. }
  pose proof (HU us c A Hm) as H1'. pose proof (HU us c' A Hm') as H2'. rewrite El in H1'. rewrite El' in H2'.
  specialize (H1' Hus). specialize (H2' Hus).
  destruct (updateCandidates us c A) as [[d A1]|], (updateCandidates us c' A) as [[d' A1']|]; congruence.
Qed.

(** The updates of the schedulers of an authority block name listed proposers. *)
Lemma authority_updates repo active number id st a ps parent h :
  agree (cache_inv repo active number id st)
    (λ s s', s = s' ∧ ∀ t us sc, sched_Updates s t = Ok (us, sc) → ∀ u, u ∈ us → pAddress u ∈ pAddress <$> ps)
    (if Header_Number h <? VIP214 forkConfig
     then kresult (s ← NewPoASchedulerV1 a ps (Header_Number parent) (Timestamp parent); Ok (SchedV1 s))
     else seed ← seedFor repo (ParentID h);
          kresult (s ← NewPoASchedulerV2 a ps (Header_Number parent) (Timestamp parent) seed; Ok (SchedV2 s)))
    (if Header_Number h <? VIP214 forkConfig
     then kresult (s ← NewPoASchedulerV1 a ps (Header_Number parent) (Timestamp parent); Ok (SchedV1 s))
     else seed ← seedFor repo (ParentID h);
          kresult (s ← NewPoASchedulerV2 a ps (Header_Number parent) (Timestamp parent) seed; Ok (SchedV2 s))).
Proof.
  destruct (_ <? VIP214 forkConfig).
  - apply agree_of_result. destruct (NewPoASchedulerV1 _ _ _ _) as [s|] eqn:Es; [|done]. split; [done|].
    intros t us sc. by eapply v1_updates_listed.
  - eapply agree_eq; [apply seedFor_agree|]. intros seed. apply agree_of_result.
    destruct (NewPoASchedulerV2 _ _ _ _ seed) as [s|] eqn:Es; [|done]. split; [done|].
    intros t us sc Eu. cbn [sched_Updates] in Eu. apply Ok_pair in Eu as [-> _]. by eapply v2_updates_listed.
Qed.

(** The value related: the same state, and cachers that fail on the same
    receipts. *)
Definition same_cacher (a b : cacher) : Prop :=
  match a, b with poaCacher _, poaCacher _ => True | _, _ => a = b end.
Definition same_outcome (x y : cacher * State X) : Prop := x.2 = y.2 ∧ same_cacher x.1 y.1.

Lemma proposersAt_listed L idx ps : proposersAt L idx = Ok ps → ∀ a, a ∈ pAddress <$> ps → a ∈ NodeMaster <$> L.
Proof.
  revert ps. induction idx as [|i idx IH]; intros ps E a Ha; cbn [proposersAt] in E.
  - injection E as <-. by apply not_elem_of_nil in Ha.
  - destruct (L !! i) as [x|] eqn:Ei; [|done]. destruct (proposersAt L idx) as [ps'|]; [|done]. injection E as <-.
    simpl in Ha. apply elem_of_cons in Ha as [->|Ha]; [|by eapply IH].
    apply list_elem_of_fmap. exists x. split; [done|]. by eapply list_elem_of_lookup_2.
Qed.

Lemma Pick_listed mbp chk c ps d : Pick mbp chk c = Ok (ps, d) → ∀ a, a ∈ pAddress <$> ps → a ∈ NodeMaster <$> cdList c.
Proof.
  unfold Pick. intros E. destruct (if (_ =? 0)%nat then _ else _) as [idx|]; [|done]. cbn [mbind result_bind] in E.
  destruct (proposersAt (cdList c) idx) as [ps'|] eqn:Ep; [|done]. injection E as <- _. by eapply proposersAt_listed.
Qed.

Lemma validateAuthorityProposer_agree repo h parent st l : auth_list (sAuthority st) l →
  agree (cache_inv repo false (Header_Number h) (ID parent) st) same_outcome
    (validateAuthorityProposer forkConfig repo h parent st) (validateAuthorityProposer forkConfig repo h parent st).
Proof.
  intros HA. unfold validateAuthorityProposer. eapply agree_eq; [apply agree_result|]. intros signer.
  eapply agree_bind; [eapply candidatesFor_agree; exact HA|]. intros cand cand' [Hco Hco'].
  eapply (agree_bind _ (λ x y, x.1 = y.1 ∧ same_list (sAuthority st) l x.2 ∧ same_list (sAuthority st) l y.2 ∧
    ∀ a, a ∈ pAddress <$> x.1 → a ∈ NodeMaster <$> (candidateOf (sAuthority st) <$> l))).
  { apply agree_of_result. pose proof (Pick_agree _ _ _ l cand cand' HA Hco Hco') as HP.
    destruct (Pick _ _ cand) as [[ps d]|] eqn:Ep, (Pick _ _ cand') as [[ps' d']|]; try done.
    destruct HP as (<- & Hd & Hd'). split_and!; try done. rewrite <- (co_list _ _ _ _ Hco l HA). by eapply Pick_listed. }
  intros [ps d] [ps' d'] (E & Hd & Hd' & Hps). simpl in E, Hd, Hd', Hps. subst ps'. cbn beta iota.
  eapply agree_bind; [apply authority_updates|]. intros sch ? [<- Hus]. cbn beta.
  eapply agree_eq; [apply agree_result|]. intros isTime. eapply agree_eq; [apply agree_reject|]. intros _.
  eapply agree_bind; [apply agree_known|]. intros [us sc] ? [<- Eu]. cbn beta iota.
  eapply agree_eq; [apply agree_reject|]. intros _.
  eapply (agree_bind _ (λ x y, x.2 = y.2)).
  { apply agree_of_result. pose proof (updateCandidates_agree (sAuthority st) l us d d' (sAuthority st) Hd Hd') as HU.
    destruct (updateCandidates us d _) as [[e A1]|], (updateCandidates us d' _) as [[e' A1']|]; apply HU;
      intros u Hu; apply Hps; by eapply Hus. }
  intros [e A1] [e' A1'] E. simpl in E. subst A1'. by apply agree_ret.
Qed.

Lemma leadersFor_agree repo number id st :
  agree (cache_inv repo true number id st) eq (leadersFor id (sStaker st)) (leadersFor id (sStaker st)).
Proof.
  intros c c' [Hs Hc] [Hs' Hc'].
  assert (∀ c, leaders_cached id st c →
    leadersFor id (sStaker st) c = (c, '(l, _) ← LeaderGroup (sStaker st); Ok l)) as HL.
  { intros d Hd. unfold leaders_cached, leadersFor in *. f_equal.
    destruct (validatorsCache d !! id) as [[|ls]|]; [done| |done]. destruct Hd as [->|[s' E]]; [done|].
    rewrite E. cbn [mbind result_bind]. by destruct (_ =? 0)%nat. }
  rewrite (HL c Hc), (HL c' Hc'). by destruct (LeaderGroup (sStaker st)) as [[l s]|].
Qed.

Lemma validateStakingProposer_agree repo number h parent st :
  ParentID h = ID parent →
  agree (cache_inv repo true number (ID parent) st) same_outcome
    (validateStakingProposer repo h parent st) (validateStakingProposer repo h parent st).
Proof.
  intros Ep. unfold validateStakingProposer. rewrite Ep.
  eapply agree_eq; [apply agree_result|]. intros signer.
  eapply agree_eq; [apply seedFor_agree|]. intros seed.
  eapply agree_eq; [apply leadersFor_agree|]. intros leaders.
  eapply agree_eq; [apply agree_result|]. intros [[vet tw] s].
  eapply agree_eq; [apply agree_result|]. intros sch. cbn zeta.
  eapply agree_eq; [apply agree_result|]. intros isTime.
  eapply agree_eq; [apply agree_reject|]. intros _.
  eapply agree_eq; [apply agree_result|]. intros [us sc].
  eapply agree_eq; [apply agree_reject|]. intros _.
  eapply agree_eq; [apply agree_reject|]. intros _.
  eapply agree_eq; [apply agree_result|]. intros [[] s'].
  apply agree_ret. split; [done|]. by destruct (_ <? _)%nat.
Qed.

(** Handling the receipts fails alike. *)
Lemma Handle_agree id a b h rs : same_cacher a b →
  match Handle forkConfig id a h rs, Handle forkConfig id b h rs with
  | Ok _, Ok _ => True
  | Err e, Err e' => e = e'
  | _, _ => False
  end.
Proof.
  intros Hab. destruct a as [ca|ls|], b as [cb|ls'|]; try done.
  - cbn [Handle]. by destruct (existsb (λ ev, evAddress ev =? AuthorityAddress) _).
  - injection Hab as <-. cbn [Handle]. by destruct (beneficiarySet id _).
Qed.

Context (IsOriginBlocked : Address → bool) (correctReceiptsRoots : gmap Bytes32 Bytes32).
Context (BeneficiarySetID : Bytes32) (evict : gmap Bytes32 cacheEntry → gmap Bytes32 cacheEntry).

(** The caches after the stale entry was removed. *)
Lemma synced_cache repo parent st c status st1 :
  validator_ok forkConfig repo parent st c → syncPOS forkConfig (Header_Number parent +u32 1) st = (status, st1) →
  cache_inv repo (SyncActive status) (Header_Number parent +u32 1) (ID parent) st1
    (if SyncUpdates status then c <| validatorsCache := delete (ID parent) (validatorsCache c) |> else c).
Proof.
  intros [Hs Hc] E. rewrite E in Hc. destruct (SyncUpdates status); [|split; [done|by apply Hc]].
  split; [by destruct c|]. unfold leaders_cached, candidates_ok. destruct c. simpl. rewrite lookup_delete_eq.
  by destruct (SyncActive status).
Qed.

(** C10: Validating a block gives the same result on every node: the caches of
    seeds, candidates and leader groups, as long as they agree with the chain,
    change neither whether a block is accepted, nor the error it is rejected
    with, nor its state and receipts. *)
Theorem validation_ignores_caches repo st summary blk now c c' l :
  ParentID (blkHeader blk) = ID (sumHeader summary) → auth_list (sAuthority st) l →
  validator_ok forkConfig repo (sumHeader summary) st c → validator_ok forkConfig repo (sumHeader summary) st c' →
  (Process forkConfig IsOriginBlocked correctReceiptsRoots BeneficiarySetID evict repo st summary blk now c).2 =
  (Process forkConfig IsOriginBlocked correctReceiptsRoots BeneficiarySetID evict repo st summary blk now c').2.
Proof.
  intros Ep HA Hc Hc'. unfold Process, validate. set (h := blkHeader blk) in *. set (parent := sumHeader summary) in *.
  apply (kresult_snd (if negb _ then Err (ErrInternal _) else Ok tt)). intros _. cbn beta.
  apply kresult_snd. intros _. pose proof (packed_number h parent Ep) as En.
  destruct (syncPOS forkConfig (Header_Number h) st) as [status st1] eqn:Esync.
  assert (sAuthority st1 = sAuthority st) as EA.
  { unfold syncPOS, zoom in Esync. destruct (SyncPOS _ _ _) as [[? ?]|]; [by injection Esync as _ <-|].
    destruct (IsPoSActive _) as [[? ?]|]; by injection Esync as _ <-. }
  rewrite En in Esync. pose proof (synced_cache repo parent st c status st1 Hc Esync) as HI.
  pose proof (synced_cache repo parent st c' status st1 Hc' Esync) as HI'.
  rewrite !kmodify_if.
  eapply (agree_last _ same_outcome); [|exact HI|exact HI'|].
  { destruct (SyncActive status); [by apply validateStakingProposer_agree|]. rewrite <- En.
    eapply validateAuthorityProposer_agree. by rewrite EA. }
  intros [a st2] [b st2'] d d' [E Hab]. cbn [fst snd] in E, Hab. subst st2'. cbn beta iota.
  apply kresult_snd. intros _. apply kresult_snd. intros [st' rs].
  pose proof (Handle_agree BeneficiarySetID a b h rs Hab) as HH. unfold kresult, mbind, K_bind.
  destruct (Handle _ _ a h rs) as [[e|]|], (Handle _ _ b h rs) as [[e'|]|]; simplify_eq; done.
Qed.
End proposer.

(** ** A validator that has kept the leader group *)
Definition demo_summary : BlockSummary := MkBlockSummary demo_parent [] 0 0.
Definition demo_synced : SyncStatus * State Z :=
  syncPOS demo_forks3 (Header_Number (sumHeader demo_summary) +u32 1) demo_state.
Definition demo_leaders : list Leader :=
  default [] (attempt (LeaderGroup (sStaker demo_synced.2)) (λ x, Ok x.1)).
Definition demo_kept : Consensus := MkConsensus ∅ {[ID (sumHeader demo_summary) := CLeaders demo_leaders]}.

#[local] Strategy expand [demo_synced demo_leaders demo_kept].

Lemma attempt_fst {A B} (r : result (A * B)) d : is_Some (attempt r (λ x, Ok x.1)) →
  ∃ s, r = Ok (default d (attempt r (λ x, Ok x.1)), s).
Proof. destruct r as [[a b]|]; [|by intros []]. intros _. by exists b. Qed.

Lemma demo_leader_group : ∃ s, LeaderGroup (sStaker demo_synced.2) = Ok (demo_leaders, s).
Proof.
  apply attempt_fst. apply (bool_decide_eq_true_1 (is_Some _)). vm_compute. reflexivity.
Qed.

Lemma kept_ok {X} `{Rlp} `{Crypto} `{Drlp} `{!Runtime X} `{CFG : Config} `{SMM : SafeMath} forks repo parent (st : State X) ls :
  SyncActive (syncPOS forks (Header_Number parent +u32 1) st).1 = true →
  (∃ s, LeaderGroup (sStaker (syncPOS forks (Header_Number parent +u32 1) st).2) = Ok (ls, s)) →
  validator_ok forks repo parent st (MkConsensus ∅ {[ID parent := CLeaders ls]}).
Proof.
  intros Ha Hl. split; [done|]. destruct (syncPOS _ _ st) as [status st1]. simpl in *. intros _. rewrite Ha.
  unfold leaders_cached. cbn [validatorsCache]. rewrite lookup_singleton_eq. by right.
Qed.

Lemma validation_ignores_caches_witness :
  demo_leaders ≠ [] ∧
  (Process demo_forks3 demo_none ∅ 0 id demo_repo demo_state demo_summary
     demo_result.1.1 31 demo_kept).2 =
  (Process demo_forks3 demo_none ∅ 0 id demo_repo demo_state demo_summary
     demo_result.1.1 31 (MkConsensus ∅ ∅)).2.
Proof.
  split; [vm_compute; discriminate|].
  refine (validation_ignores_caches demo_forks3 demo_none ∅ 0 id demo_repo demo_state
    demo_summary demo_result.1.1 31 demo_kept (MkConsensus ∅ ∅) [7; 8] _ demo_auth_list _
    (no_cache_ok _ _ _ _)).
  - vm_compute. reflexivity.
  - refine (kept_ok _ _ _ _ _ _ demo_leader_group). vm_compute. reflexivity.
Defined.
